(* ===== verification/_CoqProject ===== *)
-Q . S2P
Prelude.v
CString.v
Xdr.v
Utility.v
ClientMutex.v
LockMsg.v
LockServer.v
LockSystem.v
LockSafety.v
LockProgress.v
LockSpec.v
LockScenarios.v
LockWitness.v
LockUse.v
LockClient.v
ThreadMsg.v
Thread.v
Dispatch.v
DispatchHeap.v
ThreadMigrate.v
LockTyping.v
LockOrder.v
LockDeadlock.v
LockTermination.v
LockEntry.v
LockFrame.v
LockInit.v
LockApp.v
LockAppSpec.v
LockMisuse.v
DsmMsg.v
DsmUtil.v
DsmServer.v
DsmClient.v
DsmSystem.v
DsmFault.v
