(* ===== verification/Prelude.v ===== *)
(** * DistributedSystem: a verification library

    The program is three services over Sun RPC, each with a client library, a server and
    message routines, and a utility layer that they share:

    - a distributed lock manager (Ricart and Agrawala): one server per node; an application
      calls its local server, which asks every other node's server for permission;
    - a distributed shared memory: one server per node with a directory of pages; a client
      library that maps pages and handles access faults;
    - thread migration: a thread's context is captured, sent and resumed elsewhere.

    ** Files

    - [Prelude.v] (this file): C integers, bytes, outcomes of C code, tactics and hints, and
      generic lemmas.
    - [CString.v]: the C string functions in use (strlen, strncmp, strcmp, strncpy, strtok).
    - [Xdr.v]: the interface [XdrStream] with its laws [XdrLaws] for the XDR primitives of
      the RPC library, combinators for message routines, what it means for a routine to
      implement an encoding ([filter_ok]) and its consequence [roundtrips]; [XdrMem], a
      bounded memory stream, is an instance.
    - [Utility.v]: utility.c without its dispatcher, and the part that the main functions
      share; [ClientMutex.v]: create_client in small steps, with the mutex that its callers
      share.
    - [LockMsg.v]: RequestPack and its routine (psu_dist_lock_mgr_msg.h, _msg_xdr.c).
    - [LockServer.v]: psu_dist_lock_mgr_server.c.  [Server] and [LockVar] are its globals.
      [find_lockvar], [initialize_global_variable] and [init_lock_mgr_1_svc] are functions;
      [acquire_lock_1_svc], [release_lock_1_svc] and [request_1_svc] run concurrently and
      are step functions [acquire_step], [release_step], [request_step] on a program counter
      with the procedure's locals; one step makes at most one access to shared memory.
      Mutexes are those of glibc ([mutex]): they count their users, so that unlocking one
      that is not locked makes the destruction fail and a later second lock wait.
    - [LockSystem.v]: any number of nodes and threads; [exec] runs one thread for one step,
      [step] is any such step without RPC failure, [step_excl] a step from a state in which
      no two handlers of a node and lock are between the read and the write of line 170;
      [initial], [holds] and [mutual_exclusion].
    - [LockSafety.v]: the invariant and mutual exclusion.
    - [LockProgress.v]: what the procedures do when they run alone, against direct
      definitions; acquisition of an uncontended lock; requests that wait for ever.
    - [LockSpec.v]: the lock service as a table of owners that accepts or refuses events
      ([service]), the events of an execution ([sys_run]), and the refinement.
    - [LockScenarios.v], [LockWitness.v]: concrete systems and executions.
    - [LockTyping.v]: ownership of lock variables, ranges of sequence numbers and well-typed
      messages in every execution, failed RPCs included; the requests of the system are
      carried through stub and dispatcher.
    - [LockUse.v]: a node that uses locks in turn while the others do not ask.
    - [LockOrder.v]: the order in which competing nodes enter.
    - [LockDeadlock.v]: when the lock manager does not deadlock; [LockTermination.v]: a
      measure that every step decreases; [LockEntry.v]: servers stay up, and
      waiting sessions lead to an entry on every schedule.
    - [LockInit.v]: [init_lock_mgr_1_svc] in small steps, with the position of strtok that
      concurrent calls share.
    - [LockFrame.v]: steps for one lock leave the others alone.
    - [LockClient.v]: psu_dist_lock_mgr.c, the stubs in _msg_clnt.c, and the initialization
      of a cluster.
    - [LockApp.v]: application processes that call the interface functions while the
      servers run, with any number of locks each; [in_order] is the discipline under which
      the lock manager works; [LockAppSpec.v]: the lock service as they see it, by events;
      [LockMisuse.v]: releases of locks that the caller has not acquired.
    - [ThreadMsg.v]: psu_thread_msg.h and _msg_xdr.c; [Thread.v]: psu_thread.c,
      psu_thread_server.c and the stub; [ThreadMigrate.v]: a migration through stub,
      dispatcher and server.
    - [Dispatch.v]: dispatcher and run of utility.c, and the svc files of the lock manager
      and of the thread manager; [DispatchHeap.v]: the blocks that dispatcher allocates and
      run frees.
    - [DsmMsg.v]: psu_dsm_msg.h and _msg_xdr.c; [DsmUtil.v]: util.c; [DsmServer.v]:
      psu_dsm_server.c and init; [DsmClient.v]: psu_dsm_msg_svc.c, psu_dsm_msg_clnt.c and
      psu_dsm.c without its fault handler; [DsmSystem.v]: a cluster of servers that call
      each other, with page_creat in one step and in small steps; [DsmFault.v]:
      segv_handler, over the interface [AddressSpace], alone and in a cluster.

    ** What the theorems show

    - Lock manager, safety (C1-C4, C7-C9, C12, C21): mutual exclusion over all interleavings
      for any number of nodes when line 170 does not interleave with itself, without that
      proviso for two nodes, and on one node without any proviso; every execution is matched
      event by event with the abstract lock service, both the sessions of the servers (C3)
      and application processes that initialize and use a running cluster through the library
      and keep to [in_order] (C4); the holder comes first in the order by sequence number and
      MAC address, and a counted reply stays a permission; servers do not exit; locks do not
      interfere.
    - Lock manager, what goes wrong (C15, C19, C20, C22-C24, C27, C35): the provisos are
      needed.  A lost update at line 170, a failed REQUEST, a failed initialization, a
      release by a process that has not acquired the lock, or the position of strtok that
      two initializations share gives two holders or lets an initialization return early; a
      request that is judged between lines 125 and 126, a deferred request of a node that is
      done, or a mutex that is unlocked before it is locked makes a thread wait for ever.
    - Lock manager, types and bounds (C10-C11): for executions with failed RPCs too, the
      messages are well typed and survive the wire, and sequence numbers count acquisitions.
    - Lock manager, termination and liveness (C5-C6, C16-C18): every execution with k acquire
      calls is finite, with an explicit bound, so that liveness needs no fairness: while a
      lock has not been released and no request is judged between lines 125 and 126, a
      waiting session leads to an entry on every schedule; an uncontended lock is acquired,
      any number of times while nobody else has asked, and a contended one handed over.
    - Lock manager, behaviour (C13-C15): the initialization code establishes the initial
      states of these theorems; contracts of the request and release procedures on every
      branch, with step bounds.
    - Lock client, dispatch and utilities (C25, C26, C28, C29, C33): the node string fits its
      buffer and is parsed back; the request message; memory of the dispatcher; the MAC
      address; create_client under its mutex.
    - Shared memory (C30-C32, C34, C36, C40): allocation from the client library through the
      servers and back; the directory stays empty in every execution, so pages are not
      shared; servers that wait for each other; what a page fault leads to in a cluster; the
      request message.
    - Thread migration (C37-C39): message round trip, equivalence of the inline path, and
      migration from end to end, stack contents included.

    ** Assumptions and bounds

    The XDR primitives are used through [XdrLaws] (RFC 4506 in both directions, failure at
    the end of the stream).  Name resolution is the parameter [host_of] of the lock system; a
    node that cannot be reached makes the caller exit, as in create_client.  [find_lockvar]
    runs under its mutex and is one step.  The code of GLib and of the C library is not part
    of the program: an append to a GArray, a free of one and a call of strtok are one step
    each.  The program makes these calls without a lock, and neither library makes them
    safe then, so executions in which two threads are inside such a call for one array or
    inside strtok at once have undefined behaviour that no theorem here covers; the use of
    a freed array, which needs no such overlap, is modelled ([RqUndef],
    deferral_use_after_free).  Likewise a thread that has run into undefined behaviour
    stops.  A session releases the lock that it has acquired, other releases are in
    [LockApp.v] and [LockMisuse.v].  A call of create_client is part of one step of the lock
    system, which create_client_serial (C33) justifies: the mutex is always given back.
    malloc does not fail.  Sequence numbers are C ints and the increment that overflows is
    undefined behaviour ([SUndef]), not wrapped.  Fuel: [strtok_loop] has one round per byte and one
    more, each round consumes a byte; [grow] has used / 1024 + 1 rounds, each adds 1024;
    [run_request] needs 9 steps, [run_release] 2 * len + 5; [get_name_from_addr] has no
    sufficient fuel on a non-empty table (get_name_from_addr_diverges).  The body of
    [init_lock_mgr_1_svc] is one step in [LockApp.v], a proviso of C4 that init_returns_early
    (C35) shows to be needed; [LockInit.v] compares it with its small steps (init_alone,
    concurrent_inits_agree).  A page name of 32 characters has no NUL in pageid.name, and
    hash then reads on into size ([page_key], page_key_full), so C30 is for shorter names.
    For the shared memory server the answers of other servers, the success of shmget, the
    address that shmat returns and the contents of uninitialized memory are parameters; the value of the
    uninitialized variable mode of page_request is an argument. In [DsmSystem.v] page_find
    is answered by the other servers of the cluster; the answers to page_request and
    page_fetch stay parameters, which no reachable state uses, since the directory is empty
    (C32). What becomes of the bytes that psu_dsm_page_locate_1 stores beyond its static int
    is the parameter [overrun].

    ** Not modelled

    The messages that the servers print, memory other than the dispatcher's, the AF_LINK
    variant of get_ptr (compiled on other platforms only), what a program does after
    undefined behaviour (the fault handler without DEBUG uses a destroyed client handle at
    line 87 of psu_dsm.c), the execution of a migrated thread, the test programs, and the
    rpcgen inputs and external declarations in the headers.

    ** Plan

    Next: INIT_LOCK_MGR in small steps within the system of [LockApp.v], where acquisitions
    read the nodes while they are added, and the memory that the lock server's procedures
    allocate (request packs, deferred mutexes). *)

From Stdlib Require Export ZArith Lia.
From Stdlib Require Export Strings.Byte.
From Stdlib Require Strings.String.
From stdpp Require Export base tactics numbers list gmap relations.

Export Stdlib.Strings.String.StringSyntax.

#[global] Open Scope Z_scope.

(** ** C integers

    An [int] is a [Z]; a signed operation whose exact result leaves the range
    is undefined behaviour in C and is [None] here.  Unsigned values wrap. *)

Definition INT_MAX : Z := 2147483647.
Definition INT_MIN : Z := -2147483648.
Definition int_ok (z : Z) : Prop := INT_MIN ≤ z ≤ INT_MAX.
Definition int_okb (z : Z) : bool := (INT_MIN <=? z) && (z <=? INT_MAX).
Definition int_add (a b : Z) : option Z :=
  if int_okb (a + b) then Some (a + b) else None.
Definition uint_ok (w z : Z) : Prop := 0 ≤ z < 2 ^ w.
Definition wrap (w z : Z) : Z := z mod 2 ^ w.

(** ** Bytes and byte strings

    [char] data is a list of [Byte.byte]; [b2z] is its value as an
    [unsigned char], [z2b] the truncation of an integer to a [char]. *)

Abbreviation bytes := (list byte).

#[export] Instance byte_eq_dec : EqDecision byte := Byte.byte_eq_dec.

Definition b2z (b : byte) : Z := Z.of_N (Byte.to_N b).
Definition z2b (z : Z) : byte :=
  match Byte.of_N (Z.to_N (z mod 256)) with Some b => b | None => x00 end.

(** A string literal of the source, without its terminating NUL. *)
Definition cstr (s : String.string) : bytes := String.list_byte_of_string s.
Arguments cstr s%_string_scope.

(** ** Outcomes of C code *)

(** [Ret]: the code returns; [Exit]: it calls [exit]; [Crash]: it aborts or
    dereferences an invalid pointer; [Undef]: undefined behaviour with no
    single observable effect. *)
Inductive outcome (A : Type) : Type :=
| Ret (a : A)
| Exit (code : Z)
| Crash
| Undef.
Arguments Ret {A} a.
Arguments Exit {A} code.
Arguments Crash {A}.
Arguments Undef {A}.

Definition obind {A B} (m : outcome A) (f : A → outcome B) : outcome B :=
  match m with Ret a => f a | Exit c => Exit c | Crash => Crash | Undef => Undef end.

Declare Scope outcome_scope.
Delimit Scope outcome_scope with outcome.
Notation "'let!' x := m 'in' k" := (obind m (fun x => k))
  (at level 10, x pattern, m at level 100, k at level 200) : outcome_scope.

(** ** Lexicographic order on (sequence number, MAC address) *)

Definition lexle (a b : Z * Z) : Prop :=
  a.1 < b.1 ∨ (a.1 = b.1 ∧ a.2 ≤ b.2).

(** ** Tactics and hints *)

Create HintDb dist.

(** Case analysis on every [match] and [if] of the hypothesis [H]. *)
Ltac case_all H :=
  repeat match type of H with
         | context [match ?x with _ => _ end] =>
             destruct x eqn:?; simplify_eq/=; try done
         end.

(** Split conjunctions, simplify and close with [lia] or [eauto]. *)
Ltac crush := repeat (split || intros); simplify_eq/=; try done; eauto with dist; try lia.

(** ** Generic lemmas *)

Lemma int_okb_spec z : int_okb z = true ↔ int_ok z.
Proof. unfold int_okb, int_ok. rewrite andb_true_iff, !Z.leb_le. done. Qed.

Lemma int_add_Some a b c : int_add a b = Some c ↔ c = a + b ∧ int_ok (a + b).
Proof.
  unfold int_add. destruct (int_okb (a + b)) eqn:E.
  - apply int_okb_spec in E. naive_solver.
  - split; [done|]. intros [_ Hok%int_okb_spec]. congruence.
Qed.

Lemma int_add_None a b : int_add a b = None → ¬ int_ok (a + b).
Proof. intros Hn Hok. by rewrite (proj2 (int_add_Some a b _) (conj eq_refl Hok)) in Hn. Qed.

Lemma b2z_range b : 0 ≤ b2z b < 256.
Proof.
  unfold b2z. pose proof (Byte.to_N_bounded b). lia.
Qed.

Lemma z2b_b2z b : z2b (b2z b) = b.
Proof.
  unfold z2b. rewrite Z.mod_small by apply b2z_range.
  unfold b2z. rewrite N2Z.id, Byte.of_to_N. done.
Qed.

Lemma b2z_z2b z : b2z (z2b z) = z mod 256.
Proof.
  assert (0 ≤ z mod 256 < 256) by (apply Z.mod_pos_bound; lia).
  unfold z2b. destruct (Byte.of_N (Z.to_N (z mod 256))) eqn:E.
  - apply Byte.to_of_N in E. unfold b2z. rewrite E, Z2N.id; lia.
  - apply Byte.of_N_None_iff in E. lia.
Qed.

Lemma b2z_inj a b : b2z a = b2z b → a = b.
Proof. intros Heq. by rewrite <-(z2b_b2z a), Heq, z2b_b2z. Qed.

Lemma lexle_trans a b c : lexle a b → lexle b c → lexle a c.
Proof. unfold lexle. lia. Qed.

Lemma lexle_antisym a b : lexle a b → lexle b a → a.2 = b.2.
Proof. unfold lexle. lia. Qed.

Lemma rtc_invariant {A} (R : relation A) (P : A → Prop) x y :
  (∀ a b, P a → R a b → P b) → P x → rtc R x y → P y.
Proof. intros Hstep Hx Hr. revert Hx. induction Hr; eauto. Qed.

Lemma lookup_snoc_Some {A} (l : list A) (x y : A) i :
  (l ++ [x]) !! i = Some y ↔ l !! i = Some y ∨ (i = length l ∧ x = y).
Proof.
  rewrite lookup_app_Some. split.
  - intros [?|[? Hx]]; [by left|]. right.
    apply list_lookup_singleton_Some in Hx. split; [lia|naive_solver].
  - intros [?|[-> ->]]; [by left|]. right. by rewrite Nat.sub_diag.
Qed.

(** A finite list has a minimal element. *)
Lemma list_minimal {A} (R : relation A) `{!RelDecision R, !Transitive R, !Irreflexive R} (l : list A) :
  l ≠ [] → ∃ x, x ∈ l ∧ ∀ y, y ∈ l → ¬ R y x.
Proof.
  induction l as [|a l IH]; [done|intros _]. destruct l as [|b l].
  { exists a. split; [by left|]. intros y ->%list_elem_of_singleton. by apply irreflexivity. }
  destruct IH as (x & Hx & Hmin); [done|]. destruct (decide (R a x)) as [Hax|Hax].
  - exists a. split; [by left|]. intros y [->|Hy]%elem_of_cons; [by apply irreflexivity|].
    intros Hya. apply (Hmin y Hy). by trans a.
  - exists x. split; [by right|]. intros y [->|Hy]%elem_of_cons; auto.
Qed.

(** Two splittings of the same list: the shorter first part is a prefix of
    the longer one. *)
Lemma app_split_lt {A} (a b c d : list A) :
  a ++ b = c ++ d → (length c < length a)%nat → ∃ r, a = c ++ r ∧ r ≠ [].
Proof.
  intros Heq Hlt. exists (drop (length c) a).
  assert (take (length c) (a ++ b) = c) as Ht by (rewrite Heq; apply take_app_length).
  rewrite take_app_le in Ht by lia.
  split; [by rewrite <-Ht at 1; rewrite take_drop|].
  intros Hd%(f_equal length). rewrite length_drop in Hd. simpl in Hd. lia.
Qed.

Lemma app_split_ge {A} (a b c d : list A) :
  a ++ b = c ++ d → (length a ≤ length c)%nat → ∃ r, c = a ++ r ∧ b = r ++ d.
Proof.
  intros Heq Hle. exists (drop (length a) c).
  assert (take (length a) c = a) as Ht.
  { rewrite <-(take_app_length a b) at 2. rewrite Heq. by rewrite take_app_le by lia. }
  split; [by rewrite <-Ht at 1; rewrite take_drop|].
  rewrite <-(drop_app_length a b) at 1. rewrite Heq. by rewrite drop_app_le by lia.
Qed.

#[export] Hint Resolve b2z_range : dist.
#[export] Hint Resolve lexle_trans : dist.

(** ** Sums *)

Lemma sum_insert {A} (f : A → nat) l i x y :
  l !! i = Some x →
  (sum_list_with f (<[i := y]> l) + f x = sum_list_with f l + f y)%nat.
Proof.
  revert i. induction l as [|z l IH]; intros [|i] Hi; simplify_eq/=; [lia|].
  specialize (IH i Hi). lia.
Qed.

Lemma sum_elem {A} (f : A → nat) l i x : l !! i = Some x → (f x ≤ sum_list_with f l)%nat.
Proof. revert i. induction l as [|z l IH]; intros [|i] Hi; simplify_eq/=; [lia|]. specialize (IH i Hi). lia. Qed.

(** ** Schedules *)

(** [P] holds at some point of every schedule from [x]. *)
Inductive inevitably {X} (R : X → X → Prop) (P : X → Prop) : X → Prop :=
| inev_now x : P x → inevitably R P x
| inev_later x : (∃ y, R x y) → (∀ y, R x y → inevitably R P y) → inevitably R P x.

(** What cannot be avoided while steps go on, and holds where they end, is
    inevitable when there is no endless sequence of steps. *)
Lemma inevitably_measure {X} (R : X → X → Prop) (P I : X → Prop) (f : X → nat) :
  (∀ x, I x → P x ∨ ((∃ y, R x y) ∧ ∀ y, R x y → I y ∧ (f y < f x)%nat)) →
  ∀ x, I x → inevitably R P x.
Proof.
  intros Hstep x. induction (well_founded_ltof _ f x) as [x _ IH]. intros HI.
  destruct (Hstep x HI) as [HP|[Hex Hall]]; [by constructor|].
  apply inev_later; [done|]. intros y Hy. destruct (Hall y Hy). by apply IH.
Qed.

Lemma inevitably_impl {X} (R : X → X → Prop) (P Q : X → Prop) x :
  (∀ y, P y → Q y) → inevitably R P x → inevitably R Q x.
Proof. intros HPQ. induction 1 as [x Hx|x Hex _ IH]; [by apply inev_now, HPQ|by apply inev_later]. Qed.
