(* ===== verification/CString.v ===== *)
(** * C string functions used by the program

    [char] arrays are byte lists.  A string argument is read up to its first
    NUL or, where the list carries no terminator, up to its end (the list is
    then the contents without the terminator). *)

From S2P Require Import Prelude.

Definition NUL : byte := x00.
Definition COMMA : byte := x2c.

(** The contents of a C string: everything before the first NUL. *)
Fixpoint cterm (s : bytes) : bytes :=
  match s with
  | [] => []
  | b :: s' => if decide (b = NUL) then [] else b :: cterm s'
  end.

Definition strlen (s : bytes) : nat := length (cterm s).

(** [strncmp]: the difference of the first differing unsigned chars, 0 when
    the strings agree up to a NUL or on [n] bytes. *)
Fixpoint strncmp (a b : bytes) (n : nat) : Z :=
  match n with
  | O => 0
  | S n' =>
      let x := default NUL (head a) in
      let y := default NUL (head b) in
      if decide (x = y) then
        if decide (x = NUL) then 0 else strncmp (tail a) (tail b) n'
      else b2z x - b2z y
  end.

(** [strcmp] on two strings is [strncmp] past the end of both. *)
Definition strcmp (a b : bytes) : Z := strncmp a b (S (length a + length b)).

(** [strncpy dst src n]: at most [n] bytes of [src], padded with NULs to [n];
    the rest of [dst] is untouched. *)
Definition strncpy (dst src : bytes) (n : nat) : bytes :=
  resize n NUL (cterm src) ++ drop n dst.

(** [strtok] with a single delimiter: skip leading delimiters; [None] at the
    end of the string, otherwise the token and the saved position (one past
    the delimiter that ended it). *)
Fixpoint skip_delim (d : byte) (s : bytes) : bytes :=
  match s with
  | [] => []
  | b :: s' => if decide (b = d) then skip_delim d s' else s
  end.

Fixpoint span_delim (d : byte) (s : bytes) : bytes * bytes :=
  match s with
  | [] => ([], [])
  | b :: s' =>
      if decide (b = d) then ([], s')
      else let (tok, rest) := span_delim d s' in (b :: tok, rest)
  end.

Definition strtok (d : byte) (s : bytes) : option (bytes * bytes) :=
  match skip_delim d s with
  | [] => None
  | s1 => Some (span_delim d s1)
  end.

(** The tokens of the loop [for(pch = strtok(s,","); pch != NULL; pch =
    strtok(NULL,","))].  Each round consumes at least one byte, so
    [length s] rounds of fuel and one more reach the [NULL]. *)
Fixpoint strtok_loop (fuel : nat) (d : byte) (s : bytes) : list bytes :=
  match fuel with
  | O => []
  | S f =>
      match strtok d s with
      | None => []
      | Some (tok, rest) => tok :: strtok_loop f d rest
      end
  end.

Definition strtok_all (d : byte) (s : bytes) : list bytes :=
  strtok_loop (S (length s)) d s.

(** The list of strings joined with [d] between two neighbours. *)
Fixpoint join (d : byte) (l : list bytes) : bytes :=
  match l with
  | [] => []
  | [s] => s
  | s :: l' => s ++ [d] ++ join d l'
  end.

(** A string that can be a list element: non-empty, free of NUL and of [d]. *)
Definition token_ok (d : byte) (s : bytes) : Prop := s ≠ [] ∧ d ∉ s ∧ NUL ∉ s.

(** ** Lemmas *)

Lemma cterm_no_nul s : NUL ∉ s → cterm s = s.
Proof.
  induction s as [|b s IH]; [done|]. rewrite not_elem_of_cons. intros [Hb Hs]. simpl.
  rewrite decide_False by congruence. by rewrite IH.
Qed.

Lemma cterm_clean s : NUL ∉ cterm s.
Proof.
  induction s as [|b s IH]; simpl; [set_solver|].
  case_decide; set_solver.
Qed.

Lemma strlen_no_nul s : NUL ∉ s → strlen s = length s.
Proof. intros H. unfold strlen. by rewrite cterm_no_nul. Qed.

Lemma strncmp_refl a n : strncmp a a n = 0.
Proof. revert a. induction n as [|n IH]; intros a; simpl; [done|]. repeat case_decide; done. Qed.

Lemma cterm_head s :
  cterm s = if decide (default NUL (head s) = NUL) then []
            else default NUL (head s) :: cterm (tail s).
Proof. by destruct s. Qed.

Lemma strncmp_eq a b n : strncmp a b n = 0 ↔ take n (cterm a) = take n (cterm b).
Proof.
  revert a b. induction n as [|n IH]; intros a b; [done|].
  rewrite (cterm_head a), (cterm_head b). cbn [strncmp].
  set (x := default NUL (head a)). set (y := default NUL (head b)).
  destruct (decide (x = y)) as [<-|Hne].
  - destruct (decide (x = NUL)); [done|]. rewrite IH.
    cbn [take]. split; [by intros ->|]. intros Ht. by injection Ht.
  - assert (b2z x ≠ b2z y) by (intros ?%b2z_inj; done).
    split; [lia|]. intros Ht. exfalso.
    destruct (decide (x = NUL)), (decide (y = NUL)); cbn [take] in Ht; congruence.
Qed.

Lemma strcmp_eq a b : strcmp a b = 0 ↔ cterm a = cterm b.
Proof.
  unfold strcmp. rewrite strncmp_eq.
  assert (∀ s, length (cterm s) ≤ length s)%nat as Hle.
  { intros s. induction s; simpl; [done|]. case_decide; simpl; lia. }
  pose proof (Hle a). pose proof (Hle b).
  by rewrite !take_ge by lia.
Qed.

Lemma length_strncpy dst src n :
  (n ≤ length dst)%nat → length (strncpy dst src n) = length dst.
Proof. intros H. unfold strncpy. rewrite length_app, length_resize, length_drop. lia. Qed.

Lemma cterm_app_nul s t : NUL ∉ s → cterm (s ++ NUL :: t) = s.
Proof.
  induction s as [|b s IH]; simpl; [done|]. rewrite not_elem_of_cons. intros [Hb Hs].
  rewrite decide_False by congruence. by rewrite IH.
Qed.

(** Reading back a copy: the first [n] bytes of the contents survive. *)
Lemma cterm_strncpy dst src n :
  length dst = n → cterm (strncpy dst src n) = take n (cterm src).
Proof.
  intros <-. unfold strncpy. rewrite drop_ge, app_nil_r by lia.
  pose proof (cterm_clean src) as Hc. set (c := cterm src) in *.
  destruct (decide (length dst ≤ length c)%nat).
  - rewrite resize_le by done. apply cterm_no_nul.
    intros (i & Hi & _)%elem_of_take. by apply Hc, (list_elem_of_lookup_2 _ i).
  - rewrite resize_ge, take_ge by lia.
    replace (length dst - length c)%nat with (S (length dst - length c - 1)) by lia.
    by apply cterm_app_nul.
Qed.

Lemma skip_delim_token d s t : s ≠ [] → d ∉ s → skip_delim d (s ++ t) = s ++ t.
Proof.
  destruct s as [|b s]; [done|]. rewrite not_elem_of_cons. intros _ [Hb _].
  simpl. by rewrite decide_False by congruence.
Qed.

Lemma span_delim_token d s t : d ∉ s → span_delim d (s ++ d :: t) = (s, t).
Proof.
  induction s as [|b s IH]; simpl; [by rewrite decide_True|].
  rewrite not_elem_of_cons. intros [Hb Hs].
  rewrite decide_False by congruence. by rewrite IH.
Qed.

Lemma span_delim_end d s : d ∉ s → span_delim d s = (s, []).
Proof.
  induction s as [|b s IH]; simpl; [done|].
  rewrite not_elem_of_cons. intros [Hb Hs].
  rewrite decide_False by congruence. by rewrite IH.
Qed.

Lemma strtok_token d s t : s ≠ [] → d ∉ s → strtok d (s ++ d :: t) = Some (s, t).
Proof.
  intros Hs Hd. unfold strtok. rewrite skip_delim_token by done.
  destruct s as [|b s]; [done|]. cbn [app].
  change (b :: s ++ d :: t) with ((b :: s) ++ d :: t). by rewrite span_delim_token.
Qed.

Lemma strtok_last d s : s ≠ [] → d ∉ s → strtok d s = Some (s, []).
Proof.
  intros Hs Hd. unfold strtok.
  rewrite <-(app_nil_r s) at 1. rewrite skip_delim_token, app_nil_r by done.
  destruct s as [|b s]; [done|]. by rewrite span_delim_end.
Qed.

Lemma strtok_loop_join d l fuel :
  Forall (λ s, s ≠ [] ∧ d ∉ s) l → (length (join d l) < fuel)%nat →
  strtok_loop fuel d (join d l) = l.
Proof.
  revert fuel. induction l as [|s l IH]; intros fuel Hok Hf; [by destruct fuel|].
  inversion Hok as [|?? [Hs Hd] Hok']; subst.
  destruct fuel as [|fuel]; [lia|]. cbn [strtok_loop].
  destruct l as [|s2 l2].
  - cbn [join]. rewrite strtok_last by done. by destruct fuel.
  - cbn [join app]. rewrite strtok_token by done. f_equal. apply IH; [done|].
    cbn [join] in Hf. rewrite !length_app in Hf. cbn in Hf |- *. lia.
Qed.

Lemma strtok_all_join d l :
  Forall (λ s, s ≠ [] ∧ d ∉ s) l → strtok_all d (join d l) = l.
Proof. intros H. apply strtok_loop_join; [done|lia]. Qed.

(** Every token takes at least one byte off the string. *)
Lemma skip_delim_length d s : (length (skip_delim d s) ≤ length s)%nat.
Proof. induction s as [|b s IH]; simpl; [lia|]. case_decide; simpl; lia. Qed.

Lemma span_delim_length d s : s ≠ [] → (length (span_delim d s).2 < length s)%nat.
Proof.
  intros Hs. destruct s as [|b s]; [done|]. clear Hs. revert b.
  induction s as [|c s IH]; intros b; simpl; [case_decide; simpl; lia|].
  case_decide; simpl; [lia|]. specialize (IH c). simpl in IH.
  case_decide; simpl in *; [lia|]. destruct (span_delim d s). simpl in *. lia.
Qed.

Lemma strtok_length d s t r : strtok d s = Some (t, r) → (length r < length s)%nat.
Proof.
  unfold strtok. pose proof (skip_delim_length d s) as Hle.
  destruct (skip_delim d s) as [|b s1]; [done|]. intros [= Hspan].
  pose proof (span_delim_length d (b :: s1) ltac:(done)) as Hlt. simpl in *. rewrite Hspan in Hlt.
  simpl in Hlt. lia.
Qed.

Lemma strtok_loop_fuel d f1 f2 s :
  (length s < f1)%nat → (length s < f2)%nat → strtok_loop f1 d s = strtok_loop f2 d s.
Proof.
  revert f2 s. induction f1 as [|f1 IH]; intros [|f2] s H1 H2; [lia..|]. cbn [strtok_loop].
  destruct (strtok d s) as [[t r]|] eqn:Ht; [|done].
  apply strtok_length in Ht. f_equal. apply IH; lia.
Qed.

(** The tokens of a string are the first one and those of the saved rest. *)
Lemma strtok_all_unfold d s :
  strtok_all d s = match strtok d s with None => [] | Some (t, r) => t :: strtok_all d r end.
Proof.
  unfold strtok_all at 1. cbn [strtok_loop]. destruct (strtok d s) as [[t r]|] eqn:Ht; [|done].
  f_equal. apply strtok_length in Ht. apply strtok_loop_fuel; lia.
Qed.

Lemma join_no_nul d l : d ≠ NUL → Forall (λ s, NUL ∉ s) l → NUL ∉ join d l.
Proof.
  intros Hd. induction 1 as [|s l Hs Hl IH]; simpl; [set_solver|].
  destruct l; [done|]. rewrite elem_of_app, elem_of_cons.
  intros [?|[?|?]]; congruence.
Qed.
