(* ===== verification/Xdr.v ===== *)
(** * XDR streams

    The generated message routines ([*_msg_xdr.c]) are compositions of the
    Sun RPC primitives [xdr_int], [xdr_u_hyper], [xdr_vector], ...  Those
    primitives are library code: here they are the operations of the class
    [XdrStream], whose laws [XdrLaws] say that they follow the wire format of
    RFC 4506 in both directions and fail when the stream ends.  The message
    files are proved against this interface; [XdrMem], a bounded memory
    stream, is an instance of it. *)

From Stdlib Require Import Znumtheory.
From S2P Require Import Prelude CString.

(** ** Wire format *)

(** [be_bytes k z]: the low [k] bytes of [z], most significant first. *)
Fixpoint be_bytes (k : nat) (z : Z) : bytes :=
  match k with
  | O => []
  | S k' => z2b (Z.shiftr z (8 * Z.of_nat k')) :: be_bytes k' z
  end.

(** The value of a big-endian byte sequence. *)
Definition be_value (bs : bytes) : Z :=
  fold_left (λ acc b, Z.lor (Z.shiftl acc 8) (b2z b)) bs 0.

(** Reinterpretation of the low [w] bits as a signed number. *)
Definition to_signed (w z : Z) : Z :=
  let u := z mod 2 ^ w in if u <? 2 ^ (w - 1) then u else u - 2 ^ w.

Definition enc_int (z : Z) : bytes := be_bytes 4 z.
Definition enc_u_int (z : Z) : bytes := be_bytes 4 z.
Definition enc_u_hyper (z : Z) : bytes := be_bytes 8 z.
Definition enc_u_short (z : Z) : bytes := be_bytes 4 z.
(** A [char] goes on the wire as the [int] it promotes to (signed char). *)
Definition enc_char (b : byte) : bytes := be_bytes 4 (to_signed 8 (b2z b)).
Definition pad4 (n : nat) : nat := (Nat.modulo (4 - Nat.modulo n 4) 4)%nat.
Definition enc_opaque (l : bytes) : bytes :=
  enc_u_int (Z.of_nat (length l)) ++ l ++ replicate (pad4 (length l)) x00.

(** ** The interface *)

Inductive xdr_op := XDR_ENCODE | XDR_DECODE | XDR_FREE.

(** A filter takes the stream and the object it points to, and returns its
    [bool_t], the stream and the object. *)
Definition filter (X A : Type) : Type := X → A → bool * X * A.

Class XdrStream (X : Type) := {
  x_op : X → xdr_op;
  x_room : X → nat;            (* bytes that can still be written *)
  x_out : X → bytes;           (* bytes written so far *)
  x_in : X → bytes;            (* bytes still to be read *)
  xdr_int : filter X Z;
  xdr_enum : filter X Z;       (* an enum is carried as its int value *)
  xdr_u_int : filter X Z;
  xdr_u_hyper : filter X Z;
  xdr_u_short : filter X Z;
  xdr_char : filter X byte;
  xdr_bytes : filter X bytes;  (* maximum length ~0 *)
  xdr_wrapstring : filter X bytes;  (* a C string; NULL is [] *)
  (* XDR_INLINE with IXDR_PUT_U_LONG / IXDR_GET_U_LONG on the returned
     buffer; None when XDR_INLINE returns NULL *)
  xdr_inline_put : X → list Z → option X;
  xdr_inline_get : X → nat → option (X * list Z)
}.

(** What it means for a filter to implement an encoding: [enc] is the wire
    image, [valid] the values it can carry, [shape] what the object must
    satisfy beforehand (array lengths), and [upd v o] the object a decode of
    [enc v] into [o] leaves. *)
Record filter_ok {X} `{XdrStream X} {A} (f : filter X A) (enc : A → bytes)
    (valid shape : A → Prop) (upd : A → A → A) : Prop := {
  fk_encode : ∀ x v, x_op x = XDR_ENCODE → valid v →
    (length (enc v) ≤ x_room x)%nat →
    ∃ x', f x v = (true, x', v) ∧ x_op x' = XDR_ENCODE ∧
      x_out x' = x_out x ++ enc v ∧ x_room x' = (x_room x - length (enc v))%nat;
  fk_encode_fail : ∀ x v, x_op x = XDR_ENCODE → valid v →
    (x_room x < length (enc v))%nat → ∃ x', f x v = (false, x', v);
  fk_decode : ∀ x v o rest, x_op x = XDR_DECODE → valid v → shape o →
    x_in x = enc v ++ rest →
    ∃ x', f x o = (true, x', upd v o) ∧ x_op x' = XDR_DECODE ∧ x_in x' = rest;
  fk_decode_fail : ∀ x v o rest, x_op x = XDR_DECODE → valid v → shape o →
    enc v = x_in x ++ rest → rest ≠ [] → ∃ x' o', f x o = (false, x', o');
  fk_shape : ∀ v o, valid v → shape o → shape (upd v o)
}.

(** The observable contract of a message routine: every valid value has one
    wire image [w]; encoding appends [w] when there is room and returns FALSE
    otherwise; decoding [w] followed by anything gives the value back and
    leaves the rest, and decoding a proper prefix of [w] returns FALSE. *)
Definition roundtrips {X} `{XdrStream X} {A} (f : filter X A)
    (valid shape : A → Prop) (size : A → nat) : Prop :=
  ∀ v, valid v → ∃ w, length w = size v ∧
    (∀ x, x_op x = XDR_ENCODE → (size v ≤ x_room x)%nat →
       ∃ x', f x v = (true, x', v) ∧ x_out x' = x_out x ++ w) ∧
    (∀ x, x_op x = XDR_ENCODE → (x_room x < size v)%nat → ∃ x', f x v = (false, x', v)) ∧
    (∀ y o rest, x_op y = XDR_DECODE → shape o → x_in y = w ++ rest →
       ∃ y', f y o = (true, y', v) ∧ x_in y' = rest) ∧
    (∀ y o rest, x_op y = XDR_DECODE → shape o → w = x_in y ++ rest → rest ≠ [] →
       ∃ y' o', f y o = (false, y', o')).

(** The primitives follow RFC 4506. *)
Class XdrLaws (X : Type) `{XdrStream X} : Prop := {
  xdr_int_ok : filter_ok xdr_int enc_int int_ok (λ _, True) (λ v _, v);
  xdr_enum_ok : filter_ok xdr_enum enc_int int_ok (λ _, True) (λ v _, v);
  xdr_u_int_ok : filter_ok xdr_u_int enc_u_int (uint_ok 32) (λ _, True) (λ v _, v);
  xdr_u_hyper_ok : filter_ok xdr_u_hyper enc_u_hyper (uint_ok 64) (λ _, True) (λ v _, v);
  xdr_u_short_ok : filter_ok xdr_u_short enc_u_short (uint_ok 16) (λ _, True) (λ v _, v);
  xdr_char_ok : filter_ok xdr_char enc_char (λ _, True) (λ _, True) (λ v _, v);
  xdr_bytes_ok : filter_ok xdr_bytes enc_opaque
    (λ l, Z.of_nat (length l) < 2 ^ 32) (λ _, True) (λ v _, v);
  xdr_wrapstring_ok : filter_ok xdr_wrapstring enc_opaque
    (λ s, x00 ∉ s ∧ Z.of_nat (length s) < 2 ^ 32) (λ _, True) (λ v _, v);
  xdr_inline_put_ok : ∀ x l x', x_op x = XDR_ENCODE →
    xdr_inline_put x l = Some x' →
    (length (concat (enc_u_int <$> l)) ≤ x_room x)%nat ∧ x_op x' = XDR_ENCODE ∧
    x_out x' = x_out x ++ concat (enc_u_int <$> l) ∧
    x_room x' = (x_room x - length (concat (enc_u_int <$> l)))%nat;
  xdr_inline_get_ok : ∀ x n x' l, x_op x = XDR_DECODE →
    xdr_inline_get x n = Some (x', l) →
    length l = n ∧ Forall (uint_ok 32) l ∧ x_op x' = XDR_DECODE ∧
    x_in x = concat (enc_u_int <$> l) ++ x_in x'
}.

(** ** Composition of filters *)

Section combinators.
Context {X : Type} `{XdrStream X}.

(** [if (!f(xdrs, objp)) return FALSE; g] *)
Definition fseq {A} (f g : filter X A) : filter X A := λ x o,
  let '(ok, x, o) := f x o in
  if ok then g x o else (false, x, o).

(** [return TRUE] *)
Definition fdone {A} : filter X A := λ x o, (true, x, o).

(** [f(xdrs, &objp->field)] *)
Definition ffield {S A} (get : S → A) (set : A → S → S) (f : filter X A) : filter X S :=
  λ x o, let '(ok, x, a) := f x (get o) in (ok, x, set a o).

(** [xdr_vector(xdrs, arr, n, size, f)]: the elements in order, stopping at
    the first failure.  A C array has its length, so the case of a list
    shorter than [n] does not arise for well-shaped objects. *)
Fixpoint xdr_vector {A} (f : filter X A) (n : nat) (x : X) (l : list A)
    : bool * X * list A :=
  match n, l with
  | O, _ => (true, x, l)
  | S n', a :: l' =>
      let '(ok, x, a) := f x a in
      if ok then let '(ok, x, l') := xdr_vector f n' x l' in (ok, x, a :: l')
      else (false, x, a :: l')
  | S _, [] => (false, x, [])
  end.

End combinators.

Notation "f ;;; g" := (fseq f g) (at level 62, right associativity).

(** ** A bounded memory stream *)

Record XdrMem := mkXdrMem {
  xm_op : xdr_op;
  xm_room : nat;
  xm_out : bytes;
  xm_in : bytes
}.

Definition xm_put (x : XdrMem) (bs : bytes) : bool * XdrMem :=
  if decide (length bs ≤ xm_room x)%nat
  then (true, mkXdrMem (xm_op x) (xm_room x - length bs) (xm_out x ++ bs) (xm_in x))
  else (false, x).

Definition xm_get (x : XdrMem) (n : nat) : option (bytes * XdrMem) :=
  if decide (n ≤ length (xm_in x))%nat
  then Some (take n (xm_in x), mkXdrMem (xm_op x) (xm_room x) (xm_out x) (drop n (xm_in x)))
  else None.

(** A fixed-size primitive: [n] bytes written with [enc], read with [dec]. *)
Definition xm_prim {A} (n : nat) (enc : A → bytes) (dec : bytes → A) : filter XdrMem A :=
  λ x o,
    match xm_op x with
    | XDR_ENCODE => let (ok, x') := xm_put x (enc o) in (ok, x', o)
    | XDR_DECODE =>
        match xm_get x n with
        | Some (bs, x') => (true, x', dec bs)
        | None => (false, x, o)
        end
    | XDR_FREE => (true, x, o)
    end.

Definition xm_bytes : filter XdrMem bytes := λ x o,
  match xm_op x with
  | XDR_ENCODE => let (ok, x') := xm_put x (enc_opaque o) in (ok, x', o)
  | XDR_DECODE =>
      match xm_get x 4 with
      | Some (bs, x1) =>
          let n := Z.to_nat (be_value bs) in
          match xm_get x1 n with
          | Some (l, x2) =>
              match xm_get x2 (pad4 n) with
              | Some (_, x3) => (true, x3, l)
              | None => (false, x2, o)
              end
          | None => (false, x1, o)
          end
      | None => (false, x, o)
      end
  | XDR_FREE => (true, x, [])
  end.

(** Strings are written up to their NUL. *)
Definition xm_wrapstring : filter XdrMem bytes := λ x o,
  match xm_op x with
  | XDR_ENCODE => let '(ok, x', _) := xm_bytes x (cterm o) in (ok, x', o)
  | XDR_DECODE | XDR_FREE => xm_bytes x o
  end.

Definition xm_inline_put (x : XdrMem) (l : list Z) : option XdrMem :=
  let (ok, x') := xm_put x (concat (enc_u_int <$> l)) in
  if ok then Some x' else None.

Fixpoint xm_words (n : nat) (bs : bytes) : list Z :=
  match n with
  | O => []
  | S n' => be_value (take 4 bs) :: xm_words n' (drop 4 bs)
  end.

Definition xm_inline_get (x : XdrMem) (n : nat) : option (XdrMem * list Z) :=
  match xm_get x (4 * n) with
  | Some (bs, x') => Some (x', xm_words n bs)
  | None => None
  end.

#[export] Instance xdr_mem_stream : XdrStream XdrMem := {
  x_op := xm_op;
  x_room := xm_room;
  x_out := xm_out;
  x_in := xm_in;
  xdr_int := xm_prim 4 enc_int (λ bs, to_signed 32 (be_value bs));
  xdr_enum := xm_prim 4 enc_int (λ bs, to_signed 32 (be_value bs));
  xdr_u_int := xm_prim 4 enc_u_int be_value;
  xdr_u_hyper := xm_prim 8 enc_u_hyper be_value;
  xdr_u_short := xm_prim 4 enc_u_short (λ bs, wrap 16 (be_value bs));
  xdr_char := xm_prim 4 enc_char (λ bs, z2b (be_value bs));
  xdr_bytes := xm_bytes;
  xdr_wrapstring := xm_wrapstring;
  xdr_inline_put := xm_inline_put;
  xdr_inline_get := xm_inline_get
}.

(** ** Lemmas: the wire format *)

Lemma length_be_bytes k z : length (be_bytes k z) = k.
Proof. induction k; simpl; congruence. Qed.

Lemma be_value_app bs b :
  be_value (bs ++ [b]) = Z.lor (Z.shiftl (be_value bs) 8) (b2z b).
Proof. unfold be_value. by rewrite fold_left_app. Qed.

Lemma be_bytes_snoc k z : be_bytes (S k) z = be_bytes k (Z.shiftr z 8) ++ [z2b z].
Proof.
  revert z. induction k as [|k IH]; intros z.
  - cbn [be_bytes]. rewrite Z.mul_0_r, Z.shiftr_0_r. done.
  - change (be_bytes (S (S k)) z)
      with (z2b (Z.shiftr z (8 * Z.of_nat (S k))) :: be_bytes (S k) z).
    rewrite IH. cbn [be_bytes app]. f_equal.
    rewrite Z.shiftr_shiftr by lia. f_equal. f_equal. lia.
Qed.

Lemma byte_lor_add a b : 0 ≤ b < 256 → Z.lor (Z.shiftl a 8) b = a * 256 + b.
Proof.
  intros Hb. rewrite Z.shiftl_mul_pow2 by lia. change (2 ^ 8) with 256.
  rewrite <-Z.lxor_lor, <-Z.add_nocarry_lxor; [done|..];
    apply Z.bits_inj'; intros i Hi; rewrite Z.land_spec, Z.bits_0;
    change 256 with (2 ^ 8) in *;
    (destruct (Z.lt_ge_cases i 8);
     [rewrite Z.mul_pow2_bits_low by lia; done|
      rewrite andb_comm, (Z.bits_above_log2 b i); [done|lia|];
      destruct (Z.eq_dec b 0); [subst; simpl; lia|];
      apply Z.log2_lt_pow2; [lia|];
      apply Z.lt_le_trans with (2 ^ 8); [lia|apply Z.pow_le_mono_r; lia]]).
Qed.

Lemma be_value_bytes k z : be_value (be_bytes k z) = z mod 2 ^ (8 * Z.of_nat k).
Proof.
  revert z. induction k as [|k IH]; intros z.
  - cbn. by rewrite Z.mod_1_r.
  - rewrite be_bytes_snoc, be_value_app, IH, b2z_z2b, byte_lor_add by
      (apply Z.mod_pos_bound; lia).
    rewrite Z.shiftr_div_pow2 by lia. change (2 ^ 8) with 256.
    replace (8 * Z.of_nat (S k)) with (8 + 8 * Z.of_nat k) by lia.
    rewrite Z.pow_add_r by lia. change (2 ^ 8) with 256.
    rewrite Z.rem_mul_r by lia. lia.
Qed.

Lemma be_value_small k z :
  uint_ok (8 * Z.of_nat k) z → be_value (be_bytes k z) = z.
Proof. intros Hz. rewrite be_value_bytes. by apply Z.mod_small. Qed.

Lemma to_signed_int w z : 0 < w → - 2 ^ (w - 1) ≤ z < 2 ^ (w - 1) → to_signed w (z mod 2 ^ w) = z.
Proof.
  intros Hw Hz. unfold to_signed.
  assert (2 ^ w = 2 * 2 ^ (w - 1)) as Hp.
  { rewrite <-Z.pow_succ_r by lia. f_equal. lia. }
  rewrite Z.mod_mod by lia.
  destruct (Z.lt_ge_cases z 0).
  - replace (z mod 2 ^ w) with (z + 2 ^ w).
    + destruct (Z.ltb_spec (z + 2 ^ w) (2 ^ (w - 1))); lia.
    + rewrite <-(Z.mod_small (z + 2 ^ w) (2 ^ w)) by lia.
      rewrite <-(Z.mul_1_l (2 ^ w)) at 1. by rewrite Z.mod_add by lia.
  - rewrite Z.mod_small by lia. destruct (Z.ltb_spec z (2 ^ (w - 1))); lia.
Qed.

Lemma to_signed_mod w z : 0 < w → to_signed w z mod 2 ^ w = z mod 2 ^ w.
Proof.
  intros Hw. unfold to_signed. destruct (_ <? _).
  - apply Z.mod_mod. lia.
  - replace (z mod 2 ^ w - 2 ^ w) with (z mod 2 ^ w + (-1) * 2 ^ w) by lia.
    rewrite Z.mod_add by lia. apply Z.mod_mod. lia.
Qed.

Lemma enc_int_value z : int_ok z → to_signed 32 (be_value (enc_int z)) = z.
Proof.
  intros Hz. unfold enc_int. rewrite be_value_bytes.
  apply to_signed_int; [lia|]. unfold int_ok, INT_MIN, INT_MAX in Hz. simpl. lia.
Qed.

Lemma enc_char_value b : z2b (be_value (enc_char b)) = b.
Proof.
  unfold enc_char. rewrite be_value_bytes. apply b2z_inj. rewrite b2z_z2b.
  change (8 * Z.of_nat 4) with 32.
  rewrite <-(Zmod_div_mod 256 (2 ^ 32)) by (done || (by exists (2 ^ 24))).
  change 256 with (2 ^ 8). rewrite to_signed_mod by done.
  apply Z.mod_small, b2z_range.
Qed.

Lemma length_enc_opaque l : length (enc_opaque l) = (4 + length l + pad4 (length l))%nat.
Proof.
  unfold enc_opaque, enc_u_int. rewrite !length_app, length_be_bytes, length_replicate. lia.
Qed.

(** ** Lemmas: composition of filters *)

Section combinator_lemmas.
Context {X : Type} `{XdrStream X}.

Lemma fdone_ok {A} (shape : A → Prop) :
  filter_ok fdone (λ _ : A, []) (λ _, True) shape (λ _ o, o).
Proof.
  split; unfold fdone; simpl; intros.
  - exists x. rewrite app_nil_r, Nat.sub_0_r. done.
  - lia.
  - naive_solver.
  - destruct (x_in x); naive_solver.
  - done.
Qed.

Lemma fseq_ok {A} (f g : filter X A) ef eg vf vg shape uf ug :
  filter_ok f ef vf shape uf → filter_ok g eg vg shape ug →
  filter_ok (f ;;; g) (λ v, ef v ++ eg v) (λ v, vf v ∧ vg v) shape
    (λ v o, ug v (uf v o)).
Proof.
  intros Hf Hg. split.
  - intros x v Hop [Hv Hw] Hr. rewrite length_app in Hr.
    destruct (fk_encode _ _ _ _ _ Hf x v Hop Hv) as (x1 & E1 & Hop1 & Ho1 & Hr1); [lia|].
    destruct (fk_encode _ _ _ _ _ Hg x1 v Hop1 Hw) as (x2 & E2 & Hop2 & Ho2 & Hr2); [lia|].
    exists x2. unfold fseq. rewrite E1, E2, length_app, Ho2, Ho1, app_assoc.
    split_and!; auto. lia.
  - intros x v Hop [Hv Hw] Hr. rewrite length_app in Hr. unfold fseq.
    destruct (decide (length (ef v) ≤ x_room x)%nat).
    + destruct (fk_encode _ _ _ _ _ Hf x v Hop Hv) as (x1 & E1 & Hop1 & Ho1 & Hr1); [lia|].
      destruct (fk_encode_fail _ _ _ _ _ Hg x1 v Hop1 Hw) as (x2 & E2); [lia|].
      rewrite E1, E2. eauto.
    + destruct (fk_encode_fail _ _ _ _ _ Hf x v Hop Hv) as (x1 & E1); [lia|].
      rewrite E1. eauto.
  - intros x v o rest Hop [Hv Hw] Hs Hin. rewrite <-app_assoc in Hin.
    destruct (fk_decode _ _ _ _ _ Hf x v o _ Hop Hv Hs Hin) as (x1 & E1 & Hop1 & Hi1).
    destruct (fk_decode _ _ _ _ _ Hg x1 v (uf v o) rest Hop1 Hw) as (x2 & E2 & Hop2 & Hi2);
      [by eapply fk_shape|done|].
    exists x2. unfold fseq. by rewrite E1, E2.
  - intros x v o rest Hop [Hv Hw] Hs Hin Hne. unfold fseq.
    destruct (decide (length (x_in x) < length (ef v))%nat) as [Hlt|Hge].
    + destruct (app_split_lt _ _ _ _ Hin Hlt) as (r & Er & Hr).
      destruct (fk_decode_fail _ _ _ _ _ Hf x v o r Hop Hv Hs Er Hr) as (x1 & o1 & E1).
      rewrite E1. eauto.
    + destruct (app_split_ge _ _ _ _ Hin) as (r & Ex & Eg); [lia|].
      destruct (fk_decode _ _ _ _ _ Hf x v o r Hop Hv Hs Ex) as (x1 & E1 & Hop1 & Hi1).
      rewrite E1.
      destruct (fk_decode_fail _ _ _ _ _ Hg x1 v (uf v o) rest) as (x2 & o2 & E2);
        [done|done|by eapply fk_shape|by rewrite Hi1|done|].
      eauto.
  - intros v o [Hv Hw] Hs. eapply fk_shape; [done..|]. by eapply fk_shape.
Qed.

Lemma ffield_ok {S A} (get : S → A) (set : A → S → S) (f : filter X A) ef vf sf uf shape :
  (∀ o, set (get o) o = o) →
  (∀ o, shape o → sf (get o)) →
  (∀ v o, vf (get v) → shape o → shape (set (uf (get v) (get o)) o)) →
  filter_ok f ef vf sf uf →
  filter_ok (ffield get set f) (λ v, ef (get v)) (λ v, vf (get v)) shape
    (λ v o, set (uf (get v) (get o)) o).
Proof.
  intros Hset Hsh Hpres Hf. split; unfold ffield.
  - intros x v Hop Hv Hr.
    destruct (fk_encode _ _ _ _ _ Hf x (get v) Hop Hv Hr) as (x1 & -> & ?).
    exists x1. by rewrite Hset.
  - intros x v Hop Hv Hr.
    destruct (fk_encode_fail _ _ _ _ _ Hf x (get v) Hop Hv Hr) as (x1 & ->).
    exists x1. by rewrite Hset.
  - intros x v o rest Hop Hv Hs Hin.
    destruct (fk_decode _ _ _ _ _ Hf x (get v) (get o) rest) as (x1 & -> & ?); eauto.
  - intros x v o rest Hop Hv Hs Hin Hne.
    destruct (fk_decode_fail _ _ _ _ _ Hf x (get v) (get o) rest) as (x1 & o1 & ->); eauto.
  - intros v o Hv Hs. by apply Hpres.
Qed.

(** Filters with extensionally equal encodings, weaker requirements and
    equal results on valid values. *)
Lemma filter_ok_ext {A} (f : filter X A) e1 v1 s1 u1 e2 v2 (s2 : A → Prop) u2 :
  filter_ok f e1 v1 s1 u1 →
  (∀ v, v2 v → v1 v ∧ e2 v = e1 v) →
  (∀ o, s2 o → s1 o) →
  (∀ v o, v2 v → s2 o → u2 v o = u1 v o) →
  (∀ v o, v2 v → s2 o → s2 (u2 v o)) →
  filter_ok f e2 v2 s2 u2.
Proof.
  intros Hf Hv Hs Hu Hsh. split.
  - intros x v Hop Hv2. destruct (Hv v Hv2) as [Hv1 ->]. by apply Hf.
  - intros x v Hop Hv2. destruct (Hv v Hv2) as [Hv1 ->]. by apply Hf.
  - intros x v o rest Hop Hv2 Hso. destruct (Hv v Hv2) as [Hv1 ->].
    rewrite Hu by done. apply Hf; auto.
  - intros x v o rest Hop Hv2 Hso. destruct (Hv v Hv2) as [Hv1 ->]. apply Hf; auto.
  - done.
Qed.

Lemma filter_ok_roundtrips {A} (f : filter X A) enc valid shape size :
  filter_ok f enc valid shape (λ v _, v) → (∀ v, valid v → length (enc v) = size v) →
  roundtrips f valid shape size.
Proof.
  intros Hf Hsz v Hv. exists (enc v). rewrite <-(Hsz v Hv). split_and!.
  - done.
  - intros x Hop Hr. destruct (fk_encode _ _ _ _ _ Hf x v Hop Hv Hr) as (x' & ? & _ & ? & _). eauto.
  - intros x Hop Hr. by eapply fk_encode_fail.
  - intros y o rest Hop Hs Hin.
    destruct (fk_decode _ _ _ _ _ Hf y v o rest Hop Hv Hs Hin) as (y' & ? & _ & ?). eauto.
  - intros y o rest Hop Hs Hin Hne. by eapply fk_decode_fail.
Qed.

(** [if (!f(xdrs, objp)) return FALSE; return TRUE;] *)
Lemma fonly_ok {A} (f : filter X A) enc valid shape :
  filter_ok f enc valid shape (λ v _, v) →
  filter_ok (f ;;; fdone) enc valid shape (λ v _, v).
Proof.
  intros Hf. eapply filter_ok_ext.
  - eapply (fseq_ok _ _ _ _ _ _ shape); [exact Hf|apply fdone_ok].
  - intros v Hv. split; [done|]. cbv beta. by rewrite app_nil_r.
  - done.
  - done.
  - intros v o Hv Hs. by eapply (fk_shape _ _ _ _ _ Hf).
Qed.

End combinator_lemmas.

(** Arrays: [n] elements, each carried by a filter [f] with encoding [ef]. *)
Section vectors.
Context {X : Type} `{XdrStream X} {A : Type}.
Context (f : filter X A) (ef : A → bytes) (vf sf : A → Prop).
Hypothesis Hf : filter_ok f ef vf sf (λ v _, v).

Definition vec_valid (n : nat) (l : list A) : Prop := length l = n ∧ Forall vf l.
Definition vec_shape (n : nat) (l : list A) : Prop := length l = n ∧ Forall sf l.
Definition vec_enc (l : list A) : bytes := concat (ef <$> l).

Lemma vec_valid_cons n a l : vec_valid (S n) (a :: l) ↔ vf a ∧ vec_valid n l.
Proof. unfold vec_valid. rewrite Forall_cons. simpl. naive_solver lia. Qed.

Lemma vec_shape_cons n a l : vec_shape (S n) (a :: l) ↔ sf a ∧ vec_shape n l.
Proof. unfold vec_shape. rewrite Forall_cons. simpl. naive_solver lia. Qed.

Lemma vec_enc_cons a l : vec_enc (a :: l) = ef a ++ vec_enc l.
Proof. done. Qed.

Lemma vec_valid_nil l : vec_valid 0 l → l = [].
Proof. intros [?%nil_length_inv _]. done. Qed.

Lemma vec_shape_nil l : vec_shape 0 l → l = [].
Proof. intros [?%nil_length_inv _]. done. Qed.

Lemma vector_encode n x v : x_op x = XDR_ENCODE → vec_valid n v →
  (length (vec_enc v) ≤ x_room x)%nat →
  ∃ x', xdr_vector f n x v = (true, x', v) ∧ x_op x' = XDR_ENCODE ∧
    x_out x' = x_out x ++ vec_enc v ∧ x_room x' = (x_room x - length (vec_enc v))%nat.
Proof.
  revert x v. induction n as [|n IH]; intros x v Hop Hv Hr.
  { apply vec_valid_nil in Hv as ->. exists x. unfold vec_enc. simpl.
    rewrite app_nil_r, Nat.sub_0_r. done. }
  destruct v as [|a l]; [by destruct Hv|]. apply vec_valid_cons in Hv as [Ha Hl].
  rewrite vec_enc_cons, length_app in Hr.
  destruct (fk_encode _ _ _ _ _ Hf x a) as (x1 & E1 & Hop1 & Ho1 & Hr1); [done|done|lia|].
  destruct (IH x1 l) as (x2 & E2 & Hop2 & Ho2 & Hr2); [done|done|lia|].
  exists x2. simpl. rewrite E1, E2, Ho2, Ho1, vec_enc_cons, app_assoc, length_app.
  split_and!; auto. lia.
Qed.

Lemma vector_encode_fail n x v : x_op x = XDR_ENCODE → vec_valid n v →
  (x_room x < length (vec_enc v))%nat → ∃ x', xdr_vector f n x v = (false, x', v).
Proof.
  revert x v. induction n as [|n IH]; intros x v Hop Hv Hr.
  { apply vec_valid_nil in Hv as ->. unfold vec_enc in Hr. simpl in Hr. lia. }
  destruct v as [|a l]; [by destruct Hv|]. apply vec_valid_cons in Hv as [Ha Hl].
  rewrite vec_enc_cons, length_app in Hr. simpl.
  destruct (decide (length (ef a) ≤ x_room x)%nat).
  - destruct (fk_encode _ _ _ _ _ Hf x a) as (x1 & E1 & Hop1 & Ho1 & Hr1); [done|done|lia|].
    destruct (IH x1 l) as (x2 & E2); [done|done|lia|]. rewrite E1, E2. eauto.
  - destruct (fk_encode_fail _ _ _ _ _ Hf x a) as (x1 & E1); [done|done|lia|]. rewrite E1. eauto.
Qed.

Lemma vector_decode n x v o rest : x_op x = XDR_DECODE → vec_valid n v → vec_shape n o →
  x_in x = vec_enc v ++ rest →
  ∃ x', xdr_vector f n x o = (true, x', v) ∧ x_op x' = XDR_DECODE ∧ x_in x' = rest.
Proof.
  revert x v o. induction n as [|n IH]; intros x v o Hop Hv Ho Hin.
  { apply vec_valid_nil in Hv as ->. apply vec_shape_nil in Ho as ->. simpl in *. eauto. }
  destruct v as [|a l]; [by destruct Hv|]. apply vec_valid_cons in Hv as [Ha Hl].
  destruct o as [|b o]; [by destruct Ho|]. apply vec_shape_cons in Ho as [Hb Ho].
  rewrite vec_enc_cons, <-app_assoc in Hin. simpl.
  destruct (fk_decode _ _ _ _ _ Hf x a b _ Hop Ha Hb Hin) as (x1 & -> & Hop1 & Hi1).
  destruct (IH x1 l o) as (x2 & -> & ?); eauto.
Qed.

Lemma vector_decode_fail n x v o rest : x_op x = XDR_DECODE → vec_valid n v → vec_shape n o →
  vec_enc v = x_in x ++ rest → rest ≠ [] → ∃ x' o', xdr_vector f n x o = (false, x', o').
Proof.
  revert x v o. induction n as [|n IH]; intros x v o Hop Hv Ho Hin Hne.
  { apply vec_valid_nil in Hv as ->. unfold vec_enc in Hin. simpl in Hin.
    symmetry in Hin. by apply app_nil in Hin as [_ ?]. }
  destruct v as [|a l]; [by destruct Hv|]. apply vec_valid_cons in Hv as [Ha Hl].
  destruct o as [|b o]; [by destruct Ho|]. apply vec_shape_cons in Ho as [Hb Ho].
  rewrite vec_enc_cons in Hin. simpl.
  destruct (decide (length (x_in x) < length (ef a))%nat) as [Hlt|Hge].
  - destruct (app_split_lt _ _ _ _ Hin Hlt) as (r & Er & Hr).
    destruct (fk_decode_fail _ _ _ _ _ Hf x a b r) as (x1 & o1 & ->); eauto.
  - destruct (app_split_ge _ _ _ _ Hin) as (r & Ex & Eg); [lia|].
    destruct (fk_decode _ _ _ _ _ Hf x a b r) as (x1 & -> & Hop1 & Hi1); eauto.
    destruct (IH x1 l o) as (x2 & o2 & ->); [done..|by rewrite Hi1|done|]. eauto.
Qed.

Lemma vector_shape n v o : vec_valid n v → vec_shape n o → vec_shape n v.
Proof.
  revert v o. induction n as [|n IH]; intros v o Hv Ho.
  { by apply vec_valid_nil in Hv as ->. }
  destruct v as [|a l]; [by destruct Hv|]. apply vec_valid_cons in Hv as [Ha Hl].
  destruct o as [|b o]; [by destruct Ho|]. apply vec_shape_cons in Ho as [Hb Ho].
  apply vec_shape_cons. split; [exact (fk_shape _ _ _ _ _ Hf a b Ha Hb)|eauto].
Qed.

Lemma xdr_vector_ok n :
  filter_ok (xdr_vector f n) vec_enc (vec_valid n) (vec_shape n) (λ v _, v).
Proof.
  split; [apply vector_encode|apply vector_encode_fail|apply vector_decode|
          apply vector_decode_fail|apply vector_shape].
Qed.

Lemma length_vec_enc n k l :
  (∀ a, vf a → length (ef a) = k) → vec_valid n l → length (vec_enc l) = (n * k)%nat.
Proof.
  intros Hk. revert l. induction n as [|n IH]; intros l Hv.
  { by apply vec_valid_nil in Hv as ->. }
  destruct l as [|a l]; [by destruct Hv|]. apply vec_valid_cons in Hv as [Ha Hl].
  by rewrite vec_enc_cons, length_app, (Hk a Ha), (IH l Hl).
Qed.

End vectors.

(** Arrays of elements that any object can be overwritten with. *)
Lemma xdr_array_ok {X} `{XdrStream X} {A} (f : filter X A) ef vf n :
  filter_ok f ef vf (λ _, True) (λ v _, v) →
  filter_ok (xdr_vector f n) (vec_enc ef) (vec_valid vf n) (λ l, length l = n) (λ v _, v).
Proof.
  intros Hf. assert (∀ l : list A, Forall (λ _, True) l) as Hall by (intros; by apply Forall_true).
  eapply filter_ok_ext; [exact (xdr_vector_ok _ _ _ _ Hf n)|..]; unfold vec_valid, vec_shape;
    naive_solver.
Qed.

(** One field of a struct routine: [sh] is the shape of the whole struct, [tac]
    proves the filter of the field. *)
Ltac xdr_field sh tac :=
  eapply (fseq_ok _ _ _ _ _ _ sh);
  [eapply ffield_ok; [| | |tac]; [by intros []|try done|try done]|].

(** ** Lemmas: the memory stream satisfies the interface *)

Lemma xm_prim_ok {A} n (enc : A → bytes) dec (valid : A → Prop) :
  (∀ v, length (enc v) = n) → (∀ v, valid v → dec (enc v) = v) →
  filter_ok (xm_prim n enc dec) enc valid (λ _, True) (λ v _, v).
Proof.
  intros Hlen Hdec. split; cbn [x_op x_room x_out x_in xdr_mem_stream];
    unfold xm_prim.
  - intros x v Hop _ Hr. rewrite Hop. unfold xm_put. rewrite decide_True by done.
    eexists; split; [done|]. cbn. by rewrite ?Hop.
  - intros x v -> _ Hr. unfold xm_put. rewrite decide_False by lia. eauto.
  - intros x v o rest Hop Hv _ Hin. rewrite Hop. unfold xm_get.
    rewrite Hin, decide_True by (rewrite length_app, Hlen; lia).
    rewrite <-(Hlen v), take_app_length, drop_app_length, Hdec by done.
    eexists; split; [done|]. by rewrite Hop.
  - intros x v o rest -> _ _ Hin Hne. unfold xm_get.
    rewrite decide_False; [eauto|]. rewrite <-(Hlen v), Hin, length_app.
    destruct rest; simpl; [done|lia].
  - done.
Qed.

Lemma xm_bytes_decode x l o rest : xm_op x = XDR_DECODE → Z.of_nat (length l) < 2 ^ 32 →
  xm_in x = enc_opaque l ++ rest →
  ∃ x', xm_bytes x o = (true, x', l) ∧ xm_op x' = XDR_DECODE ∧ xm_in x' = rest.
Proof.
  intros Hop Hl Hin. unfold xm_bytes, xm_get. rewrite Hop, Hin.
  unfold enc_opaque. rewrite <-!app_assoc.
  assert (length (enc_u_int (Z.of_nat (length l))) = 4%nat) as H4 by apply length_be_bytes.
  rewrite decide_True by (rewrite length_app, H4; lia).
  rewrite <-H4, take_app_length, drop_app_length; cbn [xm_in].
  unfold enc_u_int. rewrite be_value_small by (unfold uint_ok; lia). rewrite Nat2Z.id.
  rewrite decide_True by (rewrite length_app; lia).
  rewrite take_app_length, drop_app_length; cbn [xm_in].
  rewrite decide_True by (rewrite length_app, length_replicate; lia).
  eexists; split; [done|]. cbn [xm_op xm_in]. split; [done|].
  rewrite <-(length_replicate (pad4 (length l)) x00) at 1. apply drop_app_length.
Qed.

Lemma xm_bytes_decode_fail x l o rest : xm_op x = XDR_DECODE → Z.of_nat (length l) < 2 ^ 32 →
  enc_opaque l = xm_in x ++ rest → rest ≠ [] → ∃ x' o', xm_bytes x o = (false, x', o').
Proof.
  intros Hop Hl Hin Hne. unfold xm_bytes, xm_get. rewrite Hop.
  destruct (decide (4 ≤ length (xm_in x))%nat) as [H4|]; [|eauto].
  unfold enc_opaque in Hin.
  assert (length (enc_u_int (Z.of_nat (length l))) = 4%nat) as He by apply length_be_bytes.
  destruct (app_split_ge _ _ _ _ Hin) as (r & Ex & Er); [lia|].
  rewrite Ex, <-He, take_app_length, drop_app_length; cbn [xm_in].
  unfold enc_u_int. rewrite be_value_small by (unfold uint_ok; lia). rewrite Nat2Z.id.
  destruct (decide (length l ≤ length r)%nat) as [Hlr|]; [|eauto].
  destruct (app_split_ge _ _ _ _ Er) as (r2 & -> & Ep); [lia|].
  rewrite drop_app_length; cbn [xm_in]. rewrite decide_False; [eauto|].
  apply (f_equal length) in Ep. rewrite length_replicate, length_app in Ep.
  destruct rest; [done|]. simpl in Ep. lia.
Qed.

Lemma xm_bytes_ok : filter_ok xm_bytes enc_opaque
  (λ l, Z.of_nat (length l) < 2 ^ 32) (λ _, True) (λ v _, v).
Proof.
  split; cbn [x_op x_room x_out x_in xdr_mem_stream].
  - intros x v Hop _ Hr. unfold xm_bytes, xm_put. rewrite Hop, decide_True by done.
    eexists; split; [done|]. cbn. by rewrite ?Hop.
  - intros x v Hop _ Hr. unfold xm_bytes, xm_put. rewrite Hop, decide_False by lia. eauto.
  - intros x v o rest Hop Hv _. by apply xm_bytes_decode.
  - intros x v o rest Hop Hv _. by apply xm_bytes_decode_fail.
  - done.
Qed.

Lemma xm_wrapstring_ok : filter_ok xm_wrapstring enc_opaque
  (λ s, x00 ∉ s ∧ Z.of_nat (length s) < 2 ^ 32) (λ _, True) (λ v _, v).
Proof.
  pose proof xm_bytes_ok as [H1 H2 H3 H4 _].
  split; unfold xm_wrapstring.
  - intros x v Hop [Hn Hv] Hr. destruct (H1 x v Hop Hv Hr) as (x' & Hx & ?).
    cbn in Hop. rewrite Hop, cterm_no_nul, Hx by done. eauto.
  - intros x v Hop [Hn Hv] Hr. destruct (H2 x v Hop Hv Hr) as (x' & Hx).
    cbn in Hop. rewrite Hop, cterm_no_nul, Hx by done. eauto.
  - intros x v o rest Hop [_ Hv]. pose proof Hop as Hop'. cbn in Hop'. rewrite Hop'. by apply H3.
  - intros x v o rest Hop [_ Hv]. pose proof Hop as Hop'. cbn in Hop'. rewrite Hop'. by apply H4.
  - done.
Qed.

Lemma be_value_range bs : uint_ok (8 * Z.of_nat (length bs)) (be_value bs).
Proof.
  induction bs as [|b bs IH] using rev_ind; [done|].
  rewrite be_value_app, byte_lor_add, length_app by apply b2z_range.
  pose proof (b2z_range b). unfold uint_ok in *. simpl.
  replace (8 * Z.of_nat (length bs + 1)) with (8 * Z.of_nat (length bs) + 8) by lia.
  rewrite Z.pow_add_r by lia. change (2 ^ 8) with 256. nia.
Qed.

Lemma be_bytes_value bs : be_bytes (length bs) (be_value bs) = bs.
Proof.
  induction bs as [|b bs IH] using rev_ind; [done|].
  rewrite length_app, Nat.add_comm. cbn [length Nat.add].
  pose proof (b2z_range b).
  rewrite be_bytes_snoc, be_value_app, byte_lor_add by done.
  rewrite Z.shiftr_div_pow2 by lia. change (2 ^ 8) with 256.
  rewrite Z.div_add_l, Z.div_small, Z.add_0_r, IH by lia. f_equal. f_equal.
  apply b2z_inj. rewrite b2z_z2b. rewrite Z.add_comm, Z.mod_add by lia.
  by apply Z.mod_small.
Qed.

Lemma xm_words_ok n bs : length bs = (4 * n)%nat →
  length (xm_words n bs) = n ∧ Forall (uint_ok 32) (xm_words n bs) ∧
  concat (enc_u_int <$> xm_words n bs) = bs.
Proof.
  revert bs. induction n as [|n IH]; intros bs Hlen.
  { apply nil_length_inv in Hlen as ->. done. }
  destruct (IH (drop 4 bs)) as (H1 & H2 & H3); [rewrite length_drop; lia|].
  assert (length (take 4 bs) = 4%nat) as H4 by (rewrite length_take; lia).
  cbn [xm_words length]. split; [by rewrite H1|]. split.
  - constructor; [|done]. pose proof (be_value_range (take 4 bs)). by rewrite H4 in *.
  - change (enc_u_int (be_value (take 4 bs)) ++ concat (enc_u_int <$> xm_words n (drop 4 bs)) = bs).
    rewrite H3. unfold enc_u_int. rewrite <-H4 at 1. rewrite be_bytes_value. apply take_drop.
Qed.

#[export] Instance xdr_mem_laws : XdrLaws XdrMem.
Proof.
  split.
  - apply xm_prim_ok; [intros; apply length_be_bytes|apply enc_int_value].
  - apply xm_prim_ok; [intros; apply length_be_bytes|apply enc_int_value].
  - apply xm_prim_ok; [intros; apply length_be_bytes|]. intros. by apply be_value_small.
  - apply xm_prim_ok; [intros; apply length_be_bytes|]. intros. by apply be_value_small.
  - apply xm_prim_ok; [intros; apply length_be_bytes|]. intros v Hv. unfold enc_u_short.
    unfold uint_ok in Hv. rewrite be_value_small by (unfold uint_ok; lia).
    apply Z.mod_small. lia.
  - apply xm_prim_ok; [intros; apply length_be_bytes|]. intros. apply enc_char_value.
  - apply xm_bytes_ok.
  - apply xm_wrapstring_ok.
  - intros x l x' Hop. cbn. unfold xm_inline_put, xm_put. case_decide; [|done].
    intros [= <-]. done.
  - intros x n x' l Hop. cbn. unfold xm_inline_get, xm_get. case_decide; [|done].
    intros [= <- <-]. cbn [xm_op xm_in].
    destruct (xm_words_ok n (take (4 * n) (xm_in x))) as (H1 & H2 & H3);
      [rewrite length_take; lia|].
    split_and!; [done..|]. transitivity (take (4 * n) (xm_in x) ++ drop (4 * n) (xm_in x)).
    + symmetry. apply take_drop.
    + f_equal. by symmetry.
Qed.
