(* ===== verification/Utility.v ===== *)
(** * Network utilities

    [utility.c]: RPC client creation, the addresses of the local interfaces
    and the MAC address that breaks ties between requests.  [clnt_create] and
    [getifaddrs] are library calls: the first is a parameter, the result of
    the second an argument. *)

From S2P Require Import Prelude CString Xdr.

(** ** RPC clients *)

(** A client handle: where it connects to and the timeouts [clnt_control]
    has set, in seconds. *)
Record CLIENT := mkClient {
  cl_host : bytes;
  cl_prog : Z;
  cl_vers : Z;
  cl_protocol : bytes;
  cl_timeout : option Z;
  cl_retry_timeout : option Z
}.

Definition set_cl_timeout (t : Z) (c : CLIENT) : CLIENT :=
  mkClient (cl_host c) (cl_prog c) (cl_vers c) (cl_protocol c) (Some t) (cl_retry_timeout c).
Definition set_cl_retry_timeout (t : Z) (c : CLIENT) : CLIENT :=
  mkClient (cl_host c) (cl_prog c) (cl_vers c) (cl_protocol c) (cl_timeout c) (Some t).

Section clients.
(** [clnt_create] of the RPC library; [None] when it returns NULL. *)
Context (clnt_create : bytes → Z → Z → bytes → option CLIENT).

Definition create_client (host : bytes) (prog vers : Z) (protocol : bytes) : outcome CLIENT :=
  match clnt_create host prog vers protocol with
  | None => Exit 1
  | Some client =>
      let timeout := 60 * 60 in
      let client :=
        if decide (strcmp protocol (cstr "udp") = 0)
        then set_cl_retry_timeout timeout client else client in
      Ret (set_cl_timeout timeout client)
  end.

End clients.

(** One [clnt_call]: the handle, the procedure, the encoded argument and the
    timeout in seconds.  A timeout set with [clnt_control] replaces the one
    that the stub passes. *)
Record call := mkCall {
  ca_client : CLIENT;
  ca_proc : Z;
  ca_args : bytes;
  ca_timeout : Z
}.

(** The stubs' default, [{ 25, 0 }]. *)
Definition TIMEOUT : Z := 25.

Definition clnt_call (clnt : CLIENT) (proc : Z) (args : bytes) (timeout : Z) : call :=
  mkCall clnt proc args (default timeout (cl_timeout clnt)).

(** ** Interfaces *)

Definition AF_INET : Z := 2.
Definition AF_PACKET : Z := 17.
Definition CHAR_BIT : Z := 8.

(** A socket address: its family and its address bytes ([sin_addr] for
    [AF_INET], [sll_addr] for [AF_PACKET]). *)
Record sockaddr := mkSockaddr { sa_family : Z; sa_data : bytes }.

(** One interface; [ifa_addr] may be NULL. *)
Record ifaddrs := mkIfaddrs { ifa_addr : option sockaddr }.

(** [inet_ntop(AF_INET, ...)]: dotted decimal. *)
Definition digit (z : Z) : byte := z2b (48 + z).
Definition dec_byte (b : byte) : bytes :=
  let z := b2z b in
  if z <? 10 then [digit z]
  else if z <? 100 then [digit (z / 10); digit (z mod 10)]
  else [digit (z / 100); digit (z / 10 mod 10); digit (z mod 10)].
Definition DOT : byte := x2e.
Definition INET_ADDRSTRLEN : nat := 16.
Definition inet_ntop (addr : bytes) : bytes := join DOT (dec_byte <$> addr).

(** [get_local_ip_addresses]: the result of [getifaddrs] is not checked, so
    a failure leaves [addrs] pointing to uninitialized memory. *)
Fixpoint ip_loop (addrs : list ifaddrs) (buf : list bytes) : list bytes :=
  match addrs with
  | [] => buf
  | tmp :: rest =>
      match ifa_addr tmp with
      | Some a =>
          if decide (sa_family a = AF_INET)
          then ip_loop rest (buf ++ [inet_ntop (sa_data a)])
          else ip_loop rest buf
      | None => ip_loop rest buf
      end
  end.

Definition get_local_ip_addresses (getifaddrs : option (list ifaddrs)) (buf : list bytes)
    : outcome (list bytes) :=
  match getifaddrs with
  | None => Undef
  | Some addrs => Ret (ip_loop addrs buf)
  end.

(** [get_ptr] (the [AF_PACKET] version): dereferences [ifa_addr] without a
    check. *)
Definition get_ptr (ifaptr : ifaddrs) : outcome (option bytes) :=
  match ifa_addr ifaptr with
  | None => Crash
  | Some a => Ret (if decide (sa_family a = AF_PACKET) then Some (sa_data a) else None)
  end.

(** The loop of lines 87-88, from index [i] down to 0. *)
Fixpoint mac_bytes (i : nat) (ptr : bytes) (result : Z) : Z :=
  let result :=
    Z.lor result (wrap 64 (Z.shiftl (b2z (default x00 (head ptr))) (CHAR_BIT * Z.of_nat i))) in
  match i with
  | O => result
  | S i' => mac_bytes i' (tail ptr) result
  end.

Fixpoint mac_loop (ifap : list ifaddrs) (result : Z) : outcome Z :=
  match ifap with
  | [] => Ret result
  | ifaptr :: rest =>
      (let! ptr := get_ptr ifaptr in
       match ptr with
       | Some p =>
           let result := mac_bytes 5 p result in
           if decide (result = 0) then mac_loop rest result else Ret result
       | None => mac_loop rest result
       end)%outcome
  end.

Definition get_mac_address (getifaddrs : option (list ifaddrs)) : outcome Z :=
  match getifaddrs with
  | None => Ret 0
  | Some ifap => mac_loop ifap 0
  end.

(** ** Start of a server *)

(** Results of the library calls of [main]. *)
Record boot_env := mkBoot {
  be_udp : bool;            (* svcudp_create *)
  be_register_udp : bool;   (* svc_register, udp *)
  be_tcp : bool;            (* svctcp_create *)
  be_register_tcp : bool    (* svc_register, tcp *)
}.

(** The part the three [main] functions share; every failure exits. *)
Definition register_service (e : boot_env) : outcome unit :=
  if be_udp e then
    if be_register_udp e then
      if be_tcp e then
        if be_register_tcp e then Ret tt else Exit 1
      else Exit 1
    else Exit 1
  else Exit 1.

(** ** Reference definitions *)

(** The hardware address of an interface. *)
Definition hw_addr (i : ifaddrs) : option bytes :=
  match ifa_addr i with
  | Some a => if decide (sa_family a = AF_PACKET) then Some (sa_data a) else None
  | None => None
  end.

(** The value of a hardware address: its first six bytes, big-endian. *)
Definition mac_value (p : bytes) : Z := be_value (take 6 p).

(** The first hardware address whose value is not 0. *)
Definition first_mac (l : list ifaddrs) : Z :=
  default 0 (head (base.filter (λ z, z ≠ 0) (mac_value <$> omap hw_addr l))).

(** The IPv4 addresses of an interface list. *)
Definition inet_addrs (l : list ifaddrs) : list bytes :=
  omap (λ i, match ifa_addr i with
             | Some a => if decide (sa_family a = AF_INET) then Some (sa_data a) else None
             | None => None
             end) l.

Definition undec (s : bytes) : Z := fold_left (λ acc b, 10 * acc + (b2z b - 48)) s 0.

(** ** Lemmas *)

Lemma be_value_cons b bs :
  be_value (b :: bs) = Z.lor (Z.shiftl (b2z b) (8 * Z.of_nat (length bs))) (be_value bs).
Proof.
  assert (∀ acc, fold_left (λ acc b, Z.lor (Z.shiftl acc 8) (b2z b)) bs acc =
    Z.lor (Z.shiftl acc (8 * Z.of_nat (length bs))) (be_value bs)) as Hacc.
  { induction bs as [|c bs IH]; intros acc.
    - cbn. by rewrite Z.shiftl_0_r, Z.lor_0_r.
    - cbn [fold_left length]. unfold be_value in *. cbn [fold_left].
      rewrite IH, (IH (Z.lor (Z.shiftl 0 8) (b2z c))), Z.shiftl_0_l, Z.lor_0_l.
      rewrite Z.shiftl_lor, Z.shiftl_shiftl by lia. rewrite <-Z.lor_assoc. f_equal. f_equal. lia. }
  unfold be_value. cbn [fold_left]. by rewrite Z.shiftl_0_l, Z.lor_0_l, Hacc.
Qed.

Lemma mac_bytes_value i p r :
  (i ≤ 7)%nat → (S i ≤ length p)%nat →
  mac_bytes i p r = Z.lor r (be_value (take (S i) p)).
Proof.
  revert p r. induction i as [|i IH]; intros p r Hi Hlen; destruct p as [|b p]; simpl in Hlen; try lia;
    pose proof (b2z_range b).
  - cbn. rewrite Z.shiftl_0_r. unfold wrap. by rewrite Z.mod_small by lia.
  - cbn [mac_bytes head default tail take]. rewrite IH by lia.
    cbn [take]. rewrite be_value_cons, Z.lor_assoc. f_equal. f_equal.
    change (match p with [] => [] | x :: l => x :: take i l end) with (take (S i) p).
    rewrite length_take, (Nat.min_l (S i)) by lia. unfold wrap, CHAR_BIT.
    apply Z.mod_small. rewrite Z.shiftl_mul_pow2 by lia. split; [nia|].
    apply Z.lt_le_trans with (2 ^ 8 * 2 ^ (8 * Z.of_nat (S i))); [nia|].
    rewrite <-Z.pow_add_r by lia. apply Z.pow_le_mono_r; lia.
Qed.

Lemma mac_value_range p : 0 ≤ mac_value p < 2 ^ 48.
Proof.
  unfold mac_value. pose proof (be_value_range (take 6 p)) as [? Hlt]. split; [done|].
  eapply Z.lt_le_trans; [exact Hlt|]. apply Z.pow_le_mono_r; [lia|]. rewrite length_take. lia.
Qed.

Lemma mac_loop_first l :
  Forall (λ i, is_Some (ifa_addr i)) l → Forall (λ p, 6 ≤ length p)%nat (omap hw_addr l) →
  mac_loop l 0 = Ret (first_mac l).
Proof.
  induction l as [|i l IH]; intros Hnn Hlen; [done|].
  apply Forall_cons in Hnn as [[a Ha] Hnn]. cbn [mac_loop]. unfold get_ptr. rewrite Ha. cbn [obind].
  assert (hw_addr i = if decide (sa_family a = AF_PACKET) then Some (sa_data a) else None) as Hhw
    by (unfold hw_addr; by rewrite Ha).
  unfold first_mac. cbn [omap list_omap] in *. rewrite Hhw in *.
  destruct (decide (sa_family a = AF_PACKET)).
  - apply Forall_cons in Hlen as [Hl Hlen]. rewrite mac_bytes_value by lia. rewrite Z.lor_0_l.
    fold (mac_value (sa_data a)). cbn [fmap list_fmap]. rewrite filter_cons.
    destruct (decide (mac_value (sa_data a) = 0)) as [Hz|Hz].
    + rewrite decide_False by tauto. rewrite Hz. by apply IH.
    + by rewrite decide_True by done.
  - by apply IH.
Qed.

Lemma ip_loop_app l buf : ip_loop l buf = buf ++ (inet_ntop <$> inet_addrs l).
Proof.
  revert buf. induction l as [|i l IH]; intros buf; cbn [ip_loop inet_addrs omap list_omap].
  - by rewrite app_nil_r.
  - unfold inet_addrs in IH. destruct (ifa_addr i) as [a|]; [|apply IH].
    destruct (decide (sa_family a = AF_INET)); [|apply IH].
    rewrite IH, <-app_assoc. done.
Qed.

(** Decimal bytes: read back, free of the separators, one to three digits. *)
Lemma undec_dec b : undec (dec_byte b) = b2z b.
Proof. by destruct b. Qed.

Lemma dec_byte_clean b : dec_byte b ≠ [] ∧ DOT ∉ dec_byte b ∧ COMMA ∉ dec_byte b ∧ NUL ∉ dec_byte b.
Proof.
  assert (bool_decide (dec_byte b ≠ [] ∧ DOT ∉ dec_byte b ∧ COMMA ∉ dec_byte b ∧ NUL ∉ dec_byte b)
    = true) as Hb by (by destruct b).
  by apply bool_decide_eq_true in Hb.
Qed.

Lemma length_dec_byte b : (length (dec_byte b) ≤ 3)%nat.
Proof. unfold dec_byte. repeat case_match; simpl; lia. Qed.

Lemma join_not_in (c d : byte) l : c ≠ d → Forall (λ s : bytes, c ∉ s) l → c ∉ join d l.
Proof.
  intros Hd. induction 1 as [|s l Hs Hl IH]; simpl; [apply not_elem_of_nil|].
  destruct l; [done|]. rewrite elem_of_app, elem_of_cons. intros [?|[?|?]]; congruence.
Qed.

Lemma inet_ntop_token a b c d : token_ok COMMA (inet_ntop [a; b; c; d]).
Proof.
  assert (Forall (λ s, COMMA ∉ s) (dec_byte <$> [a; b; c; d])) as Hc
    by (repeat constructor; apply dec_byte_clean).
  assert (Forall (λ s, NUL ∉ s) (dec_byte <$> [a; b; c; d])) as Hn
    by (repeat constructor; apply dec_byte_clean).
  split_and!.
  - unfold inet_ntop. cbn [fmap list_fmap join]. intros Hnil.
    apply app_nil in Hnil as [Ha _]. by apply (proj1 (dec_byte_clean a)).
  - by apply join_not_in.
  - by apply join_not_in.
Qed.

Lemma inet_ntop_tokens l : strtok_all DOT (inet_ntop l) = dec_byte <$> l.
Proof.
  apply strtok_all_join. apply Forall_fmap, Forall_true. intros b.
  destruct (dec_byte_clean b) as (? & ? & _). done.
Qed.

Lemma inet_ntop_inj l1 l2 : inet_ntop l1 = inet_ntop l2 → l1 = l2.
Proof.
  intros Heq. apply (f_equal (strtok_all DOT)) in Heq. rewrite !inet_ntop_tokens in Heq.
  apply (list_fmap_eq_inj dec_byte) in Heq; [done|].
  intros x y Hxy. apply b2z_inj. by rewrite <-!undec_dec, Hxy.
Qed.

(** ** Results *)

(** C29: With an address on every interface, get_mac_address returns the value of the
    first hardware address that is not 0 (its six bytes, big-endian), or 0 if there is
    none; the value is below 2^48. *)
Theorem get_mac_address_first l :
  Forall (λ i, is_Some (ifa_addr i)) l → Forall (λ p, 6 ≤ length p)%nat (omap hw_addr l) →
  get_mac_address (Some l) = Ret (first_mac l) ∧ 0 ≤ first_mac l < 2 ^ 48.
Proof.
  intros Hnn Hlen. split; [by apply mac_loop_first|]. unfold first_mac.
  destruct (base.filter _ _) as [|z zs] eqn:Hf; [done|]. simpl.
  assert (z ∈ base.filter (λ z, z ≠ 0) (mac_value <$> omap hw_addr l)) as Hz
    by (rewrite Hf; apply elem_of_cons; by left).
  apply list_elem_of_filter in Hz as [_ Hz]. apply list_elem_of_fmap in Hz as (p & -> & _).
  apply mac_value_range.
Qed.

(** An interface without an address, reached before a hardware address that is not
    0, crashes get_mac_address. *)
Theorem get_mac_address_null_addr l1 i l2 :
  Forall (λ i, is_Some (ifa_addr i)) l1 → Forall (λ p, 6 ≤ length p)%nat (omap hw_addr l1) →
  first_mac l1 = 0 → ifa_addr i = None → get_mac_address (Some (l1 ++ i :: l2)) = Crash.
Proof.
  intros Hnn Hlen Hz Hi. cbn [get_mac_address]. revert Hnn Hlen Hz.
  induction l1 as [|j l1 IH]; intros Hnn Hlen Hz; [cbn [app mac_loop]; unfold get_ptr; by rewrite Hi|].
  apply Forall_cons in Hnn as [[a Ha] Hnn]. cbn [app mac_loop]. unfold get_ptr. rewrite Ha. cbn [obind].
  assert (hw_addr j = if decide (sa_family a = AF_PACKET) then Some (sa_data a) else None) as Hhw
    by (unfold hw_addr; by rewrite Ha).
  unfold first_mac in Hz. cbn [omap list_omap] in *. rewrite Hhw in *.
  destruct (decide (sa_family a = AF_PACKET)); [|by apply IH].
  apply Forall_cons in Hlen as [Hl Hlen]. rewrite mac_bytes_value by lia. rewrite Z.lor_0_l.
  fold (mac_value (sa_data a)). cbn [fmap list_fmap] in Hz. rewrite filter_cons in Hz.
  destruct (decide (mac_value (sa_data a) = 0)) as [H0|H0].
  - rewrite H0. rewrite decide_False in Hz by tauto. by apply IH.
  - rewrite decide_True in Hz by done. simpl in Hz. done.
Qed.

(** get_local_ip_addresses appends the text of every IPv4 interface address; each
    text fits its 16-byte limit, contains no comma or NUL, and is the text of no other
    address. *)
Theorem get_local_ip_addresses_faithful l buf :
  Forall (λ a, length a = 4%nat) (inet_addrs l) →
  get_local_ip_addresses (Some l) buf = Ret (buf ++ (inet_ntop <$> inet_addrs l)) ∧
  Forall (λ s, token_ok COMMA s ∧ (S (length s) ≤ INET_ADDRSTRLEN)%nat) (inet_ntop <$> inet_addrs l) ∧
  ∀ a, inet_ntop a ∈ inet_ntop <$> inet_addrs l → a ∈ inet_addrs l.
Proof.
  intros H4. split_and!.
  - cbn. by rewrite ip_loop_app.
  - apply Forall_fmap. eapply Forall_impl; [exact H4|]. intros s Hs.
    destruct s as [|a [|b [|c [|d [|e s]]]]]; try done. cbn. split; [apply inet_ntop_token|].
    unfold inet_ntop. cbn [fmap list_fmap join]. repeat (rewrite length_app; cbn [length]).
    pose proof (length_dec_byte a). pose proof (length_dec_byte b).
    pose proof (length_dec_byte c). pose proof (length_dec_byte d). unfold INET_ADDRSTRLEN. lia.
  - intros a (b & Heq & Hb)%list_elem_of_fmap. by apply inet_ntop_inj in Heq as ->.
Qed.

(** ** Witnesses *)

(** Loopback (hardware address 0) and an Ethernet interface. *)
Definition example_ifs : list ifaddrs :=
  [mkIfaddrs (Some (mkSockaddr AF_PACKET (replicate 8 x00)));
   mkIfaddrs (Some (mkSockaddr AF_PACKET [x52; x54; x00; x12; x34; x56; x00; x00]));
   mkIfaddrs (Some (mkSockaddr AF_INET [x7f; x00; x00; x01]));
   mkIfaddrs (Some (mkSockaddr AF_INET [x0a; x00; x00; x01]))].

Lemma get_mac_address_first_witness :
  get_mac_address (Some example_ifs) = Ret (first_mac example_ifs) ∧
  first_mac example_ifs = 90520731923542.
Proof.
  split; [|reflexivity].
  apply (get_mac_address_first example_ifs); repeat constructor; simpl; first [by eexists|lia].
Defined.

Lemma get_mac_address_null_addr_witness :
  get_mac_address (Some (take 1 example_ifs ++ mkIfaddrs None :: example_ifs)) = Crash.
Proof.
  apply (get_mac_address_null_addr (take 1 example_ifs) (mkIfaddrs None) example_ifs);
    first [reflexivity|repeat constructor; simpl; first [by eexists|lia]].
Defined.

Lemma get_local_ip_addresses_faithful_witness :
  get_local_ip_addresses (Some example_ifs) [] = Ret [cstr "127.0.0.1"; cstr "10.0.0.1"].
Proof.
  refine (proj1 (get_local_ip_addresses_faithful example_ifs [] _)). repeat constructor.
Defined.
