(* ===== verification/ClientMutex.v ===== *)
(** * The mutex of create_client

    [create_client] of [utility.c] in small steps: any number of threads of a
    process call it, and [client_mutex] lets one of them at a time into
    [clnt_create] and [clnt_control].  [Utility.v] has the function as one
    step; here it is compared with its interleavings. *)

From S2P Require Import Prelude CString Utility.

(** The arguments of a call. *)
Record client_args := mkArgs { ca_host : bytes; ca_prog : Z; ca_vers : Z; ca_protocol : bytes }.

(** Where a thread is: before [pthread_mutex_lock], before [clnt_create],
    before the calls of [clnt_control], before [pthread_mutex_unlock], and
    returned. *)
Inductive client_pc :=
| CcLock
| CcCreate
| CcControl (c : CLIENT)
| CcUnlock (c : CLIENT)
| CcRet (c : CLIENT).

(** A process: [client_mutex] is held, the process runs, and its calls. *)
Record ClientState := mkClients {
  cc_mutex : bool;
  cc_alive : bool;
  cc_threads : list (client_args * client_pc)
}.

(** Lines 20-28: the timeouts. *)
Definition control (protocol : bytes) (client : CLIENT) : CLIENT :=
  let timeout := 60 * 60 in
  set_cl_timeout timeout
    (if decide (strcmp protocol (cstr "udp") = 0) then set_cl_retry_timeout timeout client else client).

Section clients.
Context (clnt_create : bytes → Z → Z → bytes → option CLIENT).

(** One step; [None] while the mutex is held, and after the end. *)
Definition client_step (a : client_args) (m : bool) (pc : client_pc) : option (bool * bool * client_pc) :=
  match pc with
  | CcLock => if m then None else Some (true, true, CcCreate)
  | CcCreate =>
      match clnt_create (ca_host a) (ca_prog a) (ca_vers a) (ca_protocol a) with
      | None => Some (m, false, CcCreate)   (* exit(1) *)
      | Some c => Some (m, true, CcControl c)
      end
  | CcControl c => Some (m, true, CcUnlock (control (ca_protocol a) c))
  | CcUnlock c => Some (false, true, CcRet c)
  | CcRet _ => None
  end.

(** Thread [t] runs, while the process does. *)
Definition client_run (t : nat) (x : ClientState) : option ClientState :=
  if cc_alive x then
    '(a, pc) ← cc_threads x !! t;
    '(m, alive, pc') ← client_step a (cc_mutex x) pc;
    Some (mkClients m alive (<[t := (a, pc')]> (cc_threads x)))
  else None.

Definition client_runs (x y : ClientState) : Prop := ∃ t, client_run t x = Some y.

Definition client_calls (calls : list client_args) : ClientState :=
  mkClients false true ((λ a, (a, CcLock)) <$> calls).

(** Between [pthread_mutex_lock] and [pthread_mutex_unlock]. *)
Definition in_client (pc : client_pc) : bool :=
  match pc with CcCreate | CcControl _ | CcUnlock _ => true | CcLock | CcRet _ => false end.

(** The result of the function for the arguments. *)
Definition client_result (a : client_args) : outcome CLIENT :=
  create_client clnt_create (ca_host a) (ca_prog a) (ca_vers a) (ca_protocol a).

(** ** Invariant *)

(** What a thread has found so far agrees with the function. *)
Definition result_ok (th : client_args * client_pc) : Prop :=
  match th.2 with
  | CcControl c => client_result th.1 = Ret (control (ca_protocol th.1) c)
  | CcUnlock c | CcRet c => client_result th.1 = Ret c
  | CcLock | CcCreate => True
  end.

Record ClientInv (calls : list client_args) (x : ClientState) : Prop := {
  ci_calls : fst <$> cc_threads x = calls;
  ci_held : cc_mutex x = true ↔ ∃ t th, cc_threads x !! t = Some th ∧ in_client th.2 = true;
  ci_one : ∀ t1 t2 th1 th2, cc_threads x !! t1 = Some th1 → cc_threads x !! t2 = Some th2 →
    in_client th1.2 = true → in_client th2.2 = true → t1 = t2;
  ci_results : Forall result_ok (cc_threads x);
  ci_dead : cc_alive x = false → ∃ a, a ∈ calls ∧ client_result a = Exit 1
}.

(** ** Lemmas *)

Lemma client_run_inv t x y :
  client_run t x = Some y →
  cc_alive x = true ∧ ∃ a pc m alive pc', cc_threads x !! t = Some (a, pc) ∧
    client_step a (cc_mutex x) pc = Some (m, alive, pc') ∧
    y = mkClients m alive (<[t := (a, pc')]> (cc_threads x)).
Proof.
  unfold client_run. destruct (cc_alive x); [|done]. intros Hy. split; [done|].
  apply bind_Some in Hy as ([a pc] & Ht & ([[m alive] pc'] & Hs & [= <-])%bind_Some). eauto 10.
Qed.

Lemma client_step_result a m pc m' alive pc' :
  client_step a m pc = Some (m', alive, pc') → result_ok (a, pc) → result_ok (a, pc').
Proof.
  unfold result_ok, client_result, create_client. destruct pc; cbn [client_step fst snd]; intros Hs Hok.
  - by destruct m; simplify_eq.
  - destruct (clnt_create _ _ _ _) eqn:Hc; simplify_eq; [|done]. done.
  - by simplify_eq.
  - by simplify_eq.
  - done.
Qed.

(** How a step changes the mutex and the thread's place. *)
Lemma client_step_mutex a m pc m' alive pc' :
  client_step a m pc = Some (m', alive, pc') →
  (in_client pc = in_client pc' ∧ m' = m) ∨
  (in_client pc = false ∧ in_client pc' = true ∧ m = false ∧ m' = true) ∨
  (in_client pc = true ∧ in_client pc' = false ∧ m' = false).
Proof. destruct pc; cbn; intros Hs; repeat case_match; simplify_eq; cbn; auto 10. Qed.

Lemma ClientInv_calls calls : ClientInv calls (client_calls calls).
Proof.
  assert (∀ t th, cc_threads (client_calls calls) !! t = Some th → th.2 = CcLock) as Hth.
  { intros t th Ht. by apply list_lookup_fmap_Some in Ht as (? & -> & _). }
  split.
  - cbn. rewrite <-list_fmap_compose. apply list_fmap_id.
  - split; [done|]. intros (t & th & Ht & Hin). by rewrite (Hth t th Ht) in Hin.
  - intros t1 t2 th1 th2 H1 _ Hin. by rewrite (Hth t1 th1 H1) in Hin.
  - apply Forall_lookup. intros t th Ht. unfold result_ok. by rewrite (Hth t th Ht).
  - done.
Qed.

Lemma ClientInv_run calls x y : ClientInv calls x → client_runs x y → ClientInv calls y.
Proof.
  intros [Hcalls Hheld Hone Hres Hdead] [t Hy].
  apply client_run_inv in Hy as (Ha & a & pc & m & alive & pc' & Ht & Hs & ->).
  pose proof (client_step_mutex _ _ _ _ _ _ Hs) as Hm. pose proof (lookup_lt_Some _ _ _ Ht) as Hlt.
  assert (∀ t0 th0, <[t := (a, pc')]> (cc_threads x) !! t0 = Some th0 →
    (t0 = t ∧ th0 = (a, pc')) ∨ (t0 ≠ t ∧ cc_threads x !! t0 = Some th0)) as Hlk.
  { intros t0 th0 [(-> & -> & _)|[? ?]]%list_lookup_insert_Some; auto. }
  assert (cc_mutex x = false → ∀ t0 th0, cc_threads x !! t0 = Some th0 → in_client th0.2 = false) as Hfree.
  { intros Hf t0 th0 H0. apply not_true_is_false. intros Hin.
    rewrite (proj2 Hheld) in Hf; [done|]. eauto. }
  split; cbn [cc_threads cc_mutex cc_alive].
  - rewrite list_fmap_insert. cbn. rewrite list_insert_id; [done|]. by rewrite list_lookup_fmap, Ht.
  - destruct Hm as [[Heq ->]|[(Hin & Hin' & Hf & ->)|(Hin & Hin' & ->)]].
    + rewrite Hheld. split; intros (t0 & th0 & H0 & Hi0).
      * destruct (decide (t0 = t)) as [->|Hne]; [|exists t0, th0; by rewrite list_lookup_insert_ne].
        simplify_eq. exists t, (a, pc'). rewrite list_lookup_insert_eq by done. cbn in *. by rewrite <-Heq.
      * apply Hlk in H0 as [[-> ->]|[_ H0]]; [exists t, (a, pc); cbn in *; by rewrite Heq|eauto].
    + split; [|done]. intros _. exists t, (a, pc'). by rewrite list_lookup_insert_eq.
    + split; [done|]. intros (t0 & th0 & H0 & Hi0). apply Hlk in H0 as [[-> ->]|[Hne H0]]; [cbn in *; congruence|].
      destruct Hne. by eapply (Hone t0 t).
  - intros t1 t2 th1 th2 H1 H2 Hi1 Hi2.
    destruct Hm as [[Heq ->]|[(Hin & Hin' & Hf & ->)|(Hin & Hin' & ->)]];
      apply Hlk in H1 as [[-> ->]|[Hn1 H1]], H2 as [[-> ->]|[Hn2 H2]]; cbn in *; try done; try congruence.
    + eapply (Hone t t2); [done..|by cbn; rewrite Heq|done].
    + eapply (Hone t1 t); [done..|by cbn; rewrite Heq].
    + by eapply Hone.
    + by rewrite (Hfree Hf _ _ H2) in Hi2.
    + by rewrite (Hfree Hf _ _ H1) in Hi1.
    + by eapply Hone.
    + by eapply Hone.
  - apply Forall_insert; [done|]. eapply client_step_result; [done|].
    exact (Forall_lookup_1 _ _ _ _ Hres Ht).
  - intros ->. exists a. split.
    + rewrite <-Hcalls. apply list_elem_of_fmap. exists (a, pc). split; [done|by eapply list_elem_of_lookup_2].
    + unfold client_result, create_client. destruct pc; cbn in Hs; repeat case_match; by simplify_eq.
Qed.

Definition client_weight (th : client_args * client_pc) : nat :=
  match th.2 with CcLock => 4 | CcCreate => 3 | CcControl _ => 2 | CcUnlock _ => 1 | CcRet _ => 0 end.
(** A process that has ended has nothing left to do. *)
Definition clients_weight (x : ClientState) : nat :=
  if cc_alive x then S (sum_list_with client_weight (cc_threads x)) else 0.

Lemma client_runs_weight x y : client_runs x y → (clients_weight y < clients_weight x)%nat.
Proof.
  intros [t Hy]. apply client_run_inv in Hy as (Ha & a & pc & m & alive & pc' & Ht & Hs & ->).
  unfold clients_weight. rewrite Ha. cbn [cc_alive cc_threads]. destruct alive; [|lia].
  pose proof (sum_insert client_weight _ _ _ (a, pc') Ht).
  assert (client_weight (a, pc') < client_weight (a, pc))%nat; [|lia].
  destruct pc; cbn in Hs; repeat case_match; simplify_eq; cbn; lia.
Qed.

(** A thread that has not returned can run, or waits for one that can. *)
Lemma clients_progress calls x t th :
  ClientInv calls x → cc_alive x = true → cc_threads x !! t = Some th → (∀ c, th.2 ≠ CcRet c) →
  ∃ y, client_runs x y.
Proof.
  intros [_ Hheld _ _ _] Ha Ht Hr.
  assert (∀ t0 th0, cc_threads x !! t0 = Some th0 →
    is_Some (client_step th0.1 (cc_mutex x) th0.2) → ∃ y, client_runs x y) as Hrun.
  { intros t0 [a0 pc0] H0 [[[m alive] pc'] Hs]. eexists _, t0. unfold client_run.
    rewrite Ha, H0. cbn in *. by rewrite Hs. }
  destruct (cc_mutex x) eqn:Hm.
  - destruct (proj1 Hheld eq_refl) as (t0 & [a0 pc0] & H0 & Hin). apply (Hrun t0 _ H0).
    destruct pc0; cbn in *; try done; repeat case_match; by eexists.
  - destruct th as [a pc]. apply (Hrun t _ Ht). cbn in *.
    destruct pc; cbn; repeat case_match; try by eexists. by destruct (Hr c).
Qed.

(** ** Theorem *)

(** All calls have returned what the function returns, and the mutex is free;
    or the process has ended because a client could not be created. *)
Definition clients_done (calls : list client_args) (x : ClientState) : Prop :=
  (cc_alive x = true ∧ cc_mutex x = false ∧
     Forall2 (λ a th, ∃ c, th = (a, CcRet c) ∧ client_result a = Ret c) calls (cc_threads x)) ∨
  (cc_alive x = false ∧ ∃ a, a ∈ calls ∧ client_result a = Exit 1).

(** C33: create_client may be called by any number of threads of a process at once: on
    every schedule either all calls return, each with the client that the function
    called alone returns for its arguments, and client_mutex is free again, or the
    process has ended because clnt_create failed for one of the calls; there is no
    deadlock, and at most one thread at a time is between lines 16 and 29. *)
Theorem create_client_serial calls :
  inevitably client_runs (clients_done calls) (client_calls calls) ∧
  ∀ x, rtc client_runs (client_calls calls) x →
    ∀ t1 t2 th1 th2, cc_threads x !! t1 = Some th1 → cc_threads x !! t2 = Some th2 →
      in_client th1.2 = true → in_client th2.2 = true → t1 = t2.
Proof.
  split.
  - apply (inevitably_measure _ _ (ClientInv calls) clients_weight); [|apply ClientInv_calls].
    intros x HI. destruct (cc_alive x) eqn:Ha; [|left; right; split; [done|by eapply ci_dead]].
    destruct (decide (Exists (λ th, client_weight th ≠ 0%nat) (cc_threads x))) as [He|Hne].
    + right. apply Exists_exists in He as (th & [t Ht]%list_elem_of_lookup & Hw).
      split; [eapply clients_progress; [done..|]; intros c Hc; unfold client_weight in Hw; by rewrite Hc in Hw|].
      intros y Hy. split; [by eapply ClientInv_run|by apply client_runs_weight].
    + left; left. apply not_Exists_Forall in Hne; [|apply _].
      assert (∀ t th, cc_threads x !! t = Some th → ∃ c, th.2 = CcRet c) as Hret.
      { intros t th Ht. pose proof (Forall_lookup_1 _ _ _ _ Hne Ht) as Hw. unfold client_weight in Hw.
        destruct th as [a []]; cbn in *; eauto; by destruct Hw. }
      destruct HI as [Hcalls Hheld _ Hres _]. split_and!; [done| |].
      * apply not_true_is_false. intros (t & th & Ht & Hin)%Hheld.
        destruct (Hret t th Ht) as [c Hc]. by rewrite Hc in Hin.
      * rewrite <-Hcalls. apply Forall2_fmap_l, Forall_Forall2_diag, Forall_lookup. intros t [a pc] Ht.
        destruct (Hret t _ Ht) as [c Hc]. cbn in Hc. subst pc. exists c. split; [done|].
        exact (Forall_lookup_1 _ _ _ _ Hres Ht).
  - intros x Hr. assert (ClientInv calls x) as [_ _ Hone _ _]; [|exact Hone].
    eapply rtc_invariant; [intros a b; apply ClientInv_run|apply ClientInv_calls|done].
Qed.

End clients.
