(* ===== verification/LockMsg.v ===== *)
(** * Lock manager messages

    The argument of the REQUEST procedure ([psu_dist_lock_mgr_msg.h]) and its
    XDR routine ([psu_dist_lock_mgr_msg_xdr.c]). *)

From S2P Require Import Prelude Xdr.

(** [struct RequestPack] *)
Record RequestPack := mkRequestPack {
  rp_lock_number : Z;   (* int *)
  rp_seqno : Z;         (* int *)
  rp_mac : Z            (* u_quad_t *)
}.

#[export] Instance request_pack_eq_dec : EqDecision RequestPack.
Proof. solve_decision. Defined.

Definition set_rp_lock_number (a : Z) (p : RequestPack) : RequestPack :=
  mkRequestPack a (rp_seqno p) (rp_mac p).
Definition set_rp_seqno (a : Z) (p : RequestPack) : RequestPack :=
  mkRequestPack (rp_lock_number p) a (rp_mac p).
Definition set_rp_mac (a : Z) (p : RequestPack) : RequestPack :=
  mkRequestPack (rp_lock_number p) (rp_seqno p) a.

Definition PSU_DIST_LOCK_MGR : Z := 50331647.  (* 0x2ffffff *)
Definition PSU_DIST_LOCK_MGR_V1 : Z := 1.
Definition INIT_LOCK_MGR : Z := 1.
Definition ACQUIRE_LOCK : Z := 2.
Definition RELEASE_LOCK : Z := 3.
Definition REQUEST : Z := 4.

Definition request_pack_valid (p : RequestPack) : Prop :=
  int_ok (rp_lock_number p) ∧ int_ok (rp_seqno p) ∧ uint_ok 64 (rp_mac p).

Definition enc_RequestPack (p : RequestPack) : bytes :=
  enc_int (rp_lock_number p) ++ enc_int (rp_seqno p) ++ enc_u_hyper (rp_mac p).

Section request_pack.
Context {X : Type} `{XdrStream X}.

Definition xdr_RequestPack : filter X RequestPack :=
  ffield rp_lock_number set_rp_lock_number xdr_int ;;;
  ffield rp_seqno set_rp_seqno xdr_int ;;;
  ffield rp_mac set_rp_mac xdr_u_hyper ;;;
  fdone.

Context `{!XdrLaws X}.

Lemma xdr_RequestPack_ok : filter_ok xdr_RequestPack enc_RequestPack request_pack_valid
  (λ _, True) (λ v _, v).
Proof.
  eapply filter_ok_ext.
  - unfold xdr_RequestPack.
    xdr_field (λ _ : RequestPack, True) ltac:(apply xdr_int_ok).
    xdr_field (λ _ : RequestPack, True) ltac:(apply xdr_int_ok).
    xdr_field (λ _ : RequestPack, True) ltac:(apply xdr_u_hyper_ok).
    apply fdone_ok.
  - intros v (H1 & H2 & H3). split; [done|]. unfold enc_RequestPack. by rewrite app_nil_r.
  - done.
  - intros [] [] _ _. done.
  - done.
Qed.

(** C26: xdr_RequestPack writes every RequestPack as one image of 16 bytes if there is
    room and returns FALSE otherwise; decoding the image gives the value back and
    consumes exactly it, and decoding a proper prefix returns FALSE. *)
Theorem xdr_RequestPack_roundtrip :
  roundtrips xdr_RequestPack request_pack_valid (λ _, True) (λ _, 16%nat).
Proof.
  eapply filter_ok_roundtrips; [apply xdr_RequestPack_ok|]. done.
Qed.

End request_pack.
