(* ===== verification/LockServer.v ===== *)
(** * The lock server of one node

    [psu_dist_lock_mgr_server.c]: the server's globals, [find_lockvar], the
    initialization, and the three procedures that run concurrently, each in a
    thread of its own: [acquire_lock_1_svc], [release_lock_1_svc] and
    [request_1_svc].  A procedure is a program counter with its local
    variables and a step function on the server's state; one step performs at
    most one access to shared memory (or one call), so that interleavings of
    steps are interleavings of the code. *)

From S2P Require Import Prelude CString LockMsg.

(** ** State *)

(** A deferred request waits on a mutex of its own.  POSIX leaves it undefined
    to unlock a mutex that is not locked, which the program does; the model is
    the normal mutex of the GNU C library, a lock word with a count [nusers]
    of type [unsigned].  Unlocking checks neither the owner nor whether the
    mutex is locked, and always counts down; destroying fails (EBUSY) when the
    count is not 0; a destroyed mutex refuses every call (EINVAL).  The program
    ignores these results.  A thread that already sleeps in
    [pthread_mutex_lock] is not told apart from one that is about to call it. *)
Inductive mutex :=
| MFree (nusers : Z)
| MTaken (nusers : Z)
| MDestroyed.

(** After [pthread_mutex_init], and locked once. *)
Abbreviation MUnlocked := (MFree 0).
Abbreviation MLocked := (MTaken 1).

#[export] Instance mutex_eq_dec : EqDecision mutex.
Proof. solve_decision. Defined.

(** [typedef struct _LockVar].  [lv_lock] is true while the mutex is held;
    [lv_deffered] holds the addresses of the mutexes of deferred requests and
    is [None] between [g_array_free] and the assignment of a new array. *)
Record LockVar := mkLockVar {
  lv_lock : bool;
  lv_lock_number : Z;
  lv_myseqno : Z;
  lv_highestseqno : Z;
  lv_requesting_cs : bool;
  lv_deffered : option (list nat)
}.

(** The globals of the server process: [nodes], [mac], [has_initialized],
    [lockvar_list] (pointers to a [LockVar] are indices into it; nothing is
    ever removed), the heap of deferred mutexes, and whether the process is
    still running. *)
Record Server := mkServer {
  sv_nodes : list bytes;
  sv_mac : Z;
  sv_has_initialized : bool;
  sv_lockvar_list : list LockVar;
  sv_mutexes : gmap nat mutex;
  sv_alive : bool
}.

Definition set_lock (b : bool) (v : LockVar) : LockVar :=
  mkLockVar b (lv_lock_number v) (lv_myseqno v) (lv_highestseqno v)
    (lv_requesting_cs v) (lv_deffered v).
Definition set_myseqno (z : Z) (v : LockVar) : LockVar :=
  mkLockVar (lv_lock v) (lv_lock_number v) z (lv_highestseqno v)
    (lv_requesting_cs v) (lv_deffered v).
Definition set_highestseqno (z : Z) (v : LockVar) : LockVar :=
  mkLockVar (lv_lock v) (lv_lock_number v) (lv_myseqno v) z
    (lv_requesting_cs v) (lv_deffered v).
Definition set_requesting_cs (b : bool) (v : LockVar) : LockVar :=
  mkLockVar (lv_lock v) (lv_lock_number v) (lv_myseqno v) (lv_highestseqno v)
    b (lv_deffered v).
Definition set_deffered (d : option (list nat)) (v : LockVar) : LockVar :=
  mkLockVar (lv_lock v) (lv_lock_number v) (lv_myseqno v) (lv_highestseqno v)
    (lv_requesting_cs v) d.

Definition set_lockvar_list (l : list LockVar) (s : Server) : Server :=
  mkServer (sv_nodes s) (sv_mac s) (sv_has_initialized s) l (sv_mutexes s) (sv_alive s).
Definition set_mutexes (h : gmap nat mutex) (s : Server) : Server :=
  mkServer (sv_nodes s) (sv_mac s) (sv_has_initialized s) (sv_lockvar_list s) h (sv_alive s).
Definition set_alive (b : bool) (s : Server) : Server :=
  mkServer (sv_nodes s) (sv_mac s) (sv_has_initialized s) (sv_lockvar_list s) (sv_mutexes s) b.

(** Write through a [LockVar *]. *)
Definition put_lv (p : nat) (v : LockVar) (s : Server) : Server :=
  set_lockvar_list (<[p := v]> (sv_lockvar_list s)) s.
(** Write the mutex at address [m]. *)
Definition put_mutex (m : nat) (k : mutex) (s : Server) : Server :=
  set_mutexes (<[m := k]> (sv_mutexes s)) s.

(** ** Initialization *)

(** [initialize_global_variable]: [mac] is the result of [get_mac_address];
    the program aborts when it is 0. *)
Definition initialize_global_variable (mac : Z) : outcome Server :=
  if decide (mac = 0) then Crash
  else Ret (mkServer [] mac false [] ∅ true).

(** The loop over the local addresses (lines 86-94). *)
Fixpoint is_local (pch : bytes) (local_ips : list bytes) : bool :=
  match local_ips with
  | [] => false
  | ip :: rest => if decide (strcmp pch ip = 0) then true else is_local pch rest
  end.

(** The loop over the tokens of the node string (lines 83-99). *)
Fixpoint add_nodes (toks : list bytes) (local_ips : list bytes) (nodes : list bytes)
    : list bytes :=
  match toks with
  | [] => nodes
  | pch :: rest =>
      if is_local pch local_ips then add_nodes rest local_ips nodes
      else add_nodes rest local_ips (nodes ++ [pch])
  end.

(** [init_lock_mgr_1_svc], with [local_ips] the addresses that
    [get_local_ip_addresses] found; the assertion on their number aborts. *)
Definition init_lock_mgr_1_svc (local_ips : list bytes) (node_str : bytes) (s : Server)
    : outcome Server :=
  match local_ips with
  | [] => Crash
  | _ =>
      let nodes := add_nodes (strtok_all COMMA (cterm node_str)) local_ips (sv_nodes s) in
      Ret (mkServer nodes (sv_mac s) true (sv_lockvar_list s) (sv_mutexes s) (sv_alive s))
  end.

(** ** Lock variables *)

Definition new_lockvar (n : Z) : LockVar := mkLockVar false n 0 0 false (Some []).

Fixpoint lockvar_index (n : Z) (l : list LockVar) : option nat :=
  match l with
  | [] => None
  | v :: l' => if decide (lv_lock_number v = n) then Some O else S <$> lockvar_index n l'
  end.

(** [find_lockvar]: the whole body runs under [lockvar_list_lock], so it is
    one step. *)
Definition find_lockvar (n : Z) (create : bool) (s : Server) : option nat * Server :=
  match lockvar_index n (sv_lockvar_list s) with
  | Some p => (Some p, s)
  | None =>
      if create
      then (Some (length (sv_lockvar_list s)),
            set_lockvar_list (sv_lockvar_list s ++ [new_lockvar n]) s)
      else (None, s)
  end.

(** ** The pthread mutex of a deferred request *)

(** The state after a successful or failed [pthread_mutex_lock]; [None] while
    it blocks. *)
Definition mutex_lock (k : mutex) : option mutex :=
  match k with
  | MFree u => Some (MTaken (wrap 32 (u + 1)))
  | MTaken _ => None
  | MDestroyed => Some MDestroyed
  end.
Definition mutex_unlock (k : mutex) : mutex :=
  match k with
  | MFree u | MTaken u => MFree (wrap 32 (u - 1))
  | MDestroyed => MDestroyed
  end.
Definition mutex_destroy (k : mutex) : mutex :=
  match k with
  | MFree u | MTaken u => if decide (u = 0) then MDestroyed else k
  | MDestroyed => MDestroyed
  end.

(** ** Acquire and release: the session of one client thread

    A client thread calls [acquire_lock_1_svc], is in its critical section
    when that returns, and then calls [release_lock_1_svc]; both calls are
    synchronous, so one program counter follows both server threads.  [p] is
    the local variable [lockvar], [i] the loop index. *)
Inductive session_pc :=
| AqFind                            (* find_lockvar(number, true) *)
| AqLock (p : nat)                  (* pthread_mutex_lock(&lockvar->lock) *)
| AqRequesting (p : nat)            (* requesting_cs = true *)
| AqReadHighest (p : nat)           (* read highestseqno *)
| AqWriteSeqno (p : nat) (h : Z)    (* myseqno = h + 1 *)
| AqLoop (p i : nat)                (* i < nodes->len; build and send the request *)
| AqCall (p i callee : nat)         (* inside request_1, served by thread callee *)
| Held                              (* acquire_lock_1_svc has returned true *)
| RlFind                            (* find_lockvar(number, false) *)
| RlLoop (p i : nat)                (* i < deffered->len; unlock deffered[i] *)
| RlDestroy (p i : nat)             (* destroy deffered[i] *)
| RlFree (p : nat)                  (* g_array_free(deffered) *)
| RlNew (p : nat)                   (* deffered = g_array_new(...) *)
| RlUnlock (p : nat)                (* pthread_mutex_unlock(&lockvar->lock) *)
| Released                          (* release_lock_1_svc has returned true *)
| SUndef.                           (* undefined behaviour happened here *)

#[export] Instance session_pc_eq_dec : EqDecision session_pc.
Proof. solve_decision. Defined.

(** What a step asks of its surroundings: continue, perform the RPC
    [request_1(pack)] on [host] (the serving thread's id is passed to [k]),
    or abort the process. *)
Inductive action :=
| Goto (pc : session_pc)
| CallRequest (host : bytes) (pack : RequestPack) (k : nat → session_pc)
| Abort.

(** [acquire_lock_1_svc] *)
Definition acquire_step (s : Server) (number : Z) (pc : session_pc)
    : option (Server * action) :=
  match pc with
  | AqFind =>
      match find_lockvar number true s with
      | (Some p, s') => Some (s', Goto (AqLock p))
      | (None, _) => None
      end
  | AqLock p =>
      v ← sv_lockvar_list s !! p;
      if lv_lock v then None
      else Some (put_lv p (set_lock true v) s, Goto (AqRequesting p))
  | AqRequesting p =>
      v ← sv_lockvar_list s !! p;
      Some (put_lv p (set_requesting_cs true v) s, Goto (AqReadHighest p))
  | AqReadHighest p =>
      v ← sv_lockvar_list s !! p;
      Some (s, Goto (AqWriteSeqno p (lv_highestseqno v)))
  | AqWriteSeqno p h =>
      v ← sv_lockvar_list s !! p;
      match int_add h 1 with
      | Some z => Some (put_lv p (set_myseqno z v) s, Goto (AqLoop p 0))
      | None => Some (s, Goto SUndef)
      end
  | AqLoop p i =>
      v ← sv_lockvar_list s !! p;
      match sv_nodes s !! i with
      | Some host =>
          Some (s, CallRequest host (mkRequestPack number (lv_myseqno v) (sv_mac s))
                     (AqCall p i))
      | None => Some (s, Goto Held)
      end
  | _ => None
  end.

(** [release_lock_1_svc] *)
Definition release_step (s : Server) (number : Z) (pc : session_pc)
    : option (Server * action) :=
  match pc with
  | RlFind =>
      match find_lockvar number false s with
      | (Some p, s') => Some (s', Goto (RlLoop p 0))
      | (None, s') => Some (s', Abort)
      end
  | RlLoop p i =>
      v ← sv_lockvar_list s !! p;
      match lv_deffered v with
      | None => Some (s, Goto SUndef)
      | Some d =>
          match d !! i with
          | None => Some (s, Goto (RlFree p))
          | Some m =>
              k ← sv_mutexes s !! m;
              Some (put_mutex m (mutex_unlock k) s, Goto (RlDestroy p i))
          end
      end
  | RlDestroy p i =>
      v ← sv_lockvar_list s !! p;
      match lv_deffered v ≫= (.!! i) with
      | None => Some (s, Goto SUndef)
      | Some m =>
          k ← sv_mutexes s !! m;
          Some (put_mutex m (mutex_destroy k) s, Goto (RlLoop p (S i)))
      end
  | RlFree p =>
      v ← sv_lockvar_list s !! p;
      Some (put_lv p (set_deffered None v) s, Goto (RlNew p))
  | RlNew p =>
      v ← sv_lockvar_list s !! p;
      Some (put_lv p (set_deffered (Some []) v) s, Goto (RlUnlock p))
  | RlUnlock p =>
      v ← sv_lockvar_list s !! p;
      Some (put_lv p (set_lock false v) s, Goto Released)
  | _ => None
  end.

(** ** The request handler *)

Inductive handler_pc :=
| RqFind                            (* find_lockvar(pack->lock_number, true) *)
| RqReadMax (p : nat)               (* read highestseqno for MAX *)
| RqWriteMax (p : nat) (z : Z)      (* highestseqno = z *)
| RqTest1 (p : nat)                 (* requesting_cs && ... *)
| RqTest2 (p : nat)                 (* pack->seqno > myseqno || ... *)
| RqTest3 (p : nat)                 (* pack->seqno == myseqno && pack->mac > mac *)
| RqAlloc (p : nat)                 (* malloc and pthread_mutex_init *)
| RqAppend (p m : nat)              (* g_array_append_val(deffered, mutex) *)
| RqLock1 (m : nat)                 (* first pthread_mutex_lock(mutex) *)
| RqLock2 (m : nat)                 (* second pthread_mutex_lock(mutex) *)
| RqRet                             (* return true: the reply is sent *)
| RqUndef.                          (* undefined behaviour happened here *)

#[export] Instance handler_pc_eq_dec : EqDecision handler_pc.
Proof. solve_decision. Defined.

(** [request_1_svc], run by thread [t].  A thread allocates at most one
    mutex, so its id serves as the address [malloc] returns. *)
Definition request_step (t : nat) (s : Server) (pack : RequestPack) (pc : handler_pc)
    : option (Server * handler_pc) :=
  match pc with
  | RqFind =>
      match find_lockvar (rp_lock_number pack) true s with
      | (Some p, s') => Some (s', RqReadMax p)
      | (None, _) => None
      end
  | RqReadMax p =>
      v ← sv_lockvar_list s !! p;
      Some (s, RqWriteMax p (Z.max (rp_seqno pack) (lv_highestseqno v)))
  | RqWriteMax p z =>
      v ← sv_lockvar_list s !! p;
      Some (put_lv p (set_highestseqno z v) s, RqTest1 p)
  | RqTest1 p =>
      v ← sv_lockvar_list s !! p;
      Some (s, if lv_requesting_cs v then RqTest2 p else RqRet)
  | RqTest2 p =>
      v ← sv_lockvar_list s !! p;
      Some (s, if lv_myseqno v <? rp_seqno pack then RqAlloc p else RqTest3 p)
  | RqTest3 p =>
      v ← sv_lockvar_list s !! p;
      Some (s, if (rp_seqno pack =? lv_myseqno v) && (sv_mac s <? rp_mac pack)
               then RqAlloc p else RqRet)
  | RqAlloc p => Some (put_mutex t MUnlocked s, RqAppend p t)
  | RqAppend p m =>
      v ← sv_lockvar_list s !! p;
      match lv_deffered v with
      | None => Some (s, RqUndef)
      | Some d => Some (put_lv p (set_deffered (Some (d ++ [m])) v) s, RqLock1 m)
      end
  | RqLock1 m =>
      k ← sv_mutexes s !! m;
      k' ← mutex_lock k;
      Some (put_mutex m k' s, RqLock2 m)
  | RqLock2 m =>
      k ← sv_mutexes s !! m;
      k' ← mutex_lock k;
      Some (put_mutex m k' s, RqRet)
  | RqRet | RqUndef => None
  end.

(** ** The view of one lock

    The two procedures work on one lock variable each.  [view s n] is the
    variable of lock [n], with its initial value while it does not exist;
    [sess_local] and [hdl_local] say what a step of a session or of a handler
    does to the variable of its own lock and to the mutexes. *)

Definition view (s : Server) (n : Z) : LockVar :=
  default (new_lockvar n) (lockvar_index n (sv_lockvar_list s) ≫= (sv_lockvar_list s !!.)).

(** Lock numbers are unique in the list. *)
Definition sv_wf (s : Server) : Prop := NoDup (lv_lock_number <$> sv_lockvar_list s).

(** [p] points to the variable of lock [n]. *)
Definition ptr (s : Server) (n : Z) (p : nat) : Prop :=
  ∃ v, sv_lockvar_list s !! p = Some v ∧ lv_lock_number v = n.

Definition session_ptr (s : Server) (n : Z) (pc : session_pc) : Prop :=
  match pc with
  | AqLock p | AqRequesting p | AqReadHighest p | AqWriteSeqno p _ | AqLoop p _
  | AqCall p _ _ | RlLoop p _ | RlDestroy p _ | RlFree p | RlNew p | RlUnlock p => ptr s n p
  | AqFind | Held | RlFind | Released | SUndef => True
  end.

Definition handler_ptr (s : Server) (n : Z) (pc : handler_pc) : Prop :=
  match pc with
  | RqReadMax p | RqWriteMax p _ | RqTest1 p | RqTest2 p | RqTest3 p | RqAlloc p
  | RqAppend p _ => ptr s n p
  | RqFind | RqLock1 _ | RqLock2 _ | RqRet | RqUndef => True
  end.

Inductive sess_local (nodes : list bytes)
  : session_pc → LockVar → gmap nat mutex → session_pc → LockVar → gmap nat mutex → Prop :=
| sl_find p v h : sess_local nodes AqFind v h (AqLock p) v h
| sl_lock p v h : lv_lock v = false →
    sess_local nodes (AqLock p) v h (AqRequesting p) (set_lock true v) h
| sl_requesting p v h :
    sess_local nodes (AqRequesting p) v h (AqReadHighest p) (set_requesting_cs true v) h
| sl_read p v h :
    sess_local nodes (AqReadHighest p) v h (AqWriteSeqno p (lv_highestseqno v)) v h
| sl_write p z v h : int_ok (z + 1) →
    sess_local nodes (AqWriteSeqno p z) v h (AqLoop p 0) (set_myseqno (z + 1) v) h
| sl_overflow p z v h : ¬ int_ok (z + 1) → sess_local nodes (AqWriteSeqno p z) v h SUndef v h
| sl_acquired p i v h : nodes !! i = None → sess_local nodes (AqLoop p i) v h Held v h
| sl_rfind p v h : sess_local nodes RlFind v h (RlLoop p 0) v h
| sl_unlock p i d m k v h : lv_deffered v = Some d → d !! i = Some m → h !! m = Some k →
    sess_local nodes (RlLoop p i) v h (RlDestroy p i) v (<[m := mutex_unlock k]> h)
| sl_loop_end p i v h : sess_local nodes (RlLoop p i) v h (RlFree p) v h
| sl_loop_undef p i v h : lv_deffered v = None → sess_local nodes (RlLoop p i) v h SUndef v h
| sl_destroy p i d m k v h : lv_deffered v = Some d → d !! i = Some m → h !! m = Some k →
    sess_local nodes (RlDestroy p i) v h (RlLoop p (S i)) v (<[m := mutex_destroy k]> h)
| sl_destroy_undef p i v h : lv_deffered v ≫= (.!! i) = None →
    sess_local nodes (RlDestroy p i) v h SUndef v h
| sl_free p v h :
    sess_local nodes (RlFree p) v h (RlNew p) (set_deffered None v) h
| sl_new p v h :
    sess_local nodes (RlNew p) v h (RlUnlock p) (set_deffered (Some []) v) h
| sl_release p v h :
    sess_local nodes (RlUnlock p) v h Released (set_lock false v) h.

Inductive hdl_local (t : nat) (mac : Z) (pack : RequestPack)
  : handler_pc → LockVar → gmap nat mutex → handler_pc → LockVar → gmap nat mutex → Prop :=
| hl_find p v h : hdl_local t mac pack RqFind v h (RqReadMax p) v h
| hl_read p v h : hdl_local t mac pack (RqReadMax p) v h
    (RqWriteMax p (Z.max (rp_seqno pack) (lv_highestseqno v))) v h
| hl_write p z v h : hdl_local t mac pack (RqWriteMax p z) v h (RqTest1 p)
    (set_highestseqno z v) h
| hl_idle p v h : lv_requesting_cs v = false →
    hdl_local t mac pack (RqTest1 p) v h RqRet v h
| hl_busy p v h : lv_requesting_cs v = true →
    hdl_local t mac pack (RqTest1 p) v h (RqTest2 p) v h
| hl_greater p v h : lv_myseqno v < rp_seqno pack →
    hdl_local t mac pack (RqTest2 p) v h (RqAlloc p) v h
| hl_not_greater p v h : rp_seqno pack ≤ lv_myseqno v →
    hdl_local t mac pack (RqTest2 p) v h (RqTest3 p) v h
| hl_tie_lost p v h : rp_seqno pack = lv_myseqno v → mac < rp_mac pack →
    hdl_local t mac pack (RqTest3 p) v h (RqAlloc p) v h
| hl_wins p v h : ¬ (rp_seqno pack = lv_myseqno v ∧ mac < rp_mac pack) →
    hdl_local t mac pack (RqTest3 p) v h RqRet v h
| hl_alloc p v h : hdl_local t mac pack (RqAlloc p) v h (RqAppend p t) v (<[t := MUnlocked]> h)
| hl_append p m d v h : lv_deffered v = Some d →
    hdl_local t mac pack (RqAppend p m) v h (RqLock1 m) (set_deffered (Some (d ++ [m])) v) h
| hl_append_undef p m v h : lv_deffered v = None →
    hdl_local t mac pack (RqAppend p m) v h RqUndef v h
| hl_lock1 m k k' v h : h !! m = Some k → mutex_lock k = Some k' →
    hdl_local t mac pack (RqLock1 m) v h (RqLock2 m) v (<[m := k']> h)
| hl_lock2 m k k' v h : h !! m = Some k → mutex_lock k = Some k' →
    hdl_local t mac pack (RqLock2 m) v h RqRet v (<[m := k']> h).

(** ** Lemmas *)

Lemma lockvar_index_Some n l p :
  lockvar_index n l = Some p → ∃ v, l !! p = Some v ∧ lv_lock_number v = n.
Proof.
  revert p. induction l as [|v l IH]; intros p; simpl; [done|].
  case_decide; [intros [= <-]; eauto|].
  rewrite fmap_Some. intros (q & Hq & ->). by apply IH.
Qed.

Lemma lockvar_index_None n l : lockvar_index n l = None ↔ n ∉ (lv_lock_number <$> l).
Proof.
  induction l as [|v l IH]; [set_solver|].
  rewrite fmap_cons. cbn [lockvar_index]. case_decide; [set_solver|].
  rewrite fmap_None, IH. set_solver.
Qed.

Lemma ptr_unique s n p q : sv_wf s → ptr s n p → ptr s n q → p = q.
Proof.
  intros Hwf (v & Hp & Hv) (w & Hq & Hw). eapply (NoDup_lookup _ p q n Hwf);
    rewrite list_lookup_fmap; [by rewrite Hp, <-Hv|by rewrite Hq, <-Hw].
Qed.

Lemma ptr_index s n p : sv_wf s → ptr s n p → lockvar_index n (sv_lockvar_list s) = Some p.
Proof.
  intros Hwf Hp. destruct (lockvar_index n (sv_lockvar_list s)) as [q|] eqn:Hq.
  - f_equal. eapply ptr_unique; [done| |done]. by apply lockvar_index_Some in Hq.
  - apply lockvar_index_None in Hq. destruct Hp as (v & Hv & <-).
    destruct Hq. apply list_elem_of_fmap. eauto using list_elem_of_lookup_2.
Qed.

(** Reading through a pointer to lock [n] reads its view. *)
Lemma view_ptr s n p v :
  sv_wf s → ptr s n p → sv_lockvar_list s !! p = Some v → view s n = v.
Proof.
  intros Hwf Hp Hv. unfold view. rewrite (ptr_index s n p) by done. simpl. by rewrite Hv.
Qed.

Lemma view_number s n : lv_lock_number (view s n) = n.
Proof.
  unfold view. destruct (lockvar_index n _) as [p|] eqn:Hp; [|done].
  apply lockvar_index_Some in Hp as (v & Hv & <-). simpl. by rewrite Hv.
Qed.

Lemma put_lv_numbers s p v w :
  sv_lockvar_list s !! p = Some v → lv_lock_number w = lv_lock_number v →
  lv_lock_number <$> sv_lockvar_list (put_lv p w s) = lv_lock_number <$> sv_lockvar_list s.
Proof.
  intros Hp Hn. simpl. rewrite list_fmap_insert, list_insert_id; [done|].
  by rewrite list_lookup_fmap, Hp, Hn.
Qed.

Lemma put_lv_wf s p v w :
  sv_lockvar_list s !! p = Some v → lv_lock_number w = lv_lock_number v →
  sv_wf s → sv_wf (put_lv p w s).
Proof. intros Hp Hn Hwf. unfold sv_wf. by rewrite (put_lv_numbers s p v w). Qed.

Lemma ptr_numbers s s' n p :
  lv_lock_number <$> sv_lockvar_list s' = lv_lock_number <$> sv_lockvar_list s →
  ptr s n p → ptr s' n p.
Proof.
  intros Heq (v & Hp & Hv).
  assert ((lv_lock_number <$> sv_lockvar_list s') !! p = Some n) as Hl
    by (rewrite Heq, list_lookup_fmap, Hp; simpl; congruence).
  rewrite list_lookup_fmap, fmap_Some in Hl. destruct Hl as (w & ? & ?). by exists w.
Qed.

(** Writing through a pointer to lock [n] changes its view and no other. *)
Lemma view_put s n p v w n' :
  sv_wf s → sv_lockvar_list s !! p = Some v → lv_lock_number v = n → lv_lock_number w = n →
  view (put_lv p w s) n' = if decide (n' = n) then w else view s n'.
Proof.
  intros Hwf Hp Hv Hw.
  assert (lv_lock_number w = lv_lock_number v) as Hn by congruence.
  pose proof (put_lv_wf s p v w Hp Hn Hwf) as Hwf'.
  assert (sv_lockvar_list (put_lv p w s) !! p = Some w) as Hpw.
  { simpl. apply list_lookup_insert_eq. by eapply lookup_lt_Some. }
  case_decide as Hd; subst.
  - apply (view_ptr _ _ p); [done| |done]. by exists w.
  - unfold view. destruct (lockvar_index n' (sv_lockvar_list s)) as [q|] eqn:Hq.
    + apply lockvar_index_Some in Hq as (u & Hu & <-).
      assert (ptr s (lv_lock_number u) q) as Hptr by (by exists u).
      rewrite (ptr_index _ (lv_lock_number u) q) by
        (done || (eapply ptr_numbers; [by eapply put_lv_numbers|done])).
      simpl. rewrite list_lookup_insert_ne; [done|]. intros ->. congruence.
    + apply lockvar_index_None in Hq.
      rewrite <-(put_lv_numbers s p v w Hp Hn) in Hq.
      apply lockvar_index_None in Hq. by rewrite Hq.
Qed.

(** [find_lockvar] with [create] set returns a pointer to the variable, keeps
    every view and every existing pointer. *)
Lemma find_lockvar_create s n :
  sv_wf s → ∃ p s', find_lockvar n true s = (Some p, s') ∧ sv_wf s' ∧ ptr s' n p ∧
    (∀ n', view s' n' = view s n') ∧ (∀ n' q, ptr s n' q → ptr s' n' q) ∧
    s' = set_lockvar_list (sv_lockvar_list s') s.
Proof.
  intros Hwf. unfold find_lockvar.
  destruct (lockvar_index n (sv_lockvar_list s)) as [p|] eqn:Hp.
  - exists p, s. apply lockvar_index_Some in Hp. split_and!; try done. by destruct s.
  - set (s' := set_lockvar_list (sv_lockvar_list s ++ [new_lockvar n]) s).
    assert (sv_wf s') as Hwf'.
    { unfold sv_wf. simpl. rewrite fmap_app. apply NoDup_app. split; [done|].
      apply lockvar_index_None in Hp. split; [|apply NoDup_singleton]. set_solver. }
    assert (ptr s' n (length (sv_lockvar_list s))) as Hnew.
    { exists (new_lockvar n). simpl. by rewrite lookup_app_r, Nat.sub_diag. }
    assert (∀ n' q, ptr s n' q → ptr s' n' q) as Hold.
    { intros n' q (v & Hv & Hn). exists v. split; [|done]. simpl. by apply lookup_app_l_Some. }
    exists (length (sv_lockvar_list s)), s'. split_and!; try done.
    intros n'. unfold view at 2.
    destruct (lockvar_index n' (sv_lockvar_list s)) as [q|] eqn:Hq; simpl.
    + apply lockvar_index_Some in Hq as (v & Hv & Hn). rewrite Hv. simpl.
      apply (view_ptr _ _ q); [done|apply Hold; by exists v|]. simpl.
      by apply lookup_app_l_Some.
    + destruct (decide (n' = n)) as [->|Hne].
      * by eapply view_ptr; [..|simpl; rewrite lookup_app_r, Nat.sub_diag].
      * unfold view. apply lockvar_index_None in Hq.
        assert (lockvar_index n' (sv_lockvar_list s') = None) as ->; [|done].
        apply lockvar_index_None. simpl. rewrite fmap_app. set_solver.
Qed.

(** What a step for lock [n] leaves alone. *)
Record frame (n : Z) (s s' : Server) : Prop := {
  fr_wf : sv_wf s';
  fr_ptr : ∀ n' p, ptr s n' p → ptr s' n' p;
  fr_other : ∀ n', n' ≠ n → view s' n' = view s n';
  fr_nodes : sv_nodes s' = sv_nodes s;
  fr_mac : sv_mac s' = sv_mac s;
  fr_alive : sv_alive s' = sv_alive s;
  fr_init : sv_has_initialized s' = sv_has_initialized s
}.

Lemma frame_refl n s : sv_wf s → frame n s s.
Proof. by split. Qed.

Lemma frame_mutex n s m k : sv_wf s → frame n s (put_mutex m k s).
Proof. by split. Qed.

Lemma frame_find n s p s' :
  sv_wf s → find_lockvar n true s = (Some p, s') →
  frame n s s' ∧ ptr s' n p ∧ view s' n = view s n ∧ sv_mutexes s' = sv_mutexes s.
Proof.
  intros Hwf Hf. destruct (find_lockvar_create s n Hwf) as (q & s2 & Hf2 & ? & ? & ? & ? & Hs).
  rewrite Hf in Hf2. simplify_eq. rewrite Hs. rewrite <-Hs. split_and!; [|done|done|by rewrite Hs].
  split; try done; by rewrite Hs.
Qed.

Lemma frame_put n s p v w :
  sv_wf s → ptr s n p → sv_lockvar_list s !! p = Some v →
  lv_lock_number w = lv_lock_number v →
  frame n s (put_lv p w s) ∧ ptr (put_lv p w s) n p ∧ v = view s n ∧
  view (put_lv p w s) n = w.
Proof.
  intros Hwf Hp Hv Hw. pose proof Hp as (v' & Hv' & Hn). simplify_eq.
  assert (∀ n' q, ptr s n' q → ptr (put_lv p w s) n' q) as Hptr.
  { intros n' q. apply ptr_numbers. by eapply put_lv_numbers. }
  split_and!.
  - split; try done; [by eapply put_lv_wf|].
    intros n' Hne. rewrite (view_put s (lv_lock_number v) p v) by done.
    by rewrite decide_False.
  - by apply Hptr.
  - symmetry. by eapply view_ptr.
  - rewrite (view_put s (lv_lock_number v) p v) by done. by rewrite decide_True.
Qed.

Lemma view_mutex m k s n : view (put_mutex m k s) n = view s n.
Proof. done. Qed.

(** Apply [frame_put] at the write of the goal. *)
Ltac use_put :=
  match goal with
  | Hwf : sv_wf ?s, Hp : ptr ?s ?n ?p, Hv : sv_lockvar_list ?s !! ?p = Some ?v
    |- context [put_lv ?p ?w ?s] =>
      destruct (frame_put n s p v w Hwf Hp Hv eq_refl) as (? & ? & Hvw & Hput)
  end.

Lemma acquire_step_local s n pc s' pc' :
  sv_wf s → session_ptr s n pc → acquire_step s n pc = Some (s', Goto pc') →
  frame n s s' ∧ session_ptr s' n pc' ∧
  sess_local (sv_nodes s) pc (view s n) (sv_mutexes s) pc' (view s' n) (sv_mutexes s').
Proof.
  intros Hwf Hptr Hstep. destruct pc; simpl in Hptr, Hstep; try done.
  { destruct (find_lockvar n true s) as [[p|] s2] eqn:Hf; simplify_eq.
    destruct (frame_find n s p s' Hwf Hf) as (Hfr & Hp & Hv & Hm).
    split_and!; [done|done|]. rewrite Hv, Hm. constructor. }
  all: apply bind_Some in Hstep as (v & Hv & Hstep);
    pose proof (view_ptr s n p v Hwf Hptr Hv) as Hview.
  - destruct (lv_lock v) eqn:Hl; simplify_eq. use_put.
    split_and!; [done..|]. rewrite Hput. by constructor.
  - simplify_eq. use_put. split_and!; [done..|]. rewrite Hput. constructor.
  - simplify_eq. split_and!; [by apply frame_refl|done|]. constructor.
  - destruct (int_add h 1) as [z|] eqn:Hz; simplify_eq.
    + apply int_add_Some in Hz as [-> Hok]. use_put. split_and!; [done..|].
      rewrite Hput. by constructor.
    + split_and!; [by apply frame_refl|done|]. constructor. by apply int_add_None.
  - destruct (sv_nodes s !! i) eqn:Hi; simplify_eq.
    split_and!; [by apply frame_refl|done|]. by constructor.
Qed.

Lemma acquire_step_call s n pc s' host pack k :
  sv_wf s → session_ptr s n pc → acquire_step s n pc = Some (s', CallRequest host pack k) →
  ∃ p i, pc = AqLoop p i ∧ s' = s ∧ sv_nodes s !! i = Some host ∧
    pack = mkRequestPack n (lv_myseqno (view s n)) (sv_mac s) ∧ k = AqCall p i.
Proof.
  intros Hwf Hptr Hstep. destruct pc; simpl in Hptr, Hstep; try done.
  { by destruct (find_lockvar n true s) as [[p|] s2]. }
  all: apply bind_Some in Hstep as (v & Hv & Hstep);
    pose proof (view_ptr s n p v Hwf Hptr Hv) as Hview.
  - by destruct (lv_lock v).
  - done.
  - done.
  - by destruct (int_add h 1).
  - destruct (sv_nodes s !! i) eqn:Hi; simplify_eq. eauto 10.
Qed.

Lemma release_step_local s n pc s' a :
  sv_wf s → session_ptr s n pc → release_step s n pc = Some (s', a) →
  (a = Abort ∧ s' = s ∧ pc = RlFind) ∨
  ∃ pc', a = Goto pc' ∧ frame n s s' ∧ session_ptr s' n pc' ∧
  sess_local (sv_nodes s) pc (view s n) (sv_mutexes s) pc' (view s' n) (sv_mutexes s').
Proof.
  intros Hwf Hptr Hstep. destruct pc; simpl in Hptr, Hstep; try done.
  { unfold find_lockvar in Hstep.
    destruct (lockvar_index n (sv_lockvar_list s)) as [p|] eqn:Hp; simplify_eq; [|by left].
    right. eexists; split; [done|]. split_and!; [by apply frame_refl| |constructor].
    by apply lockvar_index_Some in Hp. }
  all: right; apply bind_Some in Hstep as (v & Hv & Hstep);
    pose proof (view_ptr s n p v Hwf Hptr Hv) as Hview.
  - destruct (lv_deffered v) as [d|] eqn:Hd; [destruct (d !! i) as [m|] eqn:Hi|].
    + apply bind_Some in Hstep as (k & Hk & Hstep). simplify_eq.
      eexists; split; [done|]. split_and!; [by apply frame_mutex|done|]. by econstructor.
    + simplify_eq. eexists; split; [done|]. split_and!; [by apply frame_refl|done|constructor].
    + simplify_eq. eexists; split; [done|]. split_and!; [by apply frame_refl|done|by constructor].
  - destruct (lv_deffered v ≫= _) as [m|] eqn:Hi.
    + apply bind_Some in Hstep as (k & Hk & Hstep). apply bind_Some in Hi as (d & Hd & Hi).
      simplify_eq.
      eexists; split; [done|]. split_and!; [by apply frame_mutex|done|]. by econstructor.
    + simplify_eq. eexists; split; [done|]. split_and!; [by apply frame_refl|done|by constructor].
  - simplify_eq. use_put. eexists; split; [done|]. split_and!; [done..|].
    rewrite Hput. constructor.
  - simplify_eq. use_put. eexists; split; [done|]. split_and!; [done..|].
    rewrite Hput. constructor.
  - simplify_eq. use_put. eexists; split; [done|]. split_and!; [done..|].
    rewrite Hput. constructor.
Qed.

Lemma request_step_local t s pack pc s' pc' :
  sv_wf s → handler_ptr s (rp_lock_number pack) pc →
  request_step t s pack pc = Some (s', pc') →
  frame (rp_lock_number pack) s s' ∧ handler_ptr s' (rp_lock_number pack) pc' ∧
  hdl_local t (sv_mac s) pack pc (view s (rp_lock_number pack)) (sv_mutexes s)
    pc' (view s' (rp_lock_number pack)) (sv_mutexes s').
Proof.
  set (n := rp_lock_number pack). intros Hwf Hptr Hstep.
  destruct pc; simpl in Hptr, Hstep; try done.
  { fold n in Hstep. destruct (find_lockvar n true s) as [[p|] s2] eqn:Hf; simplify_eq.
    destruct (frame_find n s p s' Hwf Hf) as (Hfr & Hp & Hv & Hm).
    split_and!; [done|done|]. rewrite Hv, Hm. constructor. }
  all: try (apply bind_Some in Hstep as (v & Hv & Hstep);
    first [pose proof (view_ptr s n p v Hwf Hptr Hv) as Hview
          |apply bind_Some in Hstep as (k' & Hk' & Hstep)]); simplify_eq.
  - split_and!; [by apply frame_refl|done|constructor].
  - use_put. split_and!; [done..|]. rewrite Hput. constructor.
  - destruct (lv_requesting_cs _) eqn:Hr;
      split_and!; (by apply frame_refl) || done || by constructor.
  - case Z.ltb_spec; intros ?;
      split_and!; (by apply frame_refl) || done || by constructor.
  - destruct ((_ =? _) && _) eqn:Hb;
      [apply andb_true_iff in Hb as [?%Z.eqb_eq ?%Z.ltb_lt]|apply andb_false_iff in Hb];
      split_and!; [by apply frame_refl|done|by constructor|by apply frame_refl|done|].
    constructor. rewrite Z.eqb_neq, Z.ltb_ge in Hb. lia.
  - split_and!; [by apply frame_mutex|done|constructor].
  - destruct (lv_deffered _) as [d|] eqn:Hd; simplify_eq.
    + use_put. split_and!; [done..|]. rewrite Hput. by constructor.
    + split_and!; [by apply frame_refl|done|by constructor].
  - split_and!; [by apply frame_mutex|done|by econstructor].
  - split_and!; [by apply frame_mutex|done|by econstructor].
Qed.
