(* ===== verification/LockSystem.v ===== *)
(** * The lock manager as a distributed system

    Several nodes, each running the server of [LockServer.v], and any number
    of threads: sessions (a client thread's acquire call, critical section
    and release call) and request handlers (the threads that the RPC
    dispatcher starts for REQUEST messages).  One step runs one thread for
    one step of its code, so an execution is an arbitrary interleaving. *)

From S2P Require Import Prelude CString LockMsg LockServer.

Inductive thread :=
| TSession (node : nat) (number : Z) (pc : session_pc)
| THandler (node : nat) (pack : RequestPack) (pc : handler_pc).

Record World := mkWorld {
  w_servers : list Server;
  w_threads : list thread
}.

(** [Start j n]: a client thread on node [j] calls [psu_acquire_lock(n)].
    [Run t]: thread [t] executes one step; in its critical section it calls
    [psu_release_lock].  [RpcFail t]: the RPC that thread [t] waits for fails
    or times out; the caller ignores the status and goes on. *)
Inductive label :=
| Start (j : nat) (n : Z)
| Run (t : nat)
| RpcFail (t : nat).

Definition is_rpc_fail (l : label) : bool :=
  match l with RpcFail _ => true | _ => false end.

Definition set_server (j : nat) (s : Server) (w : World) : World :=
  mkWorld (<[j := s]> (w_servers w)) (w_threads w).
Definition set_thread (t : nat) (th : thread) (w : World) : World :=
  mkWorld (w_servers w) (<[t := th]> (w_threads w)).
Definition spawn (th : thread) (w : World) : World :=
  mkWorld (w_servers w) (w_threads w ++ [th]).

(** A step of a session inside one of its two procedures. *)
Definition session_step (s : Server) (n : Z) (pc : session_pc) : option (Server * action) :=
  match acquire_step s n pc with
  | Some r => Some r
  | None => release_step s n pc
  end.

Section system.
(** Name resolution: the node that a host string reaches (DNS, port mapper
    and network are not part of the program). *)
Context (host_of : bytes → option nat).

(** The running server behind a host string. *)
Definition reach (w : World) (host : bytes) : option nat :=
  j ← host_of host;
  s ← w_servers w !! j;
  if sv_alive s then Some j else None.

(** Carry out what a session step asks for.  [create_client] exits the
    process when the host cannot be reached; [request_1] starts a handler
    thread there. *)
Definition perform (t j : nat) (n : Z) (s : Server) (a : action) (w : World) : World :=
  match a with
  | Goto pc => set_thread t (TSession j n pc) (set_server j s w)
  | CallRequest host pack k =>
      match reach w host with
      | Some j' =>
          set_thread t (TSession j n (k (length (w_threads w))))
            (spawn (THandler j' pack RqFind) w)
      | None => set_server j (set_alive false s) w
      end
  | Abort => set_server j (set_alive false s) w
  end.

Definition run_session (t j : nat) (n : Z) (pc : session_pc) (s : Server) (w : World)
    : option World :=
  match pc with
  | AqCall p i c =>
      match w_threads w !! c with
      | Some (THandler _ _ RqRet) => Some (set_thread t (TSession j n (AqLoop p (S i))) w)
      | _ => None
      end
  | Held => Some (set_thread t (TSession j n RlFind) w)
  | _ =>
      match session_step s n pc with
      | Some (s', a) => Some (perform t j n s' a w)
      | None => None
      end
  end.

Definition run_handler (t j : nat) (pack : RequestPack) (pc : handler_pc) (s : Server)
    (w : World) : option World :=
  match request_step t s pack pc with
  | Some (s', pc') => Some (set_thread t (THandler j pack pc') (set_server j s' w))
  | None => None
  end.

(** The server of node [j] while its process runs. *)
Definition live (w : World) (j : nat) : option Server :=
  s ← w_servers w !! j;
  if sv_alive s then Some s else None.

Definition exec (l : label) (w : World) : option World :=
  match l with
  | Start j n => _ ← live w j; Some (spawn (TSession j n AqFind) w)
  | Run t =>
      th ← w_threads w !! t;
      match th with
      | TSession j n pc => s ← live w j; run_session t j n pc s w
      | THandler j pack pc => s ← live w j; run_handler t j pack pc s w
      end
  | RpcFail t =>
      th ← w_threads w !! t;
      match th with
      | TSession j n (AqCall p i c) =>
          _ ← live w j; Some (set_thread t (TSession j n (AqLoop p (S i))) w)
      | _ => None
      end
  end.

Fixpoint exec_all (ls : list label) (w : World) : option World :=
  match ls with
  | [] => Some w
  | l :: ls' => exec l w ≫= exec_all ls'
  end.

(** ** Executions *)

(** One step in which no RPC fails. *)
Definition step (w w' : World) : Prop :=
  ∃ l, is_rpc_fail l = false ∧ exec l w = Some w'.

(** No two handlers of one node and lock are between the read and the write
    of line 170 ([highestseqno = MAX(seqno, highestseqno)]). *)
Definition max_exclusive (w : World) : Prop :=
  ∀ t1 t2 j pack1 pack2 p1 p2 z1 z2,
    w_threads w !! t1 = Some (THandler j pack1 (RqWriteMax p1 z1)) →
    w_threads w !! t2 = Some (THandler j pack2 (RqWriteMax p2 z2)) →
    rp_lock_number pack1 = rp_lock_number pack2 → t1 = t2.

(** A step between states in which line 170 is executed by one handler at a
    time. *)
Definition step_excl (w w' : World) : Prop :=
  max_exclusive w ∧ step w w'.

(** The state after every node has been initialized: no threads, no lock
    variables, distinct MAC addresses, and every node knows every other. *)
Record initial (w : World) : Prop := {
  init_threads : w_threads w = [];
  init_fresh : ∀ j s, w_servers w !! j = Some s →
    sv_lockvar_list s = [] ∧ sv_mutexes s = ∅;
  init_macs : ∀ i j si sj, w_servers w !! i = Some si → w_servers w !! j = Some sj →
    sv_mac si = sv_mac sj → i = j;
  init_full : ∀ i j si, w_servers w !! i = Some si → (j < length (w_servers w))%nat →
    i ≠ j → ∃ k a, sv_nodes si !! k = Some a ∧ host_of a = Some j
}.

(** Session [t] is inside its critical section for lock [n]. *)
Definition holds (w : World) (t : nat) (n : Z) : Prop :=
  ∃ j, w_threads w !! t = Some (TSession j n Held).

(** Mutual exclusion: one holder per lock in the whole system. *)
Definition mutual_exclusion (w : World) : Prop :=
  ∀ t1 t2 n, holds w t1 n → holds w t2 n → t1 = t2.

End system.
