(* ===== verification/LockSafety.v ===== *)
(** * Mutual exclusion of the lock manager

    The invariant of the interleaved system and its consequences: at most
    one session holds a lock, provided that line 170 is executed by one
    handler at a time per lock, which is always so in a system of two
    nodes. *)

From S2P Require Import Prelude CString LockMsg LockServer LockSystem.

(** ** Classification of program counters *)

(** The session owns [lockvar->lock]. *)
Definition in_section (pc : session_pc) : bool :=
  match pc with
  | AqFind | AqLock _ | Released | SUndef => false
  | _ => true
  end.

(** The session has set [requesting_cs] (which nothing resets). *)
Definition past_requesting (pc : session_pc) : bool :=
  match pc with
  | AqFind | AqLock _ | AqRequesting _ => false
  | _ => true
  end.

(** The sequence number of an attempt that has read [highestseqno] and not
    yet started its release. *)
Definition attempt (pc : session_pc) (v : LockVar) : option Z :=
  match pc with
  | AqWriteSeqno _ h => Some (h + 1)
  | AqLoop _ _ | AqCall _ _ _ | Held => Some (lv_myseqno v)
  | _ => None
  end.

(** How many of the [len] peers have replied to the attempt. *)
Definition acked (len : nat) (pc : session_pc) : nat :=
  match pc with
  | AqLoop _ i | AqCall _ i _ => i
  | Held => len
  | _ => 0
  end.

(** ** Invariant *)

(** Node [j] has seen sequence number [q] for lock [n], and every attempt
    of its own sessions comes after [(q, m)]: the requester with that pair
    may go first. *)
Definition granted (w : World) (j : nat) (n q m : Z) : Prop :=
  ∃ s, w_servers w !! j = Some s ∧ q ≤ lv_highestseqno (view s n) ∧
  ∀ t pc z, w_threads w !! t = Some (TSession j n pc) →
    attempt pc (view s n) = Some z → lexle (q, m) (z, sv_mac s).

Definition session_ok (s : Server) (n : Z) (pc : session_pc) : Prop :=
  session_ptr s n pc ∧
  (in_section pc = true → lv_lock (view s n) = true) ∧
  (past_requesting pc = true → lv_requesting_cs (view s n) = true) ∧
  match pc with
  | AqWriteSeqno _ h =>
      h ≤ lv_highestseqno (view s n) ∧ lv_myseqno (view s n) ≤ h + 1
  | _ => True
  end.

Definition handler_ok (w : World) (t j : nat) (s : Server) (pack : RequestPack)
    (pc : handler_pc) : Prop :=
  let n := rp_lock_number pack in
  let q := rp_seqno pack in
  let hi := lv_highestseqno (view s n) in
  handler_ptr s n pc ∧
  match pc with
  | RqFind | RqReadMax _ | RqUndef => True
  | RqWriteMax _ z => z = Z.max q hi
  | RqTest1 _ | RqTest2 _ | RqAlloc _ => q ≤ hi
  | RqTest3 _ => q ≤ hi ∧ q ≤ lv_myseqno (view s n)
  | RqAppend _ m | RqLock1 m => m = t ∧ q ≤ hi ∧
      (∀ k, sv_mutexes s !! t = Some k → k ≠ MUnlocked → granted w j n q (rp_mac pack))
  | RqLock2 m => m = t ∧ q ≤ hi ∧
      (∀ k, sv_mutexes s !! t = Some k → k ≠ MLocked → granted w j n q (rp_mac pack))
  | RqRet => granted w j n q (rp_mac pack)
  end.

(** The update of one thread and of its server. *)
Definition upd (t : nat) (th : thread) (j : nat) (s : Server) (w : World) : World :=
  set_thread t th (set_server j s w).

Section safety.
Context (host_of : bytes → option nat).

Record Inv (w : World) : Prop := {
  inv_wf : ∀ j s, w_servers w !! j = Some s → sv_wf s;
  inv_sess : ∀ t j n pc, w_threads w !! t = Some (TSession j n pc) →
    ∃ s, w_servers w !! j = Some s ∧ session_ok s n pc;
  inv_lock : ∀ t1 t2 j n pc1 pc2,
    w_threads w !! t1 = Some (TSession j n pc1) →
    w_threads w !! t2 = Some (TSession j n pc2) →
    in_section pc1 = true → in_section pc2 = true → t1 = t2;
  inv_seq : ∀ j s n, w_servers w !! j = Some s →
    lv_myseqno (view s n) ≤ lv_highestseqno (view s n) + 1;
  inv_hdl : ∀ t j pack pc, w_threads w !! t = Some (THandler j pack pc) →
    ∃ s, w_servers w !! j = Some s ∧ handler_ok w t j s pack pc;
  inv_deff : ∀ j s n d m, w_servers w !! j = Some s →
    lv_deffered (view s n) = Some d → m ∈ d →
    ∃ pack pc, w_threads w !! m = Some (THandler j pack pc) ∧ rp_lock_number pack = n;
  inv_ack : ∀ t i n pc s k a j,
    w_threads w !! t = Some (TSession i n pc) → w_servers w !! i = Some s →
    (k < acked (length (sv_nodes s)) pc)%nat → sv_nodes s !! k = Some a →
    host_of a = Some j → granted w j n (lv_myseqno (view s n)) (sv_mac s);
  inv_call : ∀ t i n p k c s,
    w_threads w !! t = Some (TSession i n (AqCall p k c)) → w_servers w !! i = Some s →
    ∃ a j pc, sv_nodes s !! k = Some a ∧ host_of a = Some j ∧
      w_threads w !! c = Some (THandler j (mkRequestPack n (lv_myseqno (view s n)) (sv_mac s)) pc)
}.

(** ** Steps seen through the views *)

(** A session's move: a step of one of its procedures, the start or the end
    of a request call, or the start of the release. *)
Inductive sess_move (w : World) (s : Server) (n : Z)
  : session_pc → session_pc → Server → Prop :=
| sm_local pc pc' s' :
    frame n s s' → session_ptr s' n pc' →
    sess_local (sv_nodes s) pc (view s n) (sv_mutexes s) pc' (view s' n) (sv_mutexes s') →
    sess_move w s n pc pc' s'
| sm_call p i c a j' :
    sv_nodes s !! i = Some a → host_of a = Some j' →
    w_threads w !! c =
      Some (THandler j' (mkRequestPack n (lv_myseqno (view s n)) (sv_mac s)) RqFind) →
    sess_move w s n (AqLoop p i) (AqCall p i c) s
| sm_reply p i c j' pack :
    w_threads w !! c = Some (THandler j' pack RqRet) →
    sess_move w s n (AqCall p i c) (AqLoop p (S i)) s
| sm_release : sess_move w s n Held RlFind s.

Definition fresh_thread (w : World) (th : thread) : Prop :=
  match th with
  | TSession j _ pc => pc = AqFind ∧ is_Some (w_servers w !! j)
  | THandler j _ pc => pc = RqFind ∧ is_Some (w_servers w !! j)
  end.

Inductive wstep (w : World) : World → Prop :=
| ws_session t j n pc pc' s s' :
    w_threads w !! t = Some (TSession j n pc) → w_servers w !! j = Some s →
    sess_move w s n pc pc' s' →
    wstep w (upd t (TSession j n pc') j s' w)
| ws_handler t j pack pc pc' s s' :
    w_threads w !! t = Some (THandler j pack pc) → w_servers w !! j = Some s →
    frame (rp_lock_number pack) s s' → handler_ptr s' (rp_lock_number pack) pc' →
    hdl_local t (sv_mac s) pack pc (view s (rp_lock_number pack)) (sv_mutexes s)
      pc' (view s' (rp_lock_number pack)) (sv_mutexes s') →
    wstep w (upd t (THandler j pack pc') j s' w)
| ws_spawn th : fresh_thread w th → wstep w (spawn th w)
| ws_die j s : w_servers w !! j = Some s → wstep w (set_server j (set_alive false s) w).

(** ** What steps do to views *)

Lemma sess_local_highest nodes pc v h pc' v' h' :
  sess_local nodes pc v h pc' v' h' → lv_highestseqno v' = lv_highestseqno v.
Proof. by inversion 1. Qed.

Lemma sess_local_requesting nodes pc v h pc' v' h' :
  sess_local nodes pc v h pc' v' h' → lv_requesting_cs v = true → lv_requesting_cs v' = true.
Proof. by inversion 1. Qed.

Lemma hdl_local_keeps t mac pack pc v h pc' v' h' :
  hdl_local t mac pack pc v h pc' v' h' →
  lv_myseqno v' = lv_myseqno v ∧ lv_lock v' = lv_lock v ∧
  lv_requesting_cs v' = lv_requesting_cs v.
Proof. by inversion 1. Qed.

(** The own variable of a moving session. *)
Lemma sess_move_frame w s n pc pc' s' :
  sv_wf s → session_ptr s n pc → sess_move w s n pc pc' s' →
  frame n s s' ∧ session_ptr s' n pc' ∧
  lv_highestseqno (view s' n) = lv_highestseqno (view s n) ∧
  (lv_requesting_cs (view s n) = true → lv_requesting_cs (view s' n) = true).
Proof.
  intros Hwf Hp. destruct 1; simpl in *; split_and!; try done; try by apply frame_refl.
  - by eapply sess_local_highest.
  - by eapply sess_local_requesting.
Qed.

Lemma sess_local_section nodes pc v h pc' v' h' :
  sess_local nodes pc v h pc' v' h' → in_section pc' = true →
  (in_section pc = true ∧ lv_lock v' = lv_lock v) ∨ (lv_lock v = false ∧ lv_lock v' = true).
Proof. inversion 1; simplify_eq/=; auto; done. Qed.

(** A session in its section after a move was there before or found the
    mutex free. *)
Lemma sess_move_section w s n pc pc' s' :
  sess_move w s n pc pc' s' → in_section pc' = true →
  (in_section pc = true ∧ lv_lock (view s' n) = lv_lock (view s n)) ∨
  (lv_lock (view s n) = false ∧ lv_lock (view s' n) = true).
Proof.
  destruct 1 as [pc pc' s' _ _ Hl| | |]; [|by left..]. by eapply sess_local_section.
Qed.

(** Releasing the mutex needs to own it. *)
Lemma sess_local_unlock nodes pc v h pc' v' h' :
  sess_local nodes pc v h pc' v' h' → lv_lock v = true →
  lv_lock v' = true ∨ (in_section pc = true ∧ in_section pc' = false).
Proof. inversion 1; simplify_eq/=; auto. Qed.

Lemma sess_move_unlock w s n pc pc' s' :
  sess_move w s n pc pc' s' → lv_lock (view s n) = true →
  lv_lock (view s' n) = true ∨ (in_section pc = true ∧ in_section pc' = false).
Proof.
  destruct 1 as [pc pc' s' _ _ Hl| | |]; [|by left..]. by eapply sess_local_unlock.
Qed.

(** [myseqno] is written by the owner of the mutex only, to the number of its
    attempt. *)
Lemma sess_local_myseqno nodes pc v h pc' v' h' :
  sess_local nodes pc v h pc' v' h' →
  lv_myseqno v' = lv_myseqno v ∨
  ∃ p z, pc = AqWriteSeqno p z ∧ pc' = AqLoop p 0 ∧ lv_myseqno v' = z + 1.
Proof. inversion 1; simplify_eq/=; auto. right; eauto. Qed.

Lemma sess_move_myseqno w s n pc pc' s' :
  sess_move w s n pc pc' s' →
  lv_myseqno (view s' n) = lv_myseqno (view s n) ∨
  ∃ p z, pc = AqWriteSeqno p z ∧ pc' = AqLoop p 0 ∧ lv_myseqno (view s' n) = z + 1.
Proof.
  destruct 1 as [pc pc' s' _ _ Hl| | |]; [|by left..]. by eapply sess_local_myseqno.
Qed.

(** An attempt keeps its number; a new one exceeds [highestseqno]. *)
Lemma sess_local_attempt nodes pc v h pc' v' h' z :
  sess_local nodes pc v h pc' v' h' → attempt pc' v' = Some z →
  attempt pc v = Some z ∨ lv_highestseqno v < z.
Proof. inversion 1; simplify_eq/=; intros; simplify_eq; auto. right. lia. Qed.

Lemma sess_move_attempt w s n pc pc' s' z :
  sess_move w s n pc pc' s' → attempt pc' (view s' n) = Some z →
  attempt pc (view s n) = Some z ∨ lv_highestseqno (view s n) < z.
Proof.
  destruct 1 as [pc pc' s' _ _ Hl| | |]; [|by auto..]. by eapply sess_local_attempt.
Qed.

Lemma attempt_section pc v z : attempt pc v = Some z → in_section pc = true.
Proof. by destruct pc. Qed.

Lemma attempt_requesting pc v z : attempt pc v = Some z → past_requesting pc = true.
Proof. by destruct pc. Qed.

Lemma attempt_view pc v v' z :
  lv_myseqno v' = lv_myseqno v → attempt pc v' = Some z → attempt pc v = Some z.
Proof. intros Heq. destruct pc; simpl; congruence. Qed.

(** ** Lookup in updated worlds *)

Lemma set_thread_lookup t th w t' th' :
  w_threads (set_thread t th w) !! t' = Some th' →
  (t' = t ∧ th' = th) ∨ (t' ≠ t ∧ w_threads w !! t' = Some th').
Proof.
  simpl. intros Hl%list_lookup_insert_Some. naive_solver.
Qed.

Lemma set_server_lookup j s w j' s' :
  w_servers (set_server j s w) !! j' = Some s' →
  (j' = j ∧ s' = s) ∨ (j' ≠ j ∧ w_servers w !! j' = Some s').
Proof.
  simpl. intros Hl%list_lookup_insert_Some. naive_solver.
Qed.

(** Servers evolve: nodes and MAC addresses stay, [highestseqno] grows. *)
Definition servers_evolve (w w' : World) : Prop :=
  ∀ j s, w_servers w !! j = Some s → ∃ s', w_servers w' !! j = Some s' ∧
    sv_nodes s' = sv_nodes s ∧ sv_mac s' = sv_mac s ∧
    ∀ n, lv_highestseqno (view s n) ≤ lv_highestseqno (view s' n).

(** Every attempt after the step was one before it, or is newer than all
    requests its node had seen. *)
Definition attempts_evolve (w w' : World) : Prop :=
  ∀ t j n pc' s s' z, w_threads w' !! t = Some (TSession j n pc') →
    w_servers w !! j = Some s → w_servers w' !! j = Some s' →
    attempt pc' (view s' n) = Some z →
    (∃ pc, w_threads w !! t = Some (TSession j n pc) ∧ attempt pc (view s n) = Some z) ∨
    lv_highestseqno (view s n) < z.

Lemma granted_evolves w w' j n q m :
  servers_evolve w w' → attempts_evolve w w' → granted w j n q m → granted w' j n q m.
Proof.
  intros Hs Ha (s & Hj & Hq & Hc). destruct (Hs j s Hj) as (s' & Hj' & _ & Hmac & Hhi).
  exists s'. split_and!; [done|etrans; [done|apply Hhi]|].
  intros t pc z Ht Hz. rewrite Hmac.
  destruct (Ha t j n pc s s' z Ht Hj Hj' Hz) as [(pc0 & Ht0 & Hz0)|Hlt].
  - by eapply Hc.
  - left. simpl. lia.
Qed.

Lemma upd_thread_eq t th th0 j s w :
  w_threads w !! t = Some th0 → w_threads (upd t th j s w) !! t = Some th.
Proof. intros Ht. simpl. apply list_lookup_insert_eq. by eapply lookup_lt_Some. Qed.

Lemma upd_thread_ne t th j s w t' :
  t' ≠ t → w_threads (upd t th j s w) !! t' = w_threads w !! t'.
Proof. intros Hne. simpl. by apply list_lookup_insert_ne. Qed.

Lemma upd_server_eq t th j s s0 w :
  w_servers w !! j = Some s0 → w_servers (upd t th j s w) !! j = Some s.
Proof. intros Hj. simpl. apply list_lookup_insert_eq. by eapply lookup_lt_Some. Qed.

Lemma upd_server_ne t th j s w j' :
  j' ≠ j → w_servers (upd t th j s w) !! j' = w_servers w !! j'.
Proof. intros Hne. simpl. by apply list_lookup_insert_ne. Qed.

Lemma upd_thread_inv t th j s w t' th' :
  w_threads (upd t th j s w) !! t' = Some th' →
  (t' = t ∧ th' = th) ∨ (t' ≠ t ∧ w_threads w !! t' = Some th').
Proof. exact (set_thread_lookup t th (set_server j s w) t' th'). Qed.

Lemma upd_server_inv t th j s w j' s' :
  w_servers (upd t th j s w) !! j' = Some s' →
  (j' = j ∧ s' = s) ∨ (j' ≠ j ∧ w_servers w !! j' = Some s').
Proof. exact (set_server_lookup j s w j' s'). Qed.

(** All views of a server after a step for lock [n], given the one of [n]. *)
Lemma frame_views (P : Z → LockVar → LockVar → Prop) n s s' :
  frame n s s' → (∀ n', P n' (view s n') (view s n')) → P n (view s n) (view s' n) →
  ∀ n', P n' (view s n') (view s' n').
Proof.
  intros Hf Hrefl Hn n'. destruct (decide (n' = n)) as [->|Hne]; [done|].
  by rewrite (fr_other _ _ _ Hf n' Hne).
Qed.

Lemma upd_servers_evolve t th j s s' n w :
  w_servers w !! j = Some s → frame n s s' →
  lv_highestseqno (view s n) ≤ lv_highestseqno (view s' n) →
  servers_evolve w (upd t th j s' w).
Proof.
  intros Hj Hf Hhi j0 s0 Hj0. destruct (decide (j0 = j)) as [->|Hne].
  - assert (s0 = s) as -> by congruence. exists s'. rewrite (upd_server_eq _ _ _ _ s) by done.
    split_and!; [done|by eapply fr_nodes|by eapply fr_mac|].
    by apply (frame_views (λ _ v v', lv_highestseqno v ≤ lv_highestseqno v') n).
  - exists s0. by rewrite upd_server_ne.
Qed.

(** The handler of line 170 only raises [highestseqno]. *)
Lemma handler_highest w t j s pack pc pc' s' :
  handler_ok w t j s pack pc →
  hdl_local t (sv_mac s) pack pc (view s (rp_lock_number pack)) (sv_mutexes s)
    pc' (view s' (rp_lock_number pack)) (sv_mutexes s') →
  lv_highestseqno (view s (rp_lock_number pack)) ≤ lv_highestseqno (view s' (rp_lock_number pack)).
Proof.
  intros [_ Hok] Hl. destruct pc; inversion Hl; simpl in *; try done; try lia;
    repeat match goal with H : _ = view s' _ |- _ => rewrite <-H end; simpl; lia.
Qed.

Lemma wstep_evolves w w' :
  Inv w → wstep w w' → servers_evolve w w' ∧ attempts_evolve w w'.
Proof.
  intros HI. destruct 1 as [t j n pc pc' s s' Ht Hj Hm|t j pack pc pc' s s' Ht Hj Hf Hp Hl|th Hth|j s Hj].
  - destruct (inv_sess _ HI _ _ _ _ Ht) as (s0 & Hs0 & Hok). simplify_eq.
    destruct (sess_move_frame _ _ _ _ _ _ (inv_wf _ HI _ _ Hj) (proj1 Hok) Hm) as (Hf & Hp & Hhi & _).
    split; [eapply (upd_servers_evolve _ _ _ s); [done|done|by rewrite Hhi]|].
    intros t0 j0 n0 pc0 s0 s0' z Ht0 Hj0 Hj0' Hz.
    apply upd_thread_inv in Ht0 as [[-> [= -> -> ->]]|[Hne Ht0]].
    + rewrite (upd_server_eq _ _ _ _ s) in Hj0' by done. simplify_eq.
      destruct (sess_move_attempt _ _ _ _ _ _ _ Hm Hz); eauto.
    + left. exists pc0. split; [done|]. apply upd_server_inv in Hj0' as [[-> ->]|[??]];
        [|by simplify_eq]. simplify_eq.
      destruct (decide (n0 = n)) as [->|Hn]; [|by rewrite <-(fr_other _ _ _ Hf)].
      destruct (sess_move_myseqno _ _ _ _ _ _ Hm) as [Heq|(p & z' & -> & -> & _)];
        [by eapply attempt_view|].
      destruct Hne. eapply (inv_lock _ HI); [done..|by eapply attempt_section|done].
  - destruct (inv_hdl _ HI _ _ _ _ Ht) as (s0 & Hs0 & Hok). simplify_eq.
    destruct (hdl_local_keeps _ _ _ _ _ _ _ _ _ Hl) as (Hmy & _ & _).
    split; [eapply (upd_servers_evolve _ _ _ s); [done|done|by eapply handler_highest]|].
    intros t0 j0 n0 pc0 s0 s0' z Ht0 Hj0 Hj0' Hz.
    apply upd_thread_inv in Ht0 as [[-> ?]|[Hne Ht0]]; [done|].
    left. exists pc0. split; [done|]. apply upd_server_inv in Hj0' as [[-> ->]|[??]];
      [|by simplify_eq]. simplify_eq. eapply attempt_view; [|done].
    by apply (frame_views (λ _ v v', lv_myseqno v' = lv_myseqno v) _ _ _ Hf).
  - split; [intros j s Hj; exists s; done|].
    intros t0 j0 n0 pc0 s0 s0' z Ht0 Hj0 Hj0' Hz. simpl in *. simplify_eq.
    apply lookup_snoc_Some in Ht0 as [Ht0|[-> ->]]; [eauto|].
    destruct Hth as [-> _]. done.
  - split.
    + intros j0 s0 Hj0. destruct (decide (j0 = j)) as [->|Hne].
      * assert (s0 = s) as -> by congruence. exists (set_alive false s). simpl.
        rewrite list_lookup_insert_eq by (by eapply lookup_lt_Some). done.
      * exists s0. simpl. by rewrite list_lookup_insert_ne.
    + intros t0 j0 n0 pc0 s0 s0' z Ht0 Hj0 Hj0' Hz. left. exists pc0. split; [done|].
      apply set_server_lookup in Hj0' as [[-> ->]|[??]]; by simplify_eq.
Qed.

(** ** Preservation, field by field *)

Lemma sess_local_past nodes pc v h pc' v' h' :
  sess_local nodes pc v h pc' v' h' → past_requesting pc' = true →
  past_requesting pc = true ∨ lv_requesting_cs v' = true.
Proof. inversion 1; simplify_eq/=; auto. Qed.

Lemma sess_move_past w s n pc pc' s' :
  sess_move w s n pc pc' s' → past_requesting pc' = true →
  past_requesting pc = true ∨ lv_requesting_cs (view s' n) = true.
Proof. destruct 1 as [pc pc' s' _ _ Hl| | |]; [|by left..]. by eapply sess_local_past. Qed.

Lemma sess_local_write nodes pc v h p z v' h' :
  sess_local nodes pc v h (AqWriteSeqno p z) v' h' → z = lv_highestseqno v ∧ v' = v.
Proof. by inversion 1. Qed.

Lemma hdl_local_highest t mac pack pc v h pc' v' h' :
  hdl_local t mac pack pc v h pc' v' h' →
  lv_highestseqno v' = lv_highestseqno v ∨
  ∃ p z, pc = RqWriteMax p z ∧ pc' = RqTest1 p ∧ lv_highestseqno v' = z.
Proof. inversion 1; simplify_eq/=; auto; right; eauto. Qed.

(** The mover's own invariant. *)
Lemma session_ok_move w s n pc pc' s' :
  sv_wf s → lv_myseqno (view s n) ≤ lv_highestseqno (view s n) + 1 →
  session_ok s n pc → sess_move w s n pc pc' s' → session_ok s' n pc'.
Proof.
  intros Hwf Hseq (Hp & Hl & Hr & Hw) Hm.
  destruct (sess_move_frame _ _ _ _ _ _ Hwf Hp Hm) as (Hf & Hp' & Hhi & Hreq).
  split_and!; [done|..].
  - intros Hs. destruct (sess_move_section _ _ _ _ _ _ Hm Hs) as [[Hi ->]|[_ ?]]; auto.
  - intros Hs. destruct (sess_move_past _ _ _ _ _ _ Hm Hs); auto.
  - destruct pc' as [| | | |p z| | | | | | | | | | |]; try done.
    inversion Hm as [?? ? _ _ Hloc| | |]; subst.
    apply sess_local_write in Hloc as [-> ->]. lia.
Qed.

(** Another session of the node, when the mover's step spares what it
    relies on. *)
Lemma session_ok_other n0 pc0 s s' n :
  frame n s s' → session_ok s n0 pc0 →
  (n0 = n → in_section pc0 = true → lv_lock (view s' n) = true ∧
     lv_myseqno (view s' n) = lv_myseqno (view s n)) →
  (lv_requesting_cs (view s n) = true → lv_requesting_cs (view s' n) = true) →
  lv_highestseqno (view s n) ≤ lv_highestseqno (view s' n) →
  session_ok s' n0 pc0.
Proof.
  intros Hf (Hp & Hl & Hr & Hw) Hsec Hreq Hhi.
  assert (session_ptr s' n0 pc0) as Hp'.
  { destruct pc0; simpl in *; try done; by eapply fr_ptr. }
  destruct (decide (n0 = n)) as [->|Hne].
  - split_and!; [done|..].
    + intros Hs. by apply Hsec.
    + auto.
    + destruct pc0; try done. destruct Hsec as [_ ->]; [done..|]. lia.
  - unfold session_ok. by rewrite (fr_other _ _ _ Hf).
Qed.

(** While the mover runs, what sessions in their section rely on changes
    only by their own steps. *)
Lemma move_spares w t j n pc pc' s s' t0 pc0 :
  Inv w → w_threads w !! t = Some (TSession j n pc) → w_servers w !! j = Some s →
  sess_move w s n pc pc' s' → t0 ≠ t → w_threads w !! t0 = Some (TSession j n pc0) →
  in_section pc0 = true →
  lv_lock (view s' n) = true ∧ lv_myseqno (view s' n) = lv_myseqno (view s n).
Proof.
  intros HI Ht Hj Hm Hne Ht0 Hs0.
  assert (in_section pc = true → False) as Hout.
  { intros Hs. destruct Hne. by eapply (inv_lock _ HI). }
  destruct (inv_sess _ HI _ _ _ _ Ht0) as (s1 & Hj1 & (_ & Hl & _)). simplify_eq. split.
  - destruct (sess_move_unlock _ _ _ _ _ _ Hm (Hl Hs0)) as [?|[? _]]; [done|]. by exfalso.
  - destruct (sess_move_myseqno _ _ _ _ _ _ Hm) as [?|(p & z & -> & _)]; [done|]. by exfalso.
Qed.

Lemma wstep_wf w w' j s' :
  Inv w → wstep w w' → w_servers w' !! j = Some s' → sv_wf s'.
Proof.
  intros HI Hw Hj'.
  destruct Hw as [t j0 n pc pc' s s0 Ht Hj Hm|t j0 pack pc pc' s s0 Ht Hj Hf Hp Hl|th Hth|j0 s Hj].
  - destruct (inv_sess _ HI _ _ _ _ Ht) as (s1 & Hs1 & Hok). simplify_eq.
    destruct (sess_move_frame _ _ _ _ _ _ (inv_wf _ HI _ _ Hj) (proj1 Hok) Hm) as (Hf & _).
    apply upd_server_inv in Hj' as [[_ ->]|[_ ?]]; [by eapply fr_wf|by eapply inv_wf].
  - apply upd_server_inv in Hj' as [[_ ->]|[_ ?]]; [by eapply fr_wf|by eapply inv_wf].
  - by eapply inv_wf.
  - apply set_server_lookup in Hj' as [[_ ->]|[_ ?]]; [|by eapply inv_wf].
    exact (inv_wf _ HI _ _ Hj).
Qed.

Lemma wstep_sess w w' t0 j0 n0 pc0 :
  Inv w → wstep w w' → w_threads w' !! t0 = Some (TSession j0 n0 pc0) →
  ∃ s, w_servers w' !! j0 = Some s ∧ session_ok s n0 pc0.
Proof.
  intros HI Hw Ht0.
  destruct Hw as [t j n pc pc' s s' Ht Hj Hm|t j pack pc pc' s s' Ht Hj Hf Hp Hl|th Hth|j s Hj].
  - destruct (inv_sess _ HI _ _ _ _ Ht) as (s1 & Hs1 & Hok).
    assert (s1 = s) as -> by congruence. pose proof (inv_wf _ HI _ _ Hj) as Hwf.
    destruct (sess_move_frame _ _ _ _ _ _ Hwf (proj1 Hok) Hm) as (Hf & _ & Hhi & Hreq).
    apply upd_thread_inv in Ht0 as [[-> [= -> -> ->]]|[Hne Ht0]].
    + exists s'. rewrite (upd_server_eq _ _ _ _ s) by done. split; [done|].
      eapply session_ok_move; [done|by eapply inv_seq|done..].
    + destruct (inv_sess _ HI _ _ _ _ Ht0) as (s2 & Hs2 & Hok0).
      destruct (decide (j0 = j)) as [->|Hj0]; [|exists s2; by rewrite upd_server_ne].
      assert (s2 = s) as -> by congruence.
      exists s'. rewrite (upd_server_eq _ _ _ _ s) by done. split; [done|].
      eapply session_ok_other; [done|done| |done|lia].
      intros -> Hs0. by apply (move_spares w t j n pc pc' s s' t0 pc0).
  - destruct (hdl_local_keeps _ _ _ _ _ _ _ _ _ Hl) as (Hmy & Hlk & Hrq).
    destruct (inv_hdl _ HI _ _ _ _ Ht) as (s1 & Hs1 & Hokh).
    assert (s1 = s) as -> by congruence.
    apply upd_thread_inv in Ht0 as [[-> ?]|[Hne Ht0]]; [done|].
    destruct (inv_sess _ HI _ _ _ _ Ht0) as (s2 & Hs2 & Hok0).
    destruct (decide (j0 = j)) as [->|Hj0]; [|exists s2; by rewrite upd_server_ne].
    assert (s2 = s) as -> by congruence.
    exists s'. rewrite (upd_server_eq _ _ _ _ s) by done. split; [done|].
    eapply session_ok_other; [done|done| |by rewrite Hrq|by eapply handler_highest].
    intros -> Hs0. rewrite Hlk. split; [|done]. by apply Hok0.
  - simpl in *. apply lookup_snoc_Some in Ht0 as [Ht0|[-> ->]]; [by eapply inv_sess|].
    destruct Hth as [-> [s Hs]]. exists s. done.
  - destruct (inv_sess _ HI _ _ _ _ Ht0) as (s1 & Hs1 & Hok0).
    destruct (decide (j0 = j)) as [->|Hj0]; simpl.
    + assert (s1 = s) as -> by congruence. exists (set_alive false s).
      rewrite list_lookup_insert_eq by (by eapply lookup_lt_Some). done.
    + exists s1. by rewrite list_lookup_insert_ne.
Qed.

Lemma move_lock w t j n pc pc' s s' t2 pc2 :
  Inv w → w_threads w !! t = Some (TSession j n pc) → w_servers w !! j = Some s →
  sess_move w s n pc pc' s' → w_threads w !! t2 = Some (TSession j n pc2) →
  in_section pc' = true → in_section pc2 = true → t = t2.
Proof.
  intros HI Ht Hj Hm Ht2 Hs Hs2.
  destruct (sess_move_section _ _ _ _ _ _ Hm Hs) as [[Hs' _]|[Hfree _]].
  - by eapply (inv_lock _ HI).
  - destruct (inv_sess _ HI _ _ _ _ Ht2) as (s1 & Hs1 & (_ & Hl & _)).
    assert (s1 = s) as -> by congruence. rewrite Hl in Hfree; done.
Qed.

Lemma wstep_lock w w' t1 t2 j0 n0 pc1 pc2 :
  Inv w → wstep w w' →
  w_threads w' !! t1 = Some (TSession j0 n0 pc1) →
  w_threads w' !! t2 = Some (TSession j0 n0 pc2) →
  in_section pc1 = true → in_section pc2 = true → t1 = t2.
Proof.
  intros HI Hw Ht1 Ht2 Hs1 Hs2.
  destruct Hw as [t j n pc pc' s s' Ht Hj Hm|t j pack pc pc' s s' Ht Hj Hf Hp Hl|th Hth|j s Hj].
  - apply upd_thread_inv in Ht1 as [[-> [= -> -> ->]]|[Hne1 Ht1]],
      Ht2 as [[-> Heq2]|[Hne2 Ht2]]; simplify_eq; try done.
    + by eapply move_lock.
    + symmetry. by eapply move_lock.
    + by eapply (inv_lock _ HI).
  - apply upd_thread_inv in Ht1 as [[-> ?]|[Hne1 Ht1]], Ht2 as [[-> ?]|[Hne2 Ht2]];
      simplify_eq. by eapply (inv_lock _ HI).
  - simpl in *. apply lookup_snoc_Some in Ht1 as [Ht1|[-> ->]]; [|by destruct Hth as [-> _]].
    apply lookup_snoc_Some in Ht2 as [Ht2|[-> ->]]; [|by destruct Hth as [-> _]].
    by eapply (inv_lock _ HI).
  - by eapply (inv_lock _ HI).
Qed.

Lemma wstep_seq w w' j0 s0 n0 :
  Inv w → wstep w w' → w_servers w' !! j0 = Some s0 →
  lv_myseqno (view s0 n0) ≤ lv_highestseqno (view s0 n0) + 1.
Proof.
  intros HI Hw Hj0.
  destruct Hw as [t j n pc pc' s s' Ht Hj Hm|t j pack pc pc' s s' Ht Hj Hf Hp Hl|th Hth|j s Hj].
  - destruct (inv_sess _ HI _ _ _ _ Ht) as (s1 & Hs1 & Hok).
    assert (s1 = s) as -> by congruence. pose proof (inv_wf _ HI _ _ Hj) as Hwf.
    destruct (sess_move_frame _ _ _ _ _ _ Hwf (proj1 Hok) Hm) as (Hf & _ & Hhi & _).
    apply upd_server_inv in Hj0 as [[-> ->]|[Hne Hj0]]; [|by eapply inv_seq].
    pose proof (inv_seq _ HI _ _ n0 Hj) as Hold.
    destruct (decide (n0 = n)) as [->|Hn]; [|by rewrite (fr_other _ _ _ Hf)].
    destruct (sess_move_myseqno _ _ _ _ _ _ Hm) as [->|(p & z & -> & _ & ->)]; [lia|].
    destruct Hok as (_ & _ & _ & Hz & _). lia.
  - destruct (hdl_local_keeps _ _ _ _ _ _ _ _ _ Hl) as (Hmy & _ & _).
    destruct (inv_hdl _ HI _ _ _ _ Ht) as (s1 & Hs1 & Hokh).
    assert (s1 = s) as -> by congruence.
    pose proof (handler_highest _ _ _ _ _ _ _ _ Hokh Hl) as Hhi.
    apply upd_server_inv in Hj0 as [[-> ->]|[Hne Hj0]]; [|by eapply inv_seq].
    pose proof (inv_seq _ HI _ _ n0 Hj) as Hold.
    destruct (decide (n0 = rp_lock_number pack)) as [->|Hn]; [lia|].
    by rewrite (fr_other _ _ _ Hf).
  - by eapply inv_seq.
  - apply set_server_lookup in Hj0 as [[-> ->]|[Hne Hj0]]; [|by eapply inv_seq].
    exact (inv_seq _ HI _ _ n0 Hj).
Qed.

(** A session touches only mutexes of its lock's [deffered] array, and only
    while it releases. *)
Lemma sess_local_mutex nodes pc v h pc' v' h' :
  sess_local nodes pc v h pc' v' h' →
  h' = h ∨ ∃ d m k, lv_deffered v = Some d ∧ m ∈ d ∧ h' = <[m := k]> h ∧
    in_section pc = true ∧ ∀ u, attempt pc u = None.
Proof.
  inversion 1; simplify_eq/=; auto; right; do 3 eexists;
    (split; [eassumption|]); (split; [by eapply list_elem_of_lookup_2|]); done.
Qed.

Lemma hdl_local_mutex t mac pack pc v h pc' v' h' :
  hdl_local t mac pack pc v h pc' v' h' →
  h' = h ∨ ∃ m k, h' = <[m := k]> h ∧
    (m = t ∨ pc = RqLock1 m ∨ pc = RqLock2 m).
Proof. inversion 1; simplify_eq/=; eauto 10. Qed.

(** While a session of lock [n] releases, no attempt for [n] is under way on
    its node, so every request that has been seen may go first. *)
Lemma release_grants w t j n pc s q m :
  Inv w → w_threads w !! t = Some (TSession j n pc) → w_servers w !! j = Some s →
  in_section pc = true → (∀ u, attempt pc u = None) →
  q ≤ lv_highestseqno (view s n) → granted w j n q m.
Proof.
  intros HI Ht Hj Hs Ha Hq. exists s. split_and!; [done..|].
  intros t0 pc0 z Ht0 Hz.
  assert (t0 = t) as -> by (eapply (inv_lock _ HI); [done..|by eapply attempt_section|done]).
  simplify_eq. by rewrite Ha in Hz.
Qed.

Lemma handler_ok_other w w' t0 j0 pack pc s s' :
  let n := rp_lock_number pack in
  (∀ q m, granted w j0 n q m → granted w' j0 n q m) →
  (∀ p, ptr s n p → ptr s' n p) →
  lv_highestseqno (view s n) ≤ lv_highestseqno (view s' n) →
  lv_myseqno (view s n) ≤ lv_myseqno (view s' n) →
  (∀ p z, pc = RqWriteMax p z → lv_highestseqno (view s' n) = lv_highestseqno (view s n)) →
  (sv_mutexes s' !! t0 = sv_mutexes s !! t0 ∨
   (rp_seqno pack ≤ lv_highestseqno (view s n) →
    granted w' j0 n (rp_seqno pack) (rp_mac pack))) →
  handler_ok w t0 j0 s pack pc → handler_ok w' t0 j0 s' pack pc.
Proof.
  intros n Hg Hptr Hhi Hmy Hmax Hmut [Hp Hok]. split.
  - destruct pc; simpl in *; try done; by apply Hptr.
  - fold n in Hp, Hok |- *. destruct pc; simpl in *; try done; try lia.
    + by rewrite (Hmax p z).
    + destruct Hok as (-> & Hq & Hd). split_and!; [done|lia|].
      destruct Hmut as [->|?]; eauto.
    + destruct Hok as (-> & Hq & Hd). split_and!; [done|lia|].
      destruct Hmut as [->|?]; eauto.
    + destruct Hok as (-> & Hq & Hd). split_and!; [done|lia|].
      destruct Hmut as [->|?]; eauto.
    + auto.
Qed.

(** The handler's decision to reply: nobody on the node is requesting. *)
Lemma idle_grants w j s n q m :
  Inv w → w_servers w !! j = Some s → lv_requesting_cs (view s n) = false →
  q ≤ lv_highestseqno (view s n) → granted w j n q m.
Proof.
  intros HI Hj Hr Hq. exists s. split_and!; [done..|].
  intros t pc z Ht Hz. destruct (inv_sess _ HI _ _ _ _ Ht) as (s1 & Hs1 & (_ & _ & Hreq & _)).
  assert (s1 = s) as -> by congruence.
  rewrite Hreq in Hr; [done|by eapply attempt_requesting].
Qed.

(** The handler's decision to reply: the request has priority. *)
Lemma priority_grants w j s n q m :
  Inv w → w_servers w !! j = Some s →
  q ≤ lv_highestseqno (view s n) → q ≤ lv_myseqno (view s n) →
  ¬ (q = lv_myseqno (view s n) ∧ sv_mac s < m) → granted w j n q m.
Proof.
  intros HI Hj Hq Hmy Hnot. exists s. split_and!; [done..|].
  intros t pc z Ht Hz. destruct (inv_sess _ HI _ _ _ _ Ht) as (s1 & Hs1 & (_ & _ & _ & Hw)).
  assert (s1 = s) as -> by congruence. unfold lexle. simpl.
  assert (lv_myseqno (view s n) ≤ z); [|lia].
  destruct pc; simplify_eq/=; lia.
Qed.

(** The moving handler. *)
Lemma handler_ok_move w w' t j pack pc pc' s s' :
  Inv w → w_servers w !! j = Some s →
  (∀ q m, granted w j (rp_lock_number pack) q m → granted w' j (rp_lock_number pack) q m) →
  handler_ptr s' (rp_lock_number pack) pc' →
  hdl_local t (sv_mac s) pack pc (view s (rp_lock_number pack)) (sv_mutexes s)
    pc' (view s' (rp_lock_number pack)) (sv_mutexes s') →
  handler_ok w t j s pack pc → handler_ok w' t j s' pack pc'.
Proof.
  intros HI Hj Hg Hp' Hl [_ Hok]. split; [done|]. clear Hp'.
  pose proof (idle_grants w j s (rp_lock_number pack) (rp_seqno pack) (rp_mac pack) HI Hj) as Hidle.
  pose proof (priority_grants w j s (rp_lock_number pack) (rp_seqno pack) (rp_mac pack) HI Hj) as Hprio.
  remember (view s (rp_lock_number pack)) as v eqn:Hv. clear Hv.
  remember (view s' (rp_lock_number pack)) as v' eqn:Hv'. clear Hv'.
  remember (sv_mutexes s) as h eqn:Hh. clear Hh.
  remember (sv_mutexes s') as h' eqn:Hh'. clear Hh'.
  destruct Hl; simpl in *; auto; try lia.
  - apply Hg, Hprio; tauto.
  - split_and!; [done..|]. rewrite lookup_insert_eq. by intros k [= <-].
  - destruct Hok as (-> & Hq & Hd). split_and!; [done..|]. eauto.
  - destruct Hok as (-> & Hq & Hd). split_and!; [done..|]. intros k2. rewrite lookup_insert_eq.
    intros [= <-] Hne. apply Hg, (Hd k); [done|]. intros ->. by simplify_eq/=.
  - destruct Hok as (-> & Hq & Hd). apply Hg, (Hd k); [done|]. by destruct k.
Qed.

Lemma sess_move_mutex w s n pc pc' s' :
  sess_move w s n pc pc' s' →
  sv_mutexes s' = sv_mutexes s ∨
  ∃ d m k, lv_deffered (view s n) = Some d ∧ m ∈ d ∧
    sv_mutexes s' = <[m := k]> (sv_mutexes s) ∧ in_section pc = true ∧
    ∀ u, attempt pc u = None.
Proof. destruct 1 as [pc pc' s' _ _ Hl| | |]; [|by left..]. by eapply sess_local_mutex. Qed.

(** What a session's step does to the mutex of a handler: nothing, or the
    handler's request may go first. *)
Lemma move_mutex w t j n pc pc' s s' t0 pack pc0 :
  Inv w → w_threads w !! t = Some (TSession j n pc) → w_servers w !! j = Some s →
  sess_move w s n pc pc' s' → w_threads w !! t0 = Some (THandler j pack pc0) →
  sv_mutexes s' !! t0 = sv_mutexes s !! t0 ∨
  (rp_seqno pack ≤ lv_highestseqno (view s (rp_lock_number pack)) →
   granted w j (rp_lock_number pack) (rp_seqno pack) (rp_mac pack)).
Proof.
  intros HI Ht Hj Hm Ht0.
  destruct (sess_move_mutex _ _ _ _ _ _ Hm) as [->|(d & m & k & Hd & Hin & -> & Hs & Ha)]; [by left|].
  destruct (decide (m = t0)) as [->|Hne]; [|left; by apply lookup_insert_ne].
  right. intros Hq.
  destruct (inv_deff _ HI _ _ _ _ _ Hj Hd Hin) as (pack' & pc1 & Ht1 & <-). simplify_eq.
  by eapply release_grants.
Qed.

(** A handler's step leaves the mutexes of the others alone. *)
Lemma handler_mutex w t j pack pc pc' s s' v v' t0 :
  handler_ok w t j s pack pc → t0 ≠ t →
  hdl_local t (sv_mac s) pack pc v (sv_mutexes s) pc' v' (sv_mutexes s') →
  sv_mutexes s' !! t0 = sv_mutexes s !! t0.
Proof.
  intros [_ Hok] Hne Hl.
  destruct (hdl_local_mutex _ _ _ _ _ _ _ _ _ Hl) as [->|(m & k & -> & Hm)]; [done|].
  apply lookup_insert_ne. intros ->. destruct Hm as [?|[->| ->]]; [done| |]; by destruct Hok.
Qed.

(** Handlers under a session's step. *)
Lemma handler_ok_session w w' t j n pc pc' s s' t0 pack pc0 :
  Inv w → w_threads w !! t = Some (TSession j n pc) → w_servers w !! j = Some s →
  sess_move w s n pc pc' s' → w_threads w !! t0 = Some (THandler j pack pc0) →
  (∀ q m, granted w j (rp_lock_number pack) q m → granted w' j (rp_lock_number pack) q m) →
  handler_ok w t0 j s pack pc0 → handler_ok w' t0 j s' pack pc0.
Proof.
  intros HI Ht Hj Hm Ht0 Hgr Hok0.
  destruct (inv_sess _ HI _ _ _ _ Ht) as (s1 & Hs1 & Hok).
  assert (s1 = s) as -> by congruence. pose proof (inv_wf _ HI _ _ Hj) as Hwf.
  destruct (sess_move_frame _ _ _ _ _ _ Hwf (proj1 Hok) Hm) as (Hf & _ & Hhi & _).
  assert (∀ n0, lv_highestseqno (view s' n0) = lv_highestseqno (view s n0)) as Hhi'.
  { by apply (frame_views (λ _ v v', lv_highestseqno v' = lv_highestseqno v) n). }
  eapply (handler_ok_other w); [done|intros p; by eapply fr_ptr|by rewrite Hhi'| | | |done].
  - apply (frame_views (λ _ v v', lv_myseqno v ≤ lv_myseqno v') n s s' Hf); [done|].
    destruct (sess_move_myseqno _ _ _ _ _ _ Hm) as [->|(p & z & -> & _ & ->)]; [done|].
    by destruct Hok as (_ & _ & _ & _ & ?).
  - intros. apply Hhi'.
  - destruct (move_mutex w t j n pc pc' s s' t0 pack pc0) as [?|?]; auto.
Qed.

(** Handlers under the step of another handler; this is where line 170 must
    not be interleaved with itself. *)
Lemma handler_ok_handler w w' t j pack pc pc' s s' t0 pack0 pc0 :
  Inv w → max_exclusive w →
  w_threads w !! t = Some (THandler j pack pc) → w_servers w !! j = Some s →
  frame (rp_lock_number pack) s s' →
  hdl_local t (sv_mac s) pack pc (view s (rp_lock_number pack)) (sv_mutexes s)
    pc' (view s' (rp_lock_number pack)) (sv_mutexes s') →
  handler_ok w t j s pack pc →
  t0 ≠ t → w_threads w !! t0 = Some (THandler j pack0 pc0) →
  (∀ q m, granted w j (rp_lock_number pack0) q m → granted w' j (rp_lock_number pack0) q m) →
  handler_ok w t0 j s pack0 pc0 → handler_ok w' t0 j s' pack0 pc0.
Proof.
  intros HI Hex Ht Hj Hf Hl Hok Hne Ht0 Hgr Hok0.
  eapply (handler_ok_other w); [done|intros p; by eapply fr_ptr| | | | |done].
  - apply (frame_views (λ _ v v', lv_highestseqno v ≤ lv_highestseqno v') _ s s' Hf); [done|].
    by eapply handler_highest.
  - apply (frame_views (λ _ v v', lv_myseqno v ≤ lv_myseqno v') _ s s' Hf); [done|].
    destruct (hdl_local_keeps _ _ _ _ _ _ _ _ _ Hl) as (-> & _). done.
  - intros p z ->. destruct (decide (rp_lock_number pack0 = rp_lock_number pack)) as [Heq|Hn];
      [|by rewrite (fr_other _ _ _ Hf)].
    rewrite Heq.
    destruct (hdl_local_highest _ _ _ _ _ _ _ _ _ Hl) as [?|(p' & z' & -> & _)]; [done|].
    destruct Hne. by eapply Hex.
  - left. by eapply (handler_mutex w t j pack pc).
Qed.

Lemma wstep_hdl w w' t0 j0 pack0 pc0 :
  Inv w → max_exclusive w → wstep w w' →
  w_threads w' !! t0 = Some (THandler j0 pack0 pc0) →
  ∃ s, w_servers w' !! j0 = Some s ∧ handler_ok w' t0 j0 s pack0 pc0.
Proof.
  intros HI Hex Hw Ht0. destruct (wstep_evolves w w' HI Hw) as [Hse Hae].
  pose proof (λ q m, granted_evolves w w' j0 (rp_lock_number pack0) q m Hse Hae) as Hgr.
  destruct Hw as [t j n pc pc' s s' Ht Hj Hm|t j pack pc pc' s s' Ht Hj Hf Hp Hl|th Hth|j s Hj].
  - apply upd_thread_inv in Ht0 as [[-> ?]|[Hne Ht0]]; [done|].
    destruct (inv_hdl _ HI _ _ _ _ Ht0) as (s2 & Hs2 & Hok2).
    destruct (decide (j0 = j)) as [->|Hj0]; [assert (s2 = s) as -> by congruence|].
    + exists s'. rewrite (upd_server_eq _ _ _ _ s) by done. split; [done|].
      by eapply (handler_ok_session w).
    + exists s2. rewrite upd_server_ne by done. split; [done|].
      eapply handler_ok_other; [..|done]; try done; by left.
  - destruct (inv_hdl _ HI _ _ _ _ Ht) as (s1 & Hs1 & Hok).
    assert (s1 = s) as -> by congruence.
    apply upd_thread_inv in Ht0 as [[-> [= -> -> ->]]|[Hne Ht0]].
    + exists s'. rewrite (upd_server_eq _ _ _ _ s) by done. split; [done|].
      by eapply handler_ok_move.
    + destruct (inv_hdl _ HI _ _ _ _ Ht0) as (s2 & Hs2 & Hok2).
      destruct (decide (j0 = j)) as [->|Hj0]; [assert (s2 = s) as -> by congruence|].
      * exists s'. rewrite (upd_server_eq _ _ _ _ s) by done. split; [done|].
        by eapply (handler_ok_handler w _ t j pack pc pc' s).
      * exists s2. rewrite upd_server_ne by done. split; [done|].
        eapply handler_ok_other; [..|done]; try done; by left.
  - simpl in Ht0. apply lookup_snoc_Some in Ht0 as [Ht0|[-> ->]].
    + destruct (inv_hdl _ HI _ _ _ _ Ht0) as (s2 & Hs2 & Hok2). exists s2. split; [done|].
      eapply handler_ok_other; [..|done]; try done; by left.
    + destruct Hth as [-> [s Hs]]. exists s. done.
  - destruct (inv_hdl _ HI _ _ _ _ Ht0) as (s2 & Hs2 & Hok2).
    destruct (decide (j0 = j)) as [->|Hj0]; simpl.
    + assert (s2 = s) as -> by congruence. exists (set_alive false s).
      rewrite list_lookup_insert_eq by (by eapply lookup_lt_Some). split; [done|].
      eapply (handler_ok_other w _ _ _ _ _ s); try done; by left.
    + exists s2. rewrite list_lookup_insert_ne by done. split; [done|].
      eapply handler_ok_other; [..|done]; try done; by left.
Qed.

(** Handler threads persist with their argument. *)
Lemma wstep_handler_kept w w' t j pack pc :
  wstep w w' → w_threads w !! t = Some (THandler j pack pc) →
  ∃ pc', w_threads w' !! t = Some (THandler j pack pc').
Proof.
  intros Hw Ht.
  destruct Hw as [t1 j1 n pc1 pc' s s' Ht1 Hj Hm|t1 j1 pack1 pc1 pc' s s' Ht1 Hj Hf Hp Hl|th Hth|j1 s Hj].
  - destruct (decide (t = t1)) as [->|Hne]; [congruence|]. rewrite upd_thread_ne by done. eauto.
  - destruct (decide (t = t1)) as [->|Hne]; [|rewrite upd_thread_ne by done; eauto].
    simplify_eq. erewrite upd_thread_eq by done. eauto.
  - exists pc. simpl. by apply lookup_app_l_Some.
  - eauto.
Qed.

Lemma sess_local_deff nodes pc v h pc' v' h' d m :
  sess_local nodes pc v h pc' v' h' → lv_deffered v' = Some d → m ∈ d →
  lv_deffered v = Some d.
Proof. inversion 1; simplify_eq/=; try done. intros [= <-] Hin. set_solver. Qed.

Lemma sess_move_deff w s n pc pc' s' d m :
  sess_move w s n pc pc' s' → lv_deffered (view s' n) = Some d → m ∈ d →
  lv_deffered (view s n) = Some d.
Proof. destruct 1 as [pc pc' s' _ _ Hl| | |]; [|done..]. by eapply sess_local_deff. Qed.

Lemma hdl_local_deff t mac pack pc v h pc' v' h' d m :
  hdl_local t mac pack pc v h pc' v' h' → lv_deffered v' = Some d → m ∈ d →
  (∃ d0, lv_deffered v = Some d0 ∧ m ∈ d0) ∨ ∃ p, pc = RqAppend p m.
Proof.
  inversion 1; simplify_eq/=; eauto.
  intros [= <-] [?|?%list_elem_of_singleton]%elem_of_app; subst; eauto.
Qed.

Lemma wstep_deff w w' j0 s0 n0 d m :
  Inv w → wstep w w' → w_servers w' !! j0 = Some s0 →
  lv_deffered (view s0 n0) = Some d → m ∈ d →
  ∃ pack pc, w_threads w' !! m = Some (THandler j0 pack pc) ∧ rp_lock_number pack = n0.
Proof.
  intros HI Hw Hj0 Hd Hin.
  assert ((∃ s d', w_servers w !! j0 = Some s ∧ lv_deffered (view s n0) = Some d' ∧ m ∈ d') ∨
    ∃ pack pc, w_threads w !! m = Some (THandler j0 pack pc) ∧ rp_lock_number pack = n0) as Hold.
  { destruct Hw as [t j n pc pc' s s' Ht Hj Hm|t j pack pc pc' s s' Ht Hj Hf Hp Hl|th Hth|j s Hj].
    - destruct (inv_sess _ HI _ _ _ _ Ht) as (s1 & Hs1 & Hok).
      assert (s1 = s) as -> by congruence.
      destruct (sess_move_frame _ _ _ _ _ _ (inv_wf _ HI _ _ Hj) (proj1 Hok) Hm) as (Hf & _).
      apply upd_server_inv in Hj0 as [[-> ->]|[_ ?]]; [|by eauto 10].
      left. exists s, d. split_and!; [done| |done].
      destruct (decide (n0 = n)) as [->|Hn]; [by eapply sess_move_deff|].
      by rewrite <-(fr_other _ _ _ Hf).
    - apply upd_server_inv in Hj0 as [[-> ->]|[_ ?]]; [|by eauto 10].
      destruct (decide (n0 = rp_lock_number pack)) as [->|Hn];
        [|left; exists s, d; by rewrite <-(fr_other _ _ _ Hf)].
      destruct (hdl_local_deff _ _ _ _ _ _ _ _ _ _ _ Hl Hd Hin) as [(d0 & ? & ?)|[p ->]];
        [by eauto 10|].
      destruct (inv_hdl _ HI _ _ _ _ Ht) as (s1 & _ & _ & -> & _). eauto.
    - eauto 10.
    - apply set_server_lookup in Hj0 as [[-> ->]|[_ ?]]; eauto 10. }
  destruct Hold as [(s & d' & Hs & Hd' & Hin')|(pack & pc & Ht & Hn)].
  - destruct (inv_deff _ HI _ _ _ _ _ Hs Hd' Hin') as (pack & pc & Ht & Hn).
    destruct (wstep_handler_kept _ _ _ _ _ _ Hw Ht) as [pc' ?]. eauto.
  - destruct (wstep_handler_kept _ _ _ _ _ _ Hw Ht) as [pc' ?]. eauto.
Qed.

(** The attempt of a session that stays where it is keeps its number. *)
Lemma attempt_kept w w' t i n pc s s' :
  Inv w → wstep w w' → w_threads w !! t = Some (TSession i n pc) →
  w_threads w' !! t = Some (TSession i n pc) → w_servers w !! i = Some s →
  w_servers w' !! i = Some s' → in_section pc = true → (∀ p z, pc ≠ AqWriteSeqno p z) →
  lv_myseqno (view s' n) = lv_myseqno (view s n).
Proof.
  intros HI Hw Ht Ht' Hi Hi' Hs Hnw.
  destruct Hw as [t1 j n1 pc1 pc' s1 s1' Ht1 Hj Hm|t1 j pack pc1 pc' s1 s1' Ht1 Hj Hf Hp Hl|th Hth|j s1 Hj].
  - destruct (inv_sess _ HI _ _ _ _ Ht1) as (s2 & Hs2 & Hok).
    assert (s2 = s1) as -> by congruence.
    destruct (sess_move_frame _ _ _ _ _ _ (inv_wf _ HI _ _ Hj) (proj1 Hok) Hm) as (Hf & _).
    apply upd_server_inv in Hi' as [[-> ->]|[_ ?]]; [|congruence].
    assert (s1 = s) as -> by congruence.
    destruct (decide (n = n1)) as [->|Hn]; [|by rewrite (fr_other _ _ _ Hf)].
    destruct (sess_move_myseqno _ _ _ _ _ _ Hm) as [?|(p & z & -> & -> & _)]; [done|].
    assert (t = t1) as -> by (by eapply (inv_lock _ HI)). naive_solver.
  - apply upd_server_inv in Hi' as [[-> ->]|[_ ?]]; [|congruence].
    assert (s1 = s) as -> by congruence.
    apply (frame_views (λ _ v v', lv_myseqno v' = lv_myseqno v) _ _ _ Hf); [done|].
    by destruct (hdl_local_keeps _ _ _ _ _ _ _ _ _ Hl).
  - simpl in *. congruence.
  - apply set_server_lookup in Hi' as [[-> ->]|[_ ?]]; [|congruence].
    by assert (s1 = s) as -> by congruence.
Qed.

Lemma sess_local_acked nodes pc v h pc' v' h' k :
  sess_local nodes pc v h pc' v' h' → (k < acked (length nodes) pc')%nat →
  is_Some (nodes !! k) → (k < acked (length nodes) pc)%nat ∧ lv_myseqno v' = lv_myseqno v.
Proof.
  inversion 1; simplify_eq/=; try lia. intros _ [a Ha]. split; [|done].
  apply lookup_lt_Some in Ha. match goal with H : nodes !! _ = None |- _ =>
    apply lookup_ge_None in H end. lia.
Qed.

Lemma sess_move_acked w s n pc pc' s' k :
  sess_move w s n pc pc' s' → (k < acked (length (sv_nodes s)) pc')%nat →
  is_Some (sv_nodes s !! k) →
  ((k < acked (length (sv_nodes s)) pc)%nat ∧
   lv_myseqno (view s' n) = lv_myseqno (view s n)) ∨
  (s' = s ∧ ∃ p c j' pack, pc = AqCall p k c ∧
   w_threads w !! c = Some (THandler j' pack RqRet)).
Proof.
  destruct 1 as [pc pc' s' _ _ Hl|p i c a j' Hi Ha Hc|p i c j' pack Hc|]; simpl; intros Hk Hs.
  - left. by eapply sess_local_acked.
  - by left.
  - destruct (decide (k = i)) as [->|Hne]; [right; eauto 10|left; split; [lia|done]].
  - lia.
Qed.

(** The position of a thread before a step, when it does not move. *)
Lemma wstep_thread_inv w w' t i n pc :
  wstep w w' → w_threads w' !! t = Some (TSession i n pc) →
  w_threads w !! t = Some (TSession i n pc) ∨ pc = AqFind ∨
  ∃ pc0 s s', w_threads w !! t = Some (TSession i n pc0) ∧ w_servers w !! i = Some s ∧
    sess_move w s n pc0 pc s' ∧ w_servers w' !! i = Some s'.
Proof.
  intros Hw Ht.
  destruct Hw as [t1 j n1 pc1 pc' s1 s1' Ht1 Hj Hm|t1 j pack pc1 pc' s1 s1' Ht1 Hj Hf Hp Hl|th Hth|j s1 Hj].
  - apply upd_thread_inv in Ht as [[-> [= -> -> ->]]|[_ ?]]; [|by left].
    right; right. exists pc1, s1, s1'. rewrite (upd_server_eq _ _ _ _ s1) by done. done.
  - apply upd_thread_inv in Ht as [[-> ?]|[_ ?]]; [done|by left].
  - simpl in Ht. apply lookup_snoc_Some in Ht as [?|[-> ->]]; [by left|].
    destruct Hth as [-> _]. by right; left.
  - by left.
Qed.

Lemma wstep_ack w w' t i n pc s' k a j :
  Inv w → wstep w w' →
  w_threads w' !! t = Some (TSession i n pc) → w_servers w' !! i = Some s' →
  (k < acked (length (sv_nodes s')) pc)%nat → sv_nodes s' !! k = Some a →
  host_of a = Some j → granted w' j n (lv_myseqno (view s' n)) (sv_mac s').
Proof.
  intros HI Hw Ht Hi Hk Hka Ha. destruct (wstep_evolves w w' HI Hw) as [Hse Hae].
  destruct (wstep_thread_inv _ _ _ _ _ _ Hw Ht) as
    [Ht0|[->|(pc0 & s & s1 & Ht0 & Hs & Hm & Hs1)]]; [|simpl in Hk; lia|].
  - destruct (inv_sess _ HI _ _ _ _ Ht0) as (s & Hs & _).
    destruct (Hse i s Hs) as (s1 & Hs1 & Hno & Hmac & _).
    assert (s1 = s') as -> by congruence. rewrite Hno in Hk, Hka. rewrite Hmac.
    rewrite (attempt_kept w w' t i n pc s s') by
      (done || by destruct pc; simpl in *; try lia).
    apply (granted_evolves w); [done..|]. by eapply (inv_ack _ HI).
  - assert (s1 = s') as -> by congruence.
    destruct (Hse i s Hs) as (s1 & Hs1' & Hno & Hmac & _).
    assert (s1 = s') as -> by congruence. rewrite Hno in Hk, Hka. rewrite Hmac.
    apply (granted_evolves w); [done..|].
    destruct (sess_move_acked _ _ _ _ _ _ k Hm Hk) as [[Hk0 ->]|(-> & p & c & j' & pack & -> & Hc)];
      [by eauto|by eapply (inv_ack _ HI)|].
    destruct (inv_call _ HI _ _ _ _ _ _ _ Ht0 Hs) as (a' & j1 & pc1 & Ha' & Hj1 & Hc').
    simplify_eq. destruct (inv_hdl _ HI _ _ _ _ Hc) as (s1 & Hs2 & _ & Hg). done.
Qed.

Lemma wstep_call w w' t i n p k c s' :
  Inv w → wstep w w' →
  w_threads w' !! t = Some (TSession i n (AqCall p k c)) → w_servers w' !! i = Some s' →
  ∃ a j pc, sv_nodes s' !! k = Some a ∧ host_of a = Some j ∧
    w_threads w' !! c =
      Some (THandler j (mkRequestPack n (lv_myseqno (view s' n)) (sv_mac s')) pc).
Proof.
  intros HI Hw Ht Hi. destruct (wstep_evolves w w' HI Hw) as [Hse _].
  destruct (wstep_thread_inv _ _ _ _ _ _ Hw Ht) as
    [Ht0|[?|(pc0 & s & s1 & Ht0 & Hs & Hm & Hs1)]]; [|done|].
  - destruct (inv_sess _ HI _ _ _ _ Ht0) as (s & Hs & _).
    destruct (inv_call _ HI _ _ _ _ _ _ _ Ht0 Hs) as (a & j & pc & Hk & Ha & Hc).
    destruct (Hse i s Hs) as (s1 & Hs1 & Hno & Hmac & _).
    assert (s1 = s') as -> by congruence.
    destruct (wstep_handler_kept _ _ _ _ _ _ Hw Hc) as [pc' Hc'].
    exists a, j, pc'. rewrite Hno, Hmac, (attempt_kept w w' t i n (AqCall p k c) s s') by done. done.
  - assert (s1 = s') as -> by congruence.
    inversion Hm as [? ? ? _ _ Hl|? ? ? a j Hk Ha Hc| |]; subst; [by inversion Hl|].
    destruct (wstep_handler_kept _ _ _ _ _ _ Hw Hc) as [pc' Hc']. eauto 10.
Qed.

Lemma Inv_wstep w w' : Inv w → max_exclusive w → wstep w w' → Inv w'.
Proof.
  intros HI Hex Hw. split.
  - intros; by eapply wstep_wf.
  - intros; by eapply wstep_sess.
  - intros; by eapply wstep_lock.
  - intros; by eapply wstep_seq.
  - intros; by eapply wstep_hdl.
  - intros; by eapply wstep_deff.
  - intros; by eapply wstep_ack.
  - intros; by eapply wstep_call.
Qed.

(** ** From the executable system to view steps *)

Lemma upd_same_server t th j s w :
  w_servers w !! j = Some s → set_thread t th w = upd t th j s w.
Proof.
  intros Hj. unfold upd, set_thread, set_server. simpl.
  by rewrite (list_insert_id (w_servers w) j s Hj).
Qed.

Definition no_new_handlers (w w' : World) : Prop :=
  ∀ t j pack pc, w_threads w' !! t = Some (THandler j pack pc) →
    ∃ pc0, w_threads w !! t = Some (THandler j pack pc0).

(** A request call: a handler is started and the caller waits for it. *)
Definition call_step (w w' : World) : Prop :=
  ∃ t j n p i s a j', w_threads w !! t = Some (TSession j n (AqLoop p i)) ∧
    w_servers w !! j = Some s ∧ sv_nodes s !! i = Some a ∧ host_of a = Some j' ∧
    is_Some (w_servers w !! j') ∧
    w' = upd t (TSession j n (AqCall p i (length (w_threads w)))) j s
      (spawn (THandler j' (mkRequestPack n (lv_myseqno (view s n)) (sv_mac s)) RqFind) w).

Lemma upd_session_no_new t j n pc pc' s w :
  w_threads w !! t = Some (TSession j n pc) → no_new_handlers w (upd t (TSession j n pc') j s w).
Proof.
  intros Ht t0 j0 pack pc0 Ht0. apply upd_thread_inv in Ht0 as [[_ ?]|[_ ?]]; [done|eauto].
Qed.

Lemma live_Some w j s : live w j = Some s → w_servers w !! j = Some s.
Proof. unfold live. rewrite bind_Some. intros (s1 & ? & ?). case_match; by simplify_eq. Qed.

Lemma reach_Some w host j : reach host_of w host = Some j →
  host_of host = Some j ∧ is_Some (w_servers w !! j).
Proof.
  unfold reach. rewrite bind_Some. intros (j1 & ? & Hb).
  apply bind_Some in Hb as (s & ? & ?). case_match; simplify_eq. eauto.
Qed.

Lemma acquire_no_abort s n pc s' : acquire_step s n pc ≠ Some (s', Abort).
Proof.
  unfold acquire_step, mbind, option_bind. intros Hs.
  repeat case_match; simplify_eq.
Qed.

Lemma run_session_cases w t j n pc s w' :
  Inv w → w_threads w !! t = Some (TSession j n pc) → w_servers w !! j = Some s →
  run_session host_of t j n pc s w = Some w' →
  (wstep w w' ∧ no_new_handlers w w') ∨ call_step w w'.
Proof.
  intros HI Ht Hj Hr.
  destruct (inv_sess _ HI _ _ _ _ Ht) as (s1 & Hs1 & Hptr & _).
  assert (s1 = s) as -> by congruence. pose proof (inv_wf _ HI _ _ Hj) as Hwf.
  assert ((∃ p i c, pc = AqCall p i c) ∨ pc = Held ∨
    ∃ s' a, session_step s n pc = Some (s', a) ∧ w' = perform host_of t j n s' a w) as Hcases.
  { destruct pc; eauto; right; right; simpl in Hr;
      (destruct (session_step s n _) as [[s' a]|]; [|done]); simplify_eq; eauto. }
  destruct Hcases as [(p & i & c & ->)|[->|(s' & a & Hstep & ->)]].
  - left. simpl in Hr. destruct (w_threads w !! c) as [[|j' pack []]|] eqn:Hc; simplify_eq.
    rewrite (upd_same_server _ _ j s) by done. split; [|by eapply upd_session_no_new].
    eapply ws_session; [done..|].
    by eapply sm_reply.
  - left. simpl in Hr. simplify_eq. rewrite (upd_same_server _ _ j s) by done.
    split; [|by eapply upd_session_no_new]. eapply ws_session; [done..|]. apply sm_release.
  - unfold session_step in Hstep.
    assert ((a = Abort ∧ s' = s) ∨ (∃ host pack k, a = CallRequest host pack k ∧
        acquire_step s n pc = Some (s', a)) ∨
      ∃ pc', a = Goto pc' ∧ sess_move w s n pc pc' s') as Ha.
    { destruct (acquire_step s n pc) as [[s2 a2]|] eqn:Hacq; simplify_eq.
      - destruct a as [pc'| |]; [|by eauto 10|by eapply acquire_no_abort in Hacq]. right; right.
        destruct (acquire_step_local _ _ _ _ _ Hwf Hptr Hacq) as (? & ? & ?).
        exists pc'. split; [done|]. by constructor.
      - destruct (release_step_local _ _ _ _ _ Hwf Hptr Hstep)
          as [(-> & -> & _)|(pc' & -> & ? & ? & ?)]; [by left|].
        right; right. exists pc'. split; [done|]. by constructor. }
    destruct Ha as [[-> ->]|[(host & pack & k & -> & Hacq)|(pc' & -> & Hm)]]; simpl.
    + left. split; [by constructor|]. intros ????; eauto.
    + destruct (acquire_step_call _ _ _ _ _ _ _ Hwf Hptr Hacq) as (p & i & -> & -> & Hi & -> & ->).
      destruct (reach host_of w host) as [j'|] eqn:Hreach.
      * right. apply reach_Some in Hreach as [??].
        exists t, j, n, p, i, s, host, j'. split_and!; try done.
        by apply upd_same_server.
      * left. split; [by constructor|]. intros ????; eauto.
    + left. split; [by econstructor|by eapply upd_session_no_new].
Qed.

Lemma exec_cases w l w' :
  Inv w → is_rpc_fail l = false → exec host_of l w = Some w' →
  (wstep w w' ∧ no_new_handlers w w') ∨ call_step w w'.
Proof.
  intros HI Hl He. destruct l as [j n|t|t]; [..|done]; simpl in He.
  - apply bind_Some in He as (s & Hs%live_Some & [= <-]). left. split.
    + apply ws_spawn. simpl. eauto.
    + intros t j0 pack pc Ht. simpl in Ht.
      apply lookup_snoc_Some in Ht as [?|[_ ?]]; [eauto|done].
  - apply bind_Some in He as ([j n pc|j pack pc] & Ht & He);
      apply bind_Some in He as (s & Hs%live_Some & He).
    + by eapply run_session_cases.
    + left. unfold run_handler in He.
      destruct (request_step t s pack pc) as [[s' pc']|] eqn:Hr; simplify_eq.
      destruct (inv_hdl _ HI _ _ _ _ Ht) as (s1 & Hs1 & Hp & _).
      assert (s1 = s) as -> by congruence.
      destruct (request_step_local _ _ _ _ _ _ (inv_wf _ HI _ _ Hs) Hp Hr) as (? & ? & ?).
      split; [by eapply ws_handler|].
      intros t0 j0 pack0 pc0 Ht0. apply (upd_thread_inv t _ j s' w) in Ht0 as [[-> [= -> -> ->]]|[_ ?]];
        eauto.
Qed.

(** A call is a start of a handler followed by a move of the caller. *)
Lemma call_step_wsteps w w' :
  call_step w w' → ∃ j' pack, let th := THandler j' pack RqFind in
    fresh_thread w th ∧ wstep w (spawn th w) ∧ wstep (spawn th w) w'.
Proof.
  intros (t & j & n & p & i & s & a & j' & Ht & Hj & Hi & Ha & Hj' & ->).
  set (h := THandler j' (mkRequestPack n (lv_myseqno (view s n)) (sv_mac s)) RqFind).
  exists j', (mkRequestPack n (lv_myseqno (view s n)) (sv_mac s)). fold h.
  assert (fresh_thread w h) as Hh by done. split_and!; [done|by constructor|].
  eapply ws_session; [simpl; by apply lookup_app_l_Some|done|].
  eapply sm_call; [done..|]. simpl. apply lookup_snoc_Some. by right.
Qed.

Lemma spawn_max_exclusive w th :
  fresh_thread w th → max_exclusive w → max_exclusive (spawn th w).
Proof.
  intros Hth Hex t1 t2 j pack1 pack2 p1 p2 z1 z2 H1 H2. simpl in *.
  apply lookup_snoc_Some in H1 as [H1|[_ ->]]; [|by destruct Hth].
  apply lookup_snoc_Some in H2 as [H2|[_ ->]]; [|by destruct Hth].
  by eapply Hex.
Qed.

Lemma Inv_step w w' : Inv w → max_exclusive w → step host_of w w' → Inv w'.
Proof.
  intros HI Hex (l & Hl & He). destruct (exec_cases _ _ _ HI Hl He) as [[Hw _]|Hc].
  - by eapply Inv_wstep.
  - destruct (call_step_wsteps _ _ Hc) as (jc & pk & Hth & H1 & H2).
    eapply (Inv_wstep (spawn _ w)); [by eapply Inv_wstep|by apply spawn_max_exclusive|done].
Qed.

Lemma Inv_fresh w :
  w_threads w = [] →
  (∀ j s, w_servers w !! j = Some s → sv_lockvar_list s = [] ∧ sv_mutexes s = ∅) → Inv w.
Proof.
  intros Hth Hfresh.
  assert (∀ t th, w_threads w !! t = Some th → False) as Hno by (rewrite Hth; done).
  assert (∀ j s n, w_servers w !! j = Some s → view s n = new_lockvar n) as Hview.
  { intros j s n Hj. destruct (Hfresh j s Hj) as [Hl _]. unfold view. by rewrite Hl. }
  split; try (intros; exfalso; by eapply Hno).
  - intros j s Hj. unfold sv_wf. destruct (Hfresh j s Hj) as [-> _]. constructor.
  - intros j s n Hj. by rewrite (Hview j).
  - intros j s n d m Hj Hd Hin. rewrite (Hview j) in Hd by done. simplify_eq/=. set_solver.
Qed.

Lemma Inv_initial w : initial host_of w → Inv w.
Proof. intros [Hth Hfresh _ _]. by apply Inv_fresh. Qed.

(** Static facts: nodes and MAC addresses never change. *)
Definition static (w0 w : World) : Prop :=
  ∀ j s, w_servers w !! j = Some s → ∃ s0, w_servers w0 !! j = Some s0 ∧
    sv_nodes s = sv_nodes s0 ∧ sv_mac s = sv_mac s0.

Lemma wstep_static w w' : Inv w → wstep w w' → static w w'.
Proof.
  intros HI Hw j s' Hj'. destruct (wstep_evolves w w' HI Hw) as [Hse _].
  assert (is_Some (w_servers w !! j)) as [s Hs].
  { destruct Hw as [t j1 n pc pc' s s1 Ht Hj Hm|t j1 pack pc pc' s s1 Ht Hj Hf Hp Hl|th Hth|j1 s Hj].
    - apply upd_server_inv in Hj' as [[-> _]|[_ ?]]; eauto.
    - apply upd_server_inv in Hj' as [[-> _]|[_ ?]]; eauto.
    - eauto.
    - apply set_server_lookup in Hj' as [[-> _]|[_ ?]]; eauto. }
  destruct (Hse j s Hs) as (s1 & Hs1 & Hn & Hm & _). exists s.
  assert (s1 = s') as -> by congruence. done.
Qed.

Lemma static_trans w0 w1 w2 : static w0 w1 → static w1 w2 → static w0 w2.
Proof.
  intros H1 H2 j s Hj. destruct (H2 j s Hj) as (s1 & Hs1 & -> & ->). by apply H1.
Qed.

Lemma step_static w w' : Inv w → max_exclusive w → step host_of w w' → static w w'.
Proof.
  intros HI Hex (l & Hl & He). destruct (exec_cases _ _ _ HI Hl He) as [[Hw _]|Hc].
  - by apply wstep_static.
  - destruct (call_step_wsteps _ _ Hc) as (jc & pk & Hth & H1 & H2).
    eapply (static_trans _ (spawn _ w)); apply wstep_static; try done. by eapply Inv_wstep.
Qed.

(** Two sessions that have all replies: one of them is the other. *)
Lemma Inv_exclusion w :
  Inv w →
  (∀ i j si sj, w_servers w !! i = Some si → w_servers w !! j = Some sj → sv_mac si = sv_mac sj → i = j) →
  (∀ t i j n si, w_threads w !! t = Some (TSession i n Held) → w_servers w !! i = Some si →
     is_Some (w_servers w !! j) → i ≠ j → ∃ k a, sv_nodes si !! k = Some a ∧ host_of a = Some j) →
  mutual_exclusion w.
Proof.
  intros HI Hmacs Hfull t1 t2 n [i Ht1] [j Ht2].
  destruct (decide (i = j)) as [->|Hij]; [by eapply (inv_lock _ HI)|].
  assert (∀ t t' i j, i ≠ j → w_threads w !! t = Some (TSession i n Held) →
    w_threads w !! t' = Some (TSession j n Held) →
    ∃ si sj, w_servers w !! i = Some si ∧ w_servers w !! j = Some sj ∧
      lexle (lv_myseqno (view si n), sv_mac si) (lv_myseqno (view sj n), sv_mac sj)) as Hle.
  { clear Hij i j Ht1 Ht2. intros t t' i j Hij Ht Ht'.
    destruct (inv_sess _ HI _ _ _ _ Ht) as (si & Hi & _).
    destruct (inv_sess _ HI _ _ _ _ Ht') as (sj & Hj & _).
    destruct (Hfull t i j n si) as (k & a & Hk & Ha); [done..|by eexists|done|].
    exists si, sj. split_and!; [done..|].
    assert (k < length (sv_nodes si))%nat as Hlen by (by eapply lookup_lt_Some).
    destruct (inv_ack _ HI _ _ _ _ _ _ _ _ Ht Hi Hlen Hk Ha) as (s & Hs & _ & Hg).
    assert (s = sj) as -> by congruence. by eapply Hg. }
  destruct (Hle t1 t2 i j) as (si & sj & Hi & Hj & H1); [done..|].
  destruct (Hle t2 t1 j i) as (sj' & si' & Hj' & Hi' & H2); [done..|]. simplify_eq.
  pose proof (lexle_antisym _ _ H1 H2) as Hmac. simpl in Hmac.
  destruct Hij. by eapply Hmacs.
Qed.

Lemma Inv_mutual_exclusion w0 w :
  initial host_of w0 → static w0 w → Inv w → mutual_exclusion w.
Proof.
  intros [_ _ Hmacs Hfull] Hst HI. apply Inv_exclusion; [done|..].
  - intros i j si sj Hi Hj Hm. destruct (Hst i si Hi) as (si0 & Hi0 & _ & Hmi).
    destruct (Hst j sj Hj) as (sj0 & Hj0 & _ & Hmj). eapply Hmacs; [done..|]. congruence.
  - intros t i j n si _ Hi [sj Hj] Hij. destruct (Hst i si Hi) as (si0 & Hi0 & -> & _).
    destruct (Hst j sj Hj) as (sj0 & Hj0 & _). eapply Hfull; [done| |done]. by eapply lookup_lt_Some.
Qed.

Lemma reach_Inv w0 w :
  initial host_of w0 → rtc (step_excl host_of) w0 w → Inv w ∧ static w0 w.
Proof.
  intros Hi. apply (rtc_invariant _ (λ w, Inv w ∧ static w0 w)).
  - intros a b [HI Hst] [Hex Hs]. split; [by eapply Inv_step|].
    eapply static_trans; [done|]. by apply step_static.
  - split; [by apply Inv_initial|]. intros j s Hj. eauto.
Qed.

(** ** Two nodes: line 170 never interferes with itself *)

(** Every handler that has not replied has a session waiting for it. *)
Definition callers (w : World) : Prop :=
  ∀ c j pack pc, w_threads w !! c = Some (THandler j pack pc) → pc ≠ RqRet →
    ∃ t i p k, w_threads w !! t = Some (TSession i (rp_lock_number pack) (AqCall p k c)).

(** No node has itself among its peers. *)
Definition no_self (w : World) : Prop :=
  ∀ i s k a, w_servers w !! i = Some s → sv_nodes s !! k = Some a → host_of a ≠ Some i.

Lemma wstep_caller_kept w w' t i n p k c :
  wstep w w' → w_threads w !! t = Some (TSession i n (AqCall p k c)) →
  w_threads w' !! t = Some (TSession i n (AqCall p k c)) ∨
  ∃ j pack, w_threads w !! c = Some (THandler j pack RqRet).
Proof.
  intros Hw Ht.
  destruct Hw as [t1 j n1 pc pc' s s1 Ht1 Hj Hm|t1 j pack pc pc' s s1 Ht1 Hj Hf Hp Hl|th Hth|j s Hj].
  - destruct (decide (t = t1)) as [->|Hne]; [|left; by rewrite upd_thread_ne].
    simplify_eq. right. inversion Hm as [? ? ? _ _ Hl| |? ? ? j' pack Hc|]; subst;
      [inversion Hl|eauto].
  - left. rewrite upd_thread_ne; [done|]. congruence.
  - left. simpl. by apply lookup_app_l_Some.
  - by left.
Qed.

(** A handler that has replied does not run any more. *)
Lemma wstep_replied w w' c j pack :
  wstep w w' → w_threads w !! c = Some (THandler j pack RqRet) →
  w_threads w' !! c = Some (THandler j pack RqRet).
Proof.
  intros Hw Hc.
  destruct Hw as [t1 j1 n1 pc pc' s s1 Ht1 Hj Hm|t1 j1 pack1 pc pc' s s1 Ht1 Hj Hf Hp Hl|th Hth|j1 s Hj].
  - rewrite upd_thread_ne; [done|]. congruence.
  - rewrite upd_thread_ne; [done|]. intros ->. simplify_eq. inversion Hl.
  - simpl. by apply lookup_app_l_Some.
  - done.
Qed.

Lemma callers_wstep w w' : wstep w w' → no_new_handlers w w' → callers w → callers w'.
Proof.
  intros Hw Hnew Hca c j pack pc Hc Hpc.
  destruct (Hnew _ _ _ _ Hc) as [pc0 Hc0].
  destruct (decide (pc0 = RqRet)) as [->|Hne].
  { rewrite (wstep_replied _ _ _ _ _ Hw Hc0) in Hc. congruence. }
  destruct (Hca _ _ _ _ Hc0 Hne) as (t & i & p & k & Ht).
  destruct (wstep_caller_kept _ _ _ _ _ _ _ _ Hw Ht) as [?|(j' & pack' & ?)]; [by eauto|].
  congruence.
Qed.

Lemma callers_call w w' : call_step w w' → callers w → callers w'.
Proof.
  intros (t & j & n & p & i & s & a & j' & Ht & Hj & Hi & Ha & Hj' & ->) Hca.
  set (h := THandler j' (mkRequestPack n (lv_myseqno (view s n)) (sv_mac s)) RqFind).
  assert (w_threads (spawn h w) !! t = Some (TSession j n (AqLoop p i))) as Ht'
    by (simpl; by apply lookup_app_l_Some).
  intros c j0 pack pc Hc Hpc.
  apply upd_thread_inv in Hc as [[_ ?]|[Hct Hc]]; [done|].
  simpl in Hc. apply lookup_snoc_Some in Hc as [Hc|[-> Hh]].
  - destruct (Hca _ _ _ _ Hc Hpc) as (t0 & i0 & p0 & k0 & Ht0).
    exists t0, i0, p0, k0. rewrite upd_thread_ne by congruence. simpl.
    by apply lookup_app_l_Some.
  - unfold h in Hh. injection Hh as <- <- <-. exists t, j, p, i.
    by erewrite upd_thread_eq.
Qed.

Lemma callers_step w w' : Inv w → step host_of w w' → callers w → callers w'.
Proof.
  intros HI (l & Hl & He) Hca. destruct (exec_cases _ _ _ HI Hl He) as [[Hw Hnew]|Hc].
  - by eapply callers_wstep.
  - by eapply callers_call.
Qed.

Lemma two_nodes_exclusive w :
  Inv w → callers w → no_self w → length (w_servers w) = 2%nat → max_exclusive w.
Proof.
  intros HI Hca Hself Hlen t1 t2 j pack1 pack2 p1 p2 z1 z2 H1 H2 Hn.
  destruct (Hca _ _ _ _ H1) as (s1 & i1 & q1 & k1 & Hs1); [done|].
  destruct (Hca _ _ _ _ H2) as (s2 & i2 & q2 & k2 & Hs2); [done|].
  assert (∀ s i n q k c pack pc, w_threads w !! s = Some (TSession i n (AqCall q k c)) →
    w_threads w !! c = Some (THandler j pack pc) → i ≠ j ∧ (i < 2)%nat) as Hother.
  { clear -HI Hself Hlen. intros s i n q k c pack pc Hs Hc.
    destruct (inv_sess _ HI _ _ _ _ Hs) as (sv & Hi & _).
    destruct (inv_call _ HI _ _ _ _ _ _ _ Hs Hi) as (a & j' & pc' & Hk & Ha & Hc').
    simplify_eq. split; [|rewrite <-Hlen; by eapply lookup_lt_Some].
    intros ->. by eapply Hself. }
  destruct (Hother _ _ _ _ _ _ _ _ Hs1 H1) as [Hne1 Hlt1].
  destruct (Hother _ _ _ _ _ _ _ _ Hs2 H2) as [Hne2 Hlt2].
  assert (j < 2)%nat as Hltj.
  { destruct (inv_hdl _ HI _ _ _ _ H1) as (sv & Hj & _). rewrite <-Hlen. by eapply lookup_lt_Some. }
  assert (i1 = i2) as <- by lia. rewrite <-Hn in Hs2.
  assert (s1 = s2) as <- by (by eapply (inv_lock _ HI)). congruence.
Qed.

Lemma static_no_self w0 w : static w0 w → no_self w0 → no_self w.
Proof.
  intros Hst Hns i s k a Hi Hk. destruct (Hst i s Hi) as (s0 & Hi0 & Hn & _).
  rewrite Hn in Hk. by eapply Hns.
Qed.

Lemma wstep_length w w' : wstep w w' → length (w_servers w') = length (w_servers w).
Proof. destruct 1; simpl; by rewrite ?length_insert. Qed.

Lemma step_length w w' :
  Inv w → step host_of w w' → length (w_servers w') = length (w_servers w).
Proof.
  intros HI (l & Hl & He). destruct (exec_cases _ _ _ HI Hl He) as [[Hw _]|Hc].
  - by apply wstep_length.
  - destruct (call_step_wsteps _ _ Hc) as (jc & pk & _ & H1 & H2).
    by rewrite (wstep_length _ _ H2), (wstep_length _ _ H1).
Qed.

Lemma two_nodes_reach w0 w :
  initial host_of w0 → no_self w0 → length (w_servers w0) = 2%nat →
  rtc (step host_of) w0 w → rtc (step_excl host_of) w0 w ∧ Inv w ∧ static w0 w ∧ callers w ∧
    length (w_servers w) = 2%nat.
Proof.
  intros Hi Hns Hlen Hr. revert Hr. apply (rtc_ind_r (λ w, rtc (step_excl host_of) w0 w ∧ Inv w ∧
    static w0 w ∧ callers w ∧ length (w_servers w) = 2%nat)).
  - split_and!; [done|by apply Inv_initial|intros j s Hj; eauto| |done].
    intros c j pack pc Hc. by rewrite (init_threads _ _ Hi) in Hc.
  - intros a b _ Hs (Hr & HI & Hst & Hca & Hl).
    assert (max_exclusive a) as Hex.
    { apply two_nodes_exclusive; [done..|by eapply static_no_self|done]. }
    split_and!.
    + eapply rtc_r; [done|]. by split.
    + by eapply Inv_step.
    + eapply static_trans; [done|]. by apply step_static.
    + by eapply callers_step.
    + by rewrite (step_length a).
Qed.

(** C1: In every execution of any number of nodes from an initial state (every node
    knows every other, distinct MAC addresses, no RPC failure) in which no two handlers
    of one node and lock interleave inside line 170 (the read and write of
    highestseqno), at most one session in the whole system is inside its critical
    section for a given lock. *)
Theorem lock_mutual_exclusion w0 w :
  initial host_of w0 → rtc (step_excl host_of) w0 w → mutual_exclusion w.
Proof.
  intros Hi Hr. destruct (reach_Inv w0 w Hi Hr) as [HI Hst]. by eapply Inv_mutual_exclusion.
Qed.

(** C2: With exactly two nodes that do not list themselves as peers, mutual exclusion
    holds in every execution without RPC failure, under all interleavings: two handlers
    of one lock never run at once on a node, so line 170 needs no protection. *)
Theorem lock_mutual_exclusion_two_nodes w0 w :
  initial host_of w0 → no_self w0 → length (w_servers w0) = 2%nat →
  rtc (step host_of) w0 w → mutual_exclusion w.
Proof.
  intros Hi Hns Hlen Hr. destruct (two_nodes_reach w0 w Hi Hns Hlen Hr) as (_ & HI & Hst & _).
  by eapply Inv_mutual_exclusion.
Qed.

End safety.
