(* ===== verification/LockProgress.v ===== *)
(** * What the lock procedures do when they run alone, and progress

    The step functions of [LockServer.v] iterated without interference,
    compared with direct definitions of the procedures' effect; the lifting
    of such runs into the system of [LockSystem.v]; and progress: a lock that
    no other node has requested is acquired, a handler that waits for a node
    without sessions waits for ever. *)

From S2P Require Import Prelude CString LockMsg LockServer LockSystem LockSafety.

(** ** Running one thread alone *)

Fixpoint run_request (fuel : nat) (t : nat) (s : Server) (pack : RequestPack)
    (pc : handler_pc) : Server * handler_pc :=
  match fuel with
  | O => (s, pc)
  | S f =>
      match request_step t s pack pc with
      | Some (s', pc') => run_request f t s' pack pc'
      | None => (s, pc)
      end
  end.

Fixpoint run_release (fuel : nat) (s : Server) (n : Z) (pc : session_pc)
    : Server * session_pc :=
  match fuel with
  | O => (s, pc)
  | S f =>
      match release_step s n pc with
      | Some (s', Goto pc') => run_release f s' n pc'
      | _ => (s, pc)
      end
  end.

Fixpoint run_acquire (fuel : nat) (s : Server) (n : Z) (pc : session_pc)
    : Server * session_pc :=
  match fuel with
  | O => (s, pc)
  | S f =>
      match acquire_step s n pc with
      | Some (s', Goto pc') => run_acquire f s' n pc'
      | _ => (s, pc)
      end
  end.

(** ** Reference definitions *)

(** The lock variable when an acquisition enters its request loop. *)
Definition acquire_view (v : LockVar) : LockVar :=
  set_myseqno (lv_highestseqno v + 1) (set_requesting_cs true (set_lock true v)).

(** The test of lines 172-174: the request has to wait. *)
Definition defer (v : LockVar) (mac : Z) (pack : RequestPack) : bool :=
  lv_requesting_cs v &&
  ((lv_myseqno v <? rp_seqno pack) ||
   ((rp_seqno pack =? lv_myseqno v) && (mac <? rp_mac pack))).

(** The lock variable after a request. *)
Definition request_view (t : nat) (v : LockVar) (mac : Z) (pack : RequestPack) : LockVar :=
  let v1 := set_highestseqno (Z.max (rp_seqno pack) (lv_highestseqno v)) v in
  if defer v mac pack
  then set_deffered ((λ d, d ++ [t]) <$> lv_deffered v) v1
  else v1.

Definition request_mutexes (t : nat) (v : LockVar) (mac : Z) (pack : RequestPack)
    (h : gmap nat mutex) : gmap nat mutex :=
  if defer v mac pack then <[t := MLocked]> h else h.

Definition request_result (t : nat) (v : LockVar) (mac : Z) (pack : RequestPack) : handler_pc :=
  if defer v mac pack then RqLock2 t else RqRet.

(** Unlock and destroy every mutex of the array, in order. *)
Fixpoint wake_all (d : list nat) (h : gmap nat mutex) : gmap nat mutex :=
  match d with
  | [] => h
  | m :: d' => wake_all d' (alter (λ k, mutex_destroy (mutex_unlock k)) m h)
  end.

Definition release_view (v : LockVar) : LockVar :=
  set_lock false (set_deffered (Some []) v).

(** ** Lemmas *)

Section alone.
Context (n : Z).

(** One read through the pointer of lock [n]. *)
Lemma ptr_lookup s p : sv_wf s → ptr s n p → sv_lockvar_list s !! p = Some (view s n).
Proof.
  intros Hwf Hp. destruct Hp as (v & Hv & Hn).
  rewrite (view_ptr s n p v); [done|done|by exists v|done].
Qed.

(** A write through the pointer of lock [n]. *)
Lemma ptr_write s p w : sv_wf s → ptr s n p → lv_lock_number w = n →
  frame n s (put_lv p w s) ∧ ptr (put_lv p w s) n p ∧ view (put_lv p w s) n = w.
Proof.
  intros Hwf Hp Hw. pose proof (ptr_lookup s p Hwf Hp) as Hl.
  destruct (frame_put n s p (view s n) w Hwf Hp Hl) as (? & ? & _ & ?); [|done].
  by rewrite Hw, view_number.
Qed.

Lemma frame_trans s1 s2 s3 : frame n s1 s2 → frame n s2 s3 → frame n s1 s3.
Proof.
  intros [?? H1 ????] [?? H2 ????]. split; try congruence; eauto.
  intros n' Hn. by rewrite H2, H1.
Qed.

End alone.

(** [request_1_svc] without interference. *)
Lemma run_request_find t s pack :
  sv_wf s → ∃ p s1, request_step t s pack RqFind = Some (s1, RqReadMax p) ∧
    frame (rp_lock_number pack) s s1 ∧ ptr s1 (rp_lock_number pack) p ∧
    view s1 (rp_lock_number pack) = view s (rp_lock_number pack) ∧ sv_mutexes s1 = sv_mutexes s.
Proof.
  intros Hwf. destruct (find_lockvar_create s (rp_lock_number pack) Hwf)
    as (p & s1 & Hf & _ & _ & _ & _ & _).
  destruct (frame_find _ _ _ _ Hwf Hf) as (? & ? & ? & ?).
  exists p, s1. simpl. rewrite Hf. done.
Qed.

Lemma run_request_stop fuel t s pack pc :
  request_step t s pack pc = None → run_request fuel t s pack pc = (s, pc).
Proof. intros H. destruct fuel; simpl; [done|]. by rewrite H. Qed.

Lemma run_request_step fuel t s pack pc s' pc' :
  request_step t s pack pc = Some (s', pc') →
  run_request (S fuel) t s pack pc = run_request fuel t s' pack pc'.
Proof. intros H. simpl. by rewrite H. Qed.

(** Lines 176-184: allocate, append, lock once, block. *)
Lemma run_request_defer fuel t s pack p d :
  let n := rp_lock_number pack in
  sv_wf s → ptr s n p → lv_deffered (view s n) = Some d → (3 ≤ fuel)%nat →
  ∃ s', run_request fuel t s pack (RqAlloc p) = (s', RqLock2 t) ∧ frame n s s' ∧
    view s' n = set_deffered (Some (d ++ [t])) (view s n) ∧
    sv_mutexes s' = <[t := MLocked]> (sv_mutexes s).
Proof.
  intros n Hwf Hp Hd Hf. pose proof (ptr_lookup n s p Hwf Hp) as Hl.
  do 3 (destruct fuel as [|fuel]; [lia|]).
  set (s1 := put_mutex t MUnlocked s).
  set (s2 := put_lv p (set_deffered (Some (d ++ [t])) (view s n)) s1).
  destruct (ptr_write n s1 p (set_deffered (Some (d ++ [t])) (view s n))) as (Hfr & Hp2 & Hv2);
    [done|done|apply view_number|].
  exists (put_mutex t MLocked s2).
  rewrite (run_request_step _ _ _ _ _ s1 (RqAppend p t)) by done.
  rewrite (run_request_step _ _ _ _ _ s2 (RqLock1 t)) by (simpl; rewrite Hl; simpl; by rewrite Hd).
  rewrite (run_request_step _ _ _ _ _ (put_mutex t MLocked s2) (RqLock2 t)) by
    (simpl; by rewrite lookup_insert_eq).
  rewrite run_request_stop by (simpl; by rewrite lookup_insert_eq).
  split_and!; [done| |done|simpl; by rewrite insert_insert_eq].
  eapply frame_trans; [by apply (frame_mutex n s t MUnlocked)|].
  eapply frame_trans; [done|]. apply frame_mutex. by eapply fr_wf.
Qed.

(** The part after line 170, from a pointer to the variable. *)
Lemma run_request_test fuel t s pack p d :
  let n := rp_lock_number pack in
  sv_wf s → ptr s n p → lv_deffered (view s n) = Some d → (6 ≤ fuel)%nat →
  ∃ s', run_request fuel t s pack (RqTest1 p) =
      (s', request_result t (view s n) (sv_mac s) pack) ∧
    frame n s s' ∧
    view s' n = (if defer (view s n) (sv_mac s) pack
                 then set_deffered (Some (d ++ [t])) (view s n) else view s n) ∧
    sv_mutexes s' = request_mutexes t (view s n) (sv_mac s) pack (sv_mutexes s).
Proof.
  intros n Hwf Hp Hd Hf. pose proof (ptr_lookup n s p Hwf Hp) as Hl.
  pose proof (λ f, run_request_defer f t s pack p d Hwf Hp Hd) as Hdefer.
  assert (∀ f, run_request f t s pack RqRet = (s, RqRet)) as Hret
    by (intros; by apply run_request_stop).
  unfold request_result, request_mutexes, defer.
  destruct fuel as [|[|[|fuel]]]; [lia..|].
  rewrite (run_request_step _ _ _ _ _ s (if lv_requesting_cs (view s n) then RqTest2 p else RqRet))
    by (simpl; by rewrite Hl).
  destruct (lv_requesting_cs (view s n)); simpl andb; cbv iota;
    [|exists s; rewrite Hret; split_and!; [done|by apply frame_refl|done|done]].
  rewrite (run_request_step _ _ _ _ _ s
    (if lv_myseqno (view s n) <? rp_seqno pack then RqAlloc p else RqTest3 p))
    by (simpl; by rewrite Hl).
  destruct (lv_myseqno (view s n) <? rp_seqno pack); simpl orb; cbv iota; [apply Hdefer; lia|].
  rewrite (run_request_step _ _ _ _ _ s
    (if (rp_seqno pack =? lv_myseqno (view s n)) && (sv_mac s <? rp_mac pack)
     then RqAlloc p else RqRet)) by (simpl; by rewrite Hl).
  destruct (_ && _); [apply Hdefer; lia|].
  exists s. rewrite Hret. split_and!; [done|by apply frame_refl|done|done].
Qed.

Lemma run_request_alone fuel t s pack d :
  let n := rp_lock_number pack in
  sv_wf s → lv_deffered (view s n) = Some d → (9 ≤ fuel)%nat →
  ∃ s', run_request fuel t s pack RqFind =
      (s', request_result t (view s n) (sv_mac s) pack) ∧ frame n s s' ∧
    view s' n = request_view t (view s n) (sv_mac s) pack ∧
    sv_mutexes s' = request_mutexes t (view s n) (sv_mac s) pack (sv_mutexes s).
Proof.
  intros n Hwf Hd Hf. destruct fuel as [|[|[|fuel]]]; [lia..|].
  destruct (run_request_find t s pack Hwf) as (p & s1 & Hfind & Hf1 & Hp1 & Hv1 & Hm1).
  pose proof (fr_wf _ _ _ Hf1) as Hwf1. fold n in Hp1, Hv1, Hf1.
  pose proof (ptr_lookup n s1 p Hwf1 Hp1) as Hl1. rewrite Hv1 in Hl1.
  set (z := Z.max (rp_seqno pack) (lv_highestseqno (view s n))).
  destruct (ptr_write n s1 p (set_highestseqno z (view s n))) as (Hf2 & Hp2 & Hv2);
    [done|done|apply view_number|]. set (s2 := put_lv _ _ _) in *.
  rewrite (run_request_step _ _ _ _ _ _ _ Hfind).
  rewrite (run_request_step _ _ _ _ _ s1 (RqWriteMax p z)) by (simpl; by rewrite Hl1).
  rewrite (run_request_step _ _ _ _ _ s2 (RqTest1 p)) by (simpl; by rewrite Hl1).
  destruct (run_request_test fuel t s2 pack p d) as (s3 & Hr & Hf3 & Hv3 & Hm3);
    [by eapply fr_wf|done|by fold n; rewrite Hv2|lia|].
  assert (sv_mac s2 = sv_mac s) as Hmac by (exact (fr_mac _ _ _ Hf1)).
  fold n in Hr, Hf3, Hv3, Hm3. rewrite Hv2, Hmac in Hr, Hv3, Hm3.
  exists s3. split_and!; [done|by eapply frame_trans; [|eapply frame_trans]| |].
  - rewrite Hv3. unfold request_view. rewrite Hd. done.
  - rewrite Hm3. unfold request_mutexes. by rewrite <-Hm1.
Qed.

(** On a node that is not requesting, the handler replies at once. *)
Lemma run_request_idle t s pack d :
  let n := rp_lock_number pack in
  sv_wf s → lv_requesting_cs (view s n) = false → lv_deffered (view s n) = Some d →
  ∃ s', run_request 9 t s pack RqFind = (s', RqRet) ∧ frame n s s' ∧
    view s' n = set_highestseqno (Z.max (rp_seqno pack) (lv_highestseqno (view s n))) (view s n).
Proof.
  intros n Hwf Hidle Hd.
  destruct (run_request_alone 9 t s pack d Hwf Hd) as (s' & Hr & Hf & Hv & _); [lia|].
  exists s'. unfold request_result, request_view, defer in Hr, Hv. fold n in Hr, Hv.
  rewrite Hidle in Hr, Hv. done.
Qed.

(** [release_lock_1_svc] without interference. *)
Lemma run_release_stop fuel s n pc :
  release_step s n pc = None → run_release fuel s n pc = (s, pc).
Proof. intros H. destruct fuel; simpl; [done|]. by rewrite H. Qed.

Lemma run_release_step fuel s n pc s' pc' :
  release_step s n pc = Some (s', Goto pc') →
  run_release (S fuel) s n pc = run_release fuel s' n pc'.
Proof. intros H. simpl. by rewrite H. Qed.

Lemma alter_lookup_Some (f : mutex → mutex) (h : gmap nat mutex) m k :
  h !! m = Some k → alter f m h = <[m := f k]> h.
Proof.
  intros Hk. apply map_eq. intros i. destruct (decide (m = i)) as [->|Hne].
  - by rewrite lookup_alter_eq, lookup_insert_eq, Hk.
  - by rewrite lookup_alter_ne, lookup_insert_ne.
Qed.

(** The loop of lines 150-154. *)
Lemma run_release_loop fuel s n p d i :
  sv_wf s → ptr s n p → lv_deffered (view s n) = Some d →
  (∀ m, m ∈ d → is_Some (sv_mutexes s !! m)) →
  run_release (2 * (length d - i) + 1 + fuel) s n (RlLoop p i) =
  run_release fuel (set_mutexes (wake_all (drop i d) (sv_mutexes s)) s) n (RlFree p).
Proof.
  remember (length d - i)%nat as r eqn:Hr. revert s i Hr.
  induction r as [|r IH]; intros s i Hr Hwf Hp Hd Hall;
    pose proof (ptr_lookup n s p Hwf Hp) as Hl.
  - assert (d !! i = None) as Hi by (apply lookup_ge_None; lia).
    rewrite drop_ge by lia. simpl wake_all.
    replace (2 * 0 + 1 + fuel)%nat with (S fuel) by lia.
    rewrite (run_release_step _ _ _ _ s (RlFree p)) by
      (simpl; rewrite Hl; simpl; by rewrite Hd, Hi).
    by destruct s.
  - destruct (lookup_lt_is_Some_2 d i) as [m Hi]; [lia|].
    destruct (Hall m) as [k Hk]; [by eapply list_elem_of_lookup_2|].
    rewrite (drop_S _ m) by done. simpl wake_all.
    replace (2 * S r + 1 + fuel)%nat with (S (S (2 * r + 1 + fuel))) by lia.
    set (s1 := put_mutex m (mutex_unlock k) s).
    set (s2 := put_mutex m (mutex_destroy (mutex_unlock k)) s1).
    rewrite (run_release_step _ _ _ _ s1 (RlDestroy p i)) by
      (simpl; rewrite Hl; simpl; by rewrite Hd, Hi, Hk).
    rewrite (run_release_step _ _ _ _ s2 (RlLoop p (S i))) by
      (simpl; rewrite Hl; simpl; rewrite Hd; simpl; rewrite Hi; by rewrite lookup_insert_eq).
    rewrite (IH s2) by
      (first [lia|done|intros m' Hm'; simpl; rewrite !lookup_insert; repeat case_decide; eauto]).
    rewrite (alter_lookup_Some _ _ _ k) by done. simpl.
    by rewrite insert_insert_eq.
Qed.

Lemma run_release_alone fuel s n p d :
  sv_wf s → ptr s n p → lv_deffered (view s n) = Some d →
  (∀ m, m ∈ d → is_Some (sv_mutexes s !! m)) → (2 * length d + 5 ≤ fuel)%nat →
  ∃ s', run_release fuel s n RlFind = (s', Released) ∧ frame n s s' ∧
    view s' n = release_view (view s n) ∧ sv_mutexes s' = wake_all d (sv_mutexes s).
Proof.
  intros Hwf Hp Hd Hall Hf.
  replace fuel with (S (2 * (length d - 0) + 1 + (S (S (S (fuel - 2 * length d - 5))))))%nat by lia.
  rewrite (run_release_step _ _ _ _ s (RlLoop p 0)) by
    (simpl; unfold find_lockvar; by rewrite (ptr_index s n p)).
  rewrite run_release_loop with (d := d) by done. rewrite drop_0.
  set (s1 := set_mutexes _ s).
  assert (sv_wf s1 ∧ ptr s1 n p ∧ view s1 n = view s n) as (Hwf1 & Hp1 & Hv1) by done.
  pose proof (ptr_lookup n s1 p Hwf1 Hp1) as Hl1.
  destruct (ptr_write n s1 p (set_deffered None (view s1 n))) as (Hf2 & Hp2 & Hv2);
    [done|done|apply view_number|]. set (s2 := put_lv _ _ s1) in *.
  pose proof (ptr_lookup n s2 p (fr_wf _ _ _ Hf2) Hp2) as Hl2.
  destruct (ptr_write n s2 p (set_deffered (Some []) (view s2 n))) as (Hf3 & Hp3 & Hv3);
    [by eapply fr_wf|done|apply view_number|]. set (s3 := put_lv _ _ s2) in *.
  pose proof (ptr_lookup n s3 p (fr_wf _ _ _ Hf3) Hp3) as Hl3.
  destruct (ptr_write n s3 p (set_lock false (view s3 n))) as (Hf4 & Hp4 & Hv4);
    [by eapply fr_wf|done|apply view_number|]. set (s4 := put_lv _ _ s3) in *.
  rewrite (run_release_step _ _ _ _ s2 (RlNew p)) by (cbn [release_step]; by rewrite Hl1).
  rewrite (run_release_step _ _ _ _ s3 (RlUnlock p)) by (cbn [release_step]; by rewrite Hl2).
  rewrite (run_release_step _ _ _ _ s4 Released) by (cbn [release_step]; by rewrite Hl3).
  exists s4. split_and!; [by apply run_release_stop| |by rewrite Hv4, Hv3, Hv2, Hv1|done].
  assert (frame n s s1) by (by split).
  eapply frame_trans; [done|]. eapply frame_trans; [done|]. by eapply frame_trans.
Qed.

(** [acquire_lock_1_svc] up to the request loop. *)
Lemma run_acquire_step fuel s n pc s' pc' :
  acquire_step s n pc = Some (s', Goto pc') →
  run_acquire (S fuel) s n pc = run_acquire fuel s' n pc'.
Proof. intros H. simpl. by rewrite H. Qed.

Lemma run_acquire_alone s n :
  sv_wf s → lv_lock (view s n) = false → int_ok (lv_highestseqno (view s n) + 1) →
  ∃ s' p, run_acquire 5 s n AqFind = (s', AqLoop p 0) ∧ frame n s s' ∧ ptr s' n p ∧
    view s' n = acquire_view (view s n) ∧ sv_mutexes s' = sv_mutexes s.
Proof.
  intros Hwf Hfree Hok.
  destruct (find_lockvar_create s n Hwf) as (p & s1 & Hfind & _ & _ & _ & _ & _).
  destruct (frame_find _ _ _ _ Hwf Hfind) as (Hf1 & Hp1 & Hv1 & Hm1).
  pose proof (ptr_lookup n s1 p (fr_wf _ _ _ Hf1) Hp1) as Hl1. rewrite Hv1 in Hl1.
  destruct (ptr_write n s1 p (set_lock true (view s n))) as (Hf2 & Hp2 & Hv2);
    [by eapply fr_wf|done|apply view_number|]. set (s2 := put_lv _ _ s1) in *.
  pose proof (ptr_lookup n s2 p (fr_wf _ _ _ Hf2) Hp2) as Hl2. rewrite Hv2 in Hl2.
  set (v3 := set_requesting_cs true (set_lock true (view s n))).
  destruct (ptr_write n s2 p v3) as (Hf3 & Hp3 & Hv3);
    [by eapply fr_wf|done|apply view_number|]. set (s3 := put_lv _ _ s2) in *.
  pose proof (ptr_lookup n s3 p (fr_wf _ _ _ Hf3) Hp3) as Hl3. rewrite Hv3 in Hl3.
  destruct (ptr_write n s3 p (acquire_view (view s n))) as (Hf4 & Hp4 & Hv4);
    [by eapply fr_wf|done|apply view_number|]. set (s4 := put_lv _ _ s3) in *.
  rewrite (run_acquire_step _ _ _ _ s1 (AqLock p)) by (simpl; by rewrite Hfind).
  rewrite (run_acquire_step _ _ _ _ s2 (AqRequesting p)) by
    (cbn [acquire_step]; rewrite Hl1; simpl; by rewrite Hfree).
  rewrite (run_acquire_step _ _ _ _ s3 (AqReadHighest p)) by (cbn [acquire_step]; by rewrite Hl2).
  rewrite (run_acquire_step _ _ _ _ s3 (AqWriteSeqno p (lv_highestseqno (view s n)))) by
    (cbn [acquire_step]; by rewrite Hl3).
  rewrite (run_acquire_step _ _ _ _ s4 (AqLoop p 0)) by
    (cbn [acquire_step]; rewrite Hl3; cbn;
     by rewrite (proj2 (int_add_Some (lv_highestseqno (view s n)) 1 _) (conj eq_refl Hok))).
  exists s4, p. split_and!; [done| |done|done|done].
  eapply frame_trans; [done|]. eapply frame_trans; [done|]. by eapply frame_trans.
Qed.

(** ** The procedures' contracts *)

Lemma defer_false v mac pack :
  defer v mac pack = false ↔
  lv_requesting_cs v = false ∨ lexle (rp_seqno pack, rp_mac pack) (lv_myseqno v, mac).
Proof.
  unfold defer, lexle. simpl.
  destruct (lv_requesting_cs v); simpl; [|naive_solver].
  rewrite orb_false_iff, andb_false_iff, Z.ltb_ge, Z.eqb_neq, Z.ltb_ge.
  split; [intros [? [?|?]]; right; lia|intros [?|?]; [done|lia]].
Qed.

(** C14: request_1_svc, run without interference, raises highestseqno to the maximum of
    its own and the request's; it replies at once, leaving every other field of the lock
    variable and all mutexes as they are, exactly if the node is not requesting the lock
    or the request's (seqno, mac) is lexicographically at most the node's own; otherwise
    it also appends a new locked mutex to the deferred list and blocks on it, the other
    fields being unchanged. Other locks, the peers and the MAC address stay as they are.
    *)
Theorem request_1_svc_defers fuel t s pack d :
  let n := rp_lock_number pack in
  let v1 := set_highestseqno (Z.max (rp_seqno pack) (lv_highestseqno (view s n))) (view s n) in
  let first := lv_requesting_cs (view s n) = false ∨
    lexle (rp_seqno pack, rp_mac pack) (lv_myseqno (view s n), sv_mac s) in
  sv_wf s → lv_deffered (view s n) = Some d → (9 ≤ fuel)%nat →
  ∃ s' pc', run_request fuel t s pack RqFind = (s', pc') ∧ frame n s s' ∧
    (first → pc' = RqRet ∧ view s' n = v1 ∧ sv_mutexes s' = sv_mutexes s) ∧
    (¬ first → pc' = RqLock2 t ∧ request_step t s' pack pc' = None ∧
     view s' n = set_deffered (Some (d ++ [t])) v1 ∧
     sv_mutexes s' = <[t := MLocked]> (sv_mutexes s)).
Proof.
  intros n v1 first Hwf Hd Hf. pose proof (defer_false (view s n) (sv_mac s) pack) as Hiff.
  destruct (run_request_alone fuel t s pack d Hwf Hd Hf) as (s' & Hr & Hfr & Hv & Hm).
  exists s', (request_result t (view s n) (sv_mac s) pack). fold n in Hr, Hfr, Hv, Hm.
  unfold request_result, request_view, request_mutexes in *. rewrite Hd in Hv.
  destruct (defer (view s n) (sv_mac s) pack); rewrite Hv;
    split_and!; try done; intros Hcond.
  - by apply Hiff in Hcond.
  - split_and!; [done| |done|done]. simpl. by rewrite Hm, lookup_insert_eq.
  - by destruct Hcond; apply Hiff.
Qed.

(** Waking up: the mutexes of the array are unlocked and destroyed. *)
Lemma wake_all_not_in d h m : m ∉ d → wake_all d h !! m = h !! m.
Proof.
  revert h. induction d as [|m' d IH]; intros h Hm; simpl; [done|].
  rewrite not_elem_of_cons in Hm. rewrite IH by tauto. by rewrite lookup_alter_ne by naive_solver.
Qed.

Lemma wake_all_in d h m k :
  NoDup d → m ∈ d → h !! m = Some k → wake_all d h !! m = Some (mutex_destroy (mutex_unlock k)).
Proof.
  intros Hnd. revert h. induction Hnd as [|m' d Hm' Hnd IH]; intros h Hin Hk;
    [by apply not_elem_of_nil in Hin|]. simpl.
  apply elem_of_cons in Hin as [->|Hin].
  - by rewrite wake_all_not_in, lookup_alter_eq, Hk by done.
  - apply IH; [done|]. rewrite lookup_alter_ne; [done|]. by intros ->.
Qed.

(** A call of [pthread_mutex_lock] would return. *)
Definition lockable (k : mutex) : Prop := is_Some (mutex_lock k).

Lemma wake_lockable k : lockable (mutex_destroy (mutex_unlock k)).
Proof. destruct k as [u|u|]; simpl; try case_decide; by eexists. Qed.

Lemma wake_all_stays_lockable d h m k :
  h !! m = Some k → lockable k → ∃ k', wake_all d h !! m = Some k' ∧ lockable k'.
Proof.
  revert h k. induction d as [|m' d IH]; intros h k Hk Hl; simpl; [by eauto|].
  destruct (decide (m' = m)) as [->|Hne].
  - eapply IH; [by rewrite lookup_alter_eq, Hk|apply wake_lockable].
  - eapply IH; [by rewrite lookup_alter_ne|done].
Qed.

Lemma wake_all_lockable d h m k :
  m ∈ d → h !! m = Some k → ∃ k', wake_all d h !! m = Some k' ∧ lockable k'.
Proof.
  revert h k. induction d as [|m' d IH]; intros h k Hin Hk; [by apply not_elem_of_nil in Hin|]. simpl.
  destruct (decide (m' = m)) as [->|Hne].
  - eapply wake_all_stays_lockable; [by rewrite lookup_alter_eq, Hk|apply wake_lockable].
  - apply elem_of_cons in Hin as [->|Hin]; [done|].
    eapply (IH _ k); [done|]. by rewrite lookup_alter_ne.
Qed.

(** C15: release_lock_1_svc, run without interference, terminates within 2 * len + 5
    steps for a deferred list of length len; it empties the list and frees the local
    lock, no other field of the lock variable, no other lock and no other mutex changes.
    A handler that had locked its mutex (line 183) can then return; a handler that was
    between the append and the lock (lines 180 to 183) finds a mutex that was unlocked
    too early: it locks it once and then blocks for ever at line 184. *)
Theorem release_lock_1_svc_wakes fuel s n p d :
  sv_wf s → ptr s n p → lv_deffered (view s n) = Some d → NoDup d →
  (∀ m, m ∈ d → sv_mutexes s !! m = Some MLocked ∨ sv_mutexes s !! m = Some MUnlocked) →
  (2 * length d + 5 ≤ fuel)%nat →
  ∃ s', run_release fuel s n RlFind = (s', Released) ∧ frame n s s' ∧
    view s' n = set_lock false (set_deffered (Some []) (view s n)) ∧
    (∀ m pack, m ∈ d → sv_mutexes s !! m = Some MLocked →
       ∃ s'', request_step m s' pack (RqLock2 m) = Some (s'', RqRet)) ∧
    (∀ m pack, m ∈ d → sv_mutexes s !! m = Some MUnlocked →
       ∃ s'', request_step m s' pack (RqLock1 m) = Some (s'', RqLock2 m) ∧
         request_step m s'' pack (RqLock2 m) = None) ∧
    (∀ m, m ∉ d → sv_mutexes s' !! m = sv_mutexes s !! m).
Proof.
  intros Hwf Hp Hd Hnd Hall Hf.
  assert (∀ m, m ∈ d → is_Some (sv_mutexes s !! m)) as Hsome
    by (intros m Hin; destruct (Hall m Hin) as [->| ->]; by eexists).
  destruct (run_release_alone fuel s n p d Hwf Hp Hd Hsome Hf) as (s' & Hr & Hfr & Hv & Hm).
  exists s'. split_and!; [done..| | |].
  - intros m pack Hin Hk. exists (put_mutex m MDestroyed s'). simpl.
    by rewrite Hm, (wake_all_in d _ m MLocked Hnd Hin Hk).
  - intros m pack Hin Hk. exists (put_mutex m (MTaken 0) s'). simpl.
    rewrite Hm, (wake_all_in d _ m MUnlocked Hnd Hin Hk). split; [done|]. by rewrite lookup_insert_eq.
  - intros m Hin. by rewrite Hm, wake_all_not_in.
Qed.

(** ** Lifting runs into the system *)

Section progress.
Context (host_of : bytes → option nat).

Lemma request_step_alive t s pack pc s' pc' :
  request_step t s pack pc = Some (s', pc') → sv_alive s' = sv_alive s.
Proof.
  unfold request_step, find_lockvar, mbind, option_bind. intros Hs.
  repeat case_match; simplify_eq; done.
Qed.

Lemma upd_id t th j s w :
  w_threads w !! t = Some th → w_servers w !! j = Some s → upd t th j s w = w.
Proof.
  intros Ht Hj. destruct w as [sv th0]. unfold upd, set_thread, set_server. simpl in *.
  by rewrite (list_insert_id sv j s Hj), (list_insert_id th0 t th Ht).
Qed.

Lemma set_server_id j s w : w_servers w !! j = Some s → set_server j s w = w.
Proof. intros Hj. destruct w as [sv ths]. unfold set_server. simpl in *. by rewrite list_insert_id. Qed.

Lemma upd_upd t th th' j s s' w : upd t th' j s' (upd t th j s w) = upd t th' j s' w.
Proof. unfold upd, set_thread, set_server. simpl. by rewrite !list_insert_insert_eq. Qed.

(** A handler that runs alone on its server runs so in the system. *)
Lemma run_request_rtc fuel t j s pack pc s' pc' w :
  w_threads w !! t = Some (THandler j pack pc) → w_servers w !! j = Some s →
  sv_alive s = true → run_request fuel t s pack pc = (s', pc') →
  rtc (step host_of) w (upd t (THandler j pack pc') j s' w).
Proof.
  revert s pc w. induction fuel as [|fuel IH]; intros s pc w Ht Hj Hal Hr; simpl in Hr.
  { simplify_eq. by rewrite upd_id. }
  destruct (request_step t s pack pc) as [[s1 pc1]|] eqn:Hs; [|simplify_eq; by rewrite upd_id].
  eapply rtc_l.
  - exists (Run t). split; [done|]. simpl. rewrite Ht. simpl. unfold live. rewrite Hj. simpl.
    rewrite Hal. simpl. unfold run_handler. by rewrite Hs.
  - fold (upd t (THandler j pack pc1) j s1 w).
    rewrite <-(upd_upd t (THandler j pack pc1) (THandler j pack pc') j s1 s' w).
    eapply IH; [by erewrite upd_thread_eq|by erewrite upd_server_eq| |done].
    by rewrite (request_step_alive _ _ _ _ _ _ Hs).
Qed.

(** Peer [j'] is running and has not asked for lock [n]. *)
Definition idle_peer (w : World) (n : Z) (a : bytes) : Prop :=
  ∃ j' s', host_of a = Some j' ∧ w_servers w !! j' = Some s' ∧ sv_alive s' = true ∧
    lv_requesting_cs (view s' n) = false ∧ is_Some (lv_deffered (view s' n)).

Definition all_wf (w : World) : Prop := ∀ j s, w_servers w !! j = Some s → sv_wf s.

(** A session in its request loop. *)
Record loop_state (w : World) (t j : nat) (n : Z) (p i : nat) (s : Server) : Prop := {
  ls_wf : all_wf w;
  ls_thread : w_threads w !! t = Some (TSession j n (AqLoop p i));
  ls_server : w_servers w !! j = Some s;
  ls_alive : sv_alive s = true;
  ls_ptr : ptr s n p;
  ls_requesting : lv_requesting_cs (view s n) = true;
  ls_peers : ∀ k a, sv_nodes s !! k = Some a → idle_peer w n a
}.

Lemma run_one w t w' :
  exec host_of (Run t) w = Some w' → step host_of w w'.
Proof. intros H. by exists (Run t). Qed.

(** The call of one round: a handler is started on the peer. *)
Lemma loop_call w t j n p i s a j' s' :
  loop_state w t j n p i s → sv_nodes s !! i = Some a → host_of a = Some j' →
  w_servers w !! j' = Some s' → sv_alive s' = true →
  step host_of w (set_thread t (TSession j n (AqCall p i (length (w_threads w))))
    (spawn (THandler j' (mkRequestPack n (lv_myseqno (view s n)) (sv_mac s)) RqFind) w)).
Proof.
  intros [Hwf Ht Hj Hal Hp Hreq Hpeers] Hi Ha Hj' Hal'.
  pose proof (ptr_lookup n s p (Hwf _ _ Hj) Hp) as Hl.
  apply (run_one _ t). simpl. rewrite Ht. simpl. unfold live. rewrite Hj. simpl. rewrite Hal.
  simpl. unfold session_step. simpl. rewrite Hl. simpl. rewrite Hi. simpl. unfold reach.
  rewrite Ha. simpl. rewrite Hj'. simpl. by rewrite Hal'.
Qed.

(** The reply that ends the round. *)
Lemma loop_reply w t j n p i c s j' pack :
  w_threads w !! t = Some (TSession j n (AqCall p i c)) → w_servers w !! j = Some s →
  sv_alive s = true → w_threads w !! c = Some (THandler j' pack RqRet) →
  step host_of w (set_thread t (TSession j n (AqLoop p (S i))) w).
Proof.
  intros Ht Hj Hal Hc. apply (run_one _ t). cbn [exec]. rewrite Ht. simpl. unfold live.
  rewrite Hj. simpl. rewrite Hal. simpl. by rewrite Hc.
Qed.

(** What a session's requests leave alone: idle peers stay idle, for every
    lock, and the other threads stay where they are. *)
Definition peers_kept (t : nat) (w w' : World) : Prop :=
  (∀ n a, idle_peer w n a → idle_peer w' n a) ∧
  ∀ t' th, t' ≠ t → w_threads w !! t' = Some th → w_threads w' !! t' = Some th.

Lemma peers_kept_trans t w1 w2 w3 : peers_kept t w1 w2 → peers_kept t w2 w3 → peers_kept t w1 w3.
Proof. intros [H1 H1'] [H2 H2']. split; auto. Qed.

(** A peer that has answered a request. *)
Lemma idle_peer_upd w w' j' s' s2 n z n' a :
  w_servers w !! j' = Some s' → frame n s' s2 →
  view s2 n = set_highestseqno z (view s' n) → w_servers w' !! j' = Some s2 →
  (∀ i, i ≠ j' → w_servers w' !! i = w_servers w !! i) →
  idle_peer w n' a → idle_peer w' n' a.
Proof.
  intros Hj' Hf Hv Hj2 Hoth (j0 & s0 & Ha0 & Hj0 & Hal0 & Hid0 & Hd0).
  destruct (decide (j0 = j')) as [->|Hne]; [|exists j0, s0; by rewrite Hoth].
  assert (s0 = s') as -> by congruence. exists j', s2.
  destruct (decide (n' = n)) as [->|Hn].
  - rewrite Hv. split_and!; try done. by rewrite (fr_alive _ _ _ Hf).
  - rewrite (fr_other _ _ _ Hf) by done. split_and!; try done. by rewrite (fr_alive _ _ _ Hf).
Qed.

(** One round of the loop: call, handler, reply. *)
Lemma loop_round w t j n p i s a :
  loop_state w t j n p i s → sv_nodes s !! i = Some a →
  ∃ w', rtc (step host_of) w w' ∧ loop_state w' t j n p (S i) s ∧ peers_kept t w w'.
Proof.
  intros Hls Hi. pose proof Hls as [Hwf Ht Hj Hal Hp Hreq Hpeers].
  destruct (Hpeers i a Hi) as (j' & s' & Ha & Hj' & Hal' & Hidle & [d Hd]).
  assert (j ≠ j') as Hjj by (intros ->; simplify_eq; congruence).
  pose proof (loop_call _ _ _ _ _ _ _ _ _ _ Hls Hi Ha Hj' Hal') as H1.
  set (pack := mkRequestPack n (lv_myseqno (view s n)) (sv_mac s)) in *.
  set (c := length (w_threads w)) in *. set (w1 := set_thread _ _ _) in H1.
  assert (t < c)%nat as Htc by (by eapply lookup_lt_Some).
  assert (w_threads w1 !! c = Some (THandler j' pack RqFind)) as Hc1.
  { simpl. rewrite list_lookup_insert_ne by lia. apply lookup_snoc_Some. by right. }
  assert (w_threads w1 !! t = Some (TSession j n (AqCall p i c))) as Ht1.
  { simpl. apply list_lookup_insert_eq. rewrite length_app. simpl. lia. }
  destruct (run_request_idle c s' pack d (Hwf _ _ Hj') Hidle Hd) as (s2 & Hr & Hf & Hv).
  change (rp_lock_number pack) with n in Hf, Hv.
  pose proof (run_request_rtc 9 c j' s' pack RqFind s2 RqRet w1 Hc1 Hj' Hal' Hr) as H2.
  set (w2 := upd _ _ _ _ w1) in H2.
  assert (w_servers w2 !! j = Some s) as Hj2 by (unfold w2; by rewrite upd_server_ne).
  assert (w_threads w2 !! t = Some (TSession j n (AqCall p i c))) as Ht2
    by (unfold w2; rewrite upd_thread_ne by lia; done).
  assert (w_threads w2 !! c = Some (THandler j' pack RqRet)) as Hc2
    by (unfold w2; by erewrite upd_thread_eq).
  pose proof (loop_reply _ _ _ _ _ _ _ _ _ _ Ht2 Hj2 Hal Hc2) as H3.
  set (w3 := set_thread t _ w2) in H3.
  assert (peers_kept t w w3) as Hkept.
  { split.
    - intros n' a'. eapply idle_peer_upd; [done..| |].
      + exact (upd_server_eq c (THandler j' pack RqRet) j' s2 s' w1 Hj').
      + intros k Hk. exact (upd_server_ne c (THandler j' pack RqRet) j' s2 w1 k Hk).
    - intros t' th Hne Ht'. assert (t' < c)%nat by (by eapply lookup_lt_Some). simpl.
      rewrite !list_lookup_insert_ne by lia. by apply lookup_app_l_Some. }
  exists w3. split; [eapply rtc_l; [exact H1|]; eapply rtc_r; [exact H2|exact H3]|].
  split; [|done]. split; try done.
  - intros j0 s0 Hj0. apply (upd_server_inv c (THandler j' pack RqRet) j' s2 w1) in Hj0 as [[_ ->]|[_ ?]];
      [by eapply fr_wf|by eapply Hwf].
  - simpl. apply list_lookup_insert_eq. by eapply lookup_lt_Some.
  - intros k a' Hk. by apply Hkept, (Hpeers k).
Qed.

Lemma loop_to_held r w t j n p i s :
  loop_state w t j n p i s → (length (sv_nodes s) - i = r)%nat →
  ∃ w', rtc (step host_of) w w' ∧ w_threads w' !! t = Some (TSession j n Held) ∧
    w_servers w' !! j = Some s ∧ all_wf w' ∧ peers_kept t w w'.
Proof.
  revert w i. induction r as [|r IH]; intros w i Hls Hr.
  - assert (sv_nodes s !! i = None) as Hi by (apply lookup_ge_None; lia).
    destruct Hls as [Hwf Ht Hj Hal Hp Hreq Hpeers].
    pose proof (ptr_lookup n s p (Hwf _ _ Hj) Hp) as Hl.
    exists (set_thread t (TSession j n Held) w). split_and!; [| |done|done|].
    2:{ simpl. apply list_lookup_insert_eq. by eapply lookup_lt_Some. }
    2:{ split; [done|]. intros t' th Hne Ht'. simpl. by rewrite list_lookup_insert_ne. }
    rewrite (upd_same_server _ _ j s) by done. apply rtc_once, (run_one _ t). simpl. rewrite Ht. simpl. unfold live. rewrite Hj. simpl.
    rewrite Hal. simpl. unfold session_step. simpl. rewrite Hl. simpl. by rewrite Hi.
  - destruct (lookup_lt_is_Some_2 (sv_nodes s) i) as [a Hi]; [lia|].
    destruct (loop_round w t j n p i s a Hls Hi) as (w1 & Hr1 & Hls1 & Hk1).
    destruct (IH w1 (S i) Hls1) as (w2 & Hr2 & Hh & Hs & Hwf & Hk2); [lia|].
    exists w2. split_and!; [by etrans|done..|by eapply peers_kept_trans].
Qed.

(** A session that runs alone in a procedure runs so in the system. *)
Lemma acquire_step_pc s n pc s' a w t j :
  acquire_step s n pc = Some (s', a) →
  run_session host_of t j n pc s w = Some (perform host_of t j n s' a w).
Proof.
  intros Ha. unfold run_session, session_step. rewrite Ha. by destruct pc.
Qed.

(** Thread [t] takes a step and is not in a critical section. *)
Definition own_step (t : nat) (w w' : World) : Prop :=
  exec host_of (Run t) w = Some w' ∧ ∀ j n, w_threads w !! t ≠ Some (TSession j n Held).

Lemma run_acquire_own fuel t j n s pc s' pc' w :
  w_threads w !! t = Some (TSession j n pc) → w_servers w !! j = Some s →
  sv_alive s = true → run_acquire fuel s n pc = (s', pc') →
  rtc (own_step t) w (upd t (TSession j n pc') j s' w).
Proof.
  revert s pc w. induction fuel as [|fuel IH]; intros s pc w Ht Hj Hal Hr; simpl in Hr.
  { simplify_eq. by rewrite upd_id. }
  destruct (acquire_step s n pc) as [[s1 [pc1| |]]|] eqn:Hs; try (simplify_eq; by rewrite upd_id).
  eapply rtc_l.
  - split; [|intros j0 n0 Ht0; by simplify_eq].
    simpl. rewrite Ht. simpl. unfold live. rewrite Hj. simpl. rewrite Hal.
    simpl. by rewrite (acquire_step_pc _ _ _ _ _ _ _ _ Hs).
  - simpl. fold (upd t (TSession j n pc1) j s1 w).
    rewrite <-(upd_upd t (TSession j n pc1) (TSession j n pc') j s1 s' w).
    eapply IH; [by erewrite upd_thread_eq|by erewrite upd_server_eq| |done].
    rewrite <-Hal. revert Hs. unfold acquire_step, find_lockvar, mbind, option_bind.
    intros Hs. repeat case_match; simplify_eq; done.
Qed.

Lemma run_acquire_rtc fuel t j n s pc s' pc' w :
  w_threads w !! t = Some (TSession j n pc) → w_servers w !! j = Some s →
  sv_alive s = true → run_acquire fuel s n pc = (s', pc') →
  rtc (step host_of) w (upd t (TSession j n pc') j s' w).
Proof.
  intros Ht Hj Hal Hr. eapply rtc_subrel; [|by eapply run_acquire_own].
  intros w1 w2 [He _]. by apply (run_one _ t).
Qed.

Lemma release_step_pc s n pc s' a w t j :
  release_step s n pc = Some (s', a) →
  run_session host_of t j n pc s w = Some (perform host_of t j n s' a w).
Proof.
  intros Ha. unfold run_session, session_step. destruct pc; try done; simpl acquire_step; by rewrite Ha.
Qed.

Lemma run_release_rtc fuel t j n s pc s' pc' w :
  w_threads w !! t = Some (TSession j n pc) → w_servers w !! j = Some s →
  sv_alive s = true → run_release fuel s n pc = (s', pc') →
  rtc (step host_of) w (upd t (TSession j n pc') j s' w).
Proof.
  revert s pc w. induction fuel as [|fuel IH]; intros s pc w Ht Hj Hal Hr; simpl in Hr.
  { simplify_eq. by rewrite upd_id. }
  destruct (release_step s n pc) as [[s1 [pc1| |]]|] eqn:Hs; try (simplify_eq; by rewrite upd_id).
  eapply rtc_l.
  - apply (run_one _ t). simpl. rewrite Ht. simpl. unfold live. rewrite Hj. simpl. rewrite Hal.
    simpl. by rewrite (release_step_pc _ _ _ _ _ _ _ _ Hs).
  - simpl. fold (upd t (TSession j n pc1) j s1 w).
    rewrite <-(upd_upd t (TSession j n pc1) (TSession j n pc') j s1 s' w).
    eapply IH; [by erewrite upd_thread_eq|by erewrite upd_server_eq| |done].
    rewrite <-Hal. revert Hs. unfold release_step, find_lockvar, mbind, option_bind.
    intros Hs. repeat case_match; simplify_eq; done.
Qed.

(** The last reply of a request loop ends the acquisition. *)
Lemma last_reply_held w t j n p k c s j' pack :
  w_threads w !! t = Some (TSession j n (AqCall p k c)) → w_servers w !! j = Some s →
  sv_alive s = true → sv_wf s → ptr s n p → length (sv_nodes s) = S k →
  w_threads w !! c = Some (THandler j' pack RqRet) →
  ∃ w', rtc (step host_of) w w' ∧ w_threads w' !! t = Some (TSession j n Held) ∧
    ∀ t', t' ≠ t → w_threads w' !! t' = w_threads w !! t'.
Proof.
  intros Ht Hj Hal Hwf Hp Hlen Hc.
  pose proof (loop_reply w t j n p k c s j' pack Ht Hj Hal Hc) as H1.
  set (w1 := set_thread t (TSession j n (AqLoop p (S k))) w) in H1.
  assert (w_threads w1 !! t = Some (TSession j n (AqLoop p (S k)))) as Ht1.
  { simpl. apply list_lookup_insert_eq. by eapply lookup_lt_Some. }
  assert (sv_nodes s !! S k = None) as Hend by (apply lookup_ge_None; lia).
  exists (upd t (TSession j n Held) j s w1). split_and!.
  - eapply rtc_l; [exact H1|]. apply rtc_once, (run_one _ t). cbn [exec]. rewrite Ht1. simpl.
    unfold live. simpl. rewrite Hj. simpl. rewrite Hal. simpl. unfold session_step. simpl.
    rewrite (ptr_lookup n s p Hwf Hp). simpl. by rewrite Hend.
  - by erewrite upd_thread_eq.
  - intros t' Hne. rewrite upd_thread_ne by done. simpl. by rewrite list_lookup_insert_ne.
Qed.

(** ** Waiting for a node without sessions *)

(** A step that starts no session for lock [n] on node [j]. *)
Definition step_without (j : nat) (n : Z) (w w' : World) : Prop :=
  max_exclusive w ∧ ∃ l, is_rpc_fail l = false ∧ l ≠ Start j n ∧ exec host_of l w = Some w'.

(** No session for lock [n] on node [j] can run any more. *)
Definition quiet (w : World) (j : nat) (n : Z) : Prop :=
  ∀ t pc, w_threads w !! t = Some (TSession j n pc) → pc = Released ∨ pc = SUndef.

(** Handler [c] of node [j] is blocked in its second [pthread_mutex_lock]. *)
Definition blocked (w : World) (j c : nat) (pack : RequestPack) : Prop :=
  w_threads w !! c = Some (THandler j pack (RqLock2 c)) ∧
  ∃ s u, w_servers w !! j = Some s ∧ sv_mutexes s !! c = Some (MTaken u).

(** Sessions are started by [Start] only. *)
Lemma exec_old_session l w w' j n t pc' :
  l ≠ Start j n → exec host_of l w = Some w' →
  w_threads w' !! t = Some (TSession j n pc') →
  ∃ pc, w_threads w !! t = Some (TSession j n pc).
Proof.
  intros Hl He Ht.
  assert (∀ t1 j1 n1 pc1 pc2 sv ths, w_threads w !! t1 = Some (TSession j1 n1 pc1) →
    w_threads (set_thread t1 (TSession j1 n1 pc2) (mkWorld sv ths)) !! t = Some (TSession j n pc') →
    (ths !! t = Some (TSession j n pc') → ∃ pc, w_threads w !! t = Some (TSession j n pc)) →
    ∃ pc, w_threads w !! t = Some (TSession j n pc)) as Hset.
  { intros t1 j1 n1 pc1 pc2 sv ths Ht1 Hset Hrest.
    apply set_thread_lookup in Hset as [[-> [= -> -> _]]|[_ ?]]; eauto. }
  destruct l as [j1 n1|t1|t1]; simpl in He.
  - apply bind_Some in He as (s & _ & [= <-]). simpl in Ht.
    apply lookup_snoc_Some in Ht as [?|[-> [= -> -> _]]]; [eauto|done].
  - apply bind_Some in He as ([j1 n1 pc1|j1 pack pc1] & Ht1 & He);
      apply bind_Some in He as (s & _ & He).
    + assert (∀ th, (w_threads w ++ [th]) !! t = Some (TSession j n pc') →
        (∃ j0 p0 c0, th = THandler j0 p0 c0) → ∃ pc, w_threads w !! t = Some (TSession j n pc)) as Hsp.
      { intros th Hth (j0 & p0 & c0 & ->). apply lookup_snoc_Some in Hth as [?|[_ ?]]; [eauto|done]. }
      unfold run_session, perform in He.
      repeat case_match; simplify_eq; eauto;
        try (eapply Hset; [done|exact Ht|]; simpl; eauto 10).
    + unfold run_handler in He. case_match; [|done]. case_match. simplify_eq.
      apply (upd_thread_inv t1 _ j1 _ w) in Ht as [[_ ?]|[_ ?]]; [done|eauto].
  - apply bind_Some in He as (th & Ht1 & He). repeat case_match; simplify_eq.
    apply bind_Some in He as (s & _ & [= <-]).
    eapply Hset; [done|exact Ht|]. eauto.
Qed.

Lemma blocked_wstep w w' j c pack :
  Inv host_of w → wstep host_of w w' → quiet w j (rp_lock_number pack) →
  blocked w j c pack → blocked w' j c pack.
Proof.
  intros HI Hw Hq (Hc & s & u & Hs & Hm).
  destruct Hw as [t j1 n pc pc' s1 s1' Ht Hj Hmv|t j1 pack1 pc pc' s1 s1' Ht Hj Hf Hp Hl|th Hth|j1 s1 Hj].
  - split; [rewrite upd_thread_ne; [done|congruence]|].
    destruct (decide (j = j1)) as [<-|Hne]; [|exists s, u; by rewrite upd_server_ne].
    assert (s1 = s) as -> by congruence.
    exists s1', u. rewrite (upd_server_eq _ _ _ _ s) by done. split; [done|].
    destruct (sess_move_mutex _ _ _ _ _ _ _ Hmv) as [->|(d & m & k & Hd & Hin & -> & Hsec & _)]; [done|].
    destruct (decide (m = c)) as [->|Hne]; [|by rewrite lookup_insert_ne].
    destruct (inv_deff _ _ HI _ _ _ _ _ Hs Hd Hin) as (pack' & pc1 & Hc' & <-). simplify_eq.
    by destruct (Hq _ _ Ht) as [->| ->].
  - destruct (decide (t = c)) as [->|Hne].
    + simplify_eq. inversion Hl as [| | | | | | | | | | | | |m k k' v h Hk Hlock]; subst.
      rewrite Hm in Hk. by simplify_eq.
    + split; [by rewrite upd_thread_ne|].
      destruct (decide (j = j1)) as [<-|Hne1]; [|exists s, u; by rewrite upd_server_ne].
      assert (s1 = s) as -> by congruence.
      exists s1', u. rewrite (upd_server_eq _ _ _ _ s) by done. split; [done|]. rewrite <-Hm.
      destruct (inv_hdl _ _ HI _ _ _ _ Ht) as (s2 & Hs2 & Hok). assert (s2 = s) as -> by congruence.
      by eapply (handler_mutex w t j pack1 pc).
  - split; [simpl; by apply lookup_app_l_Some|by exists s, u].
  - split; [done|]. destruct (decide (j = j1)) as [<-|Hne]; simpl.
    + exists (set_alive false s1), u. assert (s1 = s) as -> by congruence.
      rewrite list_lookup_insert_eq by (by eapply lookup_lt_Some). done.
    + exists s, u. by rewrite list_lookup_insert_ne.
Qed.

Lemma wait_wstep w w' j c pack t i n p k :
  Inv host_of w → wstep host_of w w' → quiet w j (rp_lock_number pack) →
  blocked w j c pack → w_threads w !! t = Some (TSession i n (AqCall p k c)) →
  blocked w' j c pack ∧ w_threads w' !! t = Some (TSession i n (AqCall p k c)).
Proof.
  intros HI Hw Hq Hb Ht. split; [by eapply blocked_wstep|].
  destruct (wstep_caller_kept _ _ _ _ _ _ _ _ _ Hw Ht) as [?|(j' & pack' & Hc)]; [done|].
  destruct Hb as [Hc' _]. congruence.
Qed.

Lemma quiet_spawn_handler w j n th :
  (∃ j0 p0 c0, th = THandler j0 p0 c0) → quiet w j n → quiet (spawn th w) j n.
Proof.
  intros (j0 & p0 & c0 & ->) Hq t pc Ht. simpl in Ht.
  apply lookup_snoc_Some in Ht as [?|[_ ?]]; [by eapply Hq|done].
Qed.

(** Sessions that have ended stay so. *)
Lemma session_ended w w' t j n pc pc' :
  (wstep host_of w w' ∧ no_new_handlers w w') ∨ call_step host_of w w' →
  w_threads w !! t = Some (TSession j n pc) → pc = Released ∨ pc = SUndef →
  w_threads w' !! t = Some (TSession j n pc') → pc' = pc.
Proof.
  intros Hstep Ht Hend Ht'.
  assert (∀ w w', wstep host_of w w' → w_threads w !! t = Some (TSession j n pc) →
    w_threads w' !! t = Some (TSession j n pc)) as Hkeep.
  { clear -Hend. intros w w' Hw Ht.
    destruct Hw as [t1 j1 n1 pc1 pc2 s s' Ht1 Hj Hm|t1 j1 pack1 pc1 pc2 s s' Ht1 Hj Hf Hp Hl|th Hth|j1 s Hj].
    - rewrite upd_thread_ne; [done|]. intros ->. simplify_eq.
      destruct Hend as [->| ->]; inversion Hm as [? ? ? _ _ Hl| | |]; inversion Hl.
    - rewrite upd_thread_ne; [done|]. congruence.
    - simpl. by apply lookup_app_l_Some.
    - done. }
  destruct Hstep as [[Hw _]|Hc].
  - rewrite (Hkeep _ _ Hw Ht) in Ht'. congruence.
  - destruct (call_step_wsteps _ _ _ Hc) as (jc & pk & _ & H1 & H2).
    rewrite (Hkeep _ _ H2 (Hkeep _ _ H1 Ht)) in Ht'. congruence.
Qed.

Lemma wait_forever_step w w' j c pack t i n p k :
  Inv host_of w → step_without j (rp_lock_number pack) w w' → quiet w j (rp_lock_number pack) →
  blocked w j c pack → w_threads w !! t = Some (TSession i n (AqCall p k c)) →
  Inv host_of w' ∧ quiet w' j (rp_lock_number pack) ∧ blocked w' j c pack ∧
  w_threads w' !! t = Some (TSession i n (AqCall p k c)).
Proof.
  intros HI (Hex & l & Hfail & Hl & He) Hq Hb Ht.
  assert (step host_of w w') as Hs by (by exists l).
  split; [by eapply Inv_step|].
  pose proof (exec_cases host_of w l w' HI Hfail He) as Hcases.
  split.
  { intros t0 pc0 Ht0.
    destruct (exec_old_session _ _ _ _ _ _ _ Hl He Ht0) as [pc1 Ht1].
    rewrite (session_ended _ _ _ _ _ _ _ Hcases Ht1 (Hq _ _ Ht1) Ht0). by eapply Hq. }
  destruct Hcases as [[Hw _]|Hc]; [by eapply wait_wstep|].
  destruct (call_step_wsteps _ _ _ Hc) as (jc & pk & Hf & H1 & H2).
  destruct (wait_wstep _ _ _ _ _ _ _ _ _ _ HI H1 Hq Hb Ht) as [Hb1 Ht1].
  eapply wait_wstep; [by eapply Inv_wstep|done|apply quiet_spawn_handler; [by eauto|done]|done|done].
Qed.

(** C20: A request whose handler is blocked on a node with no running session for that
    lock is not answered by any continuation without RPC failure in which line 170 is
    executed by one handler at a time and no new session for the lock starts on that
    node: the requesting session keeps waiting in the same call, until the call times
    out. *)
Theorem deferred_forever w0 w w' j c pack t i n p k :
  initial host_of w0 → rtc (step_excl host_of) w0 w →
  quiet w j (rp_lock_number pack) → blocked w j c pack →
  w_threads w !! t = Some (TSession i n (AqCall p k c)) →
  rtc (step_without j (rp_lock_number pack)) w w' →
  w_threads w' !! t = Some (TSession i n (AqCall p k c)).
Proof.
  intros Hi Hr Hq Hb Ht Hr'.
  destruct (reach_Inv host_of w0 w Hi Hr) as [HI _].
  assert (Inv host_of w' ∧ quiet w' j (rp_lock_number pack) ∧ blocked w' j c pack ∧
    w_threads w' !! t = Some (TSession i n (AqCall p k c))) as (_ & _ & _ & ?); [|done].
  revert Hr'. apply (rtc_invariant _ (λ w, Inv host_of w ∧ quiet w j (rp_lock_number pack) ∧
    blocked w j c pack ∧ w_threads w !! t = Some (TSession i n (AqCall p k c)))); [|done].
  intros a b (? & ? & ? & ?) Hs. by eapply wait_forever_step.
Qed.

(** Once a session has released a lock its node still has requesting_cs set, so it
    defers every later request with a higher sequence number although nobody uses the
    lock. *)
Theorem released_still_requesting w0 w t j n :
  initial host_of w0 → rtc (step_excl host_of) w0 w →
  w_threads w !! t = Some (TSession j n Released) →
  ∃ s, w_servers w !! j = Some s ∧ lv_requesting_cs (view s n) = true ∧
    ∀ pack, rp_lock_number pack = n → lv_myseqno (view s n) < rp_seqno pack →
      defer (view s n) (sv_mac s) pack = true.
Proof.
  intros Hi Hr Ht. destruct (reach_Inv host_of w0 w Hi Hr) as [HI _].
  destruct (inv_sess _ _ HI _ _ _ _ Ht) as (s & Hs & (_ & _ & Hreq & _)).
  exists s. rewrite (Hreq eq_refl). split_and!; [done..|].
  intros pack _ Hlt. unfold defer. rewrite (Hreq eq_refl). by rewrite (proj2 (Z.ltb_lt _ _) Hlt).
Qed.

(** The acquisition of an uncontended lock, with the state it leaves. *)
Lemma acquire_idle w j n s :
  all_wf w → w_servers w !! j = Some s → sv_alive s = true →
  lv_lock (view s n) = false → int_ok (lv_highestseqno (view s n) + 1) →
  (∀ k a, sv_nodes s !! k = Some a → host_of a ≠ Some j ∧ idle_peer w n a) →
  let t := length (w_threads w) in
  ∃ w' s' p, rtc (step host_of) w w' ∧ w_threads w' !! t = Some (TSession j n Held) ∧
    w_servers w' !! j = Some s' ∧ frame n s s' ∧ ptr s' n p ∧ view s' n = acquire_view (view s n) ∧
    all_wf w' ∧
    (∀ n' a, host_of a ≠ Some j → idle_peer w n' a → idle_peer w' n' a) ∧
    ∀ t' th, w_threads w !! t' = Some th → w_threads w' !! t' = Some th.
Proof.
  intros Hwf Hj Hal Hfree Hok Hpeers t. set (w1 := spawn (TSession j n AqFind) w).
  assert (step host_of w w1) as H1.
  { exists (Start j n). split; [done|]. simpl. unfold live. rewrite Hj. simpl. by rewrite Hal. }
  assert (w_threads w1 !! t = Some (TSession j n AqFind)) as Ht1
    by (simpl; apply lookup_snoc_Some; by right).
  destruct (run_acquire_alone s n (Hwf _ _ Hj) Hfree Hok) as (s2 & p & Hr & Hf & Hp & Hv & _).
  pose proof (run_acquire_rtc 5 t j n s AqFind s2 _ w1 Ht1 Hj Hal Hr) as H2.
  set (w2 := upd _ _ _ _ w1) in H2.
  assert (∀ n' a, host_of a ≠ Some j → idle_peer w n' a → idle_peer w2 n' a) as Hidle.
  { intros n' a Hne (j' & s' & Ha & Hj' & ?). exists j', s'. unfold w2.
    by rewrite upd_server_ne by congruence. }
  assert (loop_state w2 t j n p 0 s2) as Hls.
  { split.
    - intros j0 s0 Hj0. apply upd_server_inv in Hj0 as [[_ ->]|[_ ?]]; [by eapply fr_wf|by eapply Hwf].
    - unfold w2. by erewrite upd_thread_eq.
    - unfold w2. by erewrite upd_server_eq.
    - by rewrite (fr_alive _ _ _ Hf).
    - done.
    - by rewrite Hv.
    - intros k a Hk. rewrite (fr_nodes _ _ _ Hf) in Hk. destruct (Hpeers k a Hk). by apply Hidle. }
  destruct (loop_to_held _ w2 t j n p 0 s2 Hls eq_refl) as (w3 & H3 & Hh & Hs3 & Hwf3 & Hk3 & Hth3).
  exists w3, s2, p. split_and!; try done; [eapply rtc_l; [done|]; by etrans|by auto|].
  intros t' th Ht'. assert (t' ≠ t) as Hne by (apply lookup_lt_Some in Ht'; lia).
  apply Hth3; [done|]. unfold w2. rewrite upd_thread_ne by done. simpl. by apply lookup_app_l_Some.
Qed.

(** C16: A node whose peers are all running and not requesting the lock acquires it:
    from any state in which its own lock variable is free and the next sequence number
    fits an int, there is an execution without RPC failures in which its acquire call
    returns. *)
Theorem acquire_uncontended w j n s :
  all_wf w → w_servers w !! j = Some s → sv_alive s = true →
  lv_lock (view s n) = false → int_ok (lv_highestseqno (view s n) + 1) →
  (∀ k a, sv_nodes s !! k = Some a → host_of a ≠ Some j ∧ idle_peer w n a) →
  ∃ w', rtc (step host_of) w w' ∧
    w_threads w' !! length (w_threads w) = Some (TSession j n Held).
Proof.
  intros Hwf Hj Hal Hfree Hok Hpeers.
  destruct (acquire_idle w j n s) as (w' & s' & p & Hr & Hh & _); eauto.
Qed.

(** The holder's release, run to its end. *)
Lemma release_held w t j n p d s :
  w_threads w !! t = Some (TSession j n Held) →
  w_servers w !! j = Some s → sv_alive s = true → sv_wf s → ptr s n p →
  lv_deffered (view s n) = Some d → (∀ m, m ∈ d → is_Some (sv_mutexes s !! m)) →
  ∃ s', rtc (step host_of) w (upd t (TSession j n Released) j s' w) ∧ frame n s s' ∧
    view s' n = release_view (view s n) ∧ sv_mutexes s' = wake_all d (sv_mutexes s).
Proof.
  intros Ht Hj Hal Hwf Hp Hd Hall. set (wa := upd t (TSession j n RlFind) j s w).
  assert (step host_of w wa) as Hstep.
  { apply (run_one _ t). cbn [exec]. rewrite Ht. simpl. unfold live. rewrite Hj. simpl.
    rewrite Hal. simpl. unfold wa, upd. by rewrite set_server_id. }
  destruct (run_release_alone (2 * length d + 5) s n p d Hwf Hp Hd Hall)
    as (s' & Hr & Hf & Hv & Hm); [lia|].
  exists s'. split_and!; [|done..]. eapply rtc_l; [exact Hstep|].
  rewrite <-(upd_upd t (TSession j n RlFind) _ j s).
  eapply run_release_rtc; [by erewrite upd_thread_eq|by erewrite upd_server_eq|done|exact Hr].
Qed.

(** The holder's release up to the reply of one deferred handler. *)
Lemma release_and_wake w t1 c j n p d s pack :
  w_threads w !! t1 = Some (TSession j n Held) →
  w_servers w !! j = Some s → sv_alive s = true → sv_wf s → ptr s n p →
  lv_deffered (view s n) = Some d → (∀ m, m ∈ d → is_Some (sv_mutexes s !! m)) →
  c ∈ d → w_threads w !! c = Some (THandler j pack (RqLock2 c)) →
  ∃ w', rtc (step host_of) w w' ∧ w_threads w' !! t1 = Some (TSession j n Released) ∧
    w_threads w' !! c = Some (THandler j pack RqRet) ∧
    (∀ t, t ≠ t1 → t ≠ c → w_threads w' !! t = w_threads w !! t) ∧
    (∀ i, i ≠ j → w_servers w' !! i = w_servers w !! i).
Proof.
  intros Ht1 Hj Hal Hwf Hp Hd Hall Hin Hc.
  assert (t1 ≠ c) as H1c by congruence.
  destruct (release_held w t1 j n p d s) as (s' & Hrel & Hf & _ & Hm); [done..|].
  set (wb := upd t1 (TSession j n Released) j s' w) in Hrel.
  destruct (Hall c Hin) as [kc Hkc].
  destruct (wake_all_lockable d _ c kc Hin Hkc) as (k1 & Hk1 & [k2 Hk2]).
  set (wc := upd c (THandler j pack RqRet) j (put_mutex c k2 s') wb).
  assert (w_threads wb !! c = Some (THandler j pack (RqLock2 c))) as Hcb
    by (unfold wb; by rewrite upd_thread_ne).
  assert (rtc (step host_of) wb wc) as Hwake.
  { apply (run_request_rtc 1 c j s' pack (RqLock2 c)); [done|by apply (upd_server_eq _ _ _ _ s)| |].
    - by rewrite (fr_alive _ _ _ Hf).
    - cbn [run_request request_step]. rewrite Hm, Hk1. cbn. by rewrite Hk2. }
  exists wc. split_and!.
  - by etrans.
  - unfold wc. rewrite upd_thread_ne by done. by apply (upd_thread_eq _ _ (TSession j n Held)).
  - by apply (upd_thread_eq _ _ (THandler j pack (RqLock2 c))).
  - intros t Hn1 Hn2. unfold wc, wb. by rewrite !upd_thread_ne.
  - intros i Hi. unfold wc, wb. by rewrite !upd_server_ne.
Qed.

(** C18: A contended lock is handed over: when a session holds a lock, another node's
    handler there is blocked in the deferred list, and that request is the last one its
    session waits for, there is an execution in which the holder's release returns, the
    handler replies, and the waiting session enters its critical section. *)
Theorem lock_handover w t1 t2 c j i n p d p2 k s s2 pack :
  all_wf w → i ≠ j →
  w_threads w !! t1 = Some (TSession j n Held) →
  w_servers w !! j = Some s → sv_alive s = true → ptr s n p → lv_deffered (view s n) = Some d →
  (∀ m, m ∈ d → is_Some (sv_mutexes s !! m)) →
  c ∈ d → w_threads w !! c = Some (THandler j pack (RqLock2 c)) →
  w_threads w !! t2 = Some (TSession i n (AqCall p2 k c)) →
  w_servers w !! i = Some s2 → sv_alive s2 = true → ptr s2 n p2 → length (sv_nodes s2) = S k →
  ∃ w', rtc (step host_of) w w' ∧ w_threads w' !! t1 = Some (TSession j n Released) ∧
    w_threads w' !! t2 = Some (TSession i n Held).
Proof.
  intros Hwf Hij Ht1 Hj Hal Hp Hd Hall Hin Hc Ht2 Hi Hal2 Hp2 Hlen.
  destruct (release_and_wake w t1 c j n p d s pack Ht1 Hj Hal (Hwf _ _ Hj) Hp Hd Hall Hin Hc)
    as (wc & Hrc & Hrel & Hret & Hth & Hsv).
  destruct (last_reply_held wc t2 i n p2 k c s2 j pack) as (w' & Hl & Hheld & Hother);
    [rewrite Hth by congruence; done|rewrite Hsv by done; done|done|by eapply Hwf|done..|].
  exists w'. split_and!; [by etrans|rewrite Hother by congruence; done|done].
Qed.

End progress.
