(* ===== verification/LockSpec.v ===== *)
(** * The lock service that the lock manager implements

    The abstract specification: a table of owners in which only a free lock
    can be taken and only its owner gives it back.  The events of an execution
    of the lock system, the returns of [acquire_lock_1_svc] and the calls of
    [release_lock_1_svc], are matched with the steps of the service one by
    one. *)

From S2P Require Import Prelude CString LockMsg LockServer LockSystem LockSafety.

(** ** Specification *)

(** [EAcquired k n]: client [k] gets lock [n]; [EReleased k n]: it gives it
    back. *)
Inductive event :=
| EAcquired (k : nat) (n : Z)
| EReleased (k : nat) (n : Z).

(** The service's table of owners. *)
Abbreviation owners := (gmap Z nat).

Definition service (e : event) (m : owners) : option owners :=
  match e with
  | EAcquired k n => match m !! n with None => Some (<[n := k]> m) | Some _ => None end
  | EReleased k n => if decide (m !! n = Some k) then Some (delete n m) else None
  end.

Fixpoint service_all (es : list event) (m : owners) : option owners :=
  match es with
  | [] => Some m
  | e :: es' => service e m ≫= service_all es'
  end.

(** ** The events of the system *)

(** The lock that a thread is inside of. *)
Definition held_by (w : World) (t : nat) : option Z :=
  match w_threads w !! t with Some (TSession _ n Held) => Some n | _ => None end.

(** What a step from [w] to [w'] shows: its thread's acquire call returns, or
    its release call begins. *)
Definition step_events (l : label) (w w' : World) : list event :=
  match l with
  | Start _ _ => []
  | Run t | RpcFail t =>
      match held_by w t, held_by w' t with
      | None, Some n => [EAcquired t n]
      | Some n, None => [EReleased t n]
      | _, _ => []
      end
  end.

Section spec.
Context (host_of : bytes → option nat).

(** Executions with the events they show: no RPC fails, and line 170 is
    executed by one handler at a time. *)
Inductive sys_run (w0 : World) : list event → World → Prop :=
| sys_nil : sys_run w0 [] w0
| sys_snoc es w l w' :
    sys_run w0 es w → max_exclusive w → is_rpc_fail l = false → exec host_of l w = Some w' →
    sys_run w0 (es ++ step_events l w w') w'.

(** The table lists exactly the sessions in their critical sections. *)
Definition refines (w : World) (m : owners) : Prop := ∀ n t, m !! n = Some t ↔ holds w t n.

(** ** Lemmas *)

Lemma sys_run_rtc w0 es w : sys_run w0 es w → rtc (step_excl host_of) w0 w.
Proof. induction 1; [done|]. eapply rtc_r; [done|]. split; [done|]. by eexists. Qed.

Lemma service_all_app es1 es2 m : service_all (es1 ++ es2) m = service_all es1 m ≫= service_all es2.
Proof.
  revert m. induction es1 as [|e es1 IH]; intros m; [done|]. cbn [app service_all].
  destruct (service e m); [apply IH|done].
Qed.

Lemma held_by_holds w t n : held_by w t = Some n ↔ holds w t n.
Proof.
  unfold held_by, holds. split.
  - intros Hh. repeat case_match; simplify_eq. eauto.
  - by intros [j ->].
Qed.

(** *** Threads across a step of one of them *)

(** Thread [t] moves and the other threads stay; sessions stay sessions, and
    none is new. *)
Record follows (t : nat) (w w' : World) : Prop := {
  fo_other : ∀ t' th, t' ≠ t → w_threads w !! t' = Some th → w_threads w' !! t' = Some th;
  fo_own : ∀ j n pc, w_threads w !! t = Some (TSession j n pc) →
    ∃ pc', w_threads w' !! t = Some (TSession j n pc');
  fo_sessions : ∀ t' j n pc, w_threads w' !! t' = Some (TSession j n pc) →
    ∃ pc0, w_threads w !! t' = Some (TSession j n pc0)
}.

(** The node and the lock of a session. *)
Definition session_of (th : thread) : option (nat * Z) :=
  match th with TSession j n _ => Some (j, n) | THandler _ _ _ => None end.

Lemma session_of_Some th j n : session_of th = Some (j, n) ↔ ∃ pc, th = TSession j n pc.
Proof. destruct th; simpl; naive_solver. Qed.

Lemma follows_set t th th' w w' ex :
  w_threads w !! t = Some th → session_of th' = session_of th →
  Forall (λ th, session_of th = None) ex → w_threads w' = <[t := th']> (w_threads w ++ ex) →
  follows t w w'.
Proof.
  intros Ht Hs Hex Hw. split.
  - intros t' th0 Hne Ht'. rewrite Hw, list_lookup_insert_ne by done. by apply lookup_app_l_Some.
  - intros j n pc Ht'. assert (session_of th' = Some (j, n)) as [pc' ->]%session_of_Some
      by (rewrite Hs; simplify_eq; done).
    exists pc'. rewrite Hw. apply list_lookup_insert_eq. rewrite length_app.
    apply lookup_lt_Some in Ht. lia.
  - intros t' j n pc Ht'. rewrite Hw in Ht'.
    apply list_lookup_insert_Some in Ht' as [(-> & -> & _)|[_ Ht']].
    + assert (session_of th = Some (j, n)) as [pc0 ->]%session_of_Some by (by rewrite <-Hs). eauto.
    + apply lookup_app_Some in Ht' as [?|[_ Ht']]; [by eauto|].
      by apply (Forall_lookup_1 _ _ _ _ Hex) in Ht'.
Qed.

Lemma follows_same t w w' : w_threads w' = w_threads w → follows t w w'.
Proof. intros Hw. split; rewrite Hw; eauto. Qed.

Lemma run_follows t w w' : exec host_of (Run t) w = Some w' → follows t w w'.
Proof.
  cbn [exec]. intros He. apply bind_Some in He as ([j n pc|j pack pc] & Ht & He);
    apply bind_Some in He as (s & _ & He).
  - assert (∀ pc', w_threads w' = <[t := TSession j n pc']> (w_threads w) → follows t w w') as Hset.
    { intros pc' Hw. apply (follows_set t _ (TSession j n pc') w w' [] Ht); [done..|by rewrite app_nil_r]. }
    assert (∀ s' a, w' = perform host_of t j n s' a w → follows t w w') as Hperf.
    { intros s' [pc'|host pack k|] ->; [by eapply Hset|..|by apply follows_same].
      cbn [perform] in *. destruct (reach host_of w host) as [j'|]; [|by apply follows_same].
      by apply (follows_set t _ (TSession j n (k (length (w_threads w)))) w _ [THandler j' pack RqFind] Ht);
        [|repeat constructor|]. }
    unfold run_session in He.
    destruct pc; try (destruct (session_step s n _) as [[s' a]|]; simplify_eq; by eapply Hperf).
    + destruct (w_threads w !! callee) as [[|? ? []]|]; simplify_eq. by eapply Hset.
    + simplify_eq. by eapply Hset.
  - unfold run_handler in He. destruct (request_step t s pack pc) as [[s' pc']|]; simplify_eq.
    apply (follows_set t _ (THandler j pack pc') w _ [] Ht); [done..|by rewrite app_nil_r].
Qed.

(** *** Simulation *)

(** When only thread [t] moves, the other sessions hold what they held. *)
Lemma follows_holds t w w' t' n : follows t w w' → t' ≠ t → holds w' t' n ↔ holds w t' n.
Proof.
  intros Hf Hne. split; intros [j Ht].
  - destruct (fo_sessions _ _ _ Hf _ _ _ _ Ht) as [pc Ht0].
    pose proof (fo_other _ _ _ Hf _ _ Hne Ht0) as Ht1. exists j. congruence.
  - exists j. by eapply fo_other.
Qed.

(** A step in which thread [t] moves is matched by the service. *)
Lemma move_refines t w w' m :
  follows t w w' → mutual_exclusion w' → refines w m →
  ∃ m', service_all (step_events (Run t) w w') m = Some m' ∧ refines w' m'.
Proof.
  intros Hf Hex Hm. cbn [step_events]. pose proof (λ t' n, follows_holds t w w' t' n Hf) as Hoth.
  assert (∀ n, holds w t n ↔ held_by w t = Some n) as Ht by (intros; by rewrite held_by_holds).
  assert (∀ n, holds w' t n ↔ held_by w' t = Some n) as Ht' by (intros; by rewrite held_by_holds).
  destruct (held_by w t) as [n|] eqn:Hh, (held_by w' t) as [n'|] eqn:Hh'.
  - exists m. split; [done|]. assert (n' = n) as ->.
    { apply held_by_holds in Hh as [j Hj], Hh' as [j' Hj'].
      destruct (fo_own _ _ _ Hf _ _ _ Hj) as [pc Hpc]. congruence. }
    intros n0 t0. rewrite (Hm n0 t0). destruct (decide (t0 = t)) as [->|Hne]; [|symmetry; by apply Hoth].
    by rewrite Ht, Ht'.
  - exists (delete n m). cbn. assert (m !! n = Some t) as Hn by (by apply Hm, Ht).
    rewrite decide_True by done. split; [done|]. intros n0 t0. rewrite lookup_delete.
    destruct (decide (t0 = t)) as [->|Hne].
    + rewrite Ht'. case_decide; [naive_solver|]. rewrite (Hm n0 t), Ht. naive_solver.
    + rewrite Hoth, <-(Hm n0 t0) by done. case_decide; [subst|done]. naive_solver.
  - assert (m !! n' = None) as Hn.
    { destruct (m !! n') as [t0|] eqn:Hn; [|done]. apply Hm in Hn.
      destruct (decide (t0 = t)) as [->|Hne]; [apply Ht in Hn; done|].
      exfalso. apply Hne, (Hex t0 t n'); [by apply Hoth|by apply Ht']. }
    exists (<[n' := t]> m). cbn. rewrite Hn. split; [done|]. intros n0 t0. rewrite lookup_insert.
    destruct (decide (t0 = t)) as [->|Hne].
    + rewrite Ht'. case_decide; [naive_solver|]. rewrite (Hm n0 t), Ht. naive_solver.
    + rewrite Hoth, <-(Hm n0 t0) by done. case_decide; [subst|done]. rewrite Hn. naive_solver.
  - exists m. split; [done|]. intros n0 t0. rewrite (Hm n0 t0).
    destruct (decide (t0 = t)) as [->|Hne]; [|symmetry; by apply Hoth]. by rewrite Ht, Ht'.
Qed.

Lemma exec_refines l w w' m :
  is_rpc_fail l = false → exec host_of l w = Some w' → mutual_exclusion w' → refines w m →
  ∃ m', service_all (step_events l w w') m = Some m' ∧ refines w' m'.
Proof.
  intros Hl He Hex Hm. destruct l as [j n|t|t]; [|by apply move_refines; [eapply run_follows|..]|done].
  exists m. split; [done|]. cbn [exec] in He. apply bind_Some in He as (s & _ & [= <-]).
  intros n0 t0. rewrite (Hm n0 t0). unfold holds. cbn. split; intros [i Hi]; exists i.
  - by apply lookup_app_l_Some.
  - by apply lookup_snoc_Some in Hi as [?|[_ ?]].
Qed.

(** ** Theorem *)

(** C3: Every execution without RPC failure, in which line 170 is executed by one
    handler at a time per node and lock, is matched event by event with the abstract
    lock service: each step in which a session enters its critical section takes a free
    lock of the service, each step in which one leaves it is that owner's release, the
    other steps are no events; the whole sequence of events is accepted by the service,
    and its final table lists exactly the sessions in their critical sections. *)
Theorem lock_manager_refines_lock_service w0 es w :
  initial host_of w0 → sys_run w0 es w →
  ∃ m, service_all es ∅ = Some m ∧ refines w m.
Proof.
  intros Hi Hr. induction Hr as [|es w l w' Hr IH Hmx Hl He].
  - exists ∅. split; [done|]. intros n t. unfold holds. rewrite (init_threads _ _ Hi).
    rewrite lookup_empty. split; [done|]. by intros [j ?].
  - destruct IH as (m & Hm & Href).
    assert (rtc (step_excl host_of) w0 w') as Hr'.
    { eapply rtc_r; [by eapply sys_run_rtc|]. split; [done|]. by eexists. }
    destruct (reach_Inv host_of w0 w' Hi Hr') as [HI Hst].
    destruct (exec_refines l w w' m Hl He) as (m' & Hm' & Href');
      [by eapply Inv_mutual_exclusion|done|].
    exists m'. split; [|done]. rewrite service_all_app, Hm. done.
Qed.

End spec.
