(* ===== verification/LockScenarios.v ===== *)
(** * Concrete executions of the lock manager

    Small systems booted by the program's own initialization code and run by
    the executable semantics: a normal acquisition, and the executions that
    show what the code does not guarantee. *)

From S2P Require Import Prelude CString LockMsg LockServer LockSystem LockSafety.

(** Node [j] has address 10.0.0.(j+1). *)
Definition ip (j : nat) : bytes := cstr "10.0.0." ++ [z2b (49 + Z.of_nat j)].

Definition host_of3 (h : bytes) : option nat :=
  if decide (h = ip 0) then Some 0%nat
  else if decide (h = ip 1) then Some 1%nat
  else if decide (h = ip 2) then Some 2%nat
  else None.

(** A server process after [initialize_global_variable] and
    [init_lock_mgr_1_svc] with the given node list. *)
Definition boot (all : list bytes) (j : nat) (mac : Z) : outcome Server :=
  obind (initialize_global_variable mac)
    (init_lock_mgr_1_svc [cstr "127.0.0.1"; ip j] (join COMMA all)).

Definition booted (o : outcome Server) : Server :=
  match o with Ret s => s | _ => mkServer [] 0 false [] ∅ false end.

Definition w2 : World :=
  mkWorld [booted (boot [ip 0; ip 1] 0 11); booted (boot [ip 0; ip 1] 1 22)] [].

Definition w3 : World :=
  mkWorld [booted (boot [ip 1; ip 2] 0 11); booted (boot [ip 0; ip 2] 1 22);
           booted (boot [ip 1; ip 0] 2 33)] [].

Definition runs (t k : nat) : list label := replicate k (Run t).

(** Node 0 acquires lock 1: its session is thread 0, the handler on node 1
    thread 1. *)
Definition acquire0 : list label := [Start 0 1] ++ runs 0 6 ++ runs 1 4 ++ runs 0 2.
Definition release0 : list label := runs 0 6.

(** Node 1 asks for the lock (thread 2) and node 0's handler (thread 3) runs
    as far as it can. *)
Definition request1 : list label := [Start 1 1] ++ runs 2 6 ++ runs 3 8.

(** Three nodes; node 2's and node 1's requests meet at line 170 of node 0. *)
Definition inside_line_170 : list label :=
  [Start 2 1] ++ runs 0 6 ++ runs 1 4 ++ runs 0 2 ++ runs 2 2 ++
  [Start 1 1] ++ runs 3 6 ++ runs 4 2.
(** Both handlers write, the one with the smaller number last. *)
Definition both_written : list label := runs 4 2 ++ runs 3 2 ++ runs 5 8 ++ runs 2 2.
(** All three nodes go on. *)
Definition update_lost : list label :=
  runs 0 2 ++ [Start 0 1] ++ runs 6 6 ++ runs 7 6 ++ runs 6 2 ++ runs 8 8 ++
  runs 0 10 ++ runs 5 1 ++ runs 3 2 ++ runs 8 1 ++ runs 6 2.

(** Node 0 holds; node 1's handler decides to defer, and node 0's release
    frees the array before the handler appends to it. *)
Definition use_after_free : list label :=
  acquire0 ++ [Start 1 1] ++ runs 2 6 ++ runs 3 6 ++ runs 0 4 ++ runs 3 1.

(** The same, with the append between the end of the release loop and
    [g_array_free]. *)
Definition lost_wakeup : list label :=
  acquire0 ++ [Start 1 1] ++ runs 2 6 ++ runs 3 6 ++ runs 0 3 ++ runs 3 2 ++ runs 0 3.

(** Both nodes ask for a lock nobody has used.  Node 0 has set [requesting_cs]
    and not yet chosen its number when node 1's request arrives. *)
Definition numbering_race : list label :=
  [Start 0 1] ++ runs 0 3 ++ [Start 1 1] ++ runs 1 6 ++ runs 2 8 ++ runs 0 3 ++ runs 3 8.

(** Two sessions hold the same lock. *)
Definition two_holders (w : World) (t1 t2 : nat) (n : Z) : Prop :=
  t1 ≠ t2 ∧ holds w t1 n ∧ holds w t2 n.

(** At most one handler is between the read and the write of line 170. *)
Definition writing (th : thread) : option (nat * Z) :=
  match th with THandler j pack (RqWriteMax _ _) => Some (j, rp_lock_number pack) | _ => None end.
Definition one_writer (w : World) : bool :=
  bool_decide (NoDup (omap writing (w_threads w))).

Lemma omap_NoDup_lookup {A B} (f : A → option B) l i j x y b :
  NoDup (omap f l) → l !! i = Some x → l !! j = Some y → f x = Some b → f y = Some b → i = j.
Proof.
  revert i j. induction l as [|z l IH]; intros i j Hnd Hi Hj Hx Hy; [done|]. cbn in Hnd.
  assert (∀ k u, l !! k = Some u → f u = Some b → b ∈ omap f l) as Hin.
  { intros k u Hk Hu. apply list_elem_of_omap. exists u. split; [by eapply list_elem_of_lookup_2|done]. }
  destruct i as [|i], j as [|j]; simplify_eq/=; [done|..].
  - rewrite Hx in Hnd. apply NoDup_cons in Hnd as [Hnot _]. by destruct Hnot; eapply Hin.
  - rewrite Hy in Hnd. apply NoDup_cons in Hnd as [Hnot _]. by destruct Hnot; eapply Hin.
  - f_equal. eapply IH; try done. by destruct (f z); [apply NoDup_cons in Hnd as [_ ?]|].
Qed.

Lemma one_writer_ok w : one_writer w = true → max_exclusive w.
Proof.
  unfold one_writer. rewrite bool_decide_eq_true.
  intros Hnd t1 t2 j pack1 pack2 p1 p2 z1 z2 H1 H2 Heq.
  eapply (omap_NoDup_lookup writing); [done|exact H1|exact H2|done|]. cbn. by rewrite Heq.
Qed.

(** A trace in which line 170 is executed by one handler at a time. *)
Fixpoint exec_excl (host_of : bytes → option nat) (ls : list label) (w : World) : option World :=
  match ls with
  | [] => Some w
  | l :: ls' =>
      if one_writer w && negb (is_rpc_fail l) then exec host_of l w ≫= exec_excl host_of ls' else None
  end.

(** ** Lemmas *)

Lemma exec_excl_rtc host_of ls w w' :
  exec_excl host_of ls w = Some w' → rtc (step_excl host_of) w w'.
Proof.
  revert w. induction ls as [|l ls IH]; intros w He; cbn [exec_excl] in He; [simplify_eq; constructor|].
  destruct (one_writer w) eqn:Ho, (is_rpc_fail l) eqn:Hl; try done. cbn in He.
  apply bind_Some in He as (w1 & Hw1 & He). eapply rtc_l; [|by eapply IH].
  split; [by apply one_writer_ok|by exists l].
Qed.

Lemma exec_all_rtc host_of ls w w' :
  forallb (λ l, negb (is_rpc_fail l)) ls = true → exec_all host_of ls w = Some w' →
  rtc (step host_of) w w'.
Proof.
  revert w. induction ls as [|l ls IH]; simpl; intros w Hl He; [simplify_eq; constructor|].
  apply andb_true_iff in Hl as [Hl Hls]. apply bind_Some in He as (w1 & Hw1 & He).
  eapply rtc_l; [|by eapply IH]. exists l. split; [by apply negb_true_iff|done].
Qed.

Lemma two_holders_not_exclusive w t1 t2 n : two_holders w t1 t2 n → ¬ mutual_exclusion w.
Proof. intros (Hne & H1 & H2) Hex. by apply Hne, (Hex t1 t2 n). Qed.

Lemma w2_initial : initial host_of3 w2.
Proof.
  split.
  - done.
  - intros [|[|j]] s Hj; vm_compute in Hj; by simplify_eq.
  - intros [|[|i]] [|[|j]] si sj Hi Hj; vm_compute in Hi, Hj; simplify_eq; done.
  - intros [|[|i]] [|[|j]] si Hi Hlen Hne; vm_compute in Hi; simplify_eq; try done;
      try (simpl in Hlen; lia); [exists 0%nat, (ip 1)|exists 0%nat, (ip 0)]; by vm_compute.
Qed.

Lemma w2_no_self : no_self host_of3 w2.
Proof.
  intros [|[|i]] s [|k] a Hi Hk; vm_compute in Hi; simplify_eq; vm_compute in Hk;
    simplify_eq; by vm_compute.
Qed.

Lemma w3_initial : initial host_of3 w3.
Proof.
  split.
  - done.
  - intros [|[|[|j]]] s Hj; vm_compute in Hj; by simplify_eq.
  - intros [|[|[|i]]] [|[|[|j]]] si sj Hi Hj; vm_compute in Hi, Hj; simplify_eq; done.
  - intros [|[|[|i]]] [|[|[|j]]] si Hi Hlen Hne; vm_compute in Hi; simplify_eq; try done;
      try (simpl in Hlen; lia);
      [exists 0%nat, (ip 1)|exists 1%nat, (ip 2)|exists 0%nat, (ip 0)
      |exists 1%nat, (ip 2)|exists 1%nat, (ip 0)|exists 0%nat, (ip 1)]; by vm_compute.
Qed.

(** ** Results *)

(** C22: With three nodes and no RPC failure there is an execution in which line 170 is
    executed by one handler at a time up to a state where two handlers of node 0 are
    both between its read and its write, with the requests 1 and 2 and the values 1 and
    2 to write; then the handler of request 2 has replied although highestseqno is 1,
    its update being lost; and from there two sessions come to hold the same lock. *)
Theorem three_nodes_two_holders :
  ∃ w1 w2 w pack pack',
    initial host_of3 w3 ∧ rtc (step_excl host_of3) w3 w1 ∧
    rp_lock_number pack = 1 ∧ rp_lock_number pack' = 1 ∧
    rp_seqno pack = 1 ∧ rp_seqno pack' = 2 ∧
    w_threads w1 !! 2%nat = Some (THandler 0 pack (RqWriteMax 0 1)) ∧
    w_threads w1 !! 4%nat = Some (THandler 0 pack' (RqWriteMax 0 2)) ∧
    rtc (step host_of3) w1 w2 ∧
    w_threads w2 !! 4%nat = Some (THandler 0 pack' RqRet) ∧
    (∃ s, w_servers w2 !! 0%nat = Some s ∧ lv_highestseqno (view s 1) = 1) ∧
    rtc (step host_of3) w2 w ∧ two_holders w 3 6 1.
Proof.
  destruct (exec_excl host_of3 inside_line_170 w3) as [w1|] eqn:H1; [|by vm_compute in H1].
  destruct (exec_all host_of3 both_written w1) as [w2'|] eqn:H2;
    [|vm_compute in H1; injection H1 as <-; by vm_compute in H2].
  destruct (exec_all host_of3 update_lost w2') as [w|] eqn:H3;
    [|vm_compute in H1; injection H1 as <-; vm_compute in H2; injection H2 as <-; by vm_compute in H3].
  exists w1, w2', w, (mkRequestPack 1 1 33), (mkRequestPack 1 2 22).
  split; [apply w3_initial|]. split; [by eapply exec_excl_rtc|].
  assert (rtc (step host_of3) w1 w2') as Hr2 by (exact (exec_all_rtc _ both_written _ _ eq_refl H2)).
  assert (rtc (step host_of3) w2' w) as Hr3 by (exact (exec_all_rtc _ update_lost _ _ eq_refl H3)).
  vm_compute in H1. injection H1 as <-. vm_compute in H2. injection H2 as <-.
  vm_compute in H3. injection H3 as <-.
  split_and!; try done; [by eexists|]. split_and!; [done|by eexists|by eexists].
Qed.

Section rpc_failure.
Context (host_of : bytes → option nat).

(** C23: When the last REQUEST call that an acquisition waits for fails, the caller
    ignores the status: in any state in which a session waits for the answer of the last
    of its peers while another session holds the lock, the failure of that call and one
    step of the caller lead to two holders. *)
Theorem rpc_failure_two_holders w t i n p k c s t' :
  w_threads w !! t = Some (TSession i n (AqCall p k c)) →
  w_servers w !! i = Some s → sv_alive s = true → is_Some (sv_lockvar_list s !! p) →
  length (sv_nodes s) = S k → holds w t' n →
  ∃ w', exec_all host_of [RpcFail t; Run t] w = Some w' ∧ two_holders w' t t' n.
Proof.
  intros Ht Hi Ha [v Hv] Hlen [j Ht'].
  assert (t ≠ t') as Hne by (intros ->; congruence).
  assert (live w i = Some s) as Hl by (unfold live; rewrite Hi; simpl; by rewrite Ha).
  exists (set_thread t (TSession i n Held) (set_server i s (set_thread t (TSession i n (AqLoop p (S k))) w))).
  pose proof (lookup_lt_Some _ _ _ Ht) as Hlt. split.
  - cbn [exec_all exec]. rewrite Ht. cbn [mbind option_bind]. rewrite Hl. cbn [mbind option_bind].
    cbn [set_thread w_threads]. rewrite list_lookup_insert_eq by done. cbn [mbind option_bind].
    change (live (set_thread _ _ w) i) with (live w i). rewrite Hl. cbn [mbind option_bind].
    unfold run_session, session_step. cbn [acquire_step]. rewrite Hv. cbn [mbind option_bind].
    by rewrite (proj2 (lookup_ge_None (sv_nodes s) (S k))) by lia.
  - split_and!; [done| |].
    + exists i. cbn. rewrite list_lookup_insert_eq; [done|]. by rewrite length_insert.
    + exists j. cbn. by rewrite !list_lookup_insert_ne.
Qed.

End rpc_failure.

(** With two nodes, an acquire and release on node 0 followed by an acquire on node
    1 leads to a state in which node 0's session has ended, node 1's session waits for
    its request, and no thread can take a step. *)
Theorem release_deadlock :
  ∃ w, initial host_of3 w2 ∧ rtc (step host_of3) w2 w ∧
    w_threads w !! 0%nat = Some (TSession 0 1 Released) ∧
    w_threads w !! 2%nat = Some (TSession 1 1 (AqCall 0 0 3)) ∧
    ∀ t, exec host_of3 (Run t) w = None.
Proof.
  destruct (exec_all host_of3 (acquire0 ++ release0 ++ request1) w2) as [w|] eqn:He;
    [|by vm_compute in He].
  exists w. split; [exact w2_initial|].
  split; [exact (exec_all_rtc _ (acquire0 ++ release0 ++ request1) _ _ eq_refl He)|].
  vm_compute in He. injection He as <-.
  split_and!; [done..|]. intros [|[|[|[|t]]]]; by vm_compute.
Qed.

(** A handler that has decided to defer can append to the deferred array after
    release_lock_1_svc has freed it: a use after free is reachable with two nodes. *)
Theorem deferral_use_after_free :
  ∃ w, initial host_of3 w2 ∧ rtc (step host_of3) w2 w ∧
    ∃ pack, w_threads w !! 3%nat = Some (THandler 0 pack RqUndef).
Proof.
  destruct (exec_all host_of3 use_after_free w2) as [w|] eqn:He; [|by vm_compute in He].
  exists w. split; [exact w2_initial|].
  split; [exact (exec_all_rtc _ use_after_free _ _ eq_refl He)|].
  vm_compute in He. injection He as <-. by eexists.
Qed.

(** C19: When two nodes ask for an unused lock at the same time, a request that arrives
    between lines 125 and 126, after requesting_cs is set and before myseqno is chosen,
    is deferred although it goes first: both sessions wait for each other's handler and
    no thread can take a step. *)
Theorem numbering_race_deadlock :
  ∃ w, initial host_of3 w2 ∧ rtc (step host_of3) w2 w ∧
    w_threads w = [TSession 0 1 (AqCall 0 0 3); TSession 1 1 (AqCall 0 0 2);
      THandler 0 (mkRequestPack 1 1 22) (RqLock2 2); THandler 1 (mkRequestPack 1 2 11) (RqLock2 3)] ∧
    ∀ t, exec host_of3 (Run t) w = None.
Proof.
  destruct (exec_all host_of3 numbering_race w2) as [w|] eqn:He; [|by vm_compute in He].
  exists w. split; [exact w2_initial|].
  split; [exact (exec_all_rtc _ numbering_race _ _ eq_refl He)|].
  vm_compute in He. injection He as <-.
  split; [done|]. intros [|[|[|[|t]]]]; by vm_compute.
Qed.
