(* ===== verification/LockWitness.v ===== *)
(** * The lock manager's theorems at concrete systems

    Each theorem of the lock manager that has hypotheses is applied here to
    an execution of the two-node system of [LockScenarios.v]. *)

From S2P Require Import Prelude CString Xdr LockMsg LockServer LockSystem LockSafety LockScenarios LockProgress LockSpec.

(** The state after a trace. *)
Definition after (ls : list label) (w : World) : World := default w (exec_all host_of3 ls w).

(** Node 0 holds lock 1. *)
Definition w_held : World := after acquire0 w2.
(** Node 0 holds it and node 1 waits for it. *)
Definition w_deferring : World := after (acquire0 ++ request1) w2.
(** Node 0 has released it. *)
Definition w_released : World := after (acquire0 ++ release0) w2.
(** Then node 1 asks for it and waits. *)
Definition w_waiting : World := after (acquire0 ++ release0 ++ request1) w2.

Definition server_of (w : World) (j : nat) : Server :=
  default (booted Crash) (w_servers w !! j).

Lemma after_rtc ls w :
  forallb (λ l, negb (is_rpc_fail l)) ls = true →
  (if exec_all host_of3 ls w then true else false) = true →
  rtc (step host_of3) w (after ls w).
Proof.
  intros Hl. unfold after. destruct (exec_all host_of3 ls w) as [w'|] eqn:He; [|done].
  intros _. by apply (exec_all_rtc _ ls).
Qed.

Lemma w_held_rtc : rtc (step host_of3) w2 w_held.
Proof. apply after_rtc; by vm_compute. Qed.

Lemma w_deferring_rtc : rtc (step host_of3) w2 w_deferring.
Proof. apply after_rtc; by vm_compute. Qed.

Lemma w_released_rtc : rtc (step host_of3) w2 w_released.
Proof. apply after_rtc; by vm_compute. Qed.

Lemma w_waiting_rtc : rtc (step host_of3) w2 w_waiting.
Proof. apply after_rtc; by vm_compute. Qed.

Lemma w2_excl w : rtc (step host_of3) w2 w → rtc (step_excl host_of3) w2 w.
Proof. intros Hr. by destruct (two_nodes_reach host_of3 w2 w w2_initial w2_no_self eq_refl Hr). Qed.

Lemma w_held_holds : holds w_held 0 1.
Proof. exists 0%nat. by vm_compute. Qed.

Lemma w2_all_wf : all_wf w2.
Proof.
  intros [|[|j]] s Hj; vm_compute in Hj; simplify_eq; apply NoDup_nil_2.
Qed.

Lemma w_held_wf j : sv_wf (server_of w_held j).
Proof.
  destruct j as [|[|j]]; unfold sv_wf; vm_compute; repeat constructor; set_solver.
Qed.

Lemma w_deferring_wf : sv_wf (server_of w_deferring 0).
Proof. unfold sv_wf; vm_compute; repeat constructor; set_solver. Qed.

Lemma w_waiting_quiet : quiet w_waiting 0 1.
Proof.
  intros t pc Ht. destruct t as [|[|[|[|t]]]]; vm_compute in Ht; simplify_eq; by left.
Qed.

(** ** Witnesses *)

Lemma lock_mutual_exclusion_witness : holds w_held 0 1 ∧ mutual_exclusion w_held.
Proof.
  split; [exact w_held_holds|].
  exact (lock_mutual_exclusion host_of3 w2 w_held w2_initial (w2_excl _ w_held_rtc)).
Defined.

Lemma lock_mutual_exclusion_two_nodes_witness : holds w_held 0 1 ∧ mutual_exclusion w_held.
Proof.
  split; [exact w_held_holds|].
  exact (lock_mutual_exclusion_two_nodes host_of3 w2 w_held w2_initial w2_no_self eq_refl w_held_rtc).
Defined.

(** The events of a trace. *)
Fixpoint trace_events (ls : list label) (w : World) : list event :=
  match ls with
  | [] => []
  | l :: ls' =>
      match exec host_of3 l w with
      | Some w' => step_events l w w' ++ trace_events ls' w'
      | None => []
      end
  end.

Lemma exec_excl_run ls w0 es w w' :
  sys_run host_of3 w0 es w → exec_excl host_of3 ls w = Some w' →
  sys_run host_of3 w0 (es ++ trace_events ls w) w'.
Proof.
  revert es w. induction ls as [|l ls IH]; intros es w Hr He; cbn [exec_excl trace_events] in *.
  { injection He as <-. by rewrite app_nil_r. }
  destruct (one_writer w) eqn:Ho, (is_rpc_fail l) eqn:Hl; try done. cbn [andb negb] in He.
  apply bind_Some in He as (w1 & Hw1 & He). rewrite Hw1, app_assoc. apply IH; [|done].
  by eapply sys_snoc; [..|apply one_writer_ok| |].
Qed.

(** Node 0 holds lock 1, node 1 waits for it, node 0 releases it and node 1
    enters. *)
Definition handover : list label := acquire0 ++ request1 ++ runs 0 8 ++ runs 3 1 ++ runs 2 2.

Lemma lock_manager_refines_lock_service_witness :
  ∃ m, service_all [EAcquired 0 1; EReleased 0 1; EAcquired 2 1] ∅ = Some m ∧
    refines (after handover w2) m.
Proof.
  apply (lock_manager_refines_lock_service host_of3 w2 _ (after handover w2) w2_initial).
  change [EAcquired 0 1; EReleased 0 1; EAcquired 2 1] with ([] ++ [EAcquired 0 1; EReleased 0 1; EAcquired 2 1]).
  assert ([EAcquired 0 1; EReleased 0 1; EAcquired 2 1] = trace_events handover w2) as ->
    by (vm_compute; reflexivity).
  apply exec_excl_run; [constructor|]. vm_compute. reflexivity.
Defined.

Lemma acquire_uncontended_witness :
  ∃ w', rtc (step host_of3) w2 w' ∧ w_threads w' !! 0%nat = Some (TSession 0 1 Held).
Proof.
  apply (acquire_uncontended host_of3 w2 0 1 (server_of w2 0)).
  - exact w2_all_wf.
  - reflexivity.
  - reflexivity.
  - reflexivity.
  - split; vm_compute; discriminate.
  - intros [|k] a Hk; vm_compute in Hk; simplify_eq.
    split; [by vm_compute|]. exists 1%nat, (server_of w2 1).
    split_and!; [reflexivity..|by exists []].
Defined.

Lemma w_deferring_all_wf : all_wf w_deferring.
Proof.
  intros [|[|j]] s Hj; vm_compute in Hj; simplify_eq;
    unfold sv_wf; vm_compute; repeat constructor; set_solver.
Qed.

Lemma lock_handover_witness :
  ∃ w', rtc (step host_of3) w_deferring w' ∧ w_threads w' !! 0%nat = Some (TSession 0 1 Released) ∧
    w_threads w' !! 2%nat = Some (TSession 1 1 Held).
Proof.
  apply (lock_handover host_of3 w_deferring 0 2 3 0 1 1 0 [3%nat] 0 0
    (server_of w_deferring 0) (server_of w_deferring 1) (mkRequestPack 1 2 22)).
  - exact w_deferring_all_wf.
  - discriminate.
  - by vm_compute.
  - by vm_compute.
  - by vm_compute.
  - eexists. split; reflexivity.
  - by vm_compute.
  - intros m Hm. apply list_elem_of_singleton in Hm as ->. by exists MLocked.
  - by apply list_elem_of_singleton.
  - by vm_compute.
  - by vm_compute.
  - by vm_compute.
  - by vm_compute.
  - eexists. split; reflexivity.
  - by vm_compute.
Defined.

Lemma released_still_requesting_witness :
  ∃ s, w_servers w_released !! 0%nat = Some s ∧ lv_requesting_cs (view s 1) = true ∧
    ∀ pack, rp_lock_number pack = 1 → lv_myseqno (view s 1) < rp_seqno pack →
      defer (view s 1) (sv_mac s) pack = true.
Proof.
  exact (released_still_requesting host_of3 w2 w_released 0 0 1 w2_initial
    (w2_excl _ w_released_rtc) eq_refl).
Defined.

Lemma deferred_forever_witness :
  w_threads w_waiting !! 2%nat = Some (TSession 1 1 (AqCall 0 0 3)).
Proof.
  apply (deferred_forever host_of3 w2 w_waiting w_waiting 0 3 (mkRequestPack 1 2 22) 2 1 1 0 0).
  - exact w2_initial.
  - exact (w2_excl _ w_waiting_rtc).
  - exact w_waiting_quiet.
  - split; [by vm_compute|]. exists (server_of w_waiting 0), 1. split; by vm_compute.
  - by vm_compute.
  - constructor.
Defined.

Lemma request_1_svc_defers_witness :
  ∃ s' pc', run_request 9 5 (server_of w_held 0) (mkRequestPack 1 2 22) RqFind = (s', pc') ∧
    pc' = RqLock2 5 ∧ lv_highestseqno (view s' 1) = 2 ∧ lv_deffered (view s' 1) = Some [5%nat].
Proof.
  destruct (request_1_svc_defers 9 5 (server_of w_held 0) (mkRequestPack 1 2 22) [])
    as (s' & pc' & Hr & _ & _ & Hdefer).
  - exact (w_held_wf 0).
  - reflexivity.
  - lia.
  - destruct Hdefer as (Hpc & _ & Hv & _).
    + intros [Hreq|Hle]; [by vm_compute in Hreq|].
      destruct Hle as [Hle|[Hle _]]; vm_compute in Hle; discriminate.
    + exists s', pc'. split_and!; [exact Hr|exact Hpc|..]; change (rp_lock_number (mkRequestPack 1 2 22)) with 1 in Hv;
        rewrite Hv; vm_compute; reflexivity.
Defined.

(** Node 1's handler on node 0 has appended its mutex and not yet locked it. *)
Definition w_appended : World := after (acquire0 ++ [Start 1 1] ++ runs 2 6 ++ runs 3 7) w2.

Lemma release_lock_1_svc_wakes_witness :
  (∃ s' s'', run_release 7 (server_of w_deferring 0) 1 RlFind = (s', Released) ∧
    lv_lock (view s' 1) = false ∧
    request_step 3 s' (mkRequestPack 1 2 22) (RqLock2 3) = Some (s'', RqRet)) ∧
  ∃ s' s'', run_release 7 (server_of w_appended 0) 1 RlFind = (s', Released) ∧
    request_step 3 s' (mkRequestPack 1 2 22) (RqLock1 3) = Some (s'', RqLock2 3) ∧
    request_step 3 s'' (mkRequestPack 1 2 22) (RqLock2 3) = None.
Proof.
  split.
  - destruct (release_lock_1_svc_wakes 7 (server_of w_deferring 0) 1 0 [3%nat])
      as (s' & Hr & _ & Hv & Hw & _).
    + exact w_deferring_wf.
    + eexists. split; reflexivity.
    + reflexivity.
    + apply NoDup_singleton.
    + intros m Hm. apply list_elem_of_singleton in Hm as ->. left. reflexivity.
    + simpl. lia.
    + destruct (Hw 3%nat (mkRequestPack 1 2 22)) as [s'' Hs]; [by apply list_elem_of_singleton|reflexivity|].
      exists s', s''. split_and!; [exact Hr|by rewrite Hv|exact Hs].
  - destruct (release_lock_1_svc_wakes 7 (server_of w_appended 0) 1 0 [3%nat])
      as (s' & Hr & _ & _ & _ & Hw & _).
    + unfold sv_wf; vm_compute; repeat constructor; set_solver.
    + eexists. split; reflexivity.
    + reflexivity.
    + apply NoDup_singleton.
    + intros m Hm. apply list_elem_of_singleton in Hm as ->. right. reflexivity.
    + simpl. lia.
    + destruct (Hw 3%nat (mkRequestPack 1 2 22)) as (s'' & Hs1 & Hs2); [by apply list_elem_of_singleton|reflexivity|].
      exists s', s''. split_and!; [exact Hr|exact Hs1|exact Hs2].
Defined.

Lemma rpc_failure_two_holders_witness :
  ∃ w', exec_all host_of3 [RpcFail 2; Run 2] w_deferring = Some w' ∧ two_holders w' 2 0 1.
Proof.
  apply (rpc_failure_two_holders host_of3 w_deferring 2 1 1 0 0 3 (server_of w_deferring 1) 0).
  - by vm_compute.
  - by vm_compute.
  - by vm_compute.
  - vm_compute. by eexists.
  - by vm_compute.
  - exists 0%nat. by vm_compute.
Defined.

Lemma xdr_RequestPack_roundtrip_witness :
  request_pack_valid (mkRequestPack 1 2 22) ∧
  roundtrips (xdr_RequestPack (X := XdrMem)) request_pack_valid (λ _, True) (λ _, 16%nat).
Proof. split; [by repeat split|]. exact (xdr_RequestPack_roundtrip (X := XdrMem)). Defined.
