(* ===== verification/LockUse.v ===== *)
(** * Using locks in turn

    A client program on one node that acquires and releases a sequence of
    locks, as the sample program [psu_dist_lock_mgr_test.c] does with locks 1,
    1 and 2.  While no other node asks for a lock, every acquire and release
    call returns: the state that a release leaves is one from which the next
    acquisition succeeds. *)

From S2P Require Import Prelude CString LockMsg LockServer LockSystem LockSafety LockProgress LockScenarios LockWitness.

(** The node's own lock variables are free and can be numbered. *)
Definition own_ready (s : Server) : Prop :=
  ∀ n, lv_lock (view s n) = false ∧ lv_deffered (view s n) = Some [] ∧
    int_ok (lv_highestseqno (view s n) + 1).

Section use.
Context (host_of : bytes → option nat).

(** Node [j] can use any lock: it runs, its variables are free, and its
    peers run and have not asked for a lock. *)
Record calm (w : World) (j : nat) (s : Server) : Prop := {
  cm_wf : all_wf w;
  cm_server : w_servers w !! j = Some s;
  cm_alive : sv_alive s = true;
  cm_ready : own_ready s;
  cm_peers : ∀ n k a, sv_nodes s !! k = Some a → host_of a ≠ Some j ∧ idle_peer host_of w n a
}.

(** ** Lemmas *)

Lemma own_ready_use n s s1 s2 :
  own_ready s → frame n s s1 → view s1 n = acquire_view (view s n) →
  frame n s1 s2 → view s2 n = release_view (view s1 n) → own_ready s2.
Proof.
  intros Hs Hf1 Hv1 Hf2 Hv2 n'. destruct (decide (n' = n)) as [->|Hne].
  - rewrite Hv2, Hv1. by destruct (Hs n) as (_ & _ & ?).
  - by rewrite (fr_other _ _ _ Hf2), (fr_other _ _ _ Hf1).
Qed.

(** One acquire and release, which leaves the node calm. *)
Lemma use_once w j s n :
  calm w j s →
  ∃ w' s' t, rtc (step host_of) w w' ∧ calm w' j s' ∧
    w_threads w !! t = None ∧ w_threads w' !! t = Some (TSession j n Released) ∧
    ∀ t' th, w_threads w !! t' = Some th → w_threads w' !! t' = Some th.
Proof.
  intros [Hwf Hj Hal Hrd Hpeers]. destruct (Hrd n) as (Hfree & Hdef & Hok).
  destruct (acquire_idle host_of w j n s Hwf Hj Hal Hfree Hok) as
    (w1 & s1 & p & Hr1 & Ht1 & Hs1 & Hf1 & Hp1 & Hv1 & Hwf1 & Hidle1 & Hth1); [by apply Hpeers|].
  set (t := length (w_threads w)) in *.
  destruct (release_held host_of w1 t j n p [] s1) as (s2 & Hr2 & Hf2 & Hv2 & _);
    [done|done|by rewrite (fr_alive _ _ _ Hf1)|by eapply Hwf1|done|by rewrite Hv1|set_solver|].
  exists (upd t (TSession j n Released) j s2 w1), s2, t. split_and!; [by etrans| | | |].
  - split.
    + intros j0 s0 [[_ ->]|[_ ?]]%upd_server_inv; [by eapply fr_wf|by eapply Hwf1].
    + by eapply upd_server_eq.
    + by rewrite (fr_alive _ _ _ Hf2), (fr_alive _ _ _ Hf1).
    + by eapply (own_ready_use n s s1 s2).
    + intros n' k a Hk. rewrite (fr_nodes _ _ _ Hf2), (fr_nodes _ _ _ Hf1) in Hk.
      destruct (Hpeers n' k a Hk) as [Hne Hid]. split; [done|].
      destruct (Hidle1 n' a Hne Hid) as (j' & s' & Ha & Hj' & ?). exists j', s'.
      split; [done|]. by rewrite upd_server_ne by congruence.
  - apply lookup_ge_None. done.
  - by eapply upd_thread_eq.
  - intros t' th Ht'. rewrite upd_thread_ne; [by apply Hth1|].
    apply lookup_lt_Some in Ht'. unfold t. lia.
Qed.

(** ** Theorem *)

(** C17: From a state in which a node's peers run and none of them has ever asked for a
    lock (requesting_cs, which is never reset, is false for every lock), and in which
    the node's own lock variables are free with empty deferred lists and sequence
    numbers that can be incremented, the node can acquire and release any sequence of
    locks, with repetitions: there is an execution in which a new thread for each of
    them has its acquire and its release call return, and every other thread stays where
    it is. *)
Theorem locks_used_in_turn w j s ns :
  calm w j s →
  ∃ w' ts, rtc (step host_of) w w' ∧ NoDup ts ∧
    Forall2 (λ t n, w_threads w !! t = None ∧ w_threads w' !! t = Some (TSession j n Released)) ts ns ∧
    ∀ t th, w_threads w !! t = Some th → w_threads w' !! t = Some th.
Proof.
  revert w s. induction ns as [|n ns IH]; intros w s Hc.
  { exists w, []. split_and!; [done|constructor|constructor|done]. }
  destruct (use_once w j s n Hc) as (w1 & s1 & t & Hr1 & Hc1 & Hnew & Ht1 & Hkeep).
  destruct (IH w1 s1 Hc1) as (w2 & ts & Hr2 & Hnd & Hts & Hkeep2).
  exists w2, (t :: ts). split_and!; [by etrans| | |by auto].
  - apply NoDup_cons. split; [|done]. intros [i Hi]%list_elem_of_lookup.
    destruct (Forall2_lookup_l _ _ _ _ _ Hts Hi) as (n' & _ & Hnone & _). congruence.
  - constructor; [by auto|]. eapply Forall2_impl; [exact Hts|]. intros t' n' [Hnone ?].
    split; [|done]. destruct (w_threads w !! t') eqn:Ht'; [|done].
    apply Hkeep in Ht'. congruence.
Qed.

(** In a system as the initialization leaves it, every node is calm. *)
Lemma initial_calm w j s :
  initial host_of w → no_self host_of w → (∀ i si, w_servers w !! i = Some si → sv_alive si = true) →
  (∀ k a, sv_nodes s !! k = Some a → ∃ i, host_of a = Some i ∧ is_Some (w_servers w !! i)) →
  w_servers w !! j = Some s → calm w j s.
Proof.
  intros Hi Hns Hal Hres Hj.
  assert (∀ i si n, w_servers w !! i = Some si → view si n = new_lockvar n) as Hview.
  { intros i si n Hsi. destruct (init_fresh _ _ Hi i si Hsi) as [Hl _]. unfold view. by rewrite Hl. }
  split; [|done|by eapply Hal|..].
  - intros i si Hsi. unfold sv_wf. destruct (init_fresh _ _ Hi i si Hsi) as [-> _]. constructor.
  - intros n. by rewrite (Hview j).
  - intros n k a Hk. split; [by eapply Hns|]. destruct (Hres k a Hk) as (i & Ha & [si Hsi]).
    exists i, si. rewrite (Hview i) by done. split_and!; try done. by eapply Hal.
Qed.

End use.

(** ** Witness *)

(** The locks of the sample program. *)
Definition lock_num : list Z := [1; 1; 2].

Lemma w2_calm : calm host_of3 w2 0 (server_of w2 0).
Proof.
  apply initial_calm; [exact w2_initial|exact w2_no_self|..|reflexivity].
  - intros [|[|i]] si Hsi; vm_compute in Hsi; simplify_eq; reflexivity.
  - intros [|k] a Hk; vm_compute in Hk; simplify_eq. exists 1%nat. split; [reflexivity|by eexists].
Qed.

Lemma locks_used_in_turn_witness :
  ∃ w' ts, rtc (step host_of3) w2 w' ∧ NoDup ts ∧
    Forall2 (λ t n, w_threads w2 !! t = None ∧ w_threads w' !! t = Some (TSession 0 n Released))
      ts lock_num ∧
    ∀ t th, w_threads w2 !! t = Some th → w_threads w' !! t = Some th.
Proof. exact (locks_used_in_turn host_of3 w2 0 (server_of w2 0) lock_num w2_calm). Defined.
