(* ===== verification/LockClient.v ===== *)
(** * The client side of the lock manager

    [psu_dist_lock_mgr.c]: the interface that applications call, the client
    stubs of [psu_dist_lock_mgr_msg_clnt.c], and what initialization gives
    the servers.  A call is what [clnt_call] is given; its status is ignored
    by every caller, so the functions return the calls they make. *)

From S2P Require Import Prelude CString Xdr Utility LockMsg LockServer LockSystem LockSafety.

(** ** Stubs *)

Definition init_lock_mgr_1 (argp : bytes) (clnt : CLIENT) : call :=
  clnt_call clnt INIT_LOCK_MGR (enc_opaque argp) TIMEOUT.
Definition acquire_lock_1 (argp : Z) (clnt : CLIENT) : call :=
  clnt_call clnt ACQUIRE_LOCK (enc_int argp) TIMEOUT.
Definition release_lock_1 (argp : Z) (clnt : CLIENT) : call :=
  clnt_call clnt RELEASE_LOCK (enc_int argp) TIMEOUT.
Definition request_1 (argp : RequestPack) (clnt : CLIENT) : call :=
  clnt_call clnt REQUEST (enc_RequestPack argp) TIMEOUT.

(** ** The node string *)

(** A heap string: its contents and the bytes allocated for it. *)
Record strbuf := mkStrbuf { sb_data : bytes; sb_cap : Z }.

(** [strcat(b, s)]: undefined when the result and its NUL do not fit. *)
Definition strcat (b : strbuf) (s : bytes) : outcome strbuf :=
  if decide (Z.of_nat (length (sb_data b) + length (cterm s) + 1) ≤ sb_cap b)
  then Ret (mkStrbuf (sb_data b ++ cterm s) (sb_cap b)) else Undef.

(** The [while] loop of lines 21-25: [used] is the size the condition asks
    for, [str_size] an [int] that takes part in [size_t] arithmetic.  The
    capacity follows [realloc]. *)
Fixpoint grow (fuel : nat) (used str_size cap : Z) : outcome (Z * Z) :=
  if used <=? wrap 64 str_size then Ret (str_size, cap)
  else
    match fuel with
    | O => Undef
    | S f =>
        let size' := wrap 64 (wrap 64 str_size + 1024) in
        grow f used (to_signed 32 size') size'
    end.

(** The loop over the nodes; [used / 1024 + 1] rounds of the inner loop are
    enough as long as [str_size] does not leave the range of [int]. *)
Fixpoint build (nodes : list bytes) (i num_nodes : Z) (b : strbuf) (str_size : Z)
    : outcome strbuf :=
  match nodes with
  | [] => Ret b
  | node :: rest =>
      (let used := Z.of_nat (length (sb_data b) + strlen node + 2) in
       let! (size, cap) := grow (Z.to_nat (used / 1024 + 1)) used str_size (sb_cap b) in
       let! b := strcat (mkStrbuf (sb_data b) cap) node in
       let! b := (if decide (i ≠ num_nodes - 1) then strcat b [COMMA] else Ret b) in
       build rest (i + 1) num_nodes b size)%outcome
  end.

Definition node_string (nodes : list bytes) : outcome strbuf :=
  build nodes 0 (Z.of_nat (length nodes)) (mkStrbuf [] 1024) 1024.

(** ** The interface *)

Section interface.
Context (clnt_create : bytes → Z → Z → bytes → option CLIENT).

Definition local_client : outcome CLIENT :=
  create_client clnt_create (cstr "127.0.0.1") PSU_DIST_LOCK_MGR PSU_DIST_LOCK_MGR_V1 (cstr "tcp").

(** The functions take and return [has_initialized] and list their calls. *)
Definition psu_init_lock_mgr (nodes : list bytes) (has_initialized : bool)
    : outcome (bool * list call) :=
  (let! b := node_string nodes in
   let! client := local_client in
   Ret (true, [init_lock_mgr_1 (sb_data b) client]))%outcome.

Definition psu_acquire_lock (lock_number : Z) (has_initialized : bool)
    : outcome (bool * list call) :=
  (if has_initialized then
     let! client := local_client in
     Ret (has_initialized, [acquire_lock_1 lock_number client])
   else Ret (has_initialized, []))%outcome.

Definition psu_release_lock (lock_number : Z) (has_initialized : bool)
    : outcome (bool * list call) :=
  (if has_initialized then
     let! client := local_client in
     Ret (has_initialized, [release_lock_1 lock_number client])
   else Ret (has_initialized, []))%outcome.

End interface.

(** ** Initialization of a cluster *)

(** One machine: its MAC address and its own IP addresses. *)
Record machine := mkMachine { m_mac : Z; m_ips : list bytes }.

(** The server of a machine after its start and after an application on it
    has called [psu_init_lock_mgr(hosts)]. *)
Definition start_node (hosts : list bytes) (m : machine) : outcome Server :=
  (let! s := initialize_global_variable (m_mac m) in
   let! b := node_string hosts in
   init_lock_mgr_1_svc (m_ips m) (sb_data b) s)%outcome.

(** The size of the node string fits the [int] that holds it. *)
Definition fits (nodes : list bytes) : Prop :=
  Z.of_nat (length (join COMMA nodes)) + 1024 + 2 ≤ INT_MAX.

(** ** Lemmas *)

Lemma grow_ok fuel used size :
  0 ≤ size → used + 1024 ≤ INT_MAX → size ≤ INT_MAX → used - size ≤ 1024 * Z.of_nat fuel →
  ∃ size', grow fuel used size size = Ret (size', size') ∧ used ≤ size' ∧ size ≤ size' ≤ INT_MAX.
Proof.
  revert size. unfold INT_MAX. induction fuel as [|f IH]; intros size H0 Hu Hs Hf; cbn [grow];
    unfold wrap; rewrite (Z.mod_small size) by lia; destruct (Z.leb_spec used size); try (exists size; split; [done|lia]);
    [lia|].
  rewrite (Z.mod_small (size + 1024)) by lia.
  assert (to_signed 32 (size + 1024) = size + 1024) as Hsg.
  { rewrite <-(Z.mod_small (size + 1024) (2 ^ 32)) at 1 by lia. apply to_signed_int; lia. }
  rewrite Hsg.
  destruct (IH (size + 1024)) as (size' & Hg & Hle & Hb); [lia..|].
  exists size'. split; [done|lia].
Qed.

Lemma strcat_ok b s :
  NUL ∉ s → Z.of_nat (length (sb_data b) + length s + 1) ≤ sb_cap b →
  strcat b s = Ret (mkStrbuf (sb_data b ++ s) (sb_cap b)).
Proof. intros Hn Hc. unfold strcat. by rewrite cterm_no_nul, decide_True. Qed.

Lemma join_cons2 d (s s2 : bytes) l : join d (s :: s2 :: l) = s ++ [d] ++ join d (s2 :: l).
Proof. done. Qed.

Lemma build_ok nodes i num data size :
  Forall (λ s, NUL ∉ s) nodes → num = i + Z.of_nat (length nodes) →
  0 ≤ size ≤ INT_MAX → Z.of_nat (length data) < size →
  Z.of_nat (length data + length (join COMMA nodes)) + 1024 + 2 ≤ INT_MAX →
  ∃ cap, build nodes i num (mkStrbuf data size) size = Ret (mkStrbuf (data ++ join COMMA nodes) cap) ∧
    Z.of_nat (length (data ++ join COMMA nodes)) < cap.
Proof.
  revert i data size. induction nodes as [|s nodes IH]; intros i data size Hn Hnum Hs Hd Hfit.
  { exists size. cbn [build join]. by rewrite app_nil_r. }
  apply Forall_cons in Hn as [Hsn Hn]. cbn [build sb_data sb_cap].
  rewrite (strlen_no_nul s Hsn).
  set (used := Z.of_nat (length data + length s + 2)).
  assert (length s ≤ length (join COMMA (s :: nodes)))%nat as Hlen
    by (destruct nodes; cbn [join]; rewrite ?length_app; lia).
  destruct (grow_ok (Z.to_nat (used / 1024 + 1)) used size) as (size' & -> & Hu & Hb);
    [lia|lia|lia| |].
  { assert (0 ≤ used / 1024) by (apply Z.div_pos; lia).
    pose proof (Z.mod_pos_bound used 1024). pose proof (Z.div_mod used 1024). lia. }
  cbn [obind]. rewrite strcat_ok by (done || cbn [sb_data sb_cap]; lia). cbn [obind sb_data sb_cap].
  destruct nodes as [|s2 nodes].
  - rewrite decide_False by (simpl in Hnum; lia). cbn [obind build join].
    exists size'. split; [done|]. rewrite length_app. lia.
  - rewrite decide_True by (simpl in Hnum; lia).
    rewrite strcat_ok.
    2:{ rewrite elem_of_cons, elem_of_nil. by intros [?|?]. }
    2:{ cbn [sb_data sb_cap]. rewrite length_app. cbn [length]. lia. }
    cbn [obind sb_data sb_cap].
    destruct (IH (i + 1) ((data ++ s) ++ [COMMA]) size') as (cap & Hbd & Hcap).
    + done.
    + simpl in Hnum |- *. lia.
    + lia.
    + rewrite !length_app. cbn [length]. lia.
    + rewrite join_cons2 in Hfit. rewrite !length_app in Hfit |- *. cbn [length] in Hfit |- *. lia.
    + exists cap. rewrite Hbd, join_cons2. rewrite <-!app_assoc in *. done.
Qed.

Lemma node_string_ok nodes :
  Forall (λ s, NUL ∉ s) nodes → fits nodes →
  ∃ cap, node_string nodes = Ret (mkStrbuf (join COMMA nodes) cap) ∧
    Z.of_nat (length (join COMMA nodes)) < cap.
Proof.
  intros Hn Hf. unfold fits, INT_MAX in Hf.
  apply (build_ok nodes 0 _ [] 1024); unfold INT_MAX; cbn [length]; first [done|lia].
Qed.

Lemma is_local_elem pch ips :
  NUL ∉ pch → Forall (λ s, NUL ∉ s) ips → is_local pch ips = bool_decide (pch ∈ ips).
Proof.
  intros Hp. induction 1 as [|ip ips Hip Hips IH]; [done|]. cbn [is_local].
  destruct (decide (strcmp pch ip = 0)) as [Heq|Hne].
  - apply strcmp_eq in Heq. rewrite !cterm_no_nul in Heq by done. subst.
    symmetry. apply bool_decide_eq_true. apply elem_of_cons. by left.
  - rewrite IH. apply bool_decide_ext. rewrite elem_of_cons. split; [by right|].
    intros [->|?]; [|done]. destruct Hne. by apply strcmp_eq.
Qed.

Lemma add_nodes_filter toks ips nodes :
  Forall (λ s, NUL ∉ s) toks → Forall (λ s, NUL ∉ s) ips →
  add_nodes toks ips nodes = nodes ++ base.filter (λ a, a ∉ ips) toks.
Proof.
  intros Ht Hips. revert nodes. induction Ht as [|a toks Ha Ht IH]; intros nodes; cbn [add_nodes].
  { by rewrite app_nil_r. }
  rewrite is_local_elem, filter_cons by done. destruct (decide (a ∈ ips)) as [Hin|Hin].
  - rewrite bool_decide_true, decide_False by tauto. apply IH.
  - rewrite bool_decide_false, decide_True, IH, <-app_assoc by done. done.
Qed.

(** What a node knows after initialization. *)
Lemma init_svc_nodes hosts ips s :
  Forall (token_ok COMMA) hosts → Forall (λ a, NUL ∉ a) ips → ips ≠ [] →
  init_lock_mgr_1_svc ips (join COMMA hosts) s =
  Ret (mkServer (sv_nodes s ++ base.filter (λ a, a ∉ ips) hosts) (sv_mac s) true
         (sv_lockvar_list s) (sv_mutexes s) (sv_alive s)).
Proof.
  intros Hh Hips Hne. unfold init_lock_mgr_1_svc.
  assert (Forall (λ s, NUL ∉ s) hosts) as Hnul by (eapply Forall_impl; [exact Hh|]; by intros ? (_ & _ & ?)).
  rewrite cterm_no_nul by (by apply join_no_nul).
  rewrite strtok_all_join by (eapply Forall_impl; [exact Hh|]; by intros ? (? & ? & _)).
  rewrite add_nodes_filter by done. by destruct ips.
Qed.

Lemma start_node_ok hosts m :
  Forall (token_ok COMMA) hosts → fits hosts → m_mac m ≠ 0 → m_ips m ≠ [] →
  Forall (λ a, NUL ∉ a) (m_ips m) →
  start_node hosts m =
  Ret (mkServer (base.filter (λ a, a ∉ m_ips m) hosts) (m_mac m) true [] ∅ true).
Proof.
  intros Hh Hf Hm Hi Hn. unfold start_node, initialize_global_variable.
  rewrite decide_False by done. cbn [obind].
  destruct (node_string_ok hosts) as (cap & -> & _);
    [eapply Forall_impl; [exact Hh|]; by intros ? (_ & _ & ?)|done|].
  cbn [obind sb_data]. by rewrite init_svc_nodes.
Qed.

(** ** Results *)

(** C25: For a list of hosts that are not empty and have no comma or NUL, whose joined
    length fits an int, the growth loop of psu_init_lock_mgr terminates, the string and
    its NUL always fit the allocated block, and the server's strtok loop over it returns
    the original node list. *)
Theorem node_string_roundtrip nodes :
  Forall (token_ok COMMA) nodes → fits nodes →
  ∃ b, node_string nodes = Ret b ∧ Z.of_nat (length (sb_data b)) < sb_cap b ∧
    strtok_all COMMA (cterm (sb_data b)) = nodes.
Proof.
  intros Hn Hf.
  assert (Forall (λ s, NUL ∉ s) nodes) as Hnul by (eapply Forall_impl; [exact Hn|]; by intros ? (_ & _ & ?)).
  destruct (node_string_ok nodes Hnul Hf) as (cap & -> & Hcap).
  eexists. split; [done|]. cbn [sb_data sb_cap]. split; [done|].
  rewrite cterm_no_nul by (by apply join_no_nul).
  apply strtok_all_join. eapply Forall_impl; [exact Hn|]. by intros ? (? & ? & _).
Qed.

(** psu_init_lock_mgr sends one INIT_LOCK_MGR call with a one-hour timeout, and the
    server that receives its string appends to its peers exactly the given nodes that
    are not among its own addresses, in order. *)
Theorem psu_init_lock_mgr_nodes clnt_create client nodes ips s has_initialized :
  Forall (token_ok COMMA) nodes → fits nodes → Forall (λ a, NUL ∉ a) ips → ips ≠ [] →
  local_client clnt_create = Ret client →
  ∃ str, psu_init_lock_mgr clnt_create nodes has_initialized =
      Ret (true, [mkCall client INIT_LOCK_MGR (enc_opaque str) 3600]) ∧
    ∃ s', init_lock_mgr_1_svc ips str s = Ret s' ∧ sv_has_initialized s' = true ∧
      sv_nodes s' = sv_nodes s ++ base.filter (λ a, a ∉ ips) nodes.
Proof.
  intros Hn Hf Hips Hne Hc.
  assert (Forall (λ s, NUL ∉ s) nodes) as Hnul by (eapply Forall_impl; [exact Hn|]; by intros ? (_ & _ & ?)).
  exists (join COMMA nodes). split.
  - unfold psu_init_lock_mgr. destruct (node_string_ok nodes Hnul Hf) as (cap & -> & _).
    cbn [obind]. rewrite Hc. cbn [obind sb_data]. unfold init_lock_mgr_1, clnt_call.
    unfold local_client, create_client in Hc. destruct (clnt_create _ _ _ _); simplify_eq. done.
  - rewrite init_svc_nodes by done. by eexists.
Qed.

(** The interface functions do nothing before initialization, and afterwards make one call with
    a one-hour timeout to the local server or exit. *)
Theorem client_requires_init clnt_create lock_number :
  psu_acquire_lock clnt_create lock_number false = Ret (false, []) ∧
  psu_release_lock clnt_create lock_number false = Ret (false, []) ∧
  match clnt_create (cstr "127.0.0.1") PSU_DIST_LOCK_MGR PSU_DIST_LOCK_MGR_V1 (cstr "tcp") with
  | None => psu_acquire_lock clnt_create lock_number true = Exit 1 ∧
            psu_release_lock clnt_create lock_number true = Exit 1
  | Some c => psu_acquire_lock clnt_create lock_number true =
                Ret (true, [mkCall (set_cl_timeout 3600 c) ACQUIRE_LOCK (enc_int lock_number) 3600]) ∧
              psu_release_lock clnt_create lock_number true =
                Ret (true, [mkCall (set_cl_timeout 3600 c) RELEASE_LOCK (enc_int lock_number) 3600])
  end.
Proof.
  split_and!; [done..|]. unfold psu_acquire_lock, psu_release_lock, local_client, create_client.
  by destruct (clnt_create _ _ _ _).
Qed.

Section cluster.
Context (host_of : bytes → option nat) (hosts : list bytes) (ms : list machine).
Hypothesis Htok : Forall (token_ok COMMA) hosts.
Hypothesis Hfits : fits hosts.
Hypothesis Hlen : length hosts = length ms.
Hypothesis Hname : ∀ j a, hosts !! j = Some a → host_of a = Some j.
Hypothesis Hown : ∀ i m j a, ms !! i = Some m → hosts !! j = Some a → a ∈ m_ips m ↔ i = j.
Hypothesis Hms : Forall (λ m, m_mac m ≠ 0 ∧ Forall (λ a, NUL ∉ a) (m_ips m)) ms.

Definition node_server (m : machine) : Server :=
  mkServer (base.filter (λ a, a ∉ m_ips m) hosts) (m_mac m) true [] ∅ true.

Lemma start_machine i m : ms !! i = Some m → start_node hosts m = Ret (node_server m).
Proof.
  intros Hi. destruct (lookup_lt_is_Some_2 hosts i) as [a Ha];
    [rewrite Hlen; by eapply lookup_lt_Some|].
  pose proof (proj2 (Hown i m i a Hi Ha) eq_refl) as Hin.
  pose proof (proj1 (Forall_lookup _ _) Hms i m Hi) as [Hmac Hn].
  apply start_node_ok; [done..| |done]. intros He. rewrite He in Hin. by apply not_elem_of_nil in Hin.
Qed.

(** The peers of machine [i] are the hosts of the other machines. *)
Lemma node_server_peer i m k a :
  ms !! i = Some m → sv_nodes (node_server m) !! k = Some a → ∃ j, hosts !! j = Some a ∧ i ≠ j.
Proof.
  intros Hi Hk. apply list_elem_of_lookup_2 in Hk. simpl in Hk.
  apply list_elem_of_filter in Hk as [Hnot Hin]. apply list_elem_of_lookup_1 in Hin as [j Hj].
  exists j. split; [done|]. intros ->. by apply Hnot, (Hown j m j a).
Qed.

Lemma node_server_knows i m j a :
  ms !! i = Some m → hosts !! j = Some a → i ≠ j → ∃ k, sv_nodes (node_server m) !! k = Some a.
Proof.
  intros Hi Hj Hij. apply list_elem_of_lookup. simpl. apply list_elem_of_filter.
  split; [by rewrite (Hown i m j a)|]. by eapply list_elem_of_lookup_2.
Qed.

(** C13: Starting a server on each machine and calling psu_init_lock_mgr there with the
    list of all hosts always succeeds and produces an initial state of the lock system:
    every node's peer list reaches every other node and not itself. The hosts are valid
    list elements, fit the int that holds the string's size, each host is one of its own
    machine's addresses and of no other's, and the MAC addresses are distinct and not 0.
    *)
Theorem cluster_initial :
  NoDup (m_mac <$> ms) →
  ∃ servers, Forall2 (λ m s, start_node hosts m = Ret s) ms servers ∧
    initial host_of (mkWorld servers []) ∧ no_self host_of (mkWorld servers []).
Proof.
  intros Hmac. exists (node_server <$> ms). split_and!.
  - apply Forall2_fmap_r, Forall_Forall2_diag, Forall_lookup. apply start_machine.
  - split; cbn [w_servers w_threads]; [done|..].
    + intros j s Hj. apply list_lookup_fmap_Some in Hj as (m & -> & _). done.
    + intros i j si sj Hi Hj Heq.
      apply list_lookup_fmap_Some in Hi as (mi & -> & Hi), Hj as (mj & -> & Hj). simpl in Heq.
      apply (NoDup_lookup _ i j (m_mac mi) Hmac); rewrite list_lookup_fmap, ?Hi, ?Hj; simpl; congruence.
    + intros i j si Hi Hlt Hij. apply list_lookup_fmap_Some in Hi as (m & -> & Hi).
      rewrite length_fmap, <-Hlen in Hlt. destruct (lookup_lt_is_Some_2 _ _ Hlt) as [a Ha].
      destruct (node_server_knows i m j a Hi Ha Hij) as [k Hk]. eauto.
  - intros i s k a Hi Hk. cbn [w_servers] in Hi. apply list_lookup_fmap_Some in Hi as (m & -> & Hi).
    destruct (node_server_peer i m k a Hi Hk) as (j & Hj & Hij). rewrite (Hname j a Hj). congruence.
Qed.

End cluster.

(** ** Witnesses *)

Definition example_hosts : list bytes := [cstr "10.0.0.1"; cstr "10.0.0.2"; cstr "10.0.0.3"].
Definition example_machines : list machine :=
  [mkMachine 11 [cstr "127.0.0.1"; cstr "10.0.0.1"];
   mkMachine 22 [cstr "127.0.0.1"; cstr "10.0.0.2"];
   mkMachine 33 [cstr "127.0.0.1"; cstr "10.0.0.3"]].
Definition example_host_of (h : bytes) : option nat := fst <$> list_find (λ a, a = h) example_hosts.
Definition example_create (h : bytes) (prog vers : Z) (proto : bytes) : option CLIENT :=
  Some (mkClient h prog vers proto None None).

Lemma example_hosts_tokens : Forall (token_ok COMMA) example_hosts.
Proof. apply (bool_decide_unpack _). vm_compute. exact I. Qed.

Lemma node_string_roundtrip_witness :
  ∃ b, node_string example_hosts = Ret b ∧ strtok_all COMMA (cterm (sb_data b)) = example_hosts.
Proof.
  destruct (node_string_roundtrip example_hosts) as (b & Hb & _ & Ht).
  - exact example_hosts_tokens.
  - vm_compute. discriminate.
  - exists b. split; [exact Hb|exact Ht].
Defined.

Lemma psu_init_lock_mgr_nodes_witness :
  ∃ str s', init_lock_mgr_1_svc [cstr "127.0.0.1"; cstr "10.0.0.1"] str
      (mkServer [] 11 false [] ∅ true) = Ret s' ∧
    sv_nodes s' = [cstr "10.0.0.2"; cstr "10.0.0.3"].
Proof.
  destruct (psu_init_lock_mgr_nodes example_create
    (mkClient (cstr "127.0.0.1") PSU_DIST_LOCK_MGR 1 (cstr "tcp") (Some 3600) None)
    example_hosts [cstr "127.0.0.1"; cstr "10.0.0.1"] (mkServer [] 11 false [] ∅ true) false)
    as (str & _ & s' & Hs & _ & Hn).
  - exact example_hosts_tokens.
  - vm_compute. discriminate.
  - apply (bool_decide_unpack _). vm_compute. exact I.
  - discriminate.
  - vm_compute. reflexivity.
  - exists str, s'. split; [exact Hs|]. rewrite Hn. vm_compute. reflexivity.
Defined.

Lemma cluster_initial_witness :
  ∃ servers, length servers = 3%nat ∧ initial example_host_of (mkWorld servers []) ∧
    no_self example_host_of (mkWorld servers []).
Proof.
  destruct (cluster_initial example_host_of example_hosts example_machines)
    as (servers & Hs & Hi & Hn).
  - exact example_hosts_tokens.
  - vm_compute. discriminate.
  - reflexivity.
  - intros [|[|[|j]]] a Hj; vm_compute in Hj; simplify_eq; by vm_compute.
  - intros i m j a Hi Hj.
    destruct i as [|[|[|i]]]; vm_compute in Hi; simplify_eq;
      destruct j as [|[|[|j]]]; vm_compute in Hj; simplify_eq; cbn [m_ips];
      (split; [intros Hin; apply (bool_decide_pack _) in Hin; vm_compute in Hin; done
              |intros Hij; first [discriminate Hij|apply (bool_decide_unpack _); vm_compute; exact I]]).
  - apply (bool_decide_unpack _). vm_compute. exact I.
  - apply (bool_decide_unpack _). vm_compute. exact I.
  - exists servers. split; [|split; [exact Hi|exact Hn]].
    apply Forall2_length in Hs. by rewrite <-Hs.
Defined.
