(* ===== verification/ThreadMsg.v ===== *)
(** * Thread migration messages

    The execution context that [migrate_1] carries ([psu_thread_msg.h]) and
    its XDR routines ([psu_thread_msg_xdr.c]).  A struct of fixed-size arrays
    is a record of lists; [ss_sp] is the contents of the counted byte array
    [{ss_sp_len, ss_sp_val}]. *)

From S2P Require Import Prelude Xdr.

Record rpc_libc_fpxreg := mkFpxreg {
  fx_significand : list Z;   (* u_int16_t[4] *)
  fx_exponent : Z;           (* u_int16_t *)
  fx_padding : list Z        (* u_int16_t[3] *)
}.

Record rpc_libc_xmmreg := mkXmmreg { xr_element : list Z (* u_int[4] *) }.

Record rpc_libc_fpstate := mkFpstate {
  fp_cwd : Z; fp_swd : Z; fp_ftw : Z; fp_fop : Z;      (* u_int16_t *)
  fp_rip : Z; fp_rdp : Z;                              (* u_int64_t *)
  fp_mxcsr : Z; fp_mxcr_mask : Z;                      (* u_int32_t *)
  fp_st : list rpc_libc_fpxreg;                        (* [8] *)
  fp_xmm : list rpc_libc_xmmreg;                       (* [16] *)
  fp_padding : list Z                                  (* u_int32_t[24] *)
}.

Record rpc_mcontext := mkMcontext {
  mc_gregs : list Z;             (* rpc_gregset_t: u_int64_t[23] *)
  mc_fpregs : rpc_libc_fpstate;
  mc_reserved1 : list Z          (* u_int64_t[8] *)
}.

Record rpc_stack_t := mkStack {
  st_flags : Z;                  (* int *)
  st_sp : bytes                  (* ss_sp_val[0 .. ss_sp_len) *)
}.

Record rpc_ucontext := mkUcontext {
  uc_flags : Z;                  (* u_int64_t *)
  uc_stack : rpc_stack_t;
  uc_mcontext : rpc_mcontext;
  uc_sigmask : list Z;           (* rpc__sigset_t: u_int64_t[16] *)
  uc_fpregs_mem : rpc_libc_fpstate
}.

Definition PSU_THREAD : Z := 67108863.  (* 0x3ffffff *)
Definition PSU_THREAD_V1 : Z := 1.
Definition MIGRATE : Z := 1.

(** ** Field updates *)

Definition set_fx_significand (a : list Z) (r : rpc_libc_fpxreg) : rpc_libc_fpxreg :=
  mkFpxreg a (fx_exponent r) (fx_padding r).
Definition set_fx_exponent (a : Z) (r : rpc_libc_fpxreg) : rpc_libc_fpxreg :=
  mkFpxreg (fx_significand r) a (fx_padding r).
Definition set_fx_padding (a : list Z) (r : rpc_libc_fpxreg) : rpc_libc_fpxreg :=
  mkFpxreg (fx_significand r) (fx_exponent r) a.
Definition set_xr_element (a : list Z) (r : rpc_libc_xmmreg) : rpc_libc_xmmreg := mkXmmreg a.

Definition set_fp_cwd (a : Z) (f : rpc_libc_fpstate) : rpc_libc_fpstate :=
  mkFpstate a (fp_swd f) (fp_ftw f) (fp_fop f) (fp_rip f) (fp_rdp f) (fp_mxcsr f)
    (fp_mxcr_mask f) (fp_st f) (fp_xmm f) (fp_padding f).
Definition set_fp_swd (a : Z) (f : rpc_libc_fpstate) : rpc_libc_fpstate :=
  mkFpstate (fp_cwd f) a (fp_ftw f) (fp_fop f) (fp_rip f) (fp_rdp f) (fp_mxcsr f)
    (fp_mxcr_mask f) (fp_st f) (fp_xmm f) (fp_padding f).
Definition set_fp_ftw (a : Z) (f : rpc_libc_fpstate) : rpc_libc_fpstate :=
  mkFpstate (fp_cwd f) (fp_swd f) a (fp_fop f) (fp_rip f) (fp_rdp f) (fp_mxcsr f)
    (fp_mxcr_mask f) (fp_st f) (fp_xmm f) (fp_padding f).
Definition set_fp_fop (a : Z) (f : rpc_libc_fpstate) : rpc_libc_fpstate :=
  mkFpstate (fp_cwd f) (fp_swd f) (fp_ftw f) a (fp_rip f) (fp_rdp f) (fp_mxcsr f)
    (fp_mxcr_mask f) (fp_st f) (fp_xmm f) (fp_padding f).
Definition set_fp_rip (a : Z) (f : rpc_libc_fpstate) : rpc_libc_fpstate :=
  mkFpstate (fp_cwd f) (fp_swd f) (fp_ftw f) (fp_fop f) a (fp_rdp f) (fp_mxcsr f)
    (fp_mxcr_mask f) (fp_st f) (fp_xmm f) (fp_padding f).
Definition set_fp_rdp (a : Z) (f : rpc_libc_fpstate) : rpc_libc_fpstate :=
  mkFpstate (fp_cwd f) (fp_swd f) (fp_ftw f) (fp_fop f) (fp_rip f) a (fp_mxcsr f)
    (fp_mxcr_mask f) (fp_st f) (fp_xmm f) (fp_padding f).
Definition set_fp_mxcsr (a : Z) (f : rpc_libc_fpstate) : rpc_libc_fpstate :=
  mkFpstate (fp_cwd f) (fp_swd f) (fp_ftw f) (fp_fop f) (fp_rip f) (fp_rdp f) a
    (fp_mxcr_mask f) (fp_st f) (fp_xmm f) (fp_padding f).
Definition set_fp_mxcr_mask (a : Z) (f : rpc_libc_fpstate) : rpc_libc_fpstate :=
  mkFpstate (fp_cwd f) (fp_swd f) (fp_ftw f) (fp_fop f) (fp_rip f) (fp_rdp f) (fp_mxcsr f)
    a (fp_st f) (fp_xmm f) (fp_padding f).
Definition set_fp_st (a : list rpc_libc_fpxreg) (f : rpc_libc_fpstate) : rpc_libc_fpstate :=
  mkFpstate (fp_cwd f) (fp_swd f) (fp_ftw f) (fp_fop f) (fp_rip f) (fp_rdp f) (fp_mxcsr f)
    (fp_mxcr_mask f) a (fp_xmm f) (fp_padding f).
Definition set_fp_xmm (a : list rpc_libc_xmmreg) (f : rpc_libc_fpstate) : rpc_libc_fpstate :=
  mkFpstate (fp_cwd f) (fp_swd f) (fp_ftw f) (fp_fop f) (fp_rip f) (fp_rdp f) (fp_mxcsr f)
    (fp_mxcr_mask f) (fp_st f) a (fp_padding f).
Definition set_fp_padding (a : list Z) (f : rpc_libc_fpstate) : rpc_libc_fpstate :=
  mkFpstate (fp_cwd f) (fp_swd f) (fp_ftw f) (fp_fop f) (fp_rip f) (fp_rdp f) (fp_mxcsr f)
    (fp_mxcr_mask f) (fp_st f) (fp_xmm f) a.

Definition set_mc_gregs (a : list Z) (m : rpc_mcontext) : rpc_mcontext :=
  mkMcontext a (mc_fpregs m) (mc_reserved1 m).
Definition set_mc_fpregs (a : rpc_libc_fpstate) (m : rpc_mcontext) : rpc_mcontext :=
  mkMcontext (mc_gregs m) a (mc_reserved1 m).
Definition set_mc_reserved1 (a : list Z) (m : rpc_mcontext) : rpc_mcontext :=
  mkMcontext (mc_gregs m) (mc_fpregs m) a.
Definition set_st_flags (a : Z) (s : rpc_stack_t) : rpc_stack_t := mkStack a (st_sp s).
Definition set_st_sp (a : bytes) (s : rpc_stack_t) : rpc_stack_t := mkStack (st_flags s) a.
Definition set_uc_flags (a : Z) (u : rpc_ucontext) : rpc_ucontext :=
  mkUcontext a (uc_stack u) (uc_mcontext u) (uc_sigmask u) (uc_fpregs_mem u).
Definition set_uc_stack (a : rpc_stack_t) (u : rpc_ucontext) : rpc_ucontext :=
  mkUcontext (uc_flags u) a (uc_mcontext u) (uc_sigmask u) (uc_fpregs_mem u).
Definition set_uc_mcontext (a : rpc_mcontext) (u : rpc_ucontext) : rpc_ucontext :=
  mkUcontext (uc_flags u) (uc_stack u) a (uc_sigmask u) (uc_fpregs_mem u).
Definition set_uc_sigmask (a : list Z) (u : rpc_ucontext) : rpc_ucontext :=
  mkUcontext (uc_flags u) (uc_stack u) (uc_mcontext u) a (uc_fpregs_mem u).
Definition set_uc_fpregs_mem (a : rpc_libc_fpstate) (u : rpc_ucontext) : rpc_ucontext :=
  mkUcontext (uc_flags u) (uc_stack u) (uc_mcontext u) (uc_sigmask u) a.

(** ** Objects and values *)

(** The arrays of an object in memory have their declared lengths. *)
Definition fpxreg_shape (r : rpc_libc_fpxreg) : Prop :=
  length (fx_significand r) = 4%nat ∧ length (fx_padding r) = 3%nat.
Definition xmmreg_shape (r : rpc_libc_xmmreg) : Prop := length (xr_element r) = 4%nat.
Definition fpstate_shape (f : rpc_libc_fpstate) : Prop :=
  vec_shape fpxreg_shape 8 (fp_st f) ∧ vec_shape xmmreg_shape 16 (fp_xmm f) ∧
  length (fp_padding f) = 24%nat.
Definition mcontext_shape (m : rpc_mcontext) : Prop :=
  length (mc_gregs m) = 23%nat ∧ fpstate_shape (mc_fpregs m) ∧
  length (mc_reserved1 m) = 8%nat.
Definition ucontext_shape (u : rpc_ucontext) : Prop :=
  mcontext_shape (uc_mcontext u) ∧ length (uc_sigmask u) = 16%nat ∧
  fpstate_shape (uc_fpregs_mem u).

(** ... and every scalar fits its C type. *)
Definition fpxreg_valid (r : rpc_libc_fpxreg) : Prop :=
  vec_valid (uint_ok 16) 4 (fx_significand r) ∧ uint_ok 16 (fx_exponent r) ∧
  vec_valid (uint_ok 16) 3 (fx_padding r).
Definition xmmreg_valid (r : rpc_libc_xmmreg) : Prop := vec_valid (uint_ok 32) 4 (xr_element r).
Definition fpstate_valid (f : rpc_libc_fpstate) : Prop :=
  uint_ok 16 (fp_cwd f) ∧ uint_ok 16 (fp_swd f) ∧ uint_ok 16 (fp_ftw f) ∧
  uint_ok 16 (fp_fop f) ∧ uint_ok 64 (fp_rip f) ∧ uint_ok 64 (fp_rdp f) ∧
  uint_ok 32 (fp_mxcsr f) ∧ uint_ok 32 (fp_mxcr_mask f) ∧
  vec_valid fpxreg_valid 8 (fp_st f) ∧ vec_valid xmmreg_valid 16 (fp_xmm f) ∧
  vec_valid (uint_ok 32) 24 (fp_padding f).
Definition mcontext_valid (m : rpc_mcontext) : Prop :=
  vec_valid (uint_ok 64) 23 (mc_gregs m) ∧ fpstate_valid (mc_fpregs m) ∧
  vec_valid (uint_ok 64) 8 (mc_reserved1 m).
Definition stack_valid (s : rpc_stack_t) : Prop :=
  int_ok (st_flags s) ∧ Z.of_nat (length (st_sp s)) < 2 ^ 32.
Definition ucontext_valid (u : rpc_ucontext) : Prop :=
  uint_ok 64 (uc_flags u) ∧ stack_valid (uc_stack u) ∧ mcontext_valid (uc_mcontext u) ∧
  vec_valid (uint_ok 64) 16 (uc_sigmask u) ∧ fpstate_valid (uc_fpregs_mem u).

(** ** Wire images *)

Definition enc_fpxreg (r : rpc_libc_fpxreg) : bytes :=
  vec_enc enc_u_short (fx_significand r) ++ enc_u_short (fx_exponent r) ++
  vec_enc enc_u_short (fx_padding r).
Definition enc_xmmreg (r : rpc_libc_xmmreg) : bytes := vec_enc enc_u_int (xr_element r).
Definition enc_fpstate (f : rpc_libc_fpstate) : bytes :=
  enc_u_short (fp_cwd f) ++ enc_u_short (fp_swd f) ++ enc_u_short (fp_ftw f) ++
  enc_u_short (fp_fop f) ++ enc_u_hyper (fp_rip f) ++ enc_u_hyper (fp_rdp f) ++
  enc_u_int (fp_mxcsr f) ++ enc_u_int (fp_mxcr_mask f) ++
  vec_enc enc_fpxreg (fp_st f) ++ vec_enc enc_xmmreg (fp_xmm f) ++
  vec_enc enc_u_int (fp_padding f).
Definition enc_mcontext (m : rpc_mcontext) : bytes :=
  vec_enc enc_u_hyper (mc_gregs m) ++ enc_fpstate (mc_fpregs m) ++
  vec_enc enc_u_hyper (mc_reserved1 m).
Definition enc_stack (s : rpc_stack_t) : bytes := enc_int (st_flags s) ++ enc_opaque (st_sp s).
Definition enc_ucontext (u : rpc_ucontext) : bytes :=
  enc_u_hyper (uc_flags u) ++ enc_stack (uc_stack u) ++ enc_mcontext (uc_mcontext u) ++
  vec_enc enc_u_hyper (uc_sigmask u) ++ enc_fpstate (uc_fpregs_mem u).

(** ** Routines *)

Section routines.
Context {X : Type} `{XdrStream X}.

Definition xdr_rpc__sigset_t : filter X (list Z) := xdr_vector xdr_u_hyper 16 ;;; fdone.

Definition xdr_rpc_libc_fpxreg : filter X rpc_libc_fpxreg :=
  ffield fx_significand set_fx_significand (xdr_vector xdr_u_short 4) ;;;
  ffield fx_exponent set_fx_exponent xdr_u_short ;;;
  ffield fx_padding set_fx_padding (xdr_vector xdr_u_short 3) ;;;
  fdone.

(** The routine with the inline fast path: when [XDR_INLINE] returns a
    buffer the four words go through it, otherwise through [xdr_vector]. *)
Definition xmmreg_vector : filter X rpc_libc_xmmreg :=
  ffield xr_element set_xr_element (xdr_vector xdr_u_int 4) ;;; fdone.

Definition xdr_rpc_libc_xmmreg : filter X rpc_libc_xmmreg := λ x o,
  let slow := xmmreg_vector x o in
  match x_op x with
  | XDR_ENCODE =>
      match xdr_inline_put x (take 4 (xr_element o)) with
      | None => slow
      | Some x' => (true, x', o)
      end
  | XDR_DECODE =>
      match xdr_inline_get x 4 with
      | None => slow
      | Some (x', l) => (true, x', set_xr_element l o)
      end
  | XDR_FREE => slow
  end.

Definition xdr_rpc_libc_fpstate : filter X rpc_libc_fpstate :=
  ffield fp_cwd set_fp_cwd xdr_u_short ;;;
  ffield fp_swd set_fp_swd xdr_u_short ;;;
  ffield fp_ftw set_fp_ftw xdr_u_short ;;;
  ffield fp_fop set_fp_fop xdr_u_short ;;;
  ffield fp_rip set_fp_rip xdr_u_hyper ;;;
  ffield fp_rdp set_fp_rdp xdr_u_hyper ;;;
  ffield fp_mxcsr set_fp_mxcsr xdr_u_int ;;;
  ffield fp_mxcr_mask set_fp_mxcr_mask xdr_u_int ;;;
  ffield fp_st set_fp_st (xdr_vector xdr_rpc_libc_fpxreg 8) ;;;
  ffield fp_xmm set_fp_xmm (xdr_vector xdr_rpc_libc_xmmreg 16) ;;;
  ffield fp_padding set_fp_padding (xdr_vector xdr_u_int 24) ;;;
  fdone.

Definition xdr_rpc_greg_t : filter X Z := xdr_u_hyper ;;; fdone.

Definition xdr_rpc_gregset_t : filter X (list Z) := xdr_vector xdr_rpc_greg_t 23 ;;; fdone.

Definition xdr_rpc_mcontext : filter X rpc_mcontext :=
  ffield mc_gregs set_mc_gregs xdr_rpc_gregset_t ;;;
  ffield mc_fpregs set_mc_fpregs xdr_rpc_libc_fpstate ;;;
  ffield mc_reserved1 set_mc_reserved1 (xdr_vector xdr_u_hyper 8) ;;;
  fdone.

Definition xdr_rpc_stack_t : filter X rpc_stack_t :=
  ffield st_flags set_st_flags xdr_int ;;;
  ffield st_sp set_st_sp xdr_bytes ;;;
  fdone.

Definition xdr_rpc_ucontext : filter X rpc_ucontext :=
  ffield uc_flags set_uc_flags xdr_u_hyper ;;;
  ffield uc_stack set_uc_stack xdr_rpc_stack_t ;;;
  ffield uc_mcontext set_uc_mcontext xdr_rpc_mcontext ;;;
  ffield uc_sigmask set_uc_sigmask xdr_rpc__sigset_t ;;;
  ffield uc_fpregs_mem set_uc_fpregs_mem xdr_rpc_libc_fpstate ;;;
  fdone.

(** ** Lemmas *)

Context `{!XdrLaws X}.

Lemma xdr_rpc__sigset_t_ok :
  filter_ok xdr_rpc__sigset_t (vec_enc enc_u_hyper) (vec_valid (uint_ok 64) 16)
    (λ l, length l = 16%nat) (λ v _, v).
Proof. apply fonly_ok, xdr_array_ok, xdr_u_hyper_ok. Qed.

Lemma xdr_rpc_gregset_t_ok :
  filter_ok xdr_rpc_gregset_t (vec_enc enc_u_hyper) (vec_valid (uint_ok 64) 23)
    (λ l, length l = 23%nat) (λ v _, v).
Proof. apply fonly_ok, xdr_array_ok, fonly_ok, xdr_u_hyper_ok. Qed.

Lemma xdr_rpc_stack_t_ok :
  filter_ok xdr_rpc_stack_t enc_stack stack_valid (λ _, True) (λ v _, v).
Proof.
  eapply filter_ok_ext.
  - unfold xdr_rpc_stack_t.
    xdr_field (λ _ : rpc_stack_t, True) ltac:(apply xdr_int_ok).
    xdr_field (λ _ : rpc_stack_t, True) ltac:(apply xdr_bytes_ok). apply fdone_ok.
  - intros v [? ?]. split; [done|]. unfold enc_stack. by rewrite app_nil_r.
  - done.
  - by intros [] [] _ _.
  - done.
Qed.

Lemma xdr_rpc_libc_fpxreg_ok :
  filter_ok xdr_rpc_libc_fpxreg enc_fpxreg fpxreg_valid fpxreg_shape (λ v _, v).
Proof.
  eapply filter_ok_ext.
  - unfold xdr_rpc_libc_fpxreg.
    xdr_field fpxreg_shape ltac:(apply (xdr_array_ok _ _ _ 4 xdr_u_short_ok));
      [by intros o [? ?]|by intros v o [? _] [_ ?]|].
    xdr_field fpxreg_shape ltac:(apply xdr_u_short_ok).
    xdr_field fpxreg_shape ltac:(apply (xdr_array_ok _ _ _ 3 xdr_u_short_ok));
      [by intros o [? ?]|by intros v o [? _] [? _]|].
    apply fdone_ok.
  - intros v (? & ? & ?). split; [done|]. unfold enc_fpxreg. by rewrite app_nil_r.
  - done.
  - by intros [] [] _ _.
  - by intros v o ([? _] & _ & [? _]) _.
Qed.

(** The slow path of [xdr_rpc_libc_xmmreg]. *)
Lemma xmmreg_slow_ok :
  filter_ok xmmreg_vector enc_xmmreg xmmreg_valid xmmreg_shape (λ v _, v).
Proof.
  eapply filter_ok_ext.
  - unfold xmmreg_vector. xdr_field xmmreg_shape ltac:(apply (xdr_array_ok _ _ _ 4 xdr_u_int_ok));
      [by intros v o [? _] _|]. apply fdone_ok.
  - intros v Hv. split; [done|]. unfold enc_xmmreg. by rewrite app_nil_r.
  - done.
  - by intros [] [] _ _.
  - by intros v o [? _] _.
Qed.

(** Two word lists with the same wire image and length are equal. *)
Lemma vec_enc_u_int_inj l1 l2 r1 r2 :
  length l1 = length l2 → Forall (uint_ok 32) l1 → Forall (uint_ok 32) l2 →
  vec_enc enc_u_int l1 ++ r1 = vec_enc enc_u_int l2 ++ r2 → l1 = l2 ∧ r1 = r2.
Proof.
  revert l2. induction l1 as [|a l1 IH]; intros [|b l2]; try done.
  intros [= Hlen] Ha Hb Heq. apply Forall_cons in Ha as [Ha Hl1]. apply Forall_cons in Hb as [Hb Hl2].
  rewrite !vec_enc_cons, <-!app_assoc in Heq.
  apply app_inj_1 in Heq as [Hab Heq]; [|unfold enc_u_int; by rewrite !length_be_bytes].
  destruct (IH l2) as [-> ->]; [done..|]. split; [|done]. f_equal.
  rewrite <-(be_value_small 4 a), <-(be_value_small 4 b) by done. by f_equal.
Qed.

Lemma xdr_rpc_libc_xmmreg_ok :
  filter_ok xdr_rpc_libc_xmmreg enc_xmmreg xmmreg_valid xmmreg_shape (λ v _, v).
Proof.
  pose proof xmmreg_slow_ok as Hslow.
  assert (∀ v, xmmreg_valid v → take 4 (xr_element v) = xr_element v) as Htake
    by (intros v [Hl _]; by rewrite take_ge by lia).
  split; unfold xdr_rpc_libc_xmmreg.
  - intros x v Hop Hv Hr. rewrite Hop, Htake by done.
    destruct (xdr_inline_put x (xr_element v)) as [x'|] eqn:Hput; [|by apply Hslow].
    destruct (xdr_inline_put_ok x _ x' Hop Hput) as (_ & ? & ? & ?). by exists x'.
  - intros x v Hop Hv Hr. rewrite Hop, Htake by done.
    destruct (xdr_inline_put x (xr_element v)) as [x'|] eqn:Hput; [|by apply Hslow].
    destruct (xdr_inline_put_ok x _ x' Hop Hput) as (Hroom & _).
    unfold enc_xmmreg, vec_enc in Hr. lia.
  - intros x v o rest Hop Hv Hs Hin. rewrite Hop.
    destruct (xdr_inline_get x 4) as [[x' l]|] eqn:Hget; [|by apply Hslow].
    destruct (xdr_inline_get_ok x 4 x' l Hop Hget) as (Hl & Hok & Hop' & Hin').
    destruct v as [e]. destruct Hv as [Hle Hve]. simpl in *. exists x'.
    rewrite Hin in Hin'. apply (vec_enc_u_int_inj e l) in Hin' as [-> ->]; [done|congruence|done..].
  - intros x v o rest Hop Hv Hs Hin Hne. rewrite Hop.
    destruct (xdr_inline_get x 4) as [[x' l]|] eqn:Hget; [|by eapply Hslow].
    destruct (xdr_inline_get_ok x 4 x' l Hop Hget) as (Hl & Hok & Hop' & Hin').
    exfalso. apply (f_equal length) in Hin, Hin'. rewrite length_app in Hin, Hin'.
    unfold enc_xmmreg in Hin.
    rewrite (length_vec_enc _ (uint_ok 32) 4 4) in Hin by (done || intros; apply length_be_bytes).
    change (concat (enc_u_int <$> l)) with (vec_enc enc_u_int l) in Hin'.
    rewrite (length_vec_enc _ (uint_ok 32) 4 4) in Hin' by (done || intros; apply length_be_bytes).
    destruct rest; [done|]. simpl in Hin. lia.
  - by intros v o [? _] _.
Qed.

Lemma xdr_rpc_libc_fpstate_ok :
  filter_ok xdr_rpc_libc_fpstate enc_fpstate fpstate_valid fpstate_shape (λ v _, v).
Proof.
  pose proof (xdr_vector_ok _ _ _ _ xdr_rpc_libc_fpxreg_ok 8) as Hst.
  pose proof (xdr_vector_ok _ _ _ _ xdr_rpc_libc_xmmreg_ok 16) as Hxmm.
  eapply filter_ok_ext.
  - unfold xdr_rpc_libc_fpstate.
    do 4 xdr_field fpstate_shape ltac:(apply xdr_u_short_ok).
    do 2 xdr_field fpstate_shape ltac:(apply xdr_u_hyper_ok).
    do 2 xdr_field fpstate_shape ltac:(apply xdr_u_int_ok).
    xdr_field fpstate_shape ltac:(exact Hst);
      [by intros o (? & _)|intros v o Hv (Ho & ? & ?); split; [exact (fk_shape _ _ _ _ _ Hst _ _ Hv Ho)|done]|].
    xdr_field fpstate_shape ltac:(exact Hxmm);
      [by intros o (_ & ? & _)|intros v o Hv (? & Ho & ?); split_and!; [done|exact (fk_shape _ _ _ _ _ Hxmm _ _ Hv Ho)|done]|].
    xdr_field fpstate_shape ltac:(apply (xdr_array_ok _ _ _ 24 xdr_u_int_ok));
      [by intros o (_ & _ & ?)|by intros v o [? _] (? & ? & _)|].
    apply fdone_ok.
  - intros v (? & ? & ? & ? & ? & ? & ? & ? & ? & ? & ?). split; [by split_and!|].
    unfold enc_fpstate. by rewrite app_nil_r.
  - done.
  - by intros [] [] _ _.
  - intros v o (_ & _ & _ & _ & _ & _ & _ & _ & Hs & Hx & [Hp _]) (Ho1 & Ho2 & _).
    split_and!; [exact (fk_shape _ _ _ _ _ Hst _ _ Hs Ho1)|exact (fk_shape _ _ _ _ _ Hxmm _ _ Hx Ho2)|done].
Qed.

Lemma xdr_rpc_mcontext_ok :
  filter_ok xdr_rpc_mcontext enc_mcontext mcontext_valid mcontext_shape (λ v _, v).
Proof.
  pose proof xdr_rpc_libc_fpstate_ok as Hfp.
  eapply filter_ok_ext.
  - unfold xdr_rpc_mcontext.
    xdr_field mcontext_shape ltac:(apply xdr_rpc_gregset_t_ok);
      [by intros o (? & _)|by intros v o [? _] (_ & ? & ?)|].
    xdr_field mcontext_shape ltac:(exact Hfp);
      [by intros o (_ & ? & _)
      |intros v o Hv (? & Ho & ?); split_and!; [done|exact (fk_shape _ _ _ _ _ Hfp _ _ Hv Ho)|done]|].
    xdr_field mcontext_shape ltac:(apply (xdr_array_ok _ _ _ 8 xdr_u_hyper_ok));
      [by intros o (_ & _ & ?)|by intros v o [? _] (? & ? & _)|].
    apply fdone_ok.
  - intros v (? & ? & ?). split; [done|]. unfold enc_mcontext. by rewrite app_nil_r.
  - done.
  - by intros [] [] _ _.
  - intros v o ([? _] & Hv & [? _]) (_ & Ho & _).
    split_and!; [done|exact (fk_shape _ _ _ _ _ Hfp _ _ Hv Ho)|done].
Qed.

Lemma xdr_rpc_ucontext_ok :
  filter_ok xdr_rpc_ucontext enc_ucontext ucontext_valid ucontext_shape (λ v _, v).
Proof.
  pose proof xdr_rpc_mcontext_ok as Hmc. pose proof xdr_rpc_libc_fpstate_ok as Hfp.
  eapply filter_ok_ext.
  - unfold xdr_rpc_ucontext.
    xdr_field ucontext_shape ltac:(apply xdr_u_hyper_ok).
    xdr_field ucontext_shape ltac:(apply xdr_rpc_stack_t_ok).
    xdr_field ucontext_shape ltac:(exact Hmc);
      [by intros o (? & _)
      |intros v o Hv (Ho & ? & ?); split_and!; [exact (fk_shape _ _ _ _ _ Hmc _ _ Hv Ho)|done..]|].
    xdr_field ucontext_shape ltac:(apply xdr_rpc__sigset_t_ok);
      [by intros o (_ & ? & _)|by intros v o [? _] (? & _ & ?)|].
    xdr_field ucontext_shape ltac:(exact Hfp);
      [by intros o (_ & _ & ?)
      |intros v o Hv (? & ? & Ho); split_and!; [done..|exact (fk_shape _ _ _ _ _ Hfp _ _ Hv Ho)]|].
    apply fdone_ok.
  - intros v (? & ? & ? & ? & ?). split; [done|]. unfold enc_ucontext. by rewrite app_nil_r.
  - done.
  - by intros [] [] _ _.
  - intros v o (_ & _ & Hm & [? _] & Hf) (Hom & _ & Hof).
    split_and!; [exact (fk_shape _ _ _ _ _ Hmc _ _ Hm Hom)|done|exact (fk_shape _ _ _ _ _ Hfp _ _ Hf Hof)].
Qed.

(** ** Sizes *)

Lemma length_vec_u_short n l : vec_valid (uint_ok 16) n l → length (vec_enc enc_u_short l) = (n * 4)%nat.
Proof. apply length_vec_enc. intros. apply length_be_bytes. Qed.

Lemma length_vec_u_int n l : vec_valid (uint_ok 32) n l → length (vec_enc enc_u_int l) = (n * 4)%nat.
Proof. apply length_vec_enc. intros. apply length_be_bytes. Qed.

Lemma length_vec_u_hyper n l : vec_valid (uint_ok 64) n l → length (vec_enc enc_u_hyper l) = (n * 8)%nat.
Proof. apply length_vec_enc. intros. apply length_be_bytes. Qed.

Lemma length_enc_fpxreg r : fpxreg_valid r → length (enc_fpxreg r) = 32%nat.
Proof.
  intros (H1 & _ & H3). unfold enc_fpxreg.
  rewrite !length_app, (length_vec_u_short 4), (length_vec_u_short 3) by done.
  unfold enc_u_short. by rewrite length_be_bytes.
Qed.

Lemma length_enc_fpstate f : fpstate_valid f → length (enc_fpstate f) = 648%nat.
Proof.
  intros (_ & _ & _ & _ & _ & _ & _ & _ & Hs & Hx & Hp). unfold enc_fpstate.
  rewrite !length_app, (length_vec_u_int 24), (length_vec_enc _ fpxreg_valid 8 32 (fp_st f)),
    (length_vec_enc _ xmmreg_valid 16 16 (fp_xmm f));
    first [done|apply length_enc_fpxreg|intros r Hr; exact (length_vec_u_int 4 _ Hr)].
Qed.

Lemma length_enc_ucontext u : ucontext_valid u →
  length (enc_ucontext u) =
    (1688 + length (st_sp (uc_stack u)) + pad4 (length (st_sp (uc_stack u))))%nat.
Proof.
  intros (_ & _ & (Hg & Hf & Hr) & Hs & Hm).
  unfold enc_ucontext, enc_stack, enc_mcontext.
  rewrite !length_app, !length_enc_fpstate, (length_vec_u_hyper 23), (length_vec_u_hyper 8),
    (length_vec_u_hyper 16), length_enc_opaque by done.
  unfold enc_u_hyper, enc_int. rewrite !length_be_bytes. lia.
Qed.

(** ** Results *)

(** C37: xdr_rpc_ucontext writes every captured context, its stack of any length below
    2^32 included, as one image of 1688 bytes plus the padded stack; decoding gives the
    context back and consumes exactly the image, and a proper prefix is refused. *)
Theorem xdr_rpc_ucontext_roundtrip :
  roundtrips xdr_rpc_ucontext ucontext_valid ucontext_shape
    (λ u, 1688 + length (st_sp (uc_stack u)) + pad4 (length (st_sp (uc_stack u))))%nat.
Proof. eapply filter_ok_roundtrips; [apply xdr_rpc_ucontext_ok|apply length_enc_ucontext]. Qed.

(** C38: The inline path of xdr_rpc_libc_xmmreg is equivalent to the xdr_vector path:
    same result, same object, same bytes written or left to read. *)
Theorem xmmreg_inline_equivalent x o ok1 x1 o1 ok2 x2 o2 :
  xmmreg_shape o → (x_op x = XDR_ENCODE → xmmreg_valid o) →
  xdr_rpc_libc_xmmreg x o = (ok1, x1, o1) → xmmreg_vector x o = (ok2, x2, o2) →
  ok1 = ok2 ∧ o1 = o2 ∧
  match x_op x with
  | XDR_ENCODE => x_out x1 = x_out x2
  | XDR_DECODE => x_in x1 = x_in x2
  | XDR_FREE => x1 = x2
  end.
Proof.
  intros Hs Hv H1 H2. unfold xdr_rpc_libc_xmmreg in H1. rewrite H2 in H1.
  destruct (x_op x) eqn:Hop; [| |by simplify_eq].
  - rewrite take_ge in H1 by (rewrite Hs; lia).
    destruct (xdr_inline_put x (xr_element o)) as [x'|] eqn:Hput; [|by simplify_eq].
    destruct (xdr_inline_put_ok x _ x' Hop Hput) as (Hroom & _ & Hout & _).
    destruct (fk_encode _ _ _ _ _ xmmreg_slow_ok x o Hop (Hv eq_refl) Hroom)
      as (x3 & E3 & _ & Ho3 & _).
    rewrite E3 in H2. simplify_eq. split_and!; [done..|]. by rewrite Hout, Ho3.
  - destruct (xdr_inline_get x 4) as [[x' l]|] eqn:Hget; [|by simplify_eq].
    destruct (xdr_inline_get_ok x 4 x' l Hop Hget) as (Hl & Hok & _ & Hin).
    destruct (fk_decode _ _ _ _ _ xmmreg_slow_ok x (mkXmmreg l) o (x_in x') Hop)
      as (x3 & E3 & _ & Hi3); [by split|exact Hs|exact Hin|].
    rewrite E3 in H2. simplify_eq. by split_and!.
Qed.

End routines.

(** ** Witnesses *)

Lemma xdr_rpc_ucontext_roundtrip_witness :
  roundtrips (xdr_rpc_ucontext (X := XdrMem)) ucontext_valid ucontext_shape
    (λ u, 1688 + length (st_sp (uc_stack u)) + pad4 (length (st_sp (uc_stack u))))%nat.
Proof. exact (xdr_rpc_ucontext_roundtrip (X := XdrMem)). Defined.

Lemma xmmreg_inline_equivalent_witness :
  ∃ x1 x2, xdr_rpc_libc_xmmreg (mkXdrMem XDR_ENCODE 16 [] []) (mkXmmreg [1; 2; 3; 4]) =
      (true, x1, mkXmmreg [1; 2; 3; 4]) ∧
    xmmreg_vector (mkXdrMem XDR_ENCODE 16 [] []) (mkXmmreg [1; 2; 3; 4]) =
      (true, x2, mkXmmreg [1; 2; 3; 4]) ∧ x_out x1 = x_out x2.
Proof.
  set (x := mkXdrMem XDR_ENCODE 16 [] []). set (o := mkXmmreg [1; 2; 3; 4]).
  exists (xdr_rpc_libc_xmmreg x o).1.2, (xmmreg_vector x o).1.2.
  split; [reflexivity|]. split; [reflexivity|].
  refine (proj2 (proj2 (xmmreg_inline_equivalent x o true _ o true _ o _ _ _ _))).
  - reflexivity.
  - intros _. split; [reflexivity|]. by repeat (apply Forall_cons; split; [done|]).
  - reflexivity.
  - reflexivity.
Defined.
