(* ===== verification/Thread.v ===== *)
(** * Thread migration

    [psu_thread.c] captures the calling thread's context and sends it to
    another node; [psu_thread_server.c] rebuilds a context from the message
    and installs it in a child process.  The fixed-size parts of a
    [ucontext_t] have the layout of their [rpc_] counterparts, so a [memcpy]
    between them copies field by field. *)

From S2P Require Import Prelude CString Xdr Utility ThreadMsg.

(** ** Native contexts *)

(** [stack_t]: [ss_sp] is an address. *)
Record stack_t := mkNStack { ss_flags : Z; ss_sp : Z; ss_size : Z }.

(** [ucontext_t]; [n_fpregs] is what [uc_mcontext.fpregs] points to. *)
Record ucontext_t := mkNContext {
  n_flags : Z;
  n_stack : stack_t;
  n_gregs : list Z;
  n_fpregs : rpc_libc_fpstate;
  n_reserved1 : list Z;
  n_sigmask : list Z;
  n_fpregs_mem : rpc_libc_fpstate
}.

Definition REG_RSP : nat := 15.

(** ** Creation *)

(** [psu_thread_create] on the state that the process's threads share:
    [pthread_create] says whether a thread with the given stack size can be
    started, [start_routine] is what the thread does.  The caller joins the
    thread before it goes on and returns no value ([None]); without a thread
    it joins an uninitialized id. *)
Definition STACK_SIZE : Z := 1024 * 1024.
Definition psu_thread_create {A S} (pthread_create : Z → bool) (start_routine : A → S → outcome S)
    (args : A) (s : S) : outcome (option Z * S) :=
  (if pthread_create STACK_SIZE then
     let! s := start_routine args s in Ret (None, s)
   else Undef)%outcome.

(** ** Sending *)

Section migrate.
(** The contents of memory: [mem a n] is the [n] bytes at address [a]. *)
Context (mem : Z → nat → bytes).

(** Lines 40-66: [stack] and [stack_size] are the thread's stack as the
    pthread attributes give it. *)
Definition capture (context : ucontext_t) (stack stack_size : Z) : rpc_ucontext :=
  mkUcontext (n_flags context)
    (mkStack (ss_flags (n_stack context))
       (take (Z.to_nat (wrap 32 stack_size)) (mem stack (Z.to_nat stack_size))))
    (mkMcontext (n_gregs context) (n_fpregs context) (n_reserved1 context))
    (n_sigmask context) (n_fpregs_mem context).

Definition migrate_1 (argp : rpc_ucontext) (clnt : CLIENT) : call :=
  clnt_call clnt MIGRATE (enc_ucontext argp) TIMEOUT.

(** How [psu_thread_migrate] ends: it returns, or the thread exits. *)
Inductive migrate_end := Returned (z : Z) | ThreadExit (calls : list call).

(** [has_migrated] is the value read after [getcontext] returns: false the
    first time; a context resumed elsewhere sees what its stack holds. *)
Definition psu_thread_migrate (clnt_create : bytes → Z → Z → bytes → option CLIENT)
    (node : bytes) (has_migrated : bool) (context : ucontext_t) (stack stack_size : Z)
    : outcome migrate_end :=
  (if has_migrated then Ret (Returned 1)
   else
     let cont := capture context stack stack_size in
     let! client := create_client clnt_create node PSU_THREAD PSU_THREAD_V1 (cstr "tcp") in
     Ret (ThreadExit [migrate_1 cont client]))%outcome.

End migrate.

(** ** Receiving *)

(** Lines 23-40 of [migrate_1_svc]: [sp] is the address of the decoded stack
    contents, [ss_sp_val]. *)
Definition restore (sp : Z) (context : rpc_ucontext) : ucontext_t :=
  mkNContext (uc_flags context)
    (mkNStack (st_flags (uc_stack context)) sp (Z.of_nat (length (st_sp (uc_stack context)))))
    (<[REG_RSP := sp]> (mc_gregs (uc_mcontext context)))
    (mc_fpregs (uc_mcontext context)) (mc_reserved1 (uc_mcontext context))
    (uc_sigmask context) (uc_fpregs_mem context).

(** Result of [fork]. *)
Inductive fork_result := InParent | InChild | ForkFailed.

(** What the calling process does next: return from the procedure, or run a
    context. *)
Inductive after_migrate := Reply (b : bool) | SetContext (c : ucontext_t).

Definition migrate_1_svc (fork : fork_result) (sp : Z) (context : rpc_ucontext) : after_migrate :=
  let cont := restore sp context in
  match fork with
  | InChild => SetContext cont
  | InParent | ForkFailed => Reply true
  end.

(** ** Lemmas *)

(** The context that arrives after capture, transfer and restore. *)
Lemma restore_capture mem c stack size sp :
  restore sp (capture mem c stack size) =
  mkNContext (n_flags c)
    (mkNStack (ss_flags (n_stack c)) sp
       (Z.of_nat (length (take (Z.to_nat (wrap 32 size)) (mem stack (Z.to_nat size))))))
    (<[REG_RSP := sp]> (n_gregs c)) (n_fpregs c) (n_reserved1 c) (n_sigmask c) (n_fpregs_mem c).
Proof. done. Qed.

(** ** Results *)

(** psu_thread_create returns only after the thread has ended, with its
    effects, and never with the 0 that its interface promises. *)
Theorem psu_thread_create_waits {A S} pthread_create (start_routine : A → S → outcome S) args s r s' :
  psu_thread_create pthread_create start_routine args s = Ret (r, s') →
  start_routine args s = Ret s' ∧ r ≠ Some 0.
Proof.
  unfold psu_thread_create. destruct (pthread_create STACK_SIZE); [|done].
  destruct (start_routine args s); cbn [obind]; try done. by intros [= <- <-].
Qed.

Section transfer.
Context {X : Type} `{XdrLaws X} (mem : Z → nat → bytes).
Hypothesis Hmem : ∀ a n, length (mem a n) = n.

(** A context that is captured by psu_thread_migrate, sent, decoded and rebuilt by
    migrate_1_svc has the same stack contents, flags, signal mask, floating point state
    and general registers other than RSP, for stacks below 4 GB. *)
Theorem migrate_preserves_context c stack size sp x o rest :
  0 ≤ size < 2 ^ 32 → ucontext_valid (capture mem c stack size) → ucontext_shape o →
  x_op x = XDR_DECODE → x_in x = enc_ucontext (capture mem c stack size) ++ rest →
  ∃ x' u, xdr_rpc_ucontext x o = (true, x', u) ∧
    st_sp (uc_stack u) = mem stack (Z.to_nat size) ∧
    ∃ c', migrate_1_svc InChild sp u = SetContext c' ∧
      n_flags c' = n_flags c ∧ n_stack c' = mkNStack (ss_flags (n_stack c)) sp size ∧
      (∀ r, r ≠ REG_RSP → n_gregs c' !! r = n_gregs c !! r) ∧
      n_fpregs c' = n_fpregs c ∧ n_reserved1 c' = n_reserved1 c ∧
      n_sigmask c' = n_sigmask c ∧ n_fpregs_mem c' = n_fpregs_mem c.
Proof.
  intros Hsz Hv Ho Hop Hin.
  destruct (fk_decode _ _ _ _ _ xdr_rpc_ucontext_ok x _ o rest Hop Hv Ho Hin) as (x' & Hx & _).
  exists x', (capture mem c stack size). split; [exact Hx|].
  assert (take (Z.to_nat (wrap 32 size)) (mem stack (Z.to_nat size)) = mem stack (Z.to_nat size)) as Ht.
  { unfold wrap. rewrite Z.mod_small by lia. apply take_ge. rewrite Hmem. lia. }
  split; [exact Ht|]. exists (restore sp (capture mem c stack size)). split; [done|].
  rewrite restore_capture, Ht, Hmem, Z2Nat.id by lia. cbn.
  split_and!; try done. intros r Hr. by rewrite list_lookup_insert_ne.
Qed.

(** The rebuilt context's RSP is the lowest address of the copied stack, which is
    the position of the original RSP in the stack only if the original stack was
    completely full. *)
Theorem migrate_stack_pointer c stack size sp rsp :
  length (n_gregs c) = 23%nat → n_gregs c !! REG_RSP = Some rsp →
  ∃ c', migrate_1_svc InChild sp (capture mem c stack size) = SetContext c' ∧
    n_gregs c' !! REG_RSP = Some sp ∧
    (n_gregs c' !! REG_RSP = Some (sp + (rsp - stack)) ↔ rsp = stack).
Proof.
  intros Hl Hr. exists (restore sp (capture mem c stack size)). split; [done|].
  assert (n_gregs (restore sp (capture mem c stack size)) !! REG_RSP = Some sp) as Hsp.
  { cbn. apply list_lookup_insert_eq. rewrite Hl. unfold REG_RSP. lia. }
  rewrite Hsp. split; [done|]. split; [intros [= ?]; lia|intros ->; f_equal; lia].
Qed.

End transfer.

(** ** Witnesses *)

Definition example_fpstate : rpc_libc_fpstate :=
  mkFpstate 895 0 0 0 0 0 8064 65535 (replicate 8 (mkFpxreg (replicate 4 0) 0 (replicate 3 0)))
    (replicate 16 (mkXmmreg (replicate 4 0))) (replicate 24 0).
(** A thread whose stack of 64 bytes is at address 1000, with RSP 1040. *)
Definition example_context : ucontext_t :=
  mkNContext 7 (mkNStack 0 0 0) (<[REG_RSP := 1040]> (replicate 23 9)) example_fpstate (replicate 8 0)
    (replicate 16 0) example_fpstate.
Definition example_mem (a : Z) (n : nat) : bytes := replicate n x2a.

Lemma example_mem_length a n : length (example_mem a n) = n.
Proof. apply length_replicate. Qed.

Lemma example_capture_valid : ucontext_valid (capture example_mem example_context 1000 64).
Proof.
  assert (fpstate_valid example_fpstate) as Hf
    by (repeat first [done|apply Forall_replicate|split]).
  split_and!; [done|done| |repeat first [done|apply Forall_replicate|split]|exact Hf].
  split_and!; [|exact Hf|repeat first [done|apply Forall_replicate|split]].
  split; [done|]. apply Forall_insert; [by apply Forall_replicate|done].
Qed.

Lemma migrate_preserves_context_witness :
  ∃ x' u, xdr_rpc_ucontext
      (mkXdrMem XDR_DECODE 0 [] (enc_ucontext (capture example_mem example_context 1000 64) ++ []))
      (capture example_mem example_context 0 0) = (true, x', u) ∧
    st_sp (uc_stack u) = replicate 64 x2a.
Proof.
  destruct (migrate_preserves_context (X := XdrMem) example_mem example_mem_length example_context
    1000 64 5000
    (mkXdrMem XDR_DECODE 0 [] (enc_ucontext (capture example_mem example_context 1000 64) ++ []))
    (capture example_mem example_context 0 0) []) as (x' & u & Hx & Hu & _).
  - lia.
  - exact example_capture_valid.
  - repeat first [done|apply Forall_replicate|split].
  - reflexivity.
  - reflexivity.
  - exists x', u. split; [exact Hx|exact Hu].
Defined.

Lemma migrate_stack_pointer_witness :
  ∃ c', migrate_1_svc InChild 5000 (capture example_mem example_context 1000 64) = SetContext c' ∧
    n_gregs c' !! REG_RSP = Some 5000 ∧ n_gregs c' !! REG_RSP ≠ Some (5000 + (1040 - 1000)).
Proof.
  destruct (migrate_stack_pointer example_mem example_context 1000 64 5000 1040)
    as (c' & Hc & Hsp & Hiff).
  - reflexivity.
  - reflexivity.
  - exists c'. split; [exact Hc|]. split; [exact Hsp|]. rewrite Hiff. lia.
Defined.
