(* ===== verification/Dispatch.v ===== *)
(** * RPC dispatch

    The server side of an RPC: the [dispatcher] and [run] of [utility.c],
    which start one thread per call, and the [parse_thread_data] and [main]
    functions of the lock manager ([psu_dist_lock_mgr_msg_svc.c]) and of the
    thread manager ([psu_thread_msg_svc.c]).  The transport is an XDR stream
    positioned at the encoded argument; what is sent back is a list of
    replies. *)

From S2P Require Import Prelude CString Xdr Utility LockMsg LockServer LockSystem LockSafety LockClient ThreadMsg.

Definition NULLPROC : Z := 0.

Inductive reply :=
| RepVoid       (* svc_sendreply of NULLPROC *)
| RepResult     (* svc_sendreply of a procedure's result *)
| RepNoproc     (* svcerr_noproc *)
| RepDecode     (* svcerr_decode *)
| RepSystem.    (* svcerr_systemerr *)

(** [struct thread_data]: the procedure and its decoded argument.  [None]
    stands for a block that [parse_thread_data] has left uninitialized. *)
Record thread_data (local argument : Type) := mkThreadData {
  td_local : local;
  td_argument : argument
}.
Arguments mkThreadData {local argument}.
Arguments td_local {local argument}.
Arguments td_argument {local argument}.

(** What the library reports while a thread runs. *)
Record svc_env := mkEnv { env_sendreply : bool; env_freeargs : bool }.

(** The [run] of [utility.c], [retval] being the result of the procedure:
    the replies it sends, and how it ends. *)
Definition run (e : svc_env) (retval : bool) : list reply * outcome unit :=
  let sent :=
    if retval then (if env_sendreply e then [RepResult] else [RepSystem]) else [] in
  if env_freeargs e then (sent, Ret tt) else (sent, Exit 1).

(** [dispatcher]: the replies it sends itself and the thread it starts. *)
Definition dispatcher {X L A} (rq_proc : Z) (x : X)
    (parse_thread_data : Z → X → list reply * outcome (option (thread_data L A)))
    : list reply * outcome (option (thread_data L A)) :=
  if decide (rq_proc = NULLPROC) then ([RepVoid], Ret None)
  else
    match parse_thread_data rq_proc x with
    | (reps, Ret (Some td)) => (reps, Ret (Some td))
    | (reps, Ret None) => (reps, Undef)  (* the thread runs on an uninitialized block *)
    | (reps, o) => (reps, o)
    end.

(** ** The lock manager *)

Inductive lock_local := init_lock_mgr_local | acquire_lock_local | release_lock_local | request_local.

Inductive lock_argument :=
| ArgString (s : bytes)
| ArgInt (z : Z)
| ArgPack (p : RequestPack).

Section streams.
Context {X : Type} `{XdrStream X}.

(** [memset] and [svc_getargs] of one case, then [PACK_THREAD_DATA]: a decoding error is answered and
    otherwise ignored. *)
Definition lock_getargs {A} (f : filter X A) (zero : A) (inj : A → lock_argument)
    (local : lock_local) (x : X)
    : list reply * outcome (option (thread_data lock_local lock_argument)) :=
  let '(ok, _, v) := f x zero in
  (if ok then [] else [RepDecode], Ret (Some (mkThreadData local (inj v)))).

(** [parse_thread_data] of the lock manager.  The default case goes on with
    [_xdr_argument == NULL], which [svc_getargs] calls. *)
Definition lock_parse_thread_data (rq_proc : Z) (x : X)
    : list reply * outcome (option (thread_data lock_local lock_argument)) :=
  if decide (rq_proc = INIT_LOCK_MGR) then
    lock_getargs xdr_wrapstring [] ArgString init_lock_mgr_local x
  else if decide (rq_proc = ACQUIRE_LOCK) then
    lock_getargs xdr_int 0 ArgInt acquire_lock_local x
  else if decide (rq_proc = RELEASE_LOCK) then
    lock_getargs xdr_int 0 ArgInt release_lock_local x
  else if decide (rq_proc = REQUEST) then
    lock_getargs xdr_RequestPack (mkRequestPack 0 0 0) ArgPack request_local x
  else ([RepNoproc], Crash).

Definition lock_run (rq_proc : Z) (x : X) := dispatcher rq_proc x lock_parse_thread_data.

(** ** The thread manager *)

Inductive thread_local := migrate_local.

Definition zero_fpstate : rpc_libc_fpstate :=
  mkFpstate 0 0 0 0 0 0 0 0 (replicate 8 (mkFpxreg (replicate 4 0) 0 (replicate 3 0)))
    (replicate 16 (mkXmmreg (replicate 4 0))) (replicate 24 0).
Definition zero_ucontext : rpc_ucontext :=
  mkUcontext 0 (mkStack 0 []) (mkMcontext (replicate 23 0) zero_fpstate (replicate 8 0))
    (replicate 16 0) zero_fpstate.

(** [parse_thread_data] of the thread manager: an unknown procedure returns
    before [PACK_THREAD_DATA], a decoding error exits. *)
Definition thread_parse_thread_data (rq_proc : Z) (x : X)
    : list reply * outcome (option (thread_data thread_local rpc_ucontext)) :=
  if decide (rq_proc = NULLPROC) then ([RepVoid], Ret None)
  else if decide (rq_proc = MIGRATE) then
    let '(ok, _, v) := xdr_rpc_ucontext x zero_ucontext in
    if ok then ([], Ret (Some (mkThreadData migrate_local v)))
    else ([RepDecode], Exit 1)
  else ([RepNoproc], Ret None).

Definition thread_run (rq_proc : Z) (x : X) := dispatcher rq_proc x thread_parse_thread_data.

End streams.

(** ** Start of the servers *)

(** [main] of the lock server up to [svc_run]: the state it serves. *)
Definition lock_main (e : boot_env) (getifaddrs : option (list ifaddrs)) : outcome Server :=
  (let! _ := register_service e in
   let! mac := get_mac_address getifaddrs in
   initialize_global_variable mac)%outcome.

(** [main_svc] of the thread server up to [svc_run]; it keeps no state. *)
Definition main_svc (e : boot_env) : outcome unit := register_service e.

(** ** Lemmas *)

Section laws.
Context {X : Type} `{XdrLaws X}.

Lemma lock_getargs_ok {A} (f : filter X A) enc valid zero inj local x v rest :
  filter_ok f enc valid (λ _, True) (λ v _, v) → x_op x = XDR_DECODE → valid v →
  x_in x = enc v ++ rest →
  lock_getargs f zero inj local x = ([], Ret (Some (mkThreadData local (inj v)))).
Proof.
  intros Hf Hop Hv Hin. unfold lock_getargs.
  destruct (fk_decode _ _ _ _ _ Hf x v zero rest Hop Hv I Hin) as (x' & -> & _). done.
Qed.

(** What a call of the lock manager asks for. *)
Inductive lock_call : call → thread_data lock_local lock_argument → Prop :=
| call_init s c : NUL ∉ s → Z.of_nat (length s) < 2 ^ 32 →
    lock_call (init_lock_mgr_1 s c) (mkThreadData init_lock_mgr_local (ArgString s))
| call_acquire n c : int_ok n →
    lock_call (acquire_lock_1 n c) (mkThreadData acquire_lock_local (ArgInt n))
| call_release n c : int_ok n →
    lock_call (release_lock_1 n c) (mkThreadData release_lock_local (ArgInt n))
| call_request p c : request_pack_valid p →
    lock_call (request_1 p c) (mkThreadData request_local (ArgPack p)).

(** Every call that a lock manager stub sends is dispatched to the procedure it
    names with the argument it was given, and dispatching it sends no error reply. *)
Theorem lock_call_dispatched k td x rest :
  lock_call k td → x_op x = XDR_DECODE → x_in x = ca_args k ++ rest →
  lock_run (ca_proc k) x = ([], Ret (Some td)).
Proof.
  intros Hk Hop Hin. unfold lock_run, dispatcher, lock_parse_thread_data.
  destruct Hk as [s c Hs Hl|n c Hn|n c Hn|p c Hp]; cbn [ca_proc ca_args init_lock_mgr_1 acquire_lock_1
    release_lock_1 request_1 clnt_call] in *.
  - by rewrite (lock_getargs_ok xdr_wrapstring _ _ _ _ _ x s rest xdr_wrapstring_ok Hop).
  - by rewrite (lock_getargs_ok xdr_int _ _ _ _ _ x n rest xdr_int_ok Hop).
  - by rewrite (lock_getargs_ok xdr_int _ _ _ _ release_lock_local x n rest xdr_int_ok Hop).
  - by rewrite (lock_getargs_ok xdr_RequestPack _ _ _ _ _ x p rest xdr_RequestPack_ok Hop).
Qed.

(** An ACQUIRE_LOCK call whose argument ends early gets an error reply and is
    nevertheless executed, with whatever the failed decoder left as the lock number. *)
Theorem lock_garbled_call_served x w :
  x_op x = XDR_DECODE → enc_int 0 = x_in x ++ w → w ≠ [] →
  ∃ z, lock_run ACQUIRE_LOCK x =
    ([RepDecode], Ret (Some (mkThreadData acquire_lock_local (ArgInt z)))).
Proof.
  intros Hop Hin Hne. unfold lock_run, dispatcher, lock_parse_thread_data, lock_getargs. cbn.
  destruct (fk_decode_fail _ _ _ _ _ xdr_int_ok x 0 0 w Hop) as (x' & z & ->); [done..|].
  by exists z.
Qed.

(** A call with an unknown procedure number is answered with an error and then
    brings the lock server down (it calls a null XDR routine) and gives the thread
    server's worker an uninitialized block. *)
Theorem unknown_procedure proc x :
  ¬ (0 ≤ proc ≤ 4) →
  lock_run proc x = ([RepNoproc], Crash) ∧ thread_run proc x = ([RepNoproc], Undef).
Proof.
  intros Hp. unfold lock_run, thread_run, dispatcher, lock_parse_thread_data, thread_parse_thread_data.
  unfold NULLPROC, INIT_LOCK_MGR, ACQUIRE_LOCK, RELEASE_LOCK, REQUEST, MIGRATE.
  by rewrite !decide_False by lia.
Qed.

Lemma zero_ucontext_shape : ucontext_shape zero_ucontext.
Proof. repeat split; repeat constructor. Qed.

(** A MIGRATE call is dispatched to [migrate_1_svc] with the context that was sent. *)
Theorem migrate_dispatched u x rest :
  ucontext_valid u → x_op x = XDR_DECODE → x_in x = enc_ucontext u ++ rest →
  thread_run MIGRATE x = ([], Ret (Some (mkThreadData migrate_local u))).
Proof.
  intros Hu Hop Hin. unfold thread_run, dispatcher, thread_parse_thread_data. cbn.
  destruct (fk_decode _ _ _ _ _ xdr_rpc_ucontext_ok x u zero_ucontext rest Hop Hu
    zero_ucontext_shape Hin) as (x' & -> & _). done.
Qed.

End laws.

(** The lock server serves only if all four registrations succeed and a MAC address was found. *)
Theorem lock_main_starts e l :
  Forall (λ i, is_Some (ifa_addr i)) l → Forall (λ p, 6 ≤ length p)%nat (omap hw_addr l) →
  lock_main e (Some l) =
    if be_udp e && be_register_udp e && be_tcp e && be_register_tcp e
    then if decide (first_mac l = 0) then Crash
         else Ret (mkServer [] (first_mac l) false [] ∅ true)
    else Exit 1.
Proof.
  intros Hnn Hlen. unfold lock_main, register_service. cbn [get_mac_address].
  rewrite mac_loop_first by done.
  destruct e as [[] [] [] []]; cbn [obind be_udp be_register_udp be_tcp be_register_tcp andb]; done.
Qed.

(** ** Witnesses *)

Definition a_client : CLIENT := mkClient (cstr "10.0.0.2") PSU_DIST_LOCK_MGR 1 (cstr "tcp") (Some 3600) None.
Definition pack_example : RequestPack := mkRequestPack 1 2 22.

Lemma lock_call_dispatched_witness :
  lock_run REQUEST (mkXdrMem XDR_DECODE 0 [] (enc_RequestPack pack_example ++ [])) =
  ([], Ret (Some (mkThreadData request_local (ArgPack pack_example)))).
Proof.
  apply (lock_call_dispatched (X := XdrMem) (request_1 pack_example a_client)
    (mkThreadData request_local (ArgPack pack_example))
    (mkXdrMem XDR_DECODE 0 [] (enc_RequestPack pack_example ++ [])) []).
  - constructor. by repeat split.
  - reflexivity.
  - reflexivity.
Defined.

Lemma lock_garbled_call_served_witness :
  ∃ z, lock_run ACQUIRE_LOCK (mkXdrMem XDR_DECODE 0 [] [x00; x00]) =
    ([RepDecode], Ret (Some (mkThreadData acquire_lock_local (ArgInt z)))).
Proof.
  apply (lock_garbled_call_served (X := XdrMem) (mkXdrMem XDR_DECODE 0 [] [x00; x00]) [x00; x00]).
  - reflexivity.
  - reflexivity.
  - discriminate.
Defined.

Lemma unknown_procedure_witness :
  lock_run 5 (mkXdrMem XDR_DECODE 0 [] []) = ([RepNoproc], Crash).
Proof.
  refine (proj1 (unknown_procedure (X := XdrMem) 5 (mkXdrMem XDR_DECODE 0 [] []) _)). lia.
Defined.

Lemma zero_ucontext_valid : ucontext_valid zero_ucontext.
Proof. repeat first [done|apply Forall_replicate|split]. Qed.

Lemma migrate_dispatched_witness :
  thread_run MIGRATE (mkXdrMem XDR_DECODE 0 [] (enc_ucontext zero_ucontext ++ [])) =
  ([], Ret (Some (mkThreadData migrate_local zero_ucontext))).
Proof.
  exact (migrate_dispatched (X := XdrMem) zero_ucontext
    (mkXdrMem XDR_DECODE 0 [] (enc_ucontext zero_ucontext ++ [])) [] zero_ucontext_valid eq_refl eq_refl).
Defined.

Lemma lock_main_starts_witness :
  lock_main (mkBoot true true true true) (Some example_ifs) =
    Ret (mkServer [] (first_mac example_ifs) false [] ∅ true).
Proof.
  rewrite (lock_main_starts (mkBoot true true true true) example_ifs);
    [reflexivity|repeat constructor; simpl; first [by eexists|lia]..].
Defined.
