(* ===== verification/DispatchHeap.v ===== *)
(** * Memory of the dispatcher

    [dispatcher] allocates five blocks for a call (its [thread_data], the copy
    of the request, the argument and result that [parse_thread_data]
    allocates, and a [pthread_t]); [run] frees four of them when the worker
    ends.  Calls are dispatched one at a time by the main thread and end in
    any order. *)

From S2P Require Import Prelude CString Xdr Utility LockMsg LockServer LockSystem LockSafety LockClient ThreadMsg Dispatch.

(** ** The heap *)

(** The addresses of the blocks that are allocated. *)
Abbreviation heap := (gset nat).

Definition malloc (h : heap) : nat * heap := let a := fresh h in (a, {[a]} ∪ h).
(** Freeing what is not allocated is undefined. *)
Definition free (a : nat) (h : heap) : outcome heap :=
  if decide (a ∈ h) then Ret (h ∖ {[a]}) else Undef.

(** The blocks that a worker's [thread_data] leads to. *)
Record blocks := mkBlocks {
  bk_data : nat;
  bk_rqstp : nat;
  bk_argument : nat;
  bk_result : nat
}.

Definition owned (b : blocks) : list nat := [bk_argument b; bk_result b; bk_rqstp b; bk_data b].

Section dispatcher.
Context {X L A : Type}.
Context (parse_thread_data : Z → X → list reply * outcome (option (thread_data L A))).

(** [dispatcher] with its allocations, in their order; both versions of
    [parse_thread_data] begin with the two of their own. *)
Definition dispatcher_heap (rq_proc : Z) (x : X) (h : heap)
    : list reply * outcome (option (thread_data L A * blocks)) * heap :=
  if decide (rq_proc = NULLPROC) then ([RepVoid], Ret None, h)
  else
    let '(d, h) := malloc h in
    let '(r, h) := malloc h in
    let '(a, h) := malloc h in
    let '(res, h) := malloc h in
    let '(reps, o) := dispatcher rq_proc x parse_thread_data in
    match o with
    | Ret (Some td) => let '(t, h) := malloc h in (reps, Ret (Some (td, mkBlocks d r a res)), h)
    | Ret None => (reps, Ret None, h)
    | Exit c => (reps, Exit c, h)
    | Crash => (reps, Crash, h)
    | Undef => (reps, Undef, h)
    end.

(** [run] with its calls of [free]; [retval] is the result of the procedure. *)
Definition run_heap (e : svc_env) (retval : bool) (b : blocks) (h : heap)
    : list reply * outcome heap :=
  let '(sent, o) := run e retval in
  (sent, let! _ := o in
         let! h := free (bk_argument b) h in
         let! h := free (bk_result b) h in
         let! h := free (bk_rqstp b) h in
         free (bk_data b) h)%outcome.

(** The process: its heap and the workers that are running. *)
Record Process := mkProcess { pr_heap : heap; pr_workers : list blocks }.

(** [serving n p]: the process has reached [p] after dispatching [n] calls,
    workers having ended in any order. *)
Inductive serving : nat → Process → Prop :=
| sv_start : serving 0 (mkProcess ∅ [])
| sv_null n p x reps h :
    serving n p → dispatcher_heap NULLPROC x (pr_heap p) = (reps, Ret None, h) →
    serving n (mkProcess h (pr_workers p))
| sv_dispatch n p rq_proc x reps td b h :
    serving n p → dispatcher_heap rq_proc x (pr_heap p) = (reps, Ret (Some (td, b)), h) →
    serving (S n) (mkProcess h (pr_workers p ++ [b]))
| sv_end n p i b e retval reps h :
    serving n p → pr_workers p !! i = Some b →
    run_heap e retval b (pr_heap p) = (reps, Ret h) →
    serving n (mkProcess h (delete i (pr_workers p))).

(** ** Lemmas *)

Lemma malloc_spec h a h' : malloc h = (a, h') → a ∉ h ∧ h' = {[a]} ∪ h.
Proof. intros [= <- <-]. split; [apply is_fresh|done]. Qed.

(** The blocks of running workers and the leaked ones are distinct, and make
    up the heap. *)
Definition accounted (n : nat) (p : Process) : Prop :=
  ∃ leaked, length leaked = n ∧ NoDup (concat (owned <$> pr_workers p) ++ leaked) ∧
    ∀ a, a ∈ pr_heap p ↔ a ∈ concat (owned <$> pr_workers p) ++ leaked.

Lemma dispatcher_heap_worker rq_proc x h reps td b h' :
  dispatcher_heap rq_proc x h = (reps, Ret (Some (td, b)), h') →
  ∃ t, NoDup (t :: owned b) ∧ (∀ a, a ∈ t :: owned b → a ∉ h) ∧
    ∀ a, a ∈ h' ↔ a ∈ h ∨ a ∈ t :: owned b.
Proof.
  unfold dispatcher_heap. case_decide; [done|].
  destruct (malloc h) as [d h1] eqn:H1. destruct (malloc h1) as [r h2] eqn:H2.
  destruct (malloc h2) as [a h3] eqn:H3. destruct (malloc h3) as [res h4] eqn:H4.
  destruct (dispatcher _ _ _) as [reps0 [[td0|]| | |]]; try done.
  destruct (malloc h4) as [t h5] eqn:H5. intros [= -> -> <- <-]. exists t.
  apply malloc_spec in H1 as [H1 ->], H2 as [H2 ->], H3 as [H3 ->], H4 as [H4 ->], H5 as [H5 ->].
  unfold owned. cbn. split_and!; [|set_solver|set_solver].
  repeat (apply NoDup_cons; split; [set_solver|]). apply NoDup_nil_2.
Qed.

Lemma concat_delete {B} (f : B → list nat) l i b :
  l !! i = Some b → concat (f <$> l) ≡ₚ f b ++ concat (f <$> delete i l).
Proof. intros Hi. rewrite (delete_Permutation l i b Hi) at 1. done. Qed.

Lemma free_list_spec e retval b h reps h' :
  run_heap e retval b h = (reps, Ret h') → ∀ a, a ∈ h' ↔ a ∈ h ∧ a ∉ owned b.
Proof.
  unfold run_heap. destruct (run e retval) as [sent o]. intros [= -> Hh]. revert Hh.
  destruct o as [[]| | |]; try done. unfold free. cbn [obind].
  repeat (case_decide; [|done]; cbn [obind]). intros [= <-]. unfold owned. set_solver.
Qed.

Lemma serving_accounted n p : serving n p → accounted n p.
Proof.
  induction 1 as [|n p x reps h Hs IH Hd|n p rq_proc x reps td b h Hs IH Hd
    |n p i b e retval reps h Hs IH Hi Hr].
  - exists []. split_and!; [done|apply NoDup_nil_2|set_solver].
  - injection Hd as <- <-. done.
  - destruct IH as (leaked & Hl & Hnd & Hin).
    destruct (dispatcher_heap_worker _ _ _ _ _ _ _ Hd) as (t & Hnew & Hfresh & Hh).
    exists (t :: leaked). cbn [pr_workers pr_heap]. rewrite fmap_app, concat_app. cbn [fmap list_fmap concat].
    rewrite app_nil_r.
    assert ((concat (owned <$> pr_workers p) ++ owned b) ++ t :: leaked ≡ₚ
      (t :: owned b) ++ concat (owned <$> pr_workers p) ++ leaked) as Hperm by solve_Permutation.
    split_and!; [by rewrite <-Hl|..].
    + rewrite Hperm. apply NoDup_app. split_and!; [done| |done].
      intros a Ha Hold. apply (Hfresh a Ha), Hin, Hold.
    + intros a. rewrite Hperm, elem_of_app, Hh, Hin. tauto.
  - destruct IH as (leaked & Hl & Hnd & Hin). exists leaked. cbn [pr_workers pr_heap].
    rewrite (concat_delete owned _ i b Hi) in Hnd. rewrite <-app_assoc in Hnd.
    apply NoDup_app in Hnd as (_ & Hdisj & Hnd). split_and!; [done..|].
    intros a. rewrite (free_list_spec _ _ _ _ _ _ Hr), Hin, (concat_delete owned _ i b Hi), <-app_assoc,
      elem_of_app. split; [tauto|]. intros Ha. split; [by right|]. intros Hb. by eapply Hdisj.
Qed.

Lemma length_concat_owned l : length (concat (owned <$> l)) = (4 * length l)%nat.
Proof. induction l as [|b l IH]; [done|]. cbn. rewrite IH. lia. Qed.

Lemma size_heap (h : heap) l : NoDup l → (∀ a, a ∈ h ↔ a ∈ l) → size h = length l.
Proof.
  intros Hnd Hin. rewrite <-(size_list_to_set (C := heap) l Hnd). f_equal. set_solver.
Qed.

(** The frees of a worker whose blocks are allocated and distinct succeed. *)
Lemma run_heap_succeeds e retval b h :
  env_freeargs e = true → NoDup (owned b) → (∀ a, a ∈ owned b → a ∈ h) →
  ∃ h', run_heap e retval b h = ((run e retval).1, Ret h').
Proof.
  intros He Hnd Hin. unfold run_heap. destruct (run e retval) as [sent o] eqn:Hr.
  assert (o = Ret tt) as -> by (unfold run in Hr; rewrite He in Hr; by simplify_eq).
  unfold owned in *. rewrite !NoDup_cons in Hnd. unfold free. cbn [obind fst].
  rewrite decide_True by set_solver. cbn [obind].
  rewrite decide_True by set_solver. cbn [obind].
  rewrite decide_True by set_solver. cbn [obind].
  rewrite decide_True by set_solver. by eexists.
Qed.

(** ** Theorem *)

(** C28: However calls are dispatched and workers end, the process has one allocated
    block per call dispatched so far (its pthread_t, which nothing frees) and four per
    running worker; no worker's frees are invalid, so every worker can end. *)
Theorem dispatcher_memory n p :
  serving n p →
  size (pr_heap p) = (n + 4 * length (pr_workers p))%nat ∧
  ∀ i b e retval, pr_workers p !! i = Some b → env_freeargs e = true →
    ∃ h, run_heap e retval b (pr_heap p) = ((run e retval).1, Ret h).
Proof.
  intros Hs. destruct (serving_accounted n p Hs) as (leaked & Hl & Hnd & Hin). split.
  - rewrite (size_heap _ _ Hnd Hin), length_app, length_concat_owned. lia.
  - intros i b e retval Hi He. rewrite (concat_delete owned _ i b Hi), <-app_assoc in Hnd.
    apply run_heap_succeeds; [done| |].
    + by apply NoDup_app in Hnd as (? & _).
    + intros a Ha. apply Hin. rewrite (concat_delete owned _ i b Hi), !elem_of_app. by left; left.
Qed.

End dispatcher.

(** ** Witness *)

(** An ACQUIRE_LOCK call of the lock server has been dispatched and has ended. *)
Definition acquire_args : XdrMem := mkXdrMem XDR_DECODE 0 [] (enc_int 1).
Definition first_dispatch := dispatcher_heap lock_parse_thread_data ACQUIRE_LOCK acquire_args ∅.
Definition first_blocks : blocks :=
  match first_dispatch.1.2 with Ret (Some (_, b)) => b | _ => mkBlocks 0 0 0 0 end.
Definition last_heap : heap :=
  match (run_heap (mkEnv true true) true first_blocks first_dispatch.2).2 with Ret h => h | _ => ∅ end.

Lemma one_call_served : serving lock_parse_thread_data 1 (mkProcess last_heap []).
Proof.
  apply (sv_end lock_parse_thread_data 1 (mkProcess first_dispatch.2 [first_blocks]) 0 first_blocks
    (mkEnv true true) true [RepResult] last_heap).
  - apply (sv_dispatch lock_parse_thread_data 0 (mkProcess ∅ []) ACQUIRE_LOCK acquire_args []
      (mkThreadData acquire_lock_local (ArgInt 1)) first_blocks first_dispatch.2); [constructor|].
    vm_compute. reflexivity.
  - reflexivity.
  - vm_compute. reflexivity.
Qed.

Lemma dispatcher_memory_witness : size last_heap = 1%nat.
Proof. exact (proj1 (dispatcher_memory lock_parse_thread_data 1 (mkProcess last_heap []) one_call_served)). Defined.
