(* ===== verification/ThreadMigrate.v ===== *)
(** * Thread migration from end to end

    A thread calls [psu_thread_migrate]; its context travels as the argument
    of a MIGRATE call to the thread server of another node, whose dispatcher
    starts a worker that runs [migrate_1_svc]: a child process installs the
    context, and the worker itself sends the reply. *)

From S2P Require Import Prelude CString Xdr Utility ThreadMsg Thread LockMsg Dispatch.

(** What a served MIGRATE call leaves: the replies sent, how the worker ends,
    and the context that a new process runs with the memory block at its
    [ss_sp], which is the decoded [ss_sp_val]. *)
Record migration := mkMigration {
  mg_replies : list reply;
  mg_worker : outcome unit;
  mg_resumed : option (ucontext_t * bytes)
}.

(** The thread server on one call: [fork_ok] is whether [fork] succeeds, [sp]
    the address of the decoded stack. *)
Definition serve_migrate (e : svc_env) (fork_ok : bool) (sp : Z) (c : call) : option migration :=
  match thread_run (ca_proc c) (mkXdrMem XDR_DECODE 0 [] (ca_args c)) with
  | (reps, Ret (Some (mkThreadData migrate_local u))) =>
      match migrate_1_svc (if fork_ok then InParent else ForkFailed) sp u with
      | Reply b =>
          let '(sent, o) := run e b in
          Some (mkMigration (reps ++ sent) o
            (if fork_ok
             then match migrate_1_svc InChild sp u with
                  | SetContext c' => Some (c', st_sp (uc_stack u))
                  | Reply _ => None
                  end
             else None))
      | SetContext _ => None
      end
  | _ => None
  end.

(** The context [c'] continues [c] with its stack at [sp]. *)
Record continues (c c' : ucontext_t) (sp size : Z) : Prop := {
  ct_flags : n_flags c' = n_flags c;
  ct_stack : n_stack c' = mkNStack (ss_flags (n_stack c)) sp size;
  ct_gregs : ∀ r, r ≠ REG_RSP → n_gregs c' !! r = n_gregs c !! r;
  ct_fpregs : n_fpregs c' = n_fpregs c;
  ct_reserved1 : n_reserved1 c' = n_reserved1 c;
  ct_sigmask : n_sigmask c' = n_sigmask c;
  ct_fpregs_mem : n_fpregs_mem c' = n_fpregs_mem c
}.

Section transfer.
Context (mem : Z → nat → bytes).
Hypothesis Hmem : ∀ a n, length (mem a n) = n.
Context (clnt_create : bytes → Z → Z → bytes → option CLIENT).

(** The stack is captured whole. *)
Lemma capture_stack c stack size :
  0 ≤ size < 2 ^ 32 → st_sp (uc_stack (capture mem c stack size)) = mem stack (Z.to_nat size).
Proof.
  intros Hsz. cbn. unfold wrap. rewrite Z.mod_small by lia. apply take_ge. rewrite Hmem. lia.
Qed.

Lemma restore_continues c stack size sp :
  0 ≤ size < 2 ^ 32 → continues c (restore sp (capture mem c stack size)) sp size.
Proof.
  intros Hsz. pose proof (capture_stack c stack size Hsz) as Ht. cbn in Ht.
  rewrite restore_capture, Ht, Hmem, Z2Nat.id by lia. split; try done.
  intros r Hr. cbn. by rewrite list_lookup_insert_ne.
Qed.

(** C39: A thread that calls psu_thread_migrate ends after one MIGRATE call; the server
    that receives its bytes dispatches them to migrate_1_svc, replies once, and its
    child process runs a context with the same flags, stack size, signal mask, floating
    point state and registers other than RSP, on a block that holds, byte for byte, the
    stack of the sender; RSP is the lowest address of that block, whatever it was in the
    original stack. Stacks are below 4 GB. When fork fails the same reply is sent and
    the thread runs nowhere. *)
Theorem migration_end_to_end node client e fork_ok sp context stack size :
  create_client clnt_create node PSU_THREAD PSU_THREAD_V1 (cstr "tcp") = Ret client →
  0 ≤ size < 2 ^ 32 → ucontext_valid (capture mem context stack size) →
  env_sendreply e = true → env_freeargs e = true →
  ∃ c, psu_thread_migrate mem clnt_create node false context stack size = Ret (ThreadExit [c]) ∧
    ∃ g, serve_migrate e fork_ok sp c = Some g ∧
      mg_replies g = [RepResult] ∧ mg_worker g = Ret tt ∧
      if fork_ok then
        ∃ c' block, mg_resumed g = Some (c', block) ∧ continues context c' sp size ∧
          block = mem stack (Z.to_nat size) ∧ n_gregs c' !! REG_RSP = Some sp
      else mg_resumed g = None.
Proof.
  intros Hc Hsz Hv Hs Hf. unfold psu_thread_migrate. rewrite Hc. cbn [obind].
  set (u := capture mem context stack size). exists (migrate_1 u client). split; [done|].
  unfold serve_migrate. cbn [ca_proc ca_args migrate_1 clnt_call].
  rewrite (migrate_dispatched (X := XdrMem) u _ [] Hv) by (done || by rewrite app_nil_r).
  destruct fork_ok; cbn [migrate_1_svc]; unfold run; rewrite Hs, Hf; eexists; split; try done.
  split_and!; [done..|]. exists (restore sp u), (st_sp (uc_stack u)).
  split_and!; [done|by apply restore_continues|by apply capture_stack|].
  destruct Hv as (_ & _ & ((Hlen & _) & _) & _). cbn in Hlen |- *. apply list_lookup_insert_eq.
  rewrite Hlen. unfold REG_RSP. lia.
Qed.

End transfer.

(** ** Witness *)

Definition any_create (h : bytes) (prog vers : Z) (proto : bytes) : option CLIENT :=
  Some (mkClient h prog vers proto None None).

Lemma migration_end_to_end_witness :
  ∃ c, psu_thread_migrate example_mem any_create (cstr "10.0.0.2") false example_context 1000 64 =
      Ret (ThreadExit [c]) ∧
    ∃ g c', serve_migrate (mkEnv true true) true 5000 c = Some g ∧ mg_replies g = [RepResult] ∧
      mg_resumed g = Some (c', replicate 64 x2a) ∧ n_stack c' = mkNStack 0 5000 64.
Proof.
  destruct (migration_end_to_end example_mem example_mem_length any_create (cstr "10.0.0.2")
    (mkClient (cstr "10.0.0.2") PSU_THREAD PSU_THREAD_V1 (cstr "tcp") (Some 3600) None)
    (mkEnv true true) true 5000 example_context 1000 64) as (c & Hc & g & Hg & Hr & _ & c' & block & Hc' & Hk & Hb & _).
  - vm_compute. reflexivity.
  - lia.
  - exact example_capture_valid.
  - reflexivity.
  - reflexivity.
  - exists c. split; [exact Hc|]. exists g, c'. split; [exact Hg|]. split; [exact Hr|].
    split; [rewrite Hc', Hb; reflexivity|]. exact (ct_stack _ _ _ _ Hk).
Defined.
