(* ===== verification/LockTyping.v ===== *)
(** * Types, ranges and ownership in the lock manager

    Properties of every execution of the system of [LockSystem.v], failed RPCs
    and all interleavings included: who owns a lock variable, which values
    its sequence numbers can have, and that what one server sends to another
    is a message its dispatcher takes back unchanged. *)

From S2P Require Import Prelude CString Xdr Utility LockMsg LockServer LockSystem LockSafety LockClient Dispatch LockScenarios.

(** ** Definitions *)

(** The session has executed line 126 ([myseqno = highestseqno + 1]). *)
Definition numbered_pc (pc : session_pc) : bool :=
  match pc with
  | AqFind | AqLock _ | AqRequesting _ | AqReadHighest _ | AqWriteSeqno _ _ | SUndef => false
  | _ => true
  end.

Definition numbered_thread (th : thread) : bool :=
  match th with TSession _ _ pc => numbered_pc pc | THandler _ _ _ => false end.

Fixpoint count_numbered (l : list thread) : Z :=
  match l with
  | [] => 0
  | th :: l' => Z.b2z (numbered_thread th) + count_numbered l'
  end.

(** The number of acquisitions so far that have chosen a sequence number. *)
Definition numbered (w : World) : Z := count_numbered (w_threads w).

(** The calls of an execution use lock numbers of type [int]. *)
Definition label_typed (l : label) : bool :=
  match l with Start _ n => int_okb n | _ => true end.

(** A sequence number that [b] acquisitions can have produced. *)
Definition seq_in (b z : Z) : Prop := 0 ≤ z ≤ Z.min INT_MAX b.

Definition lockvar_typed (b : Z) (v : LockVar) : Prop :=
  seq_in b (lv_myseqno v) ∧ seq_in b (lv_highestseqno v).

Definition pack_typed (b : Z) (pack : RequestPack) : Prop :=
  int_ok (rp_lock_number pack) ∧ seq_in b (rp_seqno pack) ∧ uint_ok 64 (rp_mac pack).

Definition session_typed (b n : Z) (pc : session_pc) : Prop :=
  int_ok n ∧
  match pc with AqWriteSeqno _ h => seq_in b h | SUndef => INT_MAX ≤ b | _ => True end.

Definition handler_typed (b : Z) (pack : RequestPack) (pc : handler_pc) : Prop :=
  pack_typed b pack ∧ match pc with RqWriteMax _ z => seq_in b z | _ => True end.

Definition thread_typed (b : Z) (th : thread) : Prop :=
  match th with
  | TSession _ n pc => session_typed b n pc
  | THandler _ pack pc => handler_typed b pack pc
  end.

Definition server_typed (b : Z) (s : Server) : Prop :=
  uint_ok 64 (sv_mac s) ∧ ∀ n, lockvar_typed b (view s n).

Record Typed (w : World) : Prop := {
  ty_servers : ∀ j s, w_servers w !! j = Some s → server_typed (numbered w) s;
  ty_threads : ∀ t th, w_threads w !! t = Some th → thread_typed (numbered w) th
}.

(** The session that is freeing or replacing the deferred array, or is
    between the two calls on one of its elements. *)
Definition deffered_ok (pc : session_pc) (v : LockVar) : Prop :=
  match pc with
  | RlDestroy _ i => is_Some (lv_deffered v ≫= (.!! i))
  | _ => True
  end.

(** Pointers are valid, a lock variable has one owner per node, and the array
    of deferred requests is missing only while its owner replaces it. *)
Record Own (w : World) : Prop := {
  own_wf : ∀ j s, w_servers w !! j = Some s → sv_wf s;
  own_sess : ∀ t j n pc, w_threads w !! t = Some (TSession j n pc) →
    ∃ s, w_servers w !! j = Some s ∧ session_ptr s n pc ∧ deffered_ok pc (view s n) ∧
      (in_section pc = true → lv_lock (view s n) = true);
  own_lock : ∀ t1 t2 j n pc1 pc2,
    w_threads w !! t1 = Some (TSession j n pc1) →
    w_threads w !! t2 = Some (TSession j n pc2) →
    in_section pc1 = true → in_section pc2 = true → t1 = t2;
  own_hdl : ∀ t j pack pc, w_threads w !! t = Some (THandler j pack pc) →
    ∃ s, w_servers w !! j = Some s ∧ handler_ptr s (rp_lock_number pack) pc;
  own_deff : ∀ j s n, w_servers w !! j = Some s → lv_deffered (view s n) = None →
    ∃ t p, w_threads w !! t = Some (TSession j n (RlNew p))
}.

(** ** Steps, with or without RPC failure *)

(** A session's move that leaves its server alone. *)
Inductive quiet (w : World) (s : Server) (n : Z) : session_pc → session_pc → Prop :=
| q_call p i c j' :
    w_threads w !! c =
      Some (THandler j' (mkRequestPack n (lv_myseqno (view s n)) (sv_mac s)) RqFind) →
    quiet w s n (AqLoop p i) (AqCall p i c)
| q_reply p i c : quiet w s n (AqCall p i c) (AqLoop p (S i))
| q_release : quiet w s n Held RlFind.

(** A thread as it starts: a client's call, or the handler of a request that
    a session of the system is sending. *)
Inductive starting (w : World) : thread → Prop :=
| st_session j n : is_Some (w_servers w !! j) → int_ok n → starting w (TSession j n AqFind)
| st_handler t j n pc s j' :
    w_threads w !! t = Some (TSession j n pc) → w_servers w !! j = Some s →
    is_Some (w_servers w !! j') →
    starting w (THandler j' (mkRequestPack n (lv_myseqno (view s n)) (sv_mac s)) RqFind).

Inductive vstep (w : World) : World → Prop :=
| vs_local t j n pc pc' s s' :
    w_threads w !! t = Some (TSession j n pc) → w_servers w !! j = Some s →
    frame n s s' → session_ptr s' n pc' →
    sess_local (sv_nodes s) pc (view s n) (sv_mutexes s) pc' (view s' n) (sv_mutexes s') →
    vstep w (upd t (TSession j n pc') j s' w)
| vs_quiet t j n pc pc' s :
    w_threads w !! t = Some (TSession j n pc) → w_servers w !! j = Some s →
    quiet w s n pc pc' → vstep w (upd t (TSession j n pc') j s w)
| vs_handler t j pack pc pc' s s' :
    w_threads w !! t = Some (THandler j pack pc) → w_servers w !! j = Some s →
    frame (rp_lock_number pack) s s' → handler_ptr s' (rp_lock_number pack) pc' →
    hdl_local t (sv_mac s) pack pc (view s (rp_lock_number pack)) (sv_mutexes s)
      pc' (view s' (rp_lock_number pack)) (sv_mutexes s') →
    vstep w (upd t (THandler j pack pc') j s' w)
| vs_spawn th : starting w th → vstep w (spawn th w)
| vs_die j s : w_servers w !! j = Some s → vstep w (set_server j (set_alive false s) w).

(** ** Lemmas *)

(** *** Every step of the system is a sequence of these *)

Lemma session_step_cases s n pc s' a :
  sv_wf s → session_ptr s n pc → session_step s n pc = Some (s', a) →
  (a = Abort ∧ s' = s) ∨
  (∃ p i host, pc = AqLoop p i ∧ s' = s ∧ a = CallRequest host
     (mkRequestPack n (lv_myseqno (view s n)) (sv_mac s)) (AqCall p i)) ∨
  ∃ pc', a = Goto pc' ∧ frame n s s' ∧ session_ptr s' n pc' ∧
    sess_local (sv_nodes s) pc (view s n) (sv_mutexes s) pc' (view s' n) (sv_mutexes s').
Proof.
  intros Hwf Hptr Hstep. unfold session_step in Hstep.
  destruct (acquire_step s n pc) as [[s2 a2]|] eqn:Hacq; simplify_eq.
  - destruct a as [pc'|host pack k|]; [|..|by eapply acquire_no_abort in Hacq]; right.
    + right. destruct (acquire_step_local _ _ _ _ _ Hwf Hptr Hacq) as (? & ? & ?). eauto 10.
    + left. destruct (acquire_step_call _ _ _ _ _ _ _ Hwf Hptr Hacq) as (p & i & -> & -> & _ & -> & ->).
      eauto 10.
  - destruct (release_step_local _ _ _ _ _ Hwf Hptr Hstep)
      as [(-> & -> & _)|(pc' & -> & ? & ? & ?)]; [by left|]. right; right. eauto 10.
Qed.

Section executions.
Context (host_of : bytes → option nat).

Lemma call_vsteps w t j n p i s j' :
  w_threads w !! t = Some (TSession j n (AqLoop p i)) → w_servers w !! j = Some s →
  is_Some (w_servers w !! j') →
  rtc vstep w (set_thread t (TSession j n (AqCall p i (length (w_threads w))))
    (spawn (THandler j' (mkRequestPack n (lv_myseqno (view s n)) (sv_mac s)) RqFind) w)).
Proof.
  intros Ht Hj Hj'.
  set (h := THandler j' (mkRequestPack n (lv_myseqno (view s n)) (sv_mac s)) RqFind).
  apply (rtc_l _ _ (spawn h w)); [apply vs_spawn; by eapply st_handler|].
  rewrite (upd_same_server _ _ j s) by done. apply rtc_once.
  eapply vs_quiet; [simpl; by apply lookup_app_l_Some|done|].
  apply (q_call _ _ _ _ _ _ j'). simpl. apply lookup_snoc_Some. by right.
Qed.

Lemma run_session_vsteps w t j n pc s w' :
  Own w → w_threads w !! t = Some (TSession j n pc) → w_servers w !! j = Some s →
  run_session host_of t j n pc s w = Some w' → rtc vstep w w'.
Proof.
  intros HO Ht Hj Hr. pose proof (own_wf _ HO _ _ Hj) as Hwf.
  destruct (own_sess _ HO _ _ _ _ Ht) as (s1 & Hs1 & Hptr & _). simplify_eq.
  assert ((∃ pc', quiet w s n pc pc' ∧ w' = upd t (TSession j n pc') j s w) ∨
    ∃ s' a, session_step s n pc = Some (s', a) ∧ w' = perform host_of t j n s' a w) as Hcases.
  { destruct pc; simpl in Hr;
      try (right; destruct (session_step s n _) as [[s' a]|]; [|done]; simplify_eq; by eauto).
    all: left; eexists; rewrite <-(upd_same_server _ _ j s) by done.
    - destruct (w_threads w !! callee) as [[|? ? []]|]; simplify_eq. split; [constructor|done].
    - simplify_eq. split; [constructor|done]. }
  destruct Hcases as [(pc' & Hq & ->)|(s' & a & Hstep & ->)];
    [apply rtc_once; by eapply vs_quiet|].
  destruct (session_step_cases _ _ _ _ _ Hwf Hptr Hstep)
    as [[-> ->]|[(p & i & host & -> & -> & ->)|(pc' & -> & Hf & Hp & Hl)]]; simpl.
  - apply rtc_once. by constructor.
  - destruct (reach host_of w host) as [j'|] eqn:Hreach; [|apply rtc_once; by constructor].
    apply reach_Some in Hreach as [_ ?]. by apply call_vsteps.
  - apply rtc_once. by eapply vs_local.
Qed.

Lemma exec_vsteps w l w' :
  Own w → label_typed l = true → exec host_of l w = Some w' → rtc vstep w w'.
Proof.
  intros HO Hl He. destruct l as [j n|t|t]; simpl in He.
  - apply bind_Some in He as (s & Hs%live_Some & [= <-]).
    apply rtc_once, vs_spawn, st_session; [by eexists|by apply int_okb_spec].
  - apply bind_Some in He as ([j n pc|j pack pc] & Ht & He);
      apply bind_Some in He as (s & Hs%live_Some & He); [by eapply run_session_vsteps|].
    unfold run_handler in He. destruct (request_step t s pack pc) as [[s' pc']|] eqn:Hr; simplify_eq.
    destruct (own_hdl _ HO _ _ _ _ Ht) as (s1 & Hs1 & Hp). simplify_eq.
    destruct (request_step_local _ _ _ _ _ _ (own_wf _ HO _ _ Hs) Hp Hr) as (? & ? & ?).
    apply rtc_once. by eapply vs_handler.
  - apply bind_Some in He as ([j n []|] & Ht & He); try done.
    apply bind_Some in He as (s & Hs%live_Some & [= <-]).
    rewrite (upd_same_server _ _ j s) by done. apply rtc_once. eapply vs_quiet; [done..|constructor].
Qed.

(** *** Ownership *)

Lemma session_ptr_frame n s s' n0 pc0 :
  frame n s s' → session_ptr s n0 pc0 → session_ptr s' n0 pc0.
Proof. intros Hf. destruct pc0; simpl; try done; by apply (fr_ptr _ _ _ Hf). Qed.

Lemma handler_ptr_frame n s s' n0 pc0 :
  frame n s s' → handler_ptr s n0 pc0 → handler_ptr s' n0 pc0.
Proof. intros Hf. destruct pc0; simpl; try done; by apply (fr_ptr _ _ _ Hf). Qed.

Lemma deffered_ok_section pc v v' :
  deffered_ok pc v → (in_section pc = true → ∀ i,
    is_Some (lv_deffered v ≫= (.!! i)) → is_Some (lv_deffered v' ≫= (.!! i))) →
  deffered_ok pc v'.
Proof. destruct pc; simpl; auto. Qed.

(** The facts of [own_sess] for another session, when the step keeps the
    mutex and the deferred requests of sessions in their section. *)
Lemma own_sess_other n s s' n0 pc0 :
  frame n s s' →
  (n0 = n → in_section pc0 = true →
     (lv_lock (view s n) = true → lv_lock (view s' n) = true) ∧
     ∀ i, is_Some (lv_deffered (view s n) ≫= (.!! i)) → is_Some (lv_deffered (view s' n) ≫= (.!! i))) →
  session_ptr s n0 pc0 ∧ deffered_ok pc0 (view s n0) ∧
    (in_section pc0 = true → lv_lock (view s n0) = true) →
  session_ptr s' n0 pc0 ∧ deffered_ok pc0 (view s' n0) ∧
    (in_section pc0 = true → lv_lock (view s' n0) = true).
Proof.
  intros Hf Hkeep (Hp & Hd & Hl). split; [by eapply session_ptr_frame|].
  destruct (decide (n0 = n)) as [->|Hne]; [|by rewrite (fr_other _ _ _ Hf) by done].
  split.
  - eapply deffered_ok_section; [done|]. intros Hs. by apply Hkeep.
  - intros Hs. apply Hkeep; auto.
Qed.

Lemma own_deff_session w t j n pc pc' s s' j0 s0 n0 :
  Own w → w_threads w !! t = Some (TSession j n pc) → w_servers w !! j = Some s →
  frame n s s' →
  (lv_deffered (view s' n) = None → (∃ p, pc' = RlNew p) ∨
     (lv_deffered (view s n) = None ∧ ∀ p, pc ≠ RlNew p)) →
  w_servers (upd t (TSession j n pc') j s' w) !! j0 = Some s0 → lv_deffered (view s0 n0) = None →
  ∃ t0 p, w_threads (upd t (TSession j n pc') j s' w) !! t0 = Some (TSession j0 n0 (RlNew p)).
Proof.
  intros HO Ht Hj Hf Hnone Hj0 Hd.
  assert (∀ s1, w_servers w !! j0 = Some s1 → lv_deffered (view s1 n0) = None →
    (j0 = j → n0 = n → ∀ p, pc ≠ RlNew p) →
    ∃ t0 p, w_threads (upd t (TSession j n pc') j s' w) !! t0 = Some (TSession j0 n0 (RlNew p))) as Hold.
  { intros s1 Hj1 Hd1 Hpc. destruct (own_deff _ HO _ _ _ Hj1 Hd1) as (t0 & p & Ht0).
    exists t0, p. rewrite upd_thread_ne; [done|]. intros ->. simplify_eq. by eapply Hpc. }
  apply upd_server_inv in Hj0 as [[-> ->]|[Hne Hj0]]; [|by eapply Hold].
  destruct (decide (n0 = n)) as [->|Hne].
  - destruct (Hnone Hd) as [[p ->]|[Hd' Hpc]]; [|by eapply Hold].
    exists t, p. by eapply upd_thread_eq.
  - rewrite (fr_other _ _ _ Hf) in Hd by done. by eapply Hold.
Qed.

Lemma Own_upd_session w t j n pc pc' s s' :
  Own w → w_threads w !! t = Some (TSession j n pc) → w_servers w !! j = Some s →
  frame n s s' →
  session_ptr s' n pc' ∧ deffered_ok pc' (view s' n) ∧
    (in_section pc' = true → lv_lock (view s' n) = true) →
  (in_section pc = true ∨ lv_lock (view s n) = false ∨ in_section pc' = false) →
  (in_section pc = false → lv_deffered (view s' n) = lv_deffered (view s n) ∧
     (lv_lock (view s n) = true → lv_lock (view s' n) = true)) →
  (lv_deffered (view s' n) = None → (∃ p, pc' = RlNew p) ∨
     (lv_deffered (view s n) = None ∧ ∀ p, pc ≠ RlNew p)) →
  Own (upd t (TSession j n pc') j s' w).
Proof.
  intros HO Ht Hj Hf Hok Hsec Hout Hnone.
  assert (∀ t0 pc0, t0 ≠ t → w_threads w !! t0 = Some (TSession j n pc0) →
    in_section pc0 = true → in_section pc = false ∧ lv_lock (view s n) = true) as Hoth.
  { intros t0 pc0 Hne Ht0 Hs0. split.
    - apply not_true_is_false. intros Hs. destruct Hne. by eapply (own_lock _ HO).
    - destruct (own_sess _ HO _ _ _ _ Ht0) as (s1 & ? & _ & _ & Hl). simplify_eq. auto. }
  assert (∀ t0 pc0, t0 ≠ t → w_threads w !! t0 = Some (TSession j n pc0) →
    in_section pc0 = true → in_section pc' = true → False) as Huniq.
  { intros t0 pc0 Hne Ht0 Hs0 Hs'. destruct (Hoth t0 pc0) as [??]; [done..|].
    destruct Hsec as [?|[?|?]]; congruence. }
  split.
  - intros j0 s0 Hj0. apply upd_server_inv in Hj0 as [[_ ->]|[_ ?]];
      [by eapply fr_wf|by eapply own_wf].
  - intros t0 j0 n0 pc0 Ht0. apply upd_thread_inv in Ht0 as [[-> [= -> -> ->]]|[Hne Ht0]].
    { exists s'. split; [by eapply upd_server_eq|done]. }
    destruct (own_sess _ HO _ _ _ _ Ht0) as (s0 & Hs0 & Hok0).
    destruct (decide (j0 = j)) as [->|Hj0]; [|exists s0; by rewrite upd_server_ne].
    assert (s0 = s) as -> by congruence.
    exists s'. split; [by eapply upd_server_eq|].
    eapply own_sess_other; [done| |done]. intros -> Hs.
    destruct (Hoth t0 pc0) as [Hpc _]; [done..|]. destruct (Hout Hpc) as [-> ?]. done.
  - intros t1 t2 j0 n0 pc1 pc2 H1 H2 Hs1 Hs2.
    apply upd_thread_inv in H1 as [[-> E1]|[Hne1 H1]];
      apply upd_thread_inv in H2 as [[-> E2]|[Hne2 H2]]; simplify_eq; try done.
    + exfalso. by eapply Huniq.
    + exfalso. by eapply (Huniq t1).
    + by eapply (own_lock _ HO).
  - intros t0 j0 pack pc0 Ht0. apply upd_thread_inv in Ht0 as [[_ ?]|[Hne Ht0]]; [done|].
    destruct (own_hdl _ HO _ _ _ _ Ht0) as (s0 & Hs0 & Hp).
    destruct (decide (j0 = j)) as [->|Hj0]; [|exists s0; by rewrite upd_server_ne].
    assert (s0 = s) as -> by congruence.
    exists s'. split; [by eapply upd_server_eq|by eapply handler_ptr_frame].
  - intros j0 s0 n0 Hj0 Hd.
    by eapply (own_deff_session w t j n pc pc' s s').
Qed.

Lemma Own_upd_handler w t j pack pc pc' s s' :
  let n := rp_lock_number pack in
  Own w → w_threads w !! t = Some (THandler j pack pc) → w_servers w !! j = Some s →
  frame n s s' → handler_ptr s' n pc' → lv_lock (view s' n) = lv_lock (view s n) →
  (∀ i, is_Some (lv_deffered (view s n) ≫= (.!! i)) → is_Some (lv_deffered (view s' n) ≫= (.!! i))) →
  (lv_deffered (view s' n) = None → lv_deffered (view s n) = None) →
  Own (upd t (THandler j pack pc') j s' w).
Proof.
  intros n HO Ht Hj Hf Hp Hlock Hdef Hnone. split.
  - intros j0 s0 Hj0. apply upd_server_inv in Hj0 as [[_ ->]|[_ ?]];
      [by eapply fr_wf|by eapply own_wf].
  - intros t0 j0 n0 pc0 Ht0. apply upd_thread_inv in Ht0 as [[-> ?]|[Hne Ht0]]; [done|].
    destruct (own_sess _ HO _ _ _ _ Ht0) as (s0 & Hs0 & Hok0).
    destruct (decide (j0 = j)) as [->|Hj0]; [|exists s0; by rewrite upd_server_ne].
    assert (s0 = s) as -> by congruence.
    exists s'. split; [by eapply upd_server_eq|].
    eapply own_sess_other; [done| |done]. intros -> Hs. by rewrite Hlock.
  - intros t1 t2 j0 n0 pc1 pc2 H1 H2.
    apply upd_thread_inv in H1 as [[_ ?]|[_ H1]], H2 as [[_ ?]|[_ H2]]; try done.
    by eapply (own_lock _ HO).
  - intros t0 j0 pack0 pc0 Ht0. apply upd_thread_inv in Ht0 as [[-> [= -> -> ->]]|[Hne Ht0]].
    { exists s'. split; [by eapply upd_server_eq|done]. }
    destruct (own_hdl _ HO _ _ _ _ Ht0) as (s0 & Hs0 & Hp0).
    destruct (decide (j0 = j)) as [->|Hj0]; [|exists s0; by rewrite upd_server_ne].
    assert (s0 = s) as -> by congruence.
    exists s'. split; [by eapply upd_server_eq|by eapply handler_ptr_frame].
  - intros j0 s0 n0 Hj0 Hd.
    assert (∃ s1, w_servers w !! j0 = Some s1 ∧ lv_deffered (view s1 n0) = None) as (s1 & Hj1 & Hd1).
    { apply upd_server_inv in Hj0 as [[-> ->]|[_ ?]]; [|by eauto]. exists s. split; [done|].
      destruct (decide (n0 = n)) as [->|Hne]; [by auto|]. by rewrite <-(fr_other _ _ _ Hf). }
    destruct (own_deff _ HO _ _ _ Hj1 Hd1) as (t0 & p & Ht0). exists t0, p.
    rewrite upd_thread_ne; [done|]. intros ->. congruence.
Qed.

(** What a step of a session does to the deferred array and the mutex. *)
Lemma sess_local_own nodes pc v h pc' v' h' :
  sess_local nodes pc v h pc' v' h' →
  deffered_ok pc' v' ∧
  (in_section pc = true ∨ lv_lock v = false ∨ in_section pc' = false) ∧
  (in_section pc = false → lv_deffered v' = lv_deffered v ∧
     (lv_lock v = true → lv_lock v' = true)) ∧
  (lv_deffered v' = None → (∃ p, pc' = RlNew p) ∨ (lv_deffered v = None ∧ ∀ p, pc ≠ RlNew p)).
Proof.
  inversion 1; simplify_eq/=; split_and!; auto; try done.
  all: try (intros; right; split; congruence).
  - match goal with Hd : lv_deffered v' = Some ?d |- _ => rewrite Hd; simpl; eauto end.
  - intros; left; eauto.
Qed.

Lemma hdl_local_own t mac pack pc v h pc' v' h' :
  hdl_local t mac pack pc v h pc' v' h' →
  lv_lock v' = lv_lock v ∧
  (∀ i, is_Some (lv_deffered v ≫= (.!! i)) → is_Some (lv_deffered v' ≫= (.!! i))) ∧
  (lv_deffered v' = None → lv_deffered v = None).
Proof.
  inversion 1; simplify_eq/=; try done. split_and!; try done.
  intros i [x Hx]. match goal with Hd : lv_deffered v = Some _ |- _ => rewrite Hd in Hx end.
  simpl in *. exists x. by apply lookup_app_l_Some.
Qed.

Lemma Own_spawn w th : Own w → starting w th → Own (spawn th w).
Proof.
  intros HO Hth. assert (∀ t th0, w_threads (spawn th w) !! t = Some th0 →
    w_threads w !! t = Some th0 ∨ (t = length (w_threads w) ∧ th = th0)) as Hinv
    by (intros t th0; simpl; apply lookup_snoc_Some).
  split; [exact (own_wf _ HO)|..].
  - intros t j n pc [Ht|[_ ->]]%Hinv; [exact (own_sess _ HO _ _ _ _ Ht)|].
    inversion Hth as [?? [s Hs] ?|]; subst. by exists s.
  - intros t1 t2 j n pc1 pc2 H1 H2 Hs1 Hs2.
    apply Hinv in H1 as [H1|[_ ->]]; [|by inversion Hth; subst].
    apply Hinv in H2 as [H2|[_ ->]]; [|by inversion Hth; subst].
    by eapply (own_lock _ HO).
  - intros t j pack pc [Ht|[_ ->]]%Hinv; [exact (own_hdl _ HO _ _ _ _ Ht)|].
    inversion Hth as [|?????? ? ? [s Hs]]; subst. by exists s.
  - intros j s n Hj Hd. destruct (own_deff _ HO _ _ _ Hj Hd) as (t & p & Ht).
    exists t, p. simpl. by apply lookup_app_l_Some.
Qed.

Lemma set_alive_lookup w j s b j0 s0 :
  w_servers w !! j = Some s → w_servers w !! j0 = Some s0 →
  ∃ b', w_servers (set_server j (set_alive b s) w) !! j0 = Some (set_alive b' s0).
Proof.
  intros Hj Hj0. destruct (decide (j0 = j)) as [->|Hne].
  - simplify_eq. exists b. simpl. apply list_lookup_insert_eq. by eapply lookup_lt_Some.
  - exists (sv_alive s0). simpl. rewrite list_lookup_insert_ne by done. rewrite Hj0. by destruct s0.
Qed.

Lemma Own_die w j s : Own w → w_servers w !! j = Some s → Own (set_server j (set_alive false s) w).
Proof.
  intros HO Hj. split.
  - intros j0 s0 [[-> ->]|[_ Hj0]]%set_server_lookup; [exact (own_wf _ HO _ _ Hj)|exact (own_wf _ HO _ _ Hj0)].
  - intros t j0 n pc Ht. destruct (own_sess _ HO _ _ _ _ Ht) as (s0 & Hs0 & Hok).
    destruct (set_alive_lookup w j s false j0 s0) as [b ->]; [done..|]. by eexists.
  - exact (own_lock _ HO).
  - intros t j0 pack pc Ht. destruct (own_hdl _ HO _ _ _ _ Ht) as (s0 & Hs0 & Hok).
    destruct (set_alive_lookup w j s false j0 s0) as [b ->]; [done..|]. by eexists.
  - intros j0 s0 n [[-> ->]|[_ Hj0]]%set_server_lookup Hd;
      [exact (own_deff _ HO _ _ _ Hj Hd)|exact (own_deff _ HO _ _ _ Hj0 Hd)].
Qed.

Lemma Own_vstep w w' : Own w → vstep w w' → Own w'.
Proof.
  intros HO [t j n pc pc' s s' Ht Hj Hf Hp Hl|t j n pc pc' s Ht Hj Hq
    |t j pack pc pc' s s' Ht Hj Hf Hp Hl|th Hth|j s Hj].
  - destruct (sess_local_own _ _ _ _ _ _ _ Hl) as (Hd & Hsec & Hout & Hnone).
    destruct (own_sess _ HO _ _ _ _ Ht) as (s1 & Hs1 & _ & _ & Hlk). simplify_eq.
    eapply Own_upd_session; [done..| |done|done|done]. split_and!; [done..|].
    intros Hs. destruct (sess_local_section _ _ _ _ _ _ _ Hl Hs) as [[? ->]|[_ ->]]; auto.
  - destruct (own_sess _ HO _ _ _ _ Ht) as (s1 & Hs1 & Hptr & Hd & Hlk). simplify_eq.
    pose proof (own_wf _ HO _ _ Hj).
    eapply Own_upd_session; [done..|by apply frame_refl| | |done|].
    + destruct Hq; simpl in *; auto.
    + left. by destruct Hq.
    + intros ?. right. split; [done|]. by destruct Hq.
  - destruct (hdl_local_own _ _ _ _ _ _ _ _ _ Hl) as (? & ? & ?). by eapply Own_upd_handler.
  - by apply Own_spawn.
  - by apply Own_die.
Qed.

(** *** Counting *)

Lemma count_insert l t th th' :
  l !! t = Some th →
  count_numbered (<[t := th']> l) =
    count_numbered l - Z.b2z (numbered_thread th) + Z.b2z (numbered_thread th').
Proof.
  revert t. induction l as [|x l IH]; intros [|t]; simpl; intros Ht; simplify_eq; [lia|].
  rewrite (IH t) by done. lia.
Qed.

Lemma count_snoc l th : count_numbered (l ++ [th]) = count_numbered l + Z.b2z (numbered_thread th).
Proof. induction l as [|x l IH]; simpl; lia. Qed.

Lemma upd_numbered w t th th' j s :
  w_threads w !! t = Some th →
  numbered (upd t th' j s w) =
    numbered w - Z.b2z (numbered_thread th) + Z.b2z (numbered_thread th').
Proof. apply count_insert. Qed.

(** A session runs into undefined behaviour only by the overflow of its
    sequence number: the array it walks is there and long enough. *)
Lemma session_undef w t j n pc s v' h' :
  Own w → w_threads w !! t = Some (TSession j n pc) → w_servers w !! j = Some s →
  sess_local (sv_nodes s) pc (view s n) (sv_mutexes s) SUndef v' h' →
  ∃ p z, pc = AqWriteSeqno p z ∧ ¬ int_ok (z + 1).
Proof.
  intros HO Ht Hj Hl.
  destruct (own_sess _ HO _ _ _ _ Ht) as (s1 & Hs1 & _ & Hd & _). simplify_eq.
  inversion Hl as [| | | | |p z ?? Hov| | | | |p i ?? Hnone| |p i ?? Hnone| | |]; subst.
  - eauto.
  - destruct (own_deff _ HO _ _ _ Hj Hnone) as (t0 & q & Ht0).
    assert (t0 = t) as -> by (by eapply (own_lock _ HO)). congruence.
  - simpl in Hd. rewrite Hnone in Hd. by destruct Hd.
Qed.

Lemma sess_local_numbered nodes pc v h pc' v' h' :
  sess_local nodes pc v h pc' v' h' → pc' ≠ SUndef → numbered_pc pc = true → numbered_pc pc' = true.
Proof. by inversion 1. Qed.

Lemma b2z_mono (a b : bool) : (a = true → b = true) → Z.b2z a ≤ Z.b2z b.
Proof. destruct a, b; simpl; lia. Qed.

Lemma vstep_numbered w w' : Own w → vstep w w' → numbered w ≤ numbered w'.
Proof.
  intros HO [t j n pc pc' s s' Ht Hj Hf Hp Hl|t j n pc pc' s Ht Hj Hq
    |t j pack pc pc' s s' Ht Hj Hf Hp Hl|th Hth|j s Hj].
  - rewrite (upd_numbered _ _ _ _ _ _ Ht). simpl.
    assert (Z.b2z (numbered_pc pc) ≤ Z.b2z (numbered_pc pc')); [|lia]. apply b2z_mono.
    destruct (decide (pc' = SUndef)) as [->|Hne].
    + by destruct (session_undef _ _ _ _ _ _ _ _ HO Ht Hj Hl) as (p & z & -> & _).
    + by eapply sess_local_numbered.
  - rewrite (upd_numbered _ _ _ _ _ _ Ht). simpl. destruct Hq; simpl; lia.
  - rewrite (upd_numbered _ _ _ _ _ _ Ht). simpl. lia.
  - unfold numbered, spawn. simpl. rewrite count_snoc. destruct Hth; simpl; lia.
  - done.
Qed.

(** *** Ranges *)

Lemma seq_in_mono b b' z : b ≤ b' → seq_in b z → seq_in b' z.
Proof. unfold seq_in. lia. Qed.

#[local] Hint Resolve seq_in_mono : dist.

Lemma lockvar_typed_mono b b' v : b ≤ b' → lockvar_typed b v → lockvar_typed b' v.
Proof. intros ? []. split; eauto with dist. Qed.

Lemma thread_typed_mono b b' th : b ≤ b' → thread_typed b th → thread_typed b' th.
Proof.
  intros Hb. destruct th as [j n pc|j pack pc]; simpl.
  - intros [? Hpc]. split; [done|]. destruct pc; eauto with dist. lia.
  - intros [(? & ? & ?) Hpc]. split; [split_and!; eauto with dist|]. destruct pc; eauto with dist.
Qed.

Lemma server_typed_mono b b' s : b ≤ b' → server_typed b s → server_typed b' s.
Proof. intros ? [? Hv]. split; [done|]. intros n. by eapply lockvar_typed_mono. Qed.

(** A server after a step for lock [n]. *)
Lemma server_typed_frame b b' n s s' :
  b ≤ b' → frame n s s' → server_typed b s → lockvar_typed b' (view s' n) → server_typed b' s'.
Proof.
  intros Hb Hf [Hm Hv] Hn. split; [by rewrite (fr_mac _ _ _ Hf)|]. intros n'.
  destruct (decide (n' = n)) as [->|Hne]; [done|]. rewrite (fr_other _ _ _ Hf) by done.
  by eapply lockvar_typed_mono.
Qed.

Lemma sess_local_typed nodes pc v h pc' v' h' b n :
  sess_local nodes pc v h pc' v' h' → session_typed b n pc → lockvar_typed b v →
  (pc' = SUndef → ∃ p z, pc = AqWriteSeqno p z ∧ ¬ int_ok (z + 1)) →
  let b' := b - Z.b2z (numbered_pc pc) + Z.b2z (numbered_pc pc') in
  session_typed b' n pc' ∧ lockvar_typed b' v'.
Proof.
  intros Hl [Hn Hpc] [Hmy Hhi] Hu.
  inversion Hl; subst; simpl in *; unfold session_typed, lockvar_typed, seq_in, int_ok, INT_MIN, INT_MAX in *;
    simpl; split_and!; try done; try lia.
  all: destruct Hu as (q & z' & Hq & Hz); [done|]; simplify_eq; lia.
Qed.

Lemma hdl_local_typed t mac pack pc v h pc' v' h' b :
  hdl_local t mac pack pc v h pc' v' h' → handler_typed b pack pc → lockvar_typed b v →
  handler_typed b pack pc' ∧ lockvar_typed b v'.
Proof.
  intros Hl [Hp Hpc] [Hmy Hhi]. pose proof Hp as (_ & Hs & _).
  inversion Hl; subst; simpl in *; unfold handler_typed, lockvar_typed, seq_in in *; simpl;
    split_and!; try done; lia.
Qed.

(** The world after a thread's step: its server and itself are typed with
    the new bound, the others keep the old one. *)
Lemma Typed_upd w t j th th' s s' :
  Typed w → w_threads w !! t = Some th → w_servers w !! j = Some s →
  let w' := upd t th' j s' w in
  numbered w ≤ numbered w' → server_typed (numbered w') s' → thread_typed (numbered w') th' →
  Typed w'.
Proof.
  intros HT Ht Hj w' Hle Hs Hth. split.
  - intros j0 s0 [[_ ->]|[_ Hj0]]%upd_server_inv; [done|].
    eapply server_typed_mono; [done|by apply (ty_servers _ HT j0)].
  - intros t0 th0 [[_ ->]|[_ Ht0]]%upd_thread_inv; [done|].
    eapply thread_typed_mono; [done|by apply (ty_threads _ HT t0)].
Qed.

Lemma starting_typed w th : Typed w → starting w th → thread_typed (numbered w) th.
Proof.
  intros HT [j n Hj Hn|t j n pc s j' Ht Hj Hj']; [done|].
  destruct (ty_threads _ HT _ _ Ht) as [Hn _]. destruct (ty_servers _ HT _ _ Hj) as [Hm Hv].
  split; [|done]. split_and!; [done| |done]. apply Hv.
Qed.

Lemma Typed_vstep w w' : Own w → Typed w → vstep w w' → Typed w'.
Proof.
  intros HO HT Hv. pose proof (vstep_numbered _ _ HO Hv) as Hle.
  destruct Hv as [t j n pc pc' s s' Ht Hj Hf Hp Hl|t j n pc pc' s Ht Hj Hq
    |t j pack pc pc' s s' Ht Hj Hf Hp Hl|th Hth|j s Hj].
  - pose proof (ty_servers _ HT _ _ Hj) as Hs. pose proof (ty_threads _ HT _ _ Ht) as Hth.
    pose proof (upd_numbered w t _ (TSession j n pc') j s' Ht) as Hnum. simpl in Hnum.
    destruct (sess_local_typed _ _ _ _ _ _ _ (numbered w) n Hl Hth (proj2 Hs n)) as [Hpc Hlv].
    { intros ->. by eapply session_undef. }
    rewrite <-Hnum in Hpc, Hlv. eapply Typed_upd; [done..|by eapply server_typed_frame|done].
  - eapply Typed_upd; [done..| |].
    + eapply server_typed_mono; [done|by apply (ty_servers _ HT j)].
    + eapply thread_typed_mono; [done|]. destruct (ty_threads _ HT _ _ Ht) as [Hn _].
      split; [done|]. by destruct Hq.
  - pose proof (ty_servers _ HT _ _ Hj) as Hs. pose proof (ty_threads _ HT _ _ Ht) as Hth.
    destruct (hdl_local_typed _ _ _ _ _ _ _ _ _ _ Hl Hth (proj2 Hs _)) as [Hpc Hlv].
    eapply Typed_upd; [done..| |by eapply thread_typed_mono].
    eapply server_typed_frame; [done..|]. by eapply lockvar_typed_mono.
  - split.
    + intros j s Hj. eapply server_typed_mono; [done|by apply (ty_servers _ HT j)].
    + intros t th0 [Ht|[_ <-]]%lookup_snoc_Some; (eapply thread_typed_mono; [done|]).
      * by apply (ty_threads _ HT t).
      * by apply starting_typed.
  - split; [|exact (ty_threads _ HT)].
    intros j0 s0 [[_ ->]|[_ Hj0]]%set_server_lookup;
      [exact (ty_servers _ HT _ _ Hj)|exact (ty_servers _ HT _ _ Hj0)].
Qed.

(** *** Reachable states *)

Definition macs_typed (w : World) : Prop :=
  ∀ j s, w_servers w !! j = Some s → uint_ok 64 (sv_mac s).

Lemma Own_initial w : initial host_of w → Own w.
Proof.
  intros [Hth Hfresh _ _]. split.
  - intros j s Hj. unfold sv_wf. destruct (Hfresh j s Hj) as [-> _]. constructor.
  - intros t j n pc Ht. by rewrite Hth in Ht.
  - intros t1 t2 j n pc1 pc2 Ht. by rewrite Hth in Ht.
  - intros t j pack pc Ht. by rewrite Hth in Ht.
  - intros j s n Hj Hd. unfold view in Hd. destruct (Hfresh j s Hj) as [Hl _].
    by rewrite Hl in Hd.
Qed.

Lemma Typed_initial w : initial host_of w → macs_typed w → Typed w.
Proof.
  intros [Hth Hfresh _ _] Hm. split.
  - intros j s Hj. split; [by eapply Hm|]. intros n. unfold view.
    destruct (Hfresh j s Hj) as [-> _]. unfold numbered. by rewrite Hth.
  - intros t th Ht. by rewrite Hth in Ht.
Qed.

Lemma exec_typed w l w' :
  label_typed l = true → exec host_of l w = Some w' → Own w ∧ Typed w → Own w' ∧ Typed w'.
Proof.
  intros Hl He HOT. pose proof (exec_vsteps _ _ _ (proj1 HOT) Hl He) as Hr. revert HOT Hr.
  apply (rtc_invariant vstep (λ w, Own w ∧ Typed w)). intros a b [HO HT] Hv.
  split; [by eapply Own_vstep|by eapply Typed_vstep].
Qed.

Lemma reach_typed ls w0 w :
  forallb label_typed ls = true → exec_all host_of ls w0 = Some w →
  Own w0 ∧ Typed w0 → Own w ∧ Typed w.
Proof.
  revert w0. induction ls as [|l ls IH]; simpl; intros w0 Hl He HOT; [by simplify_eq|].
  apply andb_true_iff in Hl as [Hl Hls]. apply bind_Some in He as (w1 & Hw1 & He).
  eapply IH; [done..|]. by eapply exec_typed.
Qed.

Lemma initial_typed w : initial host_of w → macs_typed w → Own w ∧ Typed w.
Proof. split; [by apply Own_initial|by apply Typed_initial]. Qed.

(** ** Theorems *)

(** An execution: any sequence of calls with lock numbers of type int, of
    steps of threads and of RPC failures. *)
Section reachable.
Context (w0 w : World) (ls : list label).
Context (Hi : initial host_of w0) (Hm : macs_typed w0).
Context (Hl : forallb label_typed ls = true) (He : exec_all host_of ls w0 = Some w).

Lemma reachable_typed : Own w ∧ Typed w.
Proof. exact (reach_typed ls w0 w Hl He (initial_typed _ Hi Hm)). Qed.

(** C10: In every execution, failed RPCs included, in which the calls use lock numbers
    of type int and the MAC addresses fit 64 bits, every RequestPack that a server
    handles has fields in the ranges of their C types; so when the request stub's
    encoding of it reaches the dispatcher, it is decoded to the same pack and handed to
    request_1_svc, with no error reply. *)
Theorem lock_messages_typed {X} `{XdrLaws X} t j pack pc c (x : X) rest :
  w_threads w !! t = Some (THandler j pack pc) →
  x_op x = XDR_DECODE → x_in x = ca_args (request_1 pack c) ++ rest →
  request_pack_valid pack ∧
  lock_run (ca_proc (request_1 pack c)) x =
    ([], Ret (Some (mkThreadData request_local (ArgPack pack)))).
Proof.
  intros Ht Hop Hin.
  destruct reachable_typed as [_ HT].
  destruct (ty_threads _ HT _ _ Ht) as [(Hn & Hs & Hmac) _].
  assert (request_pack_valid pack) as Hv.
  { split_and!; [done| |done]. revert Hs. unfold seq_in, int_ok, INT_MIN. lia. }
  split; [done|]. unfold lock_run, dispatcher, lock_parse_thread_data.
  cbn [ca_proc ca_args request_1 clnt_call] in *.
  by rewrite (lock_getargs_ok xdr_RequestPack _ _ _ _ _ x pack rest xdr_RequestPack_ok Hop).
Qed.

(** C11: In every execution, failed RPCs included, myseqno and highestseqno of every
    lock variable are at least 0 and at most the number of acquisitions so far that have
    chosen a number, and never exceed INT_MAX. *)
Theorem sequence_numbers_bounded j s v :
  w_servers w !! j = Some s → v ∈ sv_lockvar_list s →
  0 ≤ lv_myseqno v ≤ Z.min INT_MAX (numbered w) ∧
  0 ≤ lv_highestseqno v ≤ Z.min INT_MAX (numbered w).
Proof.
  intros Hj [p Hp]%list_elem_of_lookup.
  destruct reachable_typed as [HO HT].
  destruct (ty_servers _ HT _ _ Hj) as [_ Hv]. specialize (Hv (lv_lock_number v)).
  rewrite (view_ptr s _ p v (own_wf _ HO _ _ Hj)) in Hv; [done| |done]. by exists v.
Qed.

(** In every execution, failed RPCs included, the sequence number of a session overflows
    only after INT_MAX acquisitions have chosen a number, and, as long as an append to the
    deferred array is one step, the release loop finds its array and its elements. *)
Theorem session_defined_until_overflow t j n pc :
  numbered w < INT_MAX →
  w_threads w !! t = Some (TSession j n pc) → pc ≠ SUndef.
Proof.
  intros Hnum Ht ->.
  destruct reachable_typed as [_ HT].
  destruct (ty_threads _ HT _ _ Ht) as [_ Hb]. simpl in Hb. lia.
Qed.

(** C12: On one node at most one session is between line 123 of acquire_lock_1_svc and
    line 159 of release_lock_1_svc for a lock, its critical section and its release
    included, and the lock's mutex is then locked; this holds in every execution from an
    initial state whose sessions release what they acquired, whatever RPCs fail and
    however handlers interleave: the provisos of mutual exclusion in the whole system
    concern different nodes only. *)
Theorem node_mutual_exclusion t1 t2 j n pc1 pc2 :
  w_threads w !! t1 = Some (TSession j n pc1) → w_threads w !! t2 = Some (TSession j n pc2) →
  in_section pc1 = true → in_section pc2 = true →
  t1 = t2 ∧ ∃ s, w_servers w !! j = Some s ∧ lv_lock (view s n) = true.
Proof.
  intros H1 H2 Hs1 Hs2. destruct reachable_typed as [HO _].
  split; [by eapply (own_lock _ HO)|].
  destruct (own_sess _ HO _ _ _ _ H1) as (s & Hs & _ & _ & Hlk). eauto.
Qed.

End reachable.
End executions.

(** ** Witnesses *)

(** Node 0 holds lock 1, and an RPC of node 1's session for it has failed. *)
Definition typed_trace : list label := acquire0 ++ [Start 1 1] ++ runs 2 6 ++ [RpcFail 2] ++ runs 3 6.
Definition typed_world : World := default w2 (exec_all host_of3 typed_trace w2).

Lemma typed_world_exec : exec_all host_of3 typed_trace w2 = Some typed_world.
Proof. vm_compute. reflexivity. Qed.

Lemma w2_macs_typed : macs_typed w2.
Proof. intros [|[|j]] s Hj; vm_compute in Hj; simplify_eq; done. Qed.

Lemma lock_messages_typed_witness :
  lock_run REQUEST (mkXdrMem XDR_DECODE 0 [] (enc_RequestPack (mkRequestPack 1 2 22))) =
  ([], Ret (Some (mkThreadData request_local (ArgPack (mkRequestPack 1 2 22))))).
Proof.
  refine (proj2 (lock_messages_typed host_of3 w2 typed_world typed_trace w2_initial w2_macs_typed
    eq_refl typed_world_exec (X := XdrMem) 3 0 (mkRequestPack 1 2 22) (RqAppend 0 3)
    a_client (mkXdrMem XDR_DECODE 0 [] (enc_RequestPack (mkRequestPack 1 2 22))) [] _ eq_refl _)).
  - vm_compute. reflexivity.
  - reflexivity.
Defined.

Lemma sequence_numbers_bounded_witness : ∃ v,
  v ∈ sv_lockvar_list (default (booted Crash) (w_servers typed_world !! 1%nat)) ∧
  0 ≤ lv_myseqno v ≤ Z.min INT_MAX (numbered typed_world).
Proof.
  exists (mkLockVar true 1 2 1 true (Some [])).
  assert (mkLockVar true 1 2 1 true (Some []) ∈
    sv_lockvar_list (default (booted Crash) (w_servers typed_world !! 1%nat))) as Hin
    by (vm_compute; left).
  split; [exact Hin|].
  refine (proj1 (sequence_numbers_bounded host_of3 w2 typed_world typed_trace w2_initial w2_macs_typed
    eq_refl typed_world_exec 1 _ (mkLockVar true 1 2 1 true (Some [])) _ Hin)).
  vm_compute. reflexivity.
Defined.

Lemma session_defined_until_overflow_witness :
  w_threads typed_world !! 0%nat = Some (TSession 0 1 Held) ∧ Held ≠ SUndef.
Proof.
  assert (w_threads typed_world !! 0%nat = Some (TSession 0 1 Held)) as Ht
    by (vm_compute; reflexivity).
  split; [exact Ht|].
  refine (session_defined_until_overflow host_of3 w2 typed_world typed_trace w2_initial w2_macs_typed
    eq_refl typed_world_exec 0 0 1 Held _ Ht).
  vm_compute. reflexivity.
Defined.

Lemma node_mutual_exclusion_witness :
  ∃ s, w_servers typed_world !! 0%nat = Some s ∧ lv_lock (view s 1) = true.
Proof.
  assert (w_threads typed_world !! 0%nat = Some (TSession 0 1 Held)) as Ht
    by (vm_compute; reflexivity).
  exact (proj2 (node_mutual_exclusion host_of3 w2 typed_world typed_trace w2_initial w2_macs_typed
    eq_refl typed_world_exec 0 0 0 1 Held Held Ht Ht eq_refl eq_refl)).
Defined.
