(* ===== verification/LockOrder.v ===== *)
(** * The order in which nodes enter

    Competing acquisitions of a lock are ordered by sequence number and then
    by MAC address.  The holder of a lock comes first in this order, and a
    reply that a session has counted is a permission that stays valid: the
    node that gave it does not hold the lock before the session has. *)

From S2P Require Import Prelude CString LockMsg LockServer LockSystem LockSafety LockScenarios LockWitness.

(** [a] comes strictly before [b]. *)
Definition precedes (a b : Z * Z) : Prop := a.1 < b.1 ∨ (a.1 = b.1 ∧ a.2 < b.2).

(** ** Lemmas *)

Lemma lexle_precedes a b : lexle a b → a.2 ≠ b.2 → precedes a b.
Proof. unfold lexle, precedes. lia. Qed.

Lemma precedes_asym a b : precedes a b → lexle b a → False.
Proof. unfold lexle, precedes. lia. Qed.

#[export] Instance precedes_dec : RelDecision precedes.
Proof. intros a b. unfold precedes. apply _. Defined.
#[export] Instance precedes_trans : Transitive precedes.
Proof. intros a b c. unfold precedes. lia. Qed.
#[export] Instance precedes_irrefl : Irreflexive precedes.
Proof. intros a. unfold complement, precedes. lia. Qed.

Section order.
Context (host_of : bytes → option nat).

Lemma macs_differ w0 w i j s s' :
  initial host_of w0 → static w0 w → w_servers w !! i = Some s → w_servers w !! j = Some s' →
  i ≠ j → sv_mac s ≠ sv_mac s'.
Proof.
  intros Hi Hst Hs Hs' Hij Hmac.
  destruct (Hst _ _ Hs) as (s0 & Hs0 & _ & Hm). destruct (Hst _ _ Hs') as (s0' & Hs0' & _ & Hm').
  apply Hij. eapply (init_macs _ _ Hi); [done..|]. congruence.
Qed.

(** The holder has the reply of every other node. *)
Lemma holder_acked w0 w t i j n s :
  initial host_of w0 → static w0 w → Inv host_of w →
  w_threads w !! t = Some (TSession i n Held) → w_servers w !! i = Some s →
  (j < length (w_servers w0))%nat → i ≠ j →
  granted w j n (lv_myseqno (view s n)) (sv_mac s).
Proof.
  intros Hi Hst HI Ht Hs Hlt Hij. destruct (Hst _ _ Hs) as (s0 & Hs0 & Hn & _).
  destruct (init_full _ _ Hi i j s0 Hs0 Hlt Hij) as (k & a & Hk & Ha).
  rewrite <-Hn in Hk. eapply (inv_ack _ _ HI); [done..| |done|done].
  simpl. by eapply lookup_lt_Some.
Qed.

Lemma holder_first w0 w t t' i j n pc s s' z :
  initial host_of w0 → static w0 w → Inv host_of w →
  w_threads w !! t = Some (TSession i n Held) → w_servers w !! i = Some s →
  w_threads w !! t' = Some (TSession j n pc) → w_servers w !! j = Some s' →
  i ≠ j → attempt pc (view s' n) = Some z →
  precedes (lv_myseqno (view s n), sv_mac s) (z, sv_mac s').
Proof.
  intros Hi Hst HI Ht Hs Ht' Hs' Hij Hz. destruct (Hst _ _ Hs') as (s0 & Hs0 & _).
  destruct (holder_acked w0 w t i j n s) as (s1 & Hs1 & _ & Hg); try done.
  { by eapply lookup_lt_Some. }
  assert (s1 = s') as -> by congruence. apply lexle_precedes; [by eapply Hg|].
  by eapply macs_differ.
Qed.

(** ** Theorems *)

Section reachable.
Context (w0 w : World).
Context (Hi : initial host_of w0) (Hr : rtc (step_excl host_of) w0 w).

(** C7: In every execution from an initial state without RPC failure and without
    interleaving inside line 170, the session that holds a lock comes strictly before
    every other node's acquisition of it that has chosen a number, in the order by
    sequence number and then by MAC address. *)
Theorem holder_goes_first t t' i j n pc s s' z :
  w_threads w !! t = Some (TSession i n Held) → w_servers w !! i = Some s →
  w_threads w !! t' = Some (TSession j n pc) → w_servers w !! j = Some s' →
  i ≠ j → attempt pc (view s' n) = Some z →
  precedes (lv_myseqno (view s n), sv_mac s) (z, sv_mac s').
Proof.
  destruct (reach_Inv host_of w0 w Hi Hr) as [HI Hst]. by apply (holder_first w0 w).
Qed.

(** C21: In every execution from an initial state without RPC failure and without
    interleaving inside line 170, a reply that a session has counted stays a permission:
    while the session asks the remaining nodes and while it holds the lock, no session
    of the node that replied holds it. *)
Theorem reply_is_permission t t' i j n pc s k a :
  w_threads w !! t = Some (TSession i n pc) → w_servers w !! i = Some s →
  (k < acked (length (sv_nodes s)) pc)%nat → sv_nodes s !! k = Some a → host_of a = Some j →
  i ≠ j → w_threads w !! t' ≠ Some (TSession j n Held).
Proof.
  intros Ht Hs Hk Ha Hj Hij Ht'. destruct (reach_Inv host_of w0 w Hi Hr) as [HI Hst].
  destruct (inv_ack _ _ HI _ _ _ _ _ _ _ _ Ht Hs Hk Ha Hj) as (s' & Hs' & _ & Hg).
  assert (attempt pc (view s n) = Some (lv_myseqno (view s n))) as Hz
    by (destruct pc; simpl in Hk; done || lia).
  eapply precedes_asym; [|by eapply (Hg t' Held)].
  by eapply (holder_first w0 w t' t j i).
Qed.

End reachable.
End order.

(** ** Witnesses *)

Lemma holder_goes_first_witness :
  precedes (1, 11) (2, 22).
Proof.
  refine (holder_goes_first host_of3 w2 w_deferring w2_initial (w2_excl _ w_deferring_rtc)
    0 2 0 1 1 (AqCall 0 0 3) (server_of w_deferring 0) (server_of w_deferring 1) 2 _ _ _ _ _ _).
  all: first [by vm_compute|done].
Defined.

Lemma reply_is_permission_witness :
  w_threads w_deferring !! 2%nat ≠ Some (TSession 1 1 Held).
Proof.
  refine (reply_is_permission host_of3 w2 w_deferring w2_initial (w2_excl _ w_deferring_rtc)
    0 2 0 1 1 Held (server_of w_deferring 0) 0 (ip 1) _ _ _ _ _ _).
  - by vm_compute.
  - by vm_compute.
  - vm_compute. lia.
  - by vm_compute.
  - by vm_compute.
  - done.
Defined.
