(* ===== verification/LockDeadlock.v ===== *)
(** * Deadlock of the lock manager

    Two defects let nodes wait for each other: requesting_cs is not reset by
    a release, and a request can be judged between the moment a node sets
    requesting_cs (line 125) and the moment it chooses its number (line 126).
    While neither happens for a lock, some thread working for it can run. *)

From S2P Require Import Prelude CString LockMsg LockServer LockSystem LockSafety LockScenarios LockWitness LockOrder LockTyping.

(** ** Definitions *)

(** The session has not begun its release. *)
Definition acquiring (pc : session_pc) : bool :=
  match pc with
  | RlFind | RlLoop _ _ | RlDestroy _ _ | RlFree _ | RlNew _ | RlUnlock _ | Released | SUndef => false
  | _ => true
  end.

(** Between lines 125 and 126: asking, and without a number of its own. *)
Definition numbering (pc : session_pc) : bool :=
  match pc with AqReadHighest _ | AqWriteSeqno _ _ => true | _ => false end.

(** The handler compares the request with [myseqno]. *)
Definition comparing (pc : handler_pc) : bool :=
  match pc with RqTest2 _ | RqTest3 _ => true | _ => false end.

Definition first_use (n : Z) (w : World) : Prop :=
  ∀ t j pc, w_threads w !! t = Some (TSession j n pc) → acquiring pc = true.

Definition numbering_atomic (n : Z) (w : World) : Prop :=
  ∀ t t' j pack pc pc', w_threads w !! t = Some (THandler j pack pc) → rp_lock_number pack = n →
    comparing pc = true → w_threads w !! t' = Some (TSession j n pc') → numbering pc' = false.

(** The session asks the others with the number it has chosen, or holds the lock. *)
Definition competing (pc : session_pc) : bool :=
  match pc with AqLoop _ _ | AqCall _ _ _ | Held => true | _ => false end.

Definition key (s : Server) (n : Z) : Z * Z := (lv_myseqno (view s n), sv_mac s).

(** A session of node [j] competes for lock [n] and comes before [(q, m)]. *)
Definition ahead (w : World) (j : nat) (n q m : Z) : Prop :=
  ∃ t pc s, w_threads w !! t = Some (TSession j n pc) ∧ competing pc = true ∧
    w_servers w !! j = Some s ∧ precedes (key s n) (q, m).

(** What a handler for lock [n] knows while nobody has released it. *)
Definition handler_waits (w : World) (t j : nat) (s : Server) (pack : RequestPack)
    (pc : handler_pc) : Prop :=
  let n := rp_lock_number pack in
  match pc with
  | RqTest2 _ | RqTest3 _ => lv_requesting_cs (view s n) = true
  | RqAlloc _ => ahead w j n (rp_seqno pack) (rp_mac pack)
  | RqAppend _ _ | RqLock1 _ =>
      sv_mutexes s !! t = Some MUnlocked ∧ ahead w j n (rp_seqno pack) (rp_mac pack)
  | RqLock2 _ => is_Some (sv_mutexes s !! t) ∧ ahead w j n (rp_seqno pack) (rp_mac pack)
  | RqUndef => False
  | _ => True
  end.

Record Waits (n : Z) (w : World) : Prop := {
  wt_first : first_use n w;
  wt_lock : ∀ j s, w_servers w !! j = Some s → lv_lock (view s n) = true →
    ∃ t pc, w_threads w !! t = Some (TSession j n pc) ∧ in_section pc = true;
  wt_requesting : ∀ j s, w_servers w !! j = Some s → lv_requesting_cs (view s n) = true →
    ∃ t pc, w_threads w !! t = Some (TSession j n pc) ∧ past_requesting pc = true;
  wt_hdl : ∀ t j s pack pc, w_threads w !! t = Some (THandler j pack pc) →
    rp_lock_number pack = n → w_servers w !! j = Some s → handler_waits w t j s pack pc;
  wt_deff : ∀ j s, w_servers w !! j = Some s → lv_deffered (view s n) ≠ None
}.

(** Thread [t] works for lock [n]. *)
Definition works_for (n : Z) (w : World) (t : nat) : Prop :=
  match w_threads w !! t with
  | Some (TSession _ n' _) => n' = n
  | Some (THandler _ pack _) => rp_lock_number pack = n
  | None => False
  end.

Definition all_alive (w : World) : Prop :=
  ∀ j s, w_servers w !! j = Some s → sv_alive s = true.

Section deadlock.
Context (host_of : bytes → option nat) (n : Z).

(** A step in which lock [n] is not released and none of its handlers
    compares while its node chooses a number. *)
Definition step_first (w w' : World) : Prop :=
  step_excl host_of w w' ∧ numbering_atomic n w ∧ first_use n w'.

(** ** Lemmas *)

(** *** Local steps *)

Lemma sess_local_lock nodes pc v h pc' v' h' :
  sess_local nodes pc v h pc' v' h' → acquiring pc' = true → lv_lock v' = true →
  in_section pc' = true ∨ (in_section pc = false ∧ lv_lock v = true).
Proof. inversion 1; simplify_eq/=; intros; try done; auto. Qed.

Lemma sess_local_asks nodes pc v h pc' v' h' :
  sess_local nodes pc v h pc' v' h' → lv_requesting_cs v' = true →
  past_requesting pc' = true ∨ (past_requesting pc = false ∧ lv_requesting_cs v = true).
Proof. inversion 1; simplify_eq/=; intros; try done; auto. Qed.

Lemma sess_local_first nodes pc v h pc' v' h' :
  sess_local nodes pc v h pc' v' h' → acquiring pc' = true →
  acquiring pc = true ∧ h' = h ∧ lv_deffered v' = lv_deffered v.
Proof. inversion 1; simplify_eq/=; intros; try done; auto. Qed.

Lemma sess_local_competing nodes pc v h pc' v' h' :
  sess_local nodes pc v h pc' v' h' → acquiring pc' = true → competing pc = true →
  competing pc' = true ∧ lv_myseqno v' = lv_myseqno v.
Proof. inversion 1; simplify_eq/=; intros; try done; auto. Qed.

Lemma competing_section pc : competing pc = true → in_section pc = true.
Proof. by destruct pc. Qed.

(** A session that asks and is not choosing its number competes. *)
Lemma asking_competes pc :
  past_requesting pc = true → acquiring pc = true → numbering pc = false → competing pc = true.
Proof. by destruct pc. Qed.

(** *** Sessions for the lock *)

(** The same facts for the moves of a session, the calls and replies included. *)
Lemma sess_move_lock w s pc pc' s' :
  sess_move host_of w s n pc pc' s' → acquiring pc' = true → lv_lock (view s' n) = true →
  in_section pc' = true ∨ (in_section pc = false ∧ lv_lock (view s n) = true).
Proof. destruct 1 as [pc pc' s' _ _ Hl| | |]; [|by auto..]. by eapply sess_local_lock. Qed.

Lemma sess_move_asks w s pc pc' s' :
  sess_move host_of w s n pc pc' s' → lv_requesting_cs (view s' n) = true →
  past_requesting pc' = true ∨ (past_requesting pc = false ∧ lv_requesting_cs (view s n) = true).
Proof. destruct 1 as [pc pc' s' _ _ Hl| | |]; [|by auto..]. by eapply sess_local_asks. Qed.

Lemma sess_move_first w s pc pc' s' :
  sess_move host_of w s n pc pc' s' → acquiring pc' = true →
  sv_mutexes s' = sv_mutexes s ∧ lv_deffered (view s' n) = lv_deffered (view s n).
Proof.
  destruct 1 as [pc pc' s' _ _ Hl| | |]; [|by auto..]. intros Ha.
  by destruct (sess_local_first _ _ _ _ _ _ _ Hl Ha) as (_ & ? & ?).
Qed.

Lemma sess_move_competing w s pc pc' s' :
  sess_move host_of w s n pc pc' s' → acquiring pc' = true → competing pc = true →
  competing pc' = true ∧ lv_myseqno (view s' n) = lv_myseqno (view s n).
Proof. destruct 1 as [pc pc' s' _ _ Hl| | |]; [|by auto..]. by eapply sess_local_competing. Qed.

Lemma sess_move_section_kept w s pc pc' s' :
  sess_move host_of w s n pc pc' s' → acquiring pc' = true → in_section pc = true →
  in_section pc' = true.
Proof.
  destruct 1 as [pc pc' s' _ _ Hl| | |]; [|by auto..].
  inversion Hl; simplify_eq/=; intros; try done; auto.
Qed.

Lemma sess_move_past_kept w s pc pc' s' :
  sess_move host_of w s n pc pc' s' → past_requesting pc = true → past_requesting pc' = true.
Proof.
  destruct 1 as [pc pc' s' _ _ Hl| | |]; [|by auto..].
  inversion Hl; simplify_eq/=; intros; try done; auto.
Qed.

(** *** Threads and servers across a step *)

(** A session stays where it is or makes a move. *)
Lemma wstep_session w w' t j pc :
  wstep host_of w w' → w_threads w !! t = Some (TSession j n pc) →
  w_threads w' !! t = Some (TSession j n pc) ∨
  ∃ pc' s s', w_threads w' !! t = Some (TSession j n pc') ∧ w_servers w !! j = Some s ∧
    w_servers w' !! j = Some s' ∧ sess_move host_of w s n pc pc' s'.
Proof.
  intros Hw Ht.
  destruct Hw as [t1 j1 n1 pc1 pc' s s' Ht1 Hj Hm|t1 j1 pack pc1 pc' s s' Ht1 Hj Hf Hp Hl|th Hth|j1 s Hj].
  - destruct (decide (t = t1)) as [->|Hne]; [|left; by rewrite upd_thread_ne].
    simplify_eq. right. exists pc', s, s'.
    by erewrite upd_thread_eq, upd_server_eq.
  - left. rewrite upd_thread_ne; [done|]. congruence.
  - left. simpl. by apply lookup_app_l_Some.
  - by left.
Qed.

(** How the variable of the lock on node [j] came to be what it is. *)
Lemma wstep_view w w' j s' :
  Inv host_of w → wstep host_of w w' → w_servers w' !! j = Some s' →
  ∃ s, w_servers w !! j = Some s ∧
   (view s' n = view s n ∨
    (∃ t pc pc', w_threads w !! t = Some (TSession j n pc) ∧
       w_threads w' !! t = Some (TSession j n pc') ∧ sess_move host_of w s n pc pc' s') ∨
    ∃ t pack pc pc', hdl_local t (sv_mac s) pack pc (view s n) (sv_mutexes s)
       pc' (view s' n) (sv_mutexes s')).
Proof.
  intros HI Hw Hj'.
  destruct Hw as [t1 j1 n1 pc1 pc' s s1 Ht1 Hj Hm|t1 j1 pack pc1 pc' s s1 Ht1 Hj Hf Hp Hl|th Hth|j1 s Hj].
  - apply upd_server_inv in Hj' as [[-> ->]|[_ ?]]; [|by eauto]. exists s. split; [done|].
    destruct (decide (n1 = n)) as [->|Hne].
    + right; left. exists t1, pc1, pc'. by rewrite (upd_thread_eq _ _ _ _ _ _ Ht1).
    + left. destruct (inv_sess _ _ HI _ _ _ _ Ht1) as (s2 & Hs2 & Hok). simplify_eq.
      destruct (sess_move_frame _ _ _ _ _ _ _ (inv_wf _ _ HI _ _ Hj) (proj1 Hok) Hm) as (Hf & _).
      by apply (fr_other _ _ _ Hf).
  - apply upd_server_inv in Hj' as [[-> ->]|[_ ?]]; [|by eauto]. exists s. split; [done|].
    destruct (decide (rp_lock_number pack = n)) as [<-|Hne]; [by eauto 10|].
    left. by apply (fr_other _ _ _ Hf).
  - eauto.
  - apply set_server_lookup in Hj' as [[-> ->]|[_ ?]]; eauto.
Qed.

(** A competing session stays ahead, with its key, while nobody releases. *)
Lemma ahead_wstep w w' j q m :
  Inv host_of w → wstep host_of w w' → first_use n w' → ahead w j n q m → ahead w' j n q m.
Proof.
  intros HI Hw Hf (t & pc & s & Ht & Hc & Hs & Hp).
  destruct (proj1 (wstep_evolves _ _ _ HI Hw) _ _ Hs) as (s' & Hs' & _ & Hm & _).
  assert (∃ pc', w_threads w' !! t = Some (TSession j n pc') ∧ competing pc' = true ∧
    lv_myseqno (view s' n) = lv_myseqno (view s n)) as (pc' & Ht' & Hc' & Hmy).
  { destruct (wstep_session _ _ _ _ _ Hw Ht) as [Ht'|(pc' & s1 & s1' & Ht' & Hs1 & Hs1' & Hmove)].
    - exists pc. split_and!; [done..|].
      eapply attempt_kept; [done..|by apply competing_section|by destruct pc].
    - simplify_eq. exists pc'. split; [done|]. by eapply sess_move_competing; [|eapply Hf|]. }
  exists t, pc', s'. split_and!; [done..|]. unfold key. by rewrite Hmy, Hm.
Qed.

(** The mutexes of handlers of a lock are left alone by other threads while
    the lock is not released. *)
Lemma first_use_mutex w w' t j pack pc s s' :
  Inv host_of w → wstep host_of w w' → first_use n w' →
  w_threads w !! t = Some (THandler j pack pc) → rp_lock_number pack = n →
  w_threads w' !! t = Some (THandler j pack pc) →
  w_servers w !! j = Some s → w_servers w' !! j = Some s' →
  sv_mutexes s' !! t = sv_mutexes s !! t.
Proof.
  intros HI Hw Hf Ht Hn Ht' Hs Hs'.
  destruct Hw as [t1 j1 n1 pc1 pc' s1 s1' Ht1 Hj Hm|t1 j1 pack1 pc1 pc' s1 s1' Ht1 Hj Hfr Hp Hl|th Hth|j1 s1 Hj].
  - apply upd_server_inv in Hs' as [[-> ->]|[_ ?]]; [|congruence].
    assert (s1 = s) as -> by congruence.
    destruct (decide (n1 = n)) as [->|Hne].
    { destruct (sess_move_first _ _ _ _ _ Hm) as [-> _]; [|done].
      eapply (Hf t1). by erewrite upd_thread_eq. }
    destruct (sess_move_mutex _ _ _ _ _ _ _ Hm) as [->|(d & m & k & Hd & Hin & -> & _)]; [done|].
    apply lookup_insert_ne. intros ->.
    destruct (inv_deff _ _ HI _ _ _ _ _ Hj Hd Hin) as (pack' & pc0 & Ht0 & Hn1). congruence.
  - apply upd_server_inv in Hs' as [[-> ->]|[_ ?]]; [|congruence].
    assert (s1 = s) as -> by congruence.
    destruct (inv_hdl _ _ HI _ _ _ _ Ht1) as (s2 & Hs2 & Hok). simplify_eq.
    eapply handler_mutex; [done| |done]. intros ->. simplify_eq.
    erewrite upd_thread_eq in Ht' by done. simplify_eq. by inversion Hl.
  - simpl in *. congruence.
  - apply set_server_lookup in Hs' as [[-> ->]|[_ ?]]; [|congruence].
    by assert (s1 = s) as -> by congruence.
Qed.

(** A handler stayed where it is, has just started, or made a step. *)
Lemma wstep_handler_inv w w' t j pack pc' s' :
  wstep host_of w w' → w_threads w' !! t = Some (THandler j pack pc') → w_servers w' !! j = Some s' →
  w_threads w !! t = Some (THandler j pack pc') ∨ pc' = RqFind ∨
  ∃ pc s, w_threads w !! t = Some (THandler j pack pc) ∧ w_servers w !! j = Some s ∧
    hdl_local t (sv_mac s) pack pc (view s (rp_lock_number pack)) (sv_mutexes s)
      pc' (view s' (rp_lock_number pack)) (sv_mutexes s').
Proof.
  intros Hw Ht Hs'.
  destruct Hw as [t1 j1 n1 pc1 pc0 s1 s1' Ht1 Hj Hm|t1 j1 pack1 pc1 pc0 s1 s1' Ht1 Hj Hfr Hp Hl|th Hth|j1 s1 Hj].
  - apply upd_thread_inv in Ht as [[_ ?]|[_ ?]]; [done|by left].
  - apply upd_thread_inv in Ht as [[-> [= -> -> ->]]|[_ ?]]; [|by left].
    erewrite upd_server_eq in Hs' by done. simplify_eq. eauto 10.
  - apply lookup_snoc_Some in Ht as [?|[_ ->]]; [by left|]. destruct Hth as [-> _]. by right; left.
  - by left.
Qed.

(** *** Preservation *)

Lemma Waits_session_kept (f : session_pc → bool) w w' t j pc :
  wstep host_of w w' →
  (∀ s pc' s', sess_move host_of w s n pc pc' s' → acquiring pc' = true → f pc = true → f pc' = true) →
  first_use n w' → w_threads w !! t = Some (TSession j n pc) → f pc = true →
  ∃ t pc', w_threads w' !! t = Some (TSession j n pc') ∧ f pc' = true.
Proof.
  intros Hw Hkeep Hf Ht Hpc.
  destruct (wstep_session _ _ _ _ _ Hw Ht) as [Ht'|(pc' & s & s' & Ht' & _ & _ & Hm)]; [by eauto|].
  exists t, pc'. split; [done|]. eapply Hkeep; [done|by eapply Hf|done].
Qed.

Lemma Waits_lock w w' j s' :
  Inv host_of w → Waits n w → wstep host_of w w' → first_use n w' →
  w_servers w' !! j = Some s' → lv_lock (view s' n) = true →
  ∃ t pc, w_threads w' !! t = Some (TSession j n pc) ∧ in_section pc = true.
Proof.
  intros HI HW Hw Hf Hj' Hl.
  destruct (wstep_view _ _ _ _ HI Hw Hj') as (s & Hj & Hcase).
  assert (lv_lock (view s n) = true ∨ ∃ t pc, w_threads w' !! t = Some (TSession j n pc) ∧
    in_section pc = true) as [Hold|?]; [|..|done].
  { destruct Hcase as [Hv|[(t & pc & pc' & Ht & Ht' & Hm)|(t & pack & pc & pc' & Hh)]].
    - left. congruence.
    - destruct (sess_move_lock _ _ _ _ _ Hm (Hf _ _ _ Ht') Hl) as [?|[_ ?]]; eauto.
    - left. destruct (hdl_local_keeps _ _ _ _ _ _ _ _ _ Hh) as (_ & <- & _). done. }
  destruct (wt_lock _ _ HW _ _ Hj Hold) as (t & pc & Ht & Hs).
  eapply (Waits_session_kept in_section); [done| |done..].
  intros s0 pc' s0' Hm. by eapply sess_move_section_kept.
Qed.

Lemma Waits_requesting w w' j s' :
  Inv host_of w → Waits n w → wstep host_of w w' → first_use n w' →
  w_servers w' !! j = Some s' → lv_requesting_cs (view s' n) = true →
  ∃ t pc, w_threads w' !! t = Some (TSession j n pc) ∧ past_requesting pc = true.
Proof.
  intros HI HW Hw Hf Hj' Hl.
  destruct (wstep_view _ _ _ _ HI Hw Hj') as (s & Hj & Hcase).
  assert (lv_requesting_cs (view s n) = true ∨ ∃ t pc, w_threads w' !! t = Some (TSession j n pc) ∧
    past_requesting pc = true) as [Hold|?]; [|..|done].
  { destruct Hcase as [Hv|[(t & pc & pc' & Ht & Ht' & Hm)|(t & pack & pc & pc' & Hh)]].
    - left. congruence.
    - destruct (sess_move_asks _ _ _ _ _ Hm Hl) as [?|[_ ?]]; eauto.
    - left. destruct (hdl_local_keeps _ _ _ _ _ _ _ _ _ Hh) as (_ & _ & <-). done. }
  destruct (wt_requesting _ _ HW _ _ Hj Hold) as (t & pc & Ht & Hs).
  eapply (Waits_session_kept past_requesting); [done| |done..].
  intros s0 pc' s0' Hm _. by eapply sess_move_past_kept.
Qed.

Lemma Waits_deff w w' j s' :
  Inv host_of w → Waits n w → wstep host_of w w' → first_use n w' →
  w_servers w' !! j = Some s' → lv_deffered (view s' n) ≠ None.
Proof.
  intros HI HW Hw Hf Hj' Hn. destruct (wstep_view _ _ _ _ HI Hw Hj') as (s & Hj & Hcase).
  apply (wt_deff _ _ HW _ _ Hj).
  destruct Hcase as [<-|[(t & pc & pc' & Ht & Ht' & Hm)|(t & pack & pc & pc' & Hh)]]; [done|..].
  - by destruct (sess_move_first _ _ _ _ _ Hm (Hf _ _ _ Ht')) as [_ <-].
  - by apply (hdl_local_own _ _ _ _ _ _ _ _ _ Hh).
Qed.

(** A request that is deferred comes after a competing session of the node. *)
Lemma deferred_ahead w j s t pack pc :
  Waits n w → numbering_atomic n w → w_servers w !! j = Some s →
  w_threads w !! t = Some (THandler j pack pc) → rp_lock_number pack = n → comparing pc = true →
  lv_requesting_cs (view s n) = true → precedes (key s n) (rp_seqno pack, rp_mac pack) →
  ahead w j n (rp_seqno pack) (rp_mac pack).
Proof.
  intros HW Hat Hs Ht Hn Hc Hr Hp. destruct (wt_requesting _ _ HW _ _ Hs Hr) as (t1 & pc1 & Ht1 & H1).
  exists t1, pc1, s. split_and!; [done| |done|done].
  apply asking_competes; [done|by eapply (wt_first _ _ HW)|by eapply Hat].
Qed.

Lemma handler_waits_step w w' t j pack pc pc' s s' :
  Inv host_of w → Waits n w → numbering_atomic n w → rp_lock_number pack = n →
  (∀ q m, ahead w j n q m → ahead w' j n q m) →
  w_threads w !! t = Some (THandler j pack pc) → w_servers w !! j = Some s →
  hdl_local t (sv_mac s) pack pc (view s n) (sv_mutexes s) pc' (view s' n) (sv_mutexes s') →
  handler_waits w' t j s' pack pc'.
Proof.
  intros HI HW Hat Hn Hahead Ht Hs Hl.
  pose proof (wt_hdl _ _ HW _ _ _ _ _ Ht Hn Hs) as Hwt.
  destruct (inv_hdl _ _ HI _ _ _ _ Ht) as (s1 & Hs1 & _ & Hok).
  assert (s1 = s) as -> by congruence.
  pose proof (deferred_ahead w j s t pack pc HW Hat Hs Ht Hn) as Hdef.
  pose proof (wt_deff _ _ HW _ _ Hs) as Hdeff.
  unfold handler_waits in *. rewrite Hn in *. clear Hn HI HW Hat Ht Hs Hs1.
  inversion Hl; subst; simpl in *; try done.
  - apply Hahead, Hdef; [done..|]. by left.
  - apply Hahead, Hdef; [done..|]. by right.
  - split; [by simplify_map_eq|by apply Hahead].
  - destruct Hwt. auto.
  - destruct Hwt, Hok as (-> & _). split; [simplify_map_eq; by eexists|auto].
Qed.

Lemma handler_waits_stay w w' t j pack pc s s' :
  rp_lock_number pack = n →
  (∀ q m, ahead w j n q m → ahead w' j n q m) →
  (lv_requesting_cs (view s n) = true → lv_requesting_cs (view s' n) = true) →
  sv_mutexes s' !! t = sv_mutexes s !! t →
  handler_waits w t j s pack pc → handler_waits w' t j s' pack pc.
Proof.
  intros Hn Ha Hr Hm. unfold handler_waits. rewrite Hn, Hm.
  destruct pc; try done; try (intros []; split; [done|]); auto.
Qed.

(** The sessions of lock [n] on a node keep asking. *)
Lemma wstep_asks w w' j s s' :
  Inv host_of w → wstep host_of w w' → w_servers w !! j = Some s → w_servers w' !! j = Some s' →
  lv_requesting_cs (view s n) = true → lv_requesting_cs (view s' n) = true.
Proof.
  intros HI Hw Hs Hs' Hr. destruct (wstep_view _ _ _ _ HI Hw Hs') as (s0 & Hs0 & Hcase).
  assert (s0 = s) as -> by congruence.
  destruct Hcase as [->|[(t & pc & pc' & Ht & _ & Hm)|(t & pack & pc & pc' & Hh)]]; [done|..].
  - destruct (inv_sess _ _ HI _ _ _ _ Ht) as (s1 & Hs1 & Hok).
    assert (s1 = s) as -> by congruence.
    by apply (sess_move_frame _ _ _ _ _ _ _ (inv_wf _ _ HI _ _ Hs) (proj1 Hok) Hm).
  - by destruct (hdl_local_keeps _ _ _ _ _ _ _ _ _ Hh) as (_ & _ & ->).
Qed.

Lemma Waits_wstep w w' :
  Inv host_of w → Waits n w → numbering_atomic n w → wstep host_of w w' → first_use n w' →
  Waits n w'.
Proof.
  intros HI HW Hat Hw Hf. split; [done|intros j s; by apply Waits_lock with (w := w)
    |intros j s; by apply Waits_requesting with (w := w)
    | |intros j s; by apply Waits_deff with (w := w)].
  intros t j s' pack pc Ht Hn Hs'.
  assert (∀ q m, ahead w j n q m → ahead w' j n q m) as Ha by (intros q m; by apply ahead_wstep).
  destruct (wstep_handler_inv _ _ _ _ _ _ _ Hw Ht Hs') as [Ht0|[->|(pc0 & s & Ht0 & Hs & Hl)]];
    [|done|rewrite Hn in Hl; by eapply handler_waits_step].
  destruct (inv_hdl _ _ HI _ _ _ _ Ht0) as (s & Hs & _).
  eapply handler_waits_stay; [done|done|by eapply wstep_asks|by eapply first_use_mutex|].
  by eapply (wt_hdl _ _ HW).
Qed.

Lemma spawn_first_use w j pack : first_use n w → first_use n (spawn (THandler j pack RqFind) w).
Proof. intros Hf t j0 pc [?|[_ ?]]%lookup_snoc_Some; [by eapply Hf|done]. Qed.

Lemma spawn_numbering_atomic w j pack :
  numbering_atomic n w → numbering_atomic n (spawn (THandler j pack RqFind) w).
Proof.
  intros Hat t t' j0 pack0 pc pc' Ht Hn Hc Ht'.
  apply lookup_snoc_Some in Ht as [Ht|[_ [= -> -> <-]]]; [|done].
  apply lookup_snoc_Some in Ht' as [Ht'|[_ ?]]; [|done]. by eapply Hat.
Qed.

Lemma Waits_step w w' : Inv host_of w → Waits n w → step_first w w' → Waits n w'.
Proof.
  intros HI HW ((Hex & l & Hl & He) & Hat & Hf).
  destruct (exec_cases _ _ _ _ HI Hl He) as [[Hw _]|Hc]; [by eapply Waits_wstep|].
  destruct (call_step_wsteps _ _ _ Hc) as (jc & pk & Hth & H1 & H2).
  assert (first_use n (spawn (THandler jc pk RqFind) w)) as Hf1
    by apply spawn_first_use, (wt_first _ _ HW).
  eapply (Waits_wstep (spawn _ w)); [by eapply Inv_wstep| |by apply spawn_numbering_atomic|done|done].
  by eapply Waits_wstep.
Qed.

Lemma Waits_initial w : initial host_of w → Waits n w.
Proof.
  intros [Hth Hfresh _ _].
  assert (∀ j s, w_servers w !! j = Some s → view s n = new_lockvar n) as Hview.
  { intros j s Hj. destruct (Hfresh j s Hj) as [Hl _]. unfold view. by rewrite Hl. }
  split.
  - intros t j pc Ht. by rewrite Hth in Ht.
  - intros j s Hj. by rewrite (Hview j).
  - intros j s Hj. by rewrite (Hview j).
  - intros t j s pack pc Ht. by rewrite Hth in Ht.
  - intros j s Hj. by rewrite (Hview j).
Qed.

Lemma reach_Waits w0 w :
  initial host_of w0 → rtc step_first w0 w → Inv host_of w ∧ Waits n w.
Proof.
  intros Hi. apply (rtc_invariant _ (λ w, Inv host_of w ∧ Waits n w)).
  - intros a b [HI HW] Hs. split; [|by eapply Waits_step].
    destruct Hs as ((Hex & Hs) & _). by eapply Inv_step.
  - split; [by apply Inv_initial|by apply Waits_initial].
Qed.

(** *** Progress *)

Lemma exec_run_session w t j s pc :
  w_threads w !! t = Some (TSession j n pc) → w_servers w !! j = Some s → sv_alive s = true →
  exec host_of (Run t) w = run_session host_of t j n pc s w.
Proof. intros Ht Hs Ha. simpl. rewrite Ht. simpl. unfold live. rewrite Hs. simpl. by rewrite Ha. Qed.

Lemma exec_run_handler w t j s pack pc :
  w_threads w !! t = Some (THandler j pack pc) → w_servers w !! j = Some s → sv_alive s = true →
  exec host_of (Run t) w = run_handler t j pack pc s w.
Proof. intros Ht Hs Ha. simpl. rewrite Ht. simpl. unfold live. rewrite Hs. simpl. by rewrite Ha. Qed.

(** A session that neither waits for the mutex, nor for a reply, nor holds
    the lock, can run. *)
Lemma session_enabled s pc :
  sv_wf s → session_ptr s n pc → acquiring pc = true → competing pc = false →
  (∀ p, pc = AqLock p → lv_lock (view s n) = false) →
  ∃ r, session_step s n pc = Some r.
Proof.
  intros Hwf Hp Ha Hc Hl. unfold session_step.
  destruct pc; try done; simpl in *.
  - destruct (find_lockvar_create s n Hwf) as (p & s' & -> & _). eauto.
  - pose proof Hp as (v & Hv & _). rewrite Hv. simpl.
    rewrite <-(view_ptr s n p v Hwf Hp Hv), (Hl p eq_refl). eauto.
  - destruct Hp as (v & -> & _). simpl. eauto.
  - destruct Hp as (v & -> & _). simpl. eauto.
  - destruct Hp as (v & -> & _). simpl. destruct (int_add h 1); eauto.
Qed.

Lemma loop_enabled s p i : session_ptr s n (AqLoop p i) → ∃ r, session_step s n (AqLoop p i) = Some r.
Proof.
  intros (v & Hv & _). unfold session_step. simpl. rewrite Hv. simpl.
  destruct (sv_nodes s !! i); eauto.
Qed.

(** A handler that has not replied and does not wait in its second
    [pthread_mutex_lock] can run. *)
Lemma handler_enabled w t j s pack pc :
  sv_wf s → handler_ok w t j s pack pc → handler_waits w t j s pack pc →
  pc = RqRet ∨ (∃ m, pc = RqLock2 m) ∨ ∃ r, request_step t s pack pc = Some r.
Proof.
  intros Hwf [Hp Hok] Hwt. destruct pc; auto; try done.
  all: try (right; right; destruct Hp as (v & Hv & _); simpl; rewrite ?Hv; simpl; by eauto).
  - right; right. simpl.
    destruct (find_lockvar_create s (rp_lock_number pack) Hwf) as (p & s' & -> & _). eauto.
  - right; right. destruct Hp as (v & Hv & _). simpl. rewrite Hv. simpl. by destruct (lv_deffered v); eauto.
  - right; right. destruct Hok as (-> & _). destruct Hwt as [Hm _]. simpl. rewrite Hm. simpl. eauto.
  - eauto.
Qed.

Definition can_run (w : World) : Prop :=
  ∃ t, works_for n w t ∧ is_Some (exec host_of (Run t) w).

Lemma session_can_run w t j s pc :
  w_threads w !! t = Some (TSession j n pc) → w_servers w !! j = Some s → sv_alive s = true →
  is_Some (run_session host_of t j n pc s w) → can_run w.
Proof.
  intros Ht Hs Ha Hr. exists t. unfold works_for. rewrite Ht. split; [done|].
  by rewrite (exec_run_session w t j s pc).
Qed.

Lemma stepping_runs w t j s pc r :
  session_step s n pc = Some r → is_Some (run_session host_of t j n pc s w).
Proof. intros Hr. destruct r, pc; try done; unfold run_session; rewrite Hr; eauto. Qed.

(** The keys of the sessions that compete for the lock. *)
Definition key_of (w : World) (th : thread) : option (Z * Z) :=
  match th with
  | TSession j n' pc =>
      if decide (n' = n ∧ competing pc = true) then (λ s, key s n) <$> w_servers w !! j else None
  | THandler _ _ _ => None
  end.

Lemma key_of_Some w th k :
  key_of w th = Some k ↔ ∃ j pc s, th = TSession j n pc ∧ competing pc = true ∧
    w_servers w !! j = Some s ∧ k = key s n.
Proof.
  destruct th as [j n' pc|j pack pc]; simpl; [|naive_solver].
  case_decide as Hd; [|naive_solver]. destruct Hd as [-> Hc]. rewrite fmap_Some. naive_solver.
Qed.

Lemma first_competitor w t j pc :
  Inv host_of w → w_threads w !! t = Some (TSession j n pc) → competing pc = true →
  ∃ t j pc s, w_threads w !! t = Some (TSession j n pc) ∧ competing pc = true ∧
    w_servers w !! j = Some s ∧ ∀ i, ¬ ahead w i n (key s n).1 (key s n).2.
Proof.
  intros HI Ht Hc. destruct (inv_sess _ _ HI _ _ _ _ Ht) as (s & Hs & _).
  destruct (list_minimal precedes (omap (key_of w) (w_threads w))) as (k & Hk & Hmin).
  { apply (elem_of_not_nil (key s n)), list_elem_of_omap. exists (TSession j n pc).
    split; [by eapply list_elem_of_lookup_2|]. apply key_of_Some. eauto 10. }
  apply list_elem_of_omap in Hk as (th & [t1 Ht1]%list_elem_of_lookup & Hk).
  apply key_of_Some in Hk as (j1 & pc1 & s1 & -> & Hc1 & Hs1 & ->).
  exists t1, j1, pc1, s1. split_and!; [done..|]. intros i (t2 & pc2 & s2 & Ht2 & Hc2 & Hs2 & Hp).
  apply (Hmin (key s2 n)); [|by destruct (key s1 n)]. apply list_elem_of_omap.
  exists (TSession i n pc2). split; [by eapply list_elem_of_lookup_2|]. apply key_of_Some. eauto 10.
Qed.

Lemma competitor_progress w t j pc :
  Inv host_of w → Waits n w → all_alive w →
  w_threads w !! t = Some (TSession j n pc) → competing pc = true →
  (∃ t, holds w t n) ∨ can_run w.
Proof.
  intros HI HW Hal Ht0 Hc0.
  destruct (first_competitor w t j pc HI Ht0 Hc0) as (t1 & i & pc1 & s & Ht & Hc & Hs & Hmin).
  destruct (inv_sess _ _ HI _ _ _ _ Ht) as (s1 & Hs1 & Hok & _).
  assert (s1 = s) as -> by congruence.
  destruct pc1 as [| | | | |p k|p k c| | | | | | | | |]; try done.
  - right. destruct (loop_enabled s p k Hok) as [r Hr].
    eapply session_can_run; [done..|by eapply Hal|by eapply stepping_runs].
  - right. destruct (inv_call _ _ HI _ _ _ _ _ _ _ Ht Hs) as (a & j' & hpc & _ & _ & Hh).
    destruct (inv_hdl _ _ HI _ _ _ _ Hh) as (s' & Hs' & Hhok).
    pose proof (wt_hdl _ _ HW _ _ _ _ _ Hh eq_refl Hs') as Hwt.
    destruct (handler_enabled _ _ _ _ _ _ (inv_wf _ _ HI _ _ Hs') Hhok Hwt) as [->|[[m ->]|[[s2 pc2] Hr]]].
    + eapply session_can_run; [done..|by eapply Hal|]. simpl. rewrite Hh. eauto.
    + destruct Hwt as [_ Ha]. by destruct (Hmin j').
    + exists c. unfold works_for. rewrite Hh. split; [done|].
      erewrite exec_run_handler; [|done..|by eapply Hal]. unfold run_handler. rewrite Hr. eauto.
  - left. exists t1, i. done.
Qed.

(** A session that has called acquire: the lock is held or somebody can run. *)
Lemma Waits_progress w t j pc :
  Inv host_of w → Waits n w → all_alive w → w_threads w !! t = Some (TSession j n pc) →
  (∃ t, holds w t n) ∨ can_run w.
Proof.
  intros HI HW Hal Ht.
  assert (∀ t pc, w_threads w !! t = Some (TSession j n pc) →
    (∀ p s, pc = AqLock p → w_servers w !! j = Some s → lv_lock (view s n) = false) →
    (∃ t, holds w t n) ∨ can_run w) as Hrun.
  { clear t pc Ht. intros t pc Ht Hl. pose proof (wt_first _ _ HW _ _ _ Ht) as Ha.
    destruct (competing pc) eqn:Hc; [by eapply competitor_progress|]. right.
    destruct (inv_sess _ _ HI _ _ _ _ Ht) as (s & Hs & Hp & _).
    destruct (session_enabled s pc (inv_wf _ _ HI _ _ Hs) Hp Ha Hc) as [r Hr'];
      [intros p ->; by eapply Hl|].
    eapply session_can_run; [done..|by eapply Hal|by eapply stepping_runs]. }
  destruct (inv_sess _ _ HI _ _ _ _ Ht) as (s & Hs & _).
  destruct (lv_lock (view s n)) eqn:Hlock.
  - destruct (wt_lock _ _ HW _ _ Hs Hlock) as (t1 & pc1 & Ht1 & Hsec).
    apply (Hrun t1 pc1 Ht1). intros p s1 -> _. done.
  - apply (Hrun t pc Ht). intros p s1 _ Hs1. congruence.
Qed.

(** ** Theorem *)

(** While a lock has not been released by anybody and no handler compares a request
    with myseqno between lines 125 and 126, the lock manager does not deadlock on it: in
    every state reached by such steps with all servers running, if some session has
    called acquire for the lock then a session holds it or a thread working for it can
    take a step. *)
Theorem first_use_no_deadlock w0 w t j pc :
  initial host_of w0 → rtc step_first w0 w → all_alive w →
  w_threads w !! t = Some (TSession j n pc) →
  (∃ t, holds w t n) ∨ can_run w.
Proof.
  intros Hi Hr Hal Ht. destruct (reach_Waits w0 w Hi Hr) as [HI HW]. by eapply Waits_progress.
Qed.

End deadlock.

(** ** Witness *)

Definition first_useb (n : Z) (w : World) : bool :=
  forallb (λ th, match th with
    | TSession _ n' pc => negb (bool_decide (n' = n)) || acquiring pc
    | THandler _ _ _ => true
    end) (w_threads w).

Definition numbering_atomicb (n : Z) (w : World) : bool :=
  forallb (λ th, match th with
    | THandler j pack pc => negb (bool_decide (rp_lock_number pack = n) && comparing pc) ||
        forallb (λ th', match th' with
          | TSession j' n' pc' => negb (bool_decide (j' = j) && bool_decide (n' = n)) || negb (numbering pc')
          | THandler _ _ _ => true
          end) (w_threads w)
    | TSession _ _ _ => true
    end) (w_threads w).

(** Every step of the trace is one of [step_first], line 170 apart. *)
Fixpoint first_trace (host_of : bytes → option nat) (n : Z) (ls : list label) (w : World) : bool :=
  match ls with
  | [] => true
  | l :: ls' =>
      match exec host_of l w with
      | Some w' => negb (is_rpc_fail l) && numbering_atomicb n w && first_useb n w' &&
                   first_trace host_of n ls' w'
      | None => false
      end
  end.

Lemma first_useb_ok n w : first_useb n w = true → first_use n w.
Proof.
  unfold first_useb. rewrite forallb_forall. intros Hall t j pc Ht.
  specialize (Hall _ (proj1 (list_elem_of_In _ _) (list_elem_of_lookup_2 _ _ _ Ht))). simpl in Hall.
  by rewrite bool_decide_true in Hall.
Qed.

Lemma numbering_atomicb_ok n w : numbering_atomicb n w = true → numbering_atomic n w.
Proof.
  unfold numbering_atomicb. rewrite forallb_forall. intros Hall t t' j pack pc pc' Ht Hn Hc Ht'.
  specialize (Hall _ (proj1 (list_elem_of_In _ _) (list_elem_of_lookup_2 _ _ _ Ht))). simpl in Hall.
  rewrite bool_decide_true, Hc in Hall by done. simpl in Hall. rewrite forallb_forall in Hall.
  specialize (Hall _ (proj1 (list_elem_of_In _ _) (list_elem_of_lookup_2 _ _ _ Ht'))). simpl in Hall.
  rewrite !bool_decide_true in Hall by done. by apply negb_true_iff.
Qed.

Lemma first_trace_rtc host_of n ls w0 w :
  initial host_of w0 → no_self host_of w0 → length (w_servers w0) = 2%nat →
  rtc (step host_of) w0 w → first_trace host_of n ls w = true →
  rtc (step_first host_of n) w (default w (exec_all host_of ls w)).
Proof.
  intros Hi Hns Hlen. revert w. induction ls as [|l ls IH]; intros w Hr; [done|]. simpl.
  destruct (exec host_of l w) as [w'|] eqn:He; [|done]. rewrite !andb_true_iff.
  intros (((Hl & Hat) & Hf) & Htr). simpl.
  assert (step host_of w w') as Hs by (exists l; split; [by apply negb_true_iff|done]).
  destruct (two_nodes_reach host_of w0 w Hi Hns Hlen Hr) as (_ & HI & Hst & Hca & Hl2).
  specialize (IH w' (rtc_r _ _ _ Hr Hs) Htr).
  destruct (exec_all host_of ls w') as [w2|] eqn:He2; simpl in *.
  - eapply rtc_l; [|done]. split_and!; [split; [|done]|by apply numbering_atomicb_ok|by apply first_useb_ok].
    eapply two_nodes_exclusive; [done..|by eapply static_no_self|done].
  - exfalso. clear -Htr He2. revert w' Htr He2. induction ls as [|l ls IH]; intros w'; [done|]. simpl.
    destruct (exec host_of l w') as [w1|]; [|done]. rewrite !andb_true_iff. intros [_ ?]. by apply IH.
Qed.

(** Both nodes have asked; node 0's request has been granted and node 1's
    deferred. *)
Definition competition : list label :=
  [Start 0 1] ++ runs 0 6 ++ runs 1 4 ++ [Start 1 1] ++ runs 2 6 ++ runs 3 8.

Lemma first_use_no_deadlock_witness :
  let w := after competition w2 in (∃ t, holds w t 1) ∨ can_run host_of3 1 w.
Proof.
  apply (first_use_no_deadlock host_of3 1 w2 (after competition w2) 2 1 (AqCall 0 0 3) w2_initial).
  - apply (first_trace_rtc host_of3 1 competition w2 w2 w2_initial w2_no_self eq_refl (rtc_refl _ _)).
    vm_compute. reflexivity.
  - intros [|[|j]] s Hj; vm_compute in Hj; simplify_eq; reflexivity.
  - vm_compute. reflexivity.
Defined.
