(* ===== verification/LockTermination.v ===== *)
(** * Termination of the lock manager

    Every thread of the lock manager does a bounded amount of work: a session
    sends one request per node and wakes each deferred request once, and a
    handler has no loop.  So an execution in which [k] acquire calls are made
    is finite, whatever the interleaving and whatever RPCs fail: there is no
    livelock, and on every schedule the system comes to rest. *)

From S2P Require Import Prelude CString LockMsg LockServer LockSystem LockSafety LockScenarios LockWitness.

(** ** Definitions *)

(** The steps that a handler has left. *)
Definition handler_weight (pc : handler_pc) : nat :=
  match pc with
  | RqFind => 10 | RqReadMax _ => 9 | RqWriteMax _ _ => 8 | RqTest1 _ => 7 | RqTest2 _ => 6
  | RqTest3 _ => 5 | RqAlloc _ => 4 | RqAppend _ _ => 3 | RqLock1 _ => 2 | RqLock2 _ => 1
  | RqRet | RqUndef => 0
  end.

(** The requests that a session of a node with [r] peers has left to send. *)
Definition calls_left (r : nat) (pc : session_pc) : nat :=
  match pc with
  | AqFind | AqLock _ | AqRequesting _ | AqReadHighest _ | AqWriteSeqno _ _ => r
  | AqLoop _ i => r - i
  | AqCall _ i _ => r - S i
  | _ => 0
  end.

(** The steps that a session has left besides its requests, when at most [L]
    requests can be deferred. *)
Definition session_steps (L : nat) (pc : session_pc) : nat :=
  match pc with
  | AqFind => 2 * L + 13 | AqLock _ => 2 * L + 12 | AqRequesting _ => 2 * L + 11
  | AqReadHighest _ => 2 * L + 10 | AqWriteSeqno _ _ => 2 * L + 9
  | AqLoop _ _ => 2 * L + 8 | AqCall _ _ _ => 2 * L + 9
  | Held => 2 * L + 7 | RlFind => 2 * L + 6
  | RlLoop _ i => 2 * (L - i) + 5 | RlDestroy _ i => 2 * (L - i) + 4
  | RlFree _ => 3 | RlNew _ => 2 | RlUnlock _ => 1
  | Released | SUndef => 0
  end.

(** A request costs its call, its reply and its handler. *)
Definition session_weight (L r : nat) (pc : session_pc) : nat :=
  12 * calls_left r pc + session_steps L pc.

(** The peers of node [j], none once its process has ended. *)
Definition peers (w : World) (j : nat) : option nat :=
  s ← live w j; Some (length (sv_nodes s)).

(** A thread of a process that has ended takes no step. *)
Definition thread_weight (L : nat) (w : World) (th : thread) : nat :=
  match th with
  | TSession j _ pc => match peers w j with Some r => session_weight L r pc | None => 0 end
  | THandler j _ pc => match peers w j with Some _ => handler_weight pc | None => 0 end
  end.

Definition weight (L : nat) (w : World) : nat :=
  sum_list_with (thread_weight L w) (w_threads w).

(** The requests that a thread stands for: its own, or those to be sent. *)
Definition thread_requests (w : World) (th : thread) : nat :=
  match th with
  | TSession j _ pc => match peers w j with Some r => calls_left r pc | None => 0 end
  | THandler _ _ _ => 1
  end.

Definition requests (w : World) : nat := sum_list_with (thread_requests w) (w_threads w).

(** The handlers that may have deferred their request. *)
Definition deferred_by (th : thread) : nat :=
  match th with
  | THandler _ _ (RqLock1 _ | RqLock2 _ | RqRet) => 1
  | _ => 0
  end.

Definition deferrals (w : World) : nat := sum_list_with deferred_by (w_threads w).

(** No array of deferred requests is longer than [L]. *)
Definition deff_le (L : nat) (s : Server) : Prop :=
  ∀ p v, sv_lockvar_list s !! p = Some v → (length (default [] (lv_deffered v)) ≤ L)%nat.

Definition deff_bounded (w : World) : Prop :=
  ∀ j s, w_servers w !! j = Some s → deff_le (deferrals w) s.

Definition is_start (l : label) : bool := match l with Start _ _ => true | _ => false end.

(** The acquire calls of an execution. *)
Definition starts (ls : list label) : nat := length (filter is_start ls).

(** The steps of [k] acquisitions with at most [m] peers each. *)
Definition run_bound (k m : nat) : nat := k * (12 * m + 2 * (k * m) + 14).

(** ** Lemmas *)

(** *** Sums over the threads *)

Lemma sum_mono {A} (f g : A → nat) l :
  (∀ x, (f x ≤ g x)%nat) → (sum_list_with f l ≤ sum_list_with g l)%nat.
Proof. intros Hfg. induction l as [|x l IH]; simpl; [done|]. specialize (Hfg x). lia. Qed.

Lemma deferrals_requests w : (deferrals w ≤ requests w)%nat.
Proof. apply sum_mono. intros [j n pc|j pack pc]; simpl; [lia|]. destruct pc; lia. Qed.

(** *** Arrays of deferred requests *)

Lemma deff_le_mono L L' s : (L ≤ L')%nat → deff_le L s → deff_le L' s.
Proof. intros HL Hs p v Hp. specialize (Hs p v Hp). lia. Qed.

Lemma deff_le_some s : ∃ L, deff_le L s.
Proof.
  exists (max_list ((λ v, length (default [] (lv_deffered v))) <$> sv_lockvar_list s)).
  intros p v Hp. apply max_list_elem_of_le, list_elem_of_fmap. eauto using list_elem_of_lookup_2.
Qed.

Lemma deff_le_put L s p v :
  deff_le L s → (length (default [] (lv_deffered v)) ≤ L)%nat → deff_le L (put_lv p v s).
Proof.
  intros Hs Hv q v' Hq. simpl in Hq.
  apply list_lookup_insert_Some in Hq as [(_ & <- & _)|[_ Hq]]; [done|by eapply Hs].
Qed.

Lemma deff_le_find L n b s p s' :
  deff_le L s → find_lockvar n b s = (p, s') → deff_le L s'.
Proof.
  unfold find_lockvar. intros Hs. destruct (lockvar_index _ _); [by intros [= _ <-]|].
  destruct b; intros [= _ <-]; [|done]. intros q v Hq. simpl in Hq.
  apply lookup_app_Some in Hq as [Hq|[_ Hq]]; [by eapply Hs|].
  apply list_lookup_singleton_Some in Hq as [_ <-]. simpl. lia.
Qed.

(** *** One step of a procedure *)

(** A step of a procedure keeps the list of nodes and the process, and makes
    no deferred array longer than [M]. *)
Record kept (M M' : nat) (s s' : Server) : Prop := {
  kp_nodes : sv_nodes s' = sv_nodes s;
  kp_alive : sv_alive s' = sv_alive s;
  kp_deff : deff_le M s → deff_le M' s'
}.

Lemma kept_refl M M' s : (M ≤ M')%nat → kept M M' s s.
Proof. intros. split; [done..|]. by apply deff_le_mono. Qed.

Lemma kept_mutex M m k s : kept M M s (put_mutex m k s).
Proof. by split. Qed.

Lemma kept_find M n b s p s' : find_lockvar n b s = (p, s') → kept M M s s'.
Proof.
  intros Hf. split; [| |intros Hs; by eapply deff_le_find];
    revert Hf; unfold find_lockvar; destruct (lockvar_index _ _); try (by intros [= _ <-]);
    by destruct b; intros [= _ <-].
Qed.

Lemma kept_put M M' s p v :
  (M ≤ M')%nat → (deff_le M s → (length (default [] (lv_deffered v)) ≤ M')%nat) →
  kept M M' s (put_lv p v s).
Proof.
  intros HM Hv. split; [done..|]. intros Hs. apply deff_le_put; [by eapply deff_le_mono|by apply Hv].
Qed.

#[local] Hint Resolve kept_refl kept_mutex : core.
#[local] Hint Extern 1 (_ ≤ _)%nat => lia : core.

(** Solve [kept] for a write that does not grow the array of [v]. *)
Ltac put_same := apply kept_put; [lia|]; intros Hs; simpl; first [by eapply Hs|lia].

Lemma acquire_step_shrinks L s n pc s' pc' :
  acquire_step s n pc = Some (s', Goto pc') →
  (∀ M, kept M M s s') ∧ (calls_left (length (sv_nodes s)) pc' ≤ calls_left (length (sv_nodes s)) pc)%nat ∧
  (session_steps L pc' < session_steps L pc)%nat.
Proof.
  destruct pc; cbn [acquire_step]; intros Hst; try done.
  { destruct (find_lockvar n true s) as [[p|] s2] eqn:Hf; simplify_eq.
    split_and!; [intros M; by eapply kept_find|simpl; lia..]. }
  all: apply bind_Some in Hst as (v & Hv & Hst).
  - destruct (lv_lock v); simplify_eq. split_and!; [intros M; put_same|simpl; lia..].
  - simplify_eq. split_and!; [intros M; put_same|simpl; lia..].
  - simplify_eq. split_and!; [by auto|simpl; lia..].
  - destruct (int_add h 1); simplify_eq; split_and!; try (simpl; lia); [intros M; put_same|by auto].
  - destruct (sv_nodes s !! i) eqn:Hi; simplify_eq. split_and!; [by auto|simpl; lia..].
Qed.

Lemma acquire_step_calls s n pc s' host pack k :
  acquire_step s n pc = Some (s', CallRequest host pack k) →
  ∃ p i, pc = AqLoop p i ∧ s' = s ∧ (i < length (sv_nodes s))%nat ∧ k = AqCall p i.
Proof.
  destruct pc; cbn [acquire_step]; intros Hst; try done.
  { by destruct (find_lockvar n true s) as [[p|] s2]. }
  all: apply bind_Some in Hst as (v & Hv & Hst); simplify_eq.
  - by destruct (lv_lock v).
  - by destruct (int_add h 1).
  - destruct (sv_nodes s !! i) eqn:Hi; simplify_eq. eauto 10 using lookup_lt_Some.
Qed.

Lemma release_step_shrinks L s n pc s' a :
  deff_le L s → release_step s n pc = Some (s', a) →
  (a = Abort ∧ s' = s ∧ pc = RlFind) ∨
  ∃ pc', a = Goto pc' ∧ (∀ M, kept M M s s') ∧ calls_left (length (sv_nodes s)) pc' = 0%nat ∧
  (session_steps L pc' < session_steps L pc)%nat.
Proof.
  intros HL. destruct pc; cbn [release_step]; intros Hst; try done.
  { destruct (find_lockvar n false s) as [[p|] s2] eqn:Hf; simplify_eq.
    2: { left. unfold find_lockvar in Hf. by destruct (lockvar_index _ _); simplify_eq. }
    right. eexists. split_and!; [done|intros M; by eapply kept_find|done|simpl; lia]. }
  all: right; apply bind_Some in Hst as (v & Hv & Hst).
  - destruct (lv_deffered v) as [d|] eqn:Hd; [destruct (d !! i) as [m|] eqn:Hi|].
    + apply bind_Some in Hst as (k & Hk & Hst). simplify_eq.
      eexists. split_and!; [done|by auto|done|simpl; lia].
    + simplify_eq. eexists. split_and!; [done|by auto|done|simpl; lia].
    + simplify_eq. eexists. split_and!; [done|by auto|done|simpl; lia].
  - destruct (lv_deffered v ≫= _) as [m|] eqn:Hi.
    + apply bind_Some in Hst as (k & Hk & Hst). apply bind_Some in Hi as (d & Hd & Hi).
      simplify_eq. eexists. split_and!; [done|by auto|done|]. simpl.
      specialize (HL p v Hv). rewrite Hd in HL. simpl in HL. apply lookup_lt_Some in Hi. lia.
    + simplify_eq. eexists. split_and!; [done|by auto|done|simpl; lia].
  - simplify_eq. eexists. split_and!; [done|intros M; put_same|done|simpl; lia].
  - simplify_eq. eexists. split_and!; [done|intros M; put_same|done|simpl; lia].
  - simplify_eq. eexists. split_and!; [done|intros M; put_same|done|simpl; lia].
Qed.

Lemma request_step_shrinks M t j s pack pc s' pc' :
  request_step t s pack pc = Some (s', pc') →
  kept (M + deferred_by (THandler j pack pc)) (M + deferred_by (THandler j pack pc')) s s' ∧
  (handler_weight pc' < handler_weight pc)%nat.
Proof.
  destruct pc; cbn [request_step]; intros Hst; try done.
  { destruct (find_lockvar _ true s) as [[p|] s2] eqn:Hf; simplify_eq.
    split; [by eapply kept_find|simpl; lia]. }
  all: try (apply bind_Some in Hst as (v & Hv & Hst)); simplify_eq; simpl.
  - split; [by auto|simpl; lia].
  - split; [put_same|simpl; lia].
  - destruct (lv_requesting_cs v); (split; [by auto|simpl; lia]).
  - destruct (_ <? _); (split; [by auto|simpl; lia]).
  - destruct (_ && _); (split; [by auto|simpl; lia]).
  - split; [by auto|simpl; lia].
  - destruct (lv_deffered v) as [d|] eqn:Hd; simplify_eq; (split; [|simpl; lia]); [|by auto].
    apply kept_put; [lia|]. intros Hs. specialize (Hs p v Hv). rewrite Hd in Hs. simpl in *.
    rewrite length_app. simpl. lia.
  - apply bind_Some in Hst as (k' & Hk' & Hst). simplify_eq. split; [by auto|simpl; lia].
  - apply bind_Some in Hst as (k' & Hk' & Hst). simplify_eq. split; [by auto|simpl; lia].
Qed.

(** A deferral is not undone. *)
Lemma request_step_deferred t j s pack pc s' pc' :
  request_step t s pack pc = Some (s', pc') →
  (deferred_by (THandler j pack pc) ≤ deferred_by (THandler j pack pc'))%nat.
Proof.
  destruct pc; cbn [request_step]; intros Hst; try done; try (simpl; lia);
    apply bind_Some in Hst as (v & _ & Hst).
  - apply bind_Some in Hst as (k & _ & Hst). by simplify_eq.
  - apply bind_Some in Hst as (k & _ & Hst). by simplify_eq.
Qed.

(** *** One step of the system *)

(** A thread weighs as much in any two systems whose nodes have the same peers. *)
Lemma weight_ext L w w' th :
  (∀ j, peers w' j = peers w j) → thread_weight L w' th = thread_weight L w th.
Proof. intros Hp. destruct th; simpl; by rewrite Hp. Qed.

Lemma requests_ext w w' th :
  (∀ j, peers w' j = peers w j) → thread_requests w' th = thread_requests w th.
Proof. intros Hp. destruct th; simpl; by rewrite ?Hp. Qed.

Lemma sum_ext {A} (f g : A → nat) l : (∀ x, f x = g x) → sum_list_with f l = sum_list_with g l.
Proof. intros Hfg. induction l as [|x l IH]; simpl; [done|]. by rewrite Hfg, IH. Qed.

Lemma peers_upd t th j s s' w j0 :
  w_servers w !! j = Some s → sv_nodes s' = sv_nodes s → sv_alive s' = sv_alive s →
  peers (upd t th j s' w) j0 = peers w j0.
Proof.
  intros Hs Hn Ha. unfold peers, live. destruct (decide (j0 = j)) as [->|Hne].
  - rewrite (upd_server_eq t th j s' s w), Hs by done. simpl. rewrite Ha. destruct (sv_alive s); [|done].
    simpl. by rewrite Hn.
  - by rewrite upd_server_ne.
Qed.

Lemma live_iff w j s : live w j = Some s ↔ w_servers w !! j = Some s ∧ sv_alive s = true.
Proof.
  unfold live. rewrite bind_Some. split.
  - intros (s0 & Hs & Ha). destruct (sv_alive s0) eqn:?; by simplify_eq.
  - intros [Hs Ha]. exists s. by rewrite Ha.
Qed.

(** The effect of a step on the measures. *)
Record progress (L : nat) (w w' : World) : Prop := {
  pg_deff : deff_bounded w';
  pg_requests : (requests w' ≤ requests w)%nat;
  pg_weight : (weight L w' < weight L w)%nat;
  pg_nodes : ∀ j s', w_servers w' !! j = Some s' →
    ∃ s, w_servers w !! j = Some s ∧ sv_nodes s' = sv_nodes s
}.

(** A thread and its server move. *)
Lemma upd_progress L w t j s s' th th' :
  deff_bounded w → w_threads w !! t = Some th → w_servers w !! j = Some s →
  (∀ M, kept (M + deferred_by th) (M + deferred_by th') s s') →
  (deferred_by th ≤ deferred_by th')%nat → (thread_requests w th' ≤ thread_requests w th)%nat →
  (thread_weight L w th' < thread_weight L w th)%nat →
  progress L w (upd t th' j s' w).
Proof.
  intros Hd Ht Hs Hk Hdb Hrq Hw.
  assert (∀ j0, peers (upd t th' j s' w) j0 = peers w j0) as Hp.
  { intros j0. eapply peers_upd; [done|apply (Hk 0%nat)..]. }
  pose proof (sum_insert deferred_by _ _ _ th' Ht) as Hsd.
  pose proof (sum_elem deferred_by _ _ _ Ht) as Hle.
  split.
  - intros j0 s0 Hs0. unfold deferrals in *. cbn [upd set_thread set_server w_threads] in *.
    apply upd_server_inv in Hs0 as [[-> ->]|[_ Hs0]].
    + specialize (Hd j s Hs). unfold deferrals in Hd.
      destruct (Hk (sum_list_with deferred_by (w_threads w) - deferred_by th)%nat) as [_ _ Hkd].
      eapply deff_le_mono; [|apply Hkd; eapply deff_le_mono; [|exact Hd]]; lia.
    + eapply deff_le_mono; [|by eapply Hd]. unfold deferrals. lia.
  - unfold requests. rewrite (sum_ext _ _ _ (λ x, requests_ext _ _ x Hp)).
    pose proof (sum_insert (thread_requests w) _ _ _ th' Ht). cbn. lia.
  - unfold weight. rewrite (sum_ext _ _ _ (λ x, weight_ext L _ _ x Hp)).
    pose proof (sum_insert (thread_weight L w) _ _ _ th' Ht). cbn. lia.
  - intros j0 s0 [[-> ->]|[_ ?]]%upd_server_inv; [|by eauto]. exists s. split; [done|apply (Hk 0%nat)].
Qed.

Lemma sum_lt {A} (f g : A → nat) l i x :
  (∀ y, (f y ≤ g y)%nat) → l !! i = Some x → (f x < g x)%nat →
  (sum_list_with f l < sum_list_with g l)%nat.
Proof.
  intros Hfg. revert i. induction l as [|y l IH]; intros [|i] Hi Hx; simplify_eq/=.
  - pose proof (sum_mono f g l Hfg). lia.
  - specialize (IH i Hi Hx). specialize (Hfg y). lia.
Qed.

(** A process ends at the step of a thread of its own. *)
Lemma die_progress L w t j s th n pc :
  deff_bounded w → th = TSession j n pc → w_threads w !! t = Some th → live w j = Some s →
  (0 < session_steps L pc)%nat →
  progress L w (set_server j (set_alive false s) w).
Proof.
  intros Hd Hth Ht [Hs Ha]%live_iff Hpos. set (w' := set_server _ _ w).
  assert (peers w' j = None) as Hj.
  { unfold peers, live. cbn. rewrite list_lookup_insert_eq by (by eapply lookup_lt_Some). done. }
  assert (∀ j0, peers w' j0 = None ∨ peers w' j0 = peers w j0) as Hp.
  { intros j0. destruct (decide (j0 = j)) as [->|Hne]; [by left|right].
    unfold peers, live. cbn. by rewrite list_lookup_insert_ne. }
  assert (∀ j0 s0, w_servers w' !! j0 = Some s0 → ∃ s1, w_servers w !! j0 = Some s1 ∧
    sv_nodes s0 = sv_nodes s1 ∧ sv_lockvar_list s0 = sv_lockvar_list s1) as Hsv.
  { intros j0 s0 [[-> ->]|[_ ?]]%set_server_lookup; eauto. }
  split.
  - intros j0 s0 (s1 & Hs1 & _ & Hl)%Hsv p v. rewrite Hl. by eapply Hd.
  - apply sum_mono. intros [j0 n0 pc0|j0 pack pc0]; simpl; [|done].
    destruct (Hp j0) as [->| ->]; [lia|done].
  - apply (sum_lt _ _ _ t th); [|done|].
    + intros [j0 n0 pc0|j0 pack pc0]; simpl; (destruct (Hp j0) as [->| ->]; [lia|done]).
    + rewrite Hth. simpl. rewrite Hj. unfold peers. rewrite (proj2 (live_iff w j s)) by done. cbn.
      unfold session_weight. lia.
  - intros j0 s0 (s1 & Hs1 & Hn & _)%Hsv. eauto.
Qed.

(** A session sends a request, and its handler starts. *)
Lemma call_progress L w t j s n p i j' pack :
  deff_bounded w → w_threads w !! t = Some (TSession j n (AqLoop p i)) → live w j = Some s →
  (i < length (sv_nodes s))%nat →
  progress L w (set_thread t (TSession j n (AqCall p i (length (w_threads w))))
                  (spawn (THandler j' pack RqFind) w)).
Proof.
  intros Hd Ht Hs Hi. set (th' := TSession _ _ _). set (w' := set_thread _ _ _).
  assert (∀ j0, peers w' j0 = peers w j0) as Hp by done.
  assert ((w_threads w ++ [THandler j' pack RqFind]) !! t = Some (TSession j n (AqLoop p i))) as Ht'
    by (by apply lookup_app_l_Some).
  assert (peers w j = Some (length (sv_nodes s))) as Hr by (unfold peers; by rewrite Hs).
  split.
  - intros j0 s0 Hs0. eapply deff_le_mono; [|by eapply Hd].
    pose proof (sum_insert deferred_by _ _ _ th' Ht') as Hsum.
    rewrite sum_list_with_app in Hsum. unfold deferrals. cbn in *. lia.
  - unfold requests. rewrite (sum_ext _ _ _ (λ x, requests_ext _ _ x Hp)).
    pose proof (sum_insert (thread_requests w) _ _ _ th' Ht') as Hsum.
    rewrite sum_list_with_app in Hsum. unfold th' in *. cbn in *. rewrite Hr in Hsum. lia.
  - unfold weight. rewrite (sum_ext _ _ _ (λ x, weight_ext L _ _ x Hp)).
    pose proof (sum_insert (thread_weight L w) _ _ _ th' Ht') as Hsum.
    rewrite sum_list_with_app in Hsum. unfold th', session_weight in *.
    cbn [thread_weight sum_list_with calls_left session_steps handler_weight] in Hsum.
    rewrite Hr in Hsum. cbn in *. destruct (peers w j'); lia.
  - eauto.
Qed.

Section termination.
Context (host_of : bytes → option nat).

(** A session inside one of its two procedures. *)
Lemma session_step_progress L w t j n pc s s' a :
  deff_bounded w → (requests w ≤ L)%nat →
  w_threads w !! t = Some (TSession j n pc) → live w j = Some s →
  session_step s n pc = Some (s', a) → progress L w (perform host_of t j n s' a w).
Proof.
  intros Hd HL Ht Hlv Hst. pose proof (proj1 (live_iff _ _ _) Hlv) as [Hs _].
  assert (peers w j = Some (length (sv_nodes s))) as Hr by (unfold peers; by rewrite Hlv).
  assert (deff_le L s) as Hle.
  { eapply deff_le_mono; [|by eapply Hd]. pose proof (deferrals_requests w). lia. }
  assert (∀ pc', (∀ M, kept M M s s') →
    (calls_left (length (sv_nodes s)) pc' ≤ calls_left (length (sv_nodes s)) pc)%nat →
    (session_steps L pc' < session_steps L pc)%nat →
    progress L w (perform host_of t j n s' (Goto pc') w)) as Hgoto.
  { intros pc' Hk Hc Hlt. eapply (upd_progress L w t j s s'); [done..| |done| |].
    - intros M. rewrite !Nat.add_0_r. apply Hk.
    - simpl. by rewrite Hr.
    - simpl. rewrite Hr. unfold session_weight. lia. }
  unfold session_step in Hst. destruct (acquire_step s n pc) as [[s1 a1]|] eqn:Haq; simplify_eq.
  - destruct a as [pc'|host pack k|].
    + destruct (acquire_step_shrinks L s n pc s' pc' Haq) as (? & ? & ?). by apply Hgoto.
    + destruct (acquire_step_calls _ _ _ _ _ _ _ Haq) as (p & i & -> & -> & Hi & ->). cbn [perform].
      destruct (reach host_of w host) as [j'|]; [by eapply call_progress|].
      eapply (die_progress L w t); [done..|simpl; lia].
    + by eapply acquire_no_abort in Haq.
  - destruct (release_step_shrinks L s n pc s' a Hle Hst) as [(-> & -> & ->)|(pc' & -> & ? & Hc & ?)].
    + eapply (die_progress L w t); [done..|simpl; lia].
    + apply Hgoto; [done|lia|done].
Qed.

(** Every step but the start of a session is progress. *)
Lemma exec_progress L w l w' :
  is_start l = false → deff_bounded w → (requests w ≤ L)%nat →
  exec host_of l w = Some w' → progress L w w'.
Proof.
  intros Hl Hd HL Hex.
  assert (∀ t j n pc pc' s, w_threads w !! t = Some (TSession j n pc) → live w j = Some s →
    (calls_left (length (sv_nodes s)) pc' = calls_left (length (sv_nodes s)) pc)%nat →
    (session_steps L pc' < session_steps L pc)%nat →
    progress L w (set_thread t (TSession j n pc') w)) as Hmove.
  { intros t j n pc pc' s Ht Hlv Hc Hlt. pose proof (proj1 (live_iff _ _ _) Hlv) as [Hs _].
    rewrite (upd_same_server t _ j s w Hs).
    eapply (upd_progress L w t j s s); [done|done|done|by auto|done|..]; simpl;
      unfold peers; rewrite Hlv; simpl; unfold session_weight; lia. }
  destruct l as [j n|t|t]; [done|..]; cbn [exec] in Hex;
    apply bind_Some in Hex as ([j n pc|j pack pc] & Ht & Hex).
  - apply bind_Some in Hex as (s & Hs & Hex). unfold run_session in Hex.
    destruct pc; try (destruct (session_step s n _) as [[s' a]|] eqn:Hst; simplify_eq;
      by eapply session_step_progress).
    + destruct (w_threads w !! callee) as [[|? ? []]|]; simplify_eq.
      eapply Hmove; [done..|simpl; lia|simpl; lia].
    + simplify_eq. eapply Hmove; [done..|simpl; lia].
  - apply bind_Some in Hex as (s & Hlv & Hex). unfold run_handler in Hex.
    destruct (request_step t s pack pc) as [[s' pc']|] eqn:Hst; simplify_eq.
    pose proof (proj1 (live_iff _ _ _) Hlv) as [Hs _].
    eapply (upd_progress L w t j s s'); [done|done|done|..].
    + intros M. by eapply request_step_shrinks.
    + by eapply request_step_deferred.
    + simpl. lia.
    + simpl. unfold peers. rewrite Hlv. simpl. by eapply (request_step_shrinks 0%nat t j).
  - destruct pc; try done. apply bind_Some in Hex as (s & Hs & Hex). simplify_eq.
    eapply Hmove; [done..|simpl; lia|simpl; lia].
  - done.
Qed.

Lemma spawn_sum (f : thread → nat) th w :
  sum_list_with f (w_threads (spawn th w)) = (sum_list_with f (w_threads w) + f th)%nat.
Proof. simpl. rewrite sum_list_with_app. simpl. lia. Qed.

Lemma exec_deff w l w' : deff_bounded w → exec host_of l w = Some w' → deff_bounded w'.
Proof.
  intros Hd He. destruct (is_start l) eqn:Hl.
  - destruct l as [j n| |]; [|done..]. cbn [exec] in He. apply bind_Some in He as (s & _ & He). simplify_eq.
    intros j0 s0 Hs0. eapply deff_le_mono; [|by eapply Hd]. unfold deferrals. rewrite spawn_sum. lia.
  - exact (pg_deff _ _ _ (exec_progress (requests w) w l w' Hl Hd (le_n _) He)).
Qed.

(** A new session brings the work of one acquisition and one release. *)
Lemma start_budget L m w j n w' :
  (∀ j s, w_servers w !! j = Some s → (length (sv_nodes s) ≤ m)%nat) →
  exec host_of (Start j n) w = Some w' → w_servers w' = w_servers w ∧ (requests w' ≤ requests w + m)%nat ∧
  (weight L w' ≤ weight L w + (12 * m + 2 * L + 13))%nat.
Proof.
  intros Hm Hex. cbn [exec] in Hex. apply bind_Some in Hex as (s & Hlv & Hex). simplify_eq.
  pose proof (proj1 (live_iff _ _ _) Hlv) as [Hs _]. specialize (Hm j s Hs).
  set (th := TSession j n AqFind).
  assert (peers w j = Some (length (sv_nodes s))) as Hr by (unfold peers; by rewrite Hlv).
  assert (∀ j0, peers (spawn th w) j0 = peers w j0) as Hp by done.
  split_and!; [done|..].
  - unfold requests. rewrite (sum_ext _ _ _ (λ x, requests_ext _ _ x Hp)), spawn_sum. simpl. rewrite Hr. lia.
  - unfold weight. rewrite (sum_ext _ _ _ (λ x, weight_ext L _ _ x Hp)), spawn_sum.
    cbn [thread_weight th]. rewrite Hr. unfold session_weight, calls_left, session_steps. lia.
Qed.

Lemma exec_all_bounded L m ls : ∀ w w',
  (∀ j s, w_servers w !! j = Some s → (length (sv_nodes s) ≤ m)%nat) →
  deff_bounded w → (requests w + starts ls * m ≤ L)%nat → exec_all host_of ls w = Some w' →
  (length ls ≤ weight L w + starts ls * (12 * m + 2 * L + 14))%nat.
Proof.
  induction ls as [|l ls IH]; intros w w' Hm Hd HL Hex; [simpl; lia|].
  cbn [exec_all] in Hex. apply bind_Some in Hex as (w1 & Hl & Hex).
  pose proof (exec_deff w l w1 Hd Hl) as Hd1.
  destruct (is_start l) eqn:Hst.
  - assert (starts (l :: ls) = S (starts ls)) as Hk by (unfold starts; by rewrite filter_cons_True by (by rewrite Hst)).
    destruct l as [j n| |]; [|done..].
    destruct (start_budget L m w j n w1 Hm Hl) as (Hs1 & Hrq & Hw).
    rewrite Hk in *.
    specialize (IH w1 w' ltac:(rewrite Hs1; exact Hm) Hd1 ltac:(lia) Hex). simpl. lia.
  - assert (starts (l :: ls) = starts ls) as Hk.
    { unfold starts. rewrite filter_cons_False by (rewrite Hst; intros []). done. }
    rewrite Hk in *. destruct (exec_progress L w l w1 Hst Hd) as [_ Hrq Hw Hn]; [lia|done|].
    assert (∀ j s, w_servers w1 !! j = Some s → (length (sv_nodes s) ≤ m)%nat) as Hm1
      by (intros j s (s0 & Hs0 & ->)%Hn; by eapply Hm).
    specialize (IH w1 w' Hm1 Hd1 ltac:(lia) Hex). simpl. lia.
Qed.

Lemma initial_deff w : initial host_of w → deff_bounded w.
Proof. intros Hi j s Hj p v. destruct (init_fresh _ _ Hi j s Hj) as [-> _]. by rewrite lookup_nil. Qed.

Lemma initial_requests w : initial host_of w → requests w = 0%nat.
Proof. intros Hi. unfold requests. by rewrite (init_threads _ _ Hi). Qed.

Lemma initial_weight L w : initial host_of w → weight L w = 0%nat.
Proof. intros Hi. unfold weight. by rewrite (init_threads _ _ Hi). Qed.

(** ** Termination *)

(** C6: There is no livelock: every execution from an initial state in which k acquire
    calls are made, each by a node with at most m peers, has at most k * (12 m + 2 k m +
    14) steps, whatever the interleaving and whatever RPCs fail; so the loops of
    acquire_lock_1_svc and release_lock_1_svc, whose bound grows while requests are
    deferred, always end. *)
Theorem executions_finite ls w0 w m :
  initial host_of w0 → (∀ j s, w_servers w0 !! j = Some s → (length (sv_nodes s) ≤ m)%nat) →
  exec_all host_of ls w0 = Some w →
  (length ls ≤ run_bound (starts ls) m)%nat.
Proof.
  intros Hi Hm Hex.
  pose proof (exec_all_bounded (starts ls * m) m ls w0 w Hm (initial_deff w0 Hi)) as Hlen.
  rewrite (initial_requests w0), (initial_weight _ w0) in Hlen by done.
  specialize (Hlen ltac:(lia) Hex). unfold run_bound. lia.
Qed.

(** ** Schedules *)

(** Some thread runs. *)
Definition run_step (w w' : World) : Prop := ∃ t, exec host_of (Run t) w = Some w'.

Lemma run_step_dec w : (∃ w', run_step w w') ∨ (∀ w', ¬ run_step w w').
Proof.
  destruct (decide (Exists (λ t, is_Some (exec host_of (Run t) w)) (seq 0 (length (w_threads w)))))
    as [Hx|Hx].
  - left. apply Exists_exists in Hx as (t & _ & w' & Hw). by exists w', t.
  - right. intros w' [t Ht]. apply Hx, Exists_exists. exists t. split; [|by eexists].
    apply elem_of_seq. simpl in Ht. apply bind_Some in Ht as (th & Hth & _).
    apply lookup_lt_Some in Hth. lia.
Qed.

Lemma run_step_progress w w' :
  deff_bounded w → run_step w w' → ∀ L, (requests w ≤ L)%nat → progress L w w'.
Proof. intros Hd [t Ht] L HL. exact (exec_progress L w (Run t) w' eq_refl Hd HL Ht). Qed.

End termination.

Section rest.
Context (host_of : bytes → option nat).

(** On every schedule the system comes to rest. *)
Theorem comes_to_rest ls w0 w :
  initial host_of w0 → exec_all host_of ls w0 = Some w →
  inevitably (run_step host_of) (λ w, ∀ w', ¬ run_step host_of w w') w.
Proof.
  intros Hi Hex. assert (deff_bounded w) as Hd.
  { pose proof (initial_deff host_of w0 Hi) as Hd. clear Hi. revert w0 Hd Hex.
    induction ls as [|l ls IH]; intros w0 Hd Hex; [by simplify_eq/=|].
    apply bind_Some in Hex as (w1 & Hl & Hex). eapply IH; [by eapply exec_deff|done]. }
  apply (inevitably_measure _ _ (λ x, deff_bounded x ∧ (requests x ≤ requests w)%nat)
    (weight (requests w))); [|done].
  intros x [Hx HL]. destruct (run_step_dec host_of x) as [Hrun|Hno]; [right|by left].
  split; [done|]. intros y Hy. destruct (run_step_progress host_of x y Hx Hy _ HL). split; [split; [done|lia]|done].
Qed.

End rest.

(** ** Witness *)

(** Node 0 acquires lock 1; node 1 asks for it, its RPC fails, and node 0's
    handler is left behind. *)
Definition finite_trace : list label := acquire0 ++ [Start 1 1] ++ runs 2 6 ++ [RpcFail 2] ++ runs 3 6.

Lemma executions_finite_witness : (length finite_trace ≤ run_bound 2 1)%nat.
Proof.
  apply (executions_finite host_of3 finite_trace w2 (default w2 (exec_all host_of3 finite_trace w2)) 1 w2_initial).
  - intros [|[|j]] s Hj; vm_compute in Hj; simplify_eq; vm_compute; lia.
  - vm_compute. reflexivity.
Defined.
