(* ===== verification/LockEntry.v ===== *)
(** * Servers that stay up, and locks that are entered

    The server exits when a peer's host cannot be resolved (create_client)
    and aborts when release_lock_1_svc does not find its variable.  Neither
    happens in a cluster whose hosts resolve.  With termination and freedom
    from deadlock this gives liveness on every schedule, fair or not. *)

From S2P Require Import Prelude CString LockMsg LockServer LockSystem LockSafety LockScenarios LockWitness LockOrder LockTyping LockDeadlock LockTermination.

(** ** Definitions *)

(** A session past [pthread_mutex_lock] owns the mutex of its variable. *)
Definition owners_lock (w : World) : Prop :=
  ∀ t j n pc s, w_threads w !! t = Some (TSession j n pc) → in_section pc = true →
    w_servers w !! j = Some s → lv_lock (view s n) = true.

Section entry.
Context (host_of : bytes → option nat).

(** Every host in a node list is one of the cluster's nodes. *)
Definition hosts_resolve (w : World) : Prop :=
  ∀ j s a, w_servers w !! j = Some s → a ∈ sv_nodes s →
    ∃ j', host_of a = Some j' ∧ is_Some (w_servers w !! j').

(** A session for the lock has run into undefined behaviour, which is the
    overflow of its sequence number. *)
Definition overflowed (n : Z) (w : World) : Prop :=
  ∃ t j, w_threads w !! t = Some (TSession j n SUndef).

(** Lock [n] is held, or something that can keep it from being held has
    happened: interleaving inside line 170, a request judged between lines 125
    and 126, or an overflow. *)
Definition entered (n : Z) (w : World) : Prop :=
  (∃ t, holds w t n) ∨ ¬ max_exclusive w ∨ ¬ numbering_atomic n w ∨ overflowed n w.

(** ** Lemmas *)

(** *** Servers stay up *)

(** The variable of a lock that a session owns exists, so the assertion in
    [release_lock_1_svc] holds. *)
Lemma locked_found s n : lv_lock (view s n) = true → ∃ p, find_lockvar n false s = (Some p, s).
Proof.
  unfold view, find_lockvar. destruct (lockvar_index n (sv_lockvar_list s)) as [p|]; [by eauto|done].
Qed.

Lemma reach_up w j s a :
  hosts_resolve w → all_alive w → w_servers w !! j = Some s → a ∈ sv_nodes s →
  is_Some (reach host_of w a).
Proof.
  intros Hr Hal Hs Ha. destruct (Hr j s a Hs Ha) as (j' & Hh & s' & Hs').
  unfold reach. rewrite Hh. simpl. rewrite Hs'. simpl. rewrite (Hal j' s' Hs'). by eexists.
Qed.

(** All servers run, and the node lists resolve. *)
Definition up (w : World) : Prop := all_alive w ∧ hosts_resolve w.

Lemma up_upd w t th j s s' :
  up w → w_servers w !! j = Some s → sv_nodes s' = sv_nodes s → sv_alive s' = sv_alive s →
  up (upd t th j s' w).
Proof.
  intros [Hal Hr] Hs Hn Ha.
  assert (∀ j0, is_Some (w_servers w !! j0) → is_Some (w_servers (upd t th j s' w) !! j0)) as Hdom.
  { intros j0 [s0 Hs0]. destruct (decide (j0 = j)) as [->|Hne];
      [erewrite upd_server_eq by done|rewrite upd_server_ne by done]; eauto. }
  split.
  - intros j0 s0 [[-> ->]|[_ Hs0]]%upd_server_inv; [rewrite Ha; by eapply Hal|by eapply Hal].
  - intros j0 s0 a Hs0 Hin.
    assert (∃ s1, w_servers w !! j0 = Some s1 ∧ a ∈ sv_nodes s1) as (s1 & Hs1 & Hin1).
    { apply upd_server_inv in Hs0 as [[-> ->]|[_ Hs0]]; [|by eauto].
      exists s. split; [done|]. by rewrite <-Hn. }
    destruct (Hr j0 s1 a Hs1 Hin1) as (j' & ? & ?). eauto.
Qed.

Lemma up_spawn w th : up w → up (spawn th w).
Proof. done. Qed.

Lemma up_set_thread w t th : up w → up (set_thread t th w).
Proof. done. Qed.

Lemma session_step_up w t j n pc s s' a :
  up w → owners_lock w → w_threads w !! t = Some (TSession j n pc) → w_servers w !! j = Some s →
  session_step s n pc = Some (s', a) → up (perform host_of t j n s' a w).
Proof.
  intros Hup Ho Ht Hs Hst. unfold session_step in Hst.
  destruct (acquire_step s n pc) as [[s1 a1]|] eqn:Haq; simplify_eq.
  - destruct a as [pc'|host pack k|]; [| |by eapply acquire_no_abort in Haq].
    + destruct (acquire_step_shrinks 0 s n pc s' pc' Haq) as ([? ? _]%(λ H, H 0%nat) & _).
      by eapply up_upd.
    + assert (s' = s ∧ host ∈ sv_nodes s) as [-> Hin].
      { destruct pc; cbn [acquire_step] in Haq; try done.
        { by destruct (find_lockvar n true s) as [[p|] s2]. }
        all: apply bind_Some in Haq as (v & _ & Haq); repeat case_match; simplify_eq.
        split; [done|by eapply list_elem_of_lookup_2]. }
      destruct Hup as [Hal Hr]. destruct (reach_up w j s host Hr Hal Hs Hin) as [j' Hj']. simpl. by rewrite Hj'.
  - destruct (deff_le_some s) as [L HL].
    destruct (release_step_shrinks L s n pc s' a HL Hst) as [(-> & -> & ->)|Hx].
    + exfalso. destruct (locked_found s n) as [p Hp]; [by eapply Ho|].
      unfold release_step in Hst. rewrite Hp in Hst. done.
    + destruct Hx as (pc' & -> & [? ? _]%(λ H, H 0%nat) & _). by eapply up_upd.
Qed.

Lemma exec_up w l w' : up w → owners_lock w → exec host_of l w = Some w' → up w'.
Proof.
  intros Hup Ho Hex. destruct l as [j n|t|t]; cbn [exec] in Hex.
  - apply bind_Some in Hex as (s & _ & Hex). by simplify_eq.
  - apply bind_Some in Hex as ([j n pc|j pack pc] & Ht & Hex);
      apply bind_Some in Hex as (s & Hs%live_Some & Hex).
    + unfold run_session in Hex.
      destruct pc; try (destruct (session_step s n _) as [[s' a]|] eqn:Hst; simplify_eq;
        by eapply session_step_up).
      * destruct (w_threads w !! callee) as [[|? ? []]|]; by simplify_eq.
      * by simplify_eq.
    + unfold run_handler in Hex. destruct (request_step t s pack pc) as [[s' pc']|] eqn:Hst; simplify_eq.
      destruct (request_step_shrinks 0 t j s pack pc s' pc' Hst) as [[? ? _] _]. by eapply up_upd.
  - apply bind_Some in Hex as ([j n pc|j pack pc] & Ht & Hex); [|done].
    destruct pc; try done. apply bind_Some in Hex as (s & _ & Hex). by simplify_eq.
Qed.


Lemma Inv_owners w : Inv host_of w → owners_lock w.
Proof.
  intros HI t j n pc s Ht Hsec Hs. destruct (inv_sess _ _ HI _ _ _ _ Ht) as (s1 & Hs1 & _ & Hl & _).
  assert (s1 = s) as -> by congruence. by apply Hl.
Qed.


(** *** Deciding what a state is *)

Lemma all_below (P : nat → Prop) N :
  (∀ i, P i ∨ ¬ P i) → (∀ i, (N ≤ i)%nat → P i) → (∀ i, P i) ∨ ¬ ∀ i, P i.
Proof.
  intros Hem Hge.
  assert ((∀ i, (i < N)%nat → P i) ∨ ¬ ∀ i, (i < N)%nat → P i) as [Hlt|Hno].
  { clear Hge. induction N as [|N [IH|IH]]; [left; lia| |].
    - destruct (Hem N) as [HN|HN]; [left|right; intros Hall; apply HN, Hall; lia].
      intros i Hi. destruct (decide (i = N)) as [->|]; [done|apply IH; lia].
    - right. intros Hall. apply IH. intros i Hi. apply Hall. lia. }
  - left. intros i. destruct (decide (i < N)%nat); [by apply Hlt|apply Hge; lia].
  - right. intros Hall. apply Hno. intros i _. apply Hall.
Qed.

(** A relation between the threads of a system can be decided. *)
Lemma all_threads (w : World) (P : nat → option thread → nat → option thread → Prop) :
  (∀ t1 o1 t2 o2, P t1 o1 t2 o2 ∨ ¬ P t1 o1 t2 o2) →
  (∀ t1 t2 o, P t1 None t2 o) → (∀ t1 o t2, P t1 o t2 None) →
  (∀ t1 t2, P t1 (w_threads w !! t1) t2 (w_threads w !! t2)) ∨
  ¬ ∀ t1 t2, P t1 (w_threads w !! t1) t2 (w_threads w !! t2).
Proof.
  intros Hem H1 H2. apply (all_below _ (length (w_threads w))).
  - intros t1. apply (all_below _ (length (w_threads w))); [done|].
    intros t2 Ht2. by rewrite (lookup_ge_None_2 _ t2).
  - intros t1 Ht1 t2. by rewrite (lookup_ge_None_2 _ t1).
Qed.

Lemma max_exclusive_dec w : max_exclusive w ∨ ¬ max_exclusive w.
Proof.
  destruct (all_threads w (λ t1 o1 t2 o2, ∀ j pack1 pack2 p1 p2 z1 z2,
    o1 = Some (THandler j pack1 (RqWriteMax p1 z1)) → o2 = Some (THandler j pack2 (RqWriteMax p2 z2)) →
    rp_lock_number pack1 = rp_lock_number pack2 → t1 = t2)) as [Hall|Hno].
  - intros t1 o1 t2 o2. destruct (decide (t1 = t2)) as [->|Hne]; [by left|].
    destruct o1 as [[|j1 pack1 []]|]; try (left; intros; by simplify_eq).
    destruct o2 as [[|j2 pack2 []]|]; try (left; intros; by simplify_eq).
    destruct (decide (j1 = j2 ∧ rp_lock_number pack1 = rp_lock_number pack2)) as [[-> Hn]|Hn];
      [right; intros Hall; by eapply Hne, Hall|left; intros; simplify_eq]. by destruct Hn.
  - done.
  - done.
  - left. intros t1 t2 j pack1 pack2 p1 p2 z1 z2. apply Hall.
  - right. intros Hx. apply Hno. intros t1 t2 j pack1 pack2 p1 p2 z1 z2. apply Hx.
Qed.

Lemma numbering_atomic_dec n w : numbering_atomic n w ∨ ¬ numbering_atomic n w.
Proof.
  destruct (all_threads w (λ t1 o1 t2 o2, ∀ j pack pc pc',
    o1 = Some (THandler j pack pc) → rp_lock_number pack = n → comparing pc = true →
    o2 = Some (TSession j n pc') → numbering pc' = false)) as [Hall|Hno].
  - intros t1 o1 t2 o2.
    destruct o1 as [[|j1 pack1 pc1]|]; try (left; intros; by simplify_eq).
    destruct o2 as [[j2 n2 pc2|]|]; try (left; intros; by simplify_eq).
    destruct (numbering pc2) eqn:Hnum; [|left; intros; by simplify_eq].
    destruct (decide (j1 = j2 ∧ rp_lock_number pack1 = n ∧ n2 = n ∧ comparing pc1 = true)) as [(-> & ? & -> & ?)|Hn].
    + right. intros Hall. specialize (Hall _ _ _ _ eq_refl ltac:(done) ltac:(done) eq_refl). congruence.
    + left. intros. simplify_eq. by destruct Hn.
  - done.
  - done.
  - left. intros t1 t2 j pack pc pc'. apply Hall.
  - right. intros Hx. apply Hno. intros t1 t2 j pack pc pc'. apply Hx.
Qed.

Lemma session_at_dec n pc w :
  (∃ t j, w_threads w !! t = Some (TSession j n pc)) ∨ ¬ ∃ t j, w_threads w !! t = Some (TSession j n pc).
Proof.
  destruct (decide (Exists (λ th, match th with
    | TSession _ n' pc' => bool_decide (n' = n ∧ pc' = pc)
    | _ => false
    end = true) (w_threads w))) as [Hx|Hx]; rewrite Exists_exists in Hx.
  - left. destruct Hx as ([j n' pc'|] & [t Ht]%list_elem_of_lookup & HP); [|done].
    apply bool_decide_eq_true in HP as [-> ->]. eauto.
  - right. intros (t & j & Ht). apply Hx. exists (TSession j n pc).
    split; [by eapply list_elem_of_lookup_2|by apply bool_decide_eq_true].
Qed.

Lemma entered_dec n w : entered n w ∨ ¬ entered n w.
Proof.
  unfold entered, overflowed, holds.
  destruct (session_at_dec n Held w), (session_at_dec n SUndef w), (max_exclusive_dec w),
    (numbering_atomic_dec n w); tauto.
Qed.

(** *** Entry *)

(** While nobody holds the lock a step does not release it. *)
Lemma run_first_use n w w' :
  Inv host_of w → first_use n w → ¬ (∃ t, holds w t n) → ¬ overflowed n w' →
  run_step host_of w w' → first_use n w'.
Proof.
  intros HI Hf Hno Hov [t He].
  assert (∀ w1 w2 : World, first_use n w1 → ¬ (∃ t, holds w1 t n) → ¬ overflowed n w2 →
    wstep host_of w1 w2 → first_use n w2) as Hw.
  { clear. intros w w' Hf Hno Hov Hw t j pc Ht. destruct (acquiring pc) eqn:Ha; [done|exfalso].
    destruct Hw as [t1 j1 n1 pc1 pc' s s' Ht1 Hj Hm|t1 j1 pack pc1 pc' s s' Ht1 Hj Hfr Hp Hl|th Hth|j1 s Hj].
    - apply upd_thread_inv in Ht as [[-> [= -> -> ->]]|[_ Ht]]; [|by rewrite (Hf _ _ _ Ht) in Ha].
      pose proof (Hf _ _ _ Ht1) as Hacq.
      assert (pc1 = Held ∨ pc' = SUndef) as [->| ->].
      { destruct Hm as [pc1 pc' s' _ _ Hl| | |]; [|done|done|by left].
        inversion Hl; simplify_eq/=; auto; done. }
      + apply Hno. by exists t1, j1.
      + apply Hov. exists t1, j1. by eapply upd_thread_eq.
    - apply upd_thread_inv in Ht as [[_ ?]|[_ Ht]]; [done|by rewrite (Hf _ _ _ Ht) in Ha].
    - apply lookup_snoc_Some in Ht as [Ht|[_ ->]]; [by rewrite (Hf _ _ _ Ht) in Ha|].
      by destruct Hth as [-> _].
    - by rewrite (Hf _ _ _ Ht) in Ha. }
  destruct (exec_cases _ w (Run t) w' HI eq_refl He) as [[Hs _]|Hc]; [by eapply Hw|].
  destruct (call_step_wsteps _ _ _ Hc) as (jc & pk & Hth & H1 & H2).
  eapply (Hw (spawn _ w)); [by apply spawn_first_use| |done|done].
  intros (t0 & j0 & [Ht0|[_ ?]]%lookup_snoc_Some); [|done]. apply Hno. by exists t0, j0.
Qed.

Lemma run_session_stays n w w' t j pc :
  Inv host_of w → run_step host_of w w' → w_threads w !! t = Some (TSession j n pc) →
  ∃ pc', w_threads w' !! t = Some (TSession j n pc').
Proof.
  intros HI [t1 He] Ht.
  destruct (exec_cases _ w (Run t1) w' HI eq_refl He) as [[Hw _]|Hc].
  - destruct (wstep_session host_of n _ _ _ _ _ Hw Ht) as [?|(? & ? & ? & ? & _)]; eauto.
  - destruct (call_step_wsteps _ _ _ Hc) as (jc & pk & Hth & _ & Hw).
    apply (lookup_app_l_Some _ [THandler jc pk RqFind]) in Ht.
    destruct (wstep_session host_of n (spawn _ w) _ t j pc Hw Ht) as [?|(? & ? & ? & ? & _)]; eauto.
Qed.

(** What is kept along the schedules of [lock_entered]. *)
Record waiting (n : Z) (L : nat) (w : World) : Prop := {
  wa_inv : Inv host_of w ∧ Waits n w;
  wa_up : up w;
  wa_deff : deff_bounded w;
  wa_requests : (requests w ≤ L)%nat;
  wa_session : ∃ t j pc, w_threads w !! t = Some (TSession j n pc)
}.

Lemma reach_waits_up n w0 w :
  initial host_of w0 → all_alive w0 → hosts_resolve w0 → rtc (step_first host_of n) w0 w →
  (Inv host_of w ∧ Waits n w) ∧ up w ∧ deff_bounded w.
Proof.
  intros Hi Hal Hr.
  apply (rtc_invariant _ (λ w, (Inv host_of w ∧ Waits n w) ∧ up w ∧ deff_bounded w)).
  - intros a b ([HI HW] & Hup & Hd) Hs. pose proof Hs as ((Hex & Hst) & _ & _).
    pose proof Hst as (l & Hl & He). split_and!.
    + by eapply Inv_step.
    + by eapply Waits_step.
    + eapply exec_up; [done|by apply Inv_owners|done].
    + by eapply exec_deff.
  - split_and!; [by apply Inv_initial|by eapply Waits_initial|done|by eapply initial_deff].
Qed.

Lemma waiting_step n L w w' :
  waiting n L w → ¬ entered n w → ¬ overflowed n w' → run_step host_of w w' → waiting n L w'.
Proof.
  intros [[HI HW] Hup Hd HL Hs] Hne Hov Hst. unfold entered in Hne.
  assert (max_exclusive w) as Hmx by (destruct (max_exclusive_dec w); tauto).
  assert (numbering_atomic n w) as Hat by (destruct (numbering_atomic_dec n w); tauto).
  destruct (run_step_progress host_of w w' Hd Hst L HL) as [Hd' HL' _ _].
  assert (first_use n w') as Hf by (eapply run_first_use; [done|apply (wt_first _ _ HW)|tauto|done|done]).
  pose proof Hst as [t He].
  assert (step host_of w w') as Hstep by (by exists (Run t)).
  split; [split|..].
  - by eapply Inv_step.
  - by eapply Waits_step.
  - eapply exec_up; [done|by apply Inv_owners|done].
  - done.
  - lia.
  - destruct Hs as (t0 & j0 & pc0 & Ht0). exists t0, j0. by eapply run_session_stays.
Qed.

Lemma waiting_runs n L w : waiting n L w → ¬ entered n w → ∃ w', run_step host_of w w'.
Proof.
  intros [[HI HW] [Hal _] _ _ (t & j & pc & Ht)] Hne.
  destruct (Waits_progress host_of n w t j pc HI HW Hal Ht) as [Hh|(t' & _ & w' & Hw')].
  - destruct Hne. by left.
  - by exists w', t'.
Qed.

(** C5: When a session has called acquire for a lock that nobody has released yet, in a
    cluster whose hosts resolve, then on every schedule, fair or not, some session
    enters the lock, unless two handlers interleave inside line 170, a request is judged
    between lines 125 and 126, or a sequence number overflows before that. *)
Theorem lock_entered n w0 w t j pc :
  initial host_of w0 → all_alive w0 → hosts_resolve w0 →
  rtc (step_first host_of n) w0 w → w_threads w !! t = Some (TSession j n pc) →
  inevitably (run_step host_of) (entered n) w.
Proof.
  intros Hi Hal Hr Hst Ht.
  apply (inevitably_measure _ (entered n) (λ x, entered n x ∨ waiting n (requests w) x) (weight (requests w))).
  - intros x [Hx|Hx]; [by left|]. destruct (entered_dec n x) as [He|Hne]; [by left|right].
    split; [by eapply waiting_runs|]. intros y Hy. split.
    + destruct (session_at_dec n SUndef y) as [Hov|Hov]; [left; by right; right; right|right].
      by eapply waiting_step.
    + destruct Hx as [_ _ Hd HL _]. by destruct (run_step_progress host_of x y Hd Hy _ HL).
  - right. destruct (reach_waits_up n w0 w Hi Hal Hr Hst) as (HIW & Hup & Hd). split; eauto.
Qed.

End entry.

(** ** Witnesses *)

Lemma w2_alive : all_alive w2.
Proof. intros [|[|j]] s Hj; vm_compute in Hj; simplify_eq; reflexivity. Qed.

Lemma w2_resolve : hosts_resolve host_of3 w2.
Proof.
  intros [|[|j]] s a Hj Ha; vm_compute in Hj; simplify_eq; simpl in Ha;
    apply list_elem_of_singleton in Ha as ->; eexists; (split; [vm_compute; reflexivity|]); vm_compute; eauto.
Qed.


Lemma lock_entered_witness :
  inevitably (run_step host_of3) (entered 1) (after competition w2).
Proof.
  apply (lock_entered host_of3 1 w2 (after competition w2) 2 1 (AqCall 0 0 3) w2_initial w2_alive w2_resolve).
  - apply (first_trace_rtc host_of3 1 competition w2 w2 w2_initial w2_no_self eq_refl (rtc_refl _ _)).
    vm_compute. reflexivity.
  - vm_compute. reflexivity.
Defined.
