(* ===== verification/LockFrame.v ===== *)
(** * Locks do not interfere with each other

    Every lock number has a variable of its own on each server, deferred
    mutexes of its own, and threads of its own; a step for one lock changes
    nothing of another and does not keep the other's threads from running. *)

From S2P Require Import Prelude CString LockMsg LockServer LockSystem LockSafety LockProgress LockScenarios LockWitness LockTyping.

(** ** Definitions *)

(** The lock that a thread works for. *)
Definition lock_of (th : thread) : Z :=
  match th with TSession _ n _ => n | THandler _ pack _ => rp_lock_number pack end.

(** The lock that a step works for. *)
Definition label_lock (w : World) (l : label) : option Z :=
  match l with
  | Start _ n => Some n
  | Run t | RpcFail t => lock_of <$> w_threads w !! t
  end.

(** What a server has of lock [n] is the same: the variable, and the mutexes
    of the handlers for it. *)
Record same_on (n : Z) (w : World) (j : nat) (s s' : Server) : Prop := {
  so_wf : sv_wf s';
  so_ptr : ∀ p, ptr s n p → ptr s' n p;
  so_view : view s' n = view s n;
  so_nodes : sv_nodes s' = sv_nodes s;
  so_mutex : ∀ t pack pc, w_threads w !! t = Some (THandler j pack pc) → rp_lock_number pack = n →
    sv_mutexes s' !! t = sv_mutexes s !! t
}.

(** Everything of lock [n] is the same. *)
Record same_lock (n : Z) (w w' : World) : Prop := {
  sl_servers : ∀ j s, w_servers w !! j = Some s → ∃ s', w_servers w' !! j = Some s' ∧ same_on n w j s s';
  sl_threads : ∀ t th, lock_of th = n → w_threads w' !! t = Some th ↔ w_threads w !! t = Some th
}.

(** ** Lemmas *)

Lemma same_on_refl n w j s : sv_wf s → same_on n w j s s.
Proof. by split. Qed.

(** A frame for another lock, when the mutexes of this one are kept. *)
Lemma frame_same_on m n w j s s' :
  frame m s s' → n ≠ m →
  (∀ t pack pc, w_threads w !! t = Some (THandler j pack pc) → rp_lock_number pack = n →
    sv_mutexes s' !! t = sv_mutexes s !! t) → same_on n w j s s'.
Proof. intros [Hwf Hptr Hoth Hn _ _] Hne Hm. split; auto. Qed.

Section independence.
Context (host_of : bytes → option nat).

Lemma upd_same_lock n w t th th' j s s' :
  Inv host_of w → w_threads w !! t = Some th → w_servers w !! j = Some s →
  lock_of th ≠ n → lock_of th' ≠ n → same_on n w j s s' → same_lock n w (upd t th' j s' w).
Proof.
  intros HI Ht Hs Hn Hn' Hso. split.
  - intros j0 s0 Hs0. destruct (decide (j0 = j)) as [->|Hne].
    + assert (s0 = s) as -> by congruence. exists s'. by erewrite upd_server_eq.
    + exists s0. rewrite upd_server_ne by done. split; [done|]. apply same_on_refl. exact (inv_wf _ _ HI _ _ Hs0).
  - intros t0 th0 Hth0. destruct (decide (t0 = t)) as [->|Hne]; [|by rewrite upd_thread_ne].
    erewrite upd_thread_eq by done. split; intros; simplify_eq.
Qed.

Lemma spawn_same_lock n w th : Inv host_of w → lock_of th ≠ n → same_lock n w (spawn th w).
Proof.
  intros HI Hn. split.
  - intros j s Hs. exists s. split; [done|]. apply same_on_refl. exact (inv_wf _ _ HI _ _ Hs).
  - intros t th0 Hth0. cbn. rewrite lookup_snoc_Some. naive_solver.
Qed.

Lemma die_same_lock n w j s :
  Inv host_of w → w_servers w !! j = Some s → same_lock n w (set_server j (set_alive false s) w).
Proof.
  intros HI Hs. split; [|done]. intros j0 s0 Hs0. destruct (decide (j0 = j)) as [->|Hne].
  - assert (s0 = s) as -> by congruence. exists (set_alive false s).
    split; [apply list_lookup_insert_eq; by eapply lookup_lt_Some|].
    pose proof (inv_wf _ _ HI _ _ Hs). by split.
  - exists s0. cbn. rewrite list_lookup_insert_ne by done. split; [done|].
    apply same_on_refl. exact (inv_wf _ _ HI _ _ Hs0).
Qed.

(** A session touches the mutexes of requests deferred for its own lock. *)
Lemma sess_local_mutexes nodes pc v h pc' v' h' t :
  sess_local nodes pc v h pc' v' h' → h' !! t = h !! t ∨ ∃ d, lv_deffered v = Some d ∧ t ∈ d.
Proof.
  inversion 1; subst; auto; destruct (decide (t = m)) as [->|Hne];
    try (left; by rewrite lookup_insert_ne); right; eauto using list_elem_of_lookup_2.
Qed.

(** A handler touches its own mutex. *)
Lemma hdl_local_mutexes t mac pack pc v h pc' v' h' t' :
  hdl_local t mac pack pc v h pc' v' h' →
  (∀ m, pc = RqLock1 m ∨ pc = RqLock2 m → m = t) → t' ≠ t → h' !! t' = h !! t'.
Proof.
  inversion 1; subst; intros Hm Hne; auto; try (by rewrite lookup_insert_ne);
    rewrite lookup_insert_ne; auto; intros ->; apply Hne; auto.
Qed.

Lemma session_same_on n w t j m pc pc' s s' :
  Inv host_of w → w_threads w !! t = Some (TSession j m pc) → w_servers w !! j = Some s → n ≠ m →
  frame m s s' →
  sess_local (sv_nodes s) pc (view s m) (sv_mutexes s) pc' (view s' m) (sv_mutexes s') →
  same_on n w j s s'.
Proof.
  intros HI Ht Hs Hne Hf Hl. eapply frame_same_on; [done..|]. intros t0 pack pc0 Ht0 Hn.
  destruct (sess_local_mutexes _ _ _ _ _ _ _ t0 Hl) as [?|(d & Hd & Hin)]; [done|].
  destruct (inv_deff _ _ HI _ _ _ _ _ Hs Hd Hin) as (pack' & pc1 & Ht1 & Hn'). congruence.
Qed.

Lemma perform_same_lock n w t j m pc s s' a :
  Inv host_of w → w_threads w !! t = Some (TSession j m pc) → w_servers w !! j = Some s → n ≠ m →
  session_step s m pc = Some (s', a) → same_lock n w (perform host_of t j m s' a w).
Proof.
  intros HI Ht Hs Hne Hst. destruct (inv_sess _ _ HI _ _ _ _ Ht) as (s0 & Hs0 & Hp & _).
  assert (s0 = s) as -> by congruence. pose proof (inv_wf _ _ HI _ _ Hs) as Hwf.
  destruct (session_step_cases _ _ _ _ _ Hwf Hp Hst) as [[-> ->]|[(p & i & host & -> & -> & ->)|(pc' & -> & Hf & _ & Hl)]].
  - by apply die_same_lock.
  - cbn [perform]. destruct (reach host_of w host) as [j'|]; [|by apply die_same_lock].
    set (h := THandler _ _ _).
    assert (lock_of h ≠ n) as Hh by (cbn; congruence).
    destruct (spawn_same_lock n w h HI Hh) as [Hsv Hth]. split; [exact Hsv|].
    intros t0 th0 Hth0. rewrite <-Hth by done. destruct (decide (t0 = t)) as [->|Hnt].
    + assert (w_threads (spawn h w) !! t = Some (TSession j m (AqLoop p i))) as Ht' by (by apply lookup_app_l_Some).
      rewrite Ht'. cbn [set_thread w_threads]. rewrite list_lookup_insert_eq by (by eapply lookup_lt_Some).
      split; intros; simplify_eq.
    + cbn [set_thread w_threads]. by rewrite list_lookup_insert_ne.
  - eapply (upd_same_lock n w t (TSession j m pc)); [done..|cbn; congruence|cbn; congruence|].
    by eapply session_same_on.
Qed.

Lemma exec_same_lock n w l w' m :
  Inv host_of w → exec host_of l w = Some w' → label_lock w l = Some m → n ≠ m → same_lock n w w'.
Proof.
  intros HI He Hm Hne. destruct l as [j n0|t|t]; cbn [exec label_lock] in *.
  - apply bind_Some in He as (s & _ & He). simplify_eq. apply spawn_same_lock; [done|cbn; congruence].
  - apply bind_Some in He as (th & Ht & He). rewrite Ht in Hm. simpl in Hm. injection Hm as Hm.
    destruct th as [j n0 pc|j pack pc]; cbn [lock_of] in Hm; subst;
      apply bind_Some in He as (s & Hs%live_Some & He).
    + assert (∀ pc', same_lock n w (set_thread t (TSession j m pc') w)) as Hquiet.
      { intros pc'. rewrite (upd_same_server t _ j s w Hs).
        eapply (upd_same_lock n w t (TSession j m pc)); [done..|cbn; congruence|cbn; congruence|].
        apply same_on_refl. exact (inv_wf _ _ HI _ _ Hs). }
      unfold run_session in He.
      destruct pc; try (destruct (session_step s m _) as [[s' a]|] eqn:Hst; simplify_eq;
        by eapply perform_same_lock).
      * destruct (w_threads w !! callee) as [[|? ? []]|]; by simplify_eq.
      * by simplify_eq.
    + unfold run_handler in He. destruct (request_step t s pack pc) as [[s' pc']|] eqn:Hst; simplify_eq.
      destruct (inv_hdl _ _ HI _ _ _ _ Ht) as (s1 & Hs1 & Hp & Hok). assert (s1 = s) as -> by congruence.
      destruct (request_step_local _ _ _ _ _ _ (inv_wf _ _ HI _ _ Hs) Hp Hst) as (Hf & _ & Hl).
      eapply (upd_same_lock n w t (THandler j pack pc)); [done..|cbn; congruence|cbn; congruence|].
      eapply frame_same_on; [done..|]. intros t0 pack0 pc0 Ht0 Hn.
      eapply hdl_local_mutexes; [done| |congruence].
      intros m0 [->| ->]; by destruct Hok.
  - apply bind_Some in He as (th & Ht & He). destruct th as [j n0 pc|]; [|done].
    destruct pc; try done. apply bind_Some in He as (s & Hs%live_Some & [= <-]).
    rewrite Ht in Hm. simpl in Hm. injection Hm as <-. rewrite (upd_same_server t _ j s w Hs).
    eapply (upd_same_lock n w t (TSession j n0 (AqCall p i callee))); [done..|cbn; congruence|cbn; congruence|].
    apply same_on_refl. exact (inv_wf _ _ HI _ _ Hs).
Qed.

(** *** Whether a thread can run *)

(** A step of a procedure through a pointer to the variable of lock [n] sees
    the same in both servers. *)
Ltac same_view Hwf Hso Hp :=
  rewrite (ptr_lookup _ _ _ (so_wf _ _ _ _ _ Hso) (so_ptr _ _ _ _ _ Hso _ Hp)), (so_view _ _ _ _ _ Hso);
  rewrite (ptr_lookup _ _ _ Hwf Hp); cbn [mbind option_bind].

Lemma session_step_enabled n w j s s' pc :
  sv_wf s → same_on n w j s s' → session_ptr s n pc →
  (∀ d m, lv_deffered (view s n) = Some d → m ∈ d → sv_mutexes s' !! m = sv_mutexes s !! m) →
  is_Some (session_step s n pc) → is_Some (session_step s' n pc).
Proof.
  intros Hwf Hso Hp Hmx. unfold session_step.
  destruct pc; cbn [session_ptr] in Hp; cbn [acquire_step release_step]; try done;
    try (same_view Hwf Hso Hp).
  - intros _. destruct (find_lockvar_create s' n (so_wf _ _ _ _ _ Hso)) as (q & s2 & -> & _). eauto.
  - by destruct (lv_lock (view s n)).
  - eauto.
  - eauto.
  - intros _. destruct (int_add h 1); eauto.
  - rewrite (so_nodes _ _ _ _ _ Hso). destruct (sv_nodes s !! i); eauto.
  - intros _. destruct (find_lockvar n false s') as [[q|] s2]; eauto.
  - destruct (lv_deffered (view s n)) as [d|] eqn:Hd; [|eauto].
    destruct (d !! i) as [m|] eqn:Hi; [|eauto].
    rewrite (Hmx d m) by eauto using list_elem_of_lookup_2. destruct (sv_mutexes s !! m); eauto.
  - destruct (lv_deffered (view s n)) as [d|] eqn:Hd; cbn [mbind option_bind]; [|eauto].
    destruct (d !! i) as [m|] eqn:Hi; [|eauto].
    rewrite (Hmx d m) by eauto using list_elem_of_lookup_2. destruct (sv_mutexes s !! m); eauto.
  - eauto.
  - eauto.
  - eauto.
Qed.

Lemma request_step_enabled w t j s s' pack pc :
  sv_wf s → same_on (rp_lock_number pack) w j s s' → handler_ok w t j s pack pc →
  w_threads w !! t = Some (THandler j pack pc) →
  is_Some (request_step t s pack pc) → is_Some (request_step t s' pack pc).
Proof.
  intros Hwf Hso [Hp Hok] Ht. pose proof (so_mutex _ _ _ _ _ Hso t pack pc Ht eq_refl) as Hmx.
  destruct pc; cbn [handler_ptr] in Hp; cbn [request_step]; try done;
    try (same_view Hwf Hso Hp); try (intros _; by eauto).
  - intros _. destruct (find_lockvar_create s' (rp_lock_number pack) (so_wf _ _ _ _ _ Hso)) as (q & s2 & -> & _). eauto.
  - intros _. destruct (lv_deffered _); eauto.
  - destruct Hok as (-> & _). by rewrite Hmx; destruct (sv_mutexes s !! t) as [k|]; [destruct k; eauto|].
  - destruct Hok as (-> & _). by rewrite Hmx; destruct (sv_mutexes s !! t) as [k|]; [destruct k; eauto|].
Qed.

Definition node_of (th : thread) : nat :=
  match th with TSession j _ _ | THandler j _ _ => j end.

Lemma same_lock_enabled n w w' t th s' :
  Inv host_of w → same_lock n w w' → w_threads w !! t = Some th → lock_of th = n →
  live w' (node_of th) = Some s' → is_Some (exec host_of (Run t) w) → is_Some (exec host_of (Run t) w').
Proof.
  intros HI [Hsv Hth] Ht Hn Hlv. cbn [exec]. pose proof (proj2 (Hth t th Hn) Ht) as Ht'.
  rewrite Ht, Ht'. cbn [mbind option_bind].
  destruct th as [j n0 pc|j pack pc]; cbn [lock_of node_of] in *; subst; rewrite Hlv; cbn [mbind option_bind];
    apply live_Some in Hlv; intros [w1 Hw1]; apply bind_Some in Hw1 as (s & Hs%live_Some & Hw1);
    destruct (Hsv _ _ Hs) as (s1 & Hs1 & Hso); assert (s1 = s') as -> by congruence.
  - destruct (inv_sess _ _ HI _ _ _ _ Ht) as (s0 & Hs0 & Hp & _). assert (s0 = s) as -> by congruence.
    assert (is_Some (session_step s n pc) → is_Some (session_step s' n pc)) as Hen.
    { eapply session_step_enabled; [exact (inv_wf _ _ HI _ _ Hs)|done..|].
      intros d m Hd Hin. destruct (inv_deff _ _ HI _ _ _ _ _ Hs Hd Hin) as (pack & pc1 & Ht1 & Hn1).
      by eapply so_mutex. }
    unfold run_session in *.
    destruct pc; try (destruct (session_step s n _) as [[s2 a]|]; [|done];
      destruct Hen as [[s3 a3] ->]; [by eexists|by eexists]).
    + destruct (inv_call _ _ HI _ _ _ _ _ _ _ Ht Hs) as (a & j' & hpc & _ & _ & Hc).
      pose proof Hc as Hc'. rewrite <-Hth in Hc' by done. rewrite Hc in Hw1. rewrite Hc'.
      destruct hpc; by eauto.
    + eauto.
  - destruct (inv_hdl _ _ HI _ _ _ _ Ht) as (s0 & Hs0 & Hok). assert (s0 = s) as -> by congruence.
    unfold run_handler in *. destruct (request_step t s pack pc) as [[s2 pc2]|] eqn:Hst; [|done].
    destruct (request_step_enabled w t j s s' pack pc (inv_wf _ _ HI _ _ Hs) Hso Hok Ht) as [[s3 pc3] ->];
      [by rewrite Hst; eexists|by eexists].
Qed.

(** C9: In a state reached without RPC failure and with line 170 executed by one handler
    at a time per node and lock, a step for one lock leaves everything of another lock
    as it is: its variable on every server, its threads and the mutexes of its deferred
    requests; and a thread of the other lock that could run before the step can run
    after it, as long as its server runs. So the lock manager's waiting for one lock
    does not block another. A call of create_client is part of one step here; the
    process-wide mutex that it takes and gives back is create_client_serial's subject.
    *)
Theorem locks_independent w0 w l w' m n :
  initial host_of w0 → rtc (step_excl host_of) w0 w → exec host_of l w = Some w' →
  label_lock w l = Some m → n ≠ m →
  same_lock n w w' ∧
  ∀ t th s', w_threads w !! t = Some th → lock_of th = n → live w' (node_of th) = Some s' →
    is_Some (exec host_of (Run t) w) → is_Some (exec host_of (Run t) w').
Proof.
  intros Hi Hr He Hl Hne. destruct (reach_Inv host_of w0 w Hi Hr) as [HI _].
  pose proof (exec_same_lock n w l w' m HI He Hl Hne) as Hs. split; [done|].
  intros t th s'. by apply same_lock_enabled.
Qed.

End independence.

(** ** Witness *)

(** Node 0 holds lock 1, node 1 waits for it, and node 1 asks for lock 2. *)
Definition other_lock : list label := acquire0 ++ request1 ++ [Start 1 2] ++ runs 4 6.

Lemma locks_independent_witness : ∃ w',
  exec host_of3 (Run 5) (after other_lock w2) = Some w' ∧ same_lock 1 (after other_lock w2) w' ∧
  is_Some (exec host_of3 (Run 0) w').
Proof.
  destruct (exec host_of3 (Run 5) (after other_lock w2)) as [w'|] eqn:He; [|vm_compute in He; discriminate He].
  exists w'. split; [reflexivity|].
  destruct (locks_independent host_of3 w2 (after other_lock w2) (Run 5) w' 2 1 w2_initial) as [Hs Hen].
  - apply w2_excl, after_rtc; vm_compute; reflexivity.
  - exact He.
  - vm_compute. reflexivity.
  - discriminate.
  - split; [exact Hs|].
    refine (Hen 0%nat (TSession 0 1 Held) (default (booted Crash) (w_servers w' !! 0%nat)) _ eq_refl _ _).
    + vm_compute. reflexivity.
    + vm_compute in He. injection He as <-. reflexivity.
    + eexists. vm_compute. reflexivity.
Defined.
