(* ===== verification/LockInit.v ===== *)
(** * Concurrent initializations of one server

    [init_lock_mgr_1_svc] of [psu_dist_lock_mgr_server.c] in small steps.  The
    server runs every call in a thread of its own, and the procedure splits
    its copy of the node string with [strtok], whose position is a static
    variable of the C library: a call [strtok(NULL, ",")] goes on in the string
    that the last [strtok] with a string left there, whichever thread passed
    it.  [LockServer.v] has the procedure as one function; here are its
    interleavings with other calls of itself, in which a call of [strtok] and
    an append to [nodes] are one step.  Neither is atomic in the code, so the
    interleavings here are some of those that occur: what they can do wrong
    (init_returns_early, init_loses_host) the code can, while the code can do
    more. *)

From S2P Require Import Prelude CString LockMsg LockServer LockSystem LockScenarios LockClient.

(** ** The procedure in small steps *)

(** Where a thread of [init_lock_mgr_1_svc] is: at its start; with [pch] the
    token its loop works on; at the [strtok(NULL, ",")] of the loop; at the
    assignment of [has_initialized]; returned; or in the failed assertion. *)
Inductive init_pc :=
| ItStart
| ItToken (pch : bytes)
| ItNext
| ItFlag
| ItRet
| ItAbort.

#[export] Instance init_pc_eq_dec : EqDecision init_pc.
Proof. solve_decision. Defined.

Definition set_nodes (l : list bytes) (s : Server) : Server :=
  mkServer l (sv_mac s) (sv_has_initialized s) (sv_lockvar_list s) (sv_mutexes s) (sv_alive s).
Definition set_initialized (s : Server) : Server :=
  mkServer (sv_nodes s) (sv_mac s) true (sv_lockvar_list s) (sv_mutexes s) (sv_alive s).

(** The threads, each with the node string of its call; the server's globals;
    and what is left of the string that [strtok]'s static position points
    into. *)
Record InitState := mkInit {
  in_save : bytes;
  in_server : Server;
  in_threads : list (bytes * init_pc)
}.

(** The loop's test: [pch] is a token, or [NULL] ends the loop.  At the end of
    the string the position stays there. *)
Definition on_token (r : option (bytes * bytes)) : bytes * init_pc :=
  match r with
  | Some (tok, rest) => (rest, ItToken tok)
  | None => ([], ItFlag)
  end.

(** One step of a thread: a call of [strtok], an append to [nodes] (or none,
    for a local address), or the assignment of [has_initialized].  [local_ips]
    is what [get_local_ip_addresses] found. *)
Definition init_step (local_ips : list bytes) (node_str : bytes) (save : bytes) (s : Server)
    (pc : init_pc) : option (bytes * Server * init_pc) :=
  match pc with
  | ItStart =>
      match local_ips with
      | [] => Some (save, set_alive false s, ItAbort)
      | _ => let (save', pc') := on_token (strtok COMMA (cterm node_str)) in Some (save', s, pc')
      end
  | ItToken pch =>
      if is_local pch local_ips then Some (save, s, ItNext)
      else Some (save, set_nodes (sv_nodes s ++ [pch]) s, ItNext)
  | ItNext => let (save', pc') := on_token (strtok COMMA save) in Some (save', s, pc')
  | ItFlag => Some (save, set_initialized s, ItRet)
  | ItRet | ItAbort => None
  end.

(** One step of thread [t]; nothing runs once the process has ended. *)
Definition init_run (local_ips : list bytes) (t : nat) (x : InitState) : option InitState :=
  if sv_alive (in_server x) then
    '(node_str, pc) ← in_threads x !! t;
    '(save, s, pc') ← init_step local_ips node_str (in_save x) (in_server x) pc;
    Some (mkInit save s (<[t := (node_str, pc')]> (in_threads x)))
  else None.

Definition init_runs (local_ips : list bytes) (x y : InitState) : Prop :=
  ∃ t, init_run local_ips t x = Some y.

(** A schedule: the thread of each step. *)
Fixpoint init_sched (local_ips : list bytes) (ts : list nat) (x : InitState) : option InitState :=
  match ts with
  | [] => Some x
  | t :: ts' => init_run local_ips t x ≫= init_sched local_ips ts'
  end.

(** [calls] have just been made on server [s]. *)
Definition init_calls (save : bytes) (s : Server) (calls : list bytes) : InitState :=
  mkInit save s ((λ c, (c, ItStart)) <$> calls).

Definition all_returned (x : InitState) : Prop := Forall (λ th, th.2 = ItRet) (in_threads x).

(** ** Termination *)

Definition pc_weight (th : bytes * init_pc) : nat :=
  match th.2 with
  | ItStart => 3 * length (cterm th.1) + 5
  | ItToken _ => 4
  | ItNext => 3
  | ItFlag => 2
  | ItRet | ItAbort => 0
  end.

(** Every step takes bytes off the saved string or a thread closer to its end. *)
Definition init_weight (x : InitState) : nat :=
  3 * length (in_save x) + sum_list_with pc_weight (in_threads x).

Section init.
Context (ips : list bytes).

Lemma on_token_length s save pc :
  on_token (strtok COMMA s) = (save, pc) → (3 * length save + pc_weight (s, pc) ≤ 3 * length s + 2)%nat.
Proof.
  destruct (strtok COMMA s) as [[t r]|] eqn:Ht; intros [= <- <-]; unfold pc_weight; simpl; [|lia].
  apply strtok_length in Ht. lia.
Qed.

Lemma pc_weight_str a b pc : pc ≠ ItStart → pc_weight (a, pc) = pc_weight (b, pc).
Proof. by destruct pc. Qed.

Lemma on_token_pc r save pc : on_token r = (save, pc) → pc ≠ ItStart.
Proof. by destruct r as [[]|]; intros [= <- <-]. Qed.

Lemma init_step_weight c save s pc save' s' pc' :
  init_step ips c save s pc = Some (save', s', pc') →
  (3 * length save' + pc_weight (c, pc') < 3 * length save + pc_weight (c, pc))%nat.
Proof.
  destruct pc as [|pch| | | |]; cbn [init_step]; intros Hs; [|repeat case_match; simplify_eq; cbn; lia| | |done..].
  - destruct ips as [|ip ips']; [simplify_eq; cbn; lia|].
    destruct (on_token _) as [sv p] eqn:Ht. simplify_eq.
    pose proof (on_token_length _ _ _ Ht) as Hle.
    rewrite (pc_weight_str _ c) in Hle by (by eapply on_token_pc). cbn. lia.
  - destruct (on_token _) as [sv p] eqn:Ht. simplify_eq.
    pose proof (on_token_length _ _ _ Ht) as Hle.
    rewrite (pc_weight_str _ c) in Hle by (by eapply on_token_pc). cbn. lia.
  - simplify_eq. cbn. lia.
Qed.

Lemma init_step_start c save s :
  ips ≠ [] →
  init_step ips c save s ItStart =
  let (save', pc') := on_token (strtok COMMA (cterm c)) in Some (save', s, pc').
Proof. cbn [init_step]. by destruct ips. Qed.

(** The step of a thread, taken apart. *)
Lemma init_run_inv t x y :
  init_run ips t x = Some y →
  sv_alive (in_server x) = true ∧
  ∃ c pc save s pc', in_threads x !! t = Some (c, pc) ∧
    init_step ips c (in_save x) (in_server x) pc = Some (save, s, pc') ∧
    y = mkInit save s (<[t := (c, pc')]> (in_threads x)).
Proof.
  unfold init_run. destruct (sv_alive _); [|done]. intros Hy. split; [done|].
  apply bind_Some in Hy as ([c pc] & Ht & Hy). apply bind_Some in Hy as ([[save s] pc'] & Hs & Hy).
  simplify_eq. eauto 10.
Qed.

Lemma init_runs_weight x y : init_runs ips x y → (init_weight y < init_weight x)%nat.
Proof.
  intros [t Hy]. apply init_run_inv in Hy as (_ & c & pc & save & s & pc' & Ht & Hs & ->).
  apply init_step_weight in Hs. unfold init_weight. cbn [in_save in_threads].
  pose proof (sum_insert pc_weight _ _ _ (c, pc') Ht). lia.
Qed.

(** A thread that has not ended can take a step. *)
Lemma init_run_ready t x c pc :
  sv_alive (in_server x) = true → in_threads x !! t = Some (c, pc) → pc ≠ ItRet → pc ≠ ItAbort →
  ∃ y, init_runs ips x y.
Proof.
  intros Ha Ht H1 H2.
  assert (is_Some (init_step ips c (in_save x) (in_server x) pc)) as [[[save s] pc'] Hs].
  { destruct pc; cbn [init_step]; try done; repeat case_match; eauto. }
  exists (mkInit save s (<[t := (c, pc')]> (in_threads x))), t.
  unfold init_run. rewrite Ha, Ht. simpl. by rewrite Hs.
Qed.

(** ** One call alone *)

Lemma init_run_single x y c pc P :
  in_threads x = [(c, pc)] → init_run ips 0 x = Some y →
  inevitably (init_runs ips) P y → inevitably (init_runs ips) P x.
Proof.
  intros Hx Hy HP. apply inev_later; [by exists y, 0%nat|]. intros z [[|t] Hz]; [congruence|].
  apply init_run_inv in Hz as (_ & c' & pc' & ? & ? & ? & Ht & _). by rewrite Hx in Ht.
Qed.

(** From a result of [strtok] on [str], a thread alone runs the loop over the
    tokens of [str] to its end. *)
Lemma init_loop_alone c n : ∀ str s, (length str < n)%nat → sv_alive s = true →
  inevitably (init_runs ips)
    (λ y, y = mkInit [] (set_initialized (set_nodes (add_nodes (strtok_all COMMA str) ips (sv_nodes s)) s))
                [(c, ItRet)])
    (mkInit (on_token (strtok COMMA str)).1 s [(c, (on_token (strtok COMMA str)).2)]).
Proof.
  induction n as [|n IH]; intros str s Hn Ha; [lia|]. rewrite strtok_all_unfold.
  destruct (strtok COMMA str) as [[tok rest]|] eqn:Ht; cbn [on_token fst snd add_nodes].
  - pose proof (strtok_length _ _ _ _ Ht) as Hlt.
    set (s1 := if is_local tok ips then s else set_nodes (sv_nodes s ++ [tok]) s).
    assert (init_run ips 0 (mkInit rest s [(c, ItToken tok)]) = Some (mkInit rest s1 [(c, ItNext)])) as H1.
    { unfold init_run, s1. cbn. rewrite Ha. cbn. by destruct (is_local tok ips). }
    assert (sv_alive s1 = true) as Ha1 by (unfold s1; by destruct (is_local tok ips)).
    eapply init_run_single; [done|exact H1|].
    eapply init_run_single; [done| |].
    { unfold init_run. cbn. rewrite Ha1. cbn. by rewrite (surjective_pairing (on_token _)). }
    specialize (IH rest s1 ltac:(lia) Ha1). revert IH. unfold s1. by destruct (is_local tok ips).
  - eapply init_run_single; [done|by unfold init_run; cbn; rewrite Ha|]. constructor. by destruct s.
Qed.

(** A call of INIT_LOCK_MGR that runs alone ends, and leaves exactly the state that the
    function init_lock_mgr_1_svc returns; without a local address it ends the process,
    as the function does. *)
Theorem init_alone save s c :
  sv_alive s = true →
  inevitably (init_runs ips)
    (λ y, match init_lock_mgr_1_svc ips c s with
          | Ret s' => in_server y = s' ∧ all_returned y
          | _ => in_server y = set_alive false s
          end) (init_calls save s [c]).
Proof.
  intros Ha. destruct (decide (ips = [])) as [Hips|Hips].
  - assert (init_run ips 0 (init_calls save s [c]) = Some (mkInit save (set_alive false s) [(c, ItAbort)])) as H1
      by (unfold init_run; cbn; rewrite Ha, Hips; done).
    eapply init_run_single; [done|exact H1|]. constructor. by rewrite Hips.
  - assert (init_lock_mgr_1_svc ips c s = Ret (set_initialized (set_nodes
      (add_nodes (strtok_all COMMA (cterm c)) ips (sv_nodes s)) s))) as -> by (unfold init_lock_mgr_1_svc; by destruct ips).
    set (r := on_token (strtok COMMA (cterm c))).
    assert (init_run ips 0 (init_calls save s [c]) = Some (mkInit r.1 s [(c, r.2)])) as H1.
    { unfold init_run. cbn. rewrite Ha. cbn. unfold r. destruct ips; [done|]. by destruct (on_token _). }
    eapply init_run_single; [done|exact H1|].
    eapply inevitably_impl; [|apply (init_loop_alone c (S (length (cterm c))) (cterm c)); [lia|done]].
    intros y ->. split; [done|]. by repeat constructor.
Qed.

(** ** Concurrent calls with one node string *)

Definition started (pc : init_pc) : Prop := pc ≠ ItStart.
(** In the loop: the thread will call [strtok] again. *)
Definition looping (pc : init_pc) : Prop :=
  match pc with ItToken _ | ItNext => True | _ => False end.

(** Some thread is where [P] holds. *)
Definition some_at (P : init_pc → Prop) (l : list (bytes * init_pc)) : Prop :=
  ∃ t th, l !! t = Some th ∧ P th.2.

Lemma some_at_new P l t th c pc : l !! t = Some th → P pc → some_at P (<[t := (c, pc)]> l).
Proof.
  intros Ht HP. exists t, (c, pc). split; [|done].
  apply list_lookup_insert_eq. by eapply lookup_lt_Some.
Qed.

Lemma some_at_keep P l t c pc c' pc' :
  l !! t = Some (c, pc) → some_at P l → P pc ∨ some_at P (<[t := (c', pc')]> l).
Proof.
  intros Ht (u & th & Hu & HP). destruct (decide (u = t)) as [->|Hne].
  - left. by simplify_eq.
  - right. exists u, th. by rewrite list_lookup_insert_ne.
Qed.

Lemma some_at_old P l t c pc : some_at P (<[t := (c, pc)]> l) → P pc ∨ some_at P l.
Proof.
  intros (u & th & Hu & HP). apply list_lookup_insert_Some in Hu as [(<- & <- & _)|[_ Hu]]; [by left|].
  right. by exists u, th.
Qed.

Section same_list.
Context (c : bytes) (s0 : Server).
Hypothesis Hips : ips ≠ [].
Hypothesis Halive : sv_alive s0 = true.

Notation tokens := (strtok_all COMMA (cterm c)).
Definition wanted (h : bytes) : Prop := h ∈ tokens ∧ is_local h ips = false.

(** What holds while the calls run: their threads work on [c] and stand in no
    failed assertion; only [nodes] and [has_initialized] have changed; only
    wanted hosts have been added; tokens in a thread's hand and in the saved
    string are tokens of [c]; and once a thread has started, every wanted host
    is in [nodes], in a thread's hand, or in the saved string with a thread in
    the loop that will come for it. *)
Record SameList (x : InitState) : Prop := {
  sl_calls : Forall (λ th, th.1 = c ∧ th.2 ≠ ItAbort) (in_threads x);
  sl_frame : set_initialized (set_nodes [] (in_server x)) = set_initialized (set_nodes [] s0);
  sl_nodes : ∀ h, h ∈ sv_nodes (in_server x) → h ∈ sv_nodes s0 ∨ wanted h;
  sl_old : ∀ h, h ∈ sv_nodes s0 → h ∈ sv_nodes (in_server x);
  sl_hand : ∀ h, some_at (eq (ItToken h)) (in_threads x) → h ∈ tokens;
  sl_save : ∀ h, some_at started (in_threads x) → h ∈ strtok_all COMMA (in_save x) → h ∈ tokens;
  sl_todo : ∀ h, some_at started (in_threads x) → wanted h →
    h ∈ sv_nodes (in_server x) ∨ some_at (eq (ItToken h)) (in_threads x) ∨
    (h ∈ strtok_all COMMA (in_save x) ∧ some_at looping (in_threads x));
  sl_flag : some_at (eq ItRet) (in_threads x) → sv_has_initialized (in_server x) = true
}.

Lemma SameList_init save n : SameList (init_calls save s0 (replicate n c)).
Proof.
  unfold init_calls. assert (∀ P, some_at P ((λ c, (c, ItStart)) <$> replicate n c) → P ItStart) as Hs.
  { intros P (t & th & Ht & HP). apply list_lookup_fmap_Some in Ht as (? & -> & ?). done. }
  split; cbn [in_threads in_server in_save].
  - apply Forall_fmap, Forall_replicate. by split.
  - done.
  - by left.
  - done.
  - intros h Hh. by apply Hs in Hh.
  - intros h Hh. by apply Hs in Hh.
  - intros h Hh. by apply Hs in Hh.
  - intros Hh. by apply Hs in Hh.
Qed.

(** What [strtok] on [str] leaves holds exactly the tokens of [str]. *)
Lemma on_token_tokens str h save pc :
  on_token (strtok COMMA str) = (save, pc) →
  h ∈ strtok_all COMMA str ↔ pc = ItToken h ∨ h ∈ strtok_all COMMA save.
Proof.
  rewrite (strtok_all_unfold _ str).
  destruct (strtok COMMA str) as [[tok rest]|]; intros [= <- <-].
  - rewrite elem_of_cons. naive_solver.
  - cbn. rewrite !elem_of_nil. naive_solver.
Qed.

Lemma on_token_looping r h save pc :
  on_token r = (save, pc) → h ∈ strtok_all COMMA save → looping pc.
Proof. destruct r as [[tok rest]|]; intros [= <- <-]; [done|]. cbn. by rewrite elem_of_nil. Qed.

Lemma on_token_ends r save pc : on_token r = (save, pc) → pc ≠ ItAbort ∧ pc ≠ ItRet.
Proof. by destruct r as [[]|]; intros [= <- <-]. Qed.

Lemma calls_insert l t pc :
  Forall (λ th, th.1 = c ∧ th.2 ≠ ItAbort) l → pc ≠ ItAbort →
  Forall (λ th, th.1 = c ∧ th.2 ≠ ItAbort) (<[t := (c, pc)]> l).
Proof. intros Hl Hpc. by apply Forall_insert. Qed.

(** A call of [strtok], the first one of a thread or one of its loop. *)
Lemma SameList_strtok x t pc str save pc' :
  SameList x → in_threads x !! t = Some (c, pc) → pc = ItStart ∨ pc = ItNext →
  (∀ h, h ∈ strtok_all COMMA str → h ∈ tokens) →
  (∀ h, wanted h → h ∈ sv_nodes (in_server x) ∨ some_at (eq (ItToken h)) (in_threads x) ∨
     h ∈ strtok_all COMMA str) →
  on_token (strtok COMMA str) = (save, pc') →
  SameList (mkInit save (in_server x) (<[t := (c, pc')]> (in_threads x))).
Proof.
  intros [Hcalls Hframe Hnodes Hold Hhand Hsave Htodo Hflag] Ht Hpc Hsub Hcov Hon.
  destruct (on_token_ends _ _ _ Hon) as [Hab Hret].
  split; cbn [in_threads in_server in_save]; [by apply calls_insert|done..| | | |].
  - intros h Hh. apply some_at_old in Hh as [<-|Hh]; [|by apply Hhand].
    apply Hsub. apply (on_token_tokens _ _ _ _ Hon). by left.
  - intros h _ Hh. apply Hsub. apply (on_token_tokens _ _ _ _ Hon). by right.
  - intros h _ Hw. destruct (Hcov h Hw) as [Hn|[Hn|Hn]]; [by left| |].
    + right; left. destruct (some_at_keep _ _ _ _ _ c pc' Ht Hn) as [<-|?]; [|done]. by destruct Hpc.
    + right. apply (on_token_tokens _ _ _ _ Hon) in Hn as [->|Hn]; [left; by eapply some_at_new|].
      right. split; [done|]. eapply some_at_new; [done|]. by eapply on_token_looping.
  - intros Hh. apply some_at_old in Hh as [<-|Hh]; [done|by apply Hflag].
Qed.

(** The body of the loop. *)
Lemma SameList_token x t pch :
  SameList x → in_threads x !! t = Some (c, ItToken pch) →
  SameList (mkInit (in_save x)
    (if is_local pch ips then in_server x
     else set_nodes (sv_nodes (in_server x) ++ [pch]) (in_server x))
    (<[t := (c, ItNext)]> (in_threads x))).
Proof.
  intros [Hcalls Hframe Hnodes Hold Hhand Hsave Htodo Hflag] Ht.
  assert (some_at (eq (ItToken pch)) (in_threads x)) as Hin by (by exists t, (c, ItToken pch)).
  assert (some_at started (in_threads x)) as Hst by (by exists t, (c, ItToken pch)).
  split; cbn [in_threads in_server in_save].
  - by apply calls_insert.
  - by destruct (is_local pch ips).
  - intros h. destruct (is_local pch ips) eqn:Hl; [apply Hnodes|]. cbn.
    rewrite elem_of_app, list_elem_of_singleton. intros [Hh| ->]; [by apply Hnodes|].
    right. split; [by apply Hhand|done].
  - intros h Hh. apply Hold in Hh. destruct (is_local pch ips); [done|]. cbn. apply elem_of_app. by left.
  - intros h Hh. apply some_at_old in Hh as [?|Hh]; [done|by apply Hhand].
  - intros h _. by apply Hsave.
  - intros h _ Hw. destruct (Htodo h Hst Hw) as [Hn|[Hn|[Hn _]]].
    + left. destruct (is_local pch ips); [done|]. cbn. apply elem_of_app. by left.
    + destruct (some_at_keep _ _ _ _ _ c ItNext Ht Hn) as [[= <-]|?]; [|by right; left].
      left. destruct Hw as [_ ->]. cbn. apply elem_of_app. right. by apply list_elem_of_singleton.
    + right; right. split; [done|]. by eapply some_at_new.
  - intros Hh. apply some_at_old in Hh as [?|Hh]; [done|]. apply Hflag in Hh.
    by destruct (is_local pch ips).
Qed.

(** The end of a call. *)
Lemma SameList_flag x t :
  SameList x → in_threads x !! t = Some (c, ItFlag) →
  SameList (mkInit (in_save x) (set_initialized (in_server x)) (<[t := (c, ItRet)]> (in_threads x))).
Proof.
  intros [Hcalls Hframe Hnodes Hold Hhand Hsave Htodo Hflag] Ht.
  assert (some_at started (in_threads x)) as Hst by (by exists t, (c, ItFlag)).
  split; cbn [in_threads in_server in_save]; [by apply calls_insert|done..| | | |done].
  - intros h Hh. apply some_at_old in Hh as [?|Hh]; [done|by apply Hhand].
  - intros h _. by apply Hsave.
  - intros h _ Hw. destruct (Htodo h Hst Hw) as [Hn|[Hn|[Hn Hl]]]; [by left| |]; right.
    + left. by destruct (some_at_keep _ _ _ _ _ c ItRet Ht Hn).
    + right. split; [done|]. by destruct (some_at_keep _ _ _ _ _ c ItRet Ht Hl).
Qed.

Lemma SameList_run x y : SameList x → init_runs ips x y → SameList y.
Proof.
  intros HI [t Hy]. apply init_run_inv in Hy as (_ & c' & pc & save & s & pc' & Ht & Hs & ->).
  destruct (Forall_lookup_1 _ _ _ _ (sl_calls _ HI) Ht) as [Hc _]. cbn in Hc. subst c'.
  destruct pc as [|pch| | | |]; [| | | |done..]; [rewrite init_step_start in Hs by done|cbn [init_step] in Hs..].
  - destruct (on_token _) as [sv p] eqn:Hon. simplify_eq.
    eapply SameList_strtok; [done..|by left|done| |exact Hon]. intros h [? _]. by right; right.
  - pose proof (SameList_token _ _ _ HI Ht) as Hx.
    by destruct (is_local pch ips); simplify_eq.
  - destruct (on_token _) as [sv p] eqn:Hon. simplify_eq.
    assert (some_at started (in_threads x)) as Hst by (by exists t, (c, ItNext)).
    eapply SameList_strtok; [done..|by right| | |exact Hon].
    + intros h. by apply (sl_save _ HI).
    + intros h Hw. destruct (sl_todo _ HI h Hst Hw) as [?|[?|[? _]]]; auto.
  - simplify_eq. by apply SameList_flag.
Qed.

Lemma elem_of_add_nodes h toks l :
  h ∈ add_nodes toks ips l ↔ h ∈ l ∨ (h ∈ toks ∧ is_local h ips = false).
Proof.
  revert l. induction toks as [|a toks IH]; intros l; cbn [add_nodes]; [by rewrite elem_of_nil; naive_solver|].
  rewrite elem_of_cons. destruct (is_local a ips) eqn:Ha; rewrite IH, ?elem_of_app, ?list_elem_of_singleton;
    intuition (subst; auto; congruence).
Qed.

Lemma all_returned_dec x :
  all_returned x ∨ ∃ t c' pc, in_threads x !! t = Some (c', pc) ∧ pc ≠ ItRet.
Proof.
  destruct (decide (Forall (λ th : bytes * init_pc, th.2 = ItRet) (in_threads x))) as [Hr|Hr]; [by left|].
  right. apply not_Forall_Exists in Hr; [|apply _]. apply Exists_exists in Hr as ([c' pc] & Hin & Hne).
  apply list_elem_of_lookup in Hin as [t Ht]. eauto.
Qed.

(** When all the calls have returned, the nodes are those of one call alone. *)
Lemma SameList_returned x :
  SameList x → all_returned x → in_threads x ≠ [] →
  ∃ s' l, init_lock_mgr_1_svc ips c s0 = Ret s' ∧ in_server x = set_nodes l s' ∧
    ∀ h, h ∈ l ↔ h ∈ sv_nodes s'.
Proof.
  intros [_ Hframe Hnodes Hold _ _ Htodo Hflag] Hret Hne.
  assert (∀ P : init_pc → Prop, some_at P (in_threads x) ↔ P ItRet) as Hat.
  { intros P. unfold all_returned in Hret. rewrite Forall_lookup in Hret. split.
    - intros (t & th & Ht & HP). by rewrite (Hret t th Ht) in HP.
    - intros HP. destruct (in_threads x) as [|th l] eqn:Hx; [done|]. exists 0%nat, th.
      split; [done|]. by rewrite (Hret 0%nat th). }
  exists (set_initialized (set_nodes (add_nodes tokens ips (sv_nodes s0)) s0)), (sv_nodes (in_server x)).
  split_and!.
  - unfold init_lock_mgr_1_svc. by destruct ips.
  - destruct (in_server x) as [nodes mac init lvl mux alive]. unfold set_initialized, set_nodes in *.
    cbn in *. rewrite Hat in Hflag. rewrite Hflag by done. by simplify_eq.
  - intros h. cbn [sv_nodes set_initialized set_nodes]. rewrite elem_of_add_nodes. split; [apply Hnodes|].
    intros [Hh|Hw]; [by apply Hold|]. destruct (Htodo h) as [?|[Hh|[_ Hh]]]; [by apply Hat|done|done| |];
      by apply Hat in Hh.
Qed.

(** Concurrent INIT_LOCK_MGR calls with one node string, any number of them, all return,
    and the server is then as after one call of init_lock_mgr_1_svc alone: the same hosts
    are in nodes, up to order and repetition, has_initialized is set, and nothing else has
    changed.  This is what the algorithm gives when each call of strtok and each append to
    [nodes] is atomic; the C library and GLib promise neither, and two threads inside
    strtok or g_array_append_val at once can lose hosts. *)
Theorem concurrent_inits_agree save n :
  (0 < n)%nat →
  inevitably (init_runs ips)
    (λ y, all_returned y ∧ ∃ s' l, init_lock_mgr_1_svc ips c s0 = Ret s' ∧
            in_server y = set_nodes l s' ∧ ∀ h, h ∈ l ↔ h ∈ sv_nodes s')
    (init_calls save s0 (replicate n c)).
Proof.
  intros Hn. apply (inevitably_measure _ _ (λ x, SameList x ∧ length (in_threads x) = n) init_weight).
  - intros x [HI Hlen]. destruct (all_returned_dec x) as [Hr|(t & c' & pc & Ht & Hpc)].
    + left. split; [done|]. apply SameList_returned; [done..|]. intros He. rewrite He in Hlen. simpl in Hlen. lia.
    + right. destruct (Forall_lookup_1 _ _ _ _ (sl_calls _ HI) Ht) as [_ Hab].
      assert (sv_alive (in_server x) = true) as Ha.
      { rewrite <-Halive. exact (f_equal sv_alive (sl_frame _ HI)). }
      split; [by eapply init_run_ready|]. intros y Hy. split; [|by eapply init_runs_weight].
      split; [by eapply SameList_run|]. destruct Hy as [u Hy].
      apply init_run_inv in Hy as (_ & ? & ? & ? & ? & ? & _ & _ & ->). cbn. by rewrite length_insert.
  - split; [apply SameList_init|]. cbn. by rewrite length_fmap, length_replicate.
Qed.

End same_list.

End init.

(** ** What the shared position of strtok does *)

(** Two calls with the same list, of this machine and another one: both take
    the first token, the first call takes the second one from strtok, and the
    second call finds the end of the string and returns. *)
Definition early_schedule : list nat := [0; 1; 0; 0; 1; 1; 1]%nat.

Section early.
Context (ips : list bytes).

Lemma init_run_at t x c pc save s pc' :
  sv_alive (in_server x) = true → in_threads x !! t = Some (c, pc) →
  init_step ips c (in_save x) (in_server x) pc = Some (save, s, pc') →
  init_run ips t x = Some (mkInit save s (<[t := (c, pc')]> (in_threads x))).
Proof. intros Ha Ht Hs. unfold init_run. rewrite Ha, Ht. cbn [mbind option_bind]. by rewrite Hs. Qed.

(** C35: Two INIT_LOCK_MGR calls with the same list of this machine and another one can
    interleave, through the position of strtok that they share, so that one of them
    returns, having set has_initialized, while the other host, which the other call has
    taken from the string, is not yet in nodes: for every such pair of hosts and every
    server there is such a schedule, and it changes nothing else of the server. *)
Theorem init_returns_early save s own other :
  let c := join COMMA [own; other] in
  sv_alive s = true → token_ok COMMA own → token_ok COMMA other →
  is_local own ips = true → is_local other ips = false →
  ∃ x, init_sched ips early_schedule (init_calls save s [c; c]) = Some x ∧
    in_threads x = [(c, ItToken other); (c, ItRet)] ∧ in_server x = set_initialized s.
Proof.
  intros c Ha (Hn1 & Hc1 & Hz1) (Hn2 & Hc2 & Hz2) Hl1 Hl2.
  assert (ips ≠ []) as Hips by (by intros ->).
  assert (cterm c = own ++ COMMA :: other) as Hc by (unfold c; rewrite cterm_no_nul; [done|]; apply join_no_nul; [done|by repeat constructor]).
  assert (∀ sv s0, init_step ips c sv s0 ItStart = Some (other, s0, ItToken own)) as H0.
  { intros sv s0. rewrite init_step_start, Hc, strtok_token by done. done. }
  assert (∀ sv s0, init_step ips c sv s0 (ItToken own) = Some (sv, s0, ItNext)) as H1
    by (intros; cbn [init_step]; by rewrite Hl1).
  assert (∀ s0, init_step ips c other s0 ItNext = Some ([], s0, ItToken other)) as H2
    by (intros; cbn [init_step]; by rewrite strtok_last).
  exists (mkInit [] (set_initialized s) [(c, ItToken other); (c, ItRet)]). split; [|done].
  unfold early_schedule, init_calls. cbn [init_sched fmap list_fmap].
  rewrite (init_run_at 0 _ c ItStart other s (ItToken own)) by (done || apply H0). cbn [mbind option_bind].
  rewrite (init_run_at 1 _ c ItStart other s (ItToken own)) by (done || apply H0). cbn [mbind option_bind].
  rewrite (init_run_at 0 _ c (ItToken own) other s ItNext) by (done || apply H1). cbn [mbind option_bind].
  rewrite (init_run_at 0 _ c ItNext [] s (ItToken other)) by (done || apply H2). cbn [mbind option_bind].
  rewrite (init_run_at 1 _ c (ItToken own) [] s ItNext) by (done || apply H1). cbn [mbind option_bind].
  rewrite (init_run_at 1 _ c ItNext [] s ItFlag) by done. cbn [mbind option_bind].
  by rewrite (init_run_at 1 _ c ItFlag [] (set_initialized s) ItRet) by done.
Qed.

End early.

Definition init_server : Server := mkServer [] 11 false [] ∅ true.
Definition init_ips : list bytes := [cstr "127.0.0.1"; cstr "10.0.0.1"].
Definition init_nodes : bytes := join COMMA example_hosts.

Definition two_hosts : bytes := join COMMA [ip 0; ip 1].

(** Node 1 acquires lock 1 (thread 0; its request is answered by thread 1); then node 0's
    application, whose INIT_LOCK_MGR call has returned, acquires it (thread 2). *)
Definition early_acquire : list label :=
  [Start 1 1] ++ runs 0 6 ++ runs 1 4 ++ runs 0 2 ++ [Start 0 1] ++ runs 2 6.

(** After that schedule the application of the call that has returned
    acquires a lock without asking anyone: with node 1, which is initialized,
    two sessions hold the same lock. *)
Theorem init_early_two_holders :
  ∃ x, init_sched init_ips early_schedule (init_calls [] init_server [two_hosts; two_hosts]) = Some x ∧
    in_threads x = [(two_hosts, ItToken (ip 1)); (two_hosts, ItRet)] ∧
    sv_has_initialized (in_server x) = true ∧
    ∃ w, exec_all host_of3 early_acquire
           (mkWorld [in_server x; booted (boot [ip 0; ip 1] 1 22)] []) = Some w ∧ two_holders w 0 2 1.
Proof.
  eexists. split; [by vm_compute|]. split_and!; [by vm_compute..|].
  eexists. split; [by vm_compute|]. split_and!; [done|by eexists|by eexists].
Qed.

Definition list_a : bytes := join COMMA [cstr "10.0.0.2"; cstr "10.0.0.3"].
Definition list_b : bytes := cstr "10.0.0.4".

(** Two calls with different lists: the first strtok of the second call moves the position
    out of the first call's string, and the host 10.0.0.3 of the first list is never added.
    Both calls have returned. *)
Theorem init_loses_host :
  ∃ x, init_sched init_ips [0; 1; 0; 0; 0; 1; 1; 1]%nat (init_calls [] init_server [list_a; list_b]) = Some x ∧
    all_returned x ∧ sv_nodes (in_server x) = [cstr "10.0.0.2"; cstr "10.0.0.4"].
Proof.
  eexists. split; [by vm_compute|]. split; [|by vm_compute]. by repeat constructor.
Qed.

(** ** Witnesses *)

Lemma concurrent_inits_agree_witness :
  inevitably (init_runs init_ips)
    (λ y, all_returned y ∧ ∃ s' l, init_lock_mgr_1_svc init_ips init_nodes init_server = Ret s' ∧
            in_server y = set_nodes l s' ∧ ∀ h, h ∈ l ↔ h ∈ sv_nodes s')
    (init_calls [] init_server (replicate 2 init_nodes)).
Proof. apply (concurrent_inits_agree init_ips init_nodes init_server); [done|done|lia]. Defined.

Lemma init_alone_witness :
  inevitably (init_runs init_ips)
    (λ y, match init_lock_mgr_1_svc init_ips init_nodes init_server with
          | Ret s' => in_server y = s' ∧ all_returned y
          | _ => in_server y = set_alive false init_server
          end) (init_calls [] init_server [init_nodes]).
Proof. exact (init_alone init_ips [] init_server init_nodes eq_refl). Defined.

Lemma init_returns_early_witness :
  ∃ x, init_sched init_ips early_schedule (init_calls [] init_server [two_hosts; two_hosts]) = Some x ∧
    in_threads x = [(two_hosts, ItToken (ip 1)); (two_hosts, ItRet)] ∧ sv_nodes (in_server x) = [].
Proof.
  destruct (init_returns_early init_ips [] init_server (ip 0) (ip 1)) as (x & Hx & Ht & Hs).
  - reflexivity.
  - apply (bool_decide_unpack _). vm_compute. exact I.
  - apply (bool_decide_unpack _). vm_compute. exact I.
  - vm_compute. reflexivity.
  - vm_compute. reflexivity.
  - exists x. split; [exact Hx|]. split; [exact Ht|]. rewrite Hs. reflexivity.
Defined.
