(* ===== verification/LockApp.v ===== *)
(** * Applications of the lock manager

    Application processes on the machines of a cluster, which call the
    interface functions of [psu_dist_lock_mgr.c]: each call becomes bytes in
    a stub, is dispatched by the local server, and starts or continues a
    thread of the lock system.  Servers have just been started; processes
    initialize them while others already use locks, and any number of
    processes on a machine does so, each for itself. *)

From S2P Require Import Prelude CString Xdr Utility LockMsg LockServer LockSystem LockSafety LockProgress LockSpec LockScenarios LockClient Dispatch.

(** ** Processes *)

(** The call that a process is in: none, [acquire_lock_1] or
    [release_lock_1] for lock [n], served by thread [t]. *)
Inductive use_pc :=
| NoCall
| Entering (n : Z) (t : nat)
| Leaving (n : Z) (t : nat).

(** A process: its machine, the library's [has_initialized], the locks for
    which its [psu_acquire_lock] has returned and its [psu_release_lock] has
    not been called, and its call.  A lock comes with the thread of the lock
    system that stands for the acquire call, the critical section and the
    release call, or [None] when the library made no call. *)
Record Process := mkProcess {
  pr_node : nat;
  pr_initialized : bool;
  pr_locks : gmap Z (option nat);
  pr_use : use_pc
}.

Record AppWorld := mkAppWorld { aw_world : World; aw_procs : list Process }.

(** [PInit k], [PAcquire k n], [PRelease k n]: process [k] calls an interface
    function, with any lock number and whatever locks it has; [PInitFail k]:
    the call of INIT_LOCK_MGR that [psu_init_lock_mgr] makes fails;
    [PEntered k], [PLeft k]: the call returns; [PRun t]: thread [t] of a
    server runs. *)
Inductive app_label :=
| PInit (k : nat)
| PInitFail (k : nat)
| PAcquire (k : nat) (n : Z)
| PEntered (k : nat)
| PRelease (k : nat) (n : Z)
| PLeft (k : nat)
| PRun (t : nat).

(** What the dispatcher of a server makes of a call. *)
Definition deliver (c : call) : option (thread_data lock_local lock_argument) :=
  match lock_run (ca_proc c) (mkXdrMem XDR_DECODE 0 [] (ca_args c)) with
  | ([], Ret (Some td)) => Some td
  | _ => None
  end.

Definition set_proc (k : nat) (p : Process) (w : World) (aw : AppWorld) : AppWorld :=
  mkAppWorld w (<[k := p]> (aw_procs aw)).
Definition set_use (u : use_pc) (p : Process) : Process :=
  mkProcess (pr_node p) (pr_initialized p) (pr_locks p) u.
Definition set_locks (l : gmap Z (option nat)) (p : Process) : Process :=
  mkProcess (pr_node p) (pr_initialized p) l (pr_use p).

(** A session inside its critical section moves when its process says so. *)
Definition held_session (w : World) (t : nat) : bool :=
  match w_threads w !! t with Some (TSession _ _ Held) => true | _ => false end.

Section apps.
Context (host_of : bytes → option nat) (hosts : list bytes) (ms : list machine).
Context (clnt_create : bytes → Z → Z → bytes → option CLIENT).

(** [psu_init_lock_mgr(hosts)]: the server runs [init_lock_mgr_1_svc]. *)
Definition app_init (k : nat) (p : Process) (aw : AppWorld) : option AppWorld :=
  m ← ms !! pr_node p;
  s ← live (aw_world aw) (pr_node p);
  match psu_init_lock_mgr clnt_create hosts (pr_initialized p) with
  | Ret (flag, [c]) =>
      match deliver c with
      | Some (mkThreadData init_lock_mgr_local (ArgString str)) =>
          match init_lock_mgr_1_svc (m_ips m) str s with
          | Ret s' => Some (set_proc k (mkProcess (pr_node p) flag (pr_locks p) NoCall)
                             (set_server (pr_node p) s' (aw_world aw)) aw)
          | _ => None
          end
      | _ => None
      end
  | _ => None
  end.

(** [psu_init_lock_mgr(hosts)] whose call does not reach the server: the
    status is not looked at. *)
Definition app_init_fail (k : nat) (p : Process) (aw : AppWorld) : option AppWorld :=
  match psu_init_lock_mgr clnt_create hosts (pr_initialized p) with
  | Ret (flag, [c]) =>
      Some (set_proc k (mkProcess (pr_node p) flag (pr_locks p) NoCall) (aw_world aw) aw)
  | _ => None
  end.

(** [psu_acquire_lock(n)]: without initialization it returns at once. *)
Definition app_acquire (k : nat) (n : Z) (p : Process) (aw : AppWorld) : option AppWorld :=
  match psu_acquire_lock clnt_create n (pr_initialized p) with
  | Ret (_, []) => Some (set_proc k (set_locks (<[n := None]> (pr_locks p)) p) (aw_world aw) aw)
  | Ret (_, [c]) =>
      match deliver c with
      | Some (mkThreadData acquire_lock_local (ArgInt z)) =>
          w' ← exec host_of (Start (pr_node p) z) (aw_world aw);
          Some (set_proc k (set_use (Entering n (length (w_threads (aw_world aw)))) p) w' aw)
      | _ => None
      end
  | _ => None
  end.

(** The thread of [release_lock_1_svc]: the session that stands for the
    process's hold on the lock goes on; a process that has not acquired the
    lock is served all the same, by a thread that begins with the release. *)
Definition start_release (t : option nat) (j : nat) (n : Z) (w : World) : option (nat * World) :=
  match t with
  | Some t => w' ← exec host_of (Run t) w; Some (t, w')
  | None => _ ← live w j; Some (length (w_threads w), spawn (TSession j n RlFind) w)
  end.

(** [psu_release_lock(n)]: neither the library nor the server checks that the
    caller has the lock. *)
Definition app_release (k : nat) (n : Z) (p : Process) (aw : AppWorld) : option AppWorld :=
  let p' := set_locks (delete n (pr_locks p)) p in
  match psu_release_lock clnt_create n (pr_initialized p) with
  | Ret (_, []) => Some (set_proc k p' (aw_world aw) aw)
  | Ret (_, [c]) =>
      match deliver c with
      | Some (mkThreadData release_lock_local (ArgInt z)) =>
          '(t, w') ← start_release (mjoin (pr_locks p !! n)) (pr_node p) z (aw_world aw);
          Some (set_proc k (set_use (Leaving n t) p') w' aw)
      | _ => None
      end
  | _ => None
  end.

Definition app_exec (l : app_label) (aw : AppWorld) : option AppWorld :=
  let w := aw_world aw in
  match l with
  | PInit k =>
      p ← aw_procs aw !! k;
      match pr_use p with NoCall => app_init k p aw | _ => None end
  | PInitFail k =>
      p ← aw_procs aw !! k;
      match pr_use p with NoCall => app_init_fail k p aw | _ => None end
  | PAcquire k n =>
      p ← aw_procs aw !! k;
      match pr_use p with NoCall => app_acquire k n p aw | _ => None end
  | PEntered k =>
      p ← aw_procs aw !! k;
      match pr_use p with
      | Entering n t =>
          if held_session w t
          then Some (set_proc k (set_use NoCall (set_locks (<[n := Some t]> (pr_locks p)) p)) w aw)
          else None
      | _ => None
      end
  | PRelease k n =>
      p ← aw_procs aw !! k;
      match pr_use p with NoCall => app_release k n p aw | _ => None end
  | PLeft k =>
      p ← aw_procs aw !! k;
      match pr_use p with
      | Leaving n t =>
          match w_threads w !! t with
          | Some (TSession _ _ Released) => Some (set_proc k (set_use NoCall p) w aw)
          | _ => None
          end
      | _ => None
      end
  | PRun t =>
      if held_session w t then None
      else w' ← exec host_of (Run t) w; Some (mkAppWorld w' (aw_procs aw))
  end.

(** The servers of the machines have been started and nobody has done
    anything. *)
Record booted_apps (aw : AppWorld) : Prop := {
  ba_servers : Forall2 (λ m s, initialize_global_variable (m_mac m) = Ret s) ms (w_servers (aw_world aw));
  ba_threads : w_threads (aw_world aw) = [];
  ba_procs : ∀ k p, aw_procs aw !! k = Some p →
    pr_initialized p = false ∧ pr_locks p = ∅ ∧ pr_use p = NoCall ∧ (pr_node p < length ms)%nat
}.

(** The discipline that the library does not enforce: a process asks for
    locks only after its call of [psu_init_lock_mgr], which reached the
    server, by numbers of type [int], and releases only locks that it has. *)
Definition in_order (l : app_label) (aw : AppWorld) : Prop :=
  match l with
  | PInitFail _ => False
  | PAcquire k n => int_ok n ∧ ∀ p, aw_procs aw !! k = Some p → pr_initialized p = true
  | PRelease k n => ∀ p, aw_procs aw !! k = Some p → is_Some (pr_locks p !! n)
  | _ => True
  end.

(** A step of an application in order, or of a server, between states in
    which line 170 is executed by one handler at a time. *)
Definition app_step (aw aw' : AppWorld) : Prop :=
  ∃ l, in_order l aw ∧ max_exclusive (aw_world aw) ∧ app_exec l aw = Some aw'.

(** Process [k] is between its acquire and its release of lock [n]. *)
Definition inside (aw : AppWorld) (k : nat) (n : Z) : Prop :=
  ∃ p, aw_procs aw !! k = Some p ∧ is_Some (pr_locks p !! n).

End apps.

(** ** Lemmas *)

(** *** Calls *)

Lemma deliver_ok c td : lock_call c td → deliver c = Some td.
Proof.
  intros Hc. unfold deliver.
  by rewrite (lock_call_dispatched (X := XdrMem) c td (mkXdrMem XDR_DECODE 0 [] (ca_args c)) [] Hc)
    by (done || by rewrite app_nil_r).
Qed.

(** *** Initialization while the system runs *)

(** The server after another [init_lock_mgr_1_svc] with the peers [new]. *)
Definition add_peers (new : list bytes) (s : Server) : Server :=
  mkServer (sv_nodes s ++ new) (sv_mac s) true (sv_lockvar_list s) (sv_mutexes s) (sv_alive s).

(** Two servers that differ in their peer lists only. *)
Definition same_vars (s s' : Server) : Prop :=
  sv_lockvar_list s' = sv_lockvar_list s ∧ sv_mutexes s' = sv_mutexes s ∧ sv_mac s' = sv_mac s.

Lemma same_vars_view s s' n : same_vars s s' → view s' n = view s n.
Proof. intros (Hl & _). unfold view. by rewrite Hl. Qed.

Lemma same_vars_ptr s s' n p : same_vars s s' → ptr s n p → ptr s' n p.
Proof. intros (Hl & _). unfold ptr. by rewrite Hl. Qed.

Lemma same_vars_session s s' n pc : same_vars s s' → session_ok s n pc → session_ok s' n pc.
Proof.
  intros Hs (Hp & Hok). unfold session_ok. rewrite (same_vars_view s s') by done. split; [|done].
  destruct pc; simpl in *; eauto using same_vars_ptr.
Qed.

Lemma same_vars_handler w w' t j s s' pack pc :
  same_vars s s' → (∀ n q m, granted w j n q m → granted w' j n q m) →
  handler_ok w t j s pack pc → handler_ok w' t j s' pack pc.
Proof.
  intros Hs Hg (Hp & Hok). pose proof Hs as (_ & Hm & _). unfold handler_ok.
  rewrite (same_vars_view s s') by done. split; [destruct pc; simpl in *; eauto using same_vars_ptr|].
  destruct pc; try done; simpl in *; rewrite ?Hm; naive_solver.
Qed.

(** The peer list of a node may grow while it has no session, and by hosts it
    already has at any time. *)
Lemma Inv_add_peers host_of w j s new :
  Inv host_of w → w_servers w !! j = Some s →
  ((∀ t n pc, w_threads w !! t ≠ Some (TSession j n pc)) ∨ ∀ a, a ∈ new → a ∈ sv_nodes s) →
  Inv host_of (set_server j (add_peers new s) w).
Proof.
  intros HI Hs Hnew. set (w' := set_server j (add_peers new s) w).
  assert (∀ j0 s0, w_servers w !! j0 = Some s0 → ∃ s1, w_servers w' !! j0 = Some s1 ∧ same_vars s0 s1) as Hto.
  { intros j0 s0 Hs0. destruct (decide (j0 = j)) as [->|Hne].
    - assert (s0 = s) as -> by congruence. exists (add_peers new s). split; [|done].
      apply list_lookup_insert_eq. by eapply lookup_lt_Some.
    - exists s0. split; [|done]. cbn. by rewrite list_lookup_insert_ne. }
  assert (∀ j0 s1, w_servers w' !! j0 = Some s1 → ∃ s0, w_servers w !! j0 = Some s0 ∧ same_vars s0 s1 ∧
    (sv_nodes s1 = sv_nodes s0 ∨ j0 = j ∧ s0 = s ∧ sv_nodes s1 = sv_nodes s ++ new)) as Hfrom.
  { intros j0 s1 [[-> ->]|[_ ?]]%set_server_lookup; [exists s|exists s1]; split_and!; try done; auto. }
  assert (∀ j0 n q m, granted w j0 n q m → granted w' j0 n q m) as Hgr.
  { intros j0 n q m (s0 & Hs0 & Hq & Hc). destruct (Hto _ _ Hs0) as (s1 & Hs1 & Hsv).
    exists s1. rewrite (same_vars_view s0 s1) by done. destruct Hsv as (_ & _ & ->). done. }
  split.
  - intros j0 s1 Hs1. destruct (Hfrom _ _ Hs1) as (s0 & Hs0 & (Hl & _) & _). unfold sv_wf. rewrite Hl.
    exact (inv_wf _ _ HI _ _ Hs0).
  - intros t j0 n pc Ht. destruct (inv_sess _ _ HI _ _ _ _ Ht) as (s0 & Hs0 & Hok).
    destruct (Hto _ _ Hs0) as (s1 & Hs1 & Hsv). eauto using same_vars_session.
  - exact (inv_lock _ _ HI).
  - intros j0 s1 n Hs1. destruct (Hfrom _ _ Hs1) as (s0 & Hs0 & Hsv & _).
    rewrite (same_vars_view s0 s1) by done. exact (inv_seq _ _ HI _ _ n Hs0).
  - intros t j0 pack pc Ht. destruct (inv_hdl _ _ HI _ _ _ _ Ht) as (s0 & Hs0 & Hok).
    destruct (Hto _ _ Hs0) as (s1 & Hs1 & Hsv). eauto using same_vars_handler.
  - intros j0 s1 n d m Hs1. destruct (Hfrom _ _ Hs1) as (s0 & Hs0 & Hsv & _).
    rewrite (same_vars_view s0 s1) by done. exact (inv_deff _ _ HI _ _ n d m Hs0).
  - intros t i n pc s1 k a j' Ht Hs1 Hk Ha Hh. destruct (Hfrom _ _ Hs1) as (s0 & Hs0 & Hsv & Hn).
    rewrite (same_vars_view s0 s1) by done. pose proof Hsv as (_ & _ & ->). apply Hgr.
    pose proof (λ k', inv_ack _ _ HI t i n pc s0 k' a j' Ht Hs0) as Hack.
    destruct Hn as [Hn|(-> & -> & Hn)]; rewrite Hn in *; [by eauto|].
    destruct Hnew as [Hno|Hin]; [by destruct (Hno _ _ _ Ht)|].
    apply lookup_app_Some in Ha as [Ha|[Hge Ha]].
    + apply (Hack k); [|done|done]. apply lookup_lt_Some in Ha. destruct pc; simpl in *; lia.
    + apply list_elem_of_lookup_2, Hin, list_elem_of_lookup in Ha as [k' Hk'].
      apply (Hack k'); [|done|done]. apply lookup_lt_Some in Hk'. destruct pc; simpl in *; lia.
  - intros t i n p k c s1 Ht Hs1. destruct (Hfrom _ _ Hs1) as (s0 & Hs0 & Hsv & Hn).
    destruct (inv_call _ _ HI _ _ _ _ _ _ _ Ht Hs0) as (a & j' & pc & Ha & Hh & Hth).
    exists a, j', pc. rewrite (same_vars_view s0 s1) by done. destruct Hsv as (_ & _ & ->).
    split_and!; [|done..]. destruct Hn as [->|(-> & -> & ->)]; [done|]. by apply lookup_app_l_Some.
Qed.

(** *** The invariant of a cluster with applications *)

Section cluster.
Context (host_of : bytes → option nat) (hosts : list bytes) (ms : list machine).
Context (clnt_create : bytes → Z → Z → bytes → option CLIENT) (client : CLIENT).
Hypothesis Htok : Forall (token_ok COMMA) hosts.
Hypothesis Hfits : fits hosts.
Hypothesis Hlen : length hosts = length ms.
Hypothesis Hname : ∀ j a, hosts !! j = Some a → host_of a = Some j.
Hypothesis Hown : ∀ i m j a, ms !! i = Some m → hosts !! j = Some a → a ∈ m_ips m ↔ i = j.
Hypothesis Hms : Forall (λ m, m_mac m ≠ 0 ∧ Forall (λ a, NUL ∉ a) (m_ips m)) ms.
Hypothesis Hmacs : NoDup (m_mac <$> ms).
Hypothesis Hclient : local_client clnt_create = Ret client.

(** The hosts that a machine asks. *)
Definition other_hosts (m : machine) : list bytes := base.filter (λ a, a ∉ m_ips m) hosts.

(** Machine [j]'s server has been initialized. *)
Definition known (w : World) (j : nat) : Prop :=
  ∀ s m a, w_servers w !! j = Some s → ms !! j = Some m → a ∈ other_hosts m → a ∈ sv_nodes s.

(** The thread of a process's call. *)
Definition use_thread (u : use_pc) : option nat :=
  match u with Entering _ t | Leaving _ t => Some t | NoCall => None end.

(** Thread [t] serves a call of the process, or stands for a lock it has. *)
Definition owns (p : Process) (t : nat) : Prop :=
  use_thread (pr_use p) = Some t ∨ ∃ n, pr_locks p !! n = Some (Some t).

Definition call_ok (w : World) (p : Process) : Prop :=
  match pr_use p with
  | NoCall => True
  | Entering n t =>
      pr_initialized p = true ∧ int_ok n ∧ (∃ j pc, w_threads w !! t = Some (TSession j n pc)) ∧
      ∀ n', pr_locks p !! n' ≠ Some (Some t)
  | Leaving n t => ∃ j pc, w_threads w !! t = Some (TSession j n pc)
  end.

Definition locks_ok (w : World) (p : Process) : Prop :=
  ∀ n o, pr_locks p !! n = Some o →
    ∃ t j, o = Some t ∧ pr_initialized p = true ∧ int_ok n ∧ w_threads w !! t = Some (TSession j n Held).

Definition use_ok (w : World) (p : Process) : Prop := call_ok w p ∧ locks_ok w p.

(** The servers: the invariant of the lock system, and a node with sessions
    has been initialized. *)
Record SysInv (w : World) : Prop := {
  si_inv : Inv host_of w;
  si_macs : ∀ j s, w_servers w !! j = Some s → ∃ m, ms !! j = Some m ∧ sv_mac s = m_mac m;
  si_sessions : ∀ t j n pc, w_threads w !! t = Some (TSession j n pc) → known w j
}.

(** The processes: their calls are served by threads of their own. *)
Record ProcInv (w : World) (procs : list Process) : Prop := {
  pi_known : ∀ k p, procs !! k = Some p → pr_initialized p = true → known w (pr_node p);
  pi_use : ∀ k p, procs !! k = Some p → use_ok w p;
  pi_distinct : ∀ k1 k2 p1 p2 t, procs !! k1 = Some p1 → procs !! k2 = Some p2 →
    owns p1 t → owns p2 t → k1 = k2
}.

Definition AppInv (aw : AppWorld) : Prop := SysInv (aw_world aw) ∧ ProcInv (aw_world aw) (aw_procs aw).

(** *** The interface functions as steps of the lock system *)

Lemma app_init_step k p aw aw' :
  app_init hosts ms clnt_create k p aw = Some aw' →
  ∃ m s, ms !! pr_node p = Some m ∧ w_servers (aw_world aw) !! pr_node p = Some s ∧
    aw' = set_proc k (mkProcess (pr_node p) true (pr_locks p) NoCall)
            (set_server (pr_node p) (add_peers (other_hosts m) s) (aw_world aw)) aw.
Proof.
  unfold app_init. intros (m & Hm & (s & Hs%live_Some & Hi)%bind_Some)%bind_Some.
  exists m, s. split_and!; [done..|].
  assert (Forall (λ s, NUL ∉ s) hosts) as Hnul by (eapply Forall_impl; [exact Htok|]; by intros ? (_ & _ & ?)).
  pose proof (proj1 (Forall_lookup _ _) Hms _ _ Hm) as [_ Hips].
  revert Hi. unfold psu_init_lock_mgr. destruct (node_string_ok hosts Hnul Hfits) as (cap & -> & _).
  cbn [obind]. rewrite Hclient. cbn [obind sb_data].
  rewrite (deliver_ok _ (mkThreadData init_lock_mgr_local (ArgString (join COMMA hosts)))).
  2: { constructor; [by apply join_no_nul|]. unfold fits, INT_MAX in Hfits. lia. }
  destruct (decide (m_ips m = [])) as [Hnil|Hne]; [by rewrite Hnil|].
  rewrite init_svc_nodes by done. by intros [= <-].
Qed.

Lemma app_acquire_step k n p aw aw' :
  int_ok n → pr_initialized p = true → app_acquire host_of clnt_create k n p aw = Some aw' →
  ∃ w', exec host_of (Start (pr_node p) n) (aw_world aw) = Some w' ∧
    aw' = set_proc k (set_use (Entering n (length (w_threads (aw_world aw)))) p) w' aw.
Proof.
  intros Hn Hi. unfold app_acquire, psu_acquire_lock. rewrite Hi, Hclient. cbn [obind].
  rewrite (deliver_ok _ (mkThreadData acquire_lock_local (ArgInt n))) by (by constructor).
  intros (w' & Hw & [= <-])%bind_Some. eauto.
Qed.

Lemma app_release_step k n t p aw aw' :
  int_ok n → pr_initialized p = true → pr_locks p !! n = Some (Some t) →
  app_release host_of clnt_create k n p aw = Some aw' →
  ∃ w', exec host_of (Run t) (aw_world aw) = Some w' ∧
    aw' = set_proc k (set_use (Leaving n t) (set_locks (delete n (pr_locks p)) p)) w' aw.
Proof.
  intros Hn Hi Hl. unfold app_release, psu_release_lock. rewrite Hi, Hclient, Hl. cbn [obind].
  rewrite (deliver_ok _ (mkThreadData release_lock_local (ArgInt n))) by (by constructor).
  cbn [mjoin option_join start_release].
  intros ([t' w'] & (w1 & Hw & [= <- <-])%bind_Some & [= <-])%bind_Some. eauto.
Qed.

(** *** Steps of the servers *)

Lemma known_static w w' j : static w w' → known w j → known w' j.
Proof.
  intros Hst Hk s m a Hs Hm Ha. destruct (Hst j s Hs) as (s0 & Hs0 & -> & _). by eapply Hk.
Qed.

Lemma SysInv_step w w' :
  SysInv w → max_exclusive w → step host_of w w' →
  (∀ t j n pc, w_threads w' !! t = Some (TSession j n pc) → known w j) →
  SysInv w' ∧ ∀ j, known w j → known w' j.
Proof.
  intros [HI Hmac Hse] Hex Hs Hnew. pose proof (step_static _ _ _ HI Hex Hs) as Hst.
  assert (∀ j, known w j → known w' j) as Hk by (intros j; by apply known_static).
  split; [|done]. split.
  - by eapply Inv_step.
  - intros j s Hj. destruct (Hst j s Hj) as (s0 & Hs0 & _ & ->). by apply Hmac.
  - intros t j n pc Ht. by eapply Hk, Hnew.
Qed.

Lemma SysInv_run w w' t :
  SysInv w → max_exclusive w → exec host_of (Run t) w = Some w' →
  SysInv w' ∧ ∀ j, known w j → known w' j.
Proof.
  intros HS Hex He. apply SysInv_step; [done..|by exists (Run t)|].
  intros t' j n pc Ht. destruct (fo_sessions _ _ _ (run_follows _ _ _ _ He) _ _ _ _ Ht) as [pc0 Ht0].
  by eapply si_sessions.
Qed.

Lemma use_ok_thread w p t : use_ok w p → owns p t → is_Some (w_threads w !! t).
Proof.
  intros [Hc Hl] [Hu|[n Hn]].
  - unfold call_ok in Hc. destruct (pr_use p) as [|n t'|n t']; simplify_eq/=.
    + destruct Hc as (_ & _ & (j & pc & ->) & _). eauto.
    + destruct Hc as (j & pc & ->). eauto.
  - destruct (Hl n _ Hn) as (t' & j & [= <-] & _ & _ & ->). eauto.
Qed.

Lemma held_session_true w t j n : w_threads w !! t = Some (TSession j n Held) → held_session w t = true.
Proof. unfold held_session. by intros ->. Qed.

(** The sessions of a world are still there after a step. *)
Lemma follows_session t w w' t' j n pc :
  follows t w w' → w_threads w !! t' = Some (TSession j n pc) →
  ∃ pc', w_threads w' !! t' = Some (TSession j n pc').
Proof.
  intros Hf Ht. destruct (decide (t' = t)) as [->|Hne]; [by eapply fo_own|].
  exists pc. by eapply fo_other.
Qed.

(** A process does not notice the step of a thread that is not its own, or
    that is not at the point where the process acts. *)
Lemma call_ok_follows w w' p t : follows t w w' → call_ok w p → call_ok w' p.
Proof.
  intros Hf. unfold call_ok. destruct (pr_use p) as [|n t'|n t']; [done|..].
  - intros (? & ? & (j & pc & Hx) & ?). split_and!; try done. exists j. by eapply follows_session.
  - intros (j & pc & Hx). exists j. by eapply follows_session.
Qed.

Lemma locks_ok_follows w w' p t :
  follows t w w' → locks_ok w p → (∀ n, pr_locks p !! n ≠ Some (Some t)) → locks_ok w' p.
Proof.
  intros Hf Hl Hne n o Hn. destruct (Hl n o Hn) as (t' & j & -> & ? & ? & Ht').
  exists t', j. split_and!; try done. apply (fo_other _ _ _ Hf); [|done]. intros ->. by destruct (Hne n).
Qed.

Lemma use_ok_follows w w' p t : follows t w w' → use_ok w p → ¬ owns p t → use_ok w' p.
Proof.
  intros Hf [Hc Hl] Hno. split; [by eapply call_ok_follows|]. eapply locks_ok_follows; [done..|].
  intros n Hn. apply Hno. right. eauto.
Qed.

Lemma not_held_locks w p t n : locks_ok w p → held_session w t = false → pr_locks p !! n ≠ Some (Some t).
Proof.
  intros Hl Hh Hn. destruct (Hl n _ Hn) as (t' & j & [= <-] & _ & _ & Ht).
  by rewrite (held_session_true _ _ _ _ Ht) in Hh.
Qed.

(** One process moves to [p'] while the system goes from [w] to [w']. *)
Lemma ProcInv_set w w' procs k p p' :
  ProcInv w procs → procs !! k = Some p → (∀ j, known w j → known w' j) →
  (pr_initialized p' = true → known w' (pr_node p')) → use_ok w' p' →
  (∀ k0 p0, k0 ≠ k → procs !! k0 = Some p0 → use_ok w' p0) →
  (∀ t k0 p0, k0 ≠ k → procs !! k0 = Some p0 → owns p' t → ¬ owns p0 t) →
  ProcInv w' (<[k := p']> procs).
Proof.
  intros [Hk Hu Hd] Hp Hkn Hkp Hup Hoth Hfresh. split.
  - intros k0 p0 [(<- & <- & _)|[_ H0]]%list_lookup_insert_Some; [done|]. eauto.
  - intros k0 p0 [(<- & <- & _)|[? H0]]%list_lookup_insert_Some; [done|]. eauto.
  - intros k1 k2 p1 p2 t [(<- & <- & _)|[? H1]]%list_lookup_insert_Some
      [(<- & <- & _)|[? H2]]%list_lookup_insert_Some Ht1 Ht2; [done|exfalso; by eapply Hfresh..|by eauto].
Qed.

(** *** Steps of the applications *)

Lemma AppInv_init aw aw' k p :
  AppInv aw → aw_procs aw !! k = Some p → pr_use p = NoCall →
  app_init hosts ms clnt_create k p aw = Some aw' → AppInv aw'.
Proof.
  intros [[HI Hmac Hse] HP] Hp Ho Hi. destruct (app_init_step k p aw aw' Hi) as (m & s & Hm & Hs & ->).
  set (j := pr_node p) in *. set (w := aw_world aw) in *. set (new := other_hosts m).
  set (w' := set_server j (add_peers new s) w).
  assert (∀ j0, known w j0 → known w' j0) as Hkn.
  { intros j0 Hk s0 m0 a Hs0 Hm0 Ha. apply set_server_lookup in Hs0 as [[-> ->]|[_ Hs0]]; [|by eapply Hk].
    apply elem_of_app. left. by eapply Hk. }
  assert (known w' j) as Hkj.
  { intros s0 m0 a Hs0 Hm0 Ha. apply set_server_lookup in Hs0 as [[_ ->]|[? _]]; [|done].
    apply elem_of_app. right. by simplify_eq. }
  split.
  - split.
    + apply Inv_add_peers; [done..|].
      destruct (decide (Exists (λ th, fst <$> session_of th = Some j) (w_threads w))) as [Hx|Hx].
      * right. apply Exists_exists in Hx as (th & [t Ht]%list_elem_of_lookup & Hth).
        destruct th as [j0 n pc|]; simpl in Hth; [|done]. injection Hth as ->.
        intros a Ha. by eapply (Hse t j n pc).
      * left. intros t n pc Ht. apply Hx, Exists_exists. exists (TSession j n pc).
        split; [by eapply list_elem_of_lookup_2|done].
    + intros j0 s0 Hs0. apply set_server_lookup in Hs0 as [[-> ->]|[_ Hs0]]; [by apply (Hmac j s)|by apply Hmac].
    + intros t j0 n pc Ht. by eapply Hkn, Hse.
  - pose proof (pi_use _ _ HP _ _ Hp) as [Hc Hl].
    eapply ProcInv_set; [done..| | |].
    + split; [done|]. intros n o Hn. destruct (Hl n o Hn) as (t & j0 & ? & _ & ? & ?). eauto 10.
    + intros k0 p0 _ H0. exact (pi_use _ _ HP _ _ H0).
    + intros t k0 p0 Hne H0 [?|[n Hn]] Ht0; [done|]. apply Hne.
      eapply (pi_distinct _ _ HP); [exact H0|exact Hp|exact Ht0|right; by exists n].
Qed.

Lemma use_ok_spawn w p th : use_ok w p → use_ok (spawn th w) p.
Proof.
  intros [Hc Hl]. split.
  - unfold call_ok in *. destruct (pr_use p) as [|n t|n t]; [done|..].
    + destruct Hc as (? & ? & (j & pc & Ht) & ?). split_and!; try done. exists j, pc. by apply lookup_app_l_Some.
    + destruct Hc as (j & pc & Ht). exists j, pc. by apply lookup_app_l_Some.
  - intros n o Hn. destruct (Hl n o Hn) as (t & j & ? & ? & ? & Ht). exists t, j. split_and!; try done.
    by apply lookup_app_l_Some.
Qed.

Lemma AppInv_acquire aw aw' k p n :
  AppInv aw → max_exclusive (aw_world aw) → aw_procs aw !! k = Some p → pr_use p = NoCall → int_ok n →
  pr_initialized p = true → app_acquire host_of clnt_create k n p aw = Some aw' → AppInv aw'.
Proof.
  intros [HS HP] Hex Hp Hu Hn Hi Ha. destruct (app_acquire_step k n p aw aw' Hn Hi Ha) as (w' & He & ->).
  set (w := aw_world aw) in *.
  assert (w' = spawn (TSession (pr_node p) n AqFind) w) as ->.
  { cbn [exec] in He. apply bind_Some in He as (s & _ & He). by simplify_eq. }
  set (w' := spawn _ w) in *. pose proof (pi_known _ _ HP _ _ Hp Hi) as Hkp.
  destruct (SysInv_step w w' HS Hex) as [HS' Hkn]; [by eexists (Start _ _)| |].
  { intros t j n0 pc [Ht|[_ [= <- <- <-]]]%lookup_snoc_Some; [by eapply si_sessions|done]. }
  assert (∀ k0 p0 t, aw_procs aw !! k0 = Some p0 → owns p0 t → t ≠ length (w_threads w)) as Hold.
  { intros k0 p0 t H0 Ho. pose proof (use_ok_thread _ _ _ (pi_use _ _ HP _ _ H0) Ho) as Hx.
    apply lookup_lt_is_Some in Hx. lia. }
  split; [done|]. eapply ProcInv_set; [done|done|done|by auto|..].
  - destruct (use_ok_spawn _ _ (TSession (pr_node p) n AqFind) (pi_use _ _ HP _ _ Hp)) as [_ Hl]. split; [|done].
    split_and!; [done..| |].
    + exists (pr_node p), AqFind. apply lookup_snoc_Some. by right.
    + intros n' Hn'. apply (Hold k p (length (w_threads w))); [done| |done]. right. by exists n'.
  - intros k0 p0 _ H0. apply use_ok_spawn. exact (pi_use _ _ HP _ _ H0).
  - intros t k0 p0 Hne H0 [[= <-]|Ho] Ht0; [by eapply Hold|]. apply Hne.
    eapply (pi_distinct _ _ HP); [exact H0|exact Hp|exact Ht0|by right].
Qed.

Lemma AppInv_release aw aw' k p n :
  AppInv aw → max_exclusive (aw_world aw) → aw_procs aw !! k = Some p → pr_use p = NoCall →
  is_Some (pr_locks p !! n) → app_release host_of clnt_create k n p aw = Some aw' → AppInv aw'.
Proof.
  intros [HS HP] Hex Hp Hu [o Hn] Ha. destruct (pi_use _ _ HP _ _ Hp) as [_ Hl].
  destruct (Hl n o Hn) as (t & j & -> & Hi & Hok & Ht).
  destruct (app_release_step k n t p aw aw' Hok Hi Hn Ha) as (w' & He & ->).
  destruct (SysInv_run _ w' t HS Hex He) as [HS' Hkn]. pose proof (run_follows _ _ _ _ He) as Hf.
  assert (owns p t) as Ho by (right; by exists n).
  assert (∀ k0 p0, k0 ≠ k → aw_procs aw !! k0 = Some p0 → ¬ owns p0 t) as Hoth.
  { intros k0 p0 Hne H0 Ht0. apply Hne. by eapply (pi_distinct _ _ HP). }
  split; [done|]. eapply ProcInv_set; [done|done|done| | | |].
  - intros _. apply Hkn. by apply (pi_known _ _ HP _ _ Hp).
  - split.
    + exists j. by eapply follows_session.
    + eapply (locks_ok_follows (aw_world aw)); [done|..].
      * intros n' o' Hn'. cbn in Hn'; apply lookup_delete_Some in Hn' as [_ Hn']. by apply Hl.
      * intros n' Hn'. cbn in Hn'; apply lookup_delete_Some in Hn' as [Hne Hn']. destruct (Hl n' _ Hn') as (t' & j' & [= <-] & _ & _ & Ht').
        congruence.
  - intros k0 p0 Hne H0. eapply use_ok_follows; [done|by eapply pi_use|by eapply Hoth].
  - intros t0 k0 p0 Hne H0 [[= <-]|[n' Hn']] Ht0; [by eapply Hoth|].
    cbn in Hn'; apply lookup_delete_Some in Hn' as [_ Hn']. apply Hne. eapply (pi_distinct _ _ HP); [exact H0|exact Hp|exact Ht0|right; by exists n'].
Qed.

(** A process moves on without a call. *)
Lemma AppInv_use aw k p p' :
  AppInv aw → aw_procs aw !! k = Some p → use_ok (aw_world aw) p' →
  pr_node p' = pr_node p → pr_initialized p' = pr_initialized p → (∀ t, owns p' t → owns p t) →
  AppInv (set_proc k p' (aw_world aw) aw).
Proof.
  intros [HS HP] Hp Hu Hn Hi Ho. split; [done|]. eapply ProcInv_set; [done|done|by auto| |done|..].
  - rewrite Hn, Hi. apply (pi_known _ _ HP _ _ Hp).
  - intros k0 p0 _ H0. exact (pi_use _ _ HP _ _ H0).
  - intros t k0 p0 Hne H0 Ht' Ht0. apply Hne.
    eapply (pi_distinct _ _ HP); [exact H0|exact Hp|exact Ht0|by apply Ho].
Qed.

Lemma AppInv_entered aw k p n t :
  AppInv aw → aw_procs aw !! k = Some p → pr_use p = Entering n t → held_session (aw_world aw) t = true →
  AppInv (set_proc k (set_use NoCall (set_locks (<[n := Some t]> (pr_locks p)) p)) (aw_world aw) aw).
Proof.
  intros HA Hp Hu Hh. pose proof HA as [_ HP]. destruct (pi_use _ _ HP _ _ Hp) as [Hc Hl].
  unfold call_ok in Hc. rewrite Hu in Hc. destruct Hc as (Hi & Hn & (j & pc & Ht) & _).
  apply (AppInv_use aw k p); [done|done| |done|done|].
  - split; [done|]. intros n' o. cbn [pr_locks set_use set_locks]. rewrite lookup_insert. case_decide as Hd.
    + intros [= <-]. subst n'. exists t, j. split_and!; try done.
      unfold held_session in Hh. rewrite Ht in *. by destruct pc.
    + apply Hl.
  - intros t' [?|[n' Hn']]; [done|]. cbn [pr_locks set_use set_locks] in Hn'. rewrite lookup_insert in Hn'.
    case_decide; [injection Hn' as <-; left; by rewrite Hu|right; by exists n'].
Qed.

Lemma AppInv_step aw aw' :
  AppInv aw → app_step host_of hosts ms clnt_create aw aw' → AppInv aw'.
Proof.
  intros HA (l & Hl & Hex & He). pose proof HA as [HS HP].
  destruct l as [k|k|k n|k|k n|k|t]; cbn [app_exec in_order] in *;
    [apply bind_Some in He as (p & Hp & He); destruct (pr_use p) as [|n' t'|n' t'] eqn:Hu; try done..|].
  - by eapply AppInv_init.
  - destruct Hl as [Hn Hi]. eapply AppInv_acquire; eauto.
  - destruct (held_session _ t') eqn:Hh; simplify_eq. by apply AppInv_entered.
  - eapply AppInv_release; eauto.
  - destruct (w_threads (aw_world aw) !! t') as [[? ? []|]|]; simplify_eq.
    destruct (pi_use _ _ HP _ _ Hp) as [_ Hlk].
    apply (AppInv_use aw k p); [done|done|by split|done|done|]. intros t0 [?|?]; [done|by right].
  - destruct (held_session (aw_world aw) t) eqn:Hh; [done|]. apply bind_Some in He as (w' & He & [= <-]).
    destruct (SysInv_run _ w' t HS Hex He) as [HS' Hkn]. pose proof (run_follows _ _ _ _ He) as Hf.
    split; [done|]. split.
    + intros k p Hp Hi. by apply Hkn, (pi_known _ _ HP _ _ Hp).
    + intros k p Hp. destruct (pi_use _ _ HP _ _ Hp) as [Hc Hlk]. split; [by eapply call_ok_follows|].
      eapply locks_ok_follows; [done..|]. intros n. by eapply not_held_locks.
    + exact (pi_distinct _ _ HP).
Qed.

Lemma AppInv_booted aw : booted_apps ms aw → AppInv aw.
Proof.
  intros [Hsv Hth Hpr]. set (w := aw_world aw) in *.
  assert (∀ j s, w_servers w !! j = Some s → ∃ m, ms !! j = Some m ∧ s = mkServer [] (m_mac m) false [] ∅ true) as Hs.
  { intros j s Hj. destruct (Forall2_lookup_r _ _ _ _ _ Hsv Hj) as (m & Hm & Hi). exists m. split; [done|].
    unfold initialize_global_variable in Hi. by case_decide; simplify_eq. }
  split; split.
  - apply Inv_fresh; [done|]. intros j s (m & _ & ->)%Hs. done.
  - intros j s (m & Hm & ->)%Hs. eauto.
  - intros t j n pc Ht. change (w_threads w !! t = Some (TSession j n pc)) in Ht. by rewrite Hth in Ht.
  - intros k p Hp Hi. destruct (Hpr k p Hp) as (? & _). congruence.
  - intros k p Hp. destruct (Hpr k p Hp) as (_ & Hl & Ho & _).
    split; [unfold call_ok; by rewrite Ho|]. intros n o. by rewrite Hl.
  - intros k1 k2 p1 p2 t Hp1 Hp2 [Ht1|[n Hn]]; destruct (Hpr k1 p1 Hp1) as (_ & Hl & Ho & _).
    + by rewrite Ho in Ht1.
    + by rewrite Hl in Hn.
Qed.

Lemma SysInv_exclusion w : SysInv w → mutual_exclusion w.
Proof.
  intros [HI Hmac Hse]. apply (Inv_exclusion host_of); [done|..].
  - intros i j si sj Hi Hj Heq. destruct (Hmac i si Hi) as (mi & Hmi & Ei), (Hmac j sj Hj) as (mj & Hmj & Ej).
    apply (NoDup_lookup _ i j (m_mac mi) Hmacs); rewrite list_lookup_fmap, ?Hmi, ?Hmj; simpl; congruence.
  - intros t i j n si Ht Hi [sj Hj] Hij. destruct (Hmac i si Hi) as (mi & Hmi & _), (Hmac j sj Hj) as (mj & Hmj & _).
    destruct (lookup_lt_is_Some_2 hosts j) as [a Ha]; [rewrite Hlen; by eapply lookup_lt_Some|].
    assert (a ∈ sv_nodes si) as [k Hk]%list_elem_of_lookup.
    { apply (Hse t i n Held Ht si mi a Hi Hmi). apply list_elem_of_filter.
      split; [by rewrite (Hown i mi j a)|by eapply list_elem_of_lookup_2]. }
    exists k, a. split; [done|]. by apply Hname.
Qed.

Lemma reach_AppInv aw0 aw :
  booted_apps ms aw0 → rtc (app_step host_of hosts ms clnt_create) aw0 aw → AppInv aw.
Proof. intros Hb. eapply rtc_invariant; [intros a b; apply AppInv_step|by apply AppInv_booted]. Qed.

(** A process that is inside a lock has a session that holds it. *)
Lemma AppInv_inside aw k n :
  AppInv aw → inside aw k n → ∃ p t, aw_procs aw !! k = Some p ∧ pr_locks p !! n = Some (Some t) ∧
    holds (aw_world aw) t n.
Proof.
  intros [_ HP] (p & Hp & [o Hn]). destruct (pi_use _ _ HP _ _ Hp) as [_ Hl].
  destruct (Hl n o Hn) as (t & j & -> & _ & _ & Ht). exists p, t. split_and!; [done..|by exists j].
Qed.

(** In every execution of the applications, two processes that are inside one
    lock are one process. *)
Lemma AppInv_exclude aw k1 k2 n : AppInv aw → inside aw k1 n → inside aw k2 n → k1 = k2.
Proof.
  intros HA H1 H2. destruct (AppInv_inside _ _ _ HA H1) as (p1 & t1 & Hp1 & Hl1 & Hh1).
  destruct (AppInv_inside _ _ _ HA H2) as (p2 & t2 & Hp2 & Hl2 & Hh2). destruct HA as [HS HP].
  assert (t1 = t2) as -> by (by eapply (SysInv_exclusion _ HS)).
  eapply (pi_distinct _ _ HP); [exact Hp1|exact Hp2|right; by exists n|right; by exists n].
Qed.

(** A process whose acquire call returns was not inside. *)
Lemma AppInv_enters aw k p n t :
  AppInv aw → aw_procs aw !! k = Some p → pr_use p = Entering n t →
  held_session (aw_world aw) t = true → ¬ inside aw k n.
Proof.
  intros HA Hp Hu Hh Hin. destruct (AppInv_inside _ _ _ HA Hin) as (p' & t' & Hp' & Hl & Hh').
  simplify_eq. destruct HA as [HS HP]. destruct (pi_use _ _ HP _ _ Hp) as [Hc _].
  unfold call_ok in Hc. rewrite Hu in Hc. destruct Hc as (_ & _ & (j & pc & Ht) & Hno).
  unfold held_session in Hh. rewrite Ht in Hh. destruct pc; try done.
  assert (t' = t) as -> by (eapply (SysInv_exclusion _ HS); [exact Hh'|by exists j]). by destruct (Hno n).
Qed.

End cluster.

(** ** What happens without initialization *)

Section uninitialized.
Context (host_of : bytes → option nat) (hosts : list bytes) (ms : list machine).
Context (clnt_create : bytes → Z → Z → bytes → option CLIENT).

(** psu_acquire_lock before psu_init_lock_mgr returns without asking anybody,
    and its caller, whom it tells nothing, is inside: together with any other
    process that is. *)
Theorem acquire_without_init aw k p n :
  aw_procs aw !! k = Some p → pr_use p = NoCall → pr_initialized p = false →
  ∃ aw', app_exec host_of hosts ms clnt_create (PAcquire k n) aw = Some aw' ∧
    inside aw' k n ∧ aw_world aw' = aw_world aw ∧
    ∀ k', k' ≠ k → inside aw k' n → inside aw' k' n.
Proof.
  intros Hp Hu Hi. cbn [app_exec]. rewrite Hp. cbn. rewrite Hu.
  unfold app_acquire, psu_acquire_lock. rewrite Hi. eexists. split; [done|]. split_and!; [|done|].
  - eexists. split; [apply list_lookup_insert_eq; by eapply lookup_lt_Some|].
    cbn. rewrite lookup_insert_eq. by eexists.
  - intros k' Hne (p' & Hp' & Hl). exists p'. split; [|done]. cbn. by rewrite list_lookup_insert_ne.
Qed.

(** Steps of the servers. *)
Definition server_runs (aw aw' : AppWorld) : Prop :=
  ∃ t, app_exec host_of hosts ms clnt_create (PRun t) aw = Some aw'.

Lemma own_server_runs t w w' procs :
  rtc (own_step host_of t) w w' → rtc server_runs (mkAppWorld w procs) (mkAppWorld w' procs).
Proof.
  apply (rtc_congruence (λ w, mkAppWorld w procs)). intros w1 w2 [He Hno]. exists t. cbn [app_exec aw_world].
  assert (held_session w1 t = false) as ->.
  { unfold held_session. destruct (w_threads w1 !! t) as [[j n []|]|] eqn:Ht; try done. by destruct (Hno j n). }
  by rewrite He.
Qed.

(** An acquisition on a server that knows no peers asks nobody. *)
Lemma acquire_no_peers w j n s :
  w_servers w !! j = Some s → sv_wf s → sv_alive s = true → sv_nodes s = [] →
  lv_lock (view s n) = false → int_ok (lv_highestseqno (view s n) + 1) →
  let t := length (w_threads w) in
  ∃ s', rtc (own_step host_of t) (spawn (TSession j n AqFind) w)
          (upd t (TSession j n Held) j s' (spawn (TSession j n AqFind) w)).
Proof.
  intros Hj Hwf Ha Hn Hl Hok t. set (w1 := spawn _ w).
  assert (w_threads w1 !! t = Some (TSession j n AqFind)) as Ht by (apply lookup_snoc_Some; by right).
  destruct (run_acquire_alone s n Hwf Hl Hok) as (s' & p & Hr & Hf & (v & Hv & _) & _ & _).
  exists s'. etrans; [by eapply (run_acquire_own _ 5)|].
  rewrite <-(upd_upd t (TSession j n (AqLoop p 0)) (TSession j n Held) j s' s' w1).
  eapply (run_acquire_own _ 1); [by erewrite upd_thread_eq|by erewrite upd_server_eq| |].
  - by rewrite (fr_alive _ _ _ Hf).
  - cbn [run_acquire acquire_step]. rewrite Hv. cbn [mbind option_bind].
    by rewrite (fr_nodes _ _ _ Hf), Hn.
Qed.

(** C24: psu_init_lock_mgr does not notice that its INIT_LOCK_MGR call has failed: from
    any state in which a process of a machine whose server has no peers yet and a free
    lock variable makes such a failing call while a process elsewhere is inside the
    lock, the call leaves the servers as they are, and the process's psu_acquire_lock is
    granted by its local server without asking anyone: both processes are inside. *)
Theorem unknown_peers_not_asked aw k k' p n s client :
  Forall (λ a, NUL ∉ a) hosts → fits hosts → local_client clnt_create = Ret client → int_ok n →
  aw_procs aw !! k = Some p → pr_use p = NoCall →
  w_servers (aw_world aw) !! pr_node p = Some s → sv_wf s → sv_alive s = true → sv_nodes s = [] →
  lv_lock (view s n) = false → int_ok (lv_highestseqno (view s n) + 1) →
  k' ≠ k → inside aw k' n →
  ∃ aw1 aw2 aw3 aw4,
    app_exec host_of hosts ms clnt_create (PInitFail k) aw = Some aw1 ∧ aw_world aw1 = aw_world aw ∧
    app_exec host_of hosts ms clnt_create (PAcquire k n) aw1 = Some aw2 ∧ rtc server_runs aw2 aw3 ∧
    app_exec host_of hosts ms clnt_create (PEntered k) aw3 = Some aw4 ∧ inside aw4 k n ∧ inside aw4 k' n.
Proof.
  intros Hnul Hfits Hc Hok Hp Hu Hs Hwf Ha Hn Hl Hseq Hne Hin.
  pose proof (lookup_lt_Some _ _ _ Hp) as Hlt. destruct (node_string_ok hosts Hnul Hfits) as (cap & Hstr & _).
  set (w := aw_world aw) in *. set (j := pr_node p) in *. set (t := length (w_threads w)).
  set (p1 := mkProcess j true (pr_locks p) NoCall). set (p2 := set_use (Entering n t) p1).
  destruct (acquire_no_peers w j n s Hs Hwf Ha Hn Hl Hseq) as (s' & Hr). fold t in Hr.
  set (w2 := spawn _ w) in Hr. set (w3 := upd _ _ _ _ w2) in Hr.
  set (procs := <[k := p2]> (<[k := p1]> (aw_procs aw))).
  exists (set_proc k p1 w aw), (mkAppWorld w2 procs), (mkAppWorld w3 procs).
  assert (procs !! k = Some p2) as Hp2 by (unfold procs; rewrite list_lookup_insert_eq; [done|by rewrite length_insert]).
  assert (held_session w3 t = true) as Hh.
  { eapply held_session_true. unfold w3. erewrite upd_thread_eq; [done|]. apply lookup_snoc_Some. by right. }
  eexists. split_and!.
  - cbn [app_exec]. rewrite Hp. cbn [mbind option_bind]. rewrite Hu.
    unfold app_init_fail, psu_init_lock_mgr. rewrite Hstr. cbn [obind]. rewrite Hc. done.
  - done.
  - cbn [app_exec set_proc aw_procs]. rewrite list_lookup_insert_eq by done. cbn [mbind option_bind].
    unfold app_acquire, psu_acquire_lock. cbn [pr_use pr_initialized p1]. rewrite Hc. cbn [obind].
    rewrite (deliver_ok _ (mkThreadData acquire_lock_local (ArgInt n))) by (by constructor).
    cbn [exec aw_world pr_node p1 set_proc]. unfold live. rewrite Hs. cbn [mbind option_bind]. by rewrite Ha.
  - by apply (own_server_runs t).
  - cbn [app_exec aw_procs aw_world]. rewrite Hp2. cbn [mbind option_bind pr_use p2 set_use]. by rewrite Hh.
  - eexists. split; [apply list_lookup_insert_eq; by eapply lookup_lt_Some|].
    cbn. rewrite lookup_insert_eq. by eexists.
  - destruct Hin as (p' & Hp' & Hl'). exists p'. split; [|done]. cbn. unfold procs. by rewrite !list_lookup_insert_ne.
Qed.

End uninitialized.

(** ** Witnesses *)

Definition in_orderb (l : app_label) (aw : AppWorld) : bool :=
  match l with
  | PInitFail _ => false
  | PAcquire k n => int_okb n && match aw_procs aw !! k with Some p => pr_initialized p | None => true end
  | PRelease k n =>
      match aw_procs aw !! k with Some p => bool_decide (is_Some (pr_locks p !! n)) | None => true end
  | _ => true
  end.

Lemma in_orderb_ok l aw : in_orderb l aw = true → in_order l aw.
Proof.
  destruct l; try done; cbn.
  - rewrite andb_true_iff. intros [Hn Hp]. split; [by apply int_okb_spec|].
    intros p Hk. by rewrite Hk in Hp.
  - intros Hp p Hk. rewrite Hk in Hp. by apply bool_decide_eq_true in Hp.
Qed.

(** Run a trace of steps in order. *)
Fixpoint app_trace (ls : list app_label) (aw : AppWorld) : option AppWorld :=
  match ls with
  | [] => Some aw
  | l :: ls' =>
      if in_orderb l aw && one_writer (aw_world aw) then
        app_exec example_host_of example_hosts example_machines example_create l aw ≫= app_trace ls'
      else None
  end.

(** Three machines; two processes on machine 0 and one on machine 1. *)
Definition booted_cluster : AppWorld :=
  mkAppWorld (mkWorld ((λ m, mkServer [] (m_mac m) false [] ∅ true) <$> example_machines) [])
    [mkProcess 0 false ∅ NoCall; mkProcess 1 false ∅ NoCall; mkProcess 0 false ∅ NoCall].

(** Process 0 initializes its server and enters lock 1 while the servers of
    machines 1 and 2 have no peers yet; process 2 initializes machine 0's
    server once more while process 0 is inside. *)
Definition shared_machine : list app_label :=
  [PInit 0; PAcquire 0 1] ++ replicate 6 (PRun 0) ++ replicate 4 (PRun 1) ++ replicate 2 (PRun 0) ++
  replicate 4 (PRun 2) ++ replicate 2 (PRun 0) ++ [PEntered 0; PInit 2].

Definition shared_world : AppWorld := default booted_cluster (app_trace shared_machine booted_cluster).

Lemma booted_cluster_ok : booted_apps example_machines booted_cluster.
Proof.
  split; [repeat constructor|done|].
  intros [|[|[|k]]] p Hp; vm_compute in Hp; simplify_eq; cbn; split_and!; try done; lia.
Qed.

Lemma example_hosts_named j a : example_hosts !! j = Some a → example_host_of a = Some j.
Proof. intros Hj. destruct j as [|[|[|j]]]; vm_compute in Hj; simplify_eq; by vm_compute. Qed.

Lemma example_hosts_owned i m j a :
  example_machines !! i = Some m → example_hosts !! j = Some a → a ∈ m_ips m ↔ i = j.
Proof.
  intros Hi Hj.
  destruct i as [|[|[|i]]]; vm_compute in Hi; simplify_eq;
    destruct j as [|[|[|j]]]; vm_compute in Hj; simplify_eq; cbn [m_ips];
    (split; [intros Hx; apply (bool_decide_pack _) in Hx; vm_compute in Hx; done
            |intros Hij; first [discriminate Hij|apply (bool_decide_unpack _); vm_compute; exact I]]).
Qed.

Lemma shared_world_inside : inside shared_world 0 1.
Proof.
  exists (mkProcess 0 true {[1 := Some 0%nat]} NoCall). split; [vm_compute; reflexivity|].
  vm_compute. by eexists.
Qed.

Lemma acquire_without_init_witness :
  ∃ aw', app_exec example_host_of example_hosts example_machines example_create (PAcquire 1 1) shared_world =
      Some aw' ∧ inside aw' 1 1 ∧ inside aw' 0 1.
Proof.
  destruct (acquire_without_init example_host_of example_hosts example_machines example_create shared_world 1
    (mkProcess 1 false ∅ NoCall) 1) as (aw' & He & Hin & _ & Hk); [vm_compute; reflexivity..|].
  exists aw'. split; [exact He|]. split; [exact Hin|]. apply Hk; [discriminate|].
  exact shared_world_inside.
Defined.

Lemma shared_world_wf : all_wf (aw_world shared_world).
Proof.
  intros [|[|[|j]]] s Hj; vm_compute in Hj; simplify_eq; unfold sv_wf; simpl; repeat constructor; set_solver.
Qed.

Lemma unknown_peers_not_asked_witness : ∃ aw1 aw2 aw3 aw4,
  app_exec example_host_of example_hosts example_machines example_create (PInitFail 1) shared_world = Some aw1 ∧
  app_exec example_host_of example_hosts example_machines example_create (PAcquire 1 1) aw1 = Some aw2 ∧
  rtc (server_runs example_host_of example_hosts example_machines example_create) aw2 aw3 ∧
  app_exec example_host_of example_hosts example_machines example_create (PEntered 1) aw3 = Some aw4 ∧
  inside aw4 1 1 ∧ inside aw4 0 1.
Proof.
  destruct (unknown_peers_not_asked example_host_of example_hosts example_machines example_create shared_world
    1 0 (mkProcess 1 false ∅ NoCall) 1
    (default (mkServer [] 0 false [] ∅ false) (w_servers (aw_world shared_world) !! 1%nat))
    (mkClient (cstr "127.0.0.1") PSU_DIST_LOCK_MGR 1 (cstr "tcp") (Some 3600) None))
    as (aw1 & aw2 & aw3 & aw4 & H1 & _ & H2 & H3 & H4 & H5 & H6).
  - apply (bool_decide_unpack _). vm_compute. exact I.
  - vm_compute. discriminate.
  - vm_compute. reflexivity.
  - split; vm_compute; discriminate.
  - vm_compute. reflexivity.
  - reflexivity.
  - vm_compute. reflexivity.
  - apply (shared_world_wf 1%nat). vm_compute. reflexivity.
  - vm_compute. reflexivity.
  - vm_compute. reflexivity.
  - vm_compute. reflexivity.
  - split; vm_compute; discriminate.
  - discriminate.
  - exact shared_world_inside.
  - exists aw1, aw2, aw3, aw4. split_and!; [exact H1|exact H2|exact H3|exact H4|exact H5|exact H6].
Defined.
