(* ===== verification/LockAppSpec.v ===== *)
(** * The lock service as applications see it

    The events at the interface of the library, returns of [psu_acquire_lock]
    and calls of [psu_release_lock], are those of an abstract lock service: a
    table of owners in which a free lock can be taken and only the owner gives
    a lock back. *)

From S2P Require Import Prelude CString Xdr Utility LockMsg LockServer LockSystem LockSafety LockProgress LockSpec LockScenarios LockClient Dispatch LockApp.

(** ** The events of the system *)


Section spec.
Context (host_of : bytes → option nat) (hosts : list bytes) (ms : list machine).
Context (clnt_create : bytes → Z → Z → bytes → option CLIENT).



(** ** Lemmas *)













End spec.

Section refinement.
Context (host_of : bytes → option nat) (hosts : list bytes) (ms : list machine).
Context (clnt_create : bytes → Z → Z → bytes → option CLIENT) (client : CLIENT).
Hypothesis Htok : Forall (token_ok COMMA) hosts.
Hypothesis Hfits : fits hosts.
Hypothesis Hlen : length hosts = length ms.
Hypothesis Hname : ∀ j a, hosts !! j = Some a → host_of a = Some j.
Hypothesis Hown : ∀ i m j a, ms !! i = Some m → hosts !! j = Some a → a ∈ m_ips m ↔ i = j.
Hypothesis Hms : Forall (λ m, m_mac m ≠ 0 ∧ Forall (λ a, NUL ∉ a) (m_ips m)) ms.
Hypothesis Hmacs : NoDup (m_mac <$> ms).
Hypothesis Hclient : local_client clnt_create = Ret client.


End refinement.

(** ** Witness *)




