(* ===== verification/LockMisuse.v ===== *)
(** * Releasing a lock that one does not hold

    [psu_release_lock] checks only that the process has called
    [psu_init_lock_mgr], and [release_lock_1_svc] only that the server knows
    the lock: a release by a process that has not acquired the lock is served
    as any other.  So the discipline [in_order] of [LockApp.v] is needed. *)

From S2P Require Import Prelude CString Xdr Utility LockMsg LockServer LockSystem LockSafety LockProgress LockSpec LockScenarios LockWitness LockClient Dispatch LockApp.

Section misuse.
Context (host_of : bytes → option nat) (hosts : list bytes) (ms : list machine).
Context (clnt_create : bytes → Z → Z → bytes → option CLIENT) (client : CLIENT).
Hypothesis Hclient : local_client clnt_create = Ret client.

(** Process [k] is initialized, in no call, and does not have lock [n]. *)
Record stray (aw : AppWorld) (k : nat) (p : Process) (n : Z) : Prop := {
  sy_proc : aw_procs aw !! k = Some p;
  sy_call : pr_use p = NoCall;
  sy_init : pr_initialized p = true;
  sy_lock : pr_locks p !! n = None;
  sy_int : int_ok n
}.

(** ** Lemmas *)

Lemma stray_release_starts aw k p n s :
  stray aw k p n → w_servers (aw_world aw) !! pr_node p = Some s → sv_alive s = true →
  ∃ aw', app_exec host_of hosts ms clnt_create (PRelease k n) aw = Some aw' ∧
    aw_world aw' = spawn (TSession (pr_node p) n RlFind) (aw_world aw).
Proof.
  intros [Hp Hu Hi Hl Hn] Hs Ha. cbn [app_exec]. rewrite Hp. cbn [mbind option_bind]. rewrite Hu.
  unfold app_release, psu_release_lock. rewrite Hi, Hclient, Hl. cbn [obind].
  rewrite (deliver_ok _ (mkThreadData release_lock_local (ArgInt n))) by (by constructor).
  cbn [mjoin option_join start_release]. unfold live. rewrite Hs. cbn [mbind option_bind]. rewrite Ha.
  by eexists.
Qed.

(** ** Results *)

(** The release of a lock that nobody has asked this node for fails the
    assertion of line 149: the server's process ends. *)
Theorem stray_release_ends_server aw k p n s :
  stray aw k p n → w_servers (aw_world aw) !! pr_node p = Some s → sv_alive s = true →
  n ∉ (lv_lock_number <$> sv_lockvar_list s) →
  ∃ aw1 w2, app_exec host_of hosts ms clnt_create (PRelease k n) aw = Some aw1 ∧
    exec host_of (Run (length (w_threads (aw_world aw)))) (aw_world aw1) = Some w2 ∧
    live w2 (pr_node p) = None.
Proof.
  intros Hst Hs Ha Hno. apply lockvar_index_None in Hno. set (j := pr_node p) in *. set (w := aw_world aw) in *.
  assert (live w j = Some s) as Hl by (unfold live; rewrite Hs; simpl; by rewrite Ha).
  destruct (stray_release_starts aw k p n s Hst Hs Ha) as (aw1 & He & Hw). fold j w in Hw.
  exists aw1, (set_server j (set_alive false s) (aw_world aw1)). rewrite Hw.
  split_and!; [done|..].
  - cbn [exec]. rewrite (proj2 (lookup_snoc_Some (w_threads w) (TSession j n RlFind) (TSession j n RlFind) _))
      by (by right).
    cbn [mbind option_bind]. change (live (spawn _ w) j) with (live w j). rewrite Hl. cbn [mbind option_bind].
    unfold run_session, session_step. cbn [acquire_step release_step]. unfold find_lockvar. by rewrite Hno.
  - unfold live. cbn. by rewrite list_lookup_insert_eq by (by eapply lookup_lt_Some).
Qed.

(** C27: psu_release_lock and release_lock_1_svc do not check who holds the lock: when a
    session of a machine holds a lock with no deferred requests, an initialized process
    of that machine that has not acquired it calls psu_release_lock, and the peers have
    not asked for the lock, the call is served and an execution leads to two holders. *)
Theorem stray_release_breaks_lock aw k p n q s t :
  stray aw k p n → all_wf (aw_world aw) →
  w_servers (aw_world aw) !! pr_node p = Some s → sv_alive s = true → ptr s n q →
  lv_deffered (view s n) = Some [] → int_ok (lv_highestseqno (view s n) + 1) →
  (∀ i a, sv_nodes s !! i = Some a → host_of a ≠ Some (pr_node p) ∧ idle_peer host_of (aw_world aw) n a) →
  w_threads (aw_world aw) !! t = Some (TSession (pr_node p) n Held) →
  ∃ aw1 w', app_exec host_of hosts ms clnt_create (PRelease k n) aw = Some aw1 ∧
    rtc (step host_of) (aw_world aw1) w' ∧ ¬ mutual_exclusion w'.
Proof.
  intros Hst Hwf Hs Ha Hp Hd Hok Hpeers Ht.
  destruct (stray_release_starts aw k p n s Hst Hs Ha) as (aw1 & He & Hw).
  set (j := pr_node p) in *. set (w := aw_world aw) in *. set (w1 := spawn (TSession j n RlFind) w) in *.
  assert (w_threads w1 !! length (w_threads w) = Some (TSession j n RlFind)) as Ht1
    by (apply lookup_snoc_Some; by right).
  destruct (run_release_alone 5 s n q [] (Hwf _ _ Hs) Hp Hd) as (s2 & Hr & Hf & Hv & _); [set_solver|simpl; lia|].
  pose proof (run_release_rtc host_of 5 _ j n s RlFind s2 Released w1 Ht1 Hs Ha Hr) as H1.
  set (w2 := upd _ _ j s2 w1) in H1.
  assert (w_servers w2 !! j = Some s2) as Hs2 by (by eapply upd_server_eq).
  destruct (acquire_idle host_of w2 j n s2) as (w3 & s3 & q3 & Hr3 & Hh3 & _ & _ & _ & _ & _ & _ & Hkeep).
  - intros j0 s0 [[_ ->]|[_ H0]]%upd_server_inv; [exact (fr_wf _ _ _ Hf)|by eapply Hwf].
  - done.
  - by rewrite (fr_alive _ _ _ Hf).
  - by rewrite Hv.
  - by rewrite Hv.
  - intros i a Hi. rewrite (fr_nodes _ _ _ Hf) in Hi. destruct (Hpeers i a Hi) as [Hne (j' & s' & Hh & Hj' & Hid)].
    split; [done|]. exists j', s'. split; [done|]. unfold w2. rewrite upd_server_ne by congruence. done.
  - exists aw1, w3. split; [done|]. rewrite Hw. split; [by etrans|].
    intros Hm. assert (w_threads w2 !! t = Some (TSession j n Held)) as Ht2.
    { unfold w2. rewrite upd_thread_ne by (apply lookup_lt_Some in Ht; lia). by apply lookup_app_l_Some. }
    assert (t = length (w_threads w2)) as Heq by (eapply (Hm _ _ n); [exists j; by apply Hkeep|by exists j]).
    apply lookup_lt_Some in Ht2. lia.
Qed.

End misuse.

(** ** Witness *)

(** Process 0 of machine 0 is inside lock 1; process 2 of the same machine has
    called [psu_init_lock_mgr] and has no lock. *)
Lemma stray_release_breaks_lock_witness :
  ∃ aw1 w', app_exec example_host_of example_hosts example_machines example_create (PRelease 2 1) shared_world =
      Some aw1 ∧ rtc (step example_host_of) (aw_world aw1) w' ∧ ¬ mutual_exclusion w'.
Proof.
  apply (stray_release_breaks_lock example_host_of example_hosts example_machines example_create
    (mkClient (cstr "127.0.0.1") PSU_DIST_LOCK_MGR 1 (cstr "tcp") (Some 3600) None) eq_refl
    shared_world 2 (mkProcess 0 true ∅ NoCall) 1 0
    (default (booted Crash) (w_servers (aw_world shared_world) !! 0%nat)) 0).
  - split; try reflexivity. split; vm_compute; discriminate.
  - exact shared_world_wf.
  - vm_compute. reflexivity.
  - vm_compute. reflexivity.
  - eexists. split; vm_compute; reflexivity.
  - vm_compute. reflexivity.
  - split; vm_compute; discriminate.
  - assert (∀ j, (1 ≤ j < 3)%nat → idle_peer example_host_of (aw_world shared_world) 1 (ip j)) as Hidle.
    { intros j Hj. destruct j as [|[|[|j]]]; [lia|..|lia];
        [exists 1%nat|exists 2%nat]; eexists; (split; [vm_compute; reflexivity|]);
        (split; [vm_compute; reflexivity|]); (split; [vm_compute; reflexivity|]);
        (split; [vm_compute; reflexivity|]); eexists; vm_compute; reflexivity. }
    intros i a Hi. do 4 (destruct i as [|i]; [vm_compute in Hi; injection Hi as <-; split;
      [by vm_compute|first [exact (Hidle 1%nat ltac:(lia))|exact (Hidle 2%nat ltac:(lia))]]|]).
    by vm_compute in Hi.
  - vm_compute. reflexivity.
Defined.
