(* ===== verification/DsmMsg.v ===== *)
(** * Shared memory messages

    The structs of [psu_dsm_msg.h] and their XDR routines
    ([psu_dsm_msg_xdr.c]).  An array field is a byte list of the array's
    length; an enum is its [int] value, which the decoder does not check. *)

From S2P Require Import Prelude Xdr.

Definition PAGE_SIZE : nat := 4096.
Definition NAME_LEN : nat := 32.
Definition IP_LEN : nat := 16.

Definition PSU_DSM : Z := 536879668.  (* 0x20002234 *)
Definition PSU_DSM_VERS : Z := 1.
Definition PSU_DSM_PAGE_FIND : Z := 1.
Definition PSU_DSM_PAGE_LOCATE : Z := 2.
Definition PSU_DSM_PAGE_CREAT : Z := 3.
Definition PSU_DSM_PAGE_UPDATE : Z := 4.
Definition PSU_DSM_PAGE_REQUEST : Z := 5.
Definition PSU_DSM_PAGE_FETCH : Z := 6.
Definition PSU_DSM_PAGE_ACK : Z := 7.

(** [enum mode_t] *)
Definition NA : Z := 0.
Definition RO : Z := 1.
Definition RW : Z := 2.

(** [struct host_t] *)
Record host_t := mkHost { h_ip : bytes }.

(** [struct page_t] *)
Record page_t := mkPage { pg_size : Z; pg_addr : bytes }.

(** [struct pageid_t] *)
Record pageid_t := mkPageid { pid_name : bytes; pid_size : Z }.

(** [struct request_t] *)
Record request_t := mkRequest { rq_pageid : pageid_t; rq_mode : Z; rq_from : bytes }.

Definition set_h_ip (a : bytes) (h : host_t) : host_t := mkHost a.
Definition set_pg_size (a : Z) (p : page_t) : page_t := mkPage a (pg_addr p).
Definition set_pg_addr (a : bytes) (p : page_t) : page_t := mkPage (pg_size p) a.
Definition set_pid_name (a : bytes) (p : pageid_t) : pageid_t := mkPageid a (pid_size p).
Definition set_pid_size (a : Z) (p : pageid_t) : pageid_t := mkPageid (pid_name p) a.
Definition set_rq_pageid (a : pageid_t) (r : request_t) : request_t :=
  mkRequest a (rq_mode r) (rq_from r).
Definition set_rq_mode (a : Z) (r : request_t) : request_t :=
  mkRequest (rq_pageid r) a (rq_from r).
Definition set_rq_from (a : bytes) (r : request_t) : request_t :=
  mkRequest (rq_pageid r) (rq_mode r) a.

#[export] Instance pageid_eq_dec : EqDecision pageid_t.
Proof. solve_decision. Defined.

(** ** Values and wire images *)

(** The arrays of an object in memory have their declared lengths. *)
Definition host_shape (h : host_t) : Prop := length (h_ip h) = IP_LEN.
Definition page_shape (p : page_t) : Prop := length (pg_addr p) = PAGE_SIZE.
Definition pageid_shape (p : pageid_t) : Prop := length (pid_name p) = NAME_LEN.
Definition request_shape (r : request_t) : Prop :=
  pageid_shape (rq_pageid r) ∧ length (rq_from r) = IP_LEN.

Definition page_valid (p : page_t) : Prop := page_shape p ∧ uint_ok 32 (pg_size p).
Definition pageid_valid (p : pageid_t) : Prop := pageid_shape p ∧ uint_ok 32 (pid_size p).
Definition request_valid (r : request_t) : Prop :=
  pageid_valid (rq_pageid r) ∧ int_ok (rq_mode r) ∧ length (rq_from r) = IP_LEN.

Definition enc_chars (l : bytes) : bytes := vec_enc enc_char l.
Definition enc_host_t (h : host_t) : bytes := enc_chars (h_ip h).
Definition enc_page_t (p : page_t) : bytes := enc_u_int (pg_size p) ++ enc_chars (pg_addr p).
Definition enc_pageid_t (p : pageid_t) : bytes := enc_chars (pid_name p) ++ enc_u_int (pid_size p).
Definition enc_request_t (r : request_t) : bytes :=
  enc_pageid_t (rq_pageid r) ++ enc_int (rq_mode r) ++ enc_chars (rq_from r).

(** ** Routines *)

Section routines.
Context {X : Type} `{XdrStream X}.

Definition xdr_host_t : filter X host_t :=
  ffield h_ip set_h_ip (xdr_vector xdr_char IP_LEN) ;;; fdone.

Definition xdr_page_t : filter X page_t :=
  ffield pg_size set_pg_size xdr_u_int ;;;
  ffield pg_addr set_pg_addr (xdr_vector xdr_char PAGE_SIZE) ;;;
  fdone.

Definition xdr_pageid_t : filter X pageid_t :=
  ffield pid_name set_pid_name (xdr_vector xdr_char NAME_LEN) ;;;
  ffield pid_size set_pid_size xdr_u_int ;;;
  fdone.

Definition xdr_mode_t : filter X Z := xdr_enum ;;; fdone.

Definition xdr_request_t : filter X request_t :=
  ffield rq_pageid set_rq_pageid xdr_pageid_t ;;;
  ffield rq_mode set_rq_mode xdr_mode_t ;;;
  ffield rq_from set_rq_from (xdr_vector xdr_char IP_LEN) ;;;
  fdone.

Context `{!XdrLaws X}.

(** ** Lemmas *)

Lemma length_enc_chars l : length (enc_chars l) = (4 * length l)%nat.
Proof.
  induction l as [|b l IH]; [done|]. unfold enc_chars in *. rewrite vec_enc_cons, length_app, IH.
  unfold enc_char. rewrite length_be_bytes. simpl. lia.
Qed.

Lemma xdr_chars_ok n :
  filter_ok (xdr_vector xdr_char n) enc_chars (λ l, length l = n) (λ l, length l = n) (λ v _, v).
Proof.
  eapply filter_ok_ext; [exact (xdr_array_ok _ _ _ n xdr_char_ok)|..]; try done.
  intros v Hv. split; [|done]. split; [done|by apply Forall_true].
Qed.

Lemma xdr_host_t_ok :
  filter_ok xdr_host_t enc_host_t host_shape host_shape (λ v _, v).
Proof.
  eapply filter_ok_ext.
  - unfold xdr_host_t. xdr_field host_shape ltac:(apply xdr_chars_ok). apply fdone_ok.
  - intros v Hv. split; [done|]. unfold enc_host_t. by rewrite app_nil_r.
  - done.
  - by intros [] [] _ _.
  - done.
Qed.

Lemma xdr_page_t_ok : filter_ok xdr_page_t enc_page_t page_valid page_shape (λ v _, v).
Proof.
  eapply filter_ok_ext.
  - unfold xdr_page_t.
    xdr_field page_shape ltac:(apply xdr_u_int_ok).
    xdr_field page_shape ltac:(apply xdr_chars_ok). apply fdone_ok.
  - intros v [Hs Hv]. split; [done|]. unfold enc_page_t. by rewrite app_nil_r.
  - done.
  - by intros [] [] _ _.
  - by intros v o [? _] _.
Qed.

Lemma xdr_pageid_t_ok : filter_ok xdr_pageid_t enc_pageid_t pageid_valid pageid_shape (λ v _, v).
Proof.
  eapply filter_ok_ext.
  - unfold xdr_pageid_t.
    xdr_field pageid_shape ltac:(apply xdr_chars_ok).
    xdr_field pageid_shape ltac:(apply xdr_u_int_ok). apply fdone_ok.
  - intros v [Hs Hv]. split; [done|]. unfold enc_pageid_t. by rewrite app_nil_r.
  - done.
  - by intros [] [] _ _.
  - by intros v o [? _] _.
Qed.

Lemma xdr_mode_t_ok : filter_ok xdr_mode_t enc_int int_ok (λ _, True) (λ v _, v).
Proof. apply fonly_ok, xdr_enum_ok. Qed.

Lemma xdr_request_t_ok :
  filter_ok xdr_request_t enc_request_t request_valid request_shape (λ v _, v).
Proof.
  eapply filter_ok_ext.
  - unfold xdr_request_t.
    xdr_field request_shape ltac:(apply xdr_pageid_t_ok);
      [by intros o [? _]|by intros v o [? _] [_ ?]|].
    xdr_field request_shape ltac:(apply xdr_mode_t_ok).
    xdr_field request_shape ltac:(apply xdr_chars_ok);
      [by intros o [_ ?]|by intros v o ? [? _]|]. apply fdone_ok.
  - intros v (H1 & H2 & H3). split; [done|]. unfold enc_request_t. by rewrite app_nil_r.
  - done.
  - by intros [] [] _ _.
  - by intros v o ([? _] & _ & ?) _.
Qed.

(** xdr_page_t carries every page in 16388 bytes and back, with the same failure
    behaviour. *)
Theorem xdr_page_t_roundtrip :
  roundtrips xdr_page_t page_valid page_shape (λ _, (4 + 4 * PAGE_SIZE)%nat).
Proof.
  eapply filter_ok_roundtrips; [apply xdr_page_t_ok|]. intros v [Hs _].
  unfold enc_page_t, enc_u_int. by rewrite length_app, length_be_bytes, length_enc_chars, Hs.
Qed.

(** C40: xdr_request_t writes every request as one image of 200 bytes if there is room
    and returns FALSE otherwise; decoding the image into any object gives the value back
    and consumes exactly it, and a proper prefix is refused. *)
Theorem xdr_request_t_roundtrip :
  roundtrips xdr_request_t request_valid request_shape (λ _, (4 * NAME_LEN + 4 + 4 + 4 * IP_LEN)%nat).
Proof.
  eapply filter_ok_roundtrips; [apply xdr_request_t_ok|]. intros v ([Hs _] & _ & Hf).
  unfold enc_request_t, enc_pageid_t, enc_u_int, enc_int.
  by rewrite !length_app, !length_be_bytes, !length_enc_chars, Hs, Hf.
Qed.

(** The host structure round-trips in 64 bytes. *)
Theorem xdr_host_t_roundtrip :
  roundtrips xdr_host_t host_shape host_shape (λ _, (4 * IP_LEN)%nat).
Proof.
  eapply filter_ok_roundtrips; [apply xdr_host_t_ok|]. intros v Hs.
  unfold enc_host_t. by rewrite length_enc_chars, Hs.
Qed.

End routines.

(** ** Witnesses *)

Lemma xdr_page_t_roundtrip_witness :
  page_valid (mkPage 7 (replicate PAGE_SIZE x41)) ∧
  roundtrips (xdr_page_t (X := XdrMem)) page_valid page_shape (λ _, (4 + 4 * PAGE_SIZE)%nat).
Proof.
  split; [split; [apply length_replicate|done]|]. exact (xdr_page_t_roundtrip (X := XdrMem)).
Defined.

Lemma xdr_request_t_roundtrip_witness :
  request_valid (mkRequest (mkPageid (replicate NAME_LEN x41) 100) RW (replicate IP_LEN x31)) ∧
  roundtrips (xdr_request_t (X := XdrMem)) request_valid request_shape
    (λ _, (4 * NAME_LEN + 4 + 4 + 4 * IP_LEN)%nat).
Proof. split; [done|]. exact (xdr_request_t_roundtrip (X := XdrMem)). Defined.

Lemma xdr_host_t_roundtrip_witness :
  host_shape (mkHost (replicate IP_LEN x31)) ∧
  roundtrips (xdr_host_t (X := XdrMem)) host_shape host_shape (λ _, (4 * IP_LEN)%nat).
Proof. split; [done|]. exact (xdr_host_t_roundtrip (X := XdrMem)). Defined.
