(* ===== verification/DsmUtil.v ===== *)
(** * Tables of the shared memory server

    [util.c]: the page-name hash, the directory of pages that this server
    owns ([dir_t]) and the table of pages that it maps ([dsm_t]).  A linked
    list is what is reachable from its head pointer; a [next] field that was
    never written is [PWild]. *)

From S2P Require Import Prelude CString Xdr Utility DsmMsg.

Definition MAX_SERV : nat := 40.

(** ** Data *)

(** A pointer to a list node: NULL, a node, or an uninitialized pointer. *)
Inductive plist (A : Type) : Type :=
| PNull
| PNode (a : A) (next : plist A)
| PWild.
Arguments PNull {A}.
Arguments PNode {A} a next.
Arguments PWild {A}.

(** [struct dir_entry_t]; its mutex is never used. *)
Record dir_entry_t := mkDirEntry {
  de_page : pageid_t;
  de_pbits : list Z;     (* mode_t[MAX_SERV] *)
  de_mode : Z            (* mode_t *)
}.

(** [struct dsm_entry_t]; an address that was never written is [None]. *)
Record dsm_entry_t := mkDsmEntry {
  se_page : pageid_t;
  se_addr : option Z;
  se_where : bytes       (* serverid_t *)
}.

Definition dir_t : Type := plist dir_entry_t.
Definition dsm_t : Type := plist dsm_entry_t.

(** ** The hash *)

(** [hash]: [unsigned long] arithmetic. *)
Definition hash_step (h : Z) (c : byte) : Z :=
  wrap 64 (wrap 64 (wrap 64 (Z.shiftl h 5) + h) + b2z c).
Definition hash (str : bytes) : Z := fold_left hash_step (cterm str) 5381.

(** [key_t key = hash(name)]: conversion to [int]. *)
Definition hash_key (name : bytes) : Z := to_signed 32 (hash name).

(** A [pageid_t] in memory: the array [name] and the little-endian [size]. *)
Definition pageid_repr (p : pageid_t) : bytes := pid_name p ++ rev (be_bytes 4 (pid_size p)).

(** [key_t key = hash(pageid.name)]: a name that fills its array has no NUL,
    and [hash] reads on into [size]; without a NUL there it leaves the
    struct. *)
Definition page_key (p : pageid_t) : outcome Z :=
  if decide (NUL ∈ pageid_repr p) then Ret (hash_key (pageid_repr p)) else Undef.

(** ** Local address *)

(** [get_local_ipaddr]: [eth0] is the address [ioctl] reports for "eth0";
    without one, [ifr] is uninitialized.  [ip] is the caller's array. *)
Definition get_local_ipaddr (eth0 : option bytes) (ip : bytes) : outcome bytes :=
  match eth0 with
  | None => Undef
  | Some a => Ret (strncpy ip (inet_ntop a) IP_LEN)
  end.

(** ** Tables *)

(** [search_dir] and [search_dsm]: the position of the first node whose page
    has the name. *)
Fixpoint psearch {A} (name_of : A → bytes) (name : bytes) (p : plist A) : outcome (option nat) :=
  match p with
  | PNull => Ret None
  | PNode a next =>
      if decide (strncmp (name_of a) name NAME_LEN = 0) then Ret (Some O)
      else (let! r := psearch name_of name next in Ret (S <$> r))%outcome
  | PWild => Undef
  end.

Definition dir_name (e : dir_entry_t) : bytes := pid_name (de_page e).
Definition dsm_name (e : dsm_entry_t) : bytes := pid_name (se_page e).

Definition search_dir (page : pageid_t) (dir : dir_t) : outcome (option nat) :=
  psearch dir_name (pid_name page) dir.
Definition search_dsm (page : pageid_t) (dsm : dsm_t) : outcome (option nat) :=
  psearch dsm_name (pid_name page) dsm.

(** The node at a position, and writing through a node pointer. *)
Fixpoint pget {A} (p : plist A) (k : nat) : option A :=
  match p, k with
  | PNode a _, O => Some a
  | PNode _ next, S k' => pget next k'
  | _, _ => None
  end.
Fixpoint pset {A} (p : plist A) (k : nat) (b : A) : plist A :=
  match p, k with
  | PNode _ next, O => PNode b next
  | PNode a next, S k' => PNode a (pset next k' b)
  | _, _ => p
  end.

(** The walk to the last node and [pp->next = new]; an uninitialized [next]
    on the way is undefined behaviour. *)
Fixpoint pappend {A} (p new : plist A) : outcome (plist A) :=
  match p with
  | PNull => Ret new
  | PNode a next => (let! next := pappend next new in Ret (PNode a next))%outcome
  | PWild => Undef
  end.

(** [insert_dir] as its caller sees it: the list reachable from the head
    pointer that it passed, [raw] being the fresh memory of the new node.
    With an empty list the new node is assigned to the parameter only. *)
Definition insert_dir (raw : bytes) (entry : dir_entry_t) (dir : dir_t) : outcome dir_t :=
  let new :=
    PNode (mkDirEntry
      (mkPageid (strncpy raw (pid_name (de_page entry)) NAME_LEN) (pid_size (de_page entry)))
      (take MAX_SERV (de_pbits entry)) (de_mode entry)) PNull in
  match dir with
  | PNull => Ret PNull
  | _ => pappend dir new
  end.

(** [insert_dsm]: also leaves [addr] and [next] of the new node unwritten. *)
Definition insert_dsm (raw rawip : bytes) (page : pageid_t) (where_ : bytes) (dsm : dsm_t)
    : outcome dsm_t :=
  let new :=
    PNode (mkDsmEntry (mkPageid (strncpy raw (pid_name page) NAME_LEN) (pid_size page))
      None (strncpy rawip where_ IP_LEN)) PWild in
  match dsm with
  | PNull => Ret PNull
  | _ => pappend dsm new
  end.

(** [print_dir] and [print_dsm]: the lines they print.  A name without a NUL
    is read past its array. *)
Fixpoint print_nodes {A} (name_of : A → bytes) (p : plist A) : outcome (list bytes) :=
  match p with
  | PNull => Ret []
  | PNode a next =>
      if decide (NUL ∈ name_of a) then
        (let! rest := print_nodes name_of next in
         Ret ((cstr "host " ++ cterm (name_of a)) :: rest))%outcome
      else Undef
  | PWild => Undef
  end.
Definition print_dir (dir : dir_t) : outcome (list bytes) :=
  (let! rest := print_nodes dir_name dir in Ret (cstr "dir = " :: rest))%outcome.
Definition print_dsm (dsm : dsm_t) : outcome (list bytes) :=
  (let! rest := print_nodes dsm_name dsm in Ret (cstr "dsm = " :: rest))%outcome.

(** [get_server_id]: the loop from index [i] over the remaining entries of
    [server]. *)
Fixpoint server_id_loop (servers : list bytes) (host : bytes) (i : Z) : Z :=
  match servers with
  | [] => -1
  | s :: rest =>
      if decide (strncmp s host IP_LEN = 0) then i else server_id_loop rest host (i + 1)
  end.
Definition get_server_id (server : list bytes) (host : bytes) : Z :=
  server_id_loop (take MAX_SERV server) host 0.

(** [get_name_from_addr]: [p] never advances, so the loop runs until the fuel
    is gone unless the list is empty.  Comparing an uninitialized address is
    undefined. *)
Fixpoint get_name_from_addr (fuel : nat) (dentry : dsm_entry_t) (addr : Z) (dsm : dsm_t)
    : option (outcome dsm_entry_t) :=
  match dsm with
  | PNull => Some (Ret dentry)
  | PWild => Some Undef
  | PNode e _ =>
      match fuel, se_addr e with
      | O, _ => None
      | S _, None => Some Undef
      | S f, Some a =>
          let name :=
            if (a <=? addr) && (addr <? a + Z.of_nat PAGE_SIZE)
            then strncpy (pid_name (se_page dentry)) (pid_name (se_page e)) NAME_LEN
            else pid_name (se_page dentry) in
          get_name_from_addr f
            (mkDsmEntry (mkPageid name (pid_size (se_page e))) (Some a)
               (strncpy (se_where dentry) (se_where e) IP_LEN)) addr dsm
      end
  end.

(** ** Reference definitions *)

(** A properly terminated list. *)
Fixpoint plist_of {A} (l : list A) : plist A :=
  match l with
  | [] => PNull
  | a :: l' => PNode a (plist_of l')
  end.

(** Horner's rule for the hash, without wrap-around. *)
Definition hash_poly (s : bytes) : Z :=
  fold_left (λ h c, 33 * h + b2z c) s 5381.

(** The name that the tables compare: at most [NAME_LEN] characters. *)
Definition key_name (name : bytes) : bytes := take NAME_LEN (cterm name).

(** The first entry of a table with a name. *)
Definition lookup_name {A} (name_of : A → bytes) (name : bytes) (l : list A) : option nat :=
  fst <$> list_find (λ a, key_name (name_of a) = key_name name) l.

(** ** Lemmas *)

Lemma hash_step_mod h c : hash_step h c = (33 * h + b2z c) mod 2 ^ 64.
Proof.
  unfold hash_step, wrap. rewrite Z.shiftl_mul_pow2 by lia. change (2 ^ 5) with 32.
  rewrite Z.add_mod_idemp_l, <-Z.add_assoc, Z.add_mod_idemp_l by lia. f_equal. lia.
Qed.

Lemma hash_fold s h :
  fold_left hash_step s (h mod 2 ^ 64) = fold_left (λ h c, 33 * h + b2z c) s h mod 2 ^ 64.
Proof.
  revert h. induction s as [|c s IH]; intros h; [done|]. cbn [fold_left].
  rewrite <-IH. f_equal. rewrite hash_step_mod.
  rewrite <-(Z.add_mod_idemp_l (33 * h)) by lia. rewrite <-(Z.mul_mod_idemp_r 33 h) by lia.
  by rewrite Z.add_mod_idemp_l by lia.
Qed.

Lemma hash_mod s : hash s = hash_poly (cterm s) mod 2 ^ 64.
Proof. unfold hash, hash_poly. by rewrite <-hash_fold. Qed.

(** A name that is shorter than its array gives the key of the name itself. *)
Lemma page_key_strncpy dst name size :
  length dst = NAME_LEN → NUL ∉ name → (length name < NAME_LEN)%nat →
  page_key (mkPageid (strncpy dst name NAME_LEN) size) = Ret (hash_key name).
Proof.
  intros Hd Hn Hl. unfold page_key, pageid_repr. cbn [pid_name pid_size].
  assert (∃ r, strncpy dst name NAME_LEN = name ++ NUL :: r) as [r ->].
  { unfold strncpy. rewrite cterm_no_nul, resize_ge by (done || lia).
    destruct (NAME_LEN - length name)%nat as [|k] eqn:Hk; [lia|]. cbn [replicate].
    rewrite <-app_assoc, <-app_comm_cons. by eexists. }
  rewrite <-app_assoc, <-app_comm_cons. rewrite decide_True by (apply elem_of_app; right; apply elem_of_cons; by left).
  unfold hash_key, hash. by rewrite cterm_app_nul, (cterm_no_nul name).
Qed.

(** A name of 32 characters gives a key that depends on the size too: the
    client, who hashes its own string, looks for another segment. *)
Lemma page_key_full dst name size :
  length dst = NAME_LEN → NUL ∉ name → length name = NAME_LEN → 0 < size < 256 →
  page_key (mkPageid (strncpy dst name NAME_LEN) size) = Ret (hash_key (name ++ [z2b size])).
Proof.
  intros Hd Hn Hl Hs. unfold page_key, pageid_repr. cbn [pid_name pid_size].
  assert (strncpy dst name NAME_LEN = name) as ->.
  { unfold strncpy. by rewrite cterm_no_nul, resize_all_alt, drop_ge, app_nil_r by (done || lia). }
  assert (∀ k, 8 ≤ k → Z.shiftr size k = 0) as Hz.
  { intros k Hk. rewrite Z.shiftr_div_pow2 by lia. apply Z.div_small.
    split; [lia|]. pose proof (Z.pow_le_mono_r 2 8 k). lia. }
  cbn [be_bytes rev app]. rewrite (Hz (8 * Z.of_nat 3)), (Hz (8 * Z.of_nat 2)), (Hz (8 * Z.of_nat 1)) by lia.
  change (8 * Z.of_nat 0) with 0. rewrite Z.shiftr_0_r. change (z2b 0) with NUL.
  rewrite decide_True by (apply elem_of_app; right; do 2 (apply elem_of_cons; right); apply elem_of_cons; by left).
  unfold hash_key, hash. do 3 f_equal.
  replace (name ++ [z2b size; NUL; NUL; NUL]) with ((name ++ [z2b size]) ++ NUL :: [NUL; NUL])
    by (by rewrite <-app_assoc).
  assert (NUL ∉ name ++ [z2b size]) as Hnn.
  { rewrite elem_of_app, list_elem_of_singleton. intros [?|Hx]; [done|].
    apply (f_equal b2z) in Hx. rewrite b2z_z2b in Hx. rewrite Z.mod_small in Hx by lia.
    change (b2z NUL) with 0 in Hx. lia. }
  by rewrite cterm_app_nul, cterm_no_nul.
Qed.

Lemma to_signed_int_ok z : int_ok (to_signed 32 z).
Proof.
  unfold to_signed, int_ok, INT_MIN, INT_MAX. change (2 ^ 32) with 4294967296.
  change (2 ^ (32 - 1)) with 2147483648. pose proof (Z.mod_pos_bound z 4294967296).
  destruct (Z.ltb_spec (z mod 4294967296) 2147483648); lia.
Qed.

Lemma psearch_plist {A} (name_of : A → bytes) name l :
  psearch name_of name (plist_of l) = Ret (lookup_name name_of name l).
Proof.
  induction l as [|a l IH]; [done|]. cbn [plist_of psearch]. unfold lookup_name in *. cbn [list_find].
  pose proof (strncmp_eq (name_of a) name NAME_LEN) as Heq. fold (key_name (name_of a)) (key_name name) in Heq.
  destruct (decide (strncmp (name_of a) name NAME_LEN = 0)) as [Hz|Hz].
  - rewrite decide_True by tauto. done.
  - rewrite decide_False by tauto. rewrite IH. cbn [obind]. do 2 f_equal.
    destruct (list_find _ l) as [[k b]|]; done.
Qed.

Lemma pappend_plist {A} (l : list A) a next :
  pappend (plist_of l) (PNode a next) =
  Ret (foldr (λ b p, PNode b p) (PNode a next) l).
Proof. induction l as [|b l IH]; [done|]. cbn [plist_of pappend]. by rewrite IH. Qed.

Lemma plist_of_snoc {A} (l : list A) a : plist_of (l ++ [a]) = foldr (λ b p, PNode b p) (PNode a PNull) l.
Proof. induction l as [|b l IH]; [done|]. cbn. by rewrite <-IH. Qed.

(** The copy that [insert_dir] stores. *)
Definition dir_copy (raw : bytes) (e : dir_entry_t) : dir_entry_t :=
  mkDirEntry (mkPageid (strncpy raw (pid_name (de_page e)) NAME_LEN) (pid_size (de_page e)))
    (take MAX_SERV (de_pbits e)) (de_mode e).

Lemma insert_dir_plist raw e l : l ≠ [] →
  insert_dir raw e (plist_of l) = Ret (plist_of (l ++ [dir_copy raw e])).
Proof.
  intros Hl. rewrite plist_of_snoc, <-pappend_plist. by destruct l.
Qed.

Lemma key_name_strncpy raw name :
  length raw = NAME_LEN → key_name (strncpy raw name NAME_LEN) = key_name name.
Proof.
  intros Hr. unfold key_name. rewrite cterm_strncpy by done.
  by rewrite take_take, Nat.min_id.
Qed.

Lemma lookup_name_snoc {A} (name_of : A → bytes) name l a :
  lookup_name name_of name l = None →
  lookup_name name_of name (l ++ [a]) =
    if decide (key_name (name_of a) = key_name name) then Some (length l) else None.
Proof.
  unfold lookup_name. induction l as [|b l IH]; intros Hn; cbn [list_find app length].
  - by destruct (decide _).
  - cbn [list_find] in Hn. destruct (decide (key_name (name_of b) = key_name name)); [done|].
    assert (fst <$> list_find (λ a, key_name (name_of a) = key_name name) l = None) as Hl
      by (destruct (list_find _ l) as [[]|]; done).
    specialize (IH Hl). destruct (list_find _ (l ++ [a])) as [[k c]|]; cbn in IH |- *;
      destruct (decide _); cbn; simplify_eq; done.
Qed.

Lemma lookup_name_app {A} (name_of : A → bytes) name l l' k :
  lookup_name name_of name l = Some k → lookup_name name_of name (l ++ l') = Some k.
Proof.
  unfold lookup_name. revert k. induction l as [|b l IH]; intros k Hk; [done|]. cbn [list_find app] in *.
  destruct (decide (key_name (name_of b) = key_name name)); [done|].
  destruct (list_find _ l) as [[k' c]|]; cbn in Hk; [|done]. simplify_eq.
  specialize (IH k' eq_refl). destruct (list_find _ (l ++ l')) as [[]|]; cbn in *; by simplify_eq.
Qed.

Lemma server_id_spec servers host i :
  (server_id_loop servers host i = -1 ∧ ∀ s, s ∈ servers → strncmp s host IP_LEN ≠ 0) ∨
  ∃ k s, server_id_loop servers host i = i + Z.of_nat k ∧ servers !! k = Some s ∧
    strncmp s host IP_LEN = 0 ∧ ∀ k' s', (k' < k)%nat → servers !! k' = Some s' → strncmp s' host IP_LEN ≠ 0.
Proof.
  revert i. induction servers as [|s servers IH]; intros i; cbn [server_id_loop].
  { left. split; [done|]. intros s Hs. by apply not_elem_of_nil in Hs. }
  destruct (decide (strncmp s host IP_LEN = 0)) as [Hz|Hz].
  { right. exists O, s. split_and!; [lia|done|done|]. intros; lia. }
  destruct (IH (i + 1)) as [[-> Hall]|(k & s' & -> & Hk & Hs' & Hfirst)].
  - left. split; [done|]. intros s' [->|?]%elem_of_cons; [done|by apply Hall].
  - right. exists (S k), s'. split_and!; [lia|done|done|].
    intros [|k'] s1 Hlt Hk1; [change (Some s = Some s1) in Hk1; injection Hk1 as <-; exact Hz|]. apply (Hfirst k'); [lia|done].
Qed.

Lemma print_nodes_plist {A} (name_of : A → bytes) l :
  Forall (λ a, NUL ∈ name_of a) l →
  print_nodes name_of (plist_of l) = Ret ((λ a, cstr "host " ++ cterm (name_of a)) <$> l).
Proof.
  induction 1 as [|a l Ha _ IH]; [done|]. cbn [plist_of print_nodes].
  by rewrite decide_True, IH.
Qed.

(** ** Results *)

(** hash is the polynomial 33^n * 5381 + ... of the name's bytes modulo 2^64, and
    the key derived from it is an int that depends on the polynomial modulo 2^32 only.
    *)
Theorem hash_is_polynomial name :
  hash name = hash_poly (cterm name) mod 2 ^ 64 ∧ uint_ok 64 (hash name) ∧
  int_ok (hash_key name) ∧ hash_key name mod 2 ^ 32 = hash_poly (cterm name) mod 2 ^ 32.
Proof.
  split; [apply hash_mod|]. split; [rewrite hash_mod; apply Z.mod_pos_bound; lia|].
  unfold hash_key. split.
  - apply (to_signed_int_ok (hash name)).
  - rewrite to_signed_mod by lia. rewrite hash_mod. symmetry.
    apply Znumtheory.Zmod_div_mod; [lia|lia|]. by exists (2 ^ 32).
Qed.

(** The pages named Ez and FY, different names to the directory, have the same
    shared memory key. *)
Theorem hash_key_collision :
  key_name (cstr "Ez") ≠ key_name (cstr "FY") ∧ hash_key (cstr "Ez") = hash_key (cstr "FY").
Proof. by split; vm_compute. Qed.

(** On a non-empty directory insert_dir appends a copy of the entry, and search_dir
    afterwards finds the first entry whose name agrees on the first 32 characters, the
    new one if there was none. *)
Theorem dir_insert_search raw e l page :
  length raw = NAME_LEN → l ≠ [] →
  ∃ d, insert_dir raw e (plist_of l) = Ret d ∧
    search_dir page d =
      Ret (match lookup_name dir_name (pid_name page) l with
           | Some k => Some k
           | None => if decide (key_name (dir_name e) = key_name (pid_name page))
                     then Some (length l) else None
           end) ∧
    pget d (length l) = Some (dir_copy raw e).
Proof.
  intros Hr Hl. exists (plist_of (l ++ [dir_copy raw e])).
  split_and!; [by apply insert_dir_plist| |].
  - unfold search_dir. rewrite psearch_plist. f_equal.
    destruct (lookup_name dir_name (pid_name page) l) as [k|] eqn:Hk; [by apply lookup_name_app|].
    rewrite lookup_name_snoc by done.
    assert (key_name (dir_name (dir_copy raw e)) = key_name (dir_name e)) as ->
      by (unfold dir_name, dir_copy; simpl; by rewrite key_name_strncpy).
    done.
  - clear Hl. induction l as [|a l IH]; [done|]. exact IH.
Qed.

(** get_server_id returns the index of the first of the 40 server slots that equals
    the host on its first 16 characters, and -1 if there is none. *)
Theorem get_server_id_first server host :
  (get_server_id server host = -1 ∧
   ∀ s, s ∈ take MAX_SERV server → take IP_LEN (cterm s) ≠ take IP_LEN (cterm host)) ∨
  ∃ k s, get_server_id server host = Z.of_nat k ∧ (k < MAX_SERV)%nat ∧ server !! k = Some s ∧
    take IP_LEN (cterm s) = take IP_LEN (cterm host) ∧
    ∀ k' s', (k' < k)%nat → server !! k' = Some s' → take IP_LEN (cterm s') ≠ take IP_LEN (cterm host).
Proof.
  unfold get_server_id.
  destruct (server_id_spec (take MAX_SERV server) host 0) as [[-> Hall]|(k & s & -> & Hk & Hs & Hf)].
  - left. split; [done|]. intros s Hs. rewrite <-strncmp_eq. by apply Hall.
  - right. exists k, s. apply lookup_take_Some in Hk as [Hk Hlt].
    split_and!; [lia|done|done|by apply strncmp_eq|].
    intros k' s' Hk' Hs'. rewrite <-strncmp_eq. apply (Hf k'); [done|].
    apply lookup_take_Some. split; [done|lia].
Qed.

(** get_name_from_addr does not terminate on a non-empty table. *)
Theorem get_name_from_addr_diverges fuel dentry addr e a next :
  se_addr e = Some a → get_name_from_addr fuel dentry addr (PNode e next) = None.
Proof.
  intros Ha. revert dentry. induction fuel as [|f IH]; intros dentry; cbn [get_name_from_addr]; [done|].
  rewrite Ha. apply IH.
Qed.

(** print_dir lists the names in the order of insertion: after an insertion
    into a list that is not empty, one more line. *)
Theorem print_dir_insert raw e l d out :
  length raw = NAME_LEN → l ≠ [] → Forall (λ a, NUL ∈ dir_name a) l →
  (length (cterm (dir_name e)) < NAME_LEN)%nat →
  print_dir (plist_of l) = Ret out → insert_dir raw e (plist_of l) = Ret d →
  print_dir d = Ret (out ++ [cstr "host " ++ cterm (dir_name e)]).
Proof.
  intros Hraw Hl Hn He Hout Hd. rewrite insert_dir_plist in Hd by done. injection Hd as <-.
  unfold print_dir in *. rewrite print_nodes_plist in Hout by done. injection Hout as <-.
  assert (dir_name (dir_copy raw e) = strncpy raw (dir_name e) NAME_LEN) as Hname by done.
  rewrite print_nodes_plist.
  - cbn [obind]. rewrite fmap_app. cbn [fmap list_fmap]. rewrite Hname, cterm_strncpy by done.
    by rewrite take_ge by lia.
  - apply Forall_app. split; [done|]. apply Forall_singleton. rewrite Hname.
    apply dec_stable. intros Hno. apply cterm_no_nul, (f_equal length) in Hno.
    rewrite cterm_strncpy, length_strncpy, Hraw in Hno by (done || lia).
    rewrite length_take in Hno. lia.
Qed.

(** ** Witnesses *)

Definition example_entry (name : bytes) : dir_entry_t :=
  mkDirEntry (mkPageid (strncpy (replicate NAME_LEN x00) name NAME_LEN) 100) (replicate MAX_SERV NA) RW.

Lemma dir_insert_search_witness :
  ∃ d, insert_dir (replicate NAME_LEN xff) (example_entry (cstr "b")) (plist_of [example_entry (cstr "a")]) = Ret d ∧
    search_dir (de_page (example_entry (cstr "b"))) d = Ret (Some 1%nat).
Proof.
  destruct (dir_insert_search (replicate NAME_LEN xff) (example_entry (cstr "b"))
    [example_entry (cstr "a")] (de_page (example_entry (cstr "b")))) as (d & Hd & Hs & _).
  - reflexivity.
  - discriminate.
  - exists d. split; [exact Hd|]. rewrite Hs. vm_compute. reflexivity.
Defined.

Lemma get_name_from_addr_diverges_witness :
  get_name_from_addr 1000 (mkDsmEntry (mkPageid [] 0) None []) 5000
    (PNode (mkDsmEntry (mkPageid [] 0) (Some 4096) []) PNull) = None.
Proof.
  apply (get_name_from_addr_diverges 1000 (mkDsmEntry (mkPageid [] 0) None []) 5000
    (mkDsmEntry (mkPageid [] 0) (Some 4096) []) 4096 PNull). reflexivity.
Defined.
