(* ===== verification/DsmServer.v ===== *)
(** * The shared memory server

    [psu_dsm_server.c]: the seven procedures of one server process, and
    [init] of [psu_dsm_msg_svc.c].  The server is single-threaded, so a
    procedure is a function on the state.  Calls to other servers, the
    creation of clients and the System V shared memory limits are parameters;
    the result of a failed call is NULL ([None]). *)

From S2P Require Import Prelude CString Xdr Utility DsmMsg DsmUtil.

(** ** State *)

Definition PROT_NONE : Z := 0.
Definition PROT_READ : Z := 1.
Definition PROT_WRITE : Z := 2.

(** The globals of the server, the static result of [page_request], and what
    it has done to memory: shared segments by key, the addresses it has
    attached them at, and the protection of each attached page. *)
Record State := mkState {
  ds_nserver : Z;
  ds_server : list bytes;
  ds_dir : dir_t;
  ds_dsm : dsm_t;
  ds_request_result : page_t;
  ds_segs : gmap Z bytes;
  ds_maps : gmap Z Z;
  ds_prot : gmap Z Z
}.

Definition set_dir (d : dir_t) (s : State) : State :=
  mkState (ds_nserver s) (ds_server s) d (ds_dsm s) (ds_request_result s) (ds_segs s) (ds_maps s)
    (ds_prot s).
Definition set_dsm (d : dsm_t) (s : State) : State :=
  mkState (ds_nserver s) (ds_server s) (ds_dir s) d (ds_request_result s) (ds_segs s) (ds_maps s)
    (ds_prot s).
Definition set_request_result (p : page_t) (s : State) : State :=
  mkState (ds_nserver s) (ds_server s) (ds_dir s) (ds_dsm s) p (ds_segs s) (ds_maps s) (ds_prot s).
Definition set_segs (m : gmap Z bytes) (s : State) : State :=
  mkState (ds_nserver s) (ds_server s) (ds_dir s) (ds_dsm s) (ds_request_result s) m (ds_maps s)
    (ds_prot s).
Definition set_maps (m : gmap Z Z) (s : State) : State :=
  mkState (ds_nserver s) (ds_server s) (ds_dir s) (ds_dsm s) (ds_request_result s) (ds_segs s) m
    (ds_prot s).
Definition set_prot (m : gmap Z Z) (s : State) : State :=
  mkState (ds_nserver s) (ds_server s) (ds_dir s) (ds_dsm s) (ds_request_result s) (ds_segs s)
    (ds_maps s) m.

Definition zero_page : bytes := replicate PAGE_SIZE x00.

(** The bytes of a [page_t] in memory (little-endian [size] first). *)
Definition page_repr (p : page_t) : bytes := rev (be_bytes 4 (pg_size p)) ++ pg_addr p.

(** [init]; the other globals are zero at program start. *)
Definition server0 : list bytes :=
  strncpy (replicate IP_LEN x00) (cstr "130.203.16.20") IP_LEN ::
  strncpy (replicate IP_LEN x00) (cstr "130.203.16.21") IP_LEN ::
  replicate (MAX_SERV - 2) (replicate IP_LEN x00).
Definition init : State := mkState 2 server0 PNull PNull (mkPage 0 zero_page) ∅ ∅ ∅.

(** ** Procedures *)

(** What the server asks of its surroundings. *)
Record Net := mkNet {
  net_create : bytes → bool;                        (* clnt_create succeeds *)
  net_find : bytes → pageid_t → option Z;           (* psu_dsm_page_find_1 *)
  net_request : bytes → request_t → option page_t;  (* psu_dsm_page_request_1 *)
  net_fetch : bytes → request_t → option page_t     (* psu_dsm_page_fetch_1 *)
}.

Section procedures.
Context (net : Net).
(** [shmget] succeeds for a key; [shmat] attaches a key at an address. *)
Context (shmget : Z → bool) (shmat : Z → Z).
(** The address of "eth0", and the contents of uninitialized arrays. *)
Context (eth0 : option bytes) (raw : nat → bytes).

Open Scope outcome_scope.

Definition psu_dsm_page_find_1_svc (argp : pageid_t) (s : State) : outcome Z :=
  let! r := search_dir argp (ds_dir s) in
  Ret (match r with None => 0 | Some _ => 1 end).

(** The loop over the other servers: the first one that has the page. *)
Fixpoint find_remote (servers : list bytes) (local_host : bytes) (argp : pageid_t)
    : outcome (option bytes) :=
  match servers with
  | [] => Ret None
  | h :: rest =>
      if decide (strncmp h local_host IP_LEN ≠ 0) then
        if net_create net h then
          match net_find net h argp with
          | None => Crash   (* *result_1 with result_1 == NULL *)
          | Some r => if decide (r = 1) then Ret (Some h) else find_remote rest local_host argp
          end
        else Exit 1
      else find_remote rest local_host argp
  end.

Definition known_servers (s : State) : list bytes := take (Z.to_nat (ds_nserver s)) (ds_server s).

Definition psu_dsm_page_locate_1_svc (argp : pageid_t) (s : State) : outcome host_t :=
  let! local_host := get_local_ipaddr eth0 (raw IP_LEN) in
  let! r := search_dir argp (ds_dir s) in
  match r with
  | None => Ret (mkHost (strncpy (raw IP_LEN) local_host IP_LEN))
  | Some _ =>
      let! found := find_remote (known_servers s) local_host argp in
      match found with
      | Some h => Ret (mkHost (strncpy (raw IP_LEN) h IP_LEN))
      | None => Ret (mkHost (strncpy (raw IP_LEN) [] IP_LEN))
      end
  end.

(** [shmget(key, PAGE_SIZE, ... | IPC_CREAT)] and [shmat]. *)
Definition attach (pageid : pageid_t) (s : State) : outcome (Z * Z * State) :=
  let! key := page_key pageid in
  if shmget key then
    let s := set_segs (<[key := default zero_page (ds_segs s !! key)]> (ds_segs s)) s in
    Ret (key, shmat key, set_maps (<[shmat key := key]> (ds_maps s)) s)
  else Exit 1.

Definition mprotect (addr prot : Z) (s : State) : State := set_prot (<[addr := prot]> (ds_prot s)) s.

(** The branch of lines 97-137: the page is in the local directory.  The
    copy starts at the [page_t] itself, not at its data. *)
Definition creat_local (pageid : pageid_t) (local_host : bytes) (s : State) : outcome (Z * State) :=
  let req := mkRequest pageid RW (raw IP_LEN) in
  if net_create net local_host then
    let result_1 := net_request net local_host req in
    let! (key, addr, s) := attach pageid s in
    let s := mprotect addr PROT_WRITE s in
    match result_1 with
    | None => Crash
    | Some page =>
        let s := set_segs (<[key := take PAGE_SIZE (page_repr page)]> (ds_segs s)) s in
        let! d := insert_dsm (raw NAME_LEN) (raw IP_LEN) pageid local_host (ds_dsm s) in
        Ret (1, set_dsm d s)
    end
  else Exit 1.

(** The branch of lines 158-200: server [h] has the page.  The page that the
    request returns ([result_2]) is not used; the copy reads [PAGE_SIZE] bytes
    from the [int] that [page_find] returned, which is undefined. *)
Definition creat_remote (pageid : pageid_t) (h : bytes) (s : State) : outcome (Z * State) :=
  if net_create net h then
    let! (key, addr, s) := attach pageid s in
    Undef
  else Exit 1.

(** Lines 206-236: the page is new. *)
Definition creat_new (pageid : pageid_t) (local_host : bytes) (s : State) : outcome (Z * State) :=
  let idx := get_server_id (ds_server s) local_host in
  if decide (idx = -1) then Undef   (* new_entry.pbits[-1] = RW *)
  else
    let pbits := <[Z.to_nat idx := RW]> (replicate MAX_SERV NA) in
    let! d := insert_dir (raw NAME_LEN) (mkDirEntry pageid pbits RW) (ds_dir s) in
    let s := set_dir d s in
    let! (key, addr, s) := attach pageid s in
    let! d := insert_dsm (raw NAME_LEN) (raw IP_LEN) pageid local_host (ds_dsm s) in
    let s := set_dsm d s in
    Ret (1, mprotect addr PROT_WRITE s).

Definition psu_dsm_page_creat_1_svc (argp : pageid_t) (s : State) : outcome (Z * State) :=
  let! local_host := get_local_ipaddr eth0 (raw IP_LEN) in
  let! r := search_dir argp (ds_dir s) in
  match r with
  | Some _ => creat_local argp local_host s
  | None =>
      let! found := find_remote (known_servers s) local_host argp in
      match found with
      | Some h => creat_remote argp h s
      | None => creat_new argp local_host s
      end
  end.

(** The static [result] is never assigned. *)
Definition psu_dsm_page_update_1_svc (argp : request_t) (s : State) : outcome (Z * State) :=
  let! r := search_dsm (rq_pageid argp) (ds_dsm s) in
  match r ≫= pget (ds_dsm s) with
  | None => Exit 1
  | Some dp =>
      if decide (rq_mode argp = RO ∨ rq_mode argp = RW) then
        match se_addr dp with
        | None => Undef
        | Some addr =>
            Ret (0, mprotect addr (if decide (rq_mode argp = RO) then PROT_READ else PROT_NONE) s)
        end
      else Ret (0, s)
  end.

Definition psu_dsm_page_fetch_1_svc (argp : request_t) (s : State) : outcome page_t :=
  let! r := search_dsm (rq_pageid argp) (ds_dsm s) in
  match r ≫= pget (ds_dsm s) with
  | None => Exit 1
  | Some p =>
      match se_addr p with
      | None => Undef
      | Some addr =>
          match ds_maps s !! addr ≫= (λ key, ds_segs s !! key) with
          | Some data => Ret (mkPage (pid_size (rq_pageid argp)) (take PAGE_SIZE data))
          | None => Crash
          end
      end
  end.

(** [dirp->entry.pbits[iserv] = m] with [iserv] from [get_server_id]. *)
Definition set_pbit (k : nat) (from : bytes) (m : Z) (s : State) : outcome State :=
  match pget (ds_dir s) k with
  | None => Undef
  | Some e =>
      let iserv := get_server_id (ds_server s) from in
      if decide (iserv = -1) then Undef
      else Ret (set_dir (pset (ds_dir s) k
        (mkDirEntry (de_page e) (<[Z.to_nat iserv := m]> (de_pbits e)) (de_mode e))) s)
  end.

(** The loop of lines 287-318: fetch from the first holder, send it an update
    if the page is in write mode, and stop.  The results of updates are not
    used, so the loops return the servers they sent one to. *)
Fixpoint request_ro_loop (argp : request_t) (mode : Z) (l : list (Z * bytes)) (s : State)
    : outcome (list bytes * State) :=
  match l with
  | [] => Ret ([], s)
  | (b, h) :: rest =>
      if decide (b = 1) then
        if net_create net h then
          match net_fetch net h argp with
          | None => Crash
          | Some page => Ret (if decide (mode = RW) then [h] else [], set_request_result page s)
          end
        else Exit 1
      else request_ro_loop argp mode rest s
  end.

(** The loop of lines 327-358: fetch from the first holder, update all. *)
Fixpoint request_rw_loop (argp : request_t) (first : Z) (l : list (Z * bytes)) (s : State)
    : outcome (list bytes * State) :=
  match l with
  | [] => Ret ([], s)
  | (b, h) :: rest =>
      if decide (b = 1) then
        if net_create net h then
          let! s :=
            if decide (first + 1 = 1) then
              match net_fetch net h argp with
              | None => Crash
              | Some page => Ret (set_request_result page s)
              end
            else Ret s in
          let! (sent, s) := request_rw_loop argp (first + 1) rest s in
          Ret (h :: sent, s)
        else Exit 1
      else request_rw_loop argp first rest s
  end.

(** [mode] is the value of the local variable [mode], which is never
    assigned.  The result is the page, the servers that got an update, and
    the state. *)
Definition psu_dsm_page_request_1_svc (mode : Z) (argp : request_t) (s : State)
    : outcome (page_t * list bytes * State) :=
  let! r := search_dir (rq_pageid argp) (ds_dir s) in
  match r with
  | None => Exit 1
  | Some k =>
      match pget (ds_dir s) k with
      | None => Undef
      | Some e =>
          let holders := zip (take MAX_SERV (de_pbits e)) (ds_server s) in
          if decide (mode = RO) then
            let! (sent, s) := request_ro_loop argp (de_mode e) holders s in
            let! s := set_pbit k (rq_from argp) RO s in
            Ret (ds_request_result s, sent, s)
          else if decide (mode = RW) then
            let! (sent, s) := request_rw_loop argp 0 holders s in
            let! s := set_pbit k (rq_from argp) RW s in
            Ret (ds_request_result s, sent, s)
          else Ret (ds_request_result s, [], s)
      end
  end.

Definition psu_dsm_page_ack_1_svc (argp : pageid_t) (s : State) : outcome State := Ret s.

End procedures.

(** ** Executions of one server *)

Record Env := mkEnv {
  env_net : Net;
  env_shmget : Z → bool;
  env_shmat : Z → Z;
  env_eth0 : option bytes;
  env_raw : nat → bytes
}.

(** A call of one of the procedures; [CRequest] carries the value of the
    uninitialized [mode]. *)
Inductive dsm_call :=
| CFind (p : pageid_t)
| CLocate (p : pageid_t)
| CCreat (p : pageid_t)
| CUpdate (r : request_t)
| CRequest (mode : Z) (r : request_t)
| CFetch (r : request_t)
| CAck (p : pageid_t).

(** The state after the call, when it returns. *)
Definition serve (e : Env) (c : dsm_call) (s : State) : outcome State :=
  (match c with
   | CFind p => let! _ := psu_dsm_page_find_1_svc p s in Ret s
   | CLocate p => let! _ := psu_dsm_page_locate_1_svc (env_net e) (env_eth0 e) (env_raw e) p s in Ret s
   | CCreat p =>
       let! (_, s) := psu_dsm_page_creat_1_svc (env_net e) (env_shmget e) (env_shmat e)
                        (env_eth0 e) (env_raw e) p s in Ret s
   | CUpdate r => let! (_, s) := psu_dsm_page_update_1_svc r s in Ret s
   | CRequest m r => let! (_, s) := psu_dsm_page_request_1_svc (env_net e) m r s in Ret s
   | CFetch r => let! _ := psu_dsm_page_fetch_1_svc r s in Ret s
   | CAck p => psu_dsm_page_ack_1_svc p s
   end)%outcome.

Definition server_step (s s' : State) : Prop := ∃ e c, serve e c s = Ret s'.

(** ** Lemmas *)

(** Neither table has an entry, and the server list is the initial one. *)
Definition empty_tables (s : State) : Prop :=
  ds_dir s = PNull ∧ ds_dsm s = PNull ∧ ds_nserver s = 2 ∧ ds_server s = server0.

Lemma obind_Ret {A B} (m : outcome A) (f : A → outcome B) b :
  obind m f = Ret b → ∃ a, m = Ret a ∧ f a = Ret b.
Proof. destruct m; simpl; intros; simplify_eq; eauto. Qed.

Lemma attach_tables shmget shmat p s key addr s' :
  attach shmget shmat p s = Ret (key, addr, s') →
  ds_dir s' = ds_dir s ∧ ds_dsm s' = ds_dsm s ∧ ds_nserver s' = ds_nserver s ∧
  ds_server s' = ds_server s.
Proof. unfold attach. intros (k & _ & Hs)%obind_Ret. destruct (shmget k); by simplify_eq/=. Qed.

Lemma creat_new_empty shmget shmat raw p h s r s' :
  empty_tables s → creat_new shmget shmat raw p h s = Ret (r, s') → empty_tables s'.
Proof.
  intros (Hd & Hm & Hn & Hv). unfold creat_new. case_decide; [done|]. rewrite Hd.
  cbn [insert_dir obind].
  intros ([[key addr] s1] & Ha & Hs)%obind_Ret. apply attach_tables in Ha as (Ha1 & Ha2 & Ha3 & Ha4).
  rewrite Ha2 in Hs. cbn [ds_dsm set_dir] in Hs. rewrite Hm in Hs. cbn [insert_dsm obind] in Hs.
  injection Hs as <- <-. split_and!; [exact Ha1|done| |]; cbn in *; congruence.
Qed.

Lemma serve_empty e c s s' : empty_tables s → serve e c s = Ret s' → empty_tables s'.
Proof.
  intros Hs. pose proof Hs as (Hd & Hm & _ & _).
  destruct c as [p|p|p|r|m r|r|p]; cbn [serve].
  - intros (a & _ & [= <-])%obind_Ret. done.
  - intros (a & _ & [= <-])%obind_Ret. done.
  - intros ([r s1] & Hc & [= <-])%obind_Ret. revert Hc. unfold psu_dsm_page_creat_1_svc.
    intros (h & _ & Hc)%obind_Ret. rewrite Hd in Hc. cbn [search_dir psearch obind] in Hc.
    apply obind_Ret in Hc as (found & _ & Hc). destruct found as [h'|].
    + unfold creat_remote in Hc. destruct (net_create _ _); [|done].
      by apply obind_Ret in Hc as ([[? ?] ?] & _ & ?).
    + by eapply creat_new_empty.
  - unfold psu_dsm_page_update_1_svc. by rewrite Hm.
  - unfold psu_dsm_page_request_1_svc. by rewrite Hd.
  - unfold psu_dsm_page_fetch_1_svc. by rewrite Hm.
  - by intros [= <-].
Qed.

Lemma reachable_empty s : rtc server_step init s → empty_tables s.
Proof.
  apply (rtc_invariant _ empty_tables); [|done].
  intros a b Ha (e & c & Hb). by eapply serve_empty.
Qed.

(** The servers that hold a page read-only. *)
Definition holders (l : list (Z * bytes)) : list bytes := snd <$> base.filter (λ x, x.1 = 1) l.

Lemma request_rw_rest net argp first l s :
  1 ≤ first → (∀ h, h ∈ holders l → net_create net h = true) →
  request_rw_loop net argp first l s = Ret (holders l, s).
Proof.
  revert first. induction l as [|[b h] l IH]; intros first Hf Hc; [done|].
  cbn [request_rw_loop]. unfold holders in *. rewrite filter_cons in *. cbn [fst] in *.
  destruct (decide (b = 1)); [|by apply IH].
  cbn [fmap list_fmap snd] in *. rewrite Hc by (apply elem_of_cons; by left).
  rewrite decide_False by lia. cbn [obind]. rewrite IH; [done|lia|].
  intros h' Hh'. apply Hc. apply elem_of_cons. by right.
Qed.

Lemma request_rw_loop_spec net argp l s :
  (∀ h, h ∈ holders l → net_create net h = true) →
  request_rw_loop net argp 0 l s =
    match holders l with
    | [] => Ret ([], s)
    | h0 :: _ =>
        match net_fetch net h0 argp with
        | None => Crash
        | Some page => Ret (holders l, set_request_result page s)
        end
    end.
Proof.
  induction l as [|[b h] l IH]; intros Hc; [done|].
  cbn [request_rw_loop]. unfold holders in *. rewrite filter_cons in *. cbn [fst] in *.
  destruct (decide (b = 1)); [|by apply IH].
  cbn [fmap list_fmap snd] in *. rewrite Hc by (apply elem_of_cons; by left).
  rewrite decide_True by lia. destruct (net_fetch net h argp); [|done]. cbn [obind].
  rewrite request_rw_rest; [done|lia|]. intros h' Hh'. apply Hc. apply elem_of_cons. by right.
Qed.

Lemma request_ro_loop_spec net argp mode l s :
  (∀ h, h ∈ holders l → net_create net h = true) →
  request_ro_loop net argp mode l s =
    match holders l with
    | [] => Ret ([], s)
    | h0 :: _ =>
        match net_fetch net h0 argp with
        | None => Crash
        | Some page => Ret (if decide (mode = RW) then [h0] else [], set_request_result page s)
        end
    end.
Proof.
  induction l as [|[b h] l IH]; intros Hc; [done|].
  cbn [request_ro_loop]. unfold holders in *. rewrite filter_cons in *. cbn [fst] in *.
  destruct (decide (b = 1)); [|by apply IH].
  cbn [fmap list_fmap snd] in *. by rewrite Hc by (apply elem_of_cons; by left).
Qed.

Lemma pget_plist {A} (l : list A) k : pget (plist_of l) k = l !! k.
Proof. revert k. induction l as [|a l IH]; intros [|k]; try done. apply IH. Qed.

Lemma pget_pset {A} (l : list A) k (e b : A) :
  l !! k = Some e → pget (pset (plist_of l) k b) k = Some b.
Proof. revert k. induction l as [|a l IH]; intros [|k] Hk; try done. by apply IH. Qed.

Lemma find_remote_none net servers local p :
  (∀ h, h ∈ servers → strncmp h local IP_LEN ≠ 0 →
     net_create net h = true ∧ ∃ r, net_find net h p = Some r ∧ r ≠ 1) →
  find_remote net servers local p = Ret None.
Proof.
  induction servers as [|h servers IH]; intros Hall; [done|]. cbn [find_remote].
  assert (find_remote net servers local p = Ret None) as IH'.
  { apply IH. intros h' Hh'. apply Hall. apply elem_of_cons. by right. }
  destruct (decide (strncmp h local IP_LEN ≠ 0)) as [Hne|]; [|done].
  destruct (Hall h) as (-> & r & -> & Hr); [apply elem_of_cons; by left|done|].
  by rewrite decide_False.
Qed.

(** ** Results *)

(** C32: In every state that a shared memory server reaches from init by serving calls,
    whatever they are and whatever the other servers answer, page_find answers 0 for
    every page, and page_update, page_fetch and page_request exit the process. *)
Theorem directory_never_filled s :
  rtc server_step init s →
  (∀ p, psu_dsm_page_find_1_svc p s = Ret 0) ∧
  (∀ r, psu_dsm_page_update_1_svc r s = Exit 1) ∧
  (∀ r, psu_dsm_page_fetch_1_svc r s = Exit 1) ∧
  (∀ net mode r, psu_dsm_page_request_1_svc net mode r s = Exit 1).
Proof.
  intros Hr. destruct (reachable_empty s Hr) as (Hd & Hm & _).
  unfold psu_dsm_page_find_1_svc, psu_dsm_page_update_1_svc, psu_dsm_page_fetch_1_svc,
    psu_dsm_page_request_1_svc. by rewrite Hd, Hm.
Qed.

(** page_locate answers the server's own address for every page, in every reachable
    state. *)
Theorem locate_answers_local s net raw a p :
  rtc server_step init s → length (raw IP_LEN) = IP_LEN → length a = 4%nat →
  ∃ h, psu_dsm_page_locate_1_svc net (Some a) raw p s = Ret h ∧ cterm (h_ip h) = inet_ntop a.
Proof.
  intros Hr Hraw Ha. destruct (reachable_empty s Hr) as (Hd & _).
  eexists. split; [unfold psu_dsm_page_locate_1_svc; by rewrite Hd|]. cbn [h_ip].
  destruct a as [|x [|y [|z [|t [|? ?]]]]]; try done.
  destruct (inet_ntop_token x y z t) as (_ & _ & Hn).
  rewrite !cterm_strncpy by done. rewrite (cterm_no_nul _ Hn), take_take, Nat.min_id.
  apply take_ge. unfold inet_ntop. cbn [fmap list_fmap join].
  repeat (rewrite length_app; cbn [length]).
  pose proof (length_dec_byte x). pose proof (length_dec_byte y).
  pose proof (length_dec_byte z). pose proof (length_dec_byte t). unfold IP_LEN. lia.
Qed.

(** page_creat for a page that no server has returns 1, keeps the contents of an
    existing segment of the page's key and otherwise creates a zeroed one, attaches it
    and makes it writable; page_find does not find the page afterwards. *)
Theorem page_creat_new_page s net shmget shmat raw a p key :
  let local := strncpy (raw IP_LEN) (inet_ntop a) IP_LEN in
  page_key p = Ret key →
  rtc server_step init s → get_server_id server0 local ≠ -1 → shmget key = true →
  (∀ h, h ∈ take 2 server0 → strncmp h local IP_LEN ≠ 0 →
     net_create net h = true ∧ net_find net h p = Some 0) →
  ∃ s', psu_dsm_page_creat_1_svc net shmget shmat (Some a) raw p s = Ret (1, s') ∧
    ds_segs s' = <[key := default zero_page (ds_segs s !! key)]> (ds_segs s) ∧
    ds_maps s' !! shmat key = Some key ∧ ds_prot s' !! shmat key = Some PROT_WRITE ∧
    psu_dsm_page_find_1_svc p s' = Ret 0.
Proof.
  intros local Hkey Hr Hid Hshm Hpeers. destruct (reachable_empty s Hr) as (Hd & Hm & Hn & Hv).
  unfold psu_dsm_page_creat_1_svc. cbn [get_local_ipaddr obind]. fold local. rewrite Hd.
  cbn [search_dir psearch obind].
  rewrite find_remote_none by (unfold known_servers; rewrite Hn, Hv; intros h Hh Hne;
    destruct (Hpeers h Hh Hne); eauto).
  cbn [obind]. unfold creat_new. rewrite Hv, decide_False, Hd by done. cbn [insert_dir obind].
  unfold attach. rewrite Hkey. cbn [obind]. rewrite Hshm. cbn [obind ds_dsm set_maps set_segs set_dir]. rewrite Hm.
  cbn [insert_dsm obind]. eexists. split; [reflexivity|]. split_and!; [done| | |done].
  - cbn. by rewrite lookup_insert_eq.
  - cbn. by rewrite lookup_insert_eq.
Qed.

(** page_request in write mode on a directory that has the page fetches it from the
    first server whose bit is read-only, sends an update to all of these and to nobody
    else, and returns the fetched page; if no bit is read-only it contacts nobody and
    returns the page of the previous request; a failed fetch crashes. *)
Theorem page_request_write s net argp l k e :
  ds_dir s = plist_of l → lookup_name dir_name (pid_name (rq_pageid argp)) l = Some k →
  l !! k = Some e → get_server_id (ds_server s) (rq_from argp) ≠ -1 →
  let hs := holders (zip (take MAX_SERV (de_pbits e)) (ds_server s)) in
  (∀ h, h ∈ hs → net_create net h = true) →
  match hs with
  | [] => ∃ s', psu_dsm_page_request_1_svc net RW argp s = Ret (ds_request_result s, [], s')
  | h0 :: _ =>
      match net_fetch net h0 argp with
      | None => psu_dsm_page_request_1_svc net RW argp s = Crash
      | Some page => ∃ s', psu_dsm_page_request_1_svc net RW argp s = Ret (page, hs, s')
      end
  end.
Proof.
  intros Hd Hk Hl Hid hs Hc. unfold psu_dsm_page_request_1_svc, search_dir.
  rewrite Hd, psearch_plist, Hk. cbn [obind].
  assert (pget (plist_of l) k = Some e) as Hg by (by rewrite pget_plist).
  rewrite Hg, decide_False, decide_True by done. rewrite request_rw_loop_spec by done. fold hs.
  destruct hs as [|h0 hs'] eqn:Hhs; [|destruct (net_fetch net h0 argp); [|done]];
    cbn [obind]; unfold set_pbit; cbn [ds_dir ds_server set_request_result];
    rewrite Hd, Hg, decide_False by done; cbn [obind ds_request_result set_dir]; by eexists.
Qed.

(** page_request in read mode fetches the page from the first server whose bit is
    read-only, sends it an update exactly if the entry is in write mode, returns the
    fetched page (the one of the previous request if there is no such server) and sets
    the bit of the requesting server to read-only; a failed fetch crashes. *)
Theorem page_request_read s net argp l k e :
  ds_dir s = plist_of l → lookup_name dir_name (pid_name (rq_pageid argp)) l = Some k →
  l !! k = Some e → let i := get_server_id (ds_server s) (rq_from argp) in i ≠ -1 →
  let hs := holders (zip (take MAX_SERV (de_pbits e)) (ds_server s)) in
  (∀ h, h ∈ hs → net_create net h = true) →
  let reads page sent := ∃ s', psu_dsm_page_request_1_svc net RO argp s = Ret (page, sent, s') ∧
    pget (ds_dir s') k = Some (mkDirEntry (de_page e) (<[Z.to_nat i := RO]> (de_pbits e)) (de_mode e)) in
  match hs with
  | [] => reads (ds_request_result s) []
  | h0 :: _ =>
      match net_fetch net h0 argp with
      | None => psu_dsm_page_request_1_svc net RO argp s = Crash
      | Some page => reads page (if decide (de_mode e = RW) then [h0] else [])
      end
  end.
Proof.
  intros Hd Hk Hl i Hid hs Hc reads. unfold reads, psu_dsm_page_request_1_svc, search_dir.
  rewrite Hd, psearch_plist, Hk. cbn [obind].
  assert (pget (plist_of l) k = Some e) as Hg by (by rewrite pget_plist).
  rewrite Hg, decide_True by done. rewrite request_ro_loop_spec by done. fold hs.
  destruct hs as [|h0 hs'] eqn:Hhs; [|destruct (net_fetch net h0 argp); [|done]];
    cbn [obind]; unfold set_pbit; cbn [ds_dir ds_server set_request_result];
    rewrite Hd, Hg; fold i; rewrite decide_False by done; cbn [obind ds_request_result set_dir];
    eexists; (split; [done|]); cbn [ds_dir set_dir set_request_result]; by apply (pget_pset l k e).
Qed.

(** ** Witnesses *)

(** A network in which every server answers and none has a page. *)
Definition example_net : Net := mkNet (λ _, true) (λ _ _, Some 0) (λ _ _, None) (λ _ _, Some (mkPage 5 zero_page)).
Definition example_raw (n : nat) : bytes := replicate n xff.
Definition example_eth0 : bytes := [x82; xcb; x10; x14].  (* 130.203.16.20 *)
Definition example_page : pageid_t := mkPageid (strncpy (replicate NAME_LEN x00) (cstr "hello") NAME_LEN) 100.
Definition example_env : Env :=
  mkEnv example_net (λ _, true) (λ key, 4096 * key) (Some example_eth0) example_raw.

(** The server after it has created a page. *)
Definition created : State :=
  match serve example_env (CCreat example_page) init with Ret s => s | _ => init end.

Lemma created_reachable : rtc server_step init created.
Proof.
  apply rtc_once. exists example_env, (CCreat example_page). unfold created.
  destruct (serve example_env (CCreat example_page) init) eqn:He; vm_compute in He; done.
Qed.

Lemma directory_never_filled_witness :
  psu_dsm_page_find_1_svc example_page created = Ret 0 ∧
  is_Some (ds_segs created !! hash_key (cstr "hello")).
Proof.
  split; [exact (proj1 (directory_never_filled created created_reachable) example_page)|].
  vm_compute. by eexists.
Defined.

Lemma locate_answers_local_witness :
  ∃ h, psu_dsm_page_locate_1_svc example_net (Some example_eth0) example_raw example_page created = Ret h ∧
    cterm (h_ip h) = cstr "130.203.16.20".
Proof.
  exact (locate_answers_local created example_net example_raw example_eth0 example_page
    created_reachable eq_refl eq_refl).
Defined.

Lemma page_creat_new_page_witness :
  ∃ s', psu_dsm_page_creat_1_svc example_net (λ _, true) (λ key, 4096 * key) (Some example_eth0)
      example_raw example_page init = Ret (1, s') ∧
    psu_dsm_page_find_1_svc example_page s' = Ret 0.
Proof.
  destruct (page_creat_new_page init example_net (λ _, true) (λ key, 4096 * key) example_raw
    example_eth0 example_page (hash_key (cstr "hello"))) as (s' & Hs & _ & _ & _ & Hf).
  - vm_compute. reflexivity.
  - constructor.
  - vm_compute. discriminate.
  - reflexivity.
  - intros h _ _. split; reflexivity.
  - exists s'. split; [exact Hs|exact Hf].
Defined.

(** A directory whose page is held read-only by server 0. *)
Definition example_dir_entry : dir_entry_t :=
  mkDirEntry example_page (RO :: replicate (MAX_SERV - 1) NA) RO.

Lemma page_request_write_witness :
  ∃ s', psu_dsm_page_request_1_svc example_net RW
      (mkRequest example_page RW (nth 1 server0 [])) (set_dir (plist_of [example_dir_entry]) init) =
    Ret (mkPage 5 zero_page, [nth 0 server0 []], s').
Proof.
  apply (page_request_write (set_dir (plist_of [example_dir_entry]) init) example_net
    (mkRequest example_page RW (nth 1 server0 [])) [example_dir_entry] 0 example_dir_entry).
  - reflexivity.
  - vm_compute. reflexivity.
  - reflexivity.
  - vm_compute. discriminate.
  - intros h _. reflexivity.
Defined.

Lemma page_request_read_witness :
  ∃ s', psu_dsm_page_request_1_svc example_net RO
      (mkRequest example_page RO (nth 1 server0 [])) (set_dir (plist_of [example_dir_entry]) init) =
    Ret (mkPage 5 zero_page, [], s') ∧
    pget (ds_dir s') 0 = Some (mkDirEntry example_page (RO :: RO :: replicate (MAX_SERV - 2) NA) RO).
Proof.
  apply (page_request_read (set_dir (plist_of [example_dir_entry]) init) example_net
    (mkRequest example_page RO (nth 1 server0 [])) [example_dir_entry] 0 example_dir_entry).
  - reflexivity.
  - vm_compute. reflexivity.
  - reflexivity.
  - vm_compute. discriminate.
  - intros h _. reflexivity.
Defined.
