(* ===== verification/DsmClient.v ===== *)
(** * Shared memory: dispatch, stubs and the client library

    [psu_dsm_1] of [psu_dsm_msg_svc.c], which serves one call; the client
    stubs of [psu_dsm_msg_clnt.c]; and the library that applications link,
    [psu_dsm.c].  The transport of a call is an XDR stream at the encoded
    argument or result. *)

From S2P Require Import Prelude CString Xdr Utility DsmMsg DsmUtil DsmServer.

(** ** Serving a call *)

Inductive dsm_reply :=
| DVoid                  (* svc_sendreply of NULLPROC *)
| DInt (z : Z)           (* results, encoded with xdr_int, ... *)
| DHost (h : host_t)
| DPage (p : page_t)
| DAck
| DNoproc                (* svcerr_noproc *)
| DDecode                (* svcerr_decode *)
| DSystem.               (* svcerr_systemerr *)

(** What the transport reports: [svc_sendreply] and [svc_freeargs]. *)
Record dsm_svc := mkDsmSvc { dv_sendreply : bool; dv_freeargs : bool }.

(** The procedures' results, as replies. *)
Definition answer (e : Env) (c : dsm_call) (s : State) : outcome (dsm_reply * State) :=
  (match c with
   | CFind p => let! r := psu_dsm_page_find_1_svc p s in Ret (DInt r, s)
   | CLocate p =>
       let! h := psu_dsm_page_locate_1_svc (env_net e) (env_eth0 e) (env_raw e) p s in Ret (DHost h, s)
   | CCreat p =>
       let! (r, s) := psu_dsm_page_creat_1_svc (env_net e) (env_shmget e) (env_shmat e)
                        (env_eth0 e) (env_raw e) p s in Ret (DInt r, s)
   | CUpdate r => let! (z, s) := psu_dsm_page_update_1_svc r s in Ret (DInt z, s)
   | CRequest m r =>
       let! (p, _, s) := psu_dsm_page_request_1_svc (env_net e) m r s in Ret (DPage p, s)
   | CFetch r => let! p := psu_dsm_page_fetch_1_svc r s in Ret (DPage p, s)
   | CAck p => let! s := psu_dsm_page_ack_1_svc p s in Ret (DAck, s)
   end)%outcome.

Definition zero_pageid : pageid_t := mkPageid (replicate NAME_LEN x00) 0.
Definition zero_request : request_t := mkRequest zero_pageid 0 (replicate IP_LEN x00).

Section dispatch.
Context {X : Type} `{XdrStream X}.

(** Lines 97-110 for one case of the switch. *)
Definition dsm_serve {A} (v : dsm_svc) (e : Env) (f : filter X A) (zero : A) (call : A → dsm_call)
    (x : X) (s : State) : outcome (list dsm_reply * State) :=
  let '(ok, _, a) := f x zero in
  if ok then
    (let! (r, s) := answer e (call a) s in
     let sent := if dv_sendreply v then [r] else [DSystem] in
     if dv_freeargs v then Ret (sent, s) else Exit 1)%outcome
  else Ret ([DDecode], s).

(** [psu_dsm_1]; [mode] is passed on to [page_request]. *)
Definition psu_dsm_1 (v : dsm_svc) (e : Env) (mode : Z) (rq_proc : Z) (x : X) (s : State)
    : outcome (list dsm_reply * State) :=
  if decide (rq_proc = 0) then Ret ([DVoid], s)
  else if decide (rq_proc = PSU_DSM_PAGE_FIND) then
    dsm_serve v e xdr_pageid_t zero_pageid CFind x s
  else if decide (rq_proc = PSU_DSM_PAGE_LOCATE) then
    dsm_serve v e xdr_pageid_t zero_pageid CLocate x s
  else if decide (rq_proc = PSU_DSM_PAGE_CREAT) then
    dsm_serve v e xdr_pageid_t zero_pageid CCreat x s
  else if decide (rq_proc = PSU_DSM_PAGE_UPDATE) then
    dsm_serve v e xdr_request_t zero_request CUpdate x s
  else if decide (rq_proc = PSU_DSM_PAGE_REQUEST) then
    dsm_serve v e xdr_request_t zero_request (CRequest mode) x s
  else if decide (rq_proc = PSU_DSM_PAGE_FETCH) then
    dsm_serve v e xdr_request_t zero_request CFetch x s
  else if decide (rq_proc = PSU_DSM_PAGE_ACK) then
    dsm_serve v e xdr_pageid_t zero_pageid CAck x s
  else Ret ([DNoproc], s).

(** [main] up to [svc_run]: the state it serves. *)
Definition dsm_main (b : boot_env) (eth0 : option bytes) (raw : nat → bytes) : outcome State :=
  (let! _ := register_service b in
   let s := init in
   let! local_ip := get_local_ipaddr eth0 (raw IP_LEN) in
   Ret s)%outcome.

(** ** Stubs *)

(** [clnt_call]: the stream of the result, [None] unless the call succeeds.
    Decoding the result is part of the call. *)
Context (CLNT : Type) (clnt_call : CLNT → Z → bytes → option X).

Definition stub {A} (clnt : CLNT) (proc : Z) (args : bytes) (f : filter X A) (zero : A) : option A :=
  match clnt_call clnt proc args with
  | None => None
  | Some y => let '(ok, _, v) := f y zero in if ok then Some v else None
  end.

Definition psu_dsm_page_find_1 (argp : pageid_t) (clnt : CLNT) : option Z :=
  stub clnt PSU_DSM_PAGE_FIND (enc_pageid_t argp) xdr_int 0.

(** The 16 bytes of a [host_t] are decoded into a static [int]; [overrun] is
    what becomes of the program and of the bytes. *)
Definition psu_dsm_page_locate_1 (overrun : host_t → outcome host_t) (argp : pageid_t) (clnt : CLNT)
    : outcome (option host_t) :=
  match stub clnt PSU_DSM_PAGE_LOCATE (enc_pageid_t argp) xdr_host_t (mkHost (replicate IP_LEN x00)) with
  | None => Ret None
  | Some h => (let! h := overrun h in Ret (Some h))%outcome
  end.

Definition psu_dsm_page_creat_1 (argp : pageid_t) (clnt : CLNT) : option Z :=
  stub clnt PSU_DSM_PAGE_CREAT (enc_pageid_t argp) xdr_int 0.
Definition psu_dsm_page_update_1 (argp : request_t) (clnt : CLNT) : option Z :=
  stub clnt PSU_DSM_PAGE_UPDATE (enc_request_t argp) xdr_int 0.
Definition psu_dsm_page_request_1 (argp : request_t) (clnt : CLNT) : option page_t :=
  stub clnt PSU_DSM_PAGE_REQUEST (enc_request_t argp) xdr_page_t (mkPage 0 zero_page).
Definition psu_dsm_page_fetch_1 (argp : request_t) (clnt : CLNT) : option page_t :=
  stub clnt PSU_DSM_PAGE_FETCH (enc_request_t argp) xdr_page_t (mkPage 0 zero_page).
Definition psu_dsm_page_ack_1 (argp : pageid_t) (clnt : CLNT) : option unit :=
  match clnt_call clnt PSU_DSM_PAGE_ACK (enc_pageid_t argp) with
  | None => None
  | Some _ => Some tt
  end.

(** ** The client library *)

Context (clnt_create : bytes → option CLNT).
Context (eth0 : option bytes) (raw : nat → bytes).
Open Scope outcome_scope.

(** [psu_dsm_init]: the client's table. *)
Definition psu_dsm_init : dsm_t := PNull.

(** [psu_dsm_malloc]: [shmget] tells whether a segment exists for the key
    once the server has answered; the result is the address and [cdsm]. *)
Definition psu_dsm_malloc (shmget : Z → bool) (shmat : Z → Z) (name : bytes) (size : Z) (cdsm : dsm_t)
    : outcome (Z * dsm_t) :=
  let page := mkPageid (strncpy (raw NAME_LEN) name NAME_LEN) (wrap 32 size) in
  let! host := get_local_ipaddr eth0 (raw IP_LEN) in
  match clnt_create host with
  | None => Exit 1
  | Some clnt =>
      match psu_dsm_page_creat_1 page clnt with
      | None => Exit 1
      | Some r =>
          if decide (r ≠ 1) then Exit 1
          else
            let key := hash_key name in
            if shmget key then
              let! cdsm := insert_dsm (raw NAME_LEN) (raw IP_LEN) page (raw IP_LEN) cdsm in
              Ret (shmat key, cdsm)
            else Exit 1
      end
  end.

(** [psu_dsm_free] has an empty body. *)
Definition psu_dsm_free (name : bytes) (cdsm : dsm_t) : dsm_t := cdsm.

(** ** Lemmas *)

Context `{!XdrLaws X}.

(** The procedure and the encoded argument of a call. *)
Definition wire (c : dsm_call) : Z * bytes :=
  match c with
  | CFind p => (PSU_DSM_PAGE_FIND, enc_pageid_t p)
  | CLocate p => (PSU_DSM_PAGE_LOCATE, enc_pageid_t p)
  | CCreat p => (PSU_DSM_PAGE_CREAT, enc_pageid_t p)
  | CUpdate r => (PSU_DSM_PAGE_UPDATE, enc_request_t r)
  | CRequest _ r => (PSU_DSM_PAGE_REQUEST, enc_request_t r)
  | CFetch r => (PSU_DSM_PAGE_FETCH, enc_request_t r)
  | CAck p => (PSU_DSM_PAGE_ACK, enc_pageid_t p)
  end.

Definition call_valid (mode : Z) (c : dsm_call) : Prop :=
  match c with
  | CFind p | CLocate p | CCreat p | CAck p => pageid_valid p
  | CUpdate r | CFetch r => request_valid r
  | CRequest m r => m = mode ∧ request_valid r
  end.

Lemma zero_pageid_shape : pageid_shape zero_pageid.
Proof. done. Qed.

Lemma zero_request_shape : request_shape zero_request.
Proof. done. Qed.

Lemma dsm_serve_ok {A} v e (f : filter X A) enc valid shape zero call x s a rest :
  filter_ok f enc valid shape (λ v _, v) → shape zero → x_op x = XDR_DECODE → valid a →
  x_in x = enc a ++ rest → dv_sendreply v = true → dv_freeargs v = true →
  dsm_serve v e f zero call x s = let! (r, s') := answer e (call a) s in Ret ([r], s').
Proof.
  intros Hf Hz Hop Hv Hin Hs Hfr. unfold dsm_serve.
  destruct (fk_decode _ _ _ _ _ Hf x a zero rest Hop Hv Hz Hin) as (x' & -> & _).
  by rewrite Hs, Hfr.
Qed.

Lemma stub_ok {A} (f : filter X A) enc valid shape zero clnt proc args y v rest :
  filter_ok f enc valid shape (λ v _, v) → shape zero →
  clnt_call clnt proc args = Some y → x_op y = XDR_DECODE → valid v → x_in y = enc v ++ rest →
  stub clnt proc args f zero = Some v.
Proof.
  intros Hf Hz Hc Hop Hv Hin. unfold stub. rewrite Hc.
  destruct (fk_decode _ _ _ _ _ Hf y v zero rest Hop Hv Hz Hin) as (x' & -> & _). done.
Qed.

Lemma insert_dsm_empty page where_ :
  insert_dsm (raw NAME_LEN) (raw IP_LEN) page where_ PNull = Ret PNull.
Proof. done. Qed.

(** ** Results *)

(** Every encoded call of the shared memory protocol is served by the procedure it
    names with the argument that was sent, and gets exactly that procedure's result as
    its one reply. *)
Theorem dsm_call_served v e mode c x s rest :
  call_valid mode c → x_op x = XDR_DECODE → x_in x = (wire c).2 ++ rest →
  dv_sendreply v = true → dv_freeargs v = true →
  psu_dsm_1 v e mode (wire c).1 x s = let! (r, s') := answer e c s in Ret ([r], s').
Proof.
  intros Hc Hop Hin Hs Hf.
  pose proof (λ call p Hv Hin, dsm_serve_ok v e _ _ _ _ _ call x s p rest xdr_pageid_t_ok
    zero_pageid_shape Hop Hv Hin Hs Hf) as Hpage.
  pose proof (λ call r Hv Hin, dsm_serve_ok v e _ _ _ _ _ call x s r rest xdr_request_t_ok
    zero_request_shape Hop Hv Hin Hs Hf) as Hreq.
  destruct c as [p|p|p|r|m r|r|p]; cbn [wire fst snd call_valid] in *.
  - exact (Hpage CFind p Hc Hin).
  - exact (Hpage CLocate p Hc Hin).
  - exact (Hpage CCreat p Hc Hin).
  - exact (Hreq CUpdate r Hc Hin).
  - destruct Hc as [-> Hc]. exact (Hreq (CRequest mode) r Hc Hin).
  - exact (Hreq CFetch r Hc Hin).
  - exact (Hpage CAck p Hc Hin).
Qed.

(** A call with an unknown procedure or a short argument is answered with an error and changes nothing. *)
Theorem dsm_bad_call_rejected v e mode proc x s :
  (¬ (0 ≤ proc ≤ 7) → psu_dsm_1 v e mode proc x s = Ret ([DNoproc], s)) ∧
  (∀ p w, proc = PSU_DSM_PAGE_CREAT → x_op x = XDR_DECODE → pageid_valid p →
     enc_pageid_t p = x_in x ++ w → w ≠ [] →
     psu_dsm_1 v e mode proc x s = Ret ([DDecode], s)).
Proof.
  split.
  - intros Hp. unfold psu_dsm_1, PSU_DSM_PAGE_FIND, PSU_DSM_PAGE_LOCATE, PSU_DSM_PAGE_CREAT,
      PSU_DSM_PAGE_UPDATE, PSU_DSM_PAGE_REQUEST, PSU_DSM_PAGE_FETCH, PSU_DSM_PAGE_ACK.
    by rewrite !decide_False by lia.
  - intros p w -> Hop Hv Hin Hw. unfold psu_dsm_1. cbn [decide]. unfold dsm_serve. cbn.
    destruct (fk_decode_fail _ _ _ _ _ xdr_pageid_t_ok x p zero_pageid w) as (x' & o & ->); [done..|].
    done.
Qed.

(** The stub returns the page that the server encoded. *)
Theorem page_reply_roundtrip argp clnt y p rest :
  clnt_call clnt PSU_DSM_PAGE_REQUEST (enc_request_t argp) = Some y → x_op y = XDR_DECODE →
  page_valid p → x_in y = enc_page_t p ++ rest → psu_dsm_page_request_1 argp clnt = Some p.
Proof.
  intros Hc Hop Hp Hin.
  by apply (stub_ok xdr_page_t enc_page_t page_valid page_shape _ _ _ _ y p rest xdr_page_t_ok).
Qed.

(** When the server answers 1, psu_dsm_malloc returns the address of the segment whose
    key is the hash of the name and leaves the client's table empty. *)
Theorem psu_dsm_malloc_attaches shmget shmat name size a clnt y rest :
  eth0 = Some a → clnt_create (strncpy (raw IP_LEN) (inet_ntop a) IP_LEN) = Some clnt →
  let page := mkPageid (strncpy (raw NAME_LEN) name NAME_LEN) (wrap 32 size) in
  clnt_call clnt PSU_DSM_PAGE_CREAT (enc_pageid_t page) = Some y → x_op y = XDR_DECODE →
  x_in y = enc_int 1 ++ rest → shmget (hash_key name) = true →
  psu_dsm_malloc shmget shmat name size psu_dsm_init = Ret (shmat (hash_key name), psu_dsm_init).
Proof.
  intros He Hcl page Hc Hop Hin Hshm. unfold psu_dsm_malloc.
  rewrite He. cbn [get_local_ipaddr obind]. rewrite Hcl. fold page.
  unfold psu_dsm_page_creat_1.
  rewrite (stub_ok xdr_int enc_int int_ok (λ _, True) 0 clnt _ _ y 1 rest xdr_int_ok) by
    (done || by split).
  rewrite decide_False by lia. by rewrite Hshm.
Qed.

End dispatch.

(** ** Witnesses *)

Definition decode_stream (bs : bytes) : XdrMem := mkXdrMem XDR_DECODE 0 [] bs.

Lemma example_page_valid : pageid_valid example_page.
Proof. split; [by vm_compute|by split]. Qed.

Lemma dsm_call_served_witness :
  psu_dsm_1 (mkDsmSvc true true) example_env 0 PSU_DSM_PAGE_FIND
    (decode_stream (enc_pageid_t example_page ++ [])) created = Ret ([DInt 0], created).
Proof.
  apply (dsm_call_served (X := XdrMem) (mkDsmSvc true true) example_env 0 (CFind example_page)
    (decode_stream (enc_pageid_t example_page ++ [])) created []).
  - exact example_page_valid.
  - reflexivity.
  - reflexivity.
  - reflexivity.
  - reflexivity.
Defined.

Lemma dsm_bad_call_rejected_witness :
  psu_dsm_1 (mkDsmSvc true true) example_env 0 8 (decode_stream []) init = Ret ([DNoproc], init).
Proof.
  apply (dsm_bad_call_rejected (X := XdrMem) (mkDsmSvc true true) example_env 0 8 (decode_stream []) init).
  lia.
Defined.

(** A network that answers every call with the given bytes. *)
Definition answers (bs : bytes) (clnt : unit) (proc : Z) (args : bytes) : option XdrMem :=
  Some (decode_stream bs).

Lemma page_reply_roundtrip_witness :
  psu_dsm_page_request_1 unit (answers (enc_page_t (mkPage 5 zero_page) ++ []))
    (mkRequest example_page RW []) tt = Some (mkPage 5 zero_page).
Proof.
  apply (page_reply_roundtrip (X := XdrMem) unit (answers (enc_page_t (mkPage 5 zero_page) ++ []))
    (mkRequest example_page RW []) tt (decode_stream (enc_page_t (mkPage 5 zero_page) ++ []))
    (mkPage 5 zero_page) []).
  - reflexivity.
  - reflexivity.
  - split; [apply length_replicate|by split].
  - reflexivity.
Defined.

Lemma psu_dsm_malloc_attaches_witness :
  psu_dsm_malloc unit (answers (enc_int 1 ++ [])) (λ _, Some tt) (Some example_eth0) example_raw
    (λ _, true) (λ key, 4096 * key) (cstr "hello") 100 psu_dsm_init =
  Ret (4096 * hash_key (cstr "hello"), psu_dsm_init).
Proof.
  rewrite (psu_dsm_malloc_attaches (X := XdrMem) unit (answers (enc_int 1 ++ [])) (λ _, Some tt)
    (Some example_eth0) example_raw (λ _, true) (λ key, 4096 * key) (cstr "hello") 100 example_eth0 tt
    (decode_stream (enc_int 1 ++ [])) []).
  - reflexivity.
  - reflexivity.
  - reflexivity.
  - reflexivity.
  - reflexivity.
  - reflexivity.
  - reflexivity.
Defined.
