(* ===== verification/DsmSystem.v ===== *)
(** * Shared memory: a cluster of servers

    Several servers of [DsmServer.v] and the clients of [DsmClient.v] put
    together: a call goes through the caller's stub, as bytes, through the
    callee's dispatcher and back.  The first part takes the procedures as
    whole steps.  The second part runs page_creat in small steps, a call to
    another server at a time, because a server serves one call at a time. *)

From S2P Require Import Prelude CString Xdr Utility DsmMsg DsmUtil DsmServer DsmClient.

(** ** Calls between processes *)

(** The servers of the cluster by node; [None] is a process that has ended. *)
Abbreviation Cluster := (list (option State)).

(** What [svc_sendreply] puts on the wire for a reply; an error reply makes
    [clnt_call] fail. *)
Definition encode_reply (r : dsm_reply) : option bytes :=
  match r with
  | DInt z => Some (enc_int z)
  | DHost h => Some (enc_host_t h)
  | DPage p => Some (enc_page_t p)
  | DVoid | DAck => Some []
  | DNoproc | DDecode | DSystem => None
  end.

Section cluster.
(** Name resolution, and the surroundings of the servers other than the
    answers to page_find. *)
Context (host_of : bytes → option nat) (env : nat → Env) (mode : Z).

(** The transport works. *)
Definition svc_up : dsm_svc := mkDsmSvc true true.

(** [clnt_create] succeeds when the name leads to a running server. *)
Definition cluster_create (c : Cluster) (h : bytes) : option nat :=
  j ← host_of h;
  match c !! j with Some (Some _) => Some j | _ => None end.

(** A call of node [j], served by its dispatcher in the surroundings [e]. *)
Definition cluster_call (e : nat → Env) (c : Cluster) (j : nat) (proc : Z) (args : bytes)
    : option XdrMem :=
  match c !! j with
  | Some (Some s) =>
      match psu_dsm_1 svc_up (e j) mode proc (decode_stream args) s with
      | Ret ([r], _) => decode_stream <$> encode_reply r
      | _ => None
      end
  | _ => None
  end.

(** The surroundings of node [j] in the cluster: page_find is answered by the
    other servers. *)
Definition cluster_net (c : Cluster) (n : Net) : Net :=
  mkNet (λ h, bool_decide (is_Some (cluster_create c h)))
    (λ h p, j ← cluster_create c h; psu_dsm_page_find_1 nat (cluster_call env c) p j)
    (net_request n) (net_fetch n).
Definition cluster_env (c : Cluster) (j : nat) : Env :=
  let e := env j in
  mkEnv (cluster_net c (env_net e)) (env_shmget e) (env_shmat e) (env_eth0 e) (env_raw e).

(** Node [j] serves a call; the process may end. *)
Definition cluster_serve (j : nat) (k : dsm_call) (s : State) (c : Cluster) : Cluster :=
  <[j := match serve (cluster_env c j) k s with Ret s' => Some s' | _ => None end]> c.

Definition cluster_step (c c' : Cluster) : Prop :=
  ∃ j s k, c !! j = Some (Some s) ∧ c' = cluster_serve j k s c.

(** All servers after [init]. *)
Definition cluster_init (c : Cluster) : Prop := ∀ j o, c !! j = Some o → o = Some init.

(** ** Lemmas *)

Lemma cluster_create_Some c h j :
  cluster_create c h = Some j → host_of h = Some j ∧ ∃ s, c !! j = Some (Some s).
Proof.
  unfold cluster_create. rewrite bind_Some. intros (j' & Hh & Hb).
  destruct (c !! j') as [[s|]|] eqn:Hj; simplify_eq. eauto.
Qed.

(** Every running server is in a state that one server can reach alone. *)
Lemma cluster_reach c0 c j s :
  cluster_init c0 → rtc cluster_step c0 c → c !! j = Some (Some s) → rtc server_step init s.
Proof.
  intros Hi Hr. revert j s.
  apply (rtc_invariant cluster_step (λ c, ∀ j s, c !! j = Some (Some s) → rtc server_step init s))
    with (x := c0); [|intros j s Hj; apply Hi in Hj; simplify_eq; constructor|done].
  intros a b Ha (j & s & k & Hj & ->) j' s' Hj'. unfold cluster_serve in Hj'.
  apply list_lookup_insert_Some in Hj' as [(-> & Hs & _)|[_ Hj']]; [|by eapply Ha].
  destruct (serve (cluster_env a j') k s) as [s1| | |] eqn:Hserve; simplify_eq.
  eapply rtc_r; [by eapply Ha|]. by exists (cluster_env a j'), k.
Qed.

(** Asked through stub and dispatcher, a server with empty tables says 0. *)
Lemma cluster_find c j s p :
  c !! j = Some (Some s) → rtc server_step init s → pageid_valid p →
  psu_dsm_page_find_1 nat (cluster_call env c) p j = Some 0.
Proof.
  intros Hj Hr Hp. destruct (reachable_empty s Hr) as (Hd & _).
  assert (cluster_call env c j PSU_DSM_PAGE_FIND (enc_pageid_t p) =
    Some (decode_stream (enc_int 0))) as Hcall.
  { unfold cluster_call. rewrite Hj.
    pose proof (dsm_call_served (X := XdrMem) svc_up (env j) mode (CFind p)
      (decode_stream (enc_pageid_t p)) s [] Hp eq_refl (eq_sym (app_nil_r _)) eq_refl eq_refl) as Hs.
    cbn [wire fst answer] in Hs. rewrite Hs. unfold psu_dsm_page_find_1_svc. by rewrite Hd. }
  unfold psu_dsm_page_find_1.
  apply (stub_ok nat (cluster_call env c) xdr_int enc_int int_ok (λ _, True) 0 j _ _ _ 0 []
    xdr_int_ok I Hcall); [done|done|]. by rewrite app_nil_r.
Qed.

(** The address that node [j] finds for itself. *)
Definition local_addr (j : nat) (a : bytes) : bytes :=
  strncpy (env_raw (env j) IP_LEN) (inet_ntop a) IP_LEN.

(** Node [j] can create page [p], whose key is [key]: it has an address that
    is in the server list, the other servers of the list run, and shmget
    succeeds. *)
Record ready (c : Cluster) (j : nat) (p : pageid_t) (a : bytes) (key : Z) : Prop := {
  rd_eth0 : env_eth0 (env j) = Some a;
  rd_listed : get_server_id server0 (local_addr j a) ≠ -1;
  rd_peers : ∀ h, h ∈ take 2 server0 → strncmp h (local_addr j a) IP_LEN ≠ 0 →
    is_Some (cluster_create c h);
  rd_key : page_key p = Ret key;
  rd_shmget : env_shmget (env j) key = true;
  rd_page : pageid_valid p
}.

(** The segment that page_creat leaves for the page: an existing one is kept. *)
Definition segment (key : Z) (s : State) : bytes := default zero_page (ds_segs s !! key).

Lemma cluster_creat c0 c j s p a key :
  cluster_init c0 → rtc cluster_step c0 c → c !! j = Some (Some s) → ready c j p a key →
  let e := cluster_env c j in
  ∃ s', psu_dsm_page_creat_1_svc (env_net e) (env_shmget e) (env_shmat e) (env_eth0 e) (env_raw e)
      p s = Ret (1, s') ∧ ds_segs s' !! key = Some (segment key s).
Proof.
  intros Hi Hr Hj [He Hid Hpeers Hkey Hshm Hp]. cbn [cluster_env env_net env_shmget env_shmat env_eth0 env_raw].
  rewrite He.
  destruct (page_creat_new_page s (cluster_net c (env_net (env j))) (env_shmget (env j))
    (env_shmat (env j)) (env_raw (env j)) a p key Hkey) as (s' & Hs' & Hsegs & _); [|done|done| |].
  - by eapply cluster_reach.
  - intros h Hh Hne. destruct (Hpeers h Hh Hne) as [k Hk].
    cbn [cluster_net net_create net_find]. rewrite Hk. split; [done|]. cbn [mbind option_bind].
    apply cluster_create_Some in Hk as (_ & sk & Hsk).
    eapply cluster_find; [done| |done]. by eapply cluster_reach.
  - exists s'. split; [done|]. rewrite Hsegs. by rewrite lookup_insert_eq.
Qed.

Lemma cluster_serve_creat c0 c j s p a key :
  cluster_init c0 → rtc cluster_step c0 c → c !! j = Some (Some s) → ready c j p a key →
  ∃ s', cluster_serve j (CCreat p) s c = <[j := Some s']> c ∧
    ds_segs s' !! key = Some (segment key s).
Proof.
  intros Hi Hr Hj Hrd. destruct (cluster_creat c0 c j s p a key Hi Hr Hj Hrd) as (s' & Hs' & Hseg).
  exists s'. split; [|done]. unfold cluster_serve. cbn [serve]. by rewrite Hs'.
Qed.

Lemma ready_insert c j p a key i s s' :
  c !! i = Some (Some s) → ready c j p a key → ready (<[i := Some s']> c) j p a key.
Proof.
  intros Hc [? ? Hpeers ? ? ?]. split; try done. intros h Hh Hne.
  destruct (Hpeers h Hh Hne) as [k (Hk & sk & Hsk)%cluster_create_Some]. exists k.
  unfold cluster_create. rewrite Hk. cbn [mbind option_bind].
  destruct (decide (k = i)) as [->|Hki].
  - rewrite list_lookup_insert_eq; [done|]. by eapply lookup_lt_Some.
  - by rewrite list_lookup_insert_ne, Hsk.
Qed.

(** ** Theorems *)

(** C31: In a cluster of shared memory servers in any reachable state, when two servers
    are asked to create the same page one after the other, each creates it: both end up
    with a segment of their own whose contents do not depend on the other's. *)
Theorem pages_not_shared c0 c i j si sj p ai aj key :
  cluster_init c0 → rtc cluster_step c0 c → i ≠ j →
  c !! i = Some (Some si) → c !! j = Some (Some sj) → ready c i p ai key → ready c j p aj key →
  let c1 := cluster_serve i (CCreat p) si c in
  let c2 := cluster_serve j (CCreat p) sj c1 in
  ∃ si' sj', c2 !! i = Some (Some si') ∧ c2 !! j = Some (Some sj') ∧
    ds_segs si' !! key = Some (segment key si) ∧ ds_segs sj' !! key = Some (segment key sj).
Proof.
  intros Hi Hr Hij Hci Hcj Hri Hrj c1 c2.
  destruct (cluster_serve_creat c0 c i si p ai key Hi Hr Hci Hri) as (si' & Hc1 & Hsegi).
  fold c1 in Hc1.
  assert (rtc cluster_step c0 c1) as Hr1 by (eapply rtc_r; [done|]; by exists i, si, (CCreat p)).
  assert (c1 !! j = Some (Some sj)) as Hcj1 by (by rewrite Hc1, list_lookup_insert_ne).
  assert (ready c1 j p aj key) as Hrj1 by (rewrite Hc1; by eapply ready_insert).
  destruct (cluster_serve_creat c0 c1 j sj p aj key Hi Hr1 Hcj1 Hrj1) as (sj' & Hc2 & Hsegj).
  fold c2 in Hc2. exists si', sj'. rewrite Hc2. split_and!; [| |done|done].
  - rewrite list_lookup_insert_ne by done. rewrite Hc1. apply list_lookup_insert_eq.
    by eapply lookup_lt_Some.
  - apply list_lookup_insert_eq. by eapply lookup_lt_Some.
Qed.

(** The reply to a CREAT call, through stub and dispatcher. *)
Lemma cluster_creat_reply c0 c j s p a key :
  cluster_init c0 → rtc cluster_step c0 c → c !! j = Some (Some s) → ready c j p a key →
  cluster_call (cluster_env c) c j PSU_DSM_PAGE_CREAT (enc_pageid_t p) =
    Some (decode_stream (enc_int 1)).
Proof.
  intros Hi Hr Hj Hrd. destruct (cluster_creat c0 c j s p a key Hi Hr Hj Hrd) as (s' & Hs' & _).
  unfold cluster_call. rewrite Hj.
  pose proof (dsm_call_served (X := XdrMem) svc_up (cluster_env c j) mode (CCreat p)
    (decode_stream (enc_pageid_t p)) s [] (rd_page _ _ _ _ _ Hrd) eq_refl (eq_sym (app_nil_r _))
    eq_refl eq_refl) as Hs.
  cbn [wire fst answer] in Hs. rewrite Hs, Hs'. done.
Qed.

(** C30: In a cluster of shared memory servers in any reachable state, when the local
    machine's address is in the server list and resolves to the local server, the other
    servers of the list run and shmget succeeds, psu_dsm_malloc of a name shorter than
    32 characters, whose call goes as bytes through the stub and the dispatcher of the
    local server, which in turn asks the other servers through theirs, returns the
    address of the segment whose key is the hash of the name; the server has kept that
    segment if it existed and zeroed it otherwise. *)
Theorem malloc_end_to_end c0 c j s a shmat name size :
  let raw := env_raw (env j) in
  let page := mkPageid (strncpy (raw NAME_LEN) name NAME_LEN) (wrap 32 size) in
  cluster_init c0 → rtc cluster_step c0 c → c !! j = Some (Some s) →
  length (raw NAME_LEN) = NAME_LEN → NUL ∉ name → (length name < NAME_LEN)%nat →
  ready c j page a (hash_key name) → host_of (local_addr j a) = Some j →
  ∃ s', cluster_serve j (CCreat page) s c = <[j := Some s']> c ∧
    ds_segs s' !! hash_key name = Some (segment (hash_key name) s) ∧
    psu_dsm_malloc nat (cluster_call (cluster_env c) c) (cluster_create c) (env_eth0 (env j)) raw
      (λ key, bool_decide (is_Some (ds_segs s' !! key))) shmat name size psu_dsm_init =
    Ret (shmat (hash_key name), psu_dsm_init).
Proof.
  intros raw page Hi Hr Hj Hraw Hn Hl Hrd Hhost.
  destruct (cluster_serve_creat c0 c j s page a _ Hi Hr Hj Hrd) as (s' & Hs' & Hseg).
  exists s'. split_and!; [done|done|].
  apply (psu_dsm_malloc_attaches (X := XdrMem) nat (cluster_call (cluster_env c) c) (cluster_create c)
    (env_eth0 (env j)) raw _ shmat name size a j (decode_stream (enc_int 1)) []); try done.
  - apply (rd_eth0 _ _ _ _ _ Hrd).
  - change (cluster_create c (local_addr j a) = Some j). unfold cluster_create. rewrite Hhost. cbn [mbind option_bind]. by rewrite Hj.
  - by eapply cluster_creat_reply.
  - rewrite bool_decide_true; [done|]. rewrite Hseg. by eexists.
Qed.

End cluster.

(** ** Small steps

    A server serves one call at a time, so a call of a busy server waits.
    The loop of page_creat over the other servers is unrolled; the other
    procedures call nobody while the directory is empty and are one step. *)

Inductive activity :=
| Idle
| Asking (p : pageid_t) (local : bytes) (l : list bytes)             (* servers still to ask *)
| Calling (p : pageid_t) (local h : bytes) (l : list bytes)          (* inside psu_dsm_page_find_1 *)
| Ended.                                                             (* the process is gone *)

Record Node := mkNode { nd_activity : activity; nd_state : State }.

(** [DCall j k]: node [j] receives the call [k].  [DRun j]: node [j] goes on.
    [DFail j]: the call that node [j] waits for fails or times out. *)
Inductive dlabel :=
| DCall (j : nat) (k : dsm_call)
| DRun (j : nat)
| DFail (j : nat).

(** The processes that run, for their callers. *)
Definition running (nd : Node) : option State :=
  match nd_activity nd with Ended => None | _ => Some (nd_state nd) end.

(** The node when a procedure of its ends in this way. *)
Definition ends {A} (o : outcome (A * State)) (s : State) : Node :=
  match o with Ret (_, s') => mkNode Idle s' | _ => mkNode Ended s end.

Section small.
Context (host_of : bytes → option nat) (env : nat → Env) (mode : Z).

Definition cluster_of (ns : list Node) : Cluster := running <$> ns.

Definition env_here (ns : list Node) (j : nat) : Env := cluster_env host_of env mode (cluster_of ns) j.

(** The start of a call; page_creat goes on to its loop unless the page is in
    the directory, in which case the server calls itself, gets no answer and
    dereferences NULL. *)
Definition begin_call (ns : list Node) (j : nat) (k : dsm_call) (s : State) : Node :=
  let e := env_here ns j in
  match k with
  | CCreat p =>
      match get_local_ipaddr (env_eth0 e) (env_raw e IP_LEN) with
      | Ret local =>
          match search_dir p (ds_dir s) with
          | Ret None => mkNode (Asking p local (known_servers s)) s
          | _ => mkNode Ended s
          end
      | _ => mkNode Ended s
      end
  | _ => match serve e k s with Ret s' => mkNode Idle s' | _ => mkNode Ended s end
  end.

(** One iteration of the loop, up to the call; the end of the loop. *)
Definition ask (ns : list Node) (j : nat) (p : pageid_t) (local : bytes) (l : list bytes) (s : State)
    : Node :=
  let e := env_here ns j in
  match l with
  | [] => ends (creat_new (env_shmget e) (env_shmat e) (env_raw e) p local s) s
  | h :: rest =>
      if decide (strncmp h local IP_LEN ≠ 0) then
        if net_create (env_net e) h then mkNode (Calling p local h rest) s else mkNode Ended s
      else mkNode (Asking p local rest) s
  end.

(** The reply of the call. *)
Definition replied (ns : list Node) (j : nat) (p : pageid_t) (local h : bytes) (l : list bytes)
    (s : State) : Node :=
  let e := env_here ns j in
  match net_find (env_net e) h p with
  | None => mkNode Ended s
  | Some r =>
      if decide (r = 1) then ends (creat_remote (env_net e) (env_shmget e) (env_shmat e) p h s) s
      else mkNode (Asking p local l) s
  end.

Definition is_idle (ns : list Node) (h : bytes) : bool :=
  match host_of h ≫= (ns !!.) with
  | Some (mkNode Idle _) => true
  | _ => false
  end.

Definition dexec (l : dlabel) (ns : list Node) : option (list Node) :=
  match l with
  | DCall j k =>
      match ns !! j with
      | Some (mkNode Idle s) => Some (<[j := begin_call ns j k s]> ns)
      | _ => None
      end
  | DRun j =>
      match ns !! j with
      | Some (mkNode (Asking p local l) s) => Some (<[j := ask ns j p local l s]> ns)
      | Some (mkNode (Calling p local h l) s) =>
          if is_idle ns h then Some (<[j := replied ns j p local h l s]> ns) else None
      | _ => None
      end
  | DFail j =>
      match ns !! j with
      | Some (mkNode (Calling _ _ _ _) s) => Some (<[j := mkNode Ended s]> ns)
      | _ => None
      end
  end.

Fixpoint dexec_all (ls : list dlabel) (ns : list Node) : option (list Node) :=
  match ls with
  | [] => Some ns
  | l :: ls' => dexec l ns ≫= dexec_all ls'
  end.

(** *** Lemmas *)

(** What node [j] does to its own activity does not show in the cluster. *)
Lemma cluster_of_insert ns j s nd a :
  ns !! j = Some nd → running nd = Some s → a ≠ Ended →
  cluster_of (<[j := mkNode a s]> ns) = cluster_of ns.
Proof.
  intros Hj Hs Ha. unfold cluster_of. rewrite list_fmap_insert. apply list_insert_id.
  rewrite list_lookup_fmap, Hj. cbn. rewrite Hs. f_equal. by destruct a.
Qed.

(** Every other node serves calls or has ended. *)
Definition others_free (ns : list Node) (j : nat) : Prop :=
  ∀ k nd, k ≠ j → ns !! k = Some nd → nd_activity nd = Idle ∨ nd_activity nd = Ended.

(** The servers that node [j] asks are other nodes. *)
Definition asks_others (j : nat) (local : bytes) (l : list bytes) : Prop :=
  ∀ h, h ∈ l → strncmp h local IP_LEN ≠ 0 → host_of h ≠ Some j.

Lemma peer_idle ns j h a s k :
  others_free ns j → host_of h ≠ Some j → cluster_create host_of (cluster_of ns) h = Some k →
  is_idle (<[j := mkNode a s]> ns) h = true.
Proof.
  intros Hfree Hne (Hk & sk & Hsk)%cluster_create_Some. unfold is_idle. rewrite Hk.
  assert (k ≠ j) as Hkj by congruence. cbn [mbind option_bind].
  rewrite list_lookup_insert_ne by done. unfold cluster_of in Hsk.
  rewrite list_lookup_fmap, fmap_Some in Hsk. destruct Hsk as ([act st] & Hnd & Hrun).
  rewrite Hnd. destruct (Hfree k _ Hkj Hnd) as [Hact|Hact]; cbn in Hact; subst; done.
Qed.

(** One step of the loop of node [j] in a cluster that is [ns] elsewhere. *)
Lemma dexec_ask ns j nd s p local l :
  ns !! j = Some nd → running nd = Some s →
  dexec (DRun j) (<[j := mkNode (Asking p local l) s]> ns) = Some (<[j := ask ns j p local l s]> ns).
Proof.
  intros Hj Hrun. cbn [dexec]. rewrite list_lookup_insert_eq by (by eapply lookup_lt_Some).
  unfold ask, env_here. rewrite (cluster_of_insert ns j s nd) by done. by rewrite list_insert_insert_eq.
Qed.

Lemma dexec_replied ns j nd s p local h l :
  ns !! j = Some nd → running nd = Some s →
  is_idle (<[j := mkNode (Calling p local h l) s]> ns) h = true →
  dexec (DRun j) (<[j := mkNode (Calling p local h l) s]> ns) =
    Some (<[j := replied ns j p local h l s]> ns).
Proof.
  intros Hj Hrun Hidle. cbn [dexec]. rewrite list_lookup_insert_eq by (by eapply lookup_lt_Some).
  rewrite Hidle. unfold replied, env_here. rewrite (cluster_of_insert ns j s nd) by done.
  by rewrite list_insert_insert_eq.
Qed.

(** The loop, run while the others are free, ends as [find_remote] says. *)
Lemma asking_runs ns j nd s p local l :
  let e := env_here ns j in
  ns !! j = Some nd → running nd = Some s → others_free ns j → asks_others j local l →
  ∃ m, dexec_all (replicate m (DRun j)) (<[j := mkNode (Asking p local l) s]> ns) =
    Some (<[j := match find_remote (env_net e) l local p with
                 | Ret None => ends (creat_new (env_shmget e) (env_shmat e) (env_raw e) p local s) s
                 | Ret (Some h) => ends (creat_remote (env_net e) (env_shmget e) (env_shmat e) p h s) s
                 | _ => mkNode Ended s
                 end]> ns).
Proof.
  intros e Hj Hrun Hfree. induction l as [|h l IH]; intros Hoth.
  { exists 1%nat. cbn [replicate dexec_all]. by rewrite (dexec_ask ns j nd). }
  destruct IH as [m IH]; [intros h' Hh'; apply Hoth; by right|].
  pose proof (dexec_ask ns j nd s p local (h :: l) Hj Hrun) as Hask. unfold ask in Hask. fold e in Hask.
  cbn [find_remote]. destruct (decide (strncmp h local IP_LEN ≠ 0)) as [Hne|Heq].
  2:{ exists (S m). cbn [replicate dexec_all]. by rewrite Hask. }
  destruct (net_create (env_net e) h) eqn:Hc.
  2:{ exists 1%nat. cbn [replicate dexec_all]. by rewrite Hask. }
  assert (host_of h ≠ Some j) as Hhj by (apply Hoth; [by left|done]).
  apply bool_decide_eq_true in Hc as [k Hk].
  pose proof (dexec_replied ns j nd s p local h l Hj Hrun
    (peer_idle ns j h _ s k Hfree Hhj Hk)) as Hrep. unfold replied in Hrep. fold e in Hrep.
  destruct (net_find (env_net e) h p) as [r|] eqn:Hf.
  2:{ exists 2%nat. cbn [replicate dexec_all]. rewrite Hask. cbn [mbind option_bind]. by rewrite Hrep. }
  destruct (decide (r = 1)) as [Hr|Hr].
  - exists 2%nat. cbn [replicate dexec_all]. rewrite Hask. cbn [mbind option_bind]. by rewrite Hrep.
  - exists (S (S m)). cbn [replicate dexec_all]. rewrite Hask. cbn [mbind option_bind]. by rewrite Hrep.
Qed.

(** *** Theorems *)

(** page_creat run in small steps by one server, one call to another server at a time,
    while the others serve calls or have ended, terminates; the server is then in the
    state that the procedure run as a whole gives, or has ended if that does not return. *)
Theorem creat_small_steps ns j s p local :
  let e := env_here ns j in
  ns !! j = Some (mkNode Idle s) → others_free ns j → search_dir p (ds_dir s) = Ret None →
  get_local_ipaddr (env_eth0 e) (env_raw e IP_LEN) = Ret local → asks_others j local (known_servers s) →
  ∃ m, dexec_all (DCall j (CCreat p) :: replicate m (DRun j)) ns =
    Some (<[j := ends (psu_dsm_page_creat_1_svc (env_net e) (env_shmget e) (env_shmat e) (env_eth0 e)
                         (env_raw e) p s) s]> ns).
Proof.
  intros e Hj Hfree Hdir Hloc Hoth.
  destruct (asking_runs ns j _ s p local (known_servers s) Hj eq_refl Hfree Hoth) as [m Hm].
  exists m. cbn [dexec_all dexec]. rewrite Hj. unfold begin_call. fold e. rewrite Hloc, Hdir.
  cbn [mbind option_bind]. rewrite Hm. fold e. unfold psu_dsm_page_creat_1_svc.
  rewrite Hloc. cbn [obind]. rewrite Hdir. cbn [obind].
  by destruct (find_remote (env_net e) (known_servers s) local p) as [[h|]| | |].
Qed.

End small.

(** ** Two servers that create at the same time *)

(** The two servers of [init], at their addresses. *)
Definition two_host (h : bytes) : option nat :=
  if decide (cterm h = cstr "130.203.16.20") then Some 0%nat
  else if decide (cterm h = cstr "130.203.16.21") then Some 1%nat
  else None.
Definition two_env (j : nat) : Env :=
  mkEnv example_net (λ _, true) (λ key, 4096 * key)
    (Some [x82; xcb; x10; z2b (20 + Z.of_nat j)]) example_raw.
Definition two_servers : list Node := [mkNode Idle init; mkNode Idle init].

Definition addr0 : bytes := nth 0 server0 [].
Definition addr1 : bytes := nth 1 server0 [].

(** Each is asked to create a page and asks the other whether it has it. *)
Definition both_create (p q : pageid_t) : list dlabel :=
  [DCall 0 (CCreat p); DCall 1 (CCreat q); DRun 0; DRun 0; DRun 1].
Definition both_waiting (p q : pageid_t) : list Node :=
  [mkNode (Calling p addr0 addr1 []) init; mkNode (Calling q addr1 addr0 [addr1]) init].

Lemma both_create_waiting p q :
  dexec_all two_host two_env 0 (both_create p q) two_servers = Some (both_waiting p q).
Proof. vm_compute. reflexivity. Qed.

(** Every process has ended or waits for another. *)
Definition all_waiting (ns : list Node) : Prop :=
  ∀ j nd, ns !! j = Some nd →
    nd_activity nd = Ended ∨ ∃ p local h rest, nd_activity nd = Calling p local h rest.

(** Then nothing happens but that a call fails, which ends its caller. *)
Lemma dexec_waiting host_of env mode ns l ns' :
  all_waiting ns → dexec host_of env mode l ns = Some ns' →
  all_waiting ns' ∧ length ns' = length ns ∧
  ∃ j nd, ns !! j = Some nd ∧ nd_activity nd ≠ Ended ∧ ns' = <[j := mkNode Ended (nd_state nd)]> ns.
Proof.
  intros Hall Hl.
  assert (∃ j nd, ns !! j = Some nd ∧ nd_activity nd ≠ Ended ∧
    ns' = <[j := mkNode Ended (nd_state nd)]> ns) as (j & nd & Hj & Hne & ->).
  { destruct l as [j k|j|j]; cbn [dexec] in Hl;
      destruct (ns !! j) as [[act s]|] eqn:Hj; try done;
      destruct (Hall j _ Hj) as [Ha|(p & local & h & rest & Ha)]; cbn in Ha; subst act; try done.
    - unfold is_idle in Hl. destruct (host_of h) as [k|]; cbn in Hl; [|done].
      destruct (ns !! k) as [[act s']|] eqn:Hk; [|done].
      by destruct (Hall k _ Hk) as [Ha|(? & ? & ? & ? & Ha)]; cbn in Ha; subst act.
    - exists j, (mkNode (Calling p local h rest) s). split_and!; [done..|]. cbn. congruence. }
  split_and!; [|by rewrite length_insert|by eauto 10].
  intros j' nd' [(_ & <- & _)|[_ Hj']]%list_lookup_insert_Some; [by left|by eapply Hall].
Qed.

(** C34: Two shared memory servers that are asked to create pages at the same time wait
    for each other, since a server serves one call at a time; the only steps from there
    are failures of these calls, after which both processes have ended. *)
Theorem simultaneous_creat_ends_both p q :
  ∃ ns, dexec_all two_host two_env 0 (both_create p q) two_servers = Some ns ∧
    is_Some (dexec_all two_host two_env 0 [DFail 0; DFail 1] ns) ∧
    ∀ l1 l2 ns1 ns2, dexec two_host two_env 0 l1 ns = Some ns1 → dexec two_host two_env 0 l2 ns1 = Some ns2 →
      ∀ j nd, ns2 !! j = Some nd → nd_activity nd = Ended.
Proof.
  exists (both_waiting p q). split; [apply both_create_waiting|]. split; [by eexists|]. intros l1 l2 ns1 ns2 H1 H2 j nd Hj.
  apply dexec_waiting in H1 as (Hw1 & Hl1 & i & nd1 & Hi & Hn1 & ->).
  2:{ intros [|[|k]] nd' Hk; cbn in Hk; simplify_eq; right; cbn; eauto. }
  apply dexec_waiting in H2 as (_ & Hl2 & i' & nd2 & Hi' & Hn2 & ->); [|done].
  assert (i' ≠ i) as Hii.
  { intros ->. apply list_lookup_insert_Some in Hi' as [(_ & <- & _)|[? _]]; done. }
  apply list_lookup_insert_Some in Hj as [(_ & <- & _)|[Hne Hj]]; [done|].
  apply list_lookup_insert_Some in Hj as [(_ & <- & _)|[Hne' Hj]]; [done|].
  apply lookup_lt_Some in Hi, Hi', Hj. rewrite length_insert in Hi'. cbn in Hi, Hi', Hj. lia.
Qed.

(** ** Witnesses *)

Definition two_cluster : Cluster := [Some init; Some init].

Lemma two_cluster_init : cluster_init two_cluster.
Proof. intros [|[|j]] o Hj; cbn in Hj; by simplify_eq. Qed.

Definition two_eth0 (j : nat) : bytes := [x82; xcb; x10; z2b (20 + Z.of_nat j)].

Lemma two_ready p j key :
  pageid_valid p → page_key p = Ret key → (j < 2)%nat → ready two_host two_env two_cluster j p (two_eth0 j) key.
Proof.
  intros Hp Hkey Hj. destruct j as [|[|j]]; [..|lia]; split; try done.
  all: intros h [->|[->|?%elem_of_nil]%elem_of_cons]%elem_of_cons; try done; intros _;
    vm_compute; by eexists.
Qed.

Lemma pages_not_shared_witness :
  let c1 := cluster_serve two_host two_env 0 0 (CCreat example_page) init two_cluster in
  let c2 := cluster_serve two_host two_env 0 1 (CCreat example_page) init c1 in
  ∃ s0 s1, c2 !! 0%nat = Some (Some s0) ∧ c2 !! 1%nat = Some (Some s1) ∧
    ds_segs s0 !! hash_key (cstr "hello") = Some (segment (hash_key (cstr "hello")) init) ∧
    ds_segs s1 !! hash_key (cstr "hello") = Some (segment (hash_key (cstr "hello")) init).
Proof.
  apply (pages_not_shared two_host two_env 0 two_cluster two_cluster 0 1 init init example_page
    (two_eth0 0) (two_eth0 1) (hash_key (cstr "hello"))).
  - exact two_cluster_init.
  - constructor.
  - discriminate.
  - reflexivity.
  - reflexivity.
  - apply two_ready; [exact example_page_valid|vm_compute; reflexivity|lia].
  - apply two_ready; [exact example_page_valid|vm_compute; reflexivity|lia].
Defined.

Lemma malloc_end_to_end_witness :
  ∃ s', ds_segs s' !! hash_key (cstr "hello") = Some zero_page ∧
    psu_dsm_malloc nat (cluster_call 0 (cluster_env two_host two_env 0 two_cluster) two_cluster)
      (cluster_create two_host two_cluster) (Some (two_eth0 0)) example_raw
      (λ key, bool_decide (is_Some (ds_segs s' !! key))) (λ key, 4096 * key) (cstr "hello") 100
      psu_dsm_init = Ret (4096 * hash_key (cstr "hello"), psu_dsm_init).
Proof.
  destruct (malloc_end_to_end two_host two_env 0 two_cluster two_cluster 0 init (two_eth0 0)
    (λ key, 4096 * key) (cstr "hello") 100) as (s' & _ & Hseg & Hm).
  - exact two_cluster_init.
  - constructor.
  - reflexivity.
  - reflexivity.
  - apply (bool_decide_unpack _). vm_compute. exact I.
  - vm_compute. lia.
  - apply two_ready; [split; [reflexivity|by split]|vm_compute; reflexivity|lia].
  - vm_compute. reflexivity.
  - exists s'. split; [exact Hseg|exact Hm].
Defined.

Lemma creat_small_steps_witness :
  ∃ m, dexec_all two_host two_env 0 (DCall 0 (CCreat example_page) :: replicate m (DRun 0)) two_servers =
    let e := env_here two_host two_env 0 two_servers 0 in
    Some (<[0%nat := ends (psu_dsm_page_creat_1_svc (env_net e) (env_shmget e) (env_shmat e) (env_eth0 e)
                         (env_raw e) example_page init) init]> two_servers).
Proof.
  apply (creat_small_steps two_host two_env 0 two_servers 0 init example_page addr0).
  - reflexivity.
  - intros [|[|k]] nd Hk Hnd; cbn in Hnd; simplify_eq; left; reflexivity.
  - reflexivity.
  - vm_compute. reflexivity.
  - intros h [->|[->|?%elem_of_nil]%elem_of_cons]%elem_of_cons Hne; [|vm_compute; discriminate|done].
    destruct Hne. vm_compute. reflexivity.
Defined.
