(* ===== verification/DsmFault.v ===== *)
(** * Shared memory: page faults

    [segv_handler] of [psu_dsm.c], which an access to a protected page
    starts.  It looks the page up in the client's table, asks the local
    server where the page is, requests it, copies it in and opens the page for
    the access.  [mprotect] and [memcpy] act on the client's address space,
    which the handler uses through the interface [AddressSpace]. *)

From S2P Require Import Prelude CString Xdr Utility DsmMsg DsmUtil DsmServer DsmClient DsmSystem.

(** ** The address space *)

(** Segments are attached at addresses, with contents and a protection.
    [mprotect] (whose result is ignored) and [memcpy] of one page. *)
Class AddressSpace (VM : Type) := {
  vm_segment : VM → Z → option (bytes * Z);
  vm_mprotect : Z → Z → VM → VM;
  vm_memcpy : Z → bytes → VM → outcome VM
}.

(** What the handler relies on: for a page at an address where a segment is
    attached, [mprotect] sets its protection, and [memcpy] writes it if that
    allows writing and is a fault otherwise; other segments stay. *)
Class AddressSpaceLaws (VM : Type) `{AddressSpace VM} := {
  vm_mprotect_segment vm a prot b old a' :
    vm_segment vm a = Some (b, old) →
    vm_segment (vm_mprotect a prot vm) a' = if decide (a' = a) then Some (b, prot) else vm_segment vm a';
  vm_memcpy_segment vm a b old prot :
    vm_segment vm a = Some (old, prot) → length b = PAGE_SIZE → Z.testbit prot 1 = true →
    ∃ vm', vm_memcpy a b vm = Ret vm' ∧
      ∀ a', vm_segment vm' a' = if decide (a' = a) then Some (b, prot) else vm_segment vm a'
}.

(** ** The handler *)

Section fault.
Context {X VM : Type} `{XdrStream X} `{AddressSpace VM}.
Context (CLNT : Type) (clnt_call : CLNT → Z → bytes → option X).
Context (clnt_create : bytes → option CLNT).
Context (eth0 : option bytes) (raw : nat → bytes).
Context (overrun : host_t → outcome host_t).
Open Scope outcome_scope.

(** Lines 77-84: the mode of the request, from the error code of the fault. *)
Definition fault_mode (reg_err : Z) : Z :=
  if decide (Z.land reg_err 2 ≠ 0) then RW else RO.

(** Lines 96-107: the page is made writable, filled, and given its final
    protection.  [npage] is NULL when the call failed. *)
Definition install (reg_err : Z) (addr : option Z) (npage : option page_t) (vm : VM) : outcome VM :=
  match addr, npage with
  | None, _ => Undef
  | Some _, None => Crash
  | Some a, Some p =>
      let! vm := vm_memcpy a (pg_addr p) (vm_mprotect a PROT_WRITE vm) in
      Ret (vm_mprotect a
             (if decide (Z.land reg_err 2 ≠ 0) then Z.lor PROT_READ PROT_WRITE else PROT_READ) vm)
  end.

(** [segv_handler]: [debug] is whether the library is compiled with DEBUG,
    without which lines 60 and 93 destroy the client handles; [entry] is the
    uninitialized local; [fuel] bounds the search loop.  The request of line
    87 goes through [clnt], and line 69 tests [clnt], not [clnt2]. *)
Definition segv_handler (debug : bool) (fuel : nat) (entry : dsm_entry_t) (si_addr reg_err : Z)
    (cdsm : dsm_t) (vm : VM) : option (outcome VM) :=
  match get_name_from_addr fuel entry si_addr cdsm with
  | None => None
  | Some r => Some (
      let! entry := r in
      let! local_host := get_local_ipaddr eth0 (raw IP_LEN) in
      match clnt_create local_host with
      | None => Exit 1
      | Some clnt =>
          let! nameserv := psu_dsm_page_locate_1 CLNT clnt_call overrun (se_page entry) clnt in
          match nameserv with
          | None => Crash                                  (* nameserv->ip *)
          | Some h =>
              let clnt2 := clnt_create (h_ip h) in
              let req := mkRequest (se_page entry) (fault_mode reg_err) (raw IP_LEN) in
              if debug then
                let npage := psu_dsm_page_request_1 CLNT clnt_call req clnt in
                match npage, clnt2 with
                | None, None => Crash                      (* clnt_perror(clnt2) *)
                | _, _ => install reg_err (se_addr entry) npage vm
                end
              else Undef                                   (* clnt was destroyed *)
          end
      end)
  end.

(** ** Lemmas *)

Context `{!AddressSpaceLaws VM} `{!XdrLaws X}.

Lemma fault_bit reg_err : Z.land reg_err 2 = if Z.testbit reg_err 1 then 2 else 0.
Proof.
  apply Z.bits_inj'. intros i Hi. rewrite Z.land_spec. change 2 with (2 ^ 1).
  destruct (decide (i = 1)) as [->|Hne].
  - rewrite Z.pow2_bits_true by lia. destruct (Z.testbit reg_err 1); [by rewrite Z.pow2_bits_true by lia|done].
  - rewrite Z.pow2_bits_false, andb_false_r by lia.
    destruct (Z.testbit reg_err 1); [by rewrite Z.pow2_bits_false by lia|by rewrite Z.bits_0].
Qed.

(** The reference: the segment gets the page and a protection that allows
    the access. *)
Lemma install_page reg_err a p vm b old :
  vm_segment vm a = Some (b, old) → length (pg_addr p) = PAGE_SIZE →
  ∃ vm', install reg_err (Some a) (Some p) vm = Ret vm' ∧
    ∀ a', vm_segment vm' a' =
      if decide (a' = a) then Some (pg_addr p, if Z.testbit reg_err 1 then 3 else 1)
      else vm_segment vm a'.
Proof.
  intros Ha Hp. unfold install.
  destruct (vm_memcpy_segment (vm_mprotect a PROT_WRITE vm) a (pg_addr p) b PROT_WRITE) as (vm1 & -> & H1).
  - rewrite (vm_mprotect_segment vm a PROT_WRITE b old a Ha). by rewrite decide_True.
  - done.
  - done.
  - cbn [obind]. eexists. split; [done|]. intros a'.
    erewrite vm_mprotect_segment by (rewrite H1; by rewrite decide_True).
    rewrite fault_bit. destruct (decide (a' = a)) as [->|Hne].
    + by destruct (Z.testbit reg_err 1).
    + rewrite H1, decide_False by done. rewrite (vm_mprotect_segment vm a PROT_WRITE b old a' Ha).
      by rewrite decide_False.
Qed.

(** Without DEBUG the handler never returns: the request is made with a
    handle that line 60 has destroyed. *)
Theorem segv_handler_never_returns fuel entry si_addr reg_err cdsm vm vm' :
  segv_handler false fuel entry si_addr reg_err cdsm vm ≠ Some (Ret vm').
Proof.
  unfold segv_handler. destruct (get_name_from_addr _ _ _ _) as [[e|z| |]|]; try done; cbn [obind].
  destruct eth0 as [a|]; [|done]. cbn [get_local_ipaddr obind].
  destruct (clnt_create _) as [clnt|]; [|done]. unfold psu_dsm_page_locate_1.
  destruct (stub _ _ _ _ _ _ _) as [h|]; [|done]. by destruct (overrun h).
Qed.

(** In a build with DEBUG, when the answer to page_locate survives its static int and the
    uninitialized local [entry] (line 38, the client's table is always empty) happens to
    hold the address of an attached segment, segv_handler requests the page that [entry]
    names, in mode RW exactly when bit 1 of the error code is set, and leaves that segment
    with the contents received and a protection that allows the access, and all other
    segments as they were.  The address of the fault plays no part. *)
Theorem segv_handler_installs fuel entry si_addr reg_err vm addr a clnt y h h' rest z p rest' b old :
  eth0 = Some a → clnt_create (strncpy (raw IP_LEN) (inet_ntop a) IP_LEN) = Some clnt →
  clnt_call clnt PSU_DSM_PAGE_LOCATE (enc_pageid_t (se_page entry)) = Some y →
  x_op y = XDR_DECODE → host_shape h → x_in y = enc_host_t h ++ rest → overrun h = Ret h' →
  let req := mkRequest (se_page entry) (if Z.testbit reg_err 1 then RW else RO) (raw IP_LEN) in
  clnt_call clnt PSU_DSM_PAGE_REQUEST (enc_request_t req) = Some z →
  x_op z = XDR_DECODE → page_valid p → x_in z = enc_page_t p ++ rest' →
  se_addr entry = Some addr → vm_segment vm addr = Some (b, old) →
  ∃ vm', segv_handler true fuel entry si_addr reg_err psu_dsm_init vm = Some (Ret vm') ∧
    ∀ a', vm_segment vm' a' =
      if decide (a' = addr) then Some (pg_addr p, if Z.testbit reg_err 1 then 3 else 1)
      else vm_segment vm a'.
Proof.
  intros He Hcl Hloc Hy Hh Hyin Hov req Hreq Hz Hp Hzin Had Hseg.
  unfold segv_handler, psu_dsm_init.
  assert (get_name_from_addr fuel entry si_addr PNull = Some (Ret entry)) as -> by (by destruct fuel).
  rewrite He. cbn [obind get_local_ipaddr]. rewrite Hcl. unfold psu_dsm_page_locate_1.
  rewrite (stub_ok CLNT clnt_call xdr_host_t enc_host_t host_shape host_shape _ clnt _ _ y h rest xdr_host_t_ok)
    by done.
  rewrite Hov. cbn [obind].
  assert (fault_mode reg_err = if Z.testbit reg_err 1 then RW else RO) as ->
    by (unfold fault_mode; rewrite fault_bit; by destruct (Z.testbit reg_err 1)).
  fold req. rewrite (page_reply_roundtrip CLNT clnt_call req clnt z p rest' Hreq Hz Hp Hzin).
  rewrite Had. destruct (install_page reg_err addr p vm b old Hseg (proj1 Hp)) as (vm' & Hin & Hvm').
  exists vm'. split; [|done]. f_equal. by destruct (clnt_create (h_ip h')).
Qed.

End fault.

(** ** Faults in a cluster *)

Section cluster.
Context {VM : Type} `{AddressSpace VM}.
Context (host_of : bytes → option nat) (env : nat → Env) (mode : Z).

Abbreviation calls c := (cluster_call mode (cluster_env host_of env mode c) c).

(** A call that the server of node [j] answers, through stub and dispatcher. *)
Lemma cluster_answer c j s k r s' :
  c !! j = Some (Some s) → call_valid mode k →
  answer (cluster_env host_of env mode c j) k s = Ret (r, s') →
  calls c j (wire k).1 (wire k).2 = decode_stream <$> encode_reply r.
Proof.
  intros Hj Hk Ha. unfold cluster_call. rewrite Hj.
  rewrite (dsm_call_served (X := XdrMem) svc_up (cluster_env host_of env mode c j) mode k
    (decode_stream (wire k).2) s []) by (done || by rewrite app_nil_r).
  by rewrite Ha.
Qed.

(** A call at which the server's process ends gets no answer. *)
Lemma cluster_no_answer c j s k n :
  c !! j = Some (Some s) → call_valid mode k →
  answer (cluster_env host_of env mode c j) k s = Exit n → calls c j (wire k).1 (wire k).2 = None.
Proof.
  intros Hj Hk Ha. unfold cluster_call. rewrite Hj.
  rewrite (dsm_call_served (X := XdrMem) svc_up (cluster_env host_of env mode c j) mode k
    (decode_stream (wire k).2) s []) by (done || by rewrite app_nil_r).
  by rewrite Ha.
Qed.

Lemma fault_mode_ok reg_err : int_ok (fault_mode reg_err).
Proof. unfold fault_mode. case_decide; by split. Qed.

(** C36: In a cluster of shared memory servers in any reachable state, even with DEBUG
    and a page_locate answer that survives, a page fault ends both sides: the local
    server, whose directory is empty, exits at the page_request, and the handler
    dereferences the missing reply. *)
Theorem page_fault_ends_both c0 c j s a fuel entry addr si_addr reg_err overrun (vm : VM) :
  let raw := env_raw (env j) in
  let req := mkRequest (se_page entry) (fault_mode reg_err) (raw IP_LEN) in
  cluster_init c0 → rtc (cluster_step host_of env mode) c0 c → c !! j = Some (Some s) →
  env_eth0 (env j) = Some a → length (raw IP_LEN) = IP_LEN →
  host_of (local_addr env j a) = Some j → pageid_valid (se_page entry) →
  se_addr entry = Some addr → (∀ h, ∃ h', overrun h = Ret h') →
  segv_handler nat (calls c) (cluster_create host_of c) (env_eth0 (env j)) raw overrun
    true fuel entry si_addr reg_err psu_dsm_init vm = Some Crash ∧
  cluster_serve host_of env mode j (CRequest mode req) s c = <[j := None]> c.
Proof.
  intros raw req Hi Hr Hj Ha Hraw Hh Hp Had Hov.
  destruct (reachable_empty s (cluster_reach _ _ _ _ _ _ _ Hi Hr Hj)) as (Hd & _).
  assert (∀ net, psu_dsm_page_request_1_svc net mode req s = Exit 1) as Hreq
    by (intros net; unfold psu_dsm_page_request_1_svc; by rewrite Hd).
  split; [|unfold cluster_serve; cbn [serve]; by rewrite Hreq].
  set (loc := strncpy (raw IP_LEN) (local_addr env j a) IP_LEN).
  assert (host_shape (mkHost loc)) as Hshape by (unfold host_shape, loc; cbn [h_ip]; rewrite length_strncpy; rewrite Hraw; lia).
  assert (calls c j PSU_DSM_PAGE_LOCATE (enc_pageid_t (se_page entry)) =
    Some (decode_stream (enc_host_t (mkHost loc)))) as Hloc.
  { apply (cluster_answer c j s (CLocate (se_page entry)) (DHost (mkHost loc)) s Hj Hp).
    cbn [answer cluster_env env_eth0]. unfold psu_dsm_page_locate_1_svc. rewrite Ha, Hd. done. }
  assert (calls c j PSU_DSM_PAGE_REQUEST (enc_request_t req) = None) as Hno.
  { apply (cluster_no_answer c j s (CRequest mode req) 1 Hj).
    - split; [done|]. split_and!; [apply Hp..|apply fault_mode_ok|done].
    - cbn [answer]. by rewrite Hreq. }
  unfold segv_handler, psu_dsm_init.
  assert (get_name_from_addr fuel entry si_addr PNull = Some (Ret entry)) as -> by (by destruct fuel).
  rewrite Ha. cbn [obind get_local_ipaddr]. fold raw.
  change (strncpy (raw IP_LEN) (inet_ntop a) IP_LEN) with (local_addr env j a).
  assert (cluster_create host_of c (local_addr env j a) = Some j) as ->
    by (unfold cluster_create; rewrite Hh; cbn [mbind option_bind]; by rewrite Hj).
  unfold psu_dsm_page_locate_1.
  rewrite (stub_ok nat (calls c) xdr_host_t enc_host_t host_shape host_shape _ j _ _
    (decode_stream (enc_host_t (mkHost loc))) (mkHost loc) [] xdr_host_t_ok)
    by (done || exact Hshape || by rewrite app_nil_r).
  destruct (Hov (mkHost loc)) as [h' ->]. cbn [obind]. fold req.
  unfold psu_dsm_page_request_1, stub. rewrite Hno, Had. by destruct (cluster_create host_of c (h_ip h')).
Qed.

End cluster.

(** ** Witnesses *)

(** An address space as a map from the addresses of segments. *)
Abbreviation seg_map := (gmap Z (bytes * Z)).

#[export] Instance seg_map_space : AddressSpace seg_map := {
  vm_segment vm a := vm !! a;
  vm_mprotect a prot vm := alter (λ bp : bytes * Z, (bp.1, prot)) a vm;
  vm_memcpy a b vm :=
    match vm !! a with
    | Some (_, prot) => if Z.testbit prot 1 then Ret (<[a := (b, prot)]> vm) else Crash
    | None => Crash
    end
}.

#[export] Instance seg_map_laws : AddressSpaceLaws seg_map.
Proof.
  split; cbn [vm_segment vm_mprotect vm_memcpy seg_map_space].
  - intros vm a prot b old a' Ha. case_decide as Hd; subst.
    + by rewrite lookup_alter_eq, Ha.
    + by rewrite lookup_alter_ne.
  - intros vm a b old prot Ha _ Hw. rewrite Ha, Hw. eexists. split; [done|].
    intros a'. case_decide as Hd; subst; [by rewrite lookup_insert_eq|by rewrite lookup_insert_ne].
Qed.

(** A fault on a page that is attached at 8192. *)
Definition fault_entry : dsm_entry_t := mkDsmEntry example_page (Some 8192) (replicate IP_LEN x00).
Definition fault_space : seg_map := {[ 8192 := (zero_page, PROT_NONE) ]}.

(** A server that answers a locate and a page. *)
Definition fault_server (clnt : unit) (proc : Z) (args : bytes) : option XdrMem :=
  Some (decode_stream (if decide (proc = PSU_DSM_PAGE_LOCATE)
    then enc_host_t (mkHost addr0) ++ [] else enc_page_t (mkPage 5 (replicate PAGE_SIZE x41)) ++ [])).

Lemma segv_handler_installs_witness :
  ∃ vm', segv_handler unit fault_server (λ _, Some tt) (Some example_eth0) example_raw Ret
      true 0 fault_entry 8200 6 psu_dsm_init fault_space = Some (Ret vm') ∧
    vm_segment vm' 8192 = Some (replicate PAGE_SIZE x41, 3).
Proof.
  destruct (segv_handler_installs (X := XdrMem) (VM := seg_map) unit fault_server (λ _, Some tt)
    (Some example_eth0) example_raw Ret 0 fault_entry 8200 6 fault_space 8192 example_eth0 tt
    (decode_stream (enc_host_t (mkHost addr0) ++ [])) (mkHost addr0) (mkHost addr0) []
    (decode_stream (enc_page_t (mkPage 5 (replicate PAGE_SIZE x41)) ++ []))
    (mkPage 5 (replicate PAGE_SIZE x41)) [] zero_page PROT_NONE) as (vm' & Hs & Hv);
    try reflexivity.
  - split; [apply length_replicate|by split].
  - exists vm'. split; [exact Hs|]. rewrite (Hv 8192). reflexivity.
Defined.

Lemma page_fault_ends_both_witness :
  segv_handler nat (cluster_call 0 (cluster_env two_host two_env 0 two_cluster) two_cluster)
    (cluster_create two_host two_cluster) (Some (two_eth0 0)) example_raw Ret
    true 0 fault_entry 8200 6 psu_dsm_init fault_space = Some Crash.
Proof.
  refine (proj1 (page_fault_ends_both two_host two_env 0 two_cluster two_cluster 0 init (two_eth0 0)
    0 fault_entry 8192 8200 6 Ret fault_space _ _ _ _ _ _ _ _ _)).
  - exact two_cluster_init.
  - constructor.
  - reflexivity.
  - reflexivity.
  - reflexivity.
  - vm_compute. reflexivity.
  - exact example_page_valid.
  - reflexivity.
  - intros h. by exists h.
Defined.
